(* ===== verification/_CoqProject ===== *)
-Q . S2P
Prelude.v
OrdMap.v
Text.v
Domain.v
Coordinates.v
Partition.v
Seal.v
Wal.v
Forest.v
ForestTheory.v
Archive.v
Writer.v
WriterSafety.v
WriterSystem.v
Spelling.v
Strategies.v
Sst.v
Bootstrap.v
BootstrapSafety.v
Recovery.v
ObjectStore.v
Stores.v
StoreTheory.v
FaultStore.v
FaultTheory.v
FaultCalls.v
Gates.v
Common.v
BootstrapRun.v
Checkpoint.v
CheckpointTheory.v
CheckpointSafety.v
CheckpointLink.v
CheckpointRun.v
Cluster.v
ClusterInv.v
ClusterStore.v
ClusterBoot.v
ClusterWriter.v
ClusterServe.v
ClusterStep.v
ClusterSafety.v
ClusterHost.v
ClusterMoments.v
ClusterRun.v
ClusterSample.v
ClusterTakeover.v
Engine.v
Database.v
Server.v
Process.v
