(* ===== verification/Prelude.v ===== *)
(** StromDB: a verification development.

    StromDB is a durable-streams database over an object store.  One partition is one
    store root.  Its durable state is a chain of Seals (one per generation, the newest is
    the head), sorted tables the Seals name, and a write-ahead log (WAL) of RUNs and
    FENCEs.  A process opens a partition by bootstrap: it claims the next generation,
    loads the tables of the head Seal, fences the log and replays it.  It then runs one
    Writer: commands are admitted against a forest in memory, grouped into RUNs, and
    answered when the RUN is durable; checkpoints fold the log into tables and publish a
    successor Seal; collection deletes what the successor supersedes.  An HTTP server
    exposes the verbs.

    The development is a shallow embedding of the crates under src/crates.  A Rust
    function is a Rocq function of the same name, prefixed by its type where names
    collide.  [Result] is [Result E A]; code that may [panic!], [assert!] or [expect]
    returns [Exec A], whose second value is [Panic], and every such site is written out.
    [&mut self] is state passing; [?] is [let?] or [let!?].  Machine integers are [Z] with
    their bounds and wrap-around explicit; private fields behind a checked constructor are
    a [Refined] type.  Asynchronous code is cut at its awaits: a sequential chain of
    requests threads the world of the store, and concurrent tasks are steps of a relation.

    * Files and sources

    - Prelude.v: outcomes, binds, [Refined] types, orders, shared lemmas and tactics.
    - OrdMap.v, Text.v: ordered maps and the string operations of the standard library.
    - Domain.v: crate strom-domain (paths, content types, expiry, lifecycle, outcomes).
    - Coordinates.v, Partition.v, Seal.v, Wal.v: the vocabulary of strom-storage-domain
      (bounds, coordinates, table identities, partition identity, Seal, WAL), with the
      log-suffix arithmetic of strom-storage-protocol/suffix.rs in Wal.v.
    - Archive.v, Spelling.v, Sst.v: its codecs, candidates, key spellings and tables.
    - Strategies.v: the generators of valid values of both domain crates (strategy.rs).
    - Forest.v, ForestTheory.v: strom-storage-protocol/forest.rs.
    - Writer.v, WriterSafety.v: the pure Writer machine (strom-storage-protocol/writer.rs,
      outcome.rs) and its invariant.
    - WriterSystem.v: the Writer's event loop (strom-storage-engine/writer.rs) as a
      labelled step relation of machine, interpreter and outstanding effects.
    - Bootstrap.v, BootstrapSafety.v: the pure bootstrap machine
      (strom-storage-protocol/bootstrap.rs), its invariant and meaning.
    - Recovery.v: a Writer that stopped anywhere, then a bootstrap.
    - ObjectStore.v: crate strom-object-store over an abstract backend, whose laws are
      stated over any state of the store and specialised to its contents.
    - Stores.v, StoreTheory.v: strom-storage-engine/store.rs and store/.
    - FaultStore.v: the fault-injecting store (strom-object-store/test_support/
      fault_store.rs) over a wrapped backend; FaultTheory.v: what its requests answer, and
      what the adapter makes of them; FaultCalls.v: its requests interleaved.
    - Gates.v: the gates that hold its requests (test_support/gate.rs).
    - Common.v: crate strom-common (seeded randomness, the process clock, the manual clock).
    - BootstrapRun.v: the bootstrap loop on the stores (strom-storage-engine/bootstrap.rs).
    - Checkpoint.v, CheckpointTheory.v, CheckpointSafety.v: checkpoint/prepare.rs.
    - CheckpointLink.v: checkpoints along a Writer's run.
    - CheckpointRun.v: checkpoint.rs and checkpoint/collect.rs on the stores.
    - Cluster.v: any number of processes on one store, as a step relation: each runs the
      bootstrap machine and then the Writer's loop, their creates and deletes land at any
      later moment or never, and each effect is answered from one moment of the store.
    - ClusterInv.v, ClusterStore.v, ClusterBoot.v, ClusterWriter.v, ClusterServe.v,
      ClusterStep.v, ClusterSafety.v: the invariant of the cluster (one history, what the
      store, the requests, each bootstrap and each Writer know of it), that every step
      keeps it, and what follows.
    - ClusterHost.v: a backend whose other actors are the processes of a cluster, and an
      executable one.
    - ClusterMoments.v, ClusterRun.v: the bootstrap loop and the Writer's tasks (the bodies
      [spawn_effect] of strom-storage-engine/writer.rs spawns) on such a backend, as paths
      of the cluster.
    - ClusterSample.v: concrete clusters, a bootstrap and a Writer that race with another
      live process among them.  ClusterTakeover.v: a Writer that fills its log, checkpoints
      and collects, and a process that takes over from the tables.
    - Engine.v: strom-storage-engine/engine.rs.
    - Database.v: crate strom-db and strom-server/config.rs.
    - Server.v: crate strom-server (extract, handlers, respond, headers, error, lib).
    - Process.v: strom-server/main.rs.

    * What the theorems show

    - Vocabulary and codecs.  Parsers accept exactly the canonical spellings and print
      back to them; WAL, Seal and table encodings decode to what was encoded, and what
      decodes is well formed; [Seal::new] accepts exactly the legal manifests.  No generator
      of test values fails its own assertion.
    - Forest.  The strict fold refines a catalog with one entry per path; merged rows are
      accepted exactly when the two stores agree; deltas are exact; a path once occupied
      stays occupied.
    - Writer.  It never panics and never gets stuck; a positive reply is durable when
      sent; the published view is the fold of the durable log; no reply is lost or sent
      twice; a clean shutdown answers everything.
    - Bootstrap.  The machine panics exactly on an answer that is not for what it asked
      ([bootstrap_panics_exactly]).  On a store whose other actors keep Seals and FENCEs it
      never panics, it returns, its recovery is the exact fold of tables and RUNs the store
      held, and it satisfies what the Writer starts from.
    - Recovery.  What a stopped Writer had published, the next bootstrap recovers.
    - Many processes.  However processes are interleaved, however late their requests land
      and wherever they stop: there is one history that only grows, every Writer serves a
      prefix of it, the author of a generation is never replaced, the tables any stored
      Seal names fold to the history up to its cut, and a Writer that takes over has
      recovered every reply an earlier one ever sends.  The runs of the code are such
      processes: beside processes of the cluster that take any steps of their own meanwhile,
      the bootstrap loop joins the cluster as a Writer, and every task of a Writer that
      returns is a path of cluster steps that ends with the event it completes with.
    - Checkpoints.  Every preparation a Writer starts returns; the tables of the successor
      fold to the snapshot; a checkpoint is reported prepared only when the store has held
      the exact bytes of each of its tables; collection terminates, deletes only what is
      superseded, and reclaims all of it when its requests do not fail.
    - Stores.  Answers are true of the object store at some moment of the call, whatever
      the other actors do; contradictions are reported only when the store contradicts.
    - Fault injection.  Unless a fault understates metadata, each request answers as its
      wrapped store could under some failure, or lists visibly wrong; so the store keeps the
      promises ([honest_backend_laws]) that the theorems over a [Backend] ask for.  The
      adapter reads through understated metadata and refuses the lists a fault made wrong;
      only the evidence of a create rests on true metadata ([understated_size_disowned]).  A fault strikes at most one call in every
      interleaving.  No wake-up of a gate is lost.
    - Engine and server.  From any store that was opened, every read agrees with every
      positive reply received earlier; the HTTP surface panics on one kind of request only, a
      [PUT] that succeeded and whose path is not a header value; a [HEAD] after a successful
      request confirms it.  A process that ends without an error has closed its
      database, and logs it as closed only after a clean shutdown.

    * Third-party code

    It is a class parameter with its documented behaviour as a class of laws, and a
    reference instance that satisfies the laws is used by the witnesses: the object store
    ([Backend], [BackendLaws]), rkyv ([Rkyv], [RkyvLaws], with the size laws [WalSizeLaw],
    [SstSizeLaw], [SealSizeLaw] that the bounds of bounds.rs are chosen for), imbl's map
    difference ([MapDiff]), jiff timestamps ([Jiff]), the ChaCha generator
    ([GeneratorOps]), the allocator ([Heap]), in-memory row sizes ([RowLayout]), printed
    errors ([DebugFormat]), HTTP header values ([HttpOps]), S3 clients and secrets
    ([StoreBuilders]), the printed errors of the object store ([StoreErrorText]), the
    runtime's notifications ([NotifyOps], [NotifyLaws]) and instants ([InstantOps],
    [InstantLaws]), the listener ([ProcessOps]).  The relation [env] of [BackendLaws] is what other actors, and
    requests whose outcome was lost, may do around each request; theorems that need an
    object kept say so ([keeps], [seals_kept], [fences_kept]), and those that place a run
    in a cluster are over a store whose state is the rest of that cluster
    ([cluster_state], [StateLaws]): the others take its steps and no others.

    Two laws are idealisations.  [HeapLaws] says that no reservation fails, so the theorems
    that use it say nothing of a process out of memory.  [MapDiffLaws] says that imbl's
    difference comes in key order, which the code relies on and imbl's documentation does
    not spell out.  The 64-bit counter of checkpoint attempts is checked by the code;
    theorems about the Writer are about runs that have not used it up.

    * Fuel

    The loops of the source without a bound take fuel.  Bootstrap ([bootstrap_loop])
    returns [None] when it is spent; [bootstrap_returns] gives a sufficient amount for
    every store, by a measure on the phase, the tables to load and the coordinates left.
    Collection ([collect_loop]) needs at most the WAL coordinates up to the cut, and
    [collection_reclaims] is about that amount: it never runs out.  Every other loop is structural recursion on
    its data.

    * Not modelled

    - Argument parsing, the log subscriber, the sockets and the framework behind
      strom-server/main.rs: what they answer is given.
    - Tracing, [Debug] output where it is not part of an answer, and module re-exports.
    - Tests.
    - src/reference: vendored copies of other projects (SlateDB, fjall, lsm-tree,
      TigerBeetle, the durable-streams protocol and its benchmark), which no crate of the
      workspace builds or calls. *)
From stdpp Require Export base tactics decidable option list numbers countable
  fin_maps gmap sorting strings.
From Stdlib Require Export ZArith Lia.

Open Scope Z_scope.

Create HintDb strom discriminated.

(** * Outcomes *)

(** Rust's [Result]; the error type comes first so that [Result E] is a monad. *)
Inductive Result (E A : Type) : Type :=
| Ok (a : A)
| Err (e : E).
Arguments Ok {E A} a.
Arguments Err {E A} e.

(** A computation that may abort the process: a failed [assert!], an [expect] on
    an absent value, an overflowing checked operation or an explicit [panic!]. *)
Inductive Exec (A : Type) : Type :=
| Ret (a : A)
| Panic.
Arguments Ret {A} a.
Arguments Panic {A}.

Definition is_ok {E A} (r : Result E A) : bool :=
  match r with Ok _ => true | Err _ => false end.

Definition result_bind {E A B} (r : Result E A) (k : A → Result E B) : Result E B :=
  match r with Ok a => k a | Err e => Err e end.

Definition result_map {E A B} (f : A → B) (r : Result E A) : Result E B :=
  match r with Ok a => Ok (f a) | Err e => Err e end.

Definition map_err {E F A} (f : E → F) (r : Result E A) : Result F A :=
  match r with Ok a => Ok a | Err e => Err (f e) end.

Definition ok_or {E A} (e : E) (o : option A) : Result E A :=
  match o with Some a => Ok a | None => Err e end.

Definition exec_bind {A B} (x : Exec A) (k : A → Exec B) : Exec B :=
  match x with Ret a => k a | Panic => Panic end.

(** [expect]: the value of an option, or a panic. *)
Definition expect {A} (o : option A) : Exec A :=
  match o with Some a => Ret a | None => Panic end.

(** [expect] on a [Result]. *)
Definition expect_ok {E A} (r : Result E A) : Exec A :=
  match r with Ok a => Ret a | Err _ => Panic end.

(** The value of a successful computation; used to name sample states. *)
Definition unwrap {E A} (default : A) (x : Exec (Result E A)) : A :=
  match x with Ret (Ok a) => a | _ => default end.
Definition succeeds {E A} (x : Exec (Result E A)) : bool :=
  match x with Ret (Ok _) => true | _ => false end.

Lemma unwrap_ok {E A} (default : A) (x : Exec (Result E A)) :
  Is_true (succeeds x) → x = Ret (Ok (unwrap default x)).
Proof. by destruct x as [[a|e]|]. Qed.

(** Sequencing of a computation that may both panic and fail. *)
Definition try_bind {E A B} (x : Exec (Result E A)) (k : A → Exec (Result E B)) :
    Exec (Result E B) :=
  match x with
  | Ret (Ok a) => k a
  | Ret (Err e) => Ret (Err e)
  | Panic => Panic
  end.

Definition try_map_err {E F A} (f : E → F) (x : Exec (Result E A)) : Exec (Result F A) :=
  match x with
  | Ret r => Ret (map_err f r)
  | Panic => Panic
  end.

Declare Scope strom_scope.
Delimit Scope strom_scope with strom.
Open Scope strom_scope.

Notation "'let!' x ':=' e 'in' k" := (exec_bind e (fun x => k))
  (at level 10, x pattern, e at level 100, k at level 200,
   format "'let!'  x  ':='  e  'in' '//' k") : strom_scope.
Notation "'let?' x ':=' e 'in' k" := (result_bind e (fun x => k))
  (at level 10, x pattern, e at level 100, k at level 200,
   format "'let?'  x  ':='  e  'in' '//' k") : strom_scope.
Notation "'let!?' x ':=' e 'in' k" := (try_bind e (fun x => k))
  (at level 10, x pattern, e at level 100, k at level 200,
   format "'let!?'  x  ':='  e  'in' '//' k") : strom_scope.
Notation "'assert!' b 'in' k" := (if b then k else Panic)
  (at level 10, b at level 100, k at level 200,
   format "'assert!'  b  'in' '//' k") : strom_scope.

#[export] Instance Result_eq_dec {E A} `{EqDecision E} `{EqDecision A} :
  EqDecision (Result E A).
Proof. solve_decision. Defined.

#[export] Instance Exec_eq_dec {A} `{EqDecision A} : EqDecision (Exec A).
Proof. solve_decision. Defined.

Lemma is_ok_true {E A} (r : Result E A) : is_ok r = true ↔ ∃ a, r = Ok a.
Proof. destruct r; simpl; split; [eauto|done|done|]. by intros [? ?]. Qed.

Lemma existsb_false {A} (f : A → bool) l :
  existsb f l = false ↔ Forall (λ x, f x = false) l.
Proof.
  induction l as [|x l IH]; simpl; [by split|].
  rewrite orb_false_iff, IH, Forall_cons. done.
Qed.

Lemma forallb_true {A} (f : A → bool) l :
  forallb f l = true ↔ Forall (λ x, f x = true) l.
Proof.
  induction l as [|x l IH]; simpl; [by split|].
  rewrite andb_true_iff, IH, Forall_cons. done.
Qed.

(** Run a fallible conversion over a slice, stopping at the first error. *)
Fixpoint try_each {E A B} (f : A → Exec (Result E B)) (l : list A) :
    Exec (Result E (list B)) :=
  match l with
  | [] => Ret (Ok [])
  | a :: l =>
      let!? b := f a in
      let!? bs := try_each f l in
      Ret (Ok (b :: bs))
  end.

Lemma try_each_ok {E A B} (f : A → Exec (Result E B)) (g : B → A) l :
  (∀ b, b ∈ l → f (g b) = Ret (Ok b)) → try_each f (g <$> l) = Ret (Ok l).
Proof.
  induction l as [|b l IH]; intros H; [done|]. csimpl.
  rewrite (H b) by left. simpl. rewrite IH; [done|]. intros b' Hb. apply H. by right.
Qed.

Lemma try_each_each {E A B} (f : A → Exec (Result E B)) l bs :
  try_each f l = Ret (Ok bs) → Forall2 (λ a b, f a = Ret (Ok b)) l bs.
Proof.
  revert bs. induction l as [|a l IH]; intros bs; simpl; [by intros [= <-]|].
  destruct (f a) as [[b|]|] eqn:Hf; simpl; [|done..].
  destruct (try_each f l) as [[bs'|]|]; simpl; [|done..]. intros [= <-]. constructor; auto.
Qed.

Lemma try_each_no_panic {E A B} (f : A → Exec (Result E B)) l :
  (∀ a, f a ≠ Panic) → try_each f l ≠ Panic.
Proof.
  intros H. induction l as [|a l IH]; [done|]. simpl. specialize (H a).
  destruct (f a) as [[b|e]|]; simpl; [|done|done].
  destruct (try_each f l) as [[bs|e]|]; simpl; done.
Qed.

(** * Machine integers

    A [u64], [u32] or [usize] is a [Z]; the checked and saturating operations write
    their range out.  [usize] is 64 bits wide, as on every target the crates
    support (they convert [usize] to [u64] with [expect] or saturate). *)

Definition u64_max : Z := 18446744073709551615.
Definition u32_max : Z := 4294967295.
Definition usize_max : Z := u64_max.

Definition u64_checked_add (a b : Z) : option Z :=
  if decide (a + b ≤ u64_max) then Some (a + b) else None.

Definition u64_checked_sub (a b : Z) : option Z :=
  if decide (b ≤ a) then Some (a - b) else None.

Definition u64_checked_mul (a b : Z) : option Z :=
  if decide (a * b ≤ u64_max) then Some (a * b) else None.

Definition u64_saturating_add (a b : Z) : Z := Z.min (a + b) u64_max.

Definition u64_saturating_mul (a b : Z) : Z := Z.min (a * b) u64_max.

Definition u32_checked_add (a b : Z) : option Z :=
  if decide (a + b ≤ u32_max) then Some (a + b) else None.

(** The length of a [Vec] or slice, as the [usize] the code compares. *)
Definition zlen {A} (l : list A) : Z := Z.of_nat (length l).

(** * Refined values

    The crates follow one discipline: a type with private fields whose
    constructor is its trust boundary.  [Refined P] is such a type: a value
    together with the fact that the boolean check [P] accepted it.  The proof
    component is irrelevant, so two refined values are equal exactly when their
    contents are. *)

Record Refined {A : Type} (P : A → bool) : Type := mk_refined {
  content : A;
  content_ok : Is_true (P content)
}.
Arguments mk_refined {A P} content content_ok.
Arguments content {A P} r : rename.
Arguments content_ok {A P} r : rename.

(** Build a refined value when the check accepts the content. *)
Definition refined {A} (P : A → bool) (a : A) : option (Refined P) :=
  match decide (Is_true (P a)) with
  | left H => Some (mk_refined a H)
  | right _ => None
  end.

Lemma refined_eq {A} {P : A → bool} (x y : Refined P) :
  content x = content y → x = y.
Proof.
  destruct x as [a Ha], y as [b Hb]; simpl; intros ->.
  f_equal. apply proof_irrel.
Qed.

Lemma refined_eq_iff {A} {P : A → bool} (x y : Refined P) :
  x = y ↔ content x = content y.
Proof. split; [by intros ->|apply refined_eq]. Qed.

Lemma refined_Some {A} (P : A → bool) (a : A) (x : Refined P) :
  refined P a = Some x ↔ content x = a.
Proof.
  unfold refined. destruct (decide (Is_true (P a))) as [H|H]; split; intros Hx.
  - by injection Hx as <-.
  - f_equal. by apply refined_eq.
  - done.
  - destruct H. rewrite <- Hx. apply content_ok.
Qed.

Lemma refined_None {A} (P : A → bool) (a : A) :
  refined P a = None ↔ P a = false.
Proof.
  unfold refined. destruct (decide (Is_true (P a))) as [H|H].
  - split; [done|]. intros Hf. exfalso. apply Is_true_true in H. congruence.
  - split; [|done]. intros _. by destruct (P a).
Qed.

Lemma refined_content {A} {P : A → bool} (x : Refined P) :
  refined P (content x) = Some x.
Proof. by apply refined_Some. Qed.

Lemma refined_is_Some {A} (P : A → bool) (a : A) :
  P a = true → ∃ x, refined P a = Some x ∧ content x = a.
Proof.
  intros H. destruct (refined P a) as [x|] eqn:E.
  - exists x. split; [done|]. by apply refined_Some in E.
  - apply refined_None in E. congruence.
Qed.

Lemma content_true {A} {P : A → bool} (x : Refined P) : P (content x) = true.
Proof. apply Is_true_true, content_ok. Qed.

#[export] Instance Refined_eq_dec {A} {P : A → bool} `{EqDecision A} :
  EqDecision (Refined P).
Proof.
  refine (λ x y, cast_if (decide (content x = content y)));
    rewrite refined_eq_iff; done.
Defined.

#[export] Instance Refined_countable {A} {P : A → bool} `{Countable A} :
  Countable (Refined P).
Proof. apply (inj_countable content (refined P)), refined_content. Defined.

(** A fallible check as the trust boundary of a refined type: the accepted
    contents are exactly those on which [check] succeeds, and construction reports
    the error of the check. *)
Definition accepts {E A B} (check : A → Result E B) (a : A) : bool := is_ok (check a).

Definition checked {E A B} (check : A → Result E B) (a : A) :
    Result E (Refined (accepts check)) :=
  match check a as r
    return (Is_true (is_ok r) → Refined (accepts check)) →
           Result E (Refined (accepts check))
  with
  | Ok _ => λ mk, Ok (mk I)
  | Err e => λ _, Err e
  end (λ H, mk_refined a H).

Lemma checked_Ok {E A B} (check : A → Result E B) a x :
  checked check a = Ok x ↔ content x = a.
Proof.
  assert (Hgen : ∀ (r : Result E B) (mk : Is_true (is_ok r) → Refined (accepts check)),
    (∀ H, content (mk H) = a) →
    match r as r return (Is_true (is_ok r) → Refined (accepts check)) →
           Result E (Refined (accepts check)) with
    | Ok _ => λ mk, Ok (mk I) | Err e => λ _, Err e end mk = Ok x
    ↔ (is_ok r = true ∧ content x = a)).
  { intros [b|e] mk Hmk; simpl; [|naive_solver].
    split; [intros [= <-]; auto|]. intros [_ Hx]. f_equal. apply refined_eq.
    by rewrite Hmk, Hx. }
  unfold checked. rewrite Hgen by done. split; [naive_solver|].
  intros Hx. split; [|done]. rewrite <- Hx. apply (content_true x).
Qed.

Lemma checked_Err {E A B} (check : A → Result E B) a e :
  checked check a = Err e ↔ check a = Err e.
Proof.
  unfold checked, accepts.
  generalize (λ H : Is_true (is_ok (check a)), mk_refined (P := λ a, is_ok (check a)) a H).
  destruct (check a); naive_solver.
Qed.

Lemma checked_ok_iff {E A B} (check : A → Result E B) a :
  is_ok (checked check a) = is_ok (check a).
Proof.
  destruct (check a) as [b|e] eqn:Hc.
  - destruct (checked check a) as [x|e] eqn:Hx; [done|].
    apply (proj1 (checked_Err check a e)) in Hx. congruence.
  - by apply (proj2 (checked_Err check a e)) in Hc as ->.
Qed.

Lemma checked_total {E A B} (check : A → Result E B) a :
  accepts check a = true → ∃ x, checked check a = Ok x ∧ content x = a.
Proof.
  unfold accepts. rewrite <- checked_ok_iff. intros [x Hx]%is_ok_true.
  exists x. split; [done|]. by apply checked_Ok in Hx.
Qed.

Lemma checked_content {E A B} (check : A → Result E B) (x : Refined (accepts check)) :
  checked check (content x) = Ok x.
Proof. by apply checked_Ok. Qed.

(** [std::num::NonZeroU64]. *)
Definition nonzero_u64 (n : Z) : bool := (1 <=? n) && (n <=? u64_max).
Abbreviation NonZeroU64 := (Refined nonzero_u64).
Definition NonZeroU64_new (n : Z) : option NonZeroU64 := refined nonzero_u64 n.

Lemma nonzero_u64_spec n : nonzero_u64 n = true ↔ 1 ≤ n ≤ u64_max.
Proof. unfold nonzero_u64. rewrite andb_true_iff, !Z.leb_le. done. Qed.

Lemma nonzero_bounds (x : NonZeroU64) : 1 ≤ content x ≤ u64_max.
Proof. apply nonzero_u64_spec, content_true. Qed.

Lemma NonZeroU64_new_Some n x :
  NonZeroU64_new n = Some x ↔ content x = n.
Proof. apply refined_Some. Qed.

Lemma NonZeroU64_new_in n :
  1 ≤ n ≤ u64_max → ∃ x, NonZeroU64_new n = Some x ∧ content x = n.
Proof. intros Hn. by apply refined_is_Some, nonzero_u64_spec. Qed.

Lemma NonZeroU64_new_None n :
  NonZeroU64_new n = None ↔ ¬ (1 ≤ n ≤ u64_max).
Proof.
  unfold NonZeroU64_new. rewrite refined_None, <- nonzero_u64_spec.
  by rewrite not_true_iff_false.
Qed.

(** * Ordered keys

    The trait [Ord]: a three-way comparison whose equality is structural
    equality, as every derived implementation in the crates has it. *)

Class Ord (K : Type) := ord_cmp : K → K → comparison.

Class OrdLaws (K : Type) `{Ord K} : Prop := {
  ord_cmp_eq : ∀ a b : K, ord_cmp a b = Eq ↔ a = b;
  ord_cmp_opp : ∀ a b : K, ord_cmp b a = CompOpp (ord_cmp a b);
  ord_cmp_trans : ∀ a b c : K,
    ord_cmp a b = Lt → ord_cmp b c = Lt → ord_cmp a c = Lt
}.

Definition ord_lt {K} `{Ord K} (a b : K) : Prop := ord_cmp a b = Lt.
Definition ord_le {K} `{Ord K} (a b : K) : Prop := ord_cmp a b ≠ Gt.
Definition ord_ltb {K} `{Ord K} (a b : K) : bool :=
  match ord_cmp a b with Lt => true | _ => false end.

#[export] Instance ord_lt_dec {K} `{Ord K} (a b : K) : Decision (ord_lt a b).
Proof. unfold ord_lt. solve_decision. Defined.
#[export] Instance ord_le_dec {K} `{Ord K} (a b : K) : Decision (ord_le a b).
Proof. unfold ord_le. solve_decision. Defined.

Section ord_laws.
  Context {K : Type} `{OrdLaws K}.
  Implicit Types a b c : K.

Lemma ord_cmp_refl a : ord_cmp a a = Eq.
Proof. by apply ord_cmp_eq. Qed.

Lemma ord_lt_irrefl a : ¬ ord_lt a a.
Proof. unfold ord_lt. by rewrite ord_cmp_refl. Qed.

Lemma ord_lt_ne a b : ord_lt a b → a ≠ b.
Proof. intros Hl ->. by apply ord_lt_irrefl in Hl. Qed.

Lemma ord_le_lt_or_eq a b : ord_le a b ↔ ord_lt a b ∨ a = b.
Proof.
  unfold ord_le, ord_lt. rewrite <- ord_cmp_eq.
  destruct (ord_cmp a b); naive_solver.
Qed.

Lemma ord_lt_trichotomy a b : ord_lt a b ∨ a = b ∨ ord_lt b a.
Proof.
  unfold ord_lt. rewrite <- ord_cmp_eq, (ord_cmp_opp a b).
  destruct (ord_cmp a b); simpl; auto.
Qed.

Lemma ord_lt_trans a b c : ord_lt a b → ord_lt b c → ord_lt a c.
Proof. apply ord_cmp_trans. Qed.

Lemma ord_lt_asym a b : ord_lt a b → ¬ ord_lt b a.
Proof. intros H1 H2. by apply (ord_lt_irrefl a), (ord_lt_trans a b a). Qed.

#[export] Instance ord_le_trans : Transitive (@ord_le K _).
Proof.
  intros a b c. rewrite !ord_le_lt_or_eq.
  intros [H1| ->] [H2| ->]; eauto using ord_lt_trans.
Qed.

#[export] Instance ord_le_total : Total (@ord_le K _).
Proof.
  intros a b. rewrite !ord_le_lt_or_eq.
  destruct (ord_lt_trichotomy a b) as [|[]]; auto.
Qed.

#[export] Instance ord_le_antisymm : AntiSymm (=) (@ord_le K _).
Proof.
  intros a b. rewrite !ord_le_lt_or_eq. intros [H1|] [H2|]; auto.
  by apply ord_lt_asym in H1.
Qed.

Lemma ord_ltb_spec a b : ord_ltb a b = true ↔ ord_lt a b.
Proof. unfold ord_ltb, ord_lt. destruct (ord_cmp a b); naive_solver. Qed.

End ord_laws.

#[export] Instance Z_Ord : Ord Z := Z.compare.
#[export] Instance Z_OrdLaws : OrdLaws Z.
Proof.
  split; unfold ord_cmp, Z_Ord.
  - apply Z.compare_eq_iff.
  - intros a b. apply Z.compare_antisym.
  - intros a b c. rewrite !Z.compare_lt_iff. lia.
Qed.

(** Lexicographic order of slices, [Vec]s and strings. *)
Fixpoint list_cmp {K} `{Ord K} (l k : list K) : comparison :=
  match l, k with
  | [], [] => Eq
  | [], _ :: _ => Lt
  | _ :: _, [] => Gt
  | x :: l, y :: k =>
      match ord_cmp x y with Eq => list_cmp l k | c => c end
  end.

#[export] Instance list_Ord {K} `{Ord K} : Ord (list K) := list_cmp.

#[export] Instance list_OrdLaws {K} `{OrdLaws K} : OrdLaws (list K).
Proof.
  split; unfold ord_cmp, list_Ord.
  - induction a as [|x a IH]; intros [|y b]; simpl; try done.
    destruct (ord_cmp x y) eqn:E.
    + apply ord_cmp_eq in E as ->. rewrite IH. naive_solver.
    + split; [done|]. intros [= -> _]. by rewrite ord_cmp_refl in E.
    + split; [done|]. intros [= -> _]. by rewrite ord_cmp_refl in E.
  - induction a as [|x a IH]; intros [|y b]; simpl; try done.
    rewrite (ord_cmp_opp x y), IH. by destruct (ord_cmp x y).
  - induction a as [|x a IH]; intros [|y b] [|z c]; simpl; try done.
    intros H1 H2. destruct (ord_cmp x y) eqn:E1; [| |done].
    + apply ord_cmp_eq in E1 as ->. destruct (ord_cmp y z); eauto.
    + destruct (ord_cmp y z) eqn:E2; [| |done].
      * apply ord_cmp_eq in E2 as <-. by rewrite E1.
      * by rewrite (ord_cmp_trans x y z).
Qed.

#[export] Instance Refined_Ord {A} {P : A → bool} `{Ord A} : Ord (Refined P) :=
  λ x y, ord_cmp (content x) (content y).

#[export] Instance Refined_OrdLaws {A} {P : A → bool} `{OrdLaws A} :
  OrdLaws (Refined P).
Proof.
  split; unfold ord_cmp, Refined_Ord.
  - intros a b. by rewrite ord_cmp_eq, refined_eq_iff.
  - intros a b. apply ord_cmp_opp.
  - intros a b c. apply ord_cmp_trans.
Qed.
