(* ===== verification/OrdMap.v ===== *)
(** Ordered maps.

    [imbl::OrdMap] is a persistent map with iteration in key order.  The model is
    stdpp's [gmap], whose equality is extensional, with the ordered traversal
    [om_iter] on top of it.  [imbl]'s structural [diff] is third-party code: it is
    the operation of the class [MapDiff], and [MapDiffLaws] states what the
    [OrdMap] documentation promises of it. *)

From S2P Require Import Prelude.

(** Keys strictly ascending, the order in which an [OrdMap] yields its rows. *)
Definition strictly_sorted {K V} `{Ord K} (l : list (K * V)) : Prop :=
  StronglySorted ord_lt l.*1.

Section ord_map.
  Context {K : Type} `{OrdLaws K} `{Countable K}.

Definition entry_le {V} (x y : K * V) : Prop := ord_le x.1 y.1.

#[export] Instance entry_le_dec {V} (x y : K * V) : Decision (entry_le x y).
Proof. unfold entry_le. apply _. Defined.

#[local] Instance entry_le_trans {V} : Transitive (@entry_le V).
Proof. intros x y z. apply ord_le_trans. Qed.

#[local] Instance entry_le_total {V} : Total (@entry_le V).
Proof. intros x y. apply ord_le_total. Qed.

(** [OrdMap::iter]: the rows in key order. *)
Definition om_iter {V} (m : gmap K V) : list (K * V) :=
  merge_sort entry_le (map_to_list m).

Lemma om_iter_perm {V} (m : gmap K V) : om_iter m ≡ₚ map_to_list m.
Proof. apply merge_sort_Permutation. Qed.

Lemma elem_of_om_iter {V} (m : gmap K V) k v : (k, v) ∈ om_iter m ↔ m !! k = Some v.
Proof. rewrite om_iter_perm. apply elem_of_map_to_list. Qed.

Lemma om_iter_keys_NoDup {V} (m : gmap K V) : NoDup (om_iter m).*1.
Proof. rewrite om_iter_perm. apply NoDup_fst_map_to_list. Qed.

Lemma om_iter_length {V} (m : gmap K V) : length (om_iter m) = size m.
Proof. by rewrite om_iter_perm, length_map_to_list. Qed.

Lemma sorted_NoDup_strict {V} (l : list (K * V)) :
  StronglySorted entry_le l → NoDup l.*1 → strictly_sorted l.
Proof.
  unfold strictly_sorted. induction 1 as [|[k v] l Hl IH Hk]; simpl; [constructor|].
  rewrite NoDup_cons. intros [Hnk Hnd]. constructor; [by apply IH|].
  apply Forall_fmap, Forall_forall. intros [k' v'] Hin. simpl.
  rewrite Forall_forall in Hk. apply Hk in Hin as Hle.
  unfold entry_le in Hle; simpl in Hle. apply ord_le_lt_or_eq in Hle as [|Heq]; [done|].
  destruct Hnk. rewrite Heq. apply (list_elem_of_fmap_2 fst _ (k', v')), Hin.
Qed.

Lemma om_iter_sorted {V} (m : gmap K V) : strictly_sorted (om_iter m).
Proof.
  apply sorted_NoDup_strict, om_iter_keys_NoDup.
  apply StronglySorted_merge_sort; apply _.
Qed.

Lemma strictly_sorted_NoDup {V} (l : list (K * V)) :
  strictly_sorted l → NoDup l.*1.
Proof.
  unfold strictly_sorted. generalize (l.*1) as ks. clear l.
  induction 1 as [|k ks Hs IH Hk]; constructor; [|done].
  intros Hin. rewrite Forall_forall in Hk. by apply Hk, ord_lt_irrefl in Hin.
Qed.

(** Two strictly sorted row lists with the same rows are the same list. *)
Lemma strictly_sorted_unique {V} (l k : list (K * V)) :
  strictly_sorted l → strictly_sorted k → (∀ x, x ∈ l ↔ x ∈ k) → l = k.
Proof.
  unfold strictly_sorted.
  revert k. induction l as [|[a v] l IH]; intros k Hl Hk Heq.
  - destruct k as [|x k]; [done|]. specialize (Heq x). set_solver.
  - destruct k as [|[b w] k]; [specialize (Heq (a, v)); set_solver|].
    simpl in Hl, Hk. apply StronglySorted_inv in Hl as [Hl Ha], Hk as [Hk Hb].
    rewrite Forall_fmap, Forall_forall in Ha, Hb.
    assert ((a, v) = (b, w)) as [= -> ->].
    { assert ((a, v) ∈ (b, w) :: k) as Hav by (apply Heq; left).
      assert ((b, w) ∈ (a, v) :: l) as Hbw by (apply Heq; left).
      apply elem_of_cons in Hav as [|Hav], Hbw as [|Hbw]; try done.
      apply Hb in Hav; apply Ha in Hbw; simpl in *. by apply ord_lt_asym in Hav. }
    f_equal. apply IH; [done..|]. intros [c u].
    split; intros Hin.
    + assert ((c, u) ∈ (b, w) :: k) as [Hc|]%elem_of_cons by (apply Heq; by right); [|done].
      apply Ha in Hin. injection Hc as -> ->. by apply ord_lt_irrefl in Hin.
    + assert ((c, u) ∈ (b, w) :: l) as [Hc|]%elem_of_cons by (apply Heq; by right); [|done].
      apply Hb in Hin. injection Hc as -> ->. by apply ord_lt_irrefl in Hin.
Qed.

Lemma list_to_map_om_iter {V} (m : gmap K V) : list_to_map (om_iter m) = m.
Proof.
  rewrite <- (list_to_map_to_list m) at 2. apply list_to_map_proper.
  - apply om_iter_keys_NoDup.
  - apply om_iter_perm.
Qed.

Lemma om_iter_list_to_map {V} (l : list (K * V)) :
  strictly_sorted l → om_iter (list_to_map l : gmap K V) = l.
Proof.
  intros Hl. apply strictly_sorted_unique; [apply om_iter_sorted|done|].
  intros [k v]. rewrite elem_of_om_iter. symmetry.
  apply elem_of_list_to_map. by apply strictly_sorted_NoDup.
Qed.

(** Filtering rows keeps them sorted. *)
Lemma strictly_sorted_omap {V W} (f : K * V → option (K * W)) (l : list (K * V)) :
  (∀ k v r, f (k, v) = Some r → r.1 = k) →
  strictly_sorted l → strictly_sorted (omap f l).
Proof.
  intros Hf. unfold strictly_sorted.
  induction l as [|[k v] l IH]; csimpl; [done|].
  intros [Hl Hk]%StronglySorted_inv. destruct (f (k, v)) as [r|] eqn:E; csimpl; [|auto].
  apply Hf in E. rewrite E. constructor; [auto|].
  rewrite Forall_forall in Hk |- *.
  intros r' (r'' & -> & ([k' v'] & Hin & Hr')%list_elem_of_omap)%list_elem_of_fmap.
  apply Hf in Hr' as ->. apply Hk. by apply (list_elem_of_fmap_2 fst _ (k', v')).
Qed.

End ord_map.

(** * Structural difference *)

(** [imbl::ordmap::DiffItem]. *)
Inductive DiffItem (K V : Type) : Type :=
| Add (k : K) (v : V)
| Update (k : K) (old new : V)
| Remove (k : K) (v : V).
Arguments Add {K V} k v.
Arguments Update {K V} k old new.
Arguments Remove {K V} k v.

Definition diff_key {K V} (d : DiffItem K V) : K :=
  match d with Add k _ | Update k _ _ | Remove k _ => k end.

Class MapDiff (K V : Type) `{Countable K} :=
  map_diff : gmap K V → gmap K V → list (DiffItem K V).

(** What [base.diff(&new)] promises: one item per key whose value differs, an addition,
    an update or a removal according to the two sides.  That the items come in key order
    is what the code relies on (its tables are built from them in that order); the
    documentation of imbl does not spell it out. *)
Class MapDiffLaws (K V : Type) `{Ord K} `{MapDiff K V} : Prop := {
  map_diff_sorted : ∀ base new : gmap K V,
    StronglySorted ord_lt (diff_key <$> map_diff base new);
  map_diff_add : ∀ (base new : gmap K V) k v,
    Add k v ∈ map_diff base new ↔ base !! k = None ∧ new !! k = Some v;
  map_diff_update : ∀ (base new : gmap K V) k v w,
    Update k v w ∈ map_diff base new ↔
      base !! k = Some v ∧ new !! k = Some w ∧ v ≠ w;
  map_diff_remove : ∀ (base new : gmap K V) k v,
    Remove k v ∈ map_diff base new ↔ base !! k = Some v ∧ new !! k = None
}.

(** A reference difference that meets the laws: walk the keys of both sides in
    order. *)
Section reference_diff.
  Context {K V : Type} `{OrdLaws K} `{Countable K} `{EqDecision V}.

Definition diff_at (base new : gmap K V) (k : K) : option (DiffItem K V) :=
  match base !! k, new !! k with
  | None, Some w => Some (Add k w)
  | Some v, Some w => if decide (v = w) then None else Some (Update k v w)
  | Some v, None => Some (Remove k v)
  | None, None => None
  end.

Definition reference_diff : MapDiff K V := λ base new,
  omap (diff_at base new) (om_iter (base ∪ new)).*1.

Lemma diff_at_key base new k d : diff_at base new k = Some d → diff_key d = k.
Proof. unfold diff_at. intros. repeat case_match; simplify_eq/=; done. Qed.

Lemma elem_of_reference_diff base new d :
  d ∈ reference_diff base new ↔ diff_at base new (diff_key d) = Some d.
Proof.
  unfold reference_diff. rewrite list_elem_of_omap. split.
  - intros (k & _ & Hd). by rewrite (diff_at_key _ _ _ _ Hd).
  - intros Hd. exists (diff_key d). split; [|done].
    apply list_elem_of_fmap.
    assert (is_Some ((base ∪ new) !! diff_key d)) as [v Hv].
    { apply lookup_union_is_Some. unfold diff_at in Hd.
      destruct (base !! _); [eauto|]. destruct (new !! _); [eauto|done]. }
    exists (diff_key d, v). split; [done|]. by apply elem_of_om_iter.
Qed.

Lemma reference_diff_sorted base new :
  StronglySorted ord_lt (diff_key <$> reference_diff base new).
Proof.
  unfold reference_diff. pose proof (om_iter_sorted (base ∪ new)) as Hs.
  unfold strictly_sorted in Hs. revert Hs. generalize ((om_iter (base ∪ new)).*1).
  induction l as [|k l IH]; csimpl; [constructor|].
  intros [Hl Hk]%StronglySorted_inv. destruct (diff_at base new k) as [d|] eqn:E; csimpl; [|auto].
  apply diff_at_key in E as ->. constructor; [auto|].
  rewrite Forall_forall in Hk. apply Forall_fmap, Forall_forall. simpl.
  intros d' (k' & Hin & Hd')%list_elem_of_omap.
  apply diff_at_key in Hd' as ->. auto.
Qed.

Lemma reference_diff_laws : @MapDiffLaws K V _ _ _ reference_diff.
Proof.
  split.
  - apply reference_diff_sorted.
  - intros. unfold map_diff. rewrite elem_of_reference_diff. unfold diff_at; simpl.
    repeat case_match; naive_solver.
  - intros. unfold map_diff. rewrite elem_of_reference_diff. unfold diff_at; simpl.
    repeat case_match; naive_solver.
  - intros. unfold map_diff. rewrite elem_of_reference_diff. unfold diff_at; simpl.
    repeat case_match; naive_solver.
Qed.

End reference_diff.
