(* ===== verification/Text.v ===== *)
(** Strings of the program and the standard-library operations the crates use on
    them.

    A Rust [&str] is a list of Unicode scalar values; [str_len] is its length in
    UTF-8 bytes, which is what [str::len] returns.  The scalar-wise comparison
    of two strings is the comparison [Ord for str] makes on their bytes, because
    UTF-8 preserves the order of scalar values. *)

From S2P Require Import Prelude.
From Stdlib Require Import Ascii.
From Stdlib Require String.

Abbreviation char := Z.
Abbreviation str := (list Z).

(** An ASCII literal of the source. *)
Definition lit (s : String.string) : str :=
  (λ a : ascii, Z.of_N (N_of_ascii a)) <$> String.list_ascii_of_string s.
Arguments lit s%_string_scope.

(** [char::len_utf8]. *)
Definition len_utf8 (c : char) : Z :=
  if decide (c < 128) then 1
  else if decide (c < 2048) then 2
  else if decide (c < 65536) then 3 else 4.

(** [str::len]. *)
Definition str_len (s : str) : Z := foldr (λ c n, len_utf8 c + n) 0 s.

(** The UTF-8 bytes of one scalar value, and [str::bytes]. *)
Definition char_bytes (c : char) : list Z :=
  if decide (c < 128) then [c]
  else if decide (c < 2048) then [192 + c / 64; 128 + c mod 64]
  else if decide (c < 65536)
  then [224 + c / 4096; 128 + (c / 64) mod 64; 128 + c mod 64]
  else [240 + c / 262144; 128 + (c / 4096) mod 64; 128 + (c / 64) mod 64; 128 + c mod 64].

Definition str_bytes (s : str) : list Z := s ≫= char_bytes.

(** [char::is_control]: the general category Cc. *)
Definition is_control (c : char) : bool :=
  (c <? 32) || ((127 <=? c) && (c <=? 159)).

(** [char::is_whitespace]: the property White_Space. *)
Definition is_whitespace (c : char) : bool :=
  ((9 <=? c) && (c <=? 13)) || (c =? 32) || (c =? 133) || (c =? 160)
  || (c =? 5760) || ((8192 <=? c) && (c <=? 8202)) || (c =? 8232) || (c =? 8233)
  || (c =? 8239) || (c =? 8287) || (c =? 12288).

Definition is_ascii_uppercase (c : char) : bool := (65 <=? c) && (c <=? 90).
Definition is_ascii_lowercase (c : char) : bool := (97 <=? c) && (c <=? 122).
Definition is_ascii_digit (c : char) : bool := (48 <=? c) && (c <=? 57).

Definition to_ascii_lowercase_char (c : char) : char :=
  if is_ascii_uppercase c then c + 32 else c.

(** [str::to_ascii_lowercase]. *)
Definition to_ascii_lowercase (s : str) : str := to_ascii_lowercase_char <$> s.

(** [str::eq_ignore_ascii_case]. *)
Definition eq_ignore_ascii_case (s t : str) : bool :=
  bool_decide (to_ascii_lowercase s = to_ascii_lowercase t).

(** [char::to_digit(10)]. *)
Definition to_digit (c : char) : option Z :=
  if is_ascii_digit c then Some (c - 48) else None.

Definition str_contains (c : char) (s : str) : bool := existsb (Z.eqb c) s.

(** [str::starts_with] on a string pattern. *)
Fixpoint starts_with (p s : str) : bool :=
  match p, s with
  | [], _ => true
  | a :: p, b :: s => (a =? b) && starts_with p s
  | _ :: _, [] => false
  end.

(** [str::split] on a character: one more piece than there are separators, so
    never the empty list.  The first piece is returned apart. *)
Fixpoint split_pieces (c : char) (s : str) : str * list str :=
  match s with
  | [] => ([], [])
  | x :: s =>
      let '(piece, rest) := split_pieces c s in
      if x =? c then ([], piece :: rest) else (x :: piece, rest)
  end.

Definition split_char (c : char) (s : str) : list str :=
  let '(piece, rest) := split_pieces c s in piece :: rest.

(** [str::split_once] on a character. *)
Fixpoint split_once_char (c : char) (s : str) : option (str * str) :=
  match s with
  | [] => None
  | x :: s =>
      if x =? c then Some ([], s)
      else match split_once_char c s with
           | Some (a, b) => Some (x :: a, b)
           | None => None
           end
  end.

(** [str::split_once] on a string pattern: the first occurrence. *)
Fixpoint split_once_str (p s : str) : option (str * str) :=
  if starts_with p s then Some ([], drop (length p) s)
  else match s with
       | [] => None
       | x :: s =>
           match split_once_str p s with
           | Some (a, b) => Some (x :: a, b)
           | None => None
           end
       end.

(** [str::strip_prefix]. *)
Definition strip_prefix (p s : str) : option str :=
  if starts_with p s then Some (drop (length p) s) else None.

Fixpoint trim_start (s : str) : str :=
  match s with
  | [] => []
  | x :: t => if is_whitespace x then trim_start t else s
  end.

(** [str::trim]. *)
Definition trim (s : str) : str := reverse (trim_start (reverse (trim_start s))).

(** * Decimal spelling *)

(** The value of a digit string read left to right, starting from [acc]. *)
Definition dec_value (acc : Z) (s : str) : Z :=
  foldl (λ a c, a * 10 + (c - 48)) acc s.

(** The [n] low-order decimal digits of [v]: the format [{:0n}] when [v] has at
    most [n] digits. *)
Fixpoint dec_pad (n : nat) (v : Z) : str :=
  match n with
  | O => []
  | S n => dec_pad n (v / 10) ++ [48 + v mod 10]
  end.

(** Number of decimal digits of a [u64], at least one. *)
Fixpoint dec_width (fuel : nat) (v : Z) : nat :=
  match fuel with
  | O => 1
  | S fuel => if decide (v < 10) then 1 else S (dec_width fuel (v / 10))
  end.

(** [Display for u64]; twenty digits cover [u64::MAX]. *)
Definition dec (v : Z) : str := dec_pad (dec_width 19 v) v.

(** * Lemmas *)

Lemma len_utf8_pos c : 1 ≤ len_utf8 c.
Proof. unfold len_utf8. repeat case_decide; lia. Qed.

Lemma str_len_nonneg s : 0 ≤ str_len s.
Proof.
  induction s as [|c s IH]; simpl; [done|]. pose proof (len_utf8_pos c). lia.
Qed.

Lemma str_len_app s t : str_len (s ++ t) = str_len s + str_len t.
Proof. induction s as [|c s IH]; simpl; [done|]. rewrite IH. lia. Qed.

Lemma str_len_0 s : str_len s = 0 ↔ s = [].
Proof.
  split; [|by intros ->]. destruct s as [|c s]; simpl; [done|].
  pose proof (len_utf8_pos c). pose proof (str_len_nonneg s). lia.
Qed.

Lemma str_bytes_len s : zlen (str_bytes s) = str_len s.
Proof.
  unfold zlen, str_bytes. induction s as [|c s IH]; [done|].
  rewrite bind_cons. cbn [str_len foldr]. rewrite length_app, Nat2Z.inj_add, IH. f_equal.
  unfold char_bytes, len_utf8. repeat case_decide; done.
Qed.

Definition is_ascii_str (s : str) : Prop := Forall (λ c, 0 ≤ c < 128) s.

Lemma str_len_ascii s : is_ascii_str s → str_len s = zlen s.
Proof.
  unfold zlen. induction 1 as [|c s Hc _ IH]; simpl; [done|].
  rewrite IH. unfold len_utf8. rewrite decide_True by lia. lia.
Qed.

Lemma str_bytes_ascii s : is_ascii_str s → str_bytes s = s.
Proof.
  unfold str_bytes. induction 1 as [|c s Hc _ IH]; csimpl; [done|].
  rewrite IH. unfold char_bytes. by rewrite decide_True by lia.
Qed.

Lemma is_digit_spec c : is_ascii_digit c = true ↔ 48 ≤ c ≤ 57.
Proof. unfold is_ascii_digit. rewrite andb_true_iff, !Z.leb_le. done. Qed.

Definition all_digits (s : str) : Prop := Forall (λ c, 48 ≤ c ≤ 57) s.

Lemma all_digits_ascii s : all_digits s → is_ascii_str s.
Proof. intros Hs. eapply Forall_impl; [exact Hs|]. simpl. lia. Qed.

Lemma dec_value_app acc s t : dec_value acc (s ++ t) = dec_value (dec_value acc s) t.
Proof. apply foldl_app. Qed.

Lemma dec_pad_length n v : length (dec_pad n v) = n.
Proof.
  revert v. induction n as [|n IH]; intros v; simpl; [done|].
  rewrite length_app, IH. simpl. lia.
Qed.

Lemma dec_pad_digits n v : 0 ≤ v → all_digits (dec_pad n v).
Proof.
  revert v. induction n as [|n IH]; intros v Hv; simpl; [constructor|].
  apply Forall_app. split; [apply IH, Z.div_pos; lia|].
  constructor; [|constructor]. pose proof (Z.mod_pos_bound v 10). lia.
Qed.

Lemma dec_pad_value n v : 0 ≤ v < 10 ^ Z.of_nat n → dec_value 0 (dec_pad n v) = v.
Proof.
  revert v. induction n as [|n IH]; intros v Hv; simpl.
  - change (10 ^ Z.of_nat 0) with 1 in Hv. unfold dec_value; simpl. lia.
  - rewrite Nat2Z.inj_succ, Z.pow_succ_r in Hv by lia.
    rewrite dec_value_app, IH.
    + unfold dec_value; simpl. pose proof (Z.div_mod v 10). lia.
    + split; [apply Z.div_pos; lia|]. apply Z.div_lt_upper_bound; lia.
Qed.

Lemma dec_width_bound fuel v :
  0 ≤ v < 10 ^ Z.of_nat (S fuel) →
  v < 10 ^ Z.of_nat (dec_width fuel v) ∧
  (1 ≤ v → 10 ^ Z.of_nat (pred (dec_width fuel v)) ≤ v) ∧
  (1 ≤ dec_width fuel v)%nat.
Proof.
  revert v. induction fuel as [|fuel IH]; intros v Hv.
  - simpl dec_width. change (10 ^ Z.of_nat 1) with 10 in *. simpl. lia.
  - cbn [dec_width]. case_decide as Hs.
    + change (10 ^ Z.of_nat 1) with 10. simpl. lia.
    + assert (0 ≤ v / 10 < 10 ^ Z.of_nat (S fuel)) as Hq.
      { rewrite (Nat2Z.inj_succ (S fuel)), Z.pow_succ_r in Hv by lia.
        split; [apply Z.div_pos; lia|]. apply Z.div_lt_upper_bound; lia. }
      specialize (IH (v / 10) Hq) as (Hu & Hl & Hw).
      rewrite Nat2Z.inj_succ, Z.pow_succ_r by lia. simpl pred.
      assert (1 ≤ v / 10) by (apply Z.div_le_lower_bound; lia).
      specialize (Hl ltac:(done)).
      replace (dec_width fuel (v / 10)) with (S (pred (dec_width fuel (v / 10)))) by lia.
      set (w := pred _) in *.
      rewrite Nat2Z.inj_succ, Z.pow_succ_r by lia.
      pose proof (Z.div_mod v 10). pose proof (Z.mod_pos_bound v 10).
      replace (dec_width fuel (v / 10)) with (S w) in Hu by (unfold w; lia).
      rewrite Nat2Z.inj_succ, Z.pow_succ_r in Hu by lia. lia.
Qed.

Lemma u64_20_digits v : 0 ≤ v ≤ u64_max → 0 ≤ v < 10 ^ Z.of_nat 20.
Proof. unfold u64_max. change (10 ^ Z.of_nat 20) with 100000000000000000000. lia. Qed.

Lemma dec_value_dec v : 0 ≤ v ≤ u64_max → dec_value 0 (dec v) = v.
Proof.
  intros Hv. apply dec_pad_value. split; [lia|].
  by apply dec_width_bound, u64_20_digits.
Qed.

Lemma dec_digits v : 0 ≤ v → all_digits (dec v).
Proof. apply dec_pad_digits. Qed.

(** ** Splitting and trimming *)

Definition no_char (c : char) (s : str) : Prop := Forall (λ x, x ≠ c) s.

Lemma str_contains_false c s : str_contains c s = false ↔ no_char c s.
Proof.
  unfold str_contains, no_char. induction s as [|x s IH]; simpl; [by split|].
  rewrite orb_false_iff, IH, Forall_cons, Z.eqb_neq. naive_solver.
Qed.

Lemma split_pieces_none c s : no_char c s → split_pieces c s = (s, []).
Proof.
  induction 1 as [|x s Hx _ IH]; simpl; [done|].
  rewrite IH. by rewrite (proj2 (Z.eqb_neq x c) Hx).
Qed.

Lemma split_pieces_app c s t :
  no_char c s →
  split_pieces c (s ++ c :: t) = (s, (split_pieces c t).1 :: (split_pieces c t).2).
Proof.
  induction 1 as [|x s Hx _ IH]; simpl.
  - destruct (split_pieces c t). by rewrite Z.eqb_refl.
  - rewrite IH. by rewrite (proj2 (Z.eqb_neq x c) Hx).
Qed.

Lemma split_once_char_app c s t :
  no_char c s → split_once_char c (s ++ c :: t) = Some (s, t).
Proof.
  induction 1 as [|x s Hx _ IH]; simpl; [by rewrite Z.eqb_refl|].
  rewrite (proj2 (Z.eqb_neq x c) Hx). by rewrite IH.
Qed.

Lemma split_once_char_Some c s a b :
  split_once_char c s = Some (a, b) → s = a ++ c :: b ∧ no_char c a.
Proof.
  revert a b. induction s as [|x s IH]; intros a b; simpl; [done|].
  destruct (Z.eqb_spec x c) as [->|Hx].
  - intros [= <- <-]. split; [done|constructor].
  - destruct (split_once_char c s) as [[a' b']|]; [|done]. intros [= <- <-].
    destruct (IH a' b' eq_refl) as [-> Ha]. split; [done|by constructor].
Qed.

Lemma split_once_char_none c s : no_char c s → split_once_char c s = None.
Proof.
  induction 1 as [|x s Hx _ IH]; simpl; [done|].
  rewrite (proj2 (Z.eqb_neq x c) Hx). by rewrite IH.
Qed.

Lemma starts_with_app p s : starts_with p (p ++ s) = true.
Proof. induction p; simpl; [done|]. by rewrite Z.eqb_refl. Qed.

Lemma starts_with_true p s : starts_with p s = true ↔ ∃ t, s = p ++ t.
Proof.
  split; [|intros [t ->]; apply starts_with_app].
  revert s. induction p as [|a p IH]; intros [|b s]; simpl; try done; [eauto..|].
  rewrite andb_true_iff, Z.eqb_eq. intros [-> [t ->]%IH]. by exists t.
Qed.

Lemma starts_with_drop p s : starts_with p s = true → s = p ++ drop (length p) s.
Proof. intros [t ->]%starts_with_true. by rewrite drop_app_length. Qed.

Lemma split_once_str_Some p s a b :
  split_once_str p s = Some (a, b) → s = a ++ p ++ b.
Proof.
  revert a b. induction s as [|x s IH]; intros a b; cbn [split_once_str].
  - destruct (starts_with p []) eqn:E; [|done]. intros [= <- <-].
    by apply starts_with_drop.
  - destruct (starts_with p (x :: s)) eqn:E.
    + intros [= <- <-]. by apply starts_with_drop.
    + destruct (split_once_str p s) as [[a' b']|]; [|done]. intros [= <- <-].
      by rewrite (IH a' b' eq_refl).
Qed.

(** The first occurrence is found when the head character of the pattern does
    not occur before it. *)
Lemma split_once_str_app c p s t :
  no_char c s → split_once_str (c :: p) (s ++ (c :: p) ++ t) = Some (s, t).
Proof.
  induction 1 as [|x s Hx _ IH].
  - simpl. rewrite Z.eqb_refl, starts_with_app. simpl. by rewrite drop_app_length.
  - change ((x :: s) ++ (c :: p) ++ t) with (x :: (s ++ (c :: p) ++ t)).
    cbn [split_once_str]. rewrite IH. cbn [starts_with].
    by rewrite (proj2 (Z.eqb_neq c x)) by done.
Qed.

Lemma split_once_str_none c p s : no_char c s → split_once_str (c :: p) s = None.
Proof.
  induction 1 as [|x s Hx _ IH]; [done|].
  cbn [split_once_str starts_with]. rewrite IH.
  by rewrite (proj2 (Z.eqb_neq c x)) by done.
Qed.

Definition no_whitespace (s : str) : Prop := Forall (λ c, is_whitespace c = false) s.

Lemma trim_start_id s : no_whitespace s → trim_start s = s.
Proof. destruct 1 as [|x s Hx]; simpl; [done|]. by rewrite Hx. Qed.

Lemma trim_id s : no_whitespace s → trim s = s.
Proof.
  intros Hs. unfold trim. rewrite (trim_start_id s) by done.
  rewrite trim_start_id; [apply reverse_involutive|]. by apply Forall_reverse.
Qed.

Lemma trim_space s : no_whitespace s → trim (32 :: s) = s.
Proof.
  intros Hs. unfold trim. cbn [trim_start].
  change (is_whitespace 32) with true. cbv iota.
  by apply trim_id.
Qed.

Lemma trim_start_suffix s : ∃ p, s = p ++ trim_start s.
Proof.
  induction s as [|x s [p IH]]; simpl; [by exists []|].
  destruct (is_whitespace x); [|by exists []]. exists (x :: p). simpl. by f_equal.
Qed.

Lemma trim_sublist s : ∃ p q, s = p ++ trim s ++ q.
Proof.
  unfold trim. destruct (trim_start_suffix s) as [p Hp].
  destruct (trim_start_suffix (reverse (trim_start s))) as [q Hq].
  exists p, (reverse q). rewrite Hp at 1. f_equal.
  rewrite <- reverse_app, <- Hq. by rewrite reverse_involutive.
Qed.

Lemma trim_len s : str_len (trim s) ≤ str_len s.
Proof.
  destruct (trim_sublist s) as (p & q & Hs). rewrite Hs at 2.
  rewrite !str_len_app. pose proof (str_len_nonneg p). pose proof (str_len_nonneg q). lia.
Qed.

(** ** ASCII case *)

Lemma lowercase_char_idem c :
  to_ascii_lowercase_char (to_ascii_lowercase_char c) = to_ascii_lowercase_char c.
Proof.
  unfold to_ascii_lowercase_char, is_ascii_uppercase.
  destruct (Z.leb_spec 65 c), (Z.leb_spec c 90); simpl; try done;
    repeat match goal with |- context [?a <=? ?b] => destruct (Z.leb_spec a b) end;
    simpl; lia.
Qed.

Lemma lowercase_idem s : to_ascii_lowercase (to_ascii_lowercase s) = to_ascii_lowercase s.
Proof.
  unfold to_ascii_lowercase. rewrite <- list_fmap_compose.
  apply list_fmap_ext. intros ? c _. apply lowercase_char_idem.
Qed.

Lemma lowercase_app s t :
  to_ascii_lowercase (s ++ t) = to_ascii_lowercase s ++ to_ascii_lowercase t.
Proof. apply fmap_app. Qed.

Lemma lowercase_id s :
  Forall (λ c, is_ascii_uppercase c = false) s → to_ascii_lowercase s = s.
Proof.
  unfold to_ascii_lowercase. induction 1 as [|c s Hc _ IH]; [done|].
  rewrite fmap_cons, IH. unfold to_ascii_lowercase_char. by rewrite Hc.
Qed.

Lemma lowercase_no_upper s :
  Forall (λ c, is_ascii_uppercase c = false) (to_ascii_lowercase s).
Proof.
  apply Forall_fmap, Forall_forall. intros c _. simpl.
  unfold to_ascii_lowercase_char, is_ascii_uppercase.
  destruct (Z.leb_spec 65 c), (Z.leb_spec c 90); simpl;
    rewrite andb_false_iff, !Z.leb_gt; lia.
Qed.

Lemma split_pieces_len c s :
  str_len (split_pieces c s).1 ≤ str_len s ∧
  Forall (λ p, str_len p ≤ str_len s) (split_pieces c s).2.
Proof.
  induction s as [|x s IH]; simpl; [done|].
  pose proof (len_utf8_pos x). pose proof (str_len_nonneg s).
  destruct (split_pieces c s) as [p r], IH as [Hp Hr]; simpl in *.
  assert (Forall (λ q, str_len q ≤ len_utf8 x + str_len s) r).
  { eapply Forall_impl; [exact Hr|]. simpl. lia. }
  destruct (x =? c); simpl; split; [lia| |lia|done].
  constructor; [lia|done].
Qed.

(** ** Uniqueness of the decimal spelling *)

Lemma dec_value_shift acc s :
  dec_value acc s = acc * 10 ^ zlen s + dec_value 0 s.
Proof.
  unfold zlen. revert acc. induction s as [|c s IH] using rev_ind; intros acc.
  - unfold dec_value. simpl. lia.
  - rewrite !dec_value_app, (IH acc). unfold dec_value at 1 3. simpl.
    rewrite length_app, Nat2Z.inj_add. change (Z.of_nat (length [c])) with 1.
    rewrite Z.pow_add_r by lia. lia.
Qed.

Lemma dec_value_bounds s : all_digits s → 0 ≤ dec_value 0 s < 10 ^ zlen s.
Proof.
  unfold zlen. induction s as [|c s IH] using rev_ind; intros Hs; [done|].
  apply Forall_app in Hs as [Hs [Hc _]%Forall_cons]. specialize (IH Hs).
  rewrite dec_value_app. unfold dec_value at 1 3. simpl.
  rewrite length_app, Nat2Z.inj_add. change (Z.of_nat (length [c])) with 1.
  rewrite Z.pow_add_r by lia. lia.
Qed.

Lemma dec_pad_dec_value s : all_digits s → dec_pad (length s) (dec_value 0 s) = s.
Proof.
  induction s as [|c s IH] using rev_ind; intros Hs; [done|].
  apply Forall_app in Hs as [Hs [Hc _]%Forall_cons].
  rewrite length_app, Nat.add_comm, dec_value_app. unfold dec_value at 1. simpl.
  assert ((dec_value 0 s * 10 + (c - 48)) / 10 = dec_value 0 s) as ->.
  { symmetry. apply (Z.div_unique _ _ _ (c - 48)); lia. }
  assert ((dec_value 0 s * 10 + (c - 48)) mod 10 = c - 48) as ->.
  { symmetry. apply (Z.mod_unique _ _ (dec_value 0 s)); lia. }
  rewrite IH by done. f_equal. f_equal. lia.
Qed.

(** A digit string without a superfluous leading zero. *)
Definition plain_decimal (s : str) : Prop :=
  all_digits s ∧ s ≠ [] ∧ ((1 < length s)%nat → head s ≠ Some 48).

Lemma dec_width_unique n v :
  0 ≤ v ≤ u64_max → (1 ≤ n)%nat →
  v < 10 ^ Z.of_nat n → ((1 < n)%nat → 10 ^ Z.of_nat (pred n) ≤ v) →
  dec_width 19 v = n.
Proof.
  intros Hv Hn Hu Hl.
  destruct (dec_width_bound 19 v) as (Wu & Wl & Wn); [by apply u64_20_digits|].
  set (w := dec_width 19 v) in *.
  destruct (Nat.lt_trichotomy w n) as [Hlt|[?|Hgt]]; [exfalso|done|exfalso].
  - specialize (Hl ltac:(lia)).
    assert (10 ^ Z.of_nat w ≤ 10 ^ Z.of_nat (pred n)) by (apply Z.pow_le_mono_r; lia). lia.
  - assert (10 ^ Z.of_nat n ≤ 10 ^ Z.of_nat (pred w)) by (apply Z.pow_le_mono_r; lia).
    destruct (decide (v = 0)) as [Hv0|]; [|specialize (Wl ltac:(lia)); lia].
    assert (w = 1%nat) by (unfold w; by rewrite Hv0). lia.
Qed.

Lemma dec_plain v : 0 ≤ v ≤ u64_max → plain_decimal (dec v).
Proof.
  intros Hv. destruct (dec_width_bound 19 v) as (Wu & Wl & Wn); [by apply u64_20_digits|].
  split; [apply dec_digits; lia|]. unfold dec. split.
  - intros Hn%(f_equal length). rewrite dec_pad_length in Hn. cbn [length] in Hn. lia.
  - rewrite dec_pad_length. intros Hw Hh.
    assert (1 ≤ v) as Hv1.
    { destruct (decide (v = 0)) as [Hv0|]; [|lia].
      assert (dec_width 19 v = 1%nat) by (by rewrite Hv0). lia. }
    specialize (Wl Hv1). pose proof (dec_pad_value (dec_width 19 v) v ltac:(lia)) as Hval.
    pose proof (dec_pad_digits (dec_width 19 v) v ltac:(lia)) as Hd.
    pose proof (dec_pad_length (dec_width 19 v) v) as Hlen.
    destruct (dec_pad (dec_width 19 v) v) as [|c s]; [done|].
    injection Hh as ->. change (48 :: s) with ([48] ++ s) in Hval.
    rewrite dec_value_app in Hval. change (dec_value 0 [48]) with 0 in Hval.
    apply Forall_cons in Hd as [_ Hd]. pose proof (dec_value_bounds s Hd) as Hb.
    unfold zlen in Hb. cbn [length] in Hlen. rewrite <- Hlen in Wl. cbn [pred] in Wl. lia.
Qed.

Lemma plain_decimal_unique s :
  plain_decimal s → dec_value 0 s ≤ u64_max → s = dec (dec_value 0 s).
Proof.
  intros (Hd & Hne & Hz) Hv. unfold dec.
  pose proof (dec_value_bounds s Hd) as Hb. unfold zlen in Hb.
  rewrite (dec_width_unique (length s)); [by rewrite dec_pad_dec_value|lia| |lia|].
  - destruct s; simpl; [done|lia].
  - intros Hl. specialize (Hz Hl). destruct s as [|c s]; [done|].
    apply Forall_cons in Hd as [Hc Hd]. pose proof (dec_value_bounds s Hd) as Hbs.
    unfold zlen in Hbs. simpl pred.
    change (dec_value 0 (c :: s)) with (dec_value (0 * 10 + (c - 48)) s).
    rewrite dec_value_shift. unfold zlen. simpl in Hz.
    assert (c ≠ 48) by congruence. nia.
Qed.

Lemma str_bytes_ascii_inv s : Forall (λ b, b < 128) (str_bytes s) → str_bytes s = s.
Proof.
  unfold str_bytes. induction s as [|c s IH]; [done|]. rewrite bind_cons, Forall_app.
  intros [Hc Hs]. rewrite IH by done. unfold char_bytes in *.
  case_decide as H1; [done|]. exfalso.
  repeat case_decide; apply Forall_cons in Hc as [Hc _].
  - assert (0 ≤ c / 64) by (apply Z.div_pos; lia). lia.
  - assert (0 ≤ c / 4096) by (apply Z.div_pos; lia). lia.
  - assert (0 ≤ c / 262144) by (apply Z.div_pos; lia). lia.
Qed.
