(* ===== verification/Domain.v ===== *)
(** The protocol vocabulary: stream paths, content types, expiry policies,
    lifecycles and operation outcomes (crate [strom-domain]). *)

From S2P Require Import Prelude Text.

(** * Stream paths *)

(** strom-domain/src/stream_path.rs:14-14, [STREAM_PATH_BYTES_MAX]. *)
Definition STREAM_PATH_BYTES_MAX : Z := 512.

(** strom-domain/src/stream_path.rs:18-18, [ROOT_SEGMENT_RESERVED]. *)
Definition ROOT_SEGMENT_RESERVED : str := lit "__ds".

(** strom-domain/src/stream_path.rs:78-90, [StreamPathError]. *)
Inductive StreamPathError : Type :=
| PathOverMaxBytes
| ControlCharacter
| EmptySegment
| RelativeSegment
| ReservedRootSegment.

#[export] Instance StreamPathError_eq_dec : EqDecision StreamPathError.
Proof. solve_decision. Defined.

(** strom-domain/src/stream_path.rs:43-53, [StreamPath::validate (segment loop)]. *)
Fixpoint validate_segments (segment_index : Z) (segments : list str) :
    Result StreamPathError unit :=
  match segments with
  | [] => Ok tt
  | segment :: segments =>
      if bool_decide (segment = []) then Err EmptySegment
      else if bool_decide (segment = lit ".") || bool_decide (segment = lit "..")
      then Err RelativeSegment
      else if (segment_index =? 0) && bool_decide (segment = ROOT_SEGMENT_RESERVED)
      then Err ReservedRootSegment
      else validate_segments (segment_index + 1) segments
  end.

(** strom-domain/src/stream_path.rs:36-55, [StreamPath::validate]. *)
Definition StreamPath_validate (path : str) : Result StreamPathError str :=
  if STREAM_PATH_BYTES_MAX <? str_len path then Err PathOverMaxBytes
  else if existsb is_control path then Err ControlCharacter
  else
    let? _ := validate_segments 0 (split_char 47 path) in
    Ok path.

(** A path is a string that [validate] accepted; the field is private.
    strom-domain/src/stream_path.rs:7-8, [StreamPath]. *)
Definition StreamPath : Type := Refined (accepts StreamPath_validate).

(** strom-domain/src/stream_path.rs:58-64, [StreamPath::from_str]. *)
Definition StreamPath_from_str (path : str) : Result StreamPathError StreamPath :=
  checked StreamPath_validate path.

(** strom-domain/src/stream_path.rs:20-24, [StreamPath::as_str]. *)
Definition StreamPath_as_str (path : StreamPath) : str := content path.

#[export] Instance StreamPath_eq_dec : EqDecision StreamPath := _.
#[export] Instance StreamPath_countable : Countable StreamPath := _.
#[export] Instance StreamPath_Ord : Ord StreamPath := _.
#[export] Instance StreamPath_OrdLaws : OrdLaws StreamPath := _.

(** The declarative reading of a well-formed path. *)
Definition segment_ok (segment : str) : Prop :=
  segment ≠ [] ∧ segment ≠ lit "." ∧ segment ≠ lit "..".

Definition path_ok (path : str) : Prop :=
  str_len path ≤ STREAM_PATH_BYTES_MAX ∧
  Forall (λ c, is_control c = false) path ∧
  Forall segment_ok (split_char 47 path) ∧
  head (split_char 47 path) ≠ Some ROOT_SEGMENT_RESERVED.

Lemma validate_segments_ok index segments :
  0 ≤ index →
  validate_segments index segments = Ok tt ↔
  Forall segment_ok segments ∧
  (index = 0 → head segments ≠ Some ROOT_SEGMENT_RESERVED).
Proof.
  revert index. induction segments as [|s l IH]; intros i Hi; simpl; [done|].
  rewrite Forall_cons. unfold segment_ok at 1.
  case_bool_decide as H1; [split; [done|]; intros [[[??]?]?]; done|].
  case_bool_decide as H2; simpl; [split; [done|]; intros [[(?&?&?)?]?]; done|].
  case_bool_decide as H3; simpl; [split; [done|]; intros [[(?&?&?)?]?]; done|].
  destruct (Z.eqb_spec i 0) as [Hi0|Hi0]; simpl.
  - case_bool_decide as H4.
    + split; [done|]. intros [_ Hr]. destruct (Hr Hi0). by rewrite H4.
    + rewrite IH by lia. split; [|by intros [[_ ?] _]; split; [|lia]].
      intros [? _]. split; [done|]. intros _ [= ?]. done.
  - rewrite IH by lia. split; [|by intros [[_ ?] _]; split; [|lia]].
    intros [? _]. split; [done|]. lia.
Qed.

Lemma StreamPath_validate_ok path :
  StreamPath_validate path = Ok path ↔ path_ok path.
Proof.
  unfold StreamPath_validate, path_ok.
  destruct (Z.ltb_spec STREAM_PATH_BYTES_MAX (str_len path)); [split; [done|lia]|].
  destruct (existsb is_control path) eqn:Hc.
  - split; [done|]. intros (_ & Hn & _). apply existsb_false in Hn. congruence.
  - apply existsb_false in Hc.
    destruct (validate_segments 0 (split_char 47 path)) as [[]|] eqn:Hv; simpl.
    + apply validate_segments_ok in Hv as [Hs Hh]; [|done]. specialize (Hh eq_refl).
      by split.
    + split; [done|]. intros (_ & _ & Hs & Hh).
      assert (validate_segments 0 (split_char 47 path) = Ok tt); [|congruence].
      by apply validate_segments_ok.
Qed.

Lemma StreamPath_validate_inv path p : StreamPath_validate path = Ok p → p = path.
Proof.
  unfold StreamPath_validate. destruct (_ <? _); [done|].
  destruct (existsb _ _); [done|]. destruct (validate_segments _ _); simpl; congruence.
Qed.

Lemma StreamPath_ok (p : StreamPath) : path_ok (content p).
Proof.
  apply StreamPath_validate_ok. pose proof (content_true p) as H.
  apply is_ok_true in H as [q E].
  by rewrite (StreamPath_validate_inv _ _ E) in E.
Qed.

Lemma StreamPath_len (p : StreamPath) : 0 ≤ str_len (content p) ≤ STREAM_PATH_BYTES_MAX.
Proof. split; [apply str_len_nonneg|apply StreamPath_ok]. Qed.

(** * Content types *)

(** strom-domain/src/content_type.rs:32-32, [CONTENT_TYPE_BYTES_MAX]. *)
Definition CONTENT_TYPE_BYTES_MAX : Z := 256.

(** strom-domain/src/content_type.rs:34-34, [ESSENCE_OCTET_STREAM]. *)
Definition ESSENCE_OCTET_STREAM : str := lit "application/octet-stream".

(** strom-domain/src/content_type.rs:35-35, [ESSENCE_JSON]. *)
Definition ESSENCE_JSON : str := lit "application/json".

(** strom-domain/src/content_type.rs:36-36, [ESSENCE_TEXT_PREFIX]. *)
Definition ESSENCE_TEXT_PREFIX : str := lit "text/".

(** The parameter introducer of the canonical spelling. *)
Definition CHARSET_INTRO : str := lit "; charset=".

(** strom-domain/src/content_type.rs:209-219, [ContentTypeError]. *)
Inductive ContentTypeError : Type :=
| ContentTypeOverMaxBytes
| ContentTypeMalformed
| UnsupportedParameter
| NonCanonical.

#[export] Instance ContentTypeError_eq_dec : EqDecision ContentTypeError.
Proof. solve_decision. Defined.

(** The two named types inline, every other one by its canonical spelling [G].
    strom-domain/src/content_type.rs:15-20, [MediaType]. *)
Inductive MediaType (G : Type) : Type :=
| OctetStream
| Json
| General (content_type : G).
Arguments OctetStream {G}.
Arguments Json {G}.
Arguments General {G} content_type.

#[export] Instance MediaType_eq_dec {G} `{EqDecision G} : EqDecision (MediaType G).
Proof. solve_decision. Defined.

(** strom-domain/src/content_type.rs:198-207, [is_token_char]. *)
Definition is_token_char (c : char) : bool :=
  is_ascii_lowercase c || is_ascii_uppercase c || is_ascii_digit c
  || existsb (Z.eqb c) (lit "!#$%&'*+-.^_`|~").

(** strom-domain/src/content_type.rs:194-196, [is_token]. *)
Definition is_token (input : str) : bool :=
  negb (bool_decide (input = [])) && forallb is_token_char input.

(** strom-domain/src/content_type.rs:130-144, [StreamContentType::from_str (parameter loop)]. *)
Fixpoint parse_parameters (charset : option str) (parts : list str) :
    Result ContentTypeError (option str) :=
  match parts with
  | [] => Ok charset
  | parameter_raw :: parts =>
      let? (name_raw, value_raw) :=
        ok_or ContentTypeMalformed (split_once_char 61 (trim parameter_raw)) in
      if negb (eq_ignore_ascii_case (trim name_raw) (lit "charset"))
      then Err UnsupportedParameter
      else
        let value := trim value_raw in
        if negb (is_token value) || bool_decide (is_Some charset)
        then Err ContentTypeMalformed
        else parse_parameters (Some (to_ascii_lowercase value)) parts
  end.

(** The body of [from_str], on bare spellings; [StreamContentType_from_str] below
    wraps a general spelling in its private type.
    strom-domain/src/content_type.rs:117-179, [StreamContentType::from_str]. *)
Definition parse_media_type (input : str) :
    Exec (Result ContentTypeError (MediaType str)) :=
  if CONTENT_TYPE_BYTES_MAX <? str_len input then Ret (Err ContentTypeOverMaxBytes)
  else
    let '(first, parts) := split_pieces 59 input in
    let essence_raw := trim first in
    match split_once_char 47 essence_raw with
    | None => Ret (Err ContentTypeMalformed)
    | Some (type_raw, subtype_raw) =>
        if negb (is_token type_raw) || negb (is_token subtype_raw)
        then Ret (Err ContentTypeMalformed)
        else
          match parse_parameters None parts with
          | Err e => Ret (Err e)
          | Ok charset =>
              let! parameter_bytes :=
                match charset with
                | None => Ret 0
                | Some value =>
                    expect (u64_checked_add (str_len CHARSET_INTRO) (str_len value))
                end in
              let! canonical_bytes :=
                expect (u64_checked_add (str_len essence_raw) parameter_bytes) in
              if CONTENT_TYPE_BYTES_MAX <? canonical_bytes
              then Ret (Err ContentTypeOverMaxBytes)
              else if bool_decide (charset = None)
                      && eq_ignore_ascii_case essence_raw ESSENCE_OCTET_STREAM
              then Ret (Ok OctetStream)
              else if bool_decide (charset = None)
                      && eq_ignore_ascii_case essence_raw ESSENCE_JSON
              then Ret (Ok Json)
              else
                Ret (Ok (General
                  (to_ascii_lowercase type_raw ++ [47]
                   ++ to_ascii_lowercase subtype_raw
                   ++ match charset with
                      | Some charset => CHARSET_INTRO ++ charset
                      | None => []
                      end)))
          end
    end.

(** strom-domain/src/content_type.rs:71-96, [StreamContentType::validate_canonical]. *)
Definition validate_canonical (input : str) : Result ContentTypeError str :=
  if CONTENT_TYPE_BYTES_MAX <? str_len input then Err ContentTypeOverMaxBytes
  else
    let '(essence, charset) :=
      match split_once_str CHARSET_INTRO input with
      | Some (essence, charset) => (essence, Some charset)
      | None => (input, None)
      end in
    if str_contains 59 essence
       || match charset with Some value => str_contains 59 value | None => false end
    then Err ContentTypeMalformed
    else
      let? (media_type, subtype) :=
        ok_or ContentTypeMalformed (split_once_char 47 essence) in
      if negb (is_token media_type) || negb (is_token subtype)
         || existsb is_ascii_uppercase media_type
         || existsb is_ascii_uppercase subtype
      then Err NonCanonical
      else if match charset with
              | Some charset => negb (is_token charset) || existsb is_ascii_uppercase charset
              | None => false
              end
      then Err NonCanonical
      else Ok input.

(** A general media type is created by [from_str] only, so its spelling is one
    that [from_str] reproduces.
    strom-domain/src/content_type.rs:22-25, [GeneralMediaType]. *)
Definition canonical_general (canonical : str) : bool :=
  bool_decide (parse_media_type canonical = Ret (Ok (General canonical))).

(** strom-domain/src/content_type.rs:6-8, [StreamContentType]. *)
Definition StreamContentType : Type := MediaType (Refined canonical_general).

#[export] Instance StreamContentType_eq_dec : EqDecision StreamContentType := _.

(** strom-domain/src/content_type.rs:50-53, [StreamContentType::octet_stream]. *)
Definition octet_stream : StreamContentType := OctetStream.

Definition media_type_str (m : MediaType str) : str :=
  match m with
  | OctetStream => ESSENCE_OCTET_STREAM
  | Json => ESSENCE_JSON
  | General canonical => canonical
  end.

(** strom-domain/src/content_type.rs:56-63, [StreamContentType::as_str]. *)
Definition StreamContentType_as_str (content_type : StreamContentType) : str :=
  match content_type with
  | OctetStream => ESSENCE_OCTET_STREAM
  | Json => ESSENCE_JSON
  | General canonical => content canonical
  end.

(** strom-domain/src/content_type.rs:100-105, [StreamContentType::is_json]. *)
Definition is_json (content_type : StreamContentType) : bool :=
  bool_decide
    (match split_once_char 59 (StreamContentType_as_str content_type) with
     | Some (essence, _) => essence
     | None => StreamContentType_as_str content_type
     end = ESSENCE_JSON).

(** strom-domain/src/content_type.rs:109-111, [StreamContentType::is_text]. *)
Definition is_text (content_type : StreamContentType) : bool :=
  starts_with ESSENCE_TEXT_PREFIX (StreamContentType_as_str content_type).

(** ** Tokens *)

Lemma is_token_spec s :
  is_token s = true ↔ s ≠ [] ∧ Forall (λ c, is_token_char c = true) s.
Proof.
  unfold is_token.
  by rewrite andb_true_iff, negb_true_iff, bool_decide_eq_false, forallb_true.
Qed.

Lemma is_token_char_ascii c : is_token_char c = true → 0 ≤ c < 128.
Proof.
  unfold is_token_char, is_ascii_lowercase, is_ascii_uppercase, is_ascii_digit.
  rewrite !orb_true_iff, !andb_true_iff, !Z.leb_le, existsb_exists.
  intros [[[?|?]|?]|(x & Hx & ->%Z.eqb_eq)]; try lia.
  vm_compute in Hx. lia.
Qed.

(** What the token alphabet excludes, by inspection of the ASCII range. *)
Definition token_char_facts (c : char) : bool :=
  implb (is_token_char c)
    (negb (c =? 59) && negb (c =? 47) && negb (c =? 61) && negb (is_whitespace c)
     && is_token_char (to_ascii_lowercase_char c)
     && (len_utf8 (to_ascii_lowercase_char c) =? len_utf8 c)).

Lemma token_char_facts_hold c : is_token_char c = true →
  c ≠ 59 ∧ c ≠ 47 ∧ c ≠ 61 ∧ is_whitespace c = false ∧
  is_token_char (to_ascii_lowercase_char c) = true ∧
  len_utf8 (to_ascii_lowercase_char c) = len_utf8 c.
Proof.
  intros Hc. assert (token_char_facts c = true) as H.
  { pose proof (is_token_char_ascii c Hc) as Hr.
    assert (Forall (λ c, token_char_facts c = true) (seqZ 0 128)) as Hall
      by (apply forallb_true; vm_compute; reflexivity).
    rewrite Forall_forall in Hall. apply Hall, elem_of_seqZ. lia. }
  unfold token_char_facts in H. rewrite Hc in H. simpl in H.
  rewrite !andb_true_iff, !negb_true_iff, !Z.eqb_neq, Z.eqb_eq in H. naive_solver.
Qed.

Lemma token_no_char s c :
  is_token s = true → c = 59 ∨ c = 47 ∨ c = 61 → no_char c s.
Proof.
  intros [_ Hs]%is_token_spec Hc. eapply Forall_impl; [exact Hs|].
  intros x (H1 & H2 & H3 & _)%token_char_facts_hold. simpl. lia.
Qed.

Lemma token_no_whitespace s : is_token s = true → no_whitespace s.
Proof.
  intros [_ Hs]%is_token_spec. eapply Forall_impl; [exact Hs|].
  by intros x (_ & _ & _ & ? & _)%token_char_facts_hold.
Qed.

Lemma token_lowercase s : is_token s = true → is_token (to_ascii_lowercase s) = true.
Proof.
  rewrite !is_token_spec. intros [Hne Hs]. split.
  - by destruct s.
  - apply Forall_fmap. eapply Forall_impl; [exact Hs|].
    by intros x (_ & _ & _ & _ & ? & _)%token_char_facts_hold.
Qed.

Lemma token_lowercase_len s :
  is_token s = true → str_len (to_ascii_lowercase s) = str_len s.
Proof.
  intros [_ Hs]%is_token_spec. unfold to_ascii_lowercase.
  induction Hs as [|x s Hx _ IH]; [done|]. rewrite fmap_cons. simpl. rewrite IH.
  by apply token_char_facts_hold in Hx as (_ & _ & _ & _ & _ & ->).
Qed.

(** ** The canonical spelling *)

Definition lower_token (s : str) : Prop :=
  is_token s = true ∧ Forall (λ c, is_ascii_uppercase c = false) s.

Definition spelling (ty sub : str) (charset : option str) : str :=
  ty ++ [47] ++ sub ++
  match charset with Some charset => CHARSET_INTRO ++ charset | None => [] end.

Definition canonical_parts (ty sub : str) (charset : option str) : Prop :=
  lower_token ty ∧ lower_token sub ∧
  (∀ value, charset = Some value → lower_token value) ∧
  str_len (spelling ty sub charset) ≤ CONTENT_TYPE_BYTES_MAX.

Definition classify (s : str) (charset : option str) : MediaType str :=
  if bool_decide (charset = None ∧ s = ESSENCE_OCTET_STREAM) then OctetStream
  else if bool_decide (charset = None ∧ s = ESSENCE_JSON) then Json
  else General s.

Lemma lower_token_lowercase s : is_token s = true → lower_token (to_ascii_lowercase s).
Proof. intros Hs. split; [by apply token_lowercase|apply lowercase_no_upper]. Qed.

Lemma lower_token_id s : lower_token s → to_ascii_lowercase s = s.
Proof. intros [_ Hs]. by apply lowercase_id. Qed.

Lemma charset_intro_eq : CHARSET_INTRO = 59 :: 32 :: lit "charset" ++ [61].
Proof. reflexivity. Qed.

Lemma parse_parameters_charset value :
  lower_token value →
  parse_parameters None [32 :: lit "charset" ++ 61 :: value] = Ok (Some value).
Proof.
  intros Hv. cbn [parse_parameters]. rewrite trim_space.
  - rewrite split_once_char_app by (by repeat constructor).
    cbn [ok_or result_bind]. rewrite (trim_id (lit "charset")) by (by repeat constructor).
    unfold eq_ignore_ascii_case. rewrite bool_decide_eq_true_2 by done. cbn [negb].
    rewrite (trim_id value) by apply token_no_whitespace, Hv.
    rewrite (proj1 Hv). rewrite bool_decide_eq_false_2 by apply is_Some_None.
    cbn. by rewrite lower_token_id.
  - unfold no_whitespace. rewrite Forall_app, Forall_cons.
    split; [by repeat constructor|]. split; [done|]. apply token_no_whitespace, Hv.
Qed.

Lemma essence_no_char ty sub c :
  lower_token ty → lower_token sub → c = 59 ∨ c = 61 → no_char c (ty ++ [47] ++ sub).
Proof.
  intros [Ht _] [Hs _] Hc. unfold no_char. rewrite !Forall_app.
  split; [|split]; [apply token_no_char; [done|lia]| |apply token_no_char; [done|lia]].
  constructor; [lia|done].
Qed.

Lemma eq_ignore_case_lower s t :
  to_ascii_lowercase s = s → to_ascii_lowercase t = t →
  eq_ignore_ascii_case s t = bool_decide (s = t).
Proof. intros Hs Ht. unfold eq_ignore_ascii_case. by rewrite Hs, Ht. Qed.

Lemma essence_lower ty sub :
  lower_token ty → lower_token sub →
  to_ascii_lowercase (ty ++ [47] ++ sub) = ty ++ [47] ++ sub.
Proof.
  intros Ht Hs. rewrite !lowercase_app, (lower_token_id ty), (lower_token_id sub) by done.
  done.
Qed.

Lemma split_spelling ty sub charset :
  lower_token ty → lower_token sub → (∀ v, charset = Some v → lower_token v) →
  split_pieces 59 (spelling ty sub charset) =
    (ty ++ [47] ++ sub,
     match charset with
     | Some v => [32 :: lit "charset" ++ 61 :: v]
     | None => []
     end).
Proof.
  intros Ht Hs Hv. unfold spelling. destruct charset as [v|].
  - rewrite charset_intro_eq.
    replace (ty ++ [47] ++ sub ++ (59 :: 32 :: lit "charset" ++ [61]) ++ v)
      with ((ty ++ [47] ++ sub) ++ 59 :: (32 :: lit "charset" ++ 61 :: v))
      by (by rewrite <- !(assoc_L (++))).
    rewrite split_pieces_app by (apply essence_no_char; auto).
    rewrite split_pieces_none; [done|]. apply Forall_cons. split; [done|].
    apply Forall_app. split; [by repeat constructor|]. apply Forall_cons.
    split; [done|]. apply token_no_char; [by apply (Hv v)|auto].
  - rewrite (right_id_L [] (++)), split_pieces_none by (apply essence_no_char; auto).
    done.
Qed.

(** A canonical spelling is parsed back to itself. *)
Lemma parse_spelling ty sub charset :
  canonical_parts ty sub charset →
  parse_media_type (spelling ty sub charset) =
    Ret (Ok (classify (spelling ty sub charset) charset)).
Proof.
  intros (Ht & Hs & Hv & Hlen). unfold parse_media_type.
  destruct (Z.ltb_spec CONTENT_TYPE_BYTES_MAX (str_len (spelling ty sub charset)));
    [lia|].
  rewrite split_spelling by done.
  assert (no_whitespace (ty ++ [47] ++ sub)) as Hws.
  { apply Forall_app. split; [apply token_no_whitespace, Ht|].
    apply Forall_cons. split; [done|]. apply token_no_whitespace, Hs. }
  rewrite (trim_id _ Hws).
  change ([47] ++ sub) with (47 :: sub).
  rewrite split_once_char_app by (apply token_no_char; [apply Ht|auto]).
  rewrite (proj1 Ht), (proj1 Hs). cbn [negb orb].
  assert (parse_parameters None
    match charset with Some v => [32 :: lit "charset" ++ 61 :: v] | None => [] end
    = Ok charset) as ->.
  { destruct charset as [v|]; [|done]. apply parse_parameters_charset. by apply Hv. }
  assert (str_len (spelling ty sub charset) = str_len (ty ++ 47 :: sub) +
    match charset with Some v => str_len CHARSET_INTRO + str_len v | None => 0 end) as Hl.
  { unfold spelling. rewrite !str_len_app. change (47 :: sub) with ([47] ++ sub).
    rewrite !str_len_app. destruct charset; [rewrite str_len_app|]; cbn [str_len foldr]; lia. }
  pose proof (str_len_nonneg (ty ++ 47 :: sub)). unfold CONTENT_TYPE_BYTES_MAX in *.
  rewrite !(eq_ignore_case_lower (ty ++ 47 :: sub)) by (by try apply essence_lower).
  rewrite (lower_token_id ty), (lower_token_id sub) by done.
  unfold classify. destruct charset as [v|].
  - unfold u64_checked_add at 1. change (str_len CHARSET_INTRO) with 10 in *.
    rewrite decide_True by (unfold u64_max; lia). cbn [expect exec_bind].
    unfold u64_checked_add. rewrite decide_True by (unfold u64_max; lia).
    cbn [expect exec_bind]. rewrite <- Hl.
    rewrite (proj2 (Z.ltb_ge _ _)) by lia.
    rewrite (bool_decide_eq_false_2 (Some v = None)) by done. cbn [andb].
    by rewrite !bool_decide_eq_false_2 by (by intros [??]).
  - cbn [exec_bind]. unfold u64_checked_add. rewrite decide_True by (unfold u64_max; lia).
    cbn [expect exec_bind]. rewrite <- Hl, (proj2 (Z.ltb_ge _ _)) by lia.
    unfold spelling. rewrite (right_id_L [] (++)). change ([47] ++ sub) with (47 :: sub).
    rewrite (bool_decide_eq_true_2 (None = None)) by done. cbn [andb].
    repeat case_bool_decide; first [done|exfalso; tauto].
Qed.

Lemma parse_parameters_ok bound parts c0 c :
  Forall (λ p, str_len p ≤ bound) parts →
  (∀ v, c0 = Some v → lower_token v ∧ str_len v ≤ bound) →
  parse_parameters c0 parts = Ok c →
  ∀ v, c = Some v → lower_token v ∧ str_len v ≤ bound.
Proof.
  intros Hp. revert c0. induction Hp as [|p parts Hlen _ IH]; intros c0 Hc0; simpl.
  - by intros [= <-].
  - destruct (split_once_char 61 (trim p)) as [[name value]|] eqn:Hs; simpl; [|done].
    destruct (negb (eq_ignore_ascii_case (trim name) (lit "charset"))); [done|].
    destruct (is_token (trim value)) eqn:Ht; simpl; [|done].
    destruct (bool_decide (is_Some c0)); [done|]. apply IH. intros v [= <-].
    split; [by apply lower_token_lowercase|]. rewrite token_lowercase_len by done.
    apply split_once_char_Some in Hs as [Hs _].
    pose proof (trim_len p) as Hp. rewrite Hs, str_len_app in Hp.
    pose proof (str_len_nonneg name). pose proof (trim_len value).
    change (61 :: value) with ([61] ++ value) in Hp. rewrite str_len_app in Hp.
    change (str_len [61]) with 1 in Hp. lia.
Qed.

(** Everything [from_str] does, on every input: it never panics, and what it
    accepts is the classification of a canonical spelling. *)
(** Lowering an essence lowers its parts and keeps its length. *)
Lemma essence_lowercase ty sub :
  is_token ty = true → is_token sub = true →
  to_ascii_lowercase (ty ++ 47 :: sub) = to_ascii_lowercase ty ++ [47] ++ to_ascii_lowercase sub ∧
  str_len (to_ascii_lowercase ty ++ [47] ++ to_ascii_lowercase sub) = str_len (ty ++ 47 :: sub).
Proof.
  intros Ht Hs. change (47 :: sub) with ([47] ++ sub).
  by rewrite !lowercase_app, !str_len_app, !token_lowercase_len.
Qed.

Lemma parse_media_type_total input :
  (∃ e, parse_media_type input = Ret (Err e)) ∨
  (∃ ty sub charset, canonical_parts ty sub charset ∧
     parse_media_type input = Ret (Ok (classify (spelling ty sub charset) charset))).
Proof.
  unfold parse_media_type.
  destruct (Z.ltb_spec CONTENT_TYPE_BYTES_MAX (str_len input)) as [|Hin]; [eauto|].
  destruct (split_pieces_len 59 input) as [Hfirst Hparts].
  destruct (split_pieces 59 input) as [first parts]; cbn [fst snd] in *.
  destruct (split_once_char 47 (trim first)) as [[ty sub]|] eqn:He; [|eauto].
  destruct (is_token ty) eqn:Ht; cbn [negb orb]; [|eauto].
  destruct (is_token sub) eqn:Hs; cbn [negb orb]; [|eauto].
  destruct (parse_parameters None parts) as [charset|e] eqn:Hpp; [|eauto].
  pose proof (parse_parameters_ok (str_len input) parts None charset Hparts
    ltac:(done) Hpp) as Hc.
  apply split_once_char_Some in He as [He _].
  pose proof (trim_len first) as Htl. rewrite He in Htl |- *.
  pose proof (lower_token_lowercase ty Ht) as Hty.
  pose proof (lower_token_lowercase sub Hs) as Hsub.
  destruct (essence_lowercase ty sub Ht Hs) as [Hlow Hlen].
  pose proof (str_len_nonneg (ty ++ 47 :: sub)).
  unfold eq_ignore_ascii_case, classify. rewrite Hlow.
  change (to_ascii_lowercase ESSENCE_OCTET_STREAM) with ESSENCE_OCTET_STREAM.
  change (to_ascii_lowercase ESSENCE_JSON) with ESSENCE_JSON.
  unfold CONTENT_TYPE_BYTES_MAX in *. unfold u64_checked_add.
  destruct charset as [v|].
  - destruct (Hc v eq_refl) as [Hv Hvl]. change (str_len CHARSET_INTRO) with 10.
    pose proof (str_len_nonneg v).
    rewrite decide_True by (unfold u64_max; lia). cbn [expect exec_bind].
    rewrite decide_True by (unfold u64_max; lia). cbn [expect exec_bind].
    destruct (Z.ltb_spec 256 (str_len (ty ++ 47 :: sub) + (10 + str_len v))); [eauto|].
    right. exists (to_ascii_lowercase ty), (to_ascii_lowercase sub), (Some v).
    split; [|by rewrite !bool_decide_eq_false_2 by (by try intros [??])].
    split_and!; [done..|by intros ? [= <-]|]. unfold spelling, CONTENT_TYPE_BYTES_MAX.
    rewrite !str_len_app in *. change (str_len CHARSET_INTRO) with 10. lia.
  - cbn [exec_bind]. rewrite decide_True by (unfold u64_max; lia). cbn [expect exec_bind].
    destruct (Z.ltb_spec 256 (str_len (ty ++ 47 :: sub) + 0)); [eauto|].
    right. exists (to_ascii_lowercase ty), (to_ascii_lowercase sub), None.
    split.
    + split_and!; [done..|]. unfold spelling, CONTENT_TYPE_BYTES_MAX.
      rewrite (right_id_L [] (++)). lia.
    + unfold spelling. rewrite (right_id_L [] (++)).
      rewrite (bool_decide_eq_true_2 (None = None)) by done. cbn [andb].
      repeat case_bool_decide; first [done|exfalso; tauto].
Qed.

Lemma parse_general_canonical input canonical :
  parse_media_type input = Ret (Ok (General canonical)) →
  Is_true (canonical_general canonical).
Proof.
  intros Hp. apply bool_decide_spec.
  destruct (parse_media_type_total input) as [[e He]|(ty & sub & cs & Hc & Hok)];
    [congruence|].
  rewrite Hok in Hp. injection Hp as Hcl. pose proof (parse_spelling _ _ _ Hc) as Hs.
  rewrite Hcl in Hs. unfold classify in Hcl. repeat case_bool_decide; simplify_eq. done.
Qed.

(** Wrap an accepted general spelling in its private type. *)
Definition wrap_media_type (input : str) (r : Exec (Result ContentTypeError (MediaType str))) :
    parse_media_type input = r → Exec (Result ContentTypeError StreamContentType) :=
  match r with
  | Panic => λ _, Panic
  | Ret (Err e) => λ _, Ret (Err e)
  | Ret (Ok OctetStream) => λ _, Ret (Ok OctetStream)
  | Ret (Ok Json) => λ _, Ret (Ok Json)
  | Ret (Ok (General canonical)) => λ Heq,
      Ret (Ok (General (mk_refined canonical (parse_general_canonical _ _ Heq))))
  end.

(** strom-domain/src/content_type.rs:114-180, [FromStr for StreamContentType]. *)
Definition StreamContentType_from_str (input : str) :
    Exec (Result ContentTypeError StreamContentType) :=
  wrap_media_type input (parse_media_type input) eq_refl.

Lemma wrap_media_type_spec input r (H : parse_media_type input = r) :
  match wrap_media_type input r H with
  | Ret (Ok ct) => ∃ m, r = Ret (Ok m) ∧ media_type_str m = StreamContentType_as_str ct
  | Ret (Err e) => r = Ret (Err e)
  | Panic => r = Panic
  end.
Proof. destruct r as [[[| |c]|e]|]; simpl; eauto. Qed.

(** An accepted spelling is never one of the two named types in disguise. *)
Lemma parse_as_str (ct : StreamContentType) :
  ∃ m, parse_media_type (StreamContentType_as_str ct) = Ret (Ok m) ∧
       media_type_str m = StreamContentType_as_str ct ∧
       match ct, m with
       | OctetStream, OctetStream | Json, Json => True
       | General c, General s => content c = s
       | _, _ => False
       end.
Proof.
  destruct ct as [| |c]; [exists OctetStream; split; [vm_compute; reflexivity|done]
    |exists Json; split; [vm_compute; reflexivity|done]|].
  exists (General (content c)). split; [|done]. simpl.
  apply (bool_decide_unpack _ (content_ok c)).
Qed.

Lemma wrap_media_type_General input c H :
  ∃ x, wrap_media_type input (Ret (Ok (General c))) H = Ret (Ok (General x)) ∧ content x = c.
Proof. simpl. eexists. split; [reflexivity|done]. Qed.

Lemma from_str_as_str (ct : StreamContentType) :
  StreamContentType_from_str (StreamContentType_as_str ct) = Ret (Ok ct).
Proof.
  unfold StreamContentType_from_str.
  generalize (eq_refl (parse_media_type (StreamContentType_as_str ct))).
  destruct (parse_as_str ct) as (m & Hm & _ & Hct). revert Hm Hct.
  generalize (parse_media_type (StreamContentType_as_str ct)) at 1 3 4 as r.
  intros r -> Hct Heq. destruct ct as [| |c], m as [| |s]; try done. simpl.
  do 2 f_equal. f_equal. by apply refined_eq.
Qed.

Lemma from_str_no_panic input : StreamContentType_from_str input ≠ Panic.
Proof.
  intros Hp. pose proof (wrap_media_type_spec input _ eq_refl) as Hs.
  unfold StreamContentType_from_str in Hp. rewrite Hp in Hs.
  destruct (parse_media_type_total input) as [[e He]|(? & ? & ? & _ & He)]; congruence.
Qed.

Lemma StreamContentType_len (ct : StreamContentType) :
  0 ≤ str_len (StreamContentType_as_str ct) ≤ CONTENT_TYPE_BYTES_MAX.
Proof.
  split; [apply str_len_nonneg|]. destruct (parse_as_str ct) as (m & Hm & _ & _).
  unfold parse_media_type in Hm. destruct (Z.ltb_spec CONTENT_TYPE_BYTES_MAX
    (str_len (StreamContentType_as_str ct))); [done|lia].
Qed.

(** [validate_canonical] accepts exactly the canonical spellings. *)
Lemma validate_canonical_parts input :
  validate_canonical input = Ok input →
  ∃ ty sub charset, canonical_parts ty sub charset ∧ input = spelling ty sub charset.
Proof.
  unfold validate_canonical.
  destruct (Z.ltb_spec CONTENT_TYPE_BYTES_MAX (str_len input)) as [|Hlen]; [done|].
  set (parts := match split_once_str CHARSET_INTRO input with
    | Some (essence, charset) => (essence, Some charset) | None => (input, None) end).
  assert (input = parts.1 ++ match parts.2 with Some c => CHARSET_INTRO ++ c | None => [] end)
    as Hin.
  { unfold parts. destruct (split_once_str CHARSET_INTRO input) as [[e c]|] eqn:E; simpl.
    - by apply split_once_str_Some in E.
    - by rewrite (right_id_L [] (++)). }
  destruct parts as [essence charset]; cbn [fst snd] in Hin.
  destruct (str_contains 59 essence || _); [done|].
  destruct (split_once_char 47 essence) as [[ty sub]|] eqn:He; cbn [ok_or result_bind]; [|done].
  destruct (is_token ty) eqn:Ht; cbn [negb orb]; [|done].
  destruct (is_token sub) eqn:Hs; cbn [negb orb]; [|done].
  destruct (existsb is_ascii_uppercase ty) eqn:Htu; cbn [orb]; [done|].
  destruct (existsb is_ascii_uppercase sub) eqn:Hsu; [done|].
  apply existsb_false in Htu, Hsu. apply split_once_char_Some in He as [-> _].
  intros Hc. exists ty, sub, charset.
  assert (input = spelling ty sub charset) as Hsp.
  { rewrite Hin. unfold spelling. by rewrite <- (assoc_L (++)). }
  split; [|done]. split_and!; [done..| |by rewrite <- Hsp].
  intros v ->. destruct (is_token v) eqn:Hv; cbn [negb orb] in Hc; [|done].
  destruct (existsb is_ascii_uppercase v) eqn:Hvu; [done|].
  by apply existsb_false in Hvu.
Qed.

Lemma validate_canonical_accepts ty sub charset :
  canonical_parts ty sub charset →
  validate_canonical (spelling ty sub charset) = Ok (spelling ty sub charset).
Proof.
  unfold validate_canonical.
  intros (Ht & Hs & Hv & Hlen).
  rewrite (proj2 (Z.ltb_ge _ _)) by lia.
  assert (match split_once_str CHARSET_INTRO (spelling ty sub charset) with
    | Some (essence, charset) => (essence, Some charset)
    | None => (spelling ty sub charset, None) end = (ty ++ [47] ++ sub, charset)) as ->.
  { pose proof (essence_no_char ty sub 59 Ht Hs ltac:(auto)) as Hne.
    unfold spelling. destruct charset as [v|].
    - replace (ty ++ [47] ++ sub ++ CHARSET_INTRO ++ v)
        with ((ty ++ [47] ++ sub) ++ CHARSET_INTRO ++ v) by (by rewrite <- !(assoc_L (++))).
      rewrite charset_intro_eq. by rewrite split_once_str_app.
    - rewrite (right_id_L [] (++)), charset_intro_eq. by rewrite split_once_str_none. }
  rewrite (proj2 (str_contains_false _ _)) by (apply essence_no_char; auto). cbn [orb].
  assert (match charset with Some v => str_contains 59 v | None => false end = false) as ->.
  { destruct charset as [v|]; [|done]. apply str_contains_false, token_no_char; [|auto].
    by apply (Hv v). }
  change (ty ++ [47] ++ sub) with (ty ++ 47 :: sub).
  rewrite split_once_char_app by (apply token_no_char; [apply Ht|auto]).
  cbn [ok_or result_bind]. rewrite (proj1 Ht), (proj1 Hs).
  rewrite (proj2 (existsb_false _ _) (proj2 Ht)), (proj2 (existsb_false _ _) (proj2 Hs)).
  cbn [negb orb]. destruct charset as [v|]; [|done].
  destruct (Hv v eq_refl) as [Hvt Hvu]. rewrite Hvt.
  by rewrite (proj2 (existsb_false _ _) Hvu).
Qed.

Lemma validate_canonical_spelling input :
  validate_canonical input = Ok input ↔
  ∃ ty sub charset, canonical_parts ty sub charset ∧ input = spelling ty sub charset.
Proof.
  split; [apply validate_canonical_parts|].
  intros (ty & sub & charset & Hp & ->). by apply validate_canonical_accepts.
Qed.

Lemma classify_str s charset : media_type_str (classify s charset) = s.
Proof. unfold classify. repeat case_bool_decide; naive_solver. Qed.

Lemma validate_canonical_as_str (ct : StreamContentType) :
  validate_canonical (StreamContentType_as_str ct) = Ok (StreamContentType_as_str ct).
Proof.
  apply validate_canonical_spelling. destruct (parse_as_str ct) as (m & Hm & Hs & _).
  destruct (parse_media_type_total (StreamContentType_as_str ct))
    as [[e He]|(ty & sub & cs & Hc & He)]; [congruence|].
  exists ty, sub, cs. split; [done|].
  rewrite He in Hm. injection Hm as <-. by rewrite classify_str in Hs.
Qed.

(** * Expiry *)

(** Sliding idle window in seconds.
    strom-domain/src/expiry.rs:60-61, [StreamTtl]. *)
Definition StreamTtl : Type := NonZeroU64.

(** strom-domain/src/expiry.rs:63-68, [StreamTtl::seconds]. *)
Definition StreamTtl_seconds (ttl : StreamTtl) : NonZeroU64 := ttl.

(** strom-domain/src/expiry.rs:114-122, [StreamTtlError]. *)
Inductive StreamTtlError : Type := TtlMalformed | TtlZero | TtlOverMax.

#[export] Instance StreamTtlError_eq_dec : EqDecision StreamTtlError.
Proof. solve_decision. Defined.

(** strom-domain/src/expiry.rs:80-89, [StreamTtl::from_str (digit loop)]. *)
Fixpoint ttl_seconds (seconds : Z) (input : str) : Result StreamTtlError Z :=
  match input with
  | [] => Ok seconds
  | character :: input =>
      match to_digit character with
      | None => Err TtlMalformed
      | Some digit =>
          let? seconds :=
            ok_or TtlOverMax
              (shifted ← u64_checked_mul seconds 10; u64_checked_add shifted digit) in
          ttl_seconds seconds input
      end
  end.

(** strom-domain/src/expiry.rs:70-94, [StreamTtl::from_str]. *)
Definition StreamTtl_from_str (input : str) : Result StreamTtlError StreamTtl :=
  if bool_decide (input = []) then Err TtlMalformed
  else if (1 <? str_len input) && starts_with (lit "0") input then Err TtlMalformed
  else
    let? seconds := ttl_seconds 0 input in
    ok_or TtlZero (NonZeroU64_new seconds).

(** strom-domain/src/expiry.rs:102-106, [Display for StreamTtl]. *)
Definition StreamTtl_display (ttl : StreamTtl) : str := dec (content ttl).

(** An absolute instant, counted in nanoseconds since the Unix epoch: the value
    [jiff]'s [as_nanosecond] returns, which identifies a timestamp.
    strom-domain/src/expiry.rs:124-132, [ExpiresAt]. *)
Record ExpiresAt : Type := { unix_nanoseconds : Z }.

#[export] Instance ExpiresAt_eq_dec : EqDecision ExpiresAt.
Proof. solve_decision. Defined.

(** strom-domain/src/expiry.rs:171-173, [ExpiresAtError]. *)
Inductive ExpiresAtError : Type := ExpiresAtInvalid.

(** strom-domain/src/expiry.rs:175-177, [ExpiresAtRangeError]. *)
Inductive ExpiresAtRangeError : Type := ExpiresAtOutOfRange.

(** strom-domain/src/expiry.rs:10-15, [ExpiryPolicy]. *)
Inductive ExpiryPolicy : Type :=
| NoExpiry
| SlidingTtl (ttl : StreamTtl)
| AbsoluteExpiry (expires_at : ExpiresAt).

#[export] Instance ExpiryPolicy_eq_dec : EqDecision ExpiryPolicy.
Proof. solve_decision. Defined.

(** strom-domain/src/expiry.rs:46-48, [ExpiryPolicyConflict]. *)
Inductive ExpiryPolicyConflictError : Type := ExpiryPolicyConflict.

(** strom-domain/src/expiry.rs:17-28, [ExpiryPolicy::try_from]. *)
Definition ExpiryPolicy_try_from (headers : option StreamTtl * option ExpiresAt) :
    Result ExpiryPolicyConflictError ExpiryPolicy :=
  match headers with
  | (None, None) => Ok NoExpiry
  | (Some ttl, None) => Ok (SlidingTtl ttl)
  | (None, Some expires_at) => Ok (AbsoluteExpiry expires_at)
  | (Some _, Some _) => Err ExpiryPolicyConflict
  end.

(** The operations of [jiff::Timestamp] the code calls: the representable range
    behind [from_nanosecond], and [FromStr]. *)
Class Jiff := {
  timestamp_in_range : Z → bool;
  timestamp_parse : str → option Z
}.

(** Every parsed timestamp is representable. *)
Class JiffLaws `{Jiff} : Prop := {
  timestamp_parse_range : ∀ s t, timestamp_parse s = Some t → timestamp_in_range t = true
}.

(** strom-domain/src/expiry.rs:134-147, [ExpiresAt::from_str]. *)
Definition ExpiresAt_from_str `{Jiff} (input : str) : Result ExpiresAtError ExpiresAt :=
  if str_contains 91 input then Err ExpiresAtInvalid
  else
    match timestamp_parse input with
    | Some t => Ok {| unix_nanoseconds := t |}
    | None => Err ExpiresAtInvalid
    end.

(** strom-domain/src/expiry.rs:149-157, [ExpiresAt::try_from]. *)
Definition ExpiresAt_try_from `{Jiff} (nanoseconds : Z) :
    Result ExpiresAtRangeError ExpiresAt :=
  if timestamp_in_range nanoseconds then Ok {| unix_nanoseconds := nanoseconds |}
  else Err ExpiresAtOutOfRange.

(** ** TTL round trip *)

Lemma to_digit_Some c d : to_digit c = Some d ↔ 48 ≤ c ≤ 57 ∧ d = c - 48.
Proof.
  unfold to_digit. destruct (is_ascii_digit c) eqn:E.
  - apply is_digit_spec in E. naive_solver.
  - split; [done|]. intros [Hc _]. apply is_digit_spec in Hc. congruence.
Qed.

Lemma ttl_seconds_ok acc s v :
  0 ≤ acc ≤ u64_max →
  ttl_seconds acc s = Ok v ↔ all_digits s ∧ dec_value acc s = v ∧ v ≤ u64_max.
Proof.
  revert acc. induction s as [|c s IH]; intros acc Hacc; cbn [ttl_seconds].
  - unfold dec_value; simpl. split; [intros [= <-]; split; [constructor|lia]|].
    by intros (_ & -> & _).
  - unfold all_digits. rewrite Forall_cons.
    destruct (to_digit c) as [d|] eqn:Hd.
    + apply to_digit_Some in Hd as [Hc ->].
      change (dec_value acc (c :: s)) with (dec_value (acc * 10 + (c - 48)) s).
      unfold u64_checked_mul, u64_checked_add.
      destruct (decide (acc * 10 ≤ u64_max)) as [H1|H1]; simpl.
      * destruct (decide (acc * 10 + (c - 48) ≤ u64_max)) as [H2|H2]; simpl.
        -- rewrite IH by lia. naive_solver.
        -- split; [done|]. intros ((_ & Hs) & Hv & Hm).
           rewrite dec_value_shift in Hv. pose proof (dec_value_bounds s Hs).
           assert (1 ≤ 10 ^ zlen s) by (unfold zlen; lia). nia.
      * split; [done|]. intros ((_ & Hs) & Hv & Hm).
        rewrite dec_value_shift in Hv. pose proof (dec_value_bounds s Hs).
        assert (1 ≤ 10 ^ zlen s) by (unfold zlen; lia). nia.
    + split; [done|]. intros ((Hc & _) & _).
      assert (to_digit c = Some (c - 48)); [|congruence]. by apply to_digit_Some.
Qed.

Lemma starts_with_0 s : starts_with (lit "0") s = true ↔ head s = Some 48.
Proof.
  destruct s as [|c s]; [done|]. cbn. rewrite andb_true_r, Z.eqb_eq. naive_solver.
Qed.

Lemma str_len_gt_1 s : all_digits s → (1 <? str_len s) = bool_decide (1 < length s)%nat.
Proof.
  intros Hs. rewrite str_len_ascii by by apply all_digits_ascii. unfold zlen.
  case_bool_decide; [apply Z.ltb_lt; lia|apply Z.ltb_ge; lia].
Qed.

(** * Lifecycle and outcomes *)

(** strom-domain/src/lifecycle.rs:3-8, [StreamLifecycle]. *)
Inductive StreamLifecycle : Type := Open | Closed.

#[export] Instance StreamLifecycle_eq_dec : EqDecision StreamLifecycle.
Proof. solve_decision. Defined.

(** strom-domain/src/lifecycle.rs:11-17, [StreamLifecycle::close]. *)
Definition close (lifecycle : StreamLifecycle) : StreamLifecycle :=
  match lifecycle with Open | Closed => Closed end.

(** strom-domain/src/lifecycle.rs:19-22, [StreamLifecycle::is_closed]. *)
Definition is_closed (lifecycle : StreamLifecycle) : bool :=
  match lifecycle with Closed => true | Open => false end.

(** strom-domain/src/outcome.rs:5-10, [CreateOutcome]. *)
Inductive CreateOutcome : Type := Created | AlreadyExists.

(** strom-domain/src/outcome.rs:12-17, [CloseStreamOutcome]. *)
Inductive CloseStreamOutcome : Type := StreamClosedNow | AlreadyClosed.

(** strom-domain/src/outcome.rs:19-32, [StreamStatus]. *)
Inductive StreamStatus : Type :=
| StatusMissing
| StatusDeleted
| StatusLive (content_type : StreamContentType) (expiry : ExpiryPolicy)
    (lifecycle : StreamLifecycle).

#[export] Instance CreateOutcome_eq_dec : EqDecision CreateOutcome.
Proof. solve_decision. Defined.
#[export] Instance CloseStreamOutcome_eq_dec : EqDecision CloseStreamOutcome.
Proof. solve_decision. Defined.
#[export] Instance StreamStatus_eq_dec : EqDecision StreamStatus.
Proof. solve_decision. Defined.

(** * Properties *)

(** [StreamPath::from_str] accepts exactly the strings of at most 512 UTF-8
    bytes without control characters whose [/]-separated segments are non-empty,
    are neither [.] nor [..], and do not start with the reserved [__ds]; the
    accepted path spells the input unchanged. *)
Theorem stream_path_accepts_iff (s : str) :
  (∃ p, StreamPath_from_str s = Ok p ∧ StreamPath_as_str p = s) ↔ path_ok s.
Proof.
  unfold StreamPath_from_str, StreamPath_as_str. split.
  - intros (p & _ & <-). apply StreamPath_ok.
  - intros Hs%StreamPath_validate_ok.
    assert (is_ok (checked StreamPath_validate s) = true) as [p Hp]%is_ok_true
      by (by rewrite checked_ok_iff, Hs).
    exists p. split; [done|]. by apply checked_Ok in Hp.
Qed.

(** C40: parsing a content type never panics, and every parsed value is a fixed
    point: its canonical spelling parses back to the same value and passes the
    borrowed canonical check, so equality of values is equality of spellings. *)
Theorem content_type_canonical (input : str) :
  StreamContentType_from_str input ≠ Panic ∧
  ∀ ct, StreamContentType_from_str input = Ret (Ok ct) →
    StreamContentType_from_str (StreamContentType_as_str ct) = Ret (Ok ct) ∧
    validate_canonical (StreamContentType_as_str ct) = Ok (StreamContentType_as_str ct) ∧
    str_len (StreamContentType_as_str ct) ≤ CONTENT_TYPE_BYTES_MAX.
Proof.
  split; [apply from_str_no_panic|]. intros ct _.
  split_and!; [apply from_str_as_str|apply validate_canonical_as_str
    |apply StreamContentType_len].
Qed.

(** The borrowed check [validate_canonical] and the parser agree: a spelling
    is canonical exactly when it is the spelling of some parsed content type. *)
Theorem validate_canonical_iff (input : str) :
  validate_canonical input = Ok input ↔
  ∃ ct, StreamContentType_from_str input = Ret (Ok ct) ∧
        StreamContentType_as_str ct = input.
Proof.
  split.
  - intros (ty & sub & charset & Hc & ->)%validate_canonical_spelling.
    pose proof (parse_spelling _ _ _ Hc) as Hp.
    pose proof (wrap_media_type_spec (spelling ty sub charset) _ eq_refl) as Hw.
    unfold StreamContentType_from_str.
    destruct (wrap_media_type _ _ _) as [[ct|e]|]; [|congruence|congruence].
    exists ct. split; [done|]. destruct Hw as (m & Hm & <-).
    rewrite Hp in Hm. injection Hm as <-. apply classify_str.
  - intros (ct & _ & <-). apply validate_canonical_as_str.
Qed.

(** A [Stream-TTL] header is accepted exactly when it is the plain decimal
    spelling, without sign or leading zero, of a nonzero 64-bit number of
    seconds, and then denotes that number. *)
Theorem stream_ttl_roundtrip (input : str) (ttl : StreamTtl) :
  StreamTtl_from_str input = Ok ttl ↔ input = StreamTtl_display ttl.
Proof.
  unfold StreamTtl_from_str, StreamTtl_display.
  pose proof (nonzero_bounds ttl) as Ht. split.
  - case_bool_decide as Hne; [done|].
    destruct ((1 <? str_len input) && starts_with (lit "0") input) eqn:Hz; [done|].
    destruct (ttl_seconds 0 input) as [v|] eqn:Hv; simpl; [|done].
    apply ttl_seconds_ok in Hv as (Hd & Hv & Hm); [|unfold u64_max; lia].
    destruct (NonZeroU64_new v) as [x|] eqn:Hx; [|done]. intros [= ->].
    apply NonZeroU64_new_Some in Hx. rewrite Hx, <- Hv.
    apply plain_decimal_unique; [|lia]. split_and!; [done..|]. intros Hl Hh.
    rewrite str_len_gt_1, bool_decide_eq_true_2 in Hz by done.
    apply starts_with_0 in Hh. rewrite Hh in Hz. done.
  - intros ->. destruct (dec_plain (content ttl)) as (Hd & Hne & Hz); [lia|].
    rewrite bool_decide_eq_false_2 by done.
    rewrite str_len_gt_1 by done.
    assert (bool_decide (1 < length (dec (content ttl)))%nat
      && starts_with (lit "0") (dec (content ttl)) = false) as ->.
    { case_bool_decide as Hl; [|done]. cbn [andb]. apply not_true_iff_false.
      rewrite starts_with_0. by apply Hz. }
    assert (ttl_seconds 0 (dec (content ttl)) = Ok (content ttl)) as ->.
    { apply ttl_seconds_ok; [unfold u64_max; lia|].
      split_and!; [done|apply dec_value_dec; lia|lia]. }
    simpl. by rewrite (proj2 (NonZeroU64_new_Some (content ttl) ttl)).
Qed.
