(* ===== verification/Coordinates.v ===== *)
(** Storage vocabulary: the named bounds, the nonzero coordinates, the owner
    token, table identities, and the rows of the two stores (crate
    [strom-storage-domain], files [bounds.rs], [coordinate.rs], [owner.rs],
    [table.rs], [directory.rs] and [ledger.rs]). *)

From S2P Require Import Prelude Text Domain.

(** * Bounds *)

(** strom-storage-domain/src/bounds.rs:3-4, [SEAL_ENCODED_BYTES_MAX]. *)
Definition SEAL_ENCODED_BYTES_MAX : Z := 1024 * 1024.
(** strom-storage-domain/src/bounds.rs:6-7, [WAL_ENCODED_BYTES_MAX]. *)
Definition WAL_ENCODED_BYTES_MAX : Z := 4 * 1024 * 1024.
(** strom-storage-domain/src/bounds.rs:9-10, [WAL_RUN_FACTS_MAX]. *)
Definition WAL_RUN_FACTS_MAX : Z := 4096.
(** strom-storage-domain/src/bounds.rs:12-13, [WAL_RUN_FIXED_ENCODED_BYTES_MAX]. *)
Definition WAL_RUN_FIXED_ENCODED_BYTES_MAX : Z := 128.
(** strom-storage-domain/src/bounds.rs:15-16, [WAL_FACT_ENCODED_FIXED_BYTES_MAX]. *)
Definition WAL_FACT_ENCODED_FIXED_BYTES_MAX : Z := 128.
(** strom-storage-domain/src/bounds.rs:18-21, [WAL_FACT_ENCODED_BYTES_ESTIMATE_MAX]. *)
Definition WAL_FACT_ENCODED_BYTES_ESTIMATE_MAX : Z :=
  WAL_FACT_ENCODED_FIXED_BYTES_MAX + STREAM_PATH_BYTES_MAX + CONTENT_TYPE_BYTES_MAX.
(** strom-storage-domain/src/bounds.rs:23-24, [WRITER_PENDING_COMMANDS_MAX]. *)
Definition WRITER_PENDING_COMMANDS_MAX : Z := 4096.
(** strom-storage-domain/src/bounds.rs:38-39, [TREE_RUNS_MAX]. *)
Definition TREE_RUNS_MAX : Z := 16.
(** strom-storage-domain/src/bounds.rs:41-42, [RUN_TABLES_MAX]. *)
Definition RUN_TABLES_MAX : Z := 4096.
(** strom-storage-domain/src/bounds.rs:44-45, [SST_OBJECT_BYTES_MAX]. *)
Definition SST_OBJECT_BYTES_MAX : Z := 128 * 1024 * 1024.
(** strom-storage-domain/src/bounds.rs:47-48, [SST_TABLE_TARGET_BYTES]. *)
Definition SST_TABLE_TARGET_BYTES : Z := 64 * 1024 * 1024.
(** strom-storage-domain/src/bounds.rs:50-51, [SST_ARCHIVE_FIXED_BYTES_MAX]. *)
Definition SST_ARCHIVE_FIXED_BYTES_MAX : Z := 256.
(** strom-storage-domain/src/bounds.rs:53-54, [DIRECTORY_ROW_ENCODED_BYTES_MAX]. *)
Definition DIRECTORY_ROW_ENCODED_BYTES_MAX : Z := 1024.
(** strom-storage-domain/src/bounds.rs:56-57, [LEDGER_VALUE_ROW_ENCODED_BYTES_MAX]. *)
Definition LEDGER_VALUE_ROW_ENCODED_BYTES_MAX : Z := 2048.
(** strom-storage-domain/src/bounds.rs:59-60, [LEDGER_DELETE_ROW_ENCODED_BYTES_MAX]. *)
Definition LEDGER_DELETE_ROW_ENCODED_BYTES_MAX : Z := 64.
(** strom-storage-domain/src/bounds.rs:83-84, [PARTITION_PATH_OCCUPANCIES_MAX_V2]. *)
Definition PARTITION_PATH_OCCUPANCIES_MAX_V2 : Z := 10000000.
(** strom-storage-domain/src/bounds.rs:86-87, [PARTITION_RESIDENT_LOGICAL_BYTES_MAX_V2]. *)
Definition PARTITION_RESIDENT_LOGICAL_BYTES_MAX_V2 : Z := 16 * 1024 * 1024 * 1024.
(** strom-storage-domain/src/bounds.rs:89-90, [PARTITION_BOOTSTRAP_OBJECTS_MAX_V2]. *)
Definition PARTITION_BOOTSTRAP_OBJECTS_MAX_V2 : Z := 1024.
(** strom-storage-domain/src/bounds.rs:92-93, [PARTITION_BOOTSTRAP_BYTES_MAX_V2]. *)
Definition PARTITION_BOOTSTRAP_BYTES_MAX_V2 : Z := 32 * 1024 * 1024 * 1024.
(** strom-storage-domain/src/bounds.rs:95-96, [WAL_SUFFIX_COORDINATES_MAX_V2]. *)
Definition WAL_SUFFIX_COORDINATES_MAX_V2 : Z := 1024.
(** strom-storage-domain/src/bounds.rs:98-99, [WAL_SUFFIX_CHECKPOINT_SPAN_TRIGGER]. *)
Definition WAL_SUFFIX_CHECKPOINT_SPAN_TRIGGER : Z := 512.
(** strom-storage-domain/src/bounds.rs:101-102, [WRITER_INGRESS_COMMANDS_MAX]. *)
Definition WRITER_INGRESS_COMMANDS_MAX : Z := 1024.
(** strom-storage-domain/src/bounds.rs:109-110, [DIRECTORY_ROW_LOGICAL_BYTES_MAX]. *)
Definition DIRECTORY_ROW_LOGICAL_BYTES_MAX : Z := 525.
(** strom-storage-domain/src/bounds.rs:112-113, [LEDGER_VALUE_ROW_LOGICAL_BYTES_MAX]. *)
Definition LEDGER_VALUE_ROW_LOGICAL_BYTES_MAX : Z := 1035.
(** strom-storage-domain/src/bounds.rs:115-116, [LEDGER_DELETE_ROW_LOGICAL_BYTES]. *)
Definition LEDGER_DELETE_ROW_LOGICAL_BYTES : Z := 9.

(** The compile-time assertions between the bounds.
    strom-storage-domain/src/bounds.rs:26-36, [const assertions (WAL)]. *)
Definition wal_bounds_asserted : bool :=
  (WRITER_PENDING_COMMANDS_MAX <=? WAL_RUN_FACTS_MAX)
  && (WAL_RUN_FIXED_ENCODED_BYTES_MAX
      + WRITER_PENDING_COMMANDS_MAX * WAL_FACT_ENCODED_BYTES_ESTIMATE_MAX
      <=? WAL_ENCODED_BYTES_MAX).

(** strom-storage-domain/src/bounds.rs:62-81, [const assertions (SST)]. *)
Definition sst_bounds_asserted : bool :=
  (SST_TABLE_TARGET_BYTES <? SST_OBJECT_BYTES_MAX)
  && (SST_ARCHIVE_FIXED_BYTES_MAX
      + PARTITION_PATH_OCCUPANCIES_MAX_V2
        * (DIRECTORY_ROW_ENCODED_BYTES_MAX + LEDGER_VALUE_ROW_ENCODED_BYTES_MAX)
      <=? PARTITION_BOOTSTRAP_BYTES_MAX_V2).

(** strom-storage-domain/src/bounds.rs:104-123, [const assertions (suffix and residency)]. *)
Definition residency_bounds_asserted : bool :=
  (WAL_SUFFIX_CHECKPOINT_SPAN_TRIGGER * 2 =? WAL_SUFFIX_COORDINATES_MAX_V2)
  && (PARTITION_PATH_OCCUPANCIES_MAX_V2
      * (DIRECTORY_ROW_LOGICAL_BYTES_MAX + LEDGER_VALUE_ROW_LOGICAL_BYTES_MAX)
      <? PARTITION_RESIDENT_LOGICAL_BYTES_MAX_V2).

(** Unfold every named bound, for [lia]. *)
Ltac unfold_bounds :=
  unfold SEAL_ENCODED_BYTES_MAX, WAL_ENCODED_BYTES_MAX, WAL_RUN_FACTS_MAX,
    WAL_RUN_FIXED_ENCODED_BYTES_MAX, WAL_FACT_ENCODED_BYTES_ESTIMATE_MAX,
    WAL_FACT_ENCODED_FIXED_BYTES_MAX, WRITER_PENDING_COMMANDS_MAX, TREE_RUNS_MAX,
    RUN_TABLES_MAX, SST_OBJECT_BYTES_MAX, SST_TABLE_TARGET_BYTES,
    SST_ARCHIVE_FIXED_BYTES_MAX, DIRECTORY_ROW_ENCODED_BYTES_MAX,
    LEDGER_VALUE_ROW_ENCODED_BYTES_MAX, LEDGER_DELETE_ROW_ENCODED_BYTES_MAX,
    PARTITION_PATH_OCCUPANCIES_MAX_V2, PARTITION_RESIDENT_LOGICAL_BYTES_MAX_V2,
    PARTITION_BOOTSTRAP_OBJECTS_MAX_V2, PARTITION_BOOTSTRAP_BYTES_MAX_V2,
    WAL_SUFFIX_COORDINATES_MAX_V2, WAL_SUFFIX_CHECKPOINT_SPAN_TRIGGER,
    WRITER_INGRESS_COMMANDS_MAX, DIRECTORY_ROW_LOGICAL_BYTES_MAX,
    LEDGER_VALUE_ROW_LOGICAL_BYTES_MAX, LEDGER_DELETE_ROW_LOGICAL_BYTES,
    STREAM_PATH_BYTES_MAX, CONTENT_TYPE_BYTES_MAX, usize_max, u64_max, u32_max in *.

(** * Coordinates

    [SealGeneration], [BatchId] and [StreamUid] are distinct newtypes of
    [NonZeroU64] with the same operations.  The index of [Coord] keeps them apart. *)

Inductive CoordKind : Type := KGeneration | KBatch | KUid.

(** strom-storage-domain/src/coordinate.rs:15-18, [newtype coordinates]. *)
Record Coord (k : CoordKind) : Type := mk_coord { coord : NonZeroU64 }.
Arguments mk_coord {k} coord.
Arguments coord {k} c : rename.

Abbreviation SealGeneration := (Coord KGeneration).
Abbreviation BatchId := (Coord KBatch).
Abbreviation StreamUid := (Coord KUid).

(** strom-storage-domain/src/coordinate.rs:5-8, [CoordinateExhausted]. *)
Inductive CoordinateExhaustedError : Type := CoordinateExhausted.
(** strom-storage-domain/src/coordinate.rs:10-13, [ZeroCoordinate]. *)
Inductive ZeroCoordinateError : Type := ZeroCoordinate.

#[export] Instance Coord_eq_dec k : EqDecision (Coord k).
Proof. solve_decision. Defined.

#[export] Instance Coord_countable k : Countable (Coord k).
Proof. apply (inj_countable' coord mk_coord). by intros []. Defined.

#[export] Instance Coord_Ord k : Ord (Coord k) := λ a b, ord_cmp (coord a) (coord b).

#[export] Instance Coord_OrdLaws k : OrdLaws (Coord k).
Proof.
  split.
  - intros [a] [b]. etransitivity; [exact (ord_cmp_eq a b)|]. split; congruence.
  - intros a b. exact (ord_cmp_opp (coord a) (coord b)).
  - intros a b c. exact (ord_cmp_trans (coord a) (coord b) (coord c)).
Qed.


(** strom-storage-domain/src/coordinate.rs:26-29, [get (the three types)]. *)
Definition coord_get {k} (c : Coord k) : Z := content (coord c).

(** strom-storage-domain/src/coordinate.rs:21-24, [SealGeneration::genesis]. *)
Definition genesis_generation : SealGeneration := mk_coord (mk_refined (P := nonzero_u64) 1 I).

(** strom-storage-domain/src/coordinate.rs:31-41, [successor (SealGeneration, BatchId)]. *)
Definition successor {k} (c : Coord k) : Result CoordinateExhaustedError (Coord k) :=
  ok_or CoordinateExhausted
    (mk_coord <$> (u64_checked_add (coord_get c) 1 ≫= NonZeroU64_new)).

(** strom-storage-domain/src/coordinate.rs:49-55, [try_from (the three types)]. *)
Definition coord_try_from {k} (n : Z) : Result ZeroCoordinateError (Coord k) :=
  ok_or ZeroCoordinate (mk_coord <$> NonZeroU64_new n).

(** The derived comparisons of coordinates. *)
Definition coord_leb {k} (a b : Coord k) : bool := coord_get a <=? coord_get b.
Definition coord_ltb {k} (a b : Coord k) : bool := coord_get a <? coord_get b.

(** strom-storage-domain/src/owner.rs:5-15, [OwnerToken]. *)
Record OwnerToken : Type := { generation : SealGeneration }.

#[export] Instance OwnerToken_eq_dec : EqDecision OwnerToken.
Proof. solve_decision. Defined.

Lemma coord_bounds {k} (c : Coord k) : 1 ≤ coord_get c ≤ u64_max.
Proof. apply nonzero_bounds. Qed.

Lemma coord_get_inj {k} (a b : Coord k) : coord_get a = coord_get b → a = b.
Proof. destruct a, b. unfold coord_get. simpl. intros H. f_equal. by apply refined_eq. Qed.

Lemma coord_eq_iff {k} (a b : Coord k) : a = b ↔ coord_get a = coord_get b.
Proof. split; [by intros ->|apply coord_get_inj]. Qed.

Lemma successor_Ok {k} (c d : Coord k) :
  successor c = Ok d ↔ coord_get d = coord_get c + 1.
Proof.
  unfold successor, u64_checked_add. pose proof (coord_bounds c). pose proof (coord_bounds d).
  case_decide as Hm; simpl; [|split; [done|lia]].
  destruct (NonZeroU64_new_in (coord_get c + 1)) as (x & -> & Hx); [lia|]. simpl. split.
  - by intros [= <-].
  - intros Hd. f_equal. apply coord_get_inj. unfold coord_get at 1. simpl. lia.
Qed.

Lemma successor_Err {k} (c : Coord k) e :
  successor c = Err e ↔ coord_get c = u64_max.
Proof.
  unfold successor, u64_checked_add. pose proof (coord_bounds c). destruct e.
  case_decide as Hm; simpl; [|split; [lia|done]].
  destruct (NonZeroU64_new_in (coord_get c + 1)) as (x & -> & Hx); [lia|]. simpl.
  split; [done|lia].
Qed.

Lemma successor_total {k} (c : Coord k) :
  coord_get c < u64_max → ∃ d, successor c = Ok d ∧ coord_get d = coord_get c + 1.
Proof.
  intros Hc. destruct (successor c) as [d|e] eqn:E.
  - exists d. split; [done|]. by apply successor_Ok.
  - apply successor_Err in E. lia.
Qed.

Lemma coord_try_from_Ok {k} n (c : Coord k) :
  coord_try_from n = Ok c ↔ coord_get c = n.
Proof.
  unfold coord_try_from. destruct (NonZeroU64_new n) as [x|] eqn:E; simpl.
  - apply NonZeroU64_new_Some in E. split; [intros [= <-]; done|].
    intros Hc. f_equal. apply coord_get_inj. unfold coord_get at 1. simpl. lia.
  - split; [done|]. intros Hc. apply NonZeroU64_new_None in E.
    pose proof (coord_bounds c). lia.
Qed.

Lemma coord_leb_spec {k} (a b : Coord k) : coord_leb a b = true ↔ coord_get a ≤ coord_get b.
Proof. apply Z.leb_le. Qed.

Lemma coord_ltb_spec {k} (a b : Coord k) : coord_ltb a b = true ↔ coord_get a < coord_get b.
Proof. apply Z.ltb_lt. Qed.

Lemma coord_ord_lt {k} (a b : Coord k) : ord_lt a b ↔ coord_get a < coord_get b.
Proof. unfold ord_lt, ord_cmp, Coord_Ord. apply Z.compare_lt_iff. Qed.

(** Add a fact once. *)
Ltac pose_once H :=
  let T := type of H in
  lazymatch goal with
  | _ : T |- _ => fail
  | _ => pose proof H
  end.

(** Arithmetic on coordinates: pose the bounds of every coordinate in sight. *)
Ltac coord_lia :=
  repeat match goal with
  | H : successor _ = Ok _ |- _ => apply successor_Ok in H
  | H : successor _ = Err _ |- _ => apply successor_Err in H
  | H : coord_leb _ _ = true |- _ => apply coord_leb_spec in H
  | H : coord_ltb _ _ = true |- _ => apply coord_ltb_spec in H
  | H : coord_leb _ _ = false |- _ => apply Z.leb_gt in H
  | H : coord_ltb _ _ = false |- _ => apply Z.ltb_ge in H
  end;
  repeat match goal with
  | _ : context [@coord_get ?k ?c] |- _ => pose_once (@coord_bounds k c)
  | |- context [@coord_get ?k ?c] => pose_once (@coord_bounds k c)
  end; lia.

(** * Table identity *)

(** strom-storage-domain/src/table.rs:135-143, [StoreKind]. *)
Inductive StoreKind : Type := Directory | Ledger | Tally | Annals.

#[export] Instance StoreKind_eq_dec : EqDecision StoreKind.
Proof. solve_decision. Defined.

(** The counter is 64-bit in the source and not bounded here: a Writer increments its own
    with an overflow check, and no operation does arithmetic on the field.
    strom-storage-domain/src/table.rs:98-124, [AttemptId]. *)
Record AttemptId : Type := mk_attempt {
  owner_claim : SealGeneration;
  local_counter : Z
}.

#[export] Instance AttemptId_eq_dec : EqDecision AttemptId.
Proof. solve_decision. Defined.

(** The fields of a fresh identity, before its check. *)
Record FreshFields : Type := mk_fresh {
  fresh_birth_generation : SealGeneration;
  fresh_attempt : AttemptId;
  fresh_ordinal : Z
}.

#[export] Instance FreshFields_eq_dec : EqDecision FreshFields.
Proof. solve_decision. Defined.

(** strom-storage-domain/src/table.rs:156-159, [TableIdentityError]. *)
Inductive TableIdentityError : Type := TableIdentityInvalid.

(** strom-storage-domain/src/table.rs:54-67, [FreshIdentity::new]. *)
Definition fresh_check (fields : FreshFields) : Result TableIdentityError FreshFields :=
  if coord_leb (fresh_birth_generation fields) (owner_claim (fresh_attempt fields))
  then Err TableIdentityInvalid
  else Ok fields.

(** strom-storage-domain/src/table.rs:41-48, [FreshIdentity]. *)
Definition FreshIdentity : Type := Refined (accepts fresh_check).

#[export] Instance FreshIdentity_eq_dec : EqDecision FreshIdentity := _.

(** strom-storage-domain/src/table.rs:50-67, [FreshIdentity::new]. *)
Definition FreshIdentity_new (birth_generation : SealGeneration) (attempt : AttemptId)
    (ordinal : Z) : Result TableIdentityError FreshIdentity :=
  checked fresh_check (mk_fresh birth_generation attempt ordinal).

(** strom-storage-domain/src/table.rs:70-83, [FreshIdentity accessors]. *)
Definition birth_generation (fresh : FreshIdentity) : SealGeneration :=
  fresh_birth_generation (content fresh).
(** strom-storage-domain/src/table.rs:74-77, [FreshIdentity::attempt]. *)
Definition attempt (fresh : FreshIdentity) : AttemptId := fresh_attempt (content fresh).
(** strom-storage-domain/src/table.rs:79-82, [FreshIdentity::ordinal]. *)
Definition ordinal (fresh : FreshIdentity) : Z := fresh_ordinal (content fresh).

(** strom-storage-domain/src/table.rs:5-28, [TableObjectId]. *)
Record TableObjectId : Type := mk_table_object {
  fresh : FreshIdentity;
  store : StoreKind
}.

#[export] Instance TableObjectId_eq_dec : EqDecision TableObjectId.
Proof. solve_decision. Defined.

Lemma accepts_fresh_check fields :
  accepts fresh_check fields = true ↔
  coord_get (owner_claim (fresh_attempt fields)) < coord_get (fresh_birth_generation fields).
Proof.
  unfold accepts, fresh_check. destruct (coord_leb _ _) eqn:E; simpl.
  - split; [done|]. coord_lia.
  - split; [|done]. coord_lia.
Qed.

Lemma fresh_claim_predates (f : FreshIdentity) :
  coord_get (owner_claim (attempt f)) < coord_get (birth_generation f).
Proof. apply accepts_fresh_check, content_true. Qed.

Lemma FreshIdentity_new_ok birth att ord :
  coord_get (owner_claim att) < coord_get birth →
  ∃ f, FreshIdentity_new birth att ord = Ok f ∧ birth_generation f = birth ∧
       attempt f = att ∧ ordinal f = ord.
Proof.
  intros Hlt. destruct (checked_total fresh_check (mk_fresh birth att ord)) as (f & Hf & Hc);
    [by apply accepts_fresh_check|].
  exists f. split; [done|]. unfold birth_generation, attempt, ordinal. by rewrite Hc.
Qed.

Lemma FreshIdentity_new_Ok birth att ord f :
  FreshIdentity_new birth att ord = Ok f →
  birth_generation f = birth ∧ attempt f = att ∧ ordinal f = ord.
Proof.
  unfold FreshIdentity_new. intros E%checked_Ok.
  unfold birth_generation, attempt, ordinal. by rewrite E.
Qed.

(** * Rows of the two stores *)

(** strom-storage-domain/src/directory.rs:5-9, [DirectoryEntry]. *)
Inductive DirectoryEntry : Type :=
| Live (uid : StreamUid)
| Tombstone (uid : StreamUid).

#[export] Instance DirectoryEntry_eq_dec : EqDecision DirectoryEntry.
Proof. solve_decision. Defined.

(** strom-storage-domain/src/ledger.rs:10-60, [StreamRecord]. *)
Record StreamRecord : Type := mk_record {
  content_type : StreamContentType;
  expiry : ExpiryPolicy;
  lifecycle : StreamLifecycle;
  created_at : BatchId
}.

#[export] Instance StreamRecord_eq_dec : EqDecision StreamRecord.
Proof. solve_decision. Defined.

(** strom-storage-domain/src/ledger.rs:76-81, [LedgerCell]. *)
Inductive LedgerCell : Type :=
| Value (record : StreamRecord)
| Delete.

#[export] Instance LedgerCell_eq_dec : EqDecision LedgerCell.
Proof. solve_decision. Defined.
