(* ===== verification/Partition.v ===== *)
(** The partition identity and its canonical UUID spelling (crate
    [strom-storage-domain], file [partition.rs]). *)

From S2P Require Import Prelude Text.

(** The array type [[u8; 16]]. *)
Definition is_octets (l : list Z) : bool :=
  (zlen l =? 16) && forallb (λ b, (0 <=? b) && (b <? 256)) l.
Definition Octets : Type := Refined is_octets.

#[export] Instance Octets_eq_dec : EqDecision Octets := _.

(** strom-storage-domain/src/partition.rs:93-99, [PartitionIdError]. *)
Inductive PartitionIdError : Type := PartitionMalformed | PartitionNil.

#[export] Instance PartitionIdError_eq_dec : EqDecision PartitionIdError.
Proof. solve_decision. Defined.

(** strom-storage-domain/src/partition.rs:21-30, [PartitionId::try_from]. *)
Definition partition_check (bytes : Octets) : Result PartitionIdError Octets :=
  if bool_decide (content bytes = replicate 16 0) then Err PartitionNil else Ok bytes.

(** strom-storage-domain/src/partition.rs:8-11, [PartitionId]. *)
Definition PartitionId : Type := Refined (accepts partition_check).

#[export] Instance PartitionId_eq_dec : EqDecision PartitionId := _.

(** strom-storage-domain/src/partition.rs:21-30, [PartitionId::try_from]. *)
Definition PartitionId_try_from (bytes : Octets) : Result PartitionIdError PartitionId :=
  checked partition_check bytes.

Definition octets (partition : PartitionId) : list Z := content (content partition).

(** strom-storage-domain/src/partition.rs:82-91, [hex_nibble]. *)
Definition hex_nibble (character : Z) : option Z :=
  if (48 <=? character) && (character <=? 57) then u64_checked_sub character 48
  else if (97 <=? character) && (character <=? 102)
  then offset ← u64_checked_sub character 97; Some (offset + 10)
  else None.

Definition u8_checked (n : Z) : option Z := if decide (n ≤ 255) then Some n else None.

(** The loop over the bytes of the input, with the octets written so far and the
    pending high nibble.
    strom-storage-domain/src/partition.rs:39-65, [PartitionId::from_str (loop)]. *)
Fixpoint uuid_loop (position : Z) (bytes : list Z) (written : list Z)
    (high_nibble : option Z) : Exec (Result PartitionIdError (list Z * option Z)) :=
  match bytes with
  | [] => Ret (Ok (written, high_nibble))
  | character :: bytes =>
      if existsb (Z.eqb position) [8; 13; 18; 23] then
        if character =? 45 then uuid_loop (position + 1) bytes written high_nibble
        else Ret (Err PartitionMalformed)
      else
        match hex_nibble character with
        | None => Ret (Err PartitionMalformed)
        | Some nibble =>
            match high_nibble with
            | None => uuid_loop (position + 1) bytes written (Some nibble)
            | Some high =>
                let! octet :=
                  expect (shifted ← u8_checked (high * 16); u8_checked (shifted + nibble)) in
                assert! zlen written <? 16 in
                uuid_loop (position + 1) bytes (written ++ [octet]) None
            end
        end
  end.

(** The sixteen octets written are the array the code returns; [refined] states
    their type.
    strom-storage-domain/src/partition.rs:32-68, [PartitionId::from_str]. *)
Definition PartitionId_from_str (input : str) : Exec (Result PartitionIdError PartitionId) :=
  if negb (str_len input =? 36) then Ret (Err PartitionMalformed)
  else
    let! parsed := uuid_loop 0 (str_bytes input) [] None in
    match parsed with
    | Err e => Ret (Err e)
    | Ok (written, high_nibble) =>
        if bool_decide (is_Some high_nibble) || (zlen written <? 16)
        then Ret (Err PartitionMalformed)
        else
          let! octets := expect (refined is_octets written) in
          Ret (PartitionId_try_from octets)
    end.

Definition hex_digit (d : Z) : Z := if decide (d < 10) then 48 + d else 87 + d.

(** strom-storage-domain/src/partition.rs:72-80, [Display for PartitionId]. *)
Fixpoint display_octets (index : Z) (bytes : list Z) : str :=
  match bytes with
  | [] => []
  | octet :: bytes =>
      (if existsb (Z.eqb index) [4; 6; 8; 10] then [45] else [])
      ++ hex_digit (octet / 16) :: hex_digit (octet mod 16)
      :: display_octets (index + 1) bytes
  end.

(** strom-storage-domain/src/partition.rs:70-80, [Display for PartitionId]. *)
Definition PartitionId_display (partition : PartitionId) : str :=
  display_octets 0 (octets partition).

(** * Lemmas *)

Lemma is_octets_spec l :
  is_octets l = true ↔ length l = 16%nat ∧ Forall (λ b, 0 ≤ b < 256) l.
Proof.
  unfold is_octets, zlen. rewrite andb_true_iff, Z.eqb_eq, forallb_true.
  split; intros [H1 H2]; (split; [lia|]); (eapply Forall_impl; [exact H2|]); simpl;
    intros x; rewrite andb_true_iff, Z.leb_le, Z.ltb_lt; lia.
Qed.

Lemma hex_nibble_digit d : 0 ≤ d < 16 → hex_nibble (hex_digit d) = Some d.
Proof.
  intros Hd. unfold hex_nibble, hex_digit, u64_checked_sub. case_decide as Hs.
  - rewrite (proj2 (Z.leb_le 48 (48 + d))), (proj2 (Z.leb_le (48 + d) 57)) by lia.
    simpl. rewrite decide_True by lia. f_equal. lia.
  - rewrite (proj2 (Z.leb_gt (87 + d) 57)) by lia. rewrite andb_false_r.
    rewrite (proj2 (Z.leb_le 97 (87 + d))), (proj2 (Z.leb_le (87 + d) 102)) by lia.
    simpl. rewrite decide_True by lia. simpl. f_equal. lia.
Qed.

Lemma hex_nibble_Some c d :
  hex_nibble c = Some d → 0 ≤ d < 16 ∧ c = hex_digit d.
Proof.
  unfold hex_nibble, hex_digit, u64_checked_sub.
  destruct (Z.leb_spec 48 c), (Z.leb_spec c 57); simpl;
    repeat case_decide; simpl; try lia; intros; simplify_eq; try lia;
    destruct (Z.leb_spec 97 c), (Z.leb_spec c 102); simpl in *; simplify_eq;
    repeat case_decide; simpl in *; simplify_eq; try lia; split; try lia; case_decide; lia.
Qed.

Lemma u8_octet h l :
  0 ≤ h < 16 → 0 ≤ l < 16 →
  (shifted ← u8_checked (h * 16); u8_checked (shifted + l)) = Some (h * 16 + l).
Proof.
  intros Hh Hl. unfold u8_checked. rewrite decide_True by lia. simpl.
  by rewrite decide_True by lia.
Qed.

(** One octet of the spelling, at a position that is not a hyphen's. *)
Lemma uuid_octet_cases pos c1 c2 rest written :
  existsb (Z.eqb pos) [8; 13; 18; 23] = false →
  existsb (Z.eqb (pos + 1)) [8; 13; 18; 23] = false →
  zlen written < 16 →
  uuid_loop pos (c1 :: c2 :: rest) written None = Ret (Err PartitionMalformed) ∨
  ∃ a, 0 ≤ a < 256 ∧ c1 = hex_digit (a / 16) ∧ c2 = hex_digit (a mod 16) ∧
       uuid_loop pos (c1 :: c2 :: rest) written None
       = uuid_loop (pos + 2) rest (written ++ [a]) None.
Proof.
  intros Hp1 Hp2 Hw. cbn [uuid_loop]. rewrite Hp1, Hp2.
  destruct (hex_nibble c1) as [h|] eqn:H1; [|auto].
  destruct (hex_nibble c2) as [l|] eqn:H2; [|auto].
  apply hex_nibble_Some in H1 as [Hh ->], H2 as [Hl ->].
  rewrite u8_octet by done. cbn [expect exec_bind]. rewrite (proj2 (Z.ltb_lt _ _)) by lia.
  right. exists (h * 16 + l).
  assert ((h * 16 + l) / 16 = h) as -> by (symmetry; apply (Z.div_unique _ _ _ l); lia).
  assert ((h * 16 + l) mod 16 = l) as -> by (symmetry; apply (Z.mod_unique _ _ h); lia).
  split_and!; [lia|lia|done|done|]. by rewrite <- Z.add_assoc.
Qed.

Lemma uuid_octet pos rest written a :
  existsb (Z.eqb pos) [8; 13; 18; 23] = false →
  existsb (Z.eqb (pos + 1)) [8; 13; 18; 23] = false →
  zlen written < 16 → 0 ≤ a < 256 →
  uuid_loop pos (hex_digit (a / 16) :: hex_digit (a mod 16) :: rest) written None
  = uuid_loop (pos + 2) rest (written ++ [a]) None.
Proof.
  intros Hp1 Hp2 Hw Ha. cbn [uuid_loop]. rewrite Hp1, Hp2.
  assert (0 ≤ a / 16 < 16) by (split; [apply Z.div_pos; lia|apply Z.div_lt_upper_bound; lia]).
  pose proof (Z.mod_pos_bound a 16 ltac:(lia)).
  rewrite !hex_nibble_digit by lia. rewrite u8_octet by lia. cbn [expect exec_bind].
  rewrite (proj2 (Z.ltb_lt _ _)) by lia. rewrite <- Z.add_assoc.
  do 2 f_equal. f_equal. pose proof (Z.div_mod a 16). lia.
Qed.

Lemma uuid_hyphen pos c rest written :
  existsb (Z.eqb pos) [8; 13; 18; 23] = true →
  uuid_loop pos (c :: rest) written None = Ret (Err PartitionMalformed) ∨
  c = 45 ∧ uuid_loop pos (c :: rest) written None = uuid_loop (pos + 1) rest written None.
Proof.
  intros Hp. cbn [uuid_loop]. rewrite Hp. destruct (Z.eqb_spec c 45); auto.
Qed.

Lemma uuid_hyphen_45 pos rest written :
  existsb (Z.eqb pos) [8; 13; 18; 23] = true →
  uuid_loop pos (45 :: rest) written None = uuid_loop (pos + 1) rest written None.
Proof. intros Hp. cbn [uuid_loop]. by rewrite Hp. Qed.

Lemma octets_split (partition : PartitionId) :
  length (octets partition) = 16%nat ∧ Forall (λ b, 0 ≤ b < 256) (octets partition).
Proof. apply is_octets_spec, content_true. Qed.

(** Destruct a list of known length into its elements. *)
Ltac destruct_list l :=
  lazymatch goal with
  | H : length l = O |- _ => apply nil_length_inv in H; subst l
  | H : length l = S _ |- _ =>
      let x := fresh "b" in let l' := fresh "l" in
      destruct l as [|x l']; [discriminate H|]; cbn [length] in H;
      injection H as H; destruct_list l'
  end.

Lemma uuid_loop_display l :
  length l = 16%nat → Forall (λ b, 0 ≤ b < 256) l →
  uuid_loop 0 (display_octets 0 l) [] None = Ret (Ok (l, None)).
Proof.
  intros Hl Hb. destruct_list l. 
  lazy beta iota delta [display_octets existsb Z.eqb orb app Z.add Pos.eqb Pos.add Pos.succ].
  repeat match goal with H : Forall _ (_ :: _) |- _ => apply Forall_cons in H as [? H] end.
  repeat first
    [ rewrite uuid_octet by first [reflexivity|assumption]; lazy beta iota delta [Z.add Pos.add Pos.succ app]
    | rewrite uuid_hyphen_45 by reflexivity; lazy beta iota delta [Z.add Pos.add Pos.succ app] ].
  reflexivity.
Qed.

(** Thirty-six bytes are malformed or the spelling of sixteen octets. *)
Lemma uuid_loop_cases bytes :
  length bytes = 36%nat →
  uuid_loop 0 bytes [] None = Ret (Err PartitionMalformed) ∨
  ∃ l, length l = 16%nat ∧ Forall (λ b, 0 ≤ b < 256) l ∧ bytes = display_octets 0 l ∧
       uuid_loop 0 bytes [] None = Ret (Ok (l, None)).
Proof.
  intros Hl. destruct_list bytes.
  repeat first
    [ match goal with |- context [uuid_loop ?p (?c1 :: ?c2 :: ?r) ?w None] =>
        destruct (uuid_octet_cases p c1 c2 r w eq_refl eq_refl eq_refl)
          as [->|(? & ? & -> & -> & ->)]; [by left|]; lazy beta iota delta [Z.add Pos.add Pos.succ app] end
    | match goal with |- context [uuid_loop ?p (?c :: ?r) ?w None] =>
        destruct (uuid_hyphen p c r w eq_refl) as [->|[-> ->]]; [by left|];
        lazy beta iota delta [Z.add Pos.add Pos.succ app] end ].
  right. cbn [uuid_loop]. eexists. split; [|split; [|split; [|reflexivity]]]; [done| |done].
  repeat (apply Forall_cons; split; [assumption|]). constructor.
Qed.

Lemma display_octets_ascii i l :
  Forall (λ b, 0 ≤ b < 256) l → is_ascii_str (display_octets i l).
Proof.
  intros Hl. revert i. induction Hl as [|b l Hb _ IH]; intros i; simpl; [constructor|].
  assert (0 ≤ b / 16 < 16) by (split; [apply Z.div_pos; lia|apply Z.div_lt_upper_bound; lia]).
  pose proof (Z.mod_pos_bound b 16 ltac:(lia)).
  apply Forall_app. split; [destruct (_ || _); repeat constructor; lia|].
  repeat (apply Forall_cons; split); [..|apply IH]; unfold hex_digit; case_decide; lia.
Qed.

Lemma display_octets_length l :
  length l = 16%nat → length (display_octets 0 l) = 36%nat.
Proof. intros Hl. destruct_list l. reflexivity. Qed.

Lemma uuid_loop_input (p : PartitionId) :
  str_len (PartitionId_display p) = 36 ∧
  uuid_loop 0 (str_bytes (PartitionId_display p)) [] None = Ret (Ok (octets p, None)).
Proof.
  destruct (octets_split p) as [Hl Hb]. unfold PartitionId_display.
  pose proof (display_octets_ascii 0 _ Hb) as Ha.
  rewrite str_len_ascii, str_bytes_ascii by done. unfold zlen.
  rewrite display_octets_length by done. split; [done|]. by apply uuid_loop_display.
Qed.

Lemma display_octets_inj s l :
  Forall (λ b, 0 ≤ b < 256) l → str_bytes s = display_octets 0 l → s = display_octets 0 l.
Proof.
  intros Hb Hs. rewrite <- Hs. symmetry. apply str_bytes_ascii_inv. rewrite Hs.
  eapply Forall_impl; [by apply display_octets_ascii|]. simpl. lia.
Qed.

(** What [from_str] returns once the loop has collected sixteen octets. *)
Lemma uuid_finish l (p : PartitionId) :
  length l = 16%nat → Forall (λ b, 0 ≤ b < 256) l →
  ∃ r, (let! octets := expect (refined is_octets l) in Ret (PartitionId_try_from octets)) = Ret r
       ∧ (r = Ok p ↔ octets p = l).
Proof.
  intros Hl Hb. destruct (refined_is_Some is_octets l) as (o & -> & Ho);
    [by apply is_octets_spec|].
  simpl. eexists. split; [done|]. unfold PartitionId_try_from, octets.
  etransitivity; [apply checked_Ok|]. etransitivity; [apply refined_eq_iff|]. by rewrite Ho.
Qed.

(** Parsing a partition id never panics, and it accepts exactly the canonical
    lowercase hyphenated spelling of a non-nil identity. *)
Theorem partition_id_roundtrip (input : str) (p : PartitionId) :
  PartitionId_from_str input ≠ Panic ∧
  (PartitionId_from_str input = Ret (Ok p) ↔ input = PartitionId_display p).
Proof.
  destruct (uuid_loop_input p) as [Hpl Hpu]. unfold PartitionId_from_str.
  destruct (Z.eqb_spec (str_len input) 36) as [Hlen|Hlen]; cbn [negb];
    [|split; [done|]; split; [done|]; intros ->; lia].
  assert (length (str_bytes input) = 36%nat) as Hbl.
  { rewrite <- str_bytes_len in Hlen. unfold zlen in Hlen. lia. }
  destruct (uuid_loop_cases _ Hbl) as [Hu|(l & Hl & Hb & Hd & Hu)]; rewrite Hu; cbn [exec_bind].
  - split; [done|]. split; [done|]. intros ->. congruence.
  - rewrite bool_decide_eq_false_2 by apply is_Some_None. unfold zlen at 1 2. rewrite Hl.
    change (false || (Z.of_nat 16 <? 16)) with false. cbv iota.
    destruct (uuid_finish l p Hl Hb) as (r & -> & Hr). split; [done|].
    transitivity (r = Ok p); [split; congruence|]. rewrite Hr. split.
    + intros <-. by apply display_octets_inj.
    + intros ->. congruence.
Qed.
