(* ===== verification/Seal.v ===== *)
(** The Seal: the durable manifest a generation selects (crate
    [strom-storage-domain], file [seal.rs]).

    A Seal names its generation, the WAL cut that its trees already contain and,
    for each of the two stores, the sorted runs of table objects.  Every type of
    this file has private fields and a checked constructor, so each is a
    [Refined] type over its bare fields. *)

From S2P Require Import Prelude Text Domain Coordinates Partition.

(** strom-storage-domain/src/seal.rs:240-262, [SealError]. *)
Inductive SealError : Type :=
| GenerationExhausted
| NonCanonicalGenesis
| ReplayOwnerNotBeforeSeal
| RunsOverMax
| EmptyRun
| TablesOverMax
| ObjectBytesOverMax
| StoreMismatch
| FutureTable
| DuplicateTableObject.

#[export] Instance SealError_eq_dec : EqDecision SealError.
Proof. solve_decision. Defined.

(** * Table references, runs and trees *)

(** strom-storage-domain/src/seal.rs:209-213, [TableRef]. *)
Record TableRefFields : Type := mk_table_ref {
  ref_object : TableObjectId;
  ref_object_bytes : NonZeroU64
}.

#[export] Instance TableRefFields_eq_dec : EqDecision TableRefFields.
Proof. solve_decision. Defined.

(** strom-storage-domain/src/seal.rs:219-227, [TableRef::new (check)]. *)
Definition table_ref_check (fields : TableRefFields) : Result SealError TableRefFields :=
  if SST_OBJECT_BYTES_MAX <? content (ref_object_bytes fields)
  then Err ObjectBytesOverMax
  else Ok fields.

(** strom-storage-domain/src/seal.rs:209-213, [TableRef]. *)
Definition TableRef : Type := Refined (accepts table_ref_check).

#[export] Instance TableRef_eq_dec : EqDecision TableRef := _.

(** strom-storage-domain/src/seal.rs:215-227, [TableRef::new]. *)
Definition TableRef_new (object : TableObjectId) (object_bytes : NonZeroU64) :
    Result SealError TableRef :=
  checked table_ref_check (mk_table_ref object object_bytes).

(** strom-storage-domain/src/seal.rs:229-237, [TableRef accessors]. *)
Definition table_object (table : TableRef) : TableObjectId := ref_object (content table).
(** strom-storage-domain/src/seal.rs:234-237, [TableRef::object_bytes]. *)
Definition object_bytes (table : TableRef) : Z := content (ref_object_bytes (content table)).

(** strom-storage-domain/src/seal.rs:195-207, [SortedRun::try_from (check)]. *)
Definition run_check (tables : list TableRef) : Result SealError (list TableRef) :=
  if bool_decide (tables = []) then Err EmptyRun
  else if RUN_TABLES_MAX <? zlen tables then Err TablesOverMax
  else Ok tables.

(** strom-storage-domain/src/seal.rs:183-193, [SortedRun]. *)
Definition SortedRun : Type := Refined (accepts run_check).

#[export] Instance SortedRun_eq_dec : EqDecision SortedRun := _.

(** strom-storage-domain/src/seal.rs:195-207, [SortedRun::try_from]. *)
Definition SortedRun_try_from (tables : list TableRef) : Result SealError SortedRun :=
  checked run_check tables.

(** strom-storage-domain/src/seal.rs:188-193, [SortedRun::tables]. *)
Definition run_tables (run : SortedRun) : list TableRef := content run.

(** strom-storage-domain/src/seal.rs:172-181, [TreeVersion::try_from (check)]. *)
Definition tree_check (runs : list SortedRun) : Result SealError (list SortedRun) :=
  if TREE_RUNS_MAX <? zlen runs then Err RunsOverMax else Ok runs.

(** strom-storage-domain/src/seal.rs:146-149, [TreeVersion]. *)
Definition TreeVersion : Type := Refined (accepts tree_check).

#[export] Instance TreeVersion_eq_dec : EqDecision TreeVersion := _.

(** strom-storage-domain/src/seal.rs:172-181, [TreeVersion::try_from]. *)
Definition TreeVersion_try_from (runs : list SortedRun) : Result SealError TreeVersion :=
  checked tree_check runs.

(** strom-storage-domain/src/seal.rs:152-155, [TreeVersion::empty]. *)
Definition tree_empty : TreeVersion := mk_refined (P := accepts tree_check) [] I.

(** strom-storage-domain/src/seal.rs:157-160, [TreeVersion::runs]. *)
Definition tree_runs (tree : TreeVersion) : list SortedRun := content tree.

(** strom-storage-domain/src/seal.rs:162-165, [TreeVersion::is_empty]. *)
Definition tree_is_empty (tree : TreeVersion) : bool := bool_decide (tree_runs tree = []).

(** strom-storage-domain/src/seal.rs:167-169, [TreeVersion::tables]. *)
Definition tree_tables (tree : TreeVersion) : list TableRef := tree_runs tree ≫= run_tables.

(** * The Seal *)

(** strom-storage-domain/src/seal.rs:129-133, [WalReplayPoint]. *)
Inductive WalReplayPoint : Type :=
| Genesis
| Through (batch : BatchId) (owner : OwnerToken).

#[export] Instance WalReplayPoint_eq_dec : EqDecision WalReplayPoint.
Proof. solve_decision. Defined.

(** strom-storage-domain/src/seal.rs:136-143, [WalReplayPoint::batch]. *)
Definition replay_batch (replay : WalReplayPoint) : option BatchId :=
  match replay with Genesis => None | Through batch _ => Some batch end.

(** strom-storage-domain/src/seal.rs:13-20, [Seal]. *)
Record SealFields : Type := mk_seal {
  fields_partition : PartitionId;
  fields_generation : SealGeneration;
  fields_replay : WalReplayPoint;
  fields_directory : TreeVersion;
  fields_ledger : TreeVersion
}.

#[export] Instance SealFields_eq_dec : EqDecision SealFields.
Proof. solve_decision. Defined.

(** Every selected table, Directory first.
    strom-storage-domain/src/seal.rs:87-92, [Seal::tables]. *)
Definition fields_tables (fields : SealFields) : list TableRef :=
  tree_tables (fields_directory fields) ++ tree_tables (fields_ledger fields).

(** strom-storage-domain/src/seal.rs:113-127, [validate_tree]. *)
Fixpoint validate_tables (store_kind : StoreKind) (generation : SealGeneration)
    (tables : list TableRef) : Result SealError unit :=
  match tables with
  | [] => Ok tt
  | table :: tables =>
      if negb (bool_decide (store (table_object table) = store_kind)) then Err StoreMismatch
      else if coord_ltb generation (birth_generation (fresh (table_object table)))
      then Err FutureTable
      else validate_tables store_kind generation tables
  end.

(** strom-storage-domain/src/seal.rs:53-58, [Seal::new (duplicate scan)]. *)
Fixpoint distinct_objects (identities : list TableObjectId) (tables : list TableRef) : bool :=
  match tables with
  | [] => true
  | table :: tables =>
      if bool_decide (table_object table ∈ identities) then false
      else distinct_objects (table_object table :: identities) tables
  end.

(** strom-storage-domain/src/seal.rs:27-60, [Seal::new]. *)
Definition seal_check (fields : SealFields) : Result SealError SealFields :=
  if bool_decide (fields_generation fields = genesis_generation)
     && (negb (bool_decide (fields_replay fields = Genesis))
         || negb (tree_is_empty (fields_directory fields))
         || negb (tree_is_empty (fields_ledger fields)))
  then Err NonCanonicalGenesis
  else if match fields_replay fields with
          | Through _ owner => coord_leb (fields_generation fields) (generation owner)
          | Genesis => false
          end
  then Err ReplayOwnerNotBeforeSeal
  else
    let? _ := validate_tables Directory (fields_generation fields)
                (tree_tables (fields_directory fields)) in
    let? _ := validate_tables Ledger (fields_generation fields)
                (tree_tables (fields_ledger fields)) in
    if distinct_objects [] (fields_tables fields) then Ok fields
    else Err DuplicateTableObject.

(** strom-storage-domain/src/seal.rs:13-20, [Seal]. *)
Definition Seal : Type := Refined (accepts seal_check).

#[export] Instance Seal_eq_dec : EqDecision Seal := _.

(** strom-storage-domain/src/seal.rs:22-60, [Seal::new]. *)
Definition Seal_new (partition : PartitionId) (generation : SealGeneration)
    (replay : WalReplayPoint) (directory ledger : TreeVersion) : Result SealError Seal :=
  checked seal_check (mk_seal partition generation replay directory ledger).

(** strom-storage-domain/src/seal.rs:62-85, [Seal accessors]. *)
Definition seal_partition (seal : Seal) : PartitionId := fields_partition (content seal).
(** strom-storage-domain/src/seal.rs:67-70, [Seal::generation]. *)
Definition seal_generation (seal : Seal) : SealGeneration := fields_generation (content seal).
(** strom-storage-domain/src/seal.rs:72-75, [Seal::replay]. *)
Definition seal_replay (seal : Seal) : WalReplayPoint := fields_replay (content seal).
(** strom-storage-domain/src/seal.rs:77-80, [Seal::directory]. *)
Definition seal_directory (seal : Seal) : TreeVersion := fields_directory (content seal).
(** strom-storage-domain/src/seal.rs:82-85, [Seal::ledger]. *)
Definition seal_ledger (seal : Seal) : TreeVersion := fields_ledger (content seal).
(** strom-storage-domain/src/seal.rs:87-92, [Seal::tables]. *)
Definition seal_tables (seal : Seal) : list TableRef := fields_tables (content seal).

(** * Well-formedness, declaratively *)

Definition tables_of (store_kind : StoreKind) (generation : SealGeneration)
    (tables : list TableRef) : Prop :=
  Forall (λ table, store (table_object table) = store_kind ∧
    coord_get (birth_generation (fresh (table_object table))) ≤ coord_get generation) tables.

Definition seal_wf (fields : SealFields) : Prop :=
  (fields_generation fields = genesis_generation →
     fields_replay fields = Genesis ∧
     tree_runs (fields_directory fields) = [] ∧ tree_runs (fields_ledger fields) = []) ∧
  (∀ batch owner, fields_replay fields = Through batch owner →
     coord_get (generation owner) < coord_get (fields_generation fields)) ∧
  tables_of Directory (fields_generation fields) (tree_tables (fields_directory fields)) ∧
  tables_of Ledger (fields_generation fields) (tree_tables (fields_ledger fields)) ∧
  NoDup (table_object <$> fields_tables fields).

Lemma validate_tables_ok store_kind gen tables :
  validate_tables store_kind gen tables = Ok tt ↔ tables_of store_kind gen tables.
Proof.
  unfold tables_of. induction tables as [|t l IH]; simpl; [by split|].
  rewrite Forall_cons, <- IH. case_bool_decide as Hs; simpl; [|naive_solver].
  destruct (coord_ltb _ _) eqn:E.
  - split; [done|]. intros [[_ Hle] _]. exfalso. coord_lia.
  - apply Z.ltb_ge in E. naive_solver.
Qed.

Lemma distinct_objects_spec seen tables :
  distinct_objects seen tables = true ↔
  NoDup (table_object <$> tables) ∧
  (∀ o, o ∈ seen → o ∉ table_object <$> tables).
Proof.
  revert seen. induction tables as [|t l IH]; intros seen; csimpl.
  - split; [|done]. intros _. split; [constructor|]. intros o _. apply not_elem_of_nil.
  - rewrite NoDup_cons. case_bool_decide as Hin.
    + split; [done|]. intros [_ Hs]. destruct (Hs _ Hin). left.
    + rewrite IH. split.
      * intros [Hnd Hs]. split; [split; [apply Hs; left|done]|].
        intros o Ho [->|Ho']%elem_of_cons; [done|]. by apply (Hs o); [right|].
      * intros [[Ht Hnd] Hs]. split; [done|].
        intros o [->|Ho]%elem_of_cons; [done|]. intros Ho'. by apply (Hs o Ho); right.
Qed.

Lemma tree_is_empty_spec tree : tree_is_empty tree = true ↔ tree_runs tree = [].
Proof. apply bool_decide_eq_true. Qed.

(** The constructor's check is the declarative well-formedness. *)
Lemma seal_check_ok fields : seal_check fields = Ok fields ↔ seal_wf fields.
Proof.
  unfold seal_check, seal_wf. set (g := fields_generation fields).
  destruct (bool_decide (g = genesis_generation) && _) eqn:Hg.
  { split; [done|]. intros [Hc _].
    apply andb_true_iff in Hg as [Hg1%bool_decide_eq_true Hg2]. exfalso.
    destruct (Hc Hg1) as (Hr & Hd%tree_is_empty_spec & Hl%tree_is_empty_spec).
    rewrite Hd, Hl, (bool_decide_eq_true_2 _ Hr) in Hg2. done. }
  assert (g = genesis_generation → fields_replay fields = Genesis ∧
     tree_runs (fields_directory fields) = [] ∧ tree_runs (fields_ledger fields) = []) as HG.
  { intros Hgen. rewrite (bool_decide_eq_true_2 _ Hgen) in Hg. cbn [andb] in Hg.
    rewrite !orb_false_iff, !negb_false_iff, !tree_is_empty_spec, bool_decide_eq_true in Hg.
    by destruct Hg as [[??]?]. }
  assert (match fields_replay fields with
    | Through _ owner => coord_leb g (generation owner) | Genesis => false end = false ↔
    (∀ batch owner, fields_replay fields = Through batch owner →
      coord_get (generation owner) < coord_get g)) as HR.
  { destruct (fields_replay fields) as [|b o]; [done|]. split.
    - intros E ? ? [= <- <-]. coord_lia.
    - intros E. apply Z.leb_gt. by apply (E b). }
  destruct (match fields_replay fields with Through _ _ => _ | Genesis => _ end).
  { split; [done|]. intros (_ & Hr & _). by apply HR in Hr. }
  destruct (validate_tables Directory _ _) as [[]|] eqn:HD; cbn [result_bind]; last first.
  { split; [done|]. intros (_ & _ & Hd & _). apply validate_tables_ok in Hd. congruence. }
  destruct (validate_tables Ledger _ _) as [[]|] eqn:HL; cbn [result_bind]; last first.
  { split; [done|]. intros (_ & _ & _ & Hl & _). apply validate_tables_ok in Hl. congruence. }
  apply validate_tables_ok in HD, HL.
  pose proof (distinct_objects_spec [] (fields_tables fields)) as HN.
  destruct (distinct_objects [] _).
  - split; [|done]. intros _. split_and!; [done|by apply HR|done|done|by apply HN].
  - split; [done|]. intros (_ & _ & _ & _ & Hn).
    assert (false = true); [|done]. apply HN. split; [done|]. intros o Ho. by apply not_elem_of_nil in Ho.
Qed.

Lemma seal_check_inv fields x : seal_check fields = Ok x → x = fields.
Proof.
  unfold seal_check. destruct (_ && _); [done|].
  destruct (match fields_replay fields with Through _ _ => _ | Genesis => _ end); [done|].
  destruct (validate_tables Directory _ _); cbn [result_bind]; [|done].
  destruct (validate_tables Ledger _ _); cbn [result_bind]; [|done].
  destruct (distinct_objects _ _); congruence.
Qed.

Lemma accepts_seal_check fields : accepts seal_check fields = true ↔ seal_wf fields.
Proof.
  unfold accepts. rewrite is_ok_true, <- seal_check_ok. split; [|eauto].
  intros [x Hx]. by rewrite (seal_check_inv _ _ Hx) in Hx.
Qed.

Lemma seal_ok (seal : Seal) : seal_wf (content seal).
Proof. apply accepts_seal_check, content_true. Qed.

Lemma Seal_new_Ok p g r d l seal :
  Seal_new p g r d l = Ok seal ↔ content seal = mk_seal p g r d l.
Proof. apply checked_Ok. Qed.

Lemma Seal_new_wf p g r d l :
  seal_wf (mk_seal p g r d l) → ∃ seal, Seal_new p g r d l = Ok seal ∧
    content seal = mk_seal p g r d l.
Proof.
  intros Hwf%accepts_seal_check. by apply checked_total.
Qed.

(** * Claims *)

(** strom-storage-domain/src/seal.rs:101-110, [Seal::claim_successor (fields)]. *)
Definition claim_fields (fields : SealFields) (generation : SealGeneration) : SealFields :=
  mk_seal (fields_partition fields) generation (fields_replay fields)
    (fields_directory fields) (fields_ledger fields).

(** Advancing the generation keeps every constraint of the constructor, so the
    struct update of [claim_successor] yields a value [Seal::new] accepts. *)
Lemma claim_fields_wf fields gen :
  seal_wf fields → coord_get (fields_generation fields) < coord_get gen →
  seal_wf (claim_fields fields gen).
Proof.
  intros (Hg & Hr & Hd & Hl & Hn) Hlt. unfold seal_wf, claim_fields; simpl.
  split_and!; [| | | |done].
  - intros ->. pose proof (coord_bounds (fields_generation fields)).
    change (coord_get genesis_generation) with 1 in Hlt. lia.
  - intros b o Ho. specialize (Hr b o Ho). lia.
  - eapply Forall_impl; [exact Hd|]. simpl. intros t [? ?]. split; [done|lia].
  - eapply Forall_impl; [exact Hl|]. simpl. intros t [? ?]. split; [done|lia].
Qed.

Lemma claim_fields_ok (seal : Seal) gen :
  successor (seal_generation seal) = Ok gen →
  Is_true (accepts seal_check (claim_fields (content seal) gen)).
Proof.
  intros Hs%successor_Ok. apply Is_true_true, accepts_seal_check, claim_fields_wf.
  - apply seal_ok.
  - unfold seal_generation in Hs. lia.
Qed.

(** strom-storage-domain/src/seal.rs:94-111, [Seal::claim_successor]. *)
Definition claim_successor (seal : Seal) : Result SealError Seal :=
  match successor (seal_generation seal) as r
    return successor (seal_generation seal) = r → Result SealError Seal
  with
  | Ok generation => λ Heq,
      Ok (mk_refined (claim_fields (content seal) generation) (claim_fields_ok _ _ Heq))
  | Err _ => λ _, Err GenerationExhausted
  end eq_refl.

Lemma claim_successor_Ok seal claim :
  claim_successor seal = Ok claim ↔
  ∃ gen, successor (seal_generation seal) = Ok gen ∧
         content claim = claim_fields (content seal) gen.
Proof.
  unfold claim_successor.
  assert (∀ r (H : successor (seal_generation seal) = r),
    match r as r return successor (seal_generation seal) = r → Result SealError Seal with
    | Ok generation => λ Heq,
        Ok (mk_refined (claim_fields (content seal) generation) (claim_fields_ok _ _ Heq))
    | Err _ => λ _, Err GenerationExhausted
    end H = Ok claim ↔
    ∃ gen, r = Ok gen ∧ content claim = claim_fields (content seal) gen) as Hgen;
    [|apply Hgen].
  intros [g|e] H; [|naive_solver]. split.
  - intros [= <-]. eauto.
  - intros (g' & [= <-] & Hc). f_equal. by apply refined_eq.
Qed.

Lemma claim_successor_total seal :
  coord_get (seal_generation seal) < u64_max → ∃ claim, claim_successor seal = Ok claim.
Proof.
  intros (gen & Hgen & _)%successor_total.
  exists (mk_refined (claim_fields (content seal) gen) (claim_fields_ok _ _ Hgen)).
  apply claim_successor_Ok. eauto.
Qed.

(** * Properties *)

(** C34: [Seal::new] succeeds exactly on well-formed manifests: generation one is
    the empty genesis, the replay owner predates the Seal, every table belongs to
    its tree and is not from a future generation, and no table object is selected
    twice. *)
Theorem seal_new_iff p g r d l :
  (∃ seal, Seal_new p g r d l = Ok seal ∧ content seal = mk_seal p g r d l) ↔
  seal_wf (mk_seal p g r d l).
Proof.
  split; [|apply Seal_new_wf]. intros (seal & _ & <-). apply seal_ok.
Qed.

(** A claim successor is a Seal that [Seal::new] accepts: it has the next
    generation, the same partition, replay point and trees, and it fails only when
    the generation is [u64::MAX]. *)
Theorem claim_successor_is_seal (seal : Seal) :
  match claim_successor seal with
  | Ok claim =>
      Seal_new (seal_partition seal) (seal_generation claim) (seal_replay seal)
        (seal_directory seal) (seal_ledger seal) = Ok claim ∧
      coord_get (seal_generation claim) = coord_get (seal_generation seal) + 1
  | Err e => e = GenerationExhausted ∧ coord_get (seal_generation seal) = u64_max
  end.
Proof.
  destruct (claim_successor seal) as [claim|e] eqn:E.
  - apply claim_successor_Ok in E as (gen & Hg%successor_Ok & Hc).
    unfold seal_generation at 1 2. rewrite Hc. simpl. split; [|done].
    by apply Seal_new_Ok.
  - pose proof (coord_bounds (seal_generation seal)).
    destruct (decide (coord_get (seal_generation seal) = u64_max)) as [Hm|].
    + split; [|done]. unfold claim_successor in E. revert E.
      generalize (eq_refl (successor (seal_generation seal))).
      destruct (successor (seal_generation seal)) at 2 3; simpl; intros; simplify_eq; done.
    + destruct (claim_successor_total seal) as [c Hc]; [lia|congruence].
Qed.
