(* ===== verification/Wal.v ===== *)
(** The write-ahead log vocabulary (crate [strom-storage-domain], files [wal.rs]
    and [wal/fact.rs]) and the coordinate arithmetic of the WAL suffix (crate
    [strom-storage-protocol], file [suffix.rs]). *)

From S2P Require Import Prelude Text Domain Coordinates Partition.

(** * Facts and runs *)

(** strom-storage-domain/src/wal/fact.rs:11-38, [OperationFact]. *)
Inductive OperationFact : Type :=
| StreamCreated (path : StreamPath) (uid : StreamUid) (content_type : StreamContentType)
    (expiry : ExpiryPolicy) (lifecycle : StreamLifecycle)
| StreamClosed (path : StreamPath) (uid : StreamUid)
| StreamDeleted (path : StreamPath) (uid : StreamUid).

#[export] Instance OperationFact_eq_dec : EqDecision OperationFact.
Proof. solve_decision. Defined.

(** strom-storage-domain/src/wal/fact.rs:40-60, [OperationFact::estimated_encoded_bytes]. *)
Definition estimated_encoded_bytes (fact : OperationFact) : Z :=
  let variable_bytes :=
    match fact with
    | StreamCreated path _ content_type _ _ =>
        u64_saturating_add (str_len (StreamPath_as_str path))
          (str_len (StreamContentType_as_str content_type))
    | StreamClosed path _ | StreamDeleted path _ => str_len (StreamPath_as_str path)
    end in
  u64_saturating_add WAL_FACT_ENCODED_FIXED_BYTES_MAX variable_bytes.

(** strom-storage-domain/src/wal.rs:96-102, [WalFactsError]. *)
Inductive WalFactsError : Type :=
| WalFactsEmpty
| WalFactsOverMax (facts_actual : Z).

(** strom-storage-domain/src/wal.rs:80-94, [WalFacts::try_from]. *)
Definition facts_check (facts : list OperationFact) : Result WalFactsError (list OperationFact) :=
  if bool_decide (facts = []) then Err WalFactsEmpty
  else if WAL_RUN_FACTS_MAX <? zlen facts then Err (WalFactsOverMax (zlen facts))
  else Ok facts.

(** strom-storage-domain/src/wal.rs:63-78, [WalFacts]. *)
Definition WalFacts : Type := Refined (accepts facts_check).

#[export] Instance WalFacts_eq_dec : EqDecision WalFacts := _.

(** strom-storage-domain/src/wal.rs:80-95, [WalFacts::try_from]. *)
Definition WalFacts_try_from (facts : list OperationFact) : Result WalFactsError WalFacts :=
  checked facts_check facts.

(** strom-storage-domain/src/wal.rs:68-72, [WalFacts::as_slice]. *)
Definition facts_slice (facts : WalFacts) : list OperationFact := content facts.

(** strom-storage-domain/src/wal.rs:57-61, [WalBody]. *)
Inductive WalBody : Type :=
| Run (facts : WalFacts)
| Fence.

#[export] Instance WalBody_eq_dec : EqDecision WalBody.
Proof. solve_decision. Defined.

(** strom-storage-domain/src/wal.rs:12-55, [WalObject]. *)
Record WalObject : Type := mk_wal_object {
  wal_partition : PartitionId;
  wal_batch : BatchId;
  wal_owner : OwnerToken;
  wal_body : WalBody
}.

#[export] Instance WalObject_eq_dec : EqDecision WalObject.
Proof. solve_decision. Defined.

Lemma accepts_facts_check l :
  accepts facts_check l = true ↔ l ≠ [] ∧ zlen l ≤ WAL_RUN_FACTS_MAX.
Proof.
  unfold accepts, facts_check. case_bool_decide; simpl; [naive_solver|].
  destruct (Z.ltb_spec WAL_RUN_FACTS_MAX (zlen l)); simpl; split; try done; lia.
Qed.

Lemma WalFacts_bounds (facts : WalFacts) :
  facts_slice facts ≠ [] ∧ zlen (facts_slice facts) ≤ WAL_RUN_FACTS_MAX.
Proof. apply accepts_facts_check, content_true. Qed.

Lemma WalFacts_try_from_Ok l facts :
  WalFacts_try_from l = Ok facts ↔ facts_slice facts = l.
Proof. apply checked_Ok. Qed.

Lemma WalFacts_try_from_total l :
  l ≠ [] → zlen l ≤ WAL_RUN_FACTS_MAX →
  ∃ facts, WalFacts_try_from l = Ok facts ∧ facts_slice facts = l.
Proof. intros. by apply checked_total, accepts_facts_check. Qed.

Lemma estimate_bounds fact :
  WAL_FACT_ENCODED_FIXED_BYTES_MAX ≤ estimated_encoded_bytes fact
  ≤ WAL_FACT_ENCODED_BYTES_ESTIMATE_MAX.
Proof.
  unfold estimated_encoded_bytes, u64_saturating_add, StreamPath_as_str.
  destruct fact as [p u ct e l|p u|p u]; pose proof (StreamPath_len p);
    [pose proof (StreamContentType_len ct)|..]; unfold_bounds; lia.
Qed.

(** * The WAL suffix *)

(** strom-storage-protocol/src/suffix.rs:5-11, [TakeoverFenceError]. *)
Inductive TakeoverFenceError : Type :=
| NoRunCoordinate
| NotAfterCut
| SpanExceeded (span : Z).

#[export] Instance TakeoverFenceError_eq_dec : EqDecision TakeoverFenceError.
Proof. solve_decision. Defined.

(** strom-storage-protocol/src/suffix.rs:13-24, [TakeoverFence]. *)
Record TakeoverFence : Type := { fence_batch : BatchId }.

Definition cut_value (cut : option BatchId) : Z :=
  match cut with None => 0 | Some batch => coord_get batch end.

(** strom-storage-protocol/src/suffix.rs:52-60, [span_through]. *)
Definition span_through (cut : option BatchId) (head : BatchId) : option Z :=
  u64_checked_sub (coord_get head) (cut_value cut).

(** strom-storage-protocol/src/suffix.rs:26-33, [run_leaves_takeover_room]. *)
Definition run_leaves_takeover_room (cut : option BatchId) (run : BatchId) : bool :=
  match successor run with
  | Ok fence =>
      match span_through cut fence with
      | Some span => (1 <? span) && (span <=? WAL_SUFFIX_COORDINATES_MAX_V2)
      | None => false
      end
  | Err _ => false
  end.

(** strom-storage-protocol/src/suffix.rs:35-50, [bound_takeover_fence]. *)
Definition bound_takeover_fence (cut : option BatchId) (fence : BatchId) :
    Result TakeoverFenceError TakeoverFence :=
  let? _ := map_err (λ _, NoRunCoordinate) (successor fence) in
  let? span :=
    ok_or NotAfterCut
      (match span_through cut fence with
       | Some span => if 0 <? span then Some span else None
       | None => None
       end) in
  if WAL_SUFFIX_COORDINATES_MAX_V2 <? span then Err (SpanExceeded span)
  else Ok {| fence_batch := fence |}.

Lemma span_through_Some cut head span :
  span_through cut head = Some span ↔
  span = coord_get head - cut_value cut ∧ cut_value cut ≤ coord_get head.
Proof. unfold span_through, u64_checked_sub. case_decide; naive_solver. Qed.

Lemma run_room_spec cut run :
  run_leaves_takeover_room cut run = true ↔
  coord_get run < u64_max ∧ cut_value cut < coord_get run
  ∧ coord_get run + 1 - cut_value cut ≤ WAL_SUFFIX_COORDINATES_MAX_V2.
Proof.
  unfold run_leaves_takeover_room. destruct (successor run) as [fence|e] eqn:E.
  - apply successor_Ok in E. unfold span_through, u64_checked_sub.
    pose proof (coord_bounds fence). case_decide; [|split; [done|lia]].
    rewrite andb_true_iff, Z.ltb_lt, Z.leb_le. lia.
  - apply successor_Err in E. split; [done|lia].
Qed.

Lemma bound_takeover_fence_Ok cut fence t :
  bound_takeover_fence cut fence = Ok t ↔
  t = {| fence_batch := fence |} ∧ coord_get fence < u64_max ∧
  cut_value cut < coord_get fence ∧
  coord_get fence - cut_value cut ≤ WAL_SUFFIX_COORDINATES_MAX_V2.
Proof.
  unfold bound_takeover_fence. destruct (successor fence) as [s|e] eqn:E; simpl.
  - apply successor_Ok in E. pose proof (coord_bounds s).
    unfold span_through, u64_checked_sub. case_decide; simpl; [|split; [done|lia]].
    destruct (Z.ltb_spec 0 (coord_get fence - cut_value cut)); simpl; [|split; [done|lia]].
    destruct (Z.ltb_spec WAL_SUFFIX_COORDINATES_MAX_V2 (coord_get fence - cut_value cut));
      split; try done; try lia.
    + intros [= <-]. split_and!; [done|lia..].
    + by intros (-> & _).
  - apply successor_Err in E. split; [done|lia].
Qed.

(** * Properties *)

(** C35: a RUN admitted by [run_leaves_takeover_room] always leaves the next owner
    a usable takeover FENCE right after it: the successor coordinate exists and
    [bound_takeover_fence] accepts it, unless that successor is the last coordinate
    of all, in which case no later RUN could follow it. *)
Theorem run_room_admits_takeover (cut : option BatchId) (run : BatchId) :
  run_leaves_takeover_room cut run = true →
  ∃ fence, successor run = Ok fence ∧
    bound_takeover_fence cut fence =
      (if decide (coord_get fence = u64_max) then Err NoRunCoordinate
       else Ok {| fence_batch := fence |}).
Proof.
  intros (Hm & Hc & Hs)%run_room_spec.
  destruct (successor_total run Hm) as (fence & Hf & Hfe). exists fence. split; [done|].
  case_decide as Hmax.
  - unfold bound_takeover_fence.
    by rewrite (proj2 (successor_Err fence CoordinateExhausted)).
  - apply bound_takeover_fence_Ok. pose proof (coord_bounds fence).
    split_and!; [done|lia..].
Qed.

(** The room check at a concrete suffix: after a cut at batch 5, RUN 900. *)
Lemma run_room_admits_takeover_witness :
  ∃ run fence : BatchId, coord_get run = 900 ∧ successor run = Ok fence ∧
    coord_get fence ≠ u64_max.
Proof.
  destruct (run_room_admits_takeover
    (Some (mk_coord (mk_refined (P := nonzero_u64) 5 I)))
    (mk_coord (mk_refined (P := nonzero_u64) 900 I)) eq_refl) as (f & Hf & _).
  exists (mk_coord (mk_refined (P := nonzero_u64) 900 I)), f.
  split; [reflexivity|]. split; [exact Hf|].
  apply successor_Ok in Hf. rewrite Hf. discriminate.
Defined.
