(* ===== verification/Forest.v ===== *)
(** The forest: the resident Directory and Ledger under strict fold (crate
    [strom-storage-protocol], file [forest.rs]).

    The Directory maps every path that was ever created to its stream identity,
    live or tombstoned; the Ledger maps every live identity to its record.  The
    strict fold applies one WAL fact or rejects it.  The file defines the operations,
    the cross-store invariant [forest_wf] and the relational reading [fold_spec] of one
    fold, and shows that every fold keeps the invariant; the rest of the theory is in
    ForestTheory.v. *)

From S2P Require Import Prelude OrdMap Text Domain Coordinates Partition Wal.

(** strom-storage-protocol/src/forest.rs:13-18, [Forest]. *)
Record Forest : Type := mk_forest {
  directory : gmap StreamPath DirectoryEntry;
  ledger : gmap StreamUid StreamRecord
}.

#[export] Instance Forest_eq_dec : EqDecision Forest.
Proof. solve_decision. Defined.

(** strom-storage-protocol/src/forest.rs:20-25, [ForestDelta]. *)
Record ForestDelta : Type := mk_delta {
  delta_directory : list (StreamPath * DirectoryEntry);
  delta_ledger : list (StreamUid * LedgerCell)
}.

(** strom-storage-protocol/src/forest.rs:27-29, [Applied]. *)
Inductive AppliedWitness : Type := Applied.

(** strom-storage-protocol/src/forest.rs:31-52, [FoldContradiction]. *)
Inductive FoldContradiction : Type :=
| PathOccupied
| PathCapacityExhausted
| UidNotDenseSuccessor
| PathNotLive
| PathUidMismatch
| StreamAlreadyClosed.

#[export] Instance FoldContradiction_eq_dec : EqDecision FoldContradiction.
Proof. solve_decision. Defined.

(** strom-storage-protocol/src/forest.rs:54-67, [ForestContradiction]. *)
Inductive ForestContradiction : Type :=
| UidGap
| CountMismatch
| LiveWithoutRecord
| RecordWithoutLive
| TombstoneWithRecord.

(** strom-storage-protocol/src/forest.rs:69-74, [UidState]. *)
Inductive UidState : Type := LiveMissingRecord | LiveWithRecord | TombstoneState.

#[export] Instance UidState_eq_dec : EqDecision UidState.
Proof. solve_decision. Defined.

(** strom-storage-protocol/src/forest.rs:77-83, [Forest::empty]. *)
Definition forest_empty : Forest := mk_forest ∅ ∅.

(** A directory length is a [usize], which fits in [u64].
    strom-storage-protocol/src/forest.rs:247-253, [Forest::path_count]. *)
Definition path_count (forest : Forest) : Z := Z.of_nat (size (directory forest)).

(** strom-storage-protocol/src/forest.rs:264-273, [Forest::successor_uid_after]. *)
Definition successor_uid_after (path_count : Z) :
    Exec (Result FoldContradiction StreamUid) :=
  if PARTITION_PATH_OCCUPANCIES_MAX_V2 <=? path_count
  then Ret (Err PathCapacityExhausted)
  else
    let! successor := expect (u64_checked_add path_count 1 ≫= NonZeroU64_new) in
    Ret (Ok (mk_coord successor)).

(** strom-storage-protocol/src/forest.rs:255-262, [Forest::successor_uid]. *)
Definition successor_uid (forest : Forest) : Exec (Result FoldContradiction StreamUid) :=
  successor_uid_after (path_count forest).

(** strom-storage-protocol/src/forest.rs:348-362, [require_live_uid]. *)
Definition require_live_uid (entry : option DirectoryEntry) (uid : StreamUid) :
    Result FoldContradiction StreamUid :=
  match entry with
  | Some (Live live_uid) =>
      if bool_decide (live_uid = uid) then Ok live_uid else Err PathUidMismatch
  | Some (Tombstone _) | None => Err PathNotLive
  end.

(** The mutated forest is returned with the fold's result, so that what a
    rejected fold leaves behind is part of the model.
    strom-storage-protocol/src/forest.rs:85-173, [Forest::strict_fold]. *)
Definition strict_fold (self : Forest) (batch : BatchId) (fact : OperationFact) :
    Exec (Forest * Result FoldContradiction AppliedWitness) :=
  match fact with
  | StreamCreated path uid content_type expiry lifecycle =>
      match directory self !! path with
      | Some _ => Ret (self, Err PathOccupied)
      | None =>
          let! expected := successor_uid self in
          match expected with
          | Err contradiction => Ret (self, Err contradiction)
          | Ok expected_uid =>
              if bool_decide (uid = expected_uid) then
                let previous := directory self !! path in
                let directory' := <[path := Live uid]> (directory self) in
                assert! bool_decide (previous = None) in
                let previous := ledger self !! uid in
                let ledger' :=
                  <[uid := mk_record content_type expiry lifecycle batch]> (ledger self) in
                assert! bool_decide (previous = None) in
                Ret (mk_forest directory' ledger', Ok Applied)
              else Ret (self, Err UidNotDenseSuccessor)
          end
      end
  | StreamClosed path uid =>
      match require_live_uid (directory self !! path) uid with
      | Err contradiction => Ret (self, Err contradiction)
      | Ok live_uid =>
          let! record := expect (ledger self !! live_uid) in
          if is_closed (lifecycle record) then Ret (self, Err StreamAlreadyClosed)
          else
            let closed :=
              mk_record (content_type record) (expiry record) Closed (created_at record) in
            let previous := ledger self !! live_uid in
            assert! bool_decide (is_Some previous) in
            Ret (mk_forest (directory self) (<[live_uid := closed]> (ledger self)), Ok Applied)
      end
  | StreamDeleted path uid =>
      match require_live_uid (directory self !! path) uid with
      | Err contradiction => Ret (self, Err contradiction)
      | Ok live_uid =>
          assert! bool_decide (is_Some (ledger self !! live_uid)) in
          let! entry := expect (directory self !! path) in
          assert! (match entry with
                   | Live present => bool_decide (present = live_uid)
                   | Tombstone _ => false
                   end) in
          let directory' := <[path := Tombstone live_uid]> (directory self) in
          let previous := ledger self !! live_uid in
          let ledger' := delete live_uid (ledger self) in
          assert! bool_decide (is_Some previous) in
          Ret (mk_forest directory' ledger', Ok Applied)
      end
  end.

(** strom-storage-protocol/src/forest.rs:237-240, [Forest::resolve]. *)
Definition resolve (forest : Forest) (path : StreamPath) : option DirectoryEntry :=
  directory forest !! path.

(** strom-storage-protocol/src/forest.rs:242-245, [Forest::record]. *)
Definition record (forest : Forest) (uid : StreamUid) : option StreamRecord :=
  ledger forest !! uid.

(** strom-storage-protocol/src/forest.rs:364-368, [directory_entry_uid]. *)
Definition directory_entry_uid (entry : DirectoryEntry) : StreamUid :=
  match entry with Live uid | Tombstone uid => uid end.

(** ** Deltas *)

Section delta.
  Context {DD : MapDiff StreamPath DirectoryEntry} {DL : MapDiff StreamUid StreamRecord}.

(** strom-storage-protocol/src/forest.rs:188-202, [Forest::delta_since (directory rows)]. *)
Fixpoint directory_rows (self : Forest) (differences : list (DiffItem StreamPath DirectoryEntry)) :
    Exec (list (StreamPath * DirectoryEntry)) :=
  match differences with
  | [] => Ret []
  | (Add key entry | Update key _ entry) :: differences =>
      let! rows := directory_rows self differences in
      Ret ((key, entry) :: rows)
  | Remove key _ :: differences =>
      assert! bool_decide (is_Some (directory self !! key)) in
      directory_rows self differences
  end.

(** strom-storage-protocol/src/forest.rs:206-213, [Forest::delta_since (ledger cells)]. *)
Definition ledger_cell (difference : DiffItem StreamUid StreamRecord) : StreamUid * LedgerCell :=
  match difference with
  | Add uid record | Update uid _ record => (uid, Value record)
  | Remove uid _ => (uid, Delete)
  end.

(** strom-storage-protocol/src/forest.rs:184-216, [Forest::delta_since]. *)
Definition delta_since (self base : Forest) : Exec ForestDelta :=
  let! rows := directory_rows self (map_diff (directory base) (directory self)) in
  Ret (mk_delta rows (ledger_cell <$> map_diff (ledger base) (ledger self))).

End delta.

(** strom-storage-protocol/src/forest.rs:218-235, [Forest::checkpoint_cells]. *)
Definition checkpoint_cells (forest : Forest) : ForestDelta :=
  mk_delta (om_iter (directory forest))
    ((λ '(uid, record), (uid, Value record)) <$> om_iter (ledger forest)).

(** ** Validation of merged rows *)

(** strom-storage-protocol/src/forest.rs:304-319, [Forest::try_from (directory loop)]. *)
Fixpoint scan_directory (entries : list DirectoryEntry) (uid_states : list (option UidState)) :
    Result ForestContradiction (list (option UidState)) :=
  match entries with
  | [] => Ok uid_states
  | entry :: entries =>
      let? index :=
        ok_or UidGap (u64_checked_sub (coord_get (directory_entry_uid entry)) 1) in
      match uid_states !! Z.to_nat index with
      | None => Err CountMismatch
      | Some (Some _) => Err UidGap
      | Some None =>
          let state := match entry with
                       | Live _ => LiveMissingRecord
                       | Tombstone _ => TombstoneState
                       end in
          scan_directory entries (<[Z.to_nat index := Some state]> uid_states)
      end
  end.

(** strom-storage-protocol/src/forest.rs:324-339, [Forest::try_from (ledger loop)]. *)
Fixpoint scan_ledger (uids : list StreamUid) (uid_states : list (option UidState)) :
    Result ForestContradiction (list (option UidState)) :=
  match uids with
  | [] => Ok uid_states
  | uid :: uids =>
      let? index := ok_or RecordWithoutLive (u64_checked_sub (coord_get uid) 1) in
      match mjoin (uid_states !! Z.to_nat index) with
      | None => Err RecordWithoutLive
      | Some LiveMissingRecord =>
          scan_ledger uids (<[Z.to_nat index := Some LiveWithRecord]> uid_states)
      | Some TombstoneState => Err TombstoneWithRecord
      | Some LiveWithRecord => Err RecordWithoutLive
      end
  end.

(** strom-storage-protocol/src/forest.rs:281-346, [Forest::try_from]. *)
Definition forest_try_from (directory : gmap StreamPath DirectoryEntry)
    (ledger : gmap StreamUid StreamRecord) : Result ForestContradiction Forest :=
  let path_count := Z.of_nat (size directory) in
  if PARTITION_PATH_OCCUPANCIES_MAX_V2 <? path_count then Err CountMismatch
  else
    let? uid_states :=
      scan_directory (om_iter directory).*2 (replicate (Z.to_nat path_count) None) in
    if existsb (λ state, bool_decide (state = None)) uid_states then Err UidGap
    else
      let? uid_states := scan_ledger (om_iter ledger).*1 uid_states in
      if bool_decide (Some LiveMissingRecord ∈ uid_states) then Err LiveWithoutRecord
      else Ok (mk_forest directory ledger).

(** * The cross-store invariant *)

(** Identities are the dense range [1 .. path_count], one per path ever created,
    and the Ledger holds exactly the live ones. *)
Record forest_wf (f : Forest) : Prop := {
  wf_capacity : path_count f ≤ PARTITION_PATH_OCCUPANCIES_MAX_V2;
  wf_range : ∀ path entry, directory f !! path = Some entry →
    coord_get (directory_entry_uid entry) ≤ path_count f;
  wf_unique : ∀ p q e e', directory f !! p = Some e → directory f !! q = Some e' →
    directory_entry_uid e = directory_entry_uid e' → p = q;
  wf_ledger : ∀ uid, is_Some (ledger f !! uid) ↔
    ∃ path, directory f !! path = Some (Live uid)
}.

Lemma forest_empty_wf : forest_wf forest_empty.
Proof.
  split; unfold path_count; simpl.
  - rewrite map_size_empty. by unfold_bounds.
  - intros path entry H. by rewrite lookup_empty in H.
  - intros p q e e' H. by rewrite lookup_empty in H.
  - intros uid. rewrite lookup_empty. split; [by intros [? ?]|].
    intros [p H]. by rewrite lookup_empty in H.
Qed.

Lemma live_record f path uid :
  forest_wf f → directory f !! path = Some (Live uid) →
  ∃ rec, ledger f !! uid = Some rec.
Proof. intros Hwf Hp. apply (wf_ledger f Hwf). eauto. Qed.

Lemma successor_uid_cases f :
  forest_wf f →
  (successor_uid f = Ret (Err PathCapacityExhausted) ∧
   path_count f = PARTITION_PATH_OCCUPANCIES_MAX_V2) ∨
  (∃ uid, successor_uid f = Ret (Ok uid) ∧ coord_get uid = path_count f + 1 ∧
   path_count f < PARTITION_PATH_OCCUPANCIES_MAX_V2).
Proof.
  intros Hwf. pose proof (wf_capacity f Hwf) as Hc.
  unfold successor_uid, successor_uid_after, u64_checked_add.
  destruct (Z.leb_spec PARTITION_PATH_OCCUPANCIES_MAX_V2 (path_count f)); [left; split; [done|lia]|].
  right. assert (0 ≤ path_count f) by (unfold path_count; lia).
  rewrite decide_True by (unfold_bounds; lia). simpl.
  destruct (NonZeroU64_new_in (path_count f + 1)) as (x & -> & Hx); [unfold_bounds; lia|].
  simpl. eexists. split; [reflexivity|]. done.
Qed.

Lemma successor_uid_fresh f uid :
  forest_wf f → coord_get uid = path_count f + 1 → ledger f !! uid = None.
Proof.
  intros Hwf Hu. apply eq_None_not_Some. intros [p Hp]%(wf_ledger f Hwf).
  apply (wf_range f Hwf) in Hp. simpl in Hp. lia.
Qed.

Lemma require_live_uid_Ok entry uid u :
  require_live_uid entry uid = Ok u ↔ u = uid ∧ entry = Some (Live uid).
Proof.
  unfold require_live_uid. destruct entry as [[l|l]|]; [|naive_solver..].
  case_bool_decide; naive_solver.
Qed.

Lemma path_count_insert_new f path e :
  directory f !! path = None →
  Z.of_nat (size (<[path := e]> (directory f))) = path_count f + 1.
Proof. intros Hp. unfold path_count. rewrite map_size_insert_None by done. lia. Qed.

Lemma path_count_insert_old f path e e' :
  directory f !! path = Some e →
  Z.of_nat (size (<[path := e']> (directory f))) = path_count f.
Proof. intros Hp. unfold path_count. by rewrite map_size_insert_Some. Qed.

Lemma create_wf f path uid rec :
  forest_wf f → directory f !! path = None →
  coord_get uid = path_count f + 1 → path_count f < PARTITION_PATH_OCCUPANCIES_MAX_V2 →
  forest_wf (mk_forest (<[path := Live uid]> (directory f)) (<[uid := rec]> (ledger f))).
Proof.
  intros Hwf Hp Hu Hc.
  pose proof (λ q e H, wf_range f Hwf q e H) as Hr.
  split; unfold path_count; simpl; rewrite ?(path_count_insert_new f) by done.
  - lia.
  - intros q e [[<- <-]|[Hne Hq]]%lookup_insert_Some; simpl; [lia|].
    apply Hr in Hq. lia.
  - intros p q e e' [[<- <-]|[Hp1 Hp2]]%lookup_insert_Some
      [[<- <-]|[Hq1 Hq2]]%lookup_insert_Some Heq; simpl in *; [done| | |].
    + apply Hr in Hq2. rewrite <- Heq in Hq2. lia.
    + apply Hr in Hp2. rewrite Heq in Hp2. lia.
    + by eapply (wf_unique f Hwf).
  - intros u. destruct (decide (u = uid)) as [->|Hne].
    + rewrite lookup_insert_eq. split; [|eauto].
      intros _. exists path. by rewrite lookup_insert_eq.
    + rewrite lookup_insert_ne by done. rewrite (wf_ledger f Hwf). split.
      * intros [q Hq]. exists q. rewrite lookup_insert_ne; [done|]. by intros ->; congruence.
      * intros [q [[<- [= <-]]|[_ Hq]]%lookup_insert_Some]; [done|eauto].
Qed.

Lemma close_wf f uid rec rec' :
  forest_wf f → ledger f !! uid = Some rec →
  forest_wf (mk_forest (directory f) (<[uid := rec']> (ledger f))).
Proof.
  intros Hwf Hu. split; simpl; try apply Hwf.
  intros u. rewrite <- (wf_ledger f Hwf). destruct (decide (u = uid)) as [->|].
  - rewrite lookup_insert_eq, Hu. naive_solver.
  - by rewrite lookup_insert_ne by done.
Qed.

Lemma delete_wf f path uid :
  forest_wf f → directory f !! path = Some (Live uid) →
  forest_wf (mk_forest (<[path := Tombstone uid]> (directory f)) (delete uid (ledger f))).
Proof.
  intros Hwf Hp.
  assert (Hold : ∀ q e, <[path := Tombstone uid]> (directory f) !! q = Some e →
    ∃ e', directory f !! q = Some e' ∧ directory_entry_uid e' = directory_entry_uid e).
  { intros q e [[<- <-]|[_ Hq]]%lookup_insert_Some; eauto. }
  split; unfold path_count; simpl; rewrite ?(path_count_insert_old f _ _ _ Hp).
  - apply Hwf.
  - intros q e (e' & Hq & <-)%Hold. by eapply (wf_range f Hwf).
  - intros p q e e' (e1 & Hp' & <-)%Hold (e2 & Hq' & <-)%Hold. by eapply (wf_unique f Hwf).
  - intros u. destruct (decide (u = uid)) as [->|Hne].
    + rewrite lookup_delete_eq. split; [by intros [??]|].
      intros [q [[_ ?]|[Hne Hq]]%lookup_insert_Some]; [done|].
      destruct Hne. by eapply (wf_unique f Hwf).
    + rewrite lookup_delete_ne by done. rewrite (wf_ledger f Hwf). split.
      * intros [q Hq]. exists q. rewrite lookup_insert_ne; [done|]. intros ->. congruence.
      * intros [q [[_ ?]|[_ Hq]]%lookup_insert_Some]; [done|eauto].
Qed.

(** On a well-formed forest the fold never panics; it keeps the invariant when it
    applies and the forest itself when it rejects. *)
Inductive fold_spec (f : Forest) (batch : BatchId) : OperationFact → Forest → Prop :=
| fold_created path uid ct ex lc :
    directory f !! path = None → coord_get uid = path_count f + 1 →
    path_count f < PARTITION_PATH_OCCUPANCIES_MAX_V2 → ledger f !! uid = None →
    fold_spec f batch (StreamCreated path uid ct ex lc)
      (mk_forest (<[path := Live uid]> (directory f))
        (<[uid := mk_record ct ex lc batch]> (ledger f)))
| fold_closed path uid rec :
    directory f !! path = Some (Live uid) → ledger f !! uid = Some rec →
    lifecycle rec = Open →
    fold_spec f batch (StreamClosed path uid)
      (mk_forest (directory f)
        (<[uid := mk_record (content_type rec) (expiry rec) Closed (created_at rec)]> (ledger f)))
| fold_deleted path uid rec :
    directory f !! path = Some (Live uid) → ledger f !! uid = Some rec →
    fold_spec f batch (StreamDeleted path uid)
      (mk_forest (<[path := Tombstone uid]> (directory f)) (delete uid (ledger f))).

Lemma strict_fold_cases f batch fact :
  forest_wf f →
  (∃ e, strict_fold f batch fact = Ret (f, Err e)) ∨
  (∃ f', strict_fold f batch fact = Ret (f', Ok Applied) ∧ fold_spec f batch fact f').
Proof.
  intros Hwf. destruct fact as [path uid ct ex lc|path uid|path uid]; simpl.
  - destruct (directory f !! path) eqn:Hp; [eauto|].
    destruct (successor_uid_cases f Hwf) as [[-> _]|(u & -> & Hu & Hc)]; simpl; [eauto|].
    case_bool_decide as Heq; [|eauto]. subst u. right.
    pose proof (successor_uid_fresh f uid Hwf Hu) as Hfresh. rewrite Hfresh. simpl.
    eexists. split; [reflexivity|]. by constructor.
  - destruct (require_live_uid (directory f !! path) uid) as [u|e] eqn:Hr; [|eauto].
    apply require_live_uid_Ok in Hr as [-> Hp].
    destruct (live_record f path uid Hwf Hp) as [rec Hrec]. rewrite Hrec. simpl.
    destruct (lifecycle rec) eqn:Hl; simpl; [|eauto]. right.
    rewrite ?bool_decide_eq_true_2 by done.
    eexists. split; [reflexivity|]. by econstructor.
  - destruct (require_live_uid (directory f !! path) uid) as [u|e] eqn:Hr; [|eauto].
    apply require_live_uid_Ok in Hr as [-> Hp].
    destruct (live_record f path uid Hwf Hp) as [rec Hrec]. rewrite Hrec, Hp. simpl.
    rewrite ?bool_decide_eq_true_2 by done. right.
    eexists. split; [reflexivity|]. by econstructor.
Qed.

Lemma fold_spec_wf f batch fact f' : forest_wf f → fold_spec f batch fact f' → forest_wf f'.
Proof.
  intros Hwf []; [by apply create_wf|by eapply close_wf|by eapply delete_wf].
Qed.

(** An applied fact determines its result, and a fact that could apply does. *)
Lemma fold_spec_complete f batch fact f' :
  forest_wf f → fold_spec f batch fact f' → strict_fold f batch fact = Ret (f', Ok Applied).
Proof.
  intros Hwf [path uid ct ex lc Hp Hu Hc Hl|path uid rec Hp Hrec Hl|path uid rec Hp Hrec]; simpl.
  - rewrite Hp. destruct (successor_uid_cases f Hwf) as [[_ ?]|(u & -> & Hu' & _)]; [lia|].
    simpl. rewrite (bool_decide_eq_true_2 (uid = u)) by (apply coord_get_inj; lia).
    by rewrite Hl.
  - rewrite Hp. simpl. rewrite (bool_decide_eq_true_2 (uid = uid)) by done. simpl. rewrite Hrec. simpl.
    rewrite Hl. simpl. by rewrite ?bool_decide_eq_true_2 by done.
  - rewrite Hp. simpl. rewrite (bool_decide_eq_true_2 (uid = uid)) by done. simpl. rewrite Hrec.
    by rewrite ?bool_decide_eq_true_2 by done.
Qed.
