(* ===== verification/ForestTheory.v ===== *)
(** The forest's theory: validation of merged rows is the cross-store invariant,
    deltas are exact, the strict fold refines a one-map catalog, and occupancy is
    permanent. *)

From S2P Require Import Prelude OrdMap Text Domain Coordinates Partition Wal Forest.

(** * Validation of merged rows *)

Definition uid_index (uid : StreamUid) : nat := Z.to_nat (coord_get uid - 1).
Definition entry_index (entry : DirectoryEntry) : nat := uid_index (directory_entry_uid entry).
Definition entry_state (entry : DirectoryEntry) : UidState :=
  match entry with Live _ => LiveMissingRecord | Tombstone _ => TombstoneState end.

Lemma uid_index_inj u v : uid_index u = uid_index v → u = v.
Proof. unfold uid_index. intros H. apply coord_get_inj. coord_lia. Qed.

Lemma uid_index_sub (uid : StreamUid) : u64_checked_sub (coord_get uid) 1 = Some (coord_get uid - 1).
Proof. unfold u64_checked_sub. rewrite decide_True; [done|]. coord_lia. Qed.

Definition fill_directory (entries : list DirectoryEntry) (st : list (option UidState)) :
    list (option UidState) :=
  foldl (λ st e, <[entry_index e := Some (entry_state e)]> st) st entries.

Definition fill_ledger (uids : list StreamUid) (st : list (option UidState)) :
    list (option UidState) :=
  foldl (λ st u, <[uid_index u := Some LiveWithRecord]> st) st uids.

Lemma scan_directory_Ok entries st st' :
  scan_directory entries st = Ok st' ↔
  st' = fill_directory entries st ∧
  (∀ e, e ∈ entries → st !! entry_index e = Some None) ∧
  NoDup (entry_index <$> entries).
Proof.
  revert st. induction entries as [|e l IH]; intros st; cbn [scan_directory].
  - split; [intros [= <-]|by intros [-> _]]. split_and!; [done| |constructor].
    intros e He. by apply not_elem_of_nil in He.
  - rewrite uid_index_sub. cbn [ok_or result_bind]. csimpl. rewrite NoDup_cons.
    change (Z.to_nat (coord_get (directory_entry_uid e) - 1)) with (entry_index e).
    destruct (st !! entry_index e) as [[s|]|] eqn:Hst.
    + split; [done|]. intros (_ & H & _). rewrite H in Hst by left. done.
    + change (match e with Live _ => LiveMissingRecord | Tombstone _ => TombstoneState end)
        with (entry_state e).
      rewrite IH. unfold fill_directory at 2; cbn [foldl].
      fold (fill_directory l (<[entry_index e:=Some (entry_state e)]> st)).
      split; intros (Heq & Hs & Hn); (split; [done|]).
      * assert (entry_index e ∉ entry_index <$> l) as Hni.
        { intros (e' & He' & Hin)%list_elem_of_fmap. apply Hs in Hin.
          rewrite <- He', list_lookup_insert_eq in Hin; [done|].
          by apply lookup_lt_Some in Hst. }
        split; [|done]. intros e' [->|Hin]%elem_of_cons; [done|].
        rewrite <- (Hs e' Hin). symmetry. apply list_lookup_insert_ne.
        intros Heq'. apply Hni. rewrite Heq'. by apply list_elem_of_fmap_2.
      * destruct Hn as [Hni Hn]. split; [|done]. intros e' Hin.
        rewrite list_lookup_insert_ne; [apply Hs; by right|].
        intros Heq'. apply Hni. rewrite Heq'. by apply list_elem_of_fmap_2.
    + split; [done|]. intros (_ & H & _). rewrite H in Hst by left. done.
Qed.

Lemma scan_ledger_Ok uids st st' :
  NoDup uids →
  scan_ledger uids st = Ok st' ↔
  st' = fill_ledger uids st ∧
  (∀ u, u ∈ uids → st !! uid_index u = Some (Some LiveMissingRecord)).
Proof.
  intros Hnd. revert st. induction Hnd as [|u l Hni Hnd IH]; intros st; cbn [scan_ledger].
  - split; [intros [= <-]|by intros [-> _]]. split; [done|].
    intros e He. by apply not_elem_of_nil in He.
  - rewrite uid_index_sub. cbn [ok_or result_bind].
    change (Z.to_nat (coord_get u - 1)) with (uid_index u).
    destruct (st !! uid_index u) as [[[]|]|] eqn:Hst; simpl;
      try (split; [done|]; intros (_ & H); rewrite H in Hst by left; done).
    rewrite IH. split; intros (Heq & Hs); (split; [done|]).
    + intros u' [->|Hin]%elem_of_cons; [done|]. rewrite <- (Hs u' Hin).
      symmetry. apply list_lookup_insert_ne. intros ->%uid_index_inj. done.
    + intros u' Hin. rewrite list_lookup_insert_ne; [apply Hs; by right|].
      intros ->%uid_index_inj. done.
Qed.

Lemma fill_directory_lookup entries st i :
  NoDup (entry_index <$> entries) →
  (∀ e, e ∈ entries → st !! entry_index e = Some None) →
  (∀ e, e ∈ entries → entry_index e = i →
     fill_directory entries st !! i = Some (Some (entry_state e))) ∧
  (i ∉ entry_index <$> entries → fill_directory entries st !! i = st !! i).
Proof.
  revert st. induction entries as [|e l IH]; intros st Hnd Hs.
  - split; [|done]. intros e He. by apply not_elem_of_nil in He.
  - csimpl in Hnd. apply NoDup_cons in Hnd as [Hni Hnd].
    unfold fill_directory; cbn [foldl].
    fold (fill_directory l (<[entry_index e:=Some (entry_state e)]> st)).
    assert (∀ e', e' ∈ l → <[entry_index e:=Some (entry_state e)]> st !! entry_index e' = Some None)
      as Hs'.
    { intros e' Hin. rewrite list_lookup_insert_ne; [apply Hs; by right|].
      intros Heq. apply Hni. rewrite Heq. by apply list_elem_of_fmap_2. }
    destruct (IH _ Hnd Hs') as [IH1 IH2]. split.
    + intros e' [->|Hin]%elem_of_cons Hi; [|by apply IH1].
      rewrite IH2 by (by rewrite <- Hi). rewrite <- Hi. apply list_lookup_insert_eq.
      eapply lookup_lt_Some, Hs. left.
    + csimpl. intros [Hne Hnin]%not_elem_of_cons. rewrite IH2 by done.
      by apply list_lookup_insert_ne.
Qed.

Lemma fill_ledger_lookup uids st i :
  (∀ u, u ∈ uids → uid_index u = i → (i < length st)%nat →
     fill_ledger uids st !! i = Some (Some LiveWithRecord)) ∧
  (i ∉ uid_index <$> uids → fill_ledger uids st !! i = st !! i).
Proof.
  revert st. induction uids as [|u l IH]; intros st.
  - split; [|done]. intros e He. by apply not_elem_of_nil in He.
  - unfold fill_ledger; cbn [foldl]. fold (fill_ledger l (<[uid_index u:=Some LiveWithRecord]> st)).
    destruct (IH (<[uid_index u:=Some LiveWithRecord]> st)) as [IH1 IH2].
    rewrite length_insert in IH1. split.
    + intros u' Hin Hi Hlt. destruct (decide (u' ∈ l)); [by eapply IH1|].
      apply elem_of_cons in Hin as [->|]; [|done].
      rewrite IH2.
      * rewrite <- Hi. apply list_lookup_insert_eq. by rewrite Hi.
      * intros (v & Hv & Hvin)%list_elem_of_fmap. rewrite <- Hi in Hv.
        apply uid_index_inj in Hv as ->. done.
    + csimpl. intros [Hne Hnin]%not_elem_of_cons. rewrite IH2 by done.
      by apply list_lookup_insert_ne.
Qed.

Lemma fill_directory_length entries st :
  length (fill_directory entries st) = length st.
Proof.
  revert st. induction entries as [|e l IH]; intros st; [done|].
  unfold fill_directory; cbn [foldl]. fold (fill_directory l (<[entry_index e:=Some (entry_state e)]> st)).
  by rewrite IH, length_insert.
Qed.

(** Pigeonhole: [n] distinct indices below [n] are all of them. *)
Lemma indices_cover (l : list nat) n :
  NoDup l → length l = n → (∀ i, i ∈ l → (i < n)%nat) → ∀ i, (i < n)%nat → i ∈ l.
Proof.
  intros Hnd Hlen Hb i Hi.
  assert (l ⊆+ seq 0 n) as Hsub.
  { apply NoDup_submseteq; [done|]. intros j Hj%Hb. apply elem_of_seq. lia. }
  apply submseteq_length_Permutation in Hsub; [|by rewrite length_seq, Hlen].
  rewrite Hsub. apply elem_of_seq. lia.
Qed.

Lemma om_values_elem (m : gmap StreamPath DirectoryEntry) e :
  e ∈ (om_iter m).*2 ↔ ∃ p, m !! p = Some e.
Proof.
  rewrite list_elem_of_fmap. split.
  - intros ([p e'] & -> & Hin). exists p. by apply elem_of_om_iter in Hin.
  - intros [p Hp]. exists (p, e). split; [done|]. by apply elem_of_om_iter.
Qed.

Lemma om_keys_elem (m : gmap StreamUid StreamRecord) u :
  u ∈ (om_iter m).*1 ↔ is_Some (m !! u).
Proof.
  rewrite list_elem_of_fmap. split.
  - intros ([p e'] & -> & Hin). exists e'. by apply elem_of_om_iter in Hin.
  - intros [r Hr]. exists (u, r). split; [done|]. by apply elem_of_om_iter.
Qed.

(** Distinct indices along the ordered rows are distinct identities per path. *)
Lemma om_indices_NoDup (m : gmap StreamPath DirectoryEntry) :
  NoDup (entry_index <$> (om_iter m).*2) ↔
  (∀ p q e e', m !! p = Some e → m !! q = Some e' →
     directory_entry_uid e = directory_entry_uid e' → p = q).
Proof.
  rewrite <- list_fmap_compose. split.
  - intros Hnd p q e e' Hp%elem_of_om_iter Hq%elem_of_om_iter Heq.
    apply list_elem_of_lookup in Hp as [i Hi], Hq as [j Hj].
    assert (i = j) as ->.
    { eapply (NoDup_lookup _ i j (entry_index e) Hnd); rewrite list_lookup_fmap.
      - by rewrite Hi.
      - rewrite Hj. simpl. unfold entry_index. by rewrite Heq. }
    congruence.
  - intros Hu. apply NoDup_alt. intros i j x Hi Hj.
    rewrite list_lookup_fmap in Hi, Hj.
    destruct (om_iter m !! i) as [[p e]|] eqn:Ei; [|done].
    destruct (om_iter m !! j) as [[q e']|] eqn:Ej; [|done].
    simpl in Hi, Hj. injection Hi as <-. injection Hj as Hij.
    unfold entry_index in Hij. apply uid_index_inj in Hij.
    assert (p = q) as ->.
    { apply (Hu p q e e'); [by apply elem_of_om_iter, list_elem_of_lookup; eauto..|done]. }
    eapply (NoDup_lookup _ i j q (om_iter_keys_NoDup m)); rewrite list_lookup_fmap.
    + by rewrite Ei.
    + by rewrite Ej.
Qed.

(** The directory scan fills every slot exactly when identities are unique and in
    range; the slots then record which identity is live. *)
Lemma scan_directory_wf (d : gmap StreamPath DirectoryEntry) st :
  scan_directory (om_iter d).*2 (replicate (size d) None) = Ok st ↔
  st = fill_directory (om_iter d).*2 (replicate (size d) None) ∧
  (∀ p e, d !! p = Some e → coord_get (directory_entry_uid e) ≤ Z.of_nat (size d)) ∧
  (∀ p q e e', d !! p = Some e → d !! q = Some e' →
     directory_entry_uid e = directory_entry_uid e' → p = q).
Proof.
  rewrite scan_directory_Ok, om_indices_NoDup.
  assert ((∀ e, e ∈ (om_iter d).*2 →
      replicate (size d) (@None UidState) !! entry_index e = Some None) ↔
    (∀ p e, d !! p = Some e → coord_get (directory_entry_uid e) ≤ Z.of_nat (size d))) as ->;
    [|done].
  setoid_rewrite om_values_elem. setoid_rewrite lookup_replicate.
  unfold entry_index, uid_index. split.
  - intros H p e Hp. destruct (H e) as [_ Hlt]; [eauto|]. coord_lia.
  - intros H e [p Hp]. split; [done|]. specialize (H p e Hp). coord_lia.
Qed.

Section filled.
  Context (d : gmap StreamPath DirectoryEntry).
  Context (Hrange : ∀ p e, d !! p = Some e →
    coord_get (directory_entry_uid e) ≤ Z.of_nat (size d)).
  Context (Hunique : ∀ p q e e', d !! p = Some e → d !! q = Some e' →
    directory_entry_uid e = directory_entry_uid e' → p = q).

Let states := fill_directory (om_iter d).*2 (replicate (size d) None).

Lemma filled_lookup p e :
  d !! p = Some e → states !! entry_index e = Some (Some (entry_state e)).
Proof using Hrange Hunique.
  intros Hp. destruct (proj1 (scan_directory_Ok _ _ _)
    (proj2 (scan_directory_wf d states) (conj eq_refl (conj Hrange Hunique))))
    as (_ & Hn & Hnd).
  eapply fill_directory_lookup; [done|done| |done]. apply om_values_elem. eauto.
Qed.

Lemma filled_dense i :
  (i < size d)%nat → ∃ p e, d !! p = Some e ∧ entry_index e = i.
Proof using Hrange Hunique.
  intros Hi. assert (i ∈ entry_index <$> (om_iter d).*2) as Hin.
  { apply (indices_cover _ (size d)); [by apply om_indices_NoDup| | |done].
    - by rewrite !length_fmap, om_iter_length.
    - intros j (e & -> & [p Hp]%om_values_elem)%list_elem_of_fmap.
      apply Hrange in Hp. unfold entry_index, uid_index. coord_lia. }
  apply list_elem_of_fmap in Hin as (e & -> & [p Hp]%om_values_elem). eauto.
Qed.

Lemma filled_cases i s :
  states !! i = Some s → ∃ p e, d !! p = Some e ∧ entry_index e = i ∧ s = Some (entry_state e).
Proof using Hrange Hunique.
  intros Hs. pose proof (lookup_lt_Some _ _ _ Hs) as Hlt.
  unfold states in Hlt. rewrite fill_directory_length, length_replicate in Hlt.
  destruct (filled_dense i Hlt) as (p & e & Hp & <-).
  rewrite (filled_lookup p e Hp) in Hs. injection Hs as <-. eauto.
Qed.

Lemma filled_complete : existsb (λ state, bool_decide (state = None)) states = false.
Proof using Hrange Hunique.
  apply existsb_false, Forall_forall. intros s [i Hi]%list_elem_of_lookup.
  apply filled_cases in Hi as (p & e & _ & _ & ->). done.
Qed.

Lemma filled_live uid :
  states !! uid_index uid = Some (Some LiveMissingRecord) ↔ ∃ p, d !! p = Some (Live uid).
Proof using Hrange Hunique.
  split.
  - intros (p & e & Hp & Hi & Hs)%filled_cases. destruct e as [u|u]; [|done].
    unfold entry_index in Hi. simpl in Hi. apply uid_index_inj in Hi as ->. eauto.
  - intros [p Hp]. apply (filled_lookup p _ Hp).
Qed.

Lemma filled_no_leftover uids :
  (∀ u, u ∈ uids → states !! uid_index u = Some (Some LiveMissingRecord)) →
  Some LiveMissingRecord ∉ fill_ledger uids states ↔
  ∀ uid p, d !! p = Some (Live uid) → uid ∈ uids.
Proof using Hrange Hunique.
  intros Huids. split.
  - intros Hno uid p Hp. destruct (decide (uid ∈ uids)) as [|Hnin]; [done|]. destruct Hno.
    apply list_elem_of_lookup. exists (uid_index uid).
    rewrite (proj2 (fill_ledger_lookup uids states (uid_index uid))).
    + apply filled_live. eauto.
    + intros (v & Hv & Hin)%list_elem_of_fmap. apply uid_index_inj in Hv as ->. done.
  - intros Hall [i Hi]%list_elem_of_lookup.
    destruct (decide (i ∈ uid_index <$> uids)) as [Hin|Hnin].
    + apply list_elem_of_fmap in Hin as (u & -> & Hu).
      rewrite (proj1 (fill_ledger_lookup uids states (uid_index u)) u) in Hi; [done|done|done|].
      eapply lookup_lt_Some. by apply Huids.
    + rewrite (proj2 (fill_ledger_lookup uids states i) Hnin) in Hi.
      apply filled_cases in Hi as (p & e & Hp & <- & Hs). destruct e as [u|u]; [|done].
      destruct Hnin. apply list_elem_of_fmap. exists u. split; [done|]. by eapply Hall.
Qed.

End filled.

Lemma forest_try_from_Ok d l f :
  forest_try_from d l = Ok f ↔ f = mk_forest d l ∧ forest_wf f.
Proof.
  unfold forest_try_from. rewrite Nat2Z.id. split.
  - destruct (Z.ltb_spec PARTITION_PATH_OCCUPANCIES_MAX_V2 (Z.of_nat (size d))); [done|].
    destruct (scan_directory _ _) as [st|] eqn:Hd; cbn [result_bind]; [|done].
    apply scan_directory_wf in Hd as (-> & Hr & Hu).
    rewrite filled_complete by done.
    destruct (scan_ledger _ _) as [st'|] eqn:Hl; cbn [result_bind]; [|done].
    apply scan_ledger_Ok in Hl as [-> Hlive]; [|apply om_iter_keys_NoDup].
    case_bool_decide as Hno; [done|]. intros [= <-]. split; [done|].
    pose proof (proj1 (filled_no_leftover d Hr Hu _ Hlive) Hno) as Hall.
    split; simpl; [unfold path_count; simpl; lia|done|done|].
    intros uid. rewrite <- om_keys_elem, <- (filled_live d Hr Hu). split; [apply Hlive|].
    intros [p Hp]%(filled_live d Hr Hu). by eapply Hall.
  - intros (-> & [Hcap Hr Hu Hl]); simpl in *. unfold path_count in *; simpl in *.
    rewrite (proj2 (Z.ltb_ge _ _)) by lia.
    rewrite (proj2 (scan_directory_wf d _) (conj eq_refl (conj Hr Hu))). cbn [result_bind].
    rewrite filled_complete by done.
    assert (∀ u, u ∈ (om_iter l).*1 → fill_directory (om_iter d).*2 (replicate (size d) None)
      !! uid_index u = Some (Some LiveMissingRecord)) as Hlive.
    { intros u Hin%om_keys_elem%Hl. by apply filled_live. }
    rewrite (proj2 (scan_ledger_Ok _ _ _ (om_iter_keys_NoDup l)) (conj eq_refl Hlive)).
    cbn [result_bind]. rewrite bool_decide_eq_false_2; [done|].
    apply filled_no_leftover; [done..|]. intros uid p Hp. apply om_keys_elem, Hl. eauto.
Qed.

Lemma forest_dense f :
  forest_wf f → ∀ n, 1 ≤ n ≤ path_count f →
  ∃ path entry, directory f !! path = Some entry ∧ coord_get (directory_entry_uid entry) = n.
Proof.
  intros Hwf n Hn.
  destruct (filled_dense (directory f) (wf_range f Hwf) (wf_unique f Hwf) (Z.to_nat (n - 1)))
    as (p & e & Hp & Hi); [unfold path_count in Hn; lia|].
  exists p, e. split; [done|]. unfold entry_index, uid_index in Hi. coord_lia.
Qed.

(** * Replaying rows *)

(** What the rows of a delta mean when they are laid over older rows, as the
    newest-wins merge of bootstrap does. *)
Definition apply_directory (rows : list (StreamPath * DirectoryEntry))
    (m : gmap StreamPath DirectoryEntry) : gmap StreamPath DirectoryEntry :=
  foldl (λ m '(path, entry), <[path := entry]> m) m rows.

Definition apply_cell (m : gmap StreamUid StreamRecord) (row : StreamUid * LedgerCell) :
    gmap StreamUid StreamRecord :=
  match row with
  | (uid, Value record) => <[uid := record]> m
  | (uid, Delete) => delete uid m
  end.

Arguments apply_cell : simpl never.

Definition apply_ledger (cells : list (StreamUid * LedgerCell))
    (m : gmap StreamUid StreamRecord) : gmap StreamUid StreamRecord :=
  foldl apply_cell m cells.

Definition apply_delta (delta : ForestDelta) (f : Forest) : Forest :=
  mk_forest (apply_directory (delta_directory delta) (directory f))
    (apply_ledger (delta_ledger delta) (ledger f)).

Definition cell_record (cell : LedgerCell) : option StreamRecord :=
  match cell with Value record => Some record | Delete => None end.

Lemma apply_directory_lookup rows m p :
  NoDup rows.*1 →
  (∀ e, (p, e) ∈ rows → apply_directory rows m !! p = Some e) ∧
  (p ∉ rows.*1 → apply_directory rows m !! p = m !! p).
Proof.
  revert m. induction rows as [|[q e'] rows IH]; intros m; csimpl.
  - intros _. split; [|done]. intros e He. by apply not_elem_of_nil in He.
  - rewrite NoDup_cons. intros [Hq Hnd]. unfold apply_directory; cbn [foldl].
    fold (apply_directory rows (<[q := e']> m)).
    destruct (IH (<[q := e']> m) Hnd) as [IH1 IH2]. split.
    + intros e [[= -> ->]|Hin]%elem_of_cons; [|by apply IH1].
      rewrite IH2 by done. apply lookup_insert_eq.
    + intros [Hne Hni]%not_elem_of_cons. rewrite IH2 by done. by apply lookup_insert_ne.
Qed.

Lemma apply_cell_lookup m u c v :
  apply_cell m (u, c) !! v = if decide (u = v) then cell_record c else m !! v.
Proof.
  unfold apply_cell. destruct c as [r|]; simpl.
  - rewrite lookup_insert. by case_decide.
  - rewrite lookup_delete. by case_decide.
Qed.

Lemma apply_ledger_lookup cells m u :
  NoDup cells.*1 →
  (∀ c, (u, c) ∈ cells → apply_ledger cells m !! u = cell_record c) ∧
  (u ∉ cells.*1 → apply_ledger cells m !! u = m !! u).
Proof.
  revert m. induction cells as [|[v c'] cells IH]; intros m; csimpl.
  - intros _. split; [|done]. intros e He. by apply not_elem_of_nil in He.
  - rewrite NoDup_cons. intros [Hq Hnd]. 
    change (apply_ledger ((v, c') :: cells) m) with (apply_ledger cells (apply_cell m (v, c'))).
    destruct (IH (apply_cell m (v, c')) Hnd) as [IH1 IH2]. split.
    + intros c [[= -> ->]|Hin]%elem_of_cons; [|by apply IH1].
      rewrite IH2 by done. rewrite apply_cell_lookup. by rewrite decide_True.
    + intros [Hne Hni]%not_elem_of_cons. rewrite IH2 by done.
      rewrite apply_cell_lookup. by rewrite decide_False by congruence.
Qed.

(** A forest whose occupancies include those of its base: every path that was
    ever created there is still present. *)
Definition occupancy_le (base f : Forest) : Prop :=
  ∀ p, is_Some (directory base !! p) → is_Some (directory f !! p).

Section delta_laws.
  Context {DD : MapDiff StreamPath DirectoryEntry} {DL : MapDiff StreamUid StreamRecord}.
  Context {DDL : MapDiffLaws StreamPath DirectoryEntry}
    {DLL : MapDiffLaws StreamUid StreamRecord}.

Lemma directory_rows_no_remove f diffs :
  (∀ k v, Remove k v ∉ diffs) →
  directory_rows f diffs = Ret (omap (λ d, match d with
    | Add k e | Update k _ e => Some (k, e) | Remove _ _ => None end) diffs).
Proof.
  induction diffs as [|d diffs IH]; intros Hno; [done|].
  assert (∀ k v, Remove k v ∉ diffs) by (intros k v Hin; apply (Hno k v); by right).
  destruct d as [k e|k o e|k v]; simpl.
  - by rewrite IH.
  - by rewrite IH.
  - destruct (Hno k v). left.
Qed.

Lemma diff_no_remove base f :
  occupancy_le base f → ∀ k v, Remove k v ∉ map_diff (directory base) (directory f).
Proof using DDL.
  intros Ho k v [Hb Hf]%map_diff_remove. destruct (Ho k) as [e He]; [eauto|]. congruence.
Qed.

Definition changed_rows (base f : gmap StreamPath DirectoryEntry) :
    list (StreamPath * DirectoryEntry) :=
  omap (λ d, match d with
    | Add k e | Update k _ e => Some (k, e) | Remove _ _ => None end) (map_diff base f).

Lemma changed_rows_elem base f k e :
  (k, e) ∈ changed_rows base f ↔ f !! k = Some e ∧ base !! k ≠ Some e.
Proof using DDL.
  unfold changed_rows. rewrite list_elem_of_omap. split.
  - intros ([k' e'|k' o e'|k' v] & Hin & Heq); simplify_eq.
    + apply map_diff_add in Hin as [Hb Hf]. split; [done|]. congruence.
    + apply map_diff_update in Hin as (Hb & Hf & Hne). split; [done|]. congruence.
  - intros [Hf Hb]. destruct (base !! k) as [o|] eqn:Hbk.
    + exists (Update k o e). split; [|done]. apply map_diff_update.
      split_and!; [done..|]. congruence.
    + exists (Add k e). split; [|done]. by apply map_diff_add.
Qed.

Lemma sorted_omap_keys {V W} (f : DiffItem StreamPath V → option (StreamPath * W)) diffs :
  (∀ d r, f d = Some r → r.1 = diff_key d) →
  StronglySorted ord_lt (diff_key <$> diffs) → strictly_sorted (omap f diffs).
Proof.
  intros Hf. unfold strictly_sorted. induction diffs as [|d l IH]; csimpl; [done|].
  intros [Hl Hd]%StronglySorted_inv. destruct (f d) as [r|] eqn:E; csimpl; [|auto].
  rewrite (Hf _ _ E). constructor; [auto|]. rewrite Forall_forall in Hd.
  apply Forall_forall. intros k (r' & -> & (d' & Hin & Hr')%list_elem_of_omap)%list_elem_of_fmap.
  rewrite (Hf _ _ Hr'). apply Hd. by apply list_elem_of_fmap_2.
Qed.

Lemma changed_rows_sorted base f : strictly_sorted (changed_rows base f).
Proof using DDL.
  apply sorted_omap_keys; [|apply map_diff_sorted].
  intros [] r; naive_solver.
Qed.

Definition changed_cells (base f : gmap StreamUid StreamRecord) : list (StreamUid * LedgerCell) :=
  ledger_cell <$> map_diff base f.

Lemma changed_cells_elem base f u c :
  (u, c) ∈ changed_cells base f ↔ f !! u = cell_record c ∧ base !! u ≠ f !! u.
Proof using DLL.
  unfold changed_cells. rewrite list_elem_of_fmap. split.
  - intros ([k e|k o e|k v] & Heq & Hin); simpl in Heq; simplify_eq; simpl.
    + apply map_diff_add in Hin as [Hb Hf]. rewrite Hb, Hf. done.
    + apply map_diff_update in Hin as (Hb & Hf & Hne). rewrite Hb, Hf. naive_solver.
    + apply map_diff_remove in Hin as [Hb Hf]. rewrite Hb, Hf. done.
  - intros [Hf Hb]. destruct c as [r|]; simpl in Hf.
    + destruct (base !! u) as [o|] eqn:Hbu.
      * exists (Update u o r). split; [done|]. apply map_diff_update.
        split_and!; [done..|]. congruence.
      * exists (Add u r). split; [done|]. by apply map_diff_add.
    + destruct (base !! u) as [o|] eqn:Hbu; [|congruence].
      exists (Remove u o). split; [done|]. by apply map_diff_remove.
Qed.

Lemma changed_cells_sorted base f : strictly_sorted (changed_cells base f).
Proof using DLL.
  unfold strictly_sorted, changed_cells. rewrite <- list_fmap_compose.
  pose proof (map_diff_sorted base f) as Hs.
  erewrite list_fmap_ext; [exact Hs|]. by intros i [] _.
Qed.

Lemma delta_since_Ret base f :
  occupancy_le base f →
  delta_since f base = Ret (mk_delta (changed_rows (directory base) (directory f))
    (changed_cells (ledger base) (ledger f))).
Proof using DDL.
  intros Ho. unfold delta_since. by rewrite directory_rows_no_remove by by apply diff_no_remove.
Qed.

Lemma delta_exact base f :
  occupancy_le base f →
  apply_delta (mk_delta (changed_rows (directory base) (directory f))
    (changed_cells (ledger base) (ledger f))) base = f.
Proof using DDL DLL.
  intros Ho. destruct f as [d l]. unfold apply_delta; simpl. f_equal; apply map_eq.
  - intros p. destruct (apply_directory_lookup (changed_rows (directory base) d)
      (directory base) p) as [H1 H2]; [apply strictly_sorted_NoDup, changed_rows_sorted|].
    destruct (decide (d !! p = directory base !! p)) as [Heq|Hne].
    + rewrite H2; [done|]. intros ([p' e] & -> & [Hd Hb]%changed_rows_elem)%list_elem_of_fmap.
      simpl in Heq. congruence.
    + destruct (d !! p) as [e|] eqn:Hd.
      * apply H1, changed_rows_elem. naive_solver.
      * destruct (directory base !! p) as [e|] eqn:Hb; [|done].
        destruct (Ho p) as [e' He']; [eauto|]. simpl in He'. congruence.
  - intros u. destruct (apply_ledger_lookup (changed_cells (ledger base) l)
      (ledger base) u) as [H1 H2]; [apply strictly_sorted_NoDup, changed_cells_sorted|].
    destruct (decide (ledger base !! u = l !! u)) as [Heq|Hne].
    + rewrite H2; [done|]. intros ([u' c] & -> & [Hl Hb]%changed_cells_elem)%list_elem_of_fmap.
      done.
    + rewrite (H1 (match l !! u with Some r => Value r | None => Delete end)).
      * by destruct (l !! u).
      * apply changed_cells_elem. split; [by destruct (l !! u)|done].
Qed.

End delta_laws.

(** * The catalog: one map instead of two *)

(** What a client may know of a path: a live stream with its record, or a
    permanent tombstone. *)
Inductive CatalogEntry : Type :=
| CatLive (uid : StreamUid) (rec : StreamRecord)
| CatDeleted (uid : StreamUid).

Definition catalog_entry (l : gmap StreamUid StreamRecord) (entry : DirectoryEntry) :
    option CatalogEntry :=
  match entry with
  | Live uid => CatLive uid <$> l !! uid
  | Tombstone uid => Some (CatDeleted uid)
  end.

Definition catalog_of (f : Forest) : gmap StreamPath CatalogEntry :=
  omap (catalog_entry (ledger f)) (directory f).

(** The contract of the strict fold, on the catalog. *)
Definition catalog_fold (c : gmap StreamPath CatalogEntry) (batch : BatchId)
    (fact : OperationFact) : Result FoldContradiction (gmap StreamPath CatalogEntry) :=
  match fact with
  | StreamCreated path uid ct ex lc =>
      match c !! path with
      | Some _ => Err PathOccupied
      | None =>
          if PARTITION_PATH_OCCUPANCIES_MAX_V2 <=? Z.of_nat (size c)
          then Err PathCapacityExhausted
          else if coord_get uid =? Z.of_nat (size c) + 1
          then Ok (<[path := CatLive uid (mk_record ct ex lc batch)]> c)
          else Err UidNotDenseSuccessor
      end
  | StreamClosed path uid =>
      match c !! path with
      | Some (CatLive u rec) =>
          if negb (bool_decide (u = uid)) then Err PathUidMismatch
          else match lifecycle rec with
               | Closed => Err StreamAlreadyClosed
               | Open => Ok (<[path := CatLive u (mk_record (content_type rec) (expiry rec)
                                 Closed (created_at rec))]> c)
               end
      | _ => Err PathNotLive
      end
  | StreamDeleted path uid =>
      match c !! path with
      | Some (CatLive u _) =>
          if bool_decide (u = uid) then Ok (<[path := CatDeleted u]> c)
          else Err PathUidMismatch
      | _ => Err PathNotLive
      end
  end.

Lemma catalog_lookup f p : catalog_of f !! p = directory f !! p ≫= catalog_entry (ledger f).
Proof. apply lookup_omap. Qed.

Lemma catalog_lookup_None f p :
  forest_wf f → catalog_of f !! p = None ↔ directory f !! p = None.
Proof.
  intros Hwf. rewrite catalog_lookup. destruct (directory f !! p) as [[u|u]|] eqn:Hp; simpl;
    [|done..].
  destruct (live_record f p u Hwf Hp) as [r ->]. done.
Qed.

Lemma catalog_dom f : forest_wf f → dom (catalog_of f) = dom (directory f).
Proof.
  intros Hwf. apply set_eq. intros p.
  rewrite !elem_of_dom, <- !not_eq_None_Some. by rewrite catalog_lookup_None.
Qed.

Lemma catalog_size f : forest_wf f → Z.of_nat (size (catalog_of f)) = path_count f.
Proof.
  intros Hwf. unfold path_count. by rewrite <- !size_dom, catalog_dom.
Qed.

Lemma catalog_live f path uid rec :
  directory f !! path = Some (Live uid) → ledger f !! uid = Some rec →
  catalog_of f !! path = Some (CatLive uid rec).
Proof. intros Hp Hr. rewrite catalog_lookup, Hp. simpl. by rewrite Hr. Qed.

(** The effect of an applied fact on the catalog. *)
Lemma fold_spec_catalog f batch fact f' :
  forest_wf f → fold_spec f batch fact f' →
  catalog_fold (catalog_of f) batch fact = Ok (catalog_of f').
Proof.
  intros Hwf Hf. destruct Hf as [path uid ct ex lc Hp Hu Hc Hl
    |path uid rec Hp Hrec Hl|path uid rec Hp Hrec]; simpl.
  - rewrite (proj2 (catalog_lookup_None f path Hwf) Hp), catalog_size by done.
    rewrite (proj2 (Z.leb_gt _ _)), (proj2 (Z.eqb_eq _ _)) by lia. f_equal. apply map_eq.
    intros q. rewrite catalog_lookup; simpl. destruct (decide (path = q)) as [<-|Hne].
    + rewrite !lookup_insert_eq. simpl. by rewrite lookup_insert_eq.
    + rewrite !lookup_insert_ne by done. rewrite catalog_lookup.
      destruct (directory f !! q) as [[u|u]|] eqn:Hq; simpl; [|done..].
      rewrite lookup_insert_ne; [done|]. intros ->.
      destruct (live_record f q u Hwf Hq) as [? ?]. congruence.
  - rewrite (catalog_live f path uid rec) by done. rewrite bool_decide_eq_true_2 by done.
    simpl. rewrite Hl. f_equal. apply map_eq. intros q. rewrite catalog_lookup; simpl.
    destruct (decide (path = q)) as [<-|Hne].
    + rewrite lookup_insert_eq, Hp. simpl. by rewrite lookup_insert_eq.
    + rewrite lookup_insert_ne, catalog_lookup by done.
      destruct (directory f !! q) as [[u|u]|] eqn:Hq; simpl; [|done..].
      rewrite lookup_insert_ne; [done|]. intros ->. destruct Hne.
      by eapply (wf_unique f Hwf).
  - rewrite (catalog_live f path uid rec) by done. rewrite bool_decide_eq_true_2 by done.
    f_equal. apply map_eq. intros q. rewrite catalog_lookup; simpl.
    destruct (decide (path = q)) as [<-|Hne].
    + by rewrite !lookup_insert_eq.
    + rewrite !lookup_insert_ne, catalog_lookup by done.
      destruct (directory f !! q) as [[u|u]|] eqn:Hq; simpl; [|done..].
      rewrite lookup_delete_ne; [done|]. intros ->. destruct Hne.
      by eapply (wf_unique f Hwf).
Qed.

(** The error of a rejected fact is the catalog's. *)
Lemma strict_fold_reject f batch fact e :
  forest_wf f → strict_fold f batch fact = Ret (f, Err e) →
  catalog_fold (catalog_of f) batch fact = Err e.
Proof.
  intros Hwf. destruct fact as [path uid ct ex lc|path uid|path uid]; simpl.
  - destruct (directory f !! path) as [d|] eqn:Hp.
    + intros [= <-]. destruct (catalog_of f !! path) eqn:Hc; [done|].
      apply catalog_lookup_None in Hc; [congruence|done].
    + rewrite (proj2 (catalog_lookup_None f path Hwf) Hp), catalog_size by done.
      destruct (successor_uid_cases f Hwf) as [[-> Hc]|(u & -> & Hu & Hc)]; simpl.
      * intros [= <-]. by rewrite (proj2 (Z.leb_le _ _)) by lia.
      * case_bool_decide as Heq; [by repeat case_match|]. intros [= <-].
        rewrite (proj2 (Z.leb_gt _ _)), (proj2 (Z.eqb_neq _ _)); [done| |lia].
        intros Hu'. apply Heq, coord_get_inj. lia.
  - rewrite catalog_lookup. unfold require_live_uid.
    destruct (directory f !! path) as [[u|u]|] eqn:Hp; simpl; [|congruence..].
    destruct (live_record f path u Hwf Hp) as [r Hr]. rewrite Hr. simpl.
    case_bool_decide as Hu; simpl; [|congruence]. rewrite Hr. simpl.
    destruct (lifecycle r); simpl; [done|congruence].
  - rewrite catalog_lookup. unfold require_live_uid.
    destruct (directory f !! path) as [[u|u]|] eqn:Hp; simpl; [|congruence..].
    destruct (live_record f path u Hwf Hp) as [r Hr]. rewrite Hr. simpl.
    case_bool_decide as Hu; simpl; [|congruence].
    rewrite Hr. by rewrite ?bool_decide_eq_true_2 by eauto.
Qed.

(** * Folding runs and logs *)

(** Fold the facts of one RUN in order, stopping at the first contradiction. *)
Fixpoint fold_facts (f : Forest) (batch : BatchId) (facts : list OperationFact) :
    Exec (Result FoldContradiction Forest) :=
  match facts with
  | [] => Ret (Ok f)
  | fact :: facts =>
      let! folded := strict_fold f batch fact in
      match folded with
      | (f, Ok Applied) => fold_facts f batch facts
      | (_, Err e) => Ret (Err e)
      end
  end.

Inductive facts_applied (batch : BatchId) : Forest → list OperationFact → Forest → Prop :=
| facts_nil f : facts_applied batch f [] f
| facts_cons f fact f' facts f'' :
    fold_spec f batch fact f' → facts_applied batch f' facts f'' →
    facts_applied batch f (fact :: facts) f''.

Lemma facts_applied_wf batch f facts f' :
  forest_wf f → facts_applied batch f facts f' → forest_wf f'.
Proof. intros Hwf. induction 1; [done|]. eauto using fold_spec_wf. Qed.

Lemma fold_facts_Ok batch f facts f' :
  forest_wf f → fold_facts f batch facts = Ret (Ok f') ↔ facts_applied batch f facts f'.
Proof.
  intros Hwf. split.
  - revert f Hwf. induction facts as [|fact facts IH]; intros f Hwf; simpl.
    + intros [= <-]. constructor.
    + destruct (strict_fold_cases f batch fact Hwf) as [[e ->]|(f1 & -> & Hf)]; simpl; [done|].
      intros H. econstructor; [done|]. apply IH; [|done]. by eapply fold_spec_wf.
  - intros Hf. revert Hwf. induction Hf as [|f fact f1 facts f2 Hs _ IH]; intros Hwf; [done|].
    simpl. rewrite (fold_spec_complete _ _ _ _ Hwf Hs). simpl. apply IH. by eapply fold_spec_wf.
Qed.

Lemma fold_facts_total batch f facts :
  forest_wf f → ∃ r, fold_facts f batch facts = Ret r.
Proof.
  revert f. induction facts as [|fact facts IH]; intros f Hwf; simpl; [eauto|].
  destruct (strict_fold_cases f batch fact Hwf) as [[e ->]|(f1 & -> & Hf)]; simpl; [eauto|].
  apply IH. by eapply fold_spec_wf.
Qed.

Lemma facts_applied_app batch f facts1 f1 facts2 f2 :
  facts_applied batch f facts1 f1 → facts_applied batch f1 facts2 f2 →
  facts_applied batch f (facts1 ++ facts2) f2.
Proof. induction 1; intros; [done|]. simpl. econstructor; eauto. Qed.

Lemma facts_applied_snoc batch f facts f1 fact f2 :
  facts_applied batch f facts f1 → fold_spec f1 batch fact f2 →
  facts_applied batch f (facts ++ [fact]) f2.
Proof. intros H1 H2. eapply facts_applied_app; [done|]. econstructor; [done|constructor]. Qed.

Lemma facts_applied_det batch f facts f1 f2 :
  forest_wf f → facts_applied batch f facts f1 → facts_applied batch f facts f2 → f1 = f2.
Proof. intros Hwf H1%fold_facts_Ok H2%fold_facts_Ok; [|done..]. congruence. Qed.

(** ** Permanence of occupancies *)

Definition entry_le (e e' : DirectoryEntry) : Prop :=
  directory_entry_uid e = directory_entry_uid e' ∧
  (∀ uid, e = Tombstone uid → e' = Tombstone uid).

Definition forest_le (f f' : Forest) : Prop :=
  ∀ p e, directory f !! p = Some e → ∃ e', directory f' !! p = Some e' ∧ entry_le e e'.

#[export] Instance forest_le_preorder : PreOrder forest_le.
Proof.
  split.
  - intros f p e Hp. exists e. done.
  - intros f g h Hfg Hgh p e Hp. destruct (Hfg p e Hp) as (e1 & Hp1 & Hu1 & Ht1).
    destruct (Hgh p e1 Hp1) as (e2 & Hp2 & Hu2 & Ht2). exists e2. split; [done|].
    split; [congruence|]. eauto.
Qed.

Lemma forest_le_occupancy f f' : forest_le f f' → occupancy_le f f'.
Proof. intros H p [e Hp]. destruct (H p e Hp) as (e' & ? & _). eauto. Qed.

Lemma fold_spec_le f batch fact f' : fold_spec f batch fact f' → forest_le f f'.
Proof.
  intros Hf p e Hp. destruct Hf as [path uid ct ex lc Hn| |path uid rec Hl]; simpl.
  - exists e. split; [|done]. rewrite lookup_insert_ne; [done|]. intros ->. congruence.
  - exists e. done.
  - destruct (decide (path = p)) as [<-|].
    + rewrite lookup_insert_eq. eexists. split; [done|]. rewrite Hl in Hp. injection Hp as <-.
      split; [done|]. by intros ? [=].
    + rewrite lookup_insert_ne by done. exists e. done.
Qed.

Lemma facts_applied_le batch f facts f' : facts_applied batch f facts f' → forest_le f f'.
Proof.
  induction 1 as [|f fact f1 facts f2 Hs _ IH]; [reflexivity|].
  etransitivity; [by eapply fold_spec_le|done].
Qed.

(** A log is a sequence of runs, each with the batch it was written at. *)
Inductive log_applied : Forest → list (BatchId * list OperationFact) → Forest → Prop :=
| log_nil f : log_applied f [] f
| log_cons f batch facts f' log f'' :
    facts_applied batch f facts f' → log_applied f' log f'' →
    log_applied f ((batch, facts) :: log) f''.

Lemma log_applied_wf f log f' : forest_wf f → log_applied f log f' → forest_wf f'.
Proof. intros Hwf. induction 1; [done|]. eauto using facts_applied_wf. Qed.

Lemma log_applied_le f log f' : log_applied f log f' → forest_le f f'.
Proof.
  induction 1 as [|f b facts f1 log f2 Hs _ IH]; [reflexivity|].
  etransitivity; [by eapply facts_applied_le|done].
Qed.

Lemma log_applied_app f log1 f1 log2 f2 :
  log_applied f log1 f1 → log_applied f1 log2 f2 → log_applied f (log1 ++ log2) f2.
Proof. induction 1; intros; [done|]. simpl. econstructor; eauto. Qed.

Lemma log_applied_snoc f log f1 batch facts f2 :
  log_applied f log f1 → facts_applied batch f1 facts f2 →
  log_applied f (log ++ [(batch, facts)]) f2.
Proof. intros H1 H2. eapply log_applied_app; [done|]. econstructor; [done|constructor]. Qed.

Lemma log_applied_det f log f1 f2 :
  forest_wf f → log_applied f log f1 → log_applied f log f2 → f1 = f2.
Proof.
  intros Hwf H1. revert f2. induction H1 as [|f b facts f1 log f2 Hs _ IH]; intros g H2.
  - by inversion H2.
  - inversion H2 as [|? ? ? f1' ? ? Hs']; subst.
    assert (f1' = f1) as -> by (by eapply facts_applied_det).
    apply IH; [by eapply facts_applied_wf|done].
Qed.

(** The executable reading of [log_applied]. *)
Fixpoint fold_log (f : Forest) (log : list (BatchId * list OperationFact)) :
    Exec (Result FoldContradiction Forest) :=
  match log with
  | [] => Ret (Ok f)
  | (batch, facts) :: log =>
      let! folded := fold_facts f batch facts in
      match folded with
      | Ok f => fold_log f log
      | Err e => Ret (Err e)
      end
  end.

Lemma fold_log_Ok f log f' :
  forest_wf f → fold_log f log = Ret (Ok f') ↔ log_applied f log f'.
Proof.
  intros Hwf. split.
  - revert f Hwf. induction log as [|[b facts] log IH]; intros f Hwf; simpl.
    + intros [= <-]. constructor.
    + destruct (fold_facts f b facts) as [[f1|]|] eqn:Hf; simpl; try done.
      intros Hl. apply fold_facts_Ok in Hf; [|done]. econstructor; [done|].
      apply IH; [|done]. by eapply facts_applied_wf.
  - intros Hl. revert Hwf. induction Hl as [|f b facts f1 log f2 Hs _ IH]; intros Hwf; [done|].
    simpl. rewrite (proj2 (fold_facts_Ok b f facts f1 Hwf) Hs). simpl. apply IH.
    by eapply facts_applied_wf.
Qed.

(** * Sample streams, for the witnesses *)

Definition sample_path (s : str) (H : Is_true (accepts StreamPath_validate s)) : StreamPath :=
  mk_refined s H.
Definition path_a : StreamPath := sample_path (lit "a") I.
Definition path_b : StreamPath := sample_path (lit "b/c") I.
Definition batch_no (n : Z) (H : Is_true (nonzero_u64 n)) : BatchId := mk_coord (mk_refined n H).
Definition uid_no (n : Z) (H : Is_true (nonzero_u64 n)) : StreamUid := mk_coord (mk_refined n H).
Definition create_a : OperationFact :=
  StreamCreated path_a (uid_no 1 I) OctetStream NoExpiry Open.
Definition create_b : OperationFact :=
  StreamCreated path_b (uid_no 2 I) Json NoExpiry Open.

Definition sample_log : list (BatchId * list OperationFact) :=
  [(batch_no 1 I, [create_a; create_b]);
   (batch_no 2 I, [StreamClosed path_a (uid_no 1 I); StreamDeleted path_b (uid_no 2 I)])].

Definition sample_forest : Forest :=
  unwrap forest_empty (fold_log forest_empty sample_log).

Lemma sample_forest_log : log_applied forest_empty sample_log sample_forest.
Proof.
  apply fold_log_Ok; [apply forest_empty_wf|]. apply unwrap_ok. vm_compute. exact I.
Qed.

Lemma sample_forest_wf : forest_wf sample_forest.
Proof. eapply log_applied_wf; [apply forest_empty_wf|apply sample_forest_log]. Qed.

(** * Properties *)

(** C23: on a well-formed forest [strict_fold] never panics and implements the
    one-map catalog: it applies a fact exactly when the catalog does, with the
    catalog's effect, reports the catalog's contradiction otherwise, leaves a
    rejected forest unchanged, and keeps the cross-store invariant. *)
Theorem strict_fold_refines_catalog (f : Forest) (batch : BatchId) (fact : OperationFact) :
  forest_wf f →
  ∃ f' r, strict_fold f batch fact = Ret (f', r) ∧ forest_wf f' ∧
    match catalog_fold (catalog_of f) batch fact with
    | Ok c => r = Ok Applied ∧ catalog_of f' = c
    | Err e => r = Err e ∧ f' = f
    end.
Proof.
  intros Hwf. destruct (strict_fold_cases f batch fact Hwf) as [[e He]|(f' & Hf' & Hs)].
  - exists f, (Err e). split; [done|]. split; [done|].
    by rewrite (strict_fold_reject f batch fact e).
  - exists f', (Ok Applied). split; [done|]. split; [by eapply fold_spec_wf|].
    by rewrite (fold_spec_catalog f batch fact f').
Qed.

Lemma strict_fold_refines_catalog_witness :
  ∃ f' r, strict_fold sample_forest (batch_no 3 I) create_a = Ret (f', r).
Proof.
  destruct (strict_fold_refines_catalog sample_forest (batch_no 3 I) create_a sample_forest_wf)
    as (f' & r & H & _).
  exists f', r. exact H.
Defined.

(** C33: [Forest::try_from] accepts a pair of merged maps exactly when they form a
    well-formed forest: uids dense and unique, and records for the live rows only.
    It then returns the two maps themselves. *)
Theorem forest_try_from_iff_wf (d : gmap StreamPath DirectoryEntry)
    (l : gmap StreamUid StreamRecord) (f : Forest) :
  forest_try_from d l = Ok f ↔ f = mk_forest d l ∧ forest_wf f.
Proof. apply forest_try_from_Ok. Qed.

(** The strict-fold history of a partition never frees a path or an identity:
    along any applied log every occupied path keeps its uid, a tombstone stays a
    tombstone, and no two paths ever share a uid. *)
Theorem occupancy_permanent (f : Forest) log (f' : Forest) :
  forest_wf f → log_applied f log f' →
  ∀ p e, directory f !! p = Some e →
    ∃ e', directory f' !! p = Some e' ∧
      directory_entry_uid e' = directory_entry_uid e ∧
      (∀ uid, e = Tombstone uid → e' = e) ∧
      (∀ q e'', directory f' !! q = Some e'' →
         directory_entry_uid e'' = directory_entry_uid e → q = p).
Proof.
  intros Hwf Hl p e Hp. destruct (log_applied_le f log f' Hl p e Hp) as (e' & Hp' & Hu & Ht).
  exists e'. split_and!; [done|done| |].
  - intros uid ->. by apply Ht.
  - intros q e'' Hq Hu'. eapply (wf_unique f'); [by eapply log_applied_wf|done|done|congruence].
Qed.

Lemma occupancy_permanent_witness :
  ∃ e', directory sample_forest !! path_b = Some e' ∧ e' = Tombstone (uid_no 2 I).
Proof.
  destruct (occupancy_permanent sample_forest [] sample_forest sample_forest_wf (log_nil _)
    path_b (Tombstone (uid_no 2 I))) as (e' & He' & _ & Ht & _);
    [apply (bool_decide_unpack _); vm_compute; exact I|].
  exists e'. split; [exact He'|]. exact (Ht (uid_no 2 I) eq_refl).
Defined.

(** C32: [delta_since] is exact: when the base's occupancies survive, it does not
    panic, its rows are in strict key order, and laying them over the base gives
    the newer forest back. *)
Theorem delta_since_exact
    {DD : MapDiff StreamPath DirectoryEntry} {DL : MapDiff StreamUid StreamRecord}
    {DDL : MapDiffLaws StreamPath DirectoryEntry} {DLL : MapDiffLaws StreamUid StreamRecord}
    (base f : Forest) :
  occupancy_le base f →
  ∃ delta, delta_since f base = Ret delta ∧
    strictly_sorted (delta_directory delta) ∧ strictly_sorted (delta_ledger delta) ∧
    apply_delta delta base = f.
Proof.
  intros Ho. eexists. split; [by apply delta_since_Ret|]. simpl.
  split_and!; [apply changed_rows_sorted|apply changed_cells_sorted|by apply delta_exact].
Qed.

Lemma delta_since_exact_witness :
  ∃ delta, @delta_since reference_diff reference_diff sample_forest forest_empty = Ret delta ∧
    apply_delta delta forest_empty = sample_forest.
Proof.
  destruct (@delta_since_exact reference_diff reference_diff reference_diff_laws
    reference_diff_laws forest_empty sample_forest) as (delta & H1 & _ & _ & H2).
  - intros p [e He]. simpl in He; rewrite lookup_empty in He. discriminate He.
  - exists delta. split; [exact H1|exact H2].
Defined.
