(* ===== verification/Archive.v ===== *)
(** The rkyv boundary: bounded encoding, checked decoding and identity-bearing
    candidates (crate [strom-storage-domain], files [archive.rs],
    [archive/adapter.rs], [wal/codec.rs], [seal/codec.rs], [candidate.rs]).

    [rkyv] is third-party code.  The class [Rkyv R] is what the crate calls of it
    for the archived form [R] of one object: the sequence of byte slices the
    serializer hands to the writer, and the validated [access].  [RkyvLaws] is
    their documented round trip.  The archived forms themselves, with the field
    adapters, are the crate's own code and are modelled. *)

From S2P Require Import Prelude Text Domain Coordinates Partition Seal Wal.

(** * Encoding through a bounded writer *)

(** strom-storage-domain/src/archive.rs:16-23, [EncodeError]. *)
Inductive EncodeError : Type :=
| Serialization
| EncodeBytesOverMax (bytes_max : Z).

(** strom-storage-domain/src/archive.rs:25-39, [DecodeError]. *)
Inductive DecodeError : Type :=
| DecodeBytesOverMax (bytes_max bytes_actual : Z)
| MalformedArchive
| InvalidBody
| IdentityMismatch.

#[export] Instance EncodeError_eq_dec : EqDecision EncodeError.
Proof. solve_decision. Defined.
#[export] Instance DecodeError_eq_dec : EqDecision DecodeError.
Proof. solve_decision. Defined.

Class Rkyv (R : Type) := {
  rkyv_writes : R → list (list Z);
  rkyv_access : list Z → option R
}.

Definition rkyv_bytes {R} `{Rkyv R} (r : R) : list Z := mjoin (rkyv_writes r).

Class RkyvLaws (R : Type) `{Rkyv R} : Prop := {
  rkyv_roundtrip : ∀ r : R, rkyv_access (rkyv_bytes r) = Some r;
  rkyv_nonempty : ∀ r : R, rkyv_bytes r ≠ []
}.

(** The allocator behind [Vec::try_reserve]: whether [additional] more bytes fit
    after the bytes written so far.  [HeapLaws] is an idealisation, not a promise of the
    allocator: where it is assumed, no reservation within the bounds of bounds.rs fails. *)
Class Heap := try_reserve : list Z → Z → bool.
Class HeapLaws `{Heap} : Prop := { reserve_succeeds : ∀ bytes n, try_reserve bytes n = true }.

(** strom-storage-domain/src/archive.rs:75-79, [BoundedWriter]. *)
Record BoundedWriter : Type := mk_writer {
  writer_bytes : list Z;
  writer_bytes_max : Z;
  over_bound : bool
}.

(** strom-storage-domain/src/archive.rs:81-89, [BoundedWriter::new]. *)
Definition BoundedWriter_new (bytes_max : Z) : BoundedWriter := mk_writer [] bytes_max false.

(** strom-storage-domain/src/archive.rs:97-112, [BoundedWriter::write]. *)
Definition writer_write `{Heap} (self : BoundedWriter) (bytes : list Z) :
    BoundedWriter * bool :=
  let bytes_actual := u64_saturating_add (zlen (writer_bytes self)) (zlen bytes) in
  if writer_bytes_max self <? bytes_actual
  then (mk_writer (writer_bytes self) (writer_bytes_max self) true, false)
  else if negb (try_reserve (writer_bytes self) (zlen bytes)) then (self, false)
  else (mk_writer (writer_bytes self ++ bytes) (writer_bytes_max self) (over_bound self), true).

(** The serializer writes its slices in order and stops at the first failure. *)
Fixpoint writer_run `{Heap} (self : BoundedWriter) (writes : list (list Z)) :
    BoundedWriter * bool :=
  match writes with
  | [] => (self, true)
  | bytes :: writes =>
      match writer_write self bytes with
      | (self, true) => writer_run self writes
      | (self, false) => (self, false)
      end
  end.

(** strom-storage-domain/src/archive.rs:57-73, [encode]. *)
Definition encode `{Heap} {R} `{Rkyv R} (value : R) (bytes_max : Z) : Result EncodeError (list Z) :=
  match writer_run (BoundedWriter_new bytes_max) (rkyv_writes value) with
  | (writer, true) => Ok (writer_bytes writer)
  | (writer, false) =>
      if over_bound writer then Err (EncodeBytesOverMax bytes_max) else Err Serialization
  end.

(** strom-storage-domain/src/archive.rs:114-125, [decode_bound]. *)
Definition decode_bound (bytes : list Z) (bytes_max : Z) : Result DecodeError unit :=
  if bytes_max <? zlen bytes then Err (DecodeBytesOverMax bytes_max (zlen bytes)) else Ok tt.

(** * Field adapters *)

(** strom-storage-domain/src/archive/adapter.rs:86-91, [ExpiryArchive]. *)
Inductive ExpiryArchive : Type :=
| ArchivedNone
| ArchivedSlidingTtl (seconds : Z)
| ArchivedAbsoluteExpiry (nanoseconds : Z).

(** strom-storage-domain/src/archive/adapter.rs:93-103, [From for ExpiryArchive]. *)
Definition archive_expiry (expiry : ExpiryPolicy) : ExpiryArchive :=
  match expiry with
  | NoExpiry => ArchivedNone
  | SlidingTtl ttl => ArchivedSlidingTtl (content (StreamTtl_seconds ttl))
  | AbsoluteExpiry expires_at => ArchivedAbsoluteExpiry (unix_nanoseconds expires_at)
  end.

(** strom-storage-domain/src/archive/adapter.rs:150-154, [LifecycleArchive]. *)
Inductive LifecycleArchive : Type := ArchivedOpen | ArchivedClosed.

(** strom-storage-domain/src/archive/adapter.rs:180-187, [From for LifecycleArchive]. *)
Definition archive_lifecycle (lifecycle : StreamLifecycle) : LifecycleArchive :=
  match lifecycle with Open => ArchivedOpen | Closed => ArchivedClosed end.

(** strom-storage-domain/src/archive/adapter.rs:189-196, [StreamLifecycle::from]. *)
Definition decode_lifecycle (lifecycle : LifecycleArchive) : StreamLifecycle :=
  match lifecycle with ArchivedOpen => Open | ArchivedClosed => Closed end.

(** strom-storage-domain/src/archive/adapter.rs:25-30, [decode_stream_path]. *)
Definition decode_stream_path (stream_path : str) : Exec (Result DecodeError StreamPath) :=
  Ret (map_err (λ _, InvalidBody) (StreamPath_from_str stream_path)).

(** strom-storage-domain/src/archive/adapter.rs:13-23, [decode_content_type]. *)
Definition decode_content_type (archived : str) : Exec (Result DecodeError StreamContentType) :=
  let!? _ := Ret (map_err (λ _, InvalidBody) (validate_canonical archived)) in
  try_map_err (λ _, InvalidBody) (StreamContentType_from_str archived).

(** strom-storage-domain/src/archive/adapter.rs:129-148, [ExpiryPolicy::try_from]. *)
Definition decode_expiry `{Jiff} (expiry : ExpiryArchive) : Exec (Result DecodeError ExpiryPolicy) :=
  Ret (match expiry with
       | ArchivedNone => Ok NoExpiry
       | ArchivedSlidingTtl seconds =>
           ok_or InvalidBody (SlidingTtl <$> NonZeroU64_new seconds)
       | ArchivedAbsoluteExpiry nanoseconds =>
           result_map AbsoluteExpiry
             (map_err (λ _, InvalidBody) (ExpiresAt_try_from nanoseconds))
       end).

(** * The WAL codec *)

(** The archived form of a fact: domain strings and policies by their adapters.
    strom-storage-domain/src/wal/fact.rs:11-38, [ArchivedOperationFact]. *)
Inductive ArchivedFact : Type :=
| ArchivedCreated (path : str) (uid : StreamUid) (content_type : str)
    (expiry : ExpiryArchive) (lifecycle : LifecycleArchive)
| ArchivedClosedFact (path : str) (uid : StreamUid)
| ArchivedDeleted (path : str) (uid : StreamUid).

(** strom-storage-domain/src/wal/fact.rs:11-38, [OperationFact (archive)]. *)
Definition archive_fact (fact : OperationFact) : ArchivedFact :=
  match fact with
  | StreamCreated path uid content_type expiry lifecycle =>
      ArchivedCreated (StreamPath_as_str path) uid (StreamContentType_as_str content_type)
        (archive_expiry expiry) (archive_lifecycle lifecycle)
  | StreamClosed path uid => ArchivedClosedFact (StreamPath_as_str path) uid
  | StreamDeleted path uid => ArchivedDeleted (StreamPath_as_str path) uid
  end.

(** strom-storage-domain/src/wal.rs:57-61, [ArchivedWalBody]. *)
Inductive ArchivedWalBody : Type :=
| ArchivedRun (facts : list ArchivedFact)
| ArchivedFence.

(** strom-storage-domain/src/wal.rs:12-18, [ArchivedWalObject]. *)
Record ArchivedWalObject : Type := mk_archived_wal {
  archived_wal_partition : Octets;
  archived_wal_batch : BatchId;
  archived_wal_owner : OwnerToken;
  archived_wal_body : ArchivedWalBody
}.

(** strom-storage-domain/src/wal.rs:57-61, [WalBody (archive)]. *)
Definition archive_body (body : WalBody) : ArchivedWalBody :=
  match body with
  | Run facts => ArchivedRun (archive_fact <$> facts_slice facts)
  | Fence => ArchivedFence
  end.

(** strom-storage-domain/src/wal.rs:12-18, [WalObject (archive)]. *)
Definition archive_wal (object : WalObject) : ArchivedWalObject :=
  mk_archived_wal (content (wal_partition object)) (wal_batch object) (wal_owner object)
    (archive_body (wal_body object)).

(** strom-storage-domain/src/partition.rs:13-19, [PartitionId::try_from (archived)]. *)
Definition decode_partition (partition : Octets) : Result DecodeError PartitionId :=
  map_err (λ _, InvalidBody) (PartitionId_try_from partition).

(** strom-storage-domain/src/wal/codec.rs:65-89, [decode_fact]. *)
Definition decode_fact `{Jiff} (fact : ArchivedFact) : Exec (Result DecodeError OperationFact) :=
  match fact with
  | ArchivedCreated path uid content_type expiry lifecycle =>
      let!? path := decode_stream_path path in
      let!? content_type := decode_content_type content_type in
      let!? expiry := decode_expiry expiry in
      Ret (Ok (StreamCreated path uid content_type expiry (decode_lifecycle lifecycle)))
  | ArchivedClosedFact path uid =>
      let!? path := decode_stream_path path in
      Ret (Ok (StreamClosed path uid))
  | ArchivedDeleted path uid =>
      let!? path := decode_stream_path path in
      Ret (Ok (StreamDeleted path uid))
  end.

(** strom-storage-domain/src/wal/codec.rs:44-63, [decode_body]. *)
Definition decode_body `{Jiff} (body : ArchivedWalBody) : Exec (Result DecodeError WalBody) :=
  match body with
  | ArchivedRun facts =>
      if bool_decide (zlen facts = 0) || (WAL_RUN_FACTS_MAX <? zlen facts)
      then Ret (Err InvalidBody)
      else
        let!? decoded_facts := try_each decode_fact facts in
        let!? facts := Ret (map_err (λ _, InvalidBody) (WalFacts_try_from decoded_facts)) in
        Ret (Ok (Run facts))
  | ArchivedFence => Ret (Ok Fence)
  end.

Section wal_codec.
  Context {J : Jiff} {HP : Heap} {RW : Rkyv ArchivedWalObject}.

(** strom-storage-domain/src/wal/codec.rs:13-19, [encode_wal]. *)
Definition encode_wal (object : WalObject) : Result EncodeError (list Z) :=
  encode (archive_wal object) WAL_ENCODED_BYTES_MAX.

(** strom-storage-domain/src/wal/codec.rs:21-42, [decode_wal]. *)
Definition decode_wal (expected_partition : PartitionId) (expected_batch : BatchId)
    (bytes : list Z) : Exec (Result DecodeError WalObject) :=
  let!? _ := Ret (decode_bound bytes WAL_ENCODED_BYTES_MAX) in
  let!? archived := Ret (ok_or MalformedArchive (rkyv_access bytes)) in
  let!? partition := Ret (decode_partition (archived_wal_partition archived)) in
  let batch := archived_wal_batch archived in
  if negb (bool_decide (partition = expected_partition)) || negb (bool_decide (batch = expected_batch))
  then Ret (Err IdentityMismatch)
  else
    let owner := archived_wal_owner archived in
    let!? body := decode_body (archived_wal_body archived) in
    Ret (Ok (mk_wal_object partition batch owner body)).

End wal_codec.

(** * The Seal codec *)

(** The archived fields of one table reference and its object identity.
    strom-storage-domain/src/seal.rs:209-213, [ArchivedTableRef]. *)
Record ArchivedTable : Type := mk_archived_table {
  archived_birth : SealGeneration;
  archived_attempt : AttemptId;
  archived_ordinal : Z;
  archived_store : StoreKind;
  archived_object_bytes : NonZeroU64
}.

(** strom-storage-domain/src/seal.rs:13-20, [ArchivedSeal]. *)
Record ArchivedSeal : Type := mk_archived_seal {
  archived_seal_partition : Octets;
  archived_seal_generation : SealGeneration;
  archived_seal_replay : WalReplayPoint;
  archived_seal_directory : list (list ArchivedTable);
  archived_seal_ledger : list (list ArchivedTable)
}.

(** strom-storage-domain/src/seal.rs:209-213, [TableRef (archive)]. *)
Definition archive_table (table : TableRef) : ArchivedTable :=
  let fresh := fresh (table_object table) in
  mk_archived_table (birth_generation fresh) (attempt fresh) (ordinal fresh)
    (store (table_object table)) (ref_object_bytes (content table)).

(** strom-storage-domain/src/seal.rs:146-149, [TreeVersion (archive)]. *)
Definition archive_tree (tree : TreeVersion) : list (list ArchivedTable) :=
  (λ run, archive_table <$> run_tables run) <$> tree_runs tree.

(** strom-storage-domain/src/seal.rs:13-20, [Seal (archive)]. *)
Definition archive_seal (seal : Seal) : ArchivedSeal :=
  mk_archived_seal (content (seal_partition seal)) (seal_generation seal) (seal_replay seal)
    (archive_tree (seal_directory seal)) (archive_tree (seal_ledger seal)).

(** strom-storage-domain/src/table.rs:30-39, [TableObjectId::try_from (archived)]. *)
Definition decode_table_object (table : ArchivedTable) : Result DecodeError TableObjectId :=
  let? fresh :=
    map_err (λ _, InvalidBody)
      (FreshIdentity_new (archived_birth table) (archived_attempt table) (archived_ordinal table)) in
  Ok (mk_table_object fresh (archived_store table)).

(** strom-storage-domain/src/seal/codec.rs:84-90, [decode_table_ref]. *)
Definition decode_table_ref (table : ArchivedTable) : Exec (Result DecodeError TableRef) :=
  let!? object := Ret (decode_table_object table) in
  Ret (map_err (λ _, InvalidBody) (TableRef_new object (archived_object_bytes table))).

(** strom-storage-domain/src/seal/codec.rs:73-82, [decode_run]. *)
Definition decode_run (tables : list ArchivedTable) : Exec (Result DecodeError SortedRun) :=
  if bool_decide (tables = []) || (RUN_TABLES_MAX <? zlen tables) then Ret (Err InvalidBody)
  else
    let!? tables := try_each decode_table_ref tables in
    Ret (map_err (λ _, InvalidBody) (SortedRun_try_from tables)).

(** strom-storage-domain/src/seal/codec.rs:62-71, [decode_tree]. *)
Definition decode_tree (runs : list (list ArchivedTable)) : Exec (Result DecodeError TreeVersion) :=
  if TREE_RUNS_MAX <? zlen runs then Ret (Err InvalidBody)
  else
    let!? runs := try_each decode_run runs in
    Ret (map_err (λ _, InvalidBody) (TreeVersion_try_from runs)).

(** strom-storage-domain/src/seal/codec.rs:37-60, [decode_archived_seal]. *)
Definition decode_archived_seal (archived : ArchivedSeal) (partition : PartitionId)
    (generation : SealGeneration) : Exec (Result DecodeError Seal) :=
  let!? directory := decode_tree (archived_seal_directory archived) in
  let!? ledger := decode_tree (archived_seal_ledger archived) in
  Ret (map_err (λ _, InvalidBody)
    (Seal_new partition generation (archived_seal_replay archived) directory ledger)).

Section seal_codec.
  Context {HP : Heap} {RS : Rkyv ArchivedSeal}.

(** strom-storage-domain/src/seal/codec.rs:13-19, [encode_seal]. *)
Definition encode_seal (seal : Seal) : Result EncodeError (list Z) :=
  encode (archive_seal seal) SEAL_ENCODED_BYTES_MAX.

(** strom-storage-domain/src/seal/codec.rs:21-35, [decode_seal]. *)
Definition decode_seal (expected_generation : SealGeneration) (bytes : list Z) :
    Exec (Result DecodeError Seal) :=
  let!? _ := Ret (decode_bound bytes SEAL_ENCODED_BYTES_MAX) in
  let!? archived := Ret (ok_or MalformedArchive (rkyv_access bytes)) in
  let!? partition := Ret (decode_partition (archived_seal_partition archived)) in
  let generation := archived_seal_generation archived in
  if bool_decide (generation = expected_generation)
  then decode_archived_seal archived partition generation
  else Ret (Err IdentityMismatch).

End seal_codec.

(** * Candidates *)

(** strom-storage-domain/src/candidate.rs:15-21, [EncodedWal]. *)
Record EncodedWal : Type := mk_encoded_wal {
  encoded_wal_partition : PartitionId;
  encoded_wal_batch : BatchId;
  encoded_wal_bytes : list Z
}.

(** strom-storage-domain/src/candidate.rs:88-107, [EncodedAuthoritySeal]. *)
Record EncodedAuthoritySeal : Type := mk_authority {
  authority_seal : Seal;
  authority_bytes : list Z
}.

(** strom-storage-domain/src/candidate.rs:72-86, [EncodedGenesisSeal]. *)
Record EncodedGenesisSeal : Type := mk_genesis {
  genesis_seal : Seal;
  genesis_bytes : list Z
}.

(** strom-storage-domain/src/candidate.rs:109-118, [SealCandidateError]. *)
Inductive SealCandidateError : Type :=
| NotGenesis
| NotAuthority
| SealEncode (error : EncodeError).

(** strom-storage-domain/src/candidate.rs:222-228, [assert_candidate_bytes]. *)
Definition candidate_bytes_ok (bytes : list Z) (bytes_max : Z) : bool :=
  negb (bool_decide (bytes = [])) && (zlen bytes <=? bytes_max).

Section candidates.
  Context {HP : Heap} {RW : Rkyv ArchivedWalObject} {RS : Rkyv ArchivedSeal}.

(** strom-storage-domain/src/candidate.rs:23-37, [EncodedWal::new]. *)
Definition EncodedWal_new (object : WalObject) : Exec (Result EncodeError EncodedWal) :=
  let!? bytes := Ret (encode_wal object) in
  assert! candidate_bytes_ok bytes WAL_ENCODED_BYTES_MAX in
  Ret (Ok (mk_encoded_wal (wal_partition object) (wal_batch object) bytes)).

(** strom-storage-domain/src/candidate.rs:61-70, [EncodedSeal::new]. *)
Definition EncodedSeal_new (seal : Seal) : Exec (Result EncodeError (Seal * list Z)) :=
  let!? bytes := Ret (encode_seal seal) in
  assert! candidate_bytes_ok bytes SEAL_ENCODED_BYTES_MAX in
  Ret (Ok (seal, bytes)).

(** strom-storage-domain/src/candidate.rs:120-129, [EncodedGenesisSeal::try_from]. *)
Definition EncodedGenesisSeal_try_from (seal : Seal) :
    Exec (Result SealCandidateError EncodedGenesisSeal) :=
  if negb (bool_decide (seal_generation seal = genesis_generation)) then Ret (Err NotGenesis)
  else
    let!? encoded := try_map_err SealEncode (EncodedSeal_new seal) in
    Ret (Ok (mk_genesis encoded.1 encoded.2)).

(** strom-storage-domain/src/candidate.rs:131-140, [EncodedAuthoritySeal::try_from]. *)
Definition EncodedAuthoritySeal_try_from (seal : Seal) :
    Exec (Result SealCandidateError EncodedAuthoritySeal) :=
  if bool_decide (seal_generation seal = genesis_generation) then Ret (Err NotAuthority)
  else
    let!? encoded := try_map_err SealEncode (EncodedSeal_new seal) in
    Ret (Ok (mk_authority encoded.1 encoded.2)).

End candidates.

(** * Lemmas *)

Section writer_lemmas.
  Context `{HL : HeapLaws}.

(** The writer keeps exactly the bytes written until the bound would be crossed. *)
Lemma writer_run_ok self writes :
  zlen (writer_bytes self) + zlen (mjoin writes) ≤ writer_bytes_max self →
  writer_bytes_max self ≤ u64_max →
  writer_run self writes =
    (mk_writer (writer_bytes self ++ mjoin writes) (writer_bytes_max self) (over_bound self), true).
Proof using HL.
  revert self. induction writes as [|w ws IH]; intros self Hlen Hmax; simpl.
  - rewrite (right_id_L [] (++)). by destruct self.
  - simpl in Hlen. unfold zlen in Hlen. rewrite length_app in Hlen.
    unfold writer_write, u64_saturating_add.
    rewrite (proj2 (Z.ltb_ge _ _)) by (unfold zlen; lia). rewrite reserve_succeeds. cbn [negb].
    rewrite IH; simpl; [by rewrite (assoc_L (++))| |done].
    unfold zlen. rewrite length_app. lia.
Qed.

Lemma writer_run_over self writes :
  zlen (writer_bytes self) ≤ writer_bytes_max self < u64_max →
  writer_bytes_max self < zlen (writer_bytes self) + zlen (mjoin writes) →
  ∃ w, writer_run self writes = (w, false) ∧ over_bound w = true.
Proof using HL.
  revert self. induction writes as [|w ws IH]; intros self Hs Hover; simpl.
  - simpl in Hover. change (zlen []) with 0 in Hover. lia.
  - simpl in Hover. unfold zlen in *. rewrite length_app in Hover.
    unfold writer_write, u64_saturating_add, zlen.
    destruct (Z.ltb_spec (writer_bytes_max self)
      (Z.min (Z.of_nat (length (writer_bytes self)) + Z.of_nat (length w)) u64_max)) as [Hb|Hb];
      [eexists; split; reflexivity|].
    rewrite reserve_succeeds. cbn [negb]. apply IH; simpl; rewrite length_app; lia.
Qed.

Lemma encode_ok {R} `{Rkyv R} (r : R) bytes_max :
  zlen (rkyv_bytes r) ≤ bytes_max ≤ u64_max → encode r bytes_max = Ok (rkyv_bytes r).
Proof using HL.
  intros Hb. unfold encode. rewrite writer_run_ok; simpl; [done| |lia].
  change (zlen []) with 0. unfold rkyv_bytes in Hb. lia.
Qed.

Lemma encode_over {R} `{Rkyv R} (r : R) bytes_max :
  0 ≤ bytes_max < u64_max → bytes_max < zlen (rkyv_bytes r) →
  encode r bytes_max = Err (EncodeBytesOverMax bytes_max).
Proof using HL.
  intros Hb Ho. unfold encode. destruct (writer_run_over (BoundedWriter_new bytes_max)
    (rkyv_writes r)) as (w & -> & ->); simpl; [change (zlen []) with 0; lia| |done].
  change (zlen []) with 0. unfold rkyv_bytes in Ho. lia.
Qed.

Lemma encode_inv {R} `{Rkyv R} (r : R) bytes_max bytes :
  0 ≤ bytes_max < u64_max → encode r bytes_max = Ok bytes →
  bytes = rkyv_bytes r ∧ zlen bytes ≤ bytes_max.
Proof using HL.
  intros Hb He. destruct (decide (zlen (rkyv_bytes r) ≤ bytes_max)) as [Hl|Hl].
  - rewrite encode_ok in He by lia. injection He as <-. done.
  - rewrite encode_over in He by lia. done.
Qed.

End writer_lemmas.

(** ** Adapters invert each other *)

Lemma decode_stream_path_ok (p : StreamPath) :
  decode_stream_path (StreamPath_as_str p) = Ret (Ok p).
Proof.
  unfold decode_stream_path, StreamPath_as_str, StreamPath_from_str. by rewrite checked_content.
Qed.

Lemma decode_content_type_ok (ct : StreamContentType) :
  decode_content_type (StreamContentType_as_str ct) = Ret (Ok ct).
Proof.
  unfold decode_content_type. rewrite validate_canonical_as_str. simpl.
  by rewrite from_str_as_str.
Qed.

(** Every instant of a value is one the timestamp library can represent, as the
    type of the code guarantees. *)
Definition expiry_in_range `{Jiff} (e : ExpiryPolicy) : Prop :=
  match e with
  | AbsoluteExpiry t => timestamp_in_range (unix_nanoseconds t) = true
  | NoExpiry | SlidingTtl _ => True
  end.

Definition fact_in_range `{Jiff} (fact : OperationFact) : Prop :=
  match fact with
  | StreamCreated _ _ _ expiry _ => expiry_in_range expiry
  | StreamClosed _ _ | StreamDeleted _ _ => True
  end.

Definition body_in_range `{Jiff} (body : WalBody) : Prop :=
  match body with
  | Run facts => Forall fact_in_range (facts_slice facts)
  | Fence => True
  end.

Lemma decode_expiry_ok `{Jiff} e :
  expiry_in_range e → decode_expiry (archive_expiry e) = Ret (Ok e).
Proof.
  unfold decode_expiry. destruct e as [|ttl|[t]]; simpl; intros Hr; [done| |].
  - unfold StreamTtl_seconds. by rewrite (proj2 (NonZeroU64_new_Some (content ttl) ttl)).
  - unfold ExpiresAt_try_from. simpl in Hr. by rewrite Hr.
Qed.

Lemma decode_lifecycle_ok l : decode_lifecycle (archive_lifecycle l) = l.
Proof. by destruct l. Qed.

Lemma decode_fact_ok `{Jiff} fact :
  fact_in_range fact → decode_fact (archive_fact fact) = Ret (Ok fact).
Proof.
  destruct fact as [p u ct e l|p u|p u]; cbn [archive_fact decode_fact fact_in_range]; intros Hr;
    rewrite decode_stream_path_ok; cbn [try_bind]; [|done..].
  rewrite decode_content_type_ok. cbn [try_bind]. rewrite decode_expiry_ok by done.
  cbn [try_bind]. by rewrite decode_lifecycle_ok.
Qed.

Lemma decode_body_ok `{Jiff} body :
  body_in_range body → decode_body (archive_body body) = Ret (Ok body).
Proof.
  destruct body as [facts|]; [|done]. simpl. intros Hr.
  destruct (WalFacts_bounds facts) as [Hne Hlen].
  assert (zlen (archive_fact <$> facts_slice facts) = zlen (facts_slice facts)) as ->
    by (unfold zlen; by rewrite length_fmap).
  rewrite bool_decide_eq_false_2.
  2:{ unfold zlen. by destruct (facts_slice facts). }
  rewrite (proj2 (Z.ltb_ge _ _)) by lia. simpl.
  rewrite try_each_ok.
  - simpl. unfold WalFacts_try_from, facts_slice. by rewrite checked_content.
  - intros f Hf. apply decode_fact_ok. by rewrite Forall_forall in Hr; apply Hr.
Qed.

Lemma decode_partition_ok (p : PartitionId) : decode_partition (content p) = Ok p.
Proof. unfold decode_partition, PartitionId_try_from. by rewrite checked_content. Qed.

Lemma decode_table_object_ok (t : TableRef) :
  decode_table_object (archive_table t) = Ok (table_object t).
Proof.
  unfold decode_table_object. simpl. unfold FreshIdentity_new.
  assert (mk_fresh (birth_generation (fresh (table_object t)))
    (attempt (fresh (table_object t))) (ordinal (fresh (table_object t)))
    = content (fresh (table_object t))) as ->.
  { unfold birth_generation, attempt, ordinal. by destruct (content (fresh (table_object t))). }
  rewrite checked_content. simpl. by destruct (table_object t).
Qed.

Lemma decode_table_ref_ok (t : TableRef) : decode_table_ref (archive_table t) = Ret (Ok t).
Proof.
  unfold decode_table_ref. rewrite decode_table_object_ok. simpl.
  unfold TableRef_new, table_object.
  assert (mk_table_ref (ref_object (content t)) (ref_object_bytes (content t)) = content t)
    as -> by (by destruct (content t)).
  by rewrite checked_content.
Qed.

Lemma run_bounds (run : SortedRun) :
  run_tables run ≠ [] ∧ zlen (run_tables run) ≤ RUN_TABLES_MAX.
Proof.
  assert (∀ l, accepts run_check l = true → l ≠ [] ∧ zlen l ≤ RUN_TABLES_MAX) as H.
  { intros l. unfold accepts, run_check. case_bool_decide; [done|].
    destruct (Z.ltb_spec RUN_TABLES_MAX (zlen l)); [done|]. done. }
  apply H, content_true.
Qed.

Lemma tree_bounds (tree : TreeVersion) : zlen (tree_runs tree) ≤ TREE_RUNS_MAX.
Proof.
  assert (∀ l, accepts tree_check l = true → zlen l ≤ TREE_RUNS_MAX) as H.
  { intros l. unfold accepts, tree_check.
    by destruct (Z.ltb_spec TREE_RUNS_MAX (zlen l)). }
  apply H, content_true.
Qed.

Lemma decode_run_ok (run : SortedRun) :
  decode_run (archive_table <$> run_tables run) = Ret (Ok run).
Proof.
  destruct (run_bounds run) as [Hne Hlen]. unfold decode_run.
  rewrite bool_decide_eq_false_2 by (by destruct (run_tables run)).
  rewrite (proj2 (Z.ltb_ge _ _)) by (unfold zlen in *; rewrite length_fmap; lia). simpl.
  rewrite try_each_ok by (intros; apply decode_table_ref_ok). simpl.
  unfold SortedRun_try_from, run_tables. by rewrite checked_content.
Qed.

Lemma decode_tree_ok (tree : TreeVersion) : decode_tree (archive_tree tree) = Ret (Ok tree).
Proof.
  pose proof (tree_bounds tree) as Hlen. unfold decode_tree, archive_tree.
  rewrite (proj2 (Z.ltb_ge _ _)) by (unfold zlen in *; rewrite length_fmap; lia).
  rewrite try_each_ok by (intros; apply decode_run_ok). simpl.
  unfold TreeVersion_try_from, tree_runs. by rewrite checked_content.
Qed.

Lemma decode_archived_seal_ok (seal : Seal) :
  decode_archived_seal (archive_seal seal) (seal_partition seal) (seal_generation seal)
  = Ret (Ok seal).
Proof.
  unfold decode_archived_seal. simpl. rewrite !decode_tree_ok. simpl.
  rewrite (proj2 (Seal_new_Ok _ _ _ _ _ seal)); [done|].
  unfold seal_partition, seal_generation, seal_replay, seal_directory, seal_ledger.
  by destruct (content seal).
Qed.

(** ** Reading back one's own bytes *)

Lemma decode_expiry_range `{Jiff} e e' :
  decode_expiry (archive_expiry e) = Ret (Ok e') → expiry_in_range e.
Proof.
  unfold decode_expiry. destruct e as [|ttl|[t]]; cbn [archive_expiry expiry_in_range]; [done..|].
  unfold ExpiresAt_try_from. simpl. by destruct (timestamp_in_range t).
Qed.

Lemma decode_fact_range `{Jiff} fact fact' :
  decode_fact (archive_fact fact) = Ret (Ok fact') → fact_in_range fact.
Proof.
  destruct fact as [p u ct e l|p u|p u]; cbn [archive_fact decode_fact fact_in_range]; [|done..].
  rewrite decode_stream_path_ok. cbn [try_bind]. rewrite decode_content_type_ok. cbn [try_bind].
  destruct (decode_expiry (archive_expiry e)) as [[e'|]|] eqn:He; cbn [try_bind]; [|done..].
  intros _. by eapply decode_expiry_range.
Qed.

Lemma decode_body_range `{Jiff} body body' :
  decode_body (archive_body body) = Ret (Ok body') → body_in_range body.
Proof.
  destruct body as [facts|]; [|done]. cbn [archive_body decode_body body_in_range].
  destruct (_ || _); [done|].
  destruct (try_each _ _) as [[fs|]|] eqn:Hf; cbn [try_bind]; [|done..]. intros _.
  apply try_each_each in Hf. revert fs Hf.
  induction (facts_slice facts) as [|fact l IH]; intros fs Hf; [constructor|].
  apply Forall2_cons_inv_l in Hf as (f' & fs' & Hd & Hf & ->).
  constructor; [by eapply decode_fact_range|by eapply IH].
Qed.

(** An object read back from the bytes it was written with is that object. *)
(** The archived forms are injective, so equal bytes are equal objects. *)
#[global] Instance as_str_inj : Inj (=) (=) StreamContentType_as_str.
Proof.
  intros x y He. pose proof (decode_content_type_ok x) as Hx.
  rewrite He, decode_content_type_ok in Hx. by injection Hx.
Qed.

#[global] Instance archive_fact_inj : Inj (=) (=) archive_fact.
Proof.
  intros [p u ct e l|p u|p u] [p' u' ct' e' l'|p' u' |p' u']; simpl; try done.
  - intros [= Hp -> Hct He Hl].
    assert (p = p') as -> by by apply refined_eq. apply as_str_inj in Hct as ->.
    assert (e = e') as ->.
    { destruct e as [|ttl|[n]], e' as [|ttl'|[n']]; try done; [|by injection He as ->].
      destruct ttl as [ttl], ttl' as [ttl']. injection He as He. do 2 f_equal. by apply refined_eq. }
    by destruct l, l'.
  - intros [= Hp ->]. f_equal. by apply refined_eq.
  - intros [= Hp ->]. f_equal. by apply refined_eq.
Qed.

Lemma wal_bytes_inj `{RkyvLaws ArchivedWalObject} w w' :
  rkyv_bytes (archive_wal w) = rkyv_bytes (archive_wal w') → w = w'.
Proof.
  intros He. apply (f_equal rkyv_access) in He. rewrite !rkyv_roundtrip in He.
  injection He as Hp Hb Ho Hbody. destruct w as [p b o body], w' as [p' b' o' body']; simpl in *.
  subst. f_equal; [by apply refined_eq|].
  destruct body as [facts|], body' as [facts'|]; try done. injection Hbody as Hbody.
  f_equal. by apply refined_eq, (list_fmap_eq_inj archive_fact archive_fact_inj).
Qed.

Lemma decode_wal_own `{Jiff} `{RkyvLaws ArchivedWalObject} object partition batch object' :
  decode_wal partition batch (rkyv_bytes (archive_wal object)) = Ret (Ok object') →
  object' = object.
Proof.
  unfold decode_wal. destruct (decode_bound _ _); cbn [try_bind]; [|done].
  rewrite rkyv_roundtrip. cbn [ok_or try_bind archive_wal archived_wal_partition
    archived_wal_batch archived_wal_owner archived_wal_body].
  rewrite decode_partition_ok. cbn [try_bind]. destruct (_ || _); [done|].
  destruct (decode_body _) as [[body|]|] eqn:Hb; cbn [try_bind]; [|done..].
  pose proof (decode_body_range _ _ Hb) as Hr. rewrite (decode_body_ok _ Hr) in Hb.
  injection Hb as <-. intros [= <-]. by destruct object.
Qed.

(** ** Decoding never panics *)

Lemma decode_content_type_no_panic s : decode_content_type s ≠ Panic.
Proof.
  unfold decode_content_type. pose proof (from_str_no_panic s).
  destruct (validate_canonical s); simpl; [|done].
  by destruct (StreamContentType_from_str s).
Qed.

Lemma decode_fact_no_panic `{Jiff} fact : decode_fact fact ≠ Panic.
Proof.
  assert (∀ s, decode_stream_path s ≠ Panic) as Hp by done.
  destruct fact as [p u c e l|p u|p u]; cbn [decode_fact].
  - specialize (Hp p). pose proof (decode_content_type_no_panic c) as Hc.
    destruct (decode_stream_path p) as [[]|]; cbn [try_bind]; [|done..].
    destruct (decode_content_type c) as [[]|]; cbn [try_bind]; [|done..].
    unfold decode_expiry. by destruct (match e with ArchivedNone => _ | _ => _ end).
  - specialize (Hp p). by destruct (decode_stream_path p) as [[]|].
  - specialize (Hp p). by destruct (decode_stream_path p) as [[]|].
Qed.

Lemma decode_body_no_panic `{Jiff} body : decode_body body ≠ Panic.
Proof.
  destruct body as [facts|]; [|done]. cbn [decode_body].
  destruct (_ || _); [done|].
  pose proof (try_each_no_panic decode_fact facts decode_fact_no_panic) as Hn.
  destruct (try_each decode_fact facts) as [[l|]|]; cbn [try_bind]; [|done|done].
  by destruct (WalFacts_try_from l).
Qed.

(** * A reference archive

    An archive that meets [RkyvLaws]: the whole value as one number.  It shows the
    laws are satisfiable and lets the codecs run on samples. *)

#[export] Instance ExpiryArchive_eq_dec : EqDecision ExpiryArchive.
Proof. solve_decision. Defined.
#[export] Instance LifecycleArchive_eq_dec : EqDecision LifecycleArchive.
Proof. solve_decision. Defined.
#[export] Instance ArchivedFact_eq_dec : EqDecision ArchivedFact.
Proof. solve_decision. Defined.
#[export] Instance ArchivedWalBody_eq_dec : EqDecision ArchivedWalBody.
Proof. solve_decision. Defined.
#[export] Instance ArchivedWalObject_eq_dec : EqDecision ArchivedWalObject.
Proof. solve_decision. Defined.
#[export] Instance ArchivedTable_eq_dec : EqDecision ArchivedTable.
Proof. solve_decision. Defined.
#[export] Instance ArchivedSeal_eq_dec : EqDecision ArchivedSeal.
Proof. solve_decision. Defined.

#[export] Instance ExpiryArchive_countable : Countable ExpiryArchive.
Proof.
  apply (inj_countable'
    (λ e, match e with
          | ArchivedNone => inl tt
          | ArchivedSlidingTtl s => inr (inl s)
          | ArchivedAbsoluteExpiry n => inr (inr n)
          end)
    (λ x : unit + (Z + Z), match x with
          | inl _ => ArchivedNone
          | inr (inl s) => ArchivedSlidingTtl s
          | inr (inr n) => ArchivedAbsoluteExpiry n
          end)).
  by intros [].
Defined.

#[export] Instance LifecycleArchive_countable : Countable LifecycleArchive.
Proof.
  apply (inj_countable' (λ l, match l with ArchivedOpen => true | ArchivedClosed => false end)
    (λ b : bool, if b then ArchivedOpen else ArchivedClosed)).
  by intros [].
Defined.

#[export] Instance OwnerToken_countable : Countable OwnerToken.
Proof. apply (inj_countable' generation Build_OwnerToken). by intros []. Defined.

#[export] Instance ArchivedFact_countable : Countable ArchivedFact.
Proof.
  apply (inj_countable'
    (λ f, match f with
          | ArchivedCreated p u c e l => inl (p, u, c, e, l)
          | ArchivedClosedFact p u => inr (inl (p, u))
          | ArchivedDeleted p u => inr (inr (p, u))
          end)
    (λ x, match x with
          | inl (p, u, c, e, l) => ArchivedCreated p u c e l
          | inr (inl (p, u)) => ArchivedClosedFact p u
          | inr (inr (p, u)) => ArchivedDeleted p u
          end)).
  by intros [].
Defined.

#[export] Instance ArchivedWalBody_countable : Countable ArchivedWalBody.
Proof.
  apply (inj_countable'
    (λ b, match b with ArchivedRun f => Some f | ArchivedFence => None end)
    (λ o, match o with Some f => ArchivedRun f | None => ArchivedFence end)).
  by intros [].
Defined.

#[export] Instance Octets_countable : Countable Octets := _.

#[export] Instance ArchivedWalObject_countable : Countable ArchivedWalObject.
Proof.
  apply (inj_countable'
    (λ o, (archived_wal_partition o, archived_wal_batch o, archived_wal_owner o,
           archived_wal_body o))
    (λ '(p, b, w, d), mk_archived_wal p b w d)).
  by intros [].
Defined.

#[export] Instance StoreKind_countable : Countable StoreKind.
Proof.
  apply (inj_countable'
    (λ s, match s with Directory => (true, true) | Ledger => (true, false)
                     | Tally => (false, true) | Annals => (false, false) end)
    (λ b, match b with (true, true) => Directory | (true, false) => Ledger
                     | (false, true) => Tally | (false, false) => Annals end)).
  by intros [].
Defined.

#[export] Instance AttemptId_countable : Countable AttemptId.
Proof.
  apply (inj_countable' (λ a, (owner_claim a, local_counter a)) (λ '(o, c), mk_attempt o c)).
  by intros [].
Defined.

#[export] Instance ArchivedTable_countable : Countable ArchivedTable.
Proof.
  apply (inj_countable'
    (λ t, (archived_birth t, archived_attempt t, archived_ordinal t, archived_store t,
           archived_object_bytes t))
    (λ '(b, a, o, s, n), mk_archived_table b a o s n)).
  by intros [].
Defined.

#[export] Instance WalReplayPoint_countable : Countable WalReplayPoint.
Proof.
  apply (inj_countable'
    (λ r, match r with Genesis => None | Through b o => Some (b, o) end)
    (λ x, match x with None => Genesis | Some (b, o) => Through b o end)).
  by intros [].
Defined.

#[export] Instance ArchivedSeal_countable : Countable ArchivedSeal.
Proof.
  apply (inj_countable'
    (λ s, (archived_seal_partition s, archived_seal_generation s, archived_seal_replay s,
           archived_seal_directory s, archived_seal_ledger s))
    (λ '(p, g, r, d, l), mk_archived_seal p g r d l)).
  by intros [].
Defined.

Definition reference_rkyv (R : Type) `{Countable R} : Rkyv R := {|
  rkyv_writes r := [[Z.pos (countable.encode r)]];
  rkyv_access bytes :=
    match bytes with
    | [Z.pos p] => countable.decode p
    | _ => None
    end
|}.

Lemma reference_rkyv_laws (R : Type) `{Countable R} : @RkyvLaws R (reference_rkyv R).
Proof. split; intros r; [apply decode_encode|done]. Qed.

Definition reference_heap : Heap := λ _ _, true.
Lemma reference_heap_laws : @HeapLaws reference_heap.
Proof. by split. Qed.

Definition reference_jiff : Jiff := {|
  timestamp_in_range n := (-377705023201000000000 <=? n) && (n <=? 253402207200999999999);
  timestamp_parse _ := None
|}.

(** * Decoded identity *)

Lemma decode_wal_encoded `{Jiff} `{HeapLaws} `{RL : RkyvLaws ArchivedWalObject}
    (object : WalObject) (bytes : list Z) :
  body_in_range (wal_body object) → encode_wal object = Ok bytes →
  decode_wal (wal_partition object) (wal_batch object) bytes = Ret (Ok object).
Proof.
  intros Hr He. apply encode_inv in He as [-> Hlen]; [|unfold_bounds; lia].
  unfold decode_wal, decode_bound. rewrite (proj2 (Z.ltb_ge _ _)) by done. cbn [try_bind].
  rewrite rkyv_roundtrip. cbn [ok_or try_bind archive_wal archived_wal_partition
    archived_wal_batch archived_wal_owner archived_wal_body].
  rewrite decode_partition_ok. cbn [try_bind].
  rewrite !bool_decide_eq_true_2 by done. cbn [negb orb].
  rewrite decode_body_ok by done. cbn [try_bind]. by destruct object.
Qed.

Lemma EncodedWal_new_Ok `{Heap} `{Rkyv ArchivedWalObject} object candidate :
  EncodedWal_new object = Ret (Ok candidate) →
  encoded_wal_partition candidate = wal_partition object ∧
  encoded_wal_batch candidate = wal_batch object ∧
  encode_wal object = Ok (encoded_wal_bytes candidate) ∧
  candidate_bytes_ok (encoded_wal_bytes candidate) WAL_ENCODED_BYTES_MAX = true.
Proof.
  unfold EncodedWal_new. destruct (encode_wal object) as [bytes|]; cbn [try_bind]; [|done].
  destruct (candidate_bytes_ok bytes _) eqn:Hc; [|done]. by intros [= <-].
Qed.

Lemma EncodedSeal_new_Ok `{Heap} `{Rkyv ArchivedSeal} seal seal' bytes :
  EncodedSeal_new seal = Ret (Ok (seal', bytes)) →
  seal' = seal ∧ encode_seal seal = Ok bytes ∧ candidate_bytes_ok bytes SEAL_ENCODED_BYTES_MAX = true.
Proof.
  unfold EncodedSeal_new. destruct (encode_seal seal) as [b|]; cbn [try_bind]; [|done].
  destruct (candidate_bytes_ok b _) eqn:Hc; [|done]. by intros [= <- <-].
Qed.

(** What a decoder returns has the identity it was asked for; it never panics. *)
Lemma decode_wal_checked `{Jiff} `{Rkyv ArchivedWalObject}
    (partition : PartitionId) (batch : BatchId) (bytes : list Z) :
  match decode_wal partition batch bytes with
  | Panic => False
  | Ret (Err _) => True
  | Ret (Ok object) =>
      wal_partition object = partition ∧ wal_batch object = batch ∧
      zlen bytes ≤ WAL_ENCODED_BYTES_MAX ∧
      match wal_body object with
      | Run facts => 1 ≤ zlen (facts_slice facts) ≤ WAL_RUN_FACTS_MAX
      | Fence => True
      end
  end.
Proof.
  unfold decode_wal, decode_bound.
  destruct (Z.ltb_spec WAL_ENCODED_BYTES_MAX (zlen bytes)) as [|Hlen]; cbn [try_bind]; [done|].
  destruct (rkyv_access bytes) as [a|]; cbn [ok_or try_bind]; [|done].
  destruct (decode_partition _) as [p|]; cbn [try_bind]; [|done].
  destruct (bool_decide (p = partition)) eqn:Hp; cbn [negb orb]; [|done].
  apply bool_decide_eq_true in Hp as ->.
  destruct (bool_decide (archived_wal_batch a = batch)) eqn:Hb; cbn [negb]; [|done].
  apply bool_decide_eq_true in Hb as ->.
  destruct (decode_body (archived_wal_body a)) as [[body|]|] eqn:Hd; cbn [try_bind]; [|done|].
  - simpl. split_and!; [done..|]. destruct body as [facts|]; [|done].
    destruct (WalFacts_bounds facts) as [Hne Hl]. split; [|done].
    unfold zlen in *. destruct (facts_slice facts); [done|]. simpl. lia.
  - exact (decode_body_no_panic _ Hd).
Qed.

Lemma decode_run_no_panic tables : decode_run tables ≠ Panic.
Proof.
  unfold decode_run. destruct (_ || _); [done|].
  pose proof (try_each_no_panic decode_table_ref tables) as H.
  destruct (try_each decode_table_ref tables) as [[ts|]|]; cbn [try_bind]; [done|done|].
  exfalso. apply H; [|done]. intros t. unfold decode_table_ref. by destruct (decode_table_object t).
Qed.

Lemma decode_tree_no_panic runs : decode_tree runs ≠ Panic.
Proof.
  unfold decode_tree. destruct (_ <? _); [done|].
  pose proof (try_each_no_panic decode_run runs decode_run_no_panic) as H.
  by destruct (try_each decode_run runs) as [[rs|]|].
Qed.

Lemma decode_seal_checked `{Rkyv ArchivedSeal} (generation : SealGeneration) (bytes : list Z) :
  match decode_seal generation bytes with
  | Panic => False
  | Ret (Err _) => True
  | Ret (Ok seal) => seal_generation seal = generation
  end.
Proof.
  unfold decode_seal. destruct (decode_bound _ _); cbn [try_bind]; [|done].
  destruct (rkyv_access bytes) as [archived|]; cbn [ok_or try_bind]; [|done].
  destruct (decode_partition _) as [p|]; cbn [try_bind]; [|done].
  case_bool_decide as Hg; [|done]. unfold decode_archived_seal.
  pose proof (decode_tree_no_panic (archived_seal_directory archived)).
  pose proof (decode_tree_no_panic (archived_seal_ledger archived)).
  destruct (decode_tree (archived_seal_directory archived)) as [[d|]|]; cbn [try_bind]; [|done|done].
  destruct (decode_tree (archived_seal_ledger archived)) as [[l|]|]; cbn [try_bind]; [|done|done].
  destruct (Seal_new _ _ _ _ _) as [seal|] eqn:Hs; [|done]. cbn [map_err].
  apply Seal_new_Ok in Hs. unfold seal_generation. by rewrite Hs.
Qed.

(** * Properties *)

(** C36: a WAL object decodes from its own bytes at its own location to itself;
    at any other partition or batch the same bytes are refused as a location
    mismatch. *)
Theorem wal_codec_roundtrip `{Jiff} `{HeapLaws}
    `{RL : RkyvLaws ArchivedWalObject} (object : WalObject) (bytes : list Z) :
  body_in_range (wal_body object) →
  encode_wal object = Ok bytes →
  decode_wal (wal_partition object) (wal_batch object) bytes = Ret (Ok object) ∧
  ∀ partition batch, (partition, batch) ≠ (wal_partition object, wal_batch object) →
    decode_wal partition batch bytes = Ret (Err IdentityMismatch).
Proof.
  intros Hr He. split; [by apply decode_wal_encoded|].
  apply encode_inv in He as [-> Hlen]; [|unfold_bounds; lia].
  unfold decode_wal, decode_bound. rewrite (proj2 (Z.ltb_ge _ _)) by done. cbn [try_bind].
  rewrite rkyv_roundtrip. cbn [ok_or try_bind archive_wal archived_wal_partition
    archived_wal_batch archived_wal_owner archived_wal_body].
  rewrite decode_partition_ok. cbn [try_bind]. intros partition batch Hne.
  destruct (bool_decide (wal_partition object = partition)) eqn:Hp; [|done].
  apply bool_decide_eq_true in Hp as <-. cbn [negb orb].
  rewrite bool_decide_eq_false_2; [done|]. congruence.
Qed.

(** Whatever bytes a store returns, decoding a WAL object does not panic, and
    a decoded object has the identity of the location it was read from and a
    non-empty run of at most 4096 facts. *)
Theorem decode_wal_identity `{Jiff} `{Rkyv ArchivedWalObject}
    (partition : PartitionId) (batch : BatchId) (bytes : list Z) :
  match decode_wal partition batch bytes with
  | Panic => False
  | Ret (Err _) => True
  | Ret (Ok object) =>
      wal_partition object = partition ∧ wal_batch object = batch ∧
      zlen bytes ≤ WAL_ENCODED_BYTES_MAX ∧
      match wal_body object with
      | Run facts => 1 ≤ zlen (facts_slice facts) ≤ WAL_RUN_FACTS_MAX
      | Fence => True
      end
  end.
Proof. apply decode_wal_checked. Qed.

(** A one-fact run, written by the owner of generation 2. *)
Definition sample_octets : Octets :=
  mk_refined (P := is_octets) [1; 0; 0; 0; 0; 0; 0; 0; 0; 0; 0; 0; 0; 0; 0; 7] I.
Definition sample_partition : PartitionId :=
  mk_refined (P := accepts partition_check) sample_octets I.
Definition generation_no (n : Z) (H : Is_true (nonzero_u64 n)) : SealGeneration :=
  mk_coord (mk_refined n H).
Definition sample_facts : WalFacts :=
  mk_refined (P := accepts facts_check)
    [StreamDeleted (mk_refined (P := accepts StreamPath_validate) (lit "a") I)
       (mk_coord (mk_refined (P := nonzero_u64) 1 I))] I.
Definition sample_run : WalObject :=
  mk_wal_object sample_partition (mk_coord (mk_refined (P := nonzero_u64) 9 I))
    {| generation := generation_no 2 I |} (Run sample_facts).

Lemma wal_codec_roundtrip_witness :
  ∃ bytes,
    @encode_wal reference_heap (reference_rkyv _) sample_run = Ok bytes ∧
    @decode_wal reference_jiff (reference_rkyv _) (wal_partition sample_run)
      (wal_batch sample_run) bytes = Ret (Ok sample_run).
Proof.
  exists (@rkyv_bytes _ (reference_rkyv _) (archive_wal sample_run)).
  assert (He : @encode_wal reference_heap (reference_rkyv _) sample_run =
    Ok (@rkyv_bytes _ (reference_rkyv _) (archive_wal sample_run))) by reflexivity.
  split; [exact He|].
  apply (@wal_codec_roundtrip reference_jiff reference_heap reference_heap_laws
    (reference_rkyv _) (reference_rkyv_laws _) sample_run _); [|exact He].
  repeat constructor.
Defined.

Lemma decode_seal_encoded `{HeapLaws} `{RL : RkyvLaws ArchivedSeal} (seal : Seal) (bytes : list Z) :
  encode_seal seal = Ok bytes → decode_seal (seal_generation seal) bytes = Ret (Ok seal).
Proof.
  intros He. apply encode_inv in He as [-> Hlen]; [|unfold_bounds; lia].
  unfold decode_seal, decode_bound. rewrite (proj2 (Z.ltb_ge _ _)) by done. cbn [try_bind].
  rewrite rkyv_roundtrip. cbn [ok_or try_bind].
  change (archived_seal_partition (archive_seal seal)) with (content (seal_partition seal)).
  change (archived_seal_generation (archive_seal seal)) with (seal_generation seal).
  rewrite decode_partition_ok. cbn [try_bind]. rewrite bool_decide_eq_true_2 by done.
  apply decode_archived_seal_ok.
Qed.

(** C37: a Seal decodes from its own bytes at its own generation to itself, and the
    same bytes are refused at any other generation. *)
Theorem seal_codec_roundtrip `{HeapLaws}
    `{RL : RkyvLaws ArchivedSeal} (seal : Seal) (bytes : list Z) :
  encode_seal seal = Ok bytes →
  decode_seal (seal_generation seal) bytes = Ret (Ok seal) ∧
  ∀ generation, generation ≠ seal_generation seal →
    decode_seal generation bytes = Ret (Err IdentityMismatch).
Proof.
  intros He. split; [by apply decode_seal_encoded|]. intros g Hg.
  apply encode_inv in He as [-> Hlen]; [|unfold_bounds; lia].
  unfold decode_seal, decode_bound. rewrite (proj2 (Z.ltb_ge _ _)) by done. cbn [try_bind].
  rewrite rkyv_roundtrip. cbn [ok_or try_bind].
  change (archived_seal_partition (archive_seal seal)) with (content (seal_partition seal)).
  change (archived_seal_generation (archive_seal seal)) with (seal_generation seal).
  rewrite decode_partition_ok. cbn [try_bind]. by rewrite bool_decide_eq_false_2 by done.
Qed.

Definition sample_seal : Seal :=
  mk_refined (P := accepts seal_check)
    (mk_seal sample_partition genesis_generation Genesis tree_empty tree_empty) I.

Lemma seal_codec_roundtrip_witness :
  ∃ bytes,
    @encode_seal reference_heap (reference_rkyv _) sample_seal = Ok bytes ∧
    @decode_seal (reference_rkyv _) (seal_generation sample_seal) bytes = Ret (Ok sample_seal).
Proof.
  exists (@rkyv_bytes _ (reference_rkyv _) (archive_seal sample_seal)).
  assert (He : @encode_seal reference_heap (reference_rkyv _) sample_seal =
    Ok (@rkyv_bytes _ (reference_rkyv _) (archive_seal sample_seal))) by reflexivity.
  split; [exact He|].
  apply (@seal_codec_roundtrip reference_heap reference_heap_laws
    (reference_rkyv _) (reference_rkyv_laws _) sample_seal _ He).
Defined.
