(* ===== verification/Writer.v ===== *)
(** The writer machine: admission to durability (crate [strom-storage-protocol],
    files [writer.rs] and [outcome.rs]).

    The machine is pure: it consumes one observation and returns the ordered work
    it causes.  Every [&mut self] method is a function that returns the updated
    machine; [assert!], [expect] and [panic!] are the value [Panic].

    Two runtime values are abstracted.  A oneshot reply sender is its identity
    (a number).  A forest carries the identity of its shared map roots
    ([Rooted]), because the machine asserts pointer equality at quiescence: a
    clone keeps the root, and a successful fold, which copies the nodes it
    shares, gets a new one from the counter [w_next_root]. *)

From S2P Require Import Prelude OrdMap Text Domain Coordinates Partition Seal Wal Forest.
From S2P Require Import ForestTheory Archive.

(** * Outcomes of effects *)

(** strom-storage-protocol/src/outcome.rs:11-20, [TypedStoreError]. *)
Inductive TypedStoreError : Type :=
| Retryable (detail : str)
| Rejected (detail : str)
| StoreContradiction (detail : str).

(** strom-storage-protocol/src/outcome.rs:3-9, [GenesisEstablishment]. *)
Inductive GenesisEstablishment : Type :=
| GenesisEstablished | GenesisLostRace | GenesisUnresolved.

(** strom-storage-protocol/src/outcome.rs:22-28, [WalEstablishment]. *)
Inductive WalEstablishment : Type := WalDurable | WalOccupied | UnresolvedAbsent.

(** strom-storage-protocol/src/outcome.rs:30-36, [SealPublication]. *)
Inductive SealPublication : Type := Authored | NoAuthority | PublicationUnresolved.

(** * Commands and completions *)

(** strom-storage-protocol/src/writer.rs:25-31, [CreateStream]. *)
Record CreateStream : Type := mk_create {
  create_path : StreamPath;
  create_content_type : StreamContentType;
  create_expiry : ExpiryPolicy;
  create_lifecycle : StreamLifecycle
}.

(** strom-storage-protocol/src/writer.rs:33-44, [AdmissionRefusal]. *)
Inductive AdmissionRefusal : Type :=
| RefusedPathOccupied
| RefusedPathCapacityExhausted
| RefusedPathNotLive
| Overloaded.

#[export] Instance AdmissionRefusal_eq_dec : EqDecision AdmissionRefusal.
Proof. solve_decision. Defined.

(** A oneshot sender, by its identity. *)
Abbreviation Reply := nat.

(** strom-storage-protocol/src/writer.rs:46-60, [CommandEnvelope]. *)
Inductive CommandEnvelope : Type :=
| CommandCreate (command : CreateStream) (reply : Reply)
| CommandClose (path : StreamPath) (reply : Reply)
| CommandDelete (path : StreamPath) (reply : Reply).

(** strom-storage-protocol/src/writer.rs:62-76, [Completion]. *)
Inductive Completion : Type :=
| CompletionCreate (outcome : Result AdmissionRefusal CreateOutcome) (reply : Reply)
| CompletionClose (outcome : Result AdmissionRefusal CloseStreamOutcome) (reply : Reply)
| CompletionDelete (outcome : Result AdmissionRefusal unit) (reply : Reply).

(** strom-storage-protocol/src/writer.rs:1219-1236, [Completion::refusal]. *)
Definition completion_refusal (completion : Completion) (refusal : AdmissionRefusal) :
    Completion :=
  match completion with
  | CompletionCreate _ reply => CompletionCreate (Err refusal) reply
  | CompletionClose _ reply => CompletionClose (Err refusal) reply
  | CompletionDelete _ reply => CompletionDelete (Err refusal) reply
  end.

(** * Checkpoints *)

(** strom-storage-protocol/src/writer.rs:78-110, [CheckpointTicket]. *)
Record CheckpointTicket : Type := mk_ticket {
  ticket_source : SealGeneration;
  ticket_cut : BatchId;
  ticket_attempt : AttemptId
}.

#[export] Instance CheckpointTicket_eq_dec : EqDecision CheckpointTicket.
Proof. solve_decision. Defined.

#[export] Instance CheckpointTicket_countable : Countable CheckpointTicket.
Proof.
  apply (inj_countable' (λ t, (ticket_source t, ticket_cut t, ticket_attempt t))
    (λ '(s, c, a), mk_ticket s c a)).
  by intros [].
Defined.

(** strom-storage-protocol/src/writer.rs:112-119, [CheckpointInput]. *)
Record CheckpointInput : Type := mk_input {
  input_ticket : CheckpointTicket;
  input_source : Seal;
  input_base : Forest;
  input_snapshot : Forest
}.

(** strom-storage-protocol/src/writer.rs:121-138, [CheckpointInput::new]. *)
Definition CheckpointInput_new (ticket : CheckpointTicket) (source : Seal)
    (base snapshot : Forest) : Exec CheckpointInput :=
  assert! bool_decide (ticket_source ticket = seal_generation source) in
  Ret (mk_input ticket source base snapshot).

(** strom-storage-protocol/src/writer.rs:151-158, [PreparedCheckpoint]. *)
Record PreparedCheckpoint : Type := mk_prepared {
  prepared_source : Seal;
  prepared_successor : Seal;
  prepared_snapshot : Forest;
  prepared_candidate : EncodedAuthoritySeal
}.

(** strom-storage-protocol/src/writer.rs:160-214, [PreparedCheckpoint::new]. *)
Definition PreparedCheckpoint_new (ticket : CheckpointTicket) (source successor : Seal)
    (snapshot : Forest) (candidate : EncodedAuthoritySeal) : Exec PreparedCheckpoint :=
  assert! bool_decide (ticket_source ticket = seal_generation source) in
  assert! bool_decide (seal_partition source = seal_partition successor) in
  assert! (match Coordinates.successor (seal_generation source) with
           | Ok generation => bool_decide (generation = seal_generation successor)
           | Err _ => false
           end) in
  assert! bool_decide
    (Through (ticket_cut ticket) {| generation := owner_claim (ticket_attempt ticket) |}
     = seal_replay successor) in
  assert! (match replay_batch (seal_replay source) with
           | None => true
           | Some source_cut => coord_ltb source_cut (ticket_cut ticket)
           end) in
  assert! bool_decide (authority_seal candidate = successor) in
  Ret (mk_prepared source successor snapshot candidate).

(** strom-storage-protocol/src/writer.rs:222-228, [PreparationOutcome]. *)
Inductive PreparationOutcome : Type :=
| Prepared (prepared : PreparedCheckpoint)
| Abandoned
| PreparationContradiction (detail : str).

(** strom-storage-protocol/src/writer.rs:278-287, [CollectionInput]. *)
Record CollectionInput : Type := mk_collection {
  collection_cut : BatchId;
  collection_source : Seal;
  collection_successor : Seal
}.

(** strom-storage-protocol/src/writer.rs:289-309, [CollectionInput::from_authored]. *)
Definition from_authored (prepared : PreparedCheckpoint) : Exec (Forest * CollectionInput) :=
  let! cut := expect (replay_batch (seal_replay (prepared_successor prepared))) in
  Ret (prepared_snapshot prepared,
       mk_collection cut (prepared_source prepared) (prepared_successor prepared)).

(** * Events and outputs *)

(** strom-storage-protocol/src/writer.rs:230-255, [WriterEvent]. *)
Inductive WriterEvent : Type :=
| Started
| Command (envelope : CommandEnvelope)
| FlushDue
| IngressClosed
| WalEstablished (batch : BatchId) (result : Result TypedStoreError WalEstablishment)
| CheckpointPrepared (ticket : CheckpointTicket) (outcome : PreparationOutcome)
| SealPublished (ticket : CheckpointTicket) (result : Result TypedStoreError SealPublication)
| CollectFinished (cut : BatchId)
| CheckpointPreparationCancelled (ticket : CheckpointTicket).

(** strom-storage-protocol/src/writer.rs:257-264, [EffectKey]. *)
Inductive EffectKey : Type :=
| KeyWal (batch : BatchId)
| KeyCheckpointPreparation (ticket : CheckpointTicket)
| KeySealPublication (ticket : CheckpointTicket)
| KeyCollection (cut : BatchId).

#[export] Instance EffectKey_eq_dec : EqDecision EffectKey.
Proof. solve_decision. Defined.

(** strom-storage-protocol/src/writer.rs:266-276, [WriterEffect]. *)
Inductive WriterEffect : Type :=
| EstablishWal (candidate : EncodedWal)
| PrepareCheckpoint (input : CheckpointInput)
| PublishAuthority (ticket : CheckpointTicket) (candidate : EncodedAuthoritySeal)
| Collect (input : CollectionInput).

(** strom-storage-protocol/src/writer.rs:327-347, [WriterEffect::key]. *)
Definition effect_key (effect : WriterEffect) : EffectKey :=
  match effect with
  | EstablishWal candidate => KeyWal (encoded_wal_batch candidate)
  | PrepareCheckpoint input => KeyCheckpointPreparation (input_ticket input)
  | PublishAuthority ticket _ => KeySealPublication ticket
  | Collect input => KeyCollection (collection_cut input)
  end.

(** strom-storage-protocol/src/writer.rs:349-356, [WriterAction]. *)
Inductive WriterAction : Type :=
| ArmFlush (deadline : Z)
| PublishView (view : Forest)
| SendReplies (replies : list Completion)
| CancelCheckpointPreparation (ticket : CheckpointTicket).

(** strom-storage-protocol/src/writer.rs:358-363, [WriterOutput]. *)
Inductive WriterOutput : Type :=
| Effect (effect : WriterEffect)
| Action (action : WriterAction).

(** strom-storage-protocol/src/writer.rs:379-390, [WriterExit]. *)
Inductive WriterExit : Type :=
| Shutdown
| Fenced (batch : BatchId)
| Poisoned (batch : BatchId) (detail : str)
| WriterContradiction (batch : BatchId) (detail : str).

(** strom-storage-protocol/src/writer.rs:365-377, [WriterStep]. *)
Record WriterStep : Type := mk_step {
  step_outputs : list WriterOutput;
  step_exit : option WriterExit
}.

(** strom-storage-protocol/src/writer.rs:22-23, [WRITER_OUTPUTS_PER_STEP_MAX]. *)
Definition WRITER_OUTPUTS_PER_STEP_MAX : Z := 4.

(** * State *)

(** strom-storage-protocol/src/writer.rs:392-397, [AuthoredClaim]. *)
Record AuthoredClaim : Type := mk_claim {
  claim_generation : SealGeneration;
  claim_owner : OwnerToken
}.

(** strom-storage-protocol/src/writer.rs:426-444, [AuthoredClaim::new]. *)
Definition AuthoredClaim_new (generation : SealGeneration) : AuthoredClaim :=
  mk_claim generation {| generation := generation |}.

(** strom-storage-protocol/src/writer.rs:399-407, [WriterRecovery]. *)
Record WriterRecovery : Type := mk_recovery {
  recovery_claim : AuthoredClaim;
  recovery_seal : Seal;
  recovery_base : Forest;
  recovery_durable : Forest;
  recovery_durable_batch : BatchId
}.

(** strom-storage-protocol/src/writer.rs:446-458, [CheckpointMarker]. *)
Inductive CheckpointMarker : Type :=
| Preparing (ticket : CheckpointTicket)
| Cancelling (ticket : CheckpointTicket)
| Publishing (ticket : CheckpointTicket) (prepared : PreparedCheckpoint).

(** A forest with the identity of its shared roots. *)
Record Rooted : Type := mk_rooted { forest_of : Forest; root_of : nat }.

(** strom-storage-protocol/src/forest.rs:275-278, [Forest::shares_roots_with]. *)
Definition shares_roots_with (self other : Rooted) : bool :=
  bool_decide (root_of self = root_of other).

(** strom-storage-protocol/src/writer.rs:484-489, [PendingCommand]. *)
Record PendingCommand : Type := mk_pending {
  pending_fact : option OperationFact;
  pending_completion : Completion
}.

(** strom-storage-protocol/src/writer.rs:491-495, [PendingBarrier]. *)
Record PendingBarrier : Type := mk_barrier {
  barrier_commands : list PendingCommand;
  facts_bytes_estimated : Z
}.

(** strom-storage-protocol/src/writer.rs:497-503, [PendingBarrier::new]. *)
Definition barrier_new : PendingBarrier := mk_barrier [] 0.

(** strom-storage-protocol/src/writer.rs:509-518, [PendingBarrier::push_fact]. *)
Definition push_fact (self : PendingBarrier) (fact : OperationFact) (completion : Completion) :
    Exec PendingBarrier :=
  let! estimated :=
    expect (u64_checked_add (facts_bytes_estimated self) (estimated_encoded_bytes fact)) in
  Ret (mk_barrier (barrier_commands self ++ [mk_pending (Some fact) completion]) estimated).

(** strom-storage-protocol/src/writer.rs:520-525, [PendingBarrier::push_idempotent]. *)
Definition push_idempotent (self : PendingBarrier) (completion : Completion) : PendingBarrier :=
  mk_barrier (barrier_commands self ++ [mk_pending None completion]) (facts_bytes_estimated self).

(** strom-storage-protocol/src/writer.rs:527-531, [PendingBarrier::bytes_estimated]. *)
Definition bytes_estimated (self : PendingBarrier) : Exec Z :=
  expect (u64_checked_add WAL_RUN_FIXED_ENCODED_BYTES_MAX (facts_bytes_estimated self)).

(** strom-storage-protocol/src/writer.rs:533-543, [PendingBarrier::has_facts, is_empty and len]. *)
Definition has_facts (self : PendingBarrier) : bool := 0 <? facts_bytes_estimated self.
Definition barrier_is_empty (self : PendingBarrier) : bool :=
  bool_decide (barrier_commands self = []).
Definition barrier_len (self : PendingBarrier) : Z := zlen (barrier_commands self).

(** strom-storage-protocol/src/writer.rs:546-551, [InFlight]. *)
Record InFlight : Type := mk_flight {
  flight_batch : BatchId;
  flight_forest : Rooted;
  flight_replies : list Completion
}.

(** strom-storage-protocol/src/writer.rs:460-482, [WriterMachine]. *)
Record WriterMachine : Type := mk_machine {
  w_started : bool;
  w_claim : AuthoredClaim;
  w_seal : Seal;
  w_base : Forest;
  w_admitted : Rooted;
  w_durable : Rooted;
  w_durable_batch : BatchId;
  w_next_batch : BatchId;
  w_pending : PendingBarrier;
  w_flight : option InFlight;
  w_flush_interval_min : Z;
  w_flush_buffer_bytes : Z;
  w_last_flush_started_at : option Z;
  w_flush_armed : bool;
  w_checkpoint_attempt : Z;
  w_last_checkpoint_attempted_cut : option BatchId;
  w_retry_checkpoint_at : option BatchId;
  w_checkpoint : option CheckpointMarker;
  w_collector : option BatchId;
  w_ingress_open : bool;
  w_next_root : nat
}.

Definition set_started (x : bool) (m : WriterMachine) : WriterMachine :=
  mk_machine x (w_claim m) (w_seal m) (w_base m) (w_admitted m) (w_durable m)
    (w_durable_batch m) (w_next_batch m) (w_pending m) (w_flight m) (w_flush_interval_min m)
    (w_flush_buffer_bytes m) (w_last_flush_started_at m) (w_flush_armed m)
    (w_checkpoint_attempt m) (w_last_checkpoint_attempted_cut m) (w_retry_checkpoint_at m)
    (w_checkpoint m) (w_collector m) (w_ingress_open m) (w_next_root m).
Definition set_seal (x : Seal) (m : WriterMachine) : WriterMachine :=
  mk_machine (w_started m) (w_claim m) x (w_base m) (w_admitted m) (w_durable m)
    (w_durable_batch m) (w_next_batch m) (w_pending m) (w_flight m) (w_flush_interval_min m)
    (w_flush_buffer_bytes m) (w_last_flush_started_at m) (w_flush_armed m)
    (w_checkpoint_attempt m) (w_last_checkpoint_attempted_cut m) (w_retry_checkpoint_at m)
    (w_checkpoint m) (w_collector m) (w_ingress_open m) (w_next_root m).
Definition set_base (x : Forest) (m : WriterMachine) : WriterMachine :=
  mk_machine (w_started m) (w_claim m) (w_seal m) x (w_admitted m) (w_durable m)
    (w_durable_batch m) (w_next_batch m) (w_pending m) (w_flight m) (w_flush_interval_min m)
    (w_flush_buffer_bytes m) (w_last_flush_started_at m) (w_flush_armed m)
    (w_checkpoint_attempt m) (w_last_checkpoint_attempted_cut m) (w_retry_checkpoint_at m)
    (w_checkpoint m) (w_collector m) (w_ingress_open m) (w_next_root m).
Definition set_admitted (x : Rooted) (m : WriterMachine) : WriterMachine :=
  mk_machine (w_started m) (w_claim m) (w_seal m) (w_base m) x (w_durable m)
    (w_durable_batch m) (w_next_batch m) (w_pending m) (w_flight m) (w_flush_interval_min m)
    (w_flush_buffer_bytes m) (w_last_flush_started_at m) (w_flush_armed m)
    (w_checkpoint_attempt m) (w_last_checkpoint_attempted_cut m) (w_retry_checkpoint_at m)
    (w_checkpoint m) (w_collector m) (w_ingress_open m) (w_next_root m).
Definition set_durable (x : Rooted) (m : WriterMachine) : WriterMachine :=
  mk_machine (w_started m) (w_claim m) (w_seal m) (w_base m) (w_admitted m) x
    (w_durable_batch m) (w_next_batch m) (w_pending m) (w_flight m) (w_flush_interval_min m)
    (w_flush_buffer_bytes m) (w_last_flush_started_at m) (w_flush_armed m)
    (w_checkpoint_attempt m) (w_last_checkpoint_attempted_cut m) (w_retry_checkpoint_at m)
    (w_checkpoint m) (w_collector m) (w_ingress_open m) (w_next_root m).
Definition set_durable_batch (x : BatchId) (m : WriterMachine) : WriterMachine :=
  mk_machine (w_started m) (w_claim m) (w_seal m) (w_base m) (w_admitted m) (w_durable m) x
    (w_next_batch m) (w_pending m) (w_flight m) (w_flush_interval_min m)
    (w_flush_buffer_bytes m) (w_last_flush_started_at m) (w_flush_armed m)
    (w_checkpoint_attempt m) (w_last_checkpoint_attempted_cut m) (w_retry_checkpoint_at m)
    (w_checkpoint m) (w_collector m) (w_ingress_open m) (w_next_root m).
Definition set_next_batch (x : BatchId) (m : WriterMachine) : WriterMachine :=
  mk_machine (w_started m) (w_claim m) (w_seal m) (w_base m) (w_admitted m) (w_durable m)
    (w_durable_batch m) x (w_pending m) (w_flight m) (w_flush_interval_min m)
    (w_flush_buffer_bytes m) (w_last_flush_started_at m) (w_flush_armed m)
    (w_checkpoint_attempt m) (w_last_checkpoint_attempted_cut m) (w_retry_checkpoint_at m)
    (w_checkpoint m) (w_collector m) (w_ingress_open m) (w_next_root m).
Definition set_pending (x : PendingBarrier) (m : WriterMachine) : WriterMachine :=
  mk_machine (w_started m) (w_claim m) (w_seal m) (w_base m) (w_admitted m) (w_durable m)
    (w_durable_batch m) (w_next_batch m) x (w_flight m) (w_flush_interval_min m)
    (w_flush_buffer_bytes m) (w_last_flush_started_at m) (w_flush_armed m)
    (w_checkpoint_attempt m) (w_last_checkpoint_attempted_cut m) (w_retry_checkpoint_at m)
    (w_checkpoint m) (w_collector m) (w_ingress_open m) (w_next_root m).
Definition set_flight (x : option InFlight) (m : WriterMachine) : WriterMachine :=
  mk_machine (w_started m) (w_claim m) (w_seal m) (w_base m) (w_admitted m) (w_durable m)
    (w_durable_batch m) (w_next_batch m) (w_pending m) x (w_flush_interval_min m)
    (w_flush_buffer_bytes m) (w_last_flush_started_at m) (w_flush_armed m)
    (w_checkpoint_attempt m) (w_last_checkpoint_attempted_cut m) (w_retry_checkpoint_at m)
    (w_checkpoint m) (w_collector m) (w_ingress_open m) (w_next_root m).
Definition set_last_flush_started_at (x : option Z) (m : WriterMachine) : WriterMachine :=
  mk_machine (w_started m) (w_claim m) (w_seal m) (w_base m) (w_admitted m) (w_durable m)
    (w_durable_batch m) (w_next_batch m) (w_pending m) (w_flight m) (w_flush_interval_min m)
    (w_flush_buffer_bytes m) x (w_flush_armed m) (w_checkpoint_attempt m)
    (w_last_checkpoint_attempted_cut m) (w_retry_checkpoint_at m) (w_checkpoint m)
    (w_collector m) (w_ingress_open m) (w_next_root m).
Definition set_flush_armed (x : bool) (m : WriterMachine) : WriterMachine :=
  mk_machine (w_started m) (w_claim m) (w_seal m) (w_base m) (w_admitted m) (w_durable m)
    (w_durable_batch m) (w_next_batch m) (w_pending m) (w_flight m) (w_flush_interval_min m)
    (w_flush_buffer_bytes m) (w_last_flush_started_at m) x (w_checkpoint_attempt m)
    (w_last_checkpoint_attempted_cut m) (w_retry_checkpoint_at m) (w_checkpoint m)
    (w_collector m) (w_ingress_open m) (w_next_root m).
Definition set_checkpoint_attempt (x : Z) (m : WriterMachine) : WriterMachine :=
  mk_machine (w_started m) (w_claim m) (w_seal m) (w_base m) (w_admitted m) (w_durable m)
    (w_durable_batch m) (w_next_batch m) (w_pending m) (w_flight m) (w_flush_interval_min m)
    (w_flush_buffer_bytes m) (w_last_flush_started_at m) (w_flush_armed m) x
    (w_last_checkpoint_attempted_cut m) (w_retry_checkpoint_at m) (w_checkpoint m)
    (w_collector m) (w_ingress_open m) (w_next_root m).
Definition set_last_checkpoint_attempted_cut (x : option BatchId) (m : WriterMachine) : WriterMachine :=
  mk_machine (w_started m) (w_claim m) (w_seal m) (w_base m) (w_admitted m) (w_durable m)
    (w_durable_batch m) (w_next_batch m) (w_pending m) (w_flight m) (w_flush_interval_min m)
    (w_flush_buffer_bytes m) (w_last_flush_started_at m) (w_flush_armed m)
    (w_checkpoint_attempt m) x (w_retry_checkpoint_at m) (w_checkpoint m) (w_collector m)
    (w_ingress_open m) (w_next_root m).
Definition set_retry_checkpoint_at (x : option BatchId) (m : WriterMachine) : WriterMachine :=
  mk_machine (w_started m) (w_claim m) (w_seal m) (w_base m) (w_admitted m) (w_durable m)
    (w_durable_batch m) (w_next_batch m) (w_pending m) (w_flight m) (w_flush_interval_min m)
    (w_flush_buffer_bytes m) (w_last_flush_started_at m) (w_flush_armed m)
    (w_checkpoint_attempt m) (w_last_checkpoint_attempted_cut m) x (w_checkpoint m)
    (w_collector m) (w_ingress_open m) (w_next_root m).
Definition set_checkpoint (x : option CheckpointMarker) (m : WriterMachine) : WriterMachine :=
  mk_machine (w_started m) (w_claim m) (w_seal m) (w_base m) (w_admitted m) (w_durable m)
    (w_durable_batch m) (w_next_batch m) (w_pending m) (w_flight m) (w_flush_interval_min m)
    (w_flush_buffer_bytes m) (w_last_flush_started_at m) (w_flush_armed m)
    (w_checkpoint_attempt m) (w_last_checkpoint_attempted_cut m) (w_retry_checkpoint_at m) x
    (w_collector m) (w_ingress_open m) (w_next_root m).
Definition set_collector (x : option BatchId) (m : WriterMachine) : WriterMachine :=
  mk_machine (w_started m) (w_claim m) (w_seal m) (w_base m) (w_admitted m) (w_durable m)
    (w_durable_batch m) (w_next_batch m) (w_pending m) (w_flight m) (w_flush_interval_min m)
    (w_flush_buffer_bytes m) (w_last_flush_started_at m) (w_flush_armed m)
    (w_checkpoint_attempt m) (w_last_checkpoint_attempted_cut m) (w_retry_checkpoint_at m)
    (w_checkpoint m) x (w_ingress_open m) (w_next_root m).
Definition set_ingress_open (x : bool) (m : WriterMachine) : WriterMachine :=
  mk_machine (w_started m) (w_claim m) (w_seal m) (w_base m) (w_admitted m) (w_durable m)
    (w_durable_batch m) (w_next_batch m) (w_pending m) (w_flight m) (w_flush_interval_min m)
    (w_flush_buffer_bytes m) (w_last_flush_started_at m) (w_flush_armed m)
    (w_checkpoint_attempt m) (w_last_checkpoint_attempted_cut m) (w_retry_checkpoint_at m)
    (w_checkpoint m) (w_collector m) x (w_next_root m).
Definition set_next_root (x : nat) (m : WriterMachine) : WriterMachine :=
  mk_machine (w_started m) (w_claim m) (w_seal m) (w_base m) (w_admitted m) (w_durable m)
    (w_durable_batch m) (w_next_batch m) (w_pending m) (w_flight m) (w_flush_interval_min m)
    (w_flush_buffer_bytes m) (w_last_flush_started_at m) (w_flush_armed m)
    (w_checkpoint_attempt m) (w_last_checkpoint_attempted_cut m) (w_retry_checkpoint_at m)
    (w_checkpoint m) (w_collector m) (w_ingress_open m) x.

(** * Time *)

(** The largest [Duration], in nanoseconds. *)
Definition duration_max : Z := u64_max * 1000000000 + 999999999.

(** strom-common/src/monotonic_clock.rs:21-24, [MonotonicInstant::saturating_add]. *)
Definition instant_saturating_add (instant duration : Z) : Z :=
  Z.min (instant + duration) duration_max.

(** * Admission *)

(** strom-storage-protocol/src/writer.rs:1247-1250, [AdmittedCommand]. *)
Record AdmittedCommand : Type := mk_admitted {
  admitted_forest : Forest;
  admitted_fact : OperationFact
}.

(** strom-storage-protocol/src/writer.rs:1252-1255, [CreateAdmission]. *)
Inductive CreateAdmission : Type :=
| CreateFact (admitted : AdmittedCommand)
| CreateAlreadyExists.

(** strom-storage-protocol/src/writer.rs:1257-1260, [CloseAdmission]. *)
Inductive CloseAdmission : Type :=
| CloseFact (admitted : AdmittedCommand)
| CloseAlreadyClosed.

(** strom-storage-protocol/src/writer.rs:1238-1245, [Admission]. *)
Inductive Admission : Type :=
| AdmissionFact (admitted : AdmittedCommand) (completion : Completion)
| AdmissionIdempotent (completion : Completion)
| AdmissionRefused (completion : Completion).

(** strom-storage-protocol/src/writer.rs:1342-1351, [FoldContradiction::admission_refusal]. *)
Definition admission_refusal (contradiction : FoldContradiction) : option AdmissionRefusal :=
  match contradiction with
  | PathOccupied => Some RefusedPathOccupied
  | PathCapacityExhausted => Some RefusedPathCapacityExhausted
  | PathNotLive => Some RefusedPathNotLive
  | StreamAlreadyClosed | UidNotDenseSuccessor | PathUidMismatch => None
  end.

(** strom-storage-protocol/src/writer.rs:1353-1361, [resolve_live_uid]. *)
Definition resolve_live_uid (forest : Forest) (path : StreamPath) :
    Result AdmissionRefusal StreamUid :=
  match resolve forest path with
  | Some (Live uid) => Ok uid
  | Some (Tombstone _) | None => Err RefusedPathNotLive
  end.

(** strom-storage-protocol/src/writer.rs:1363-1378, [apply_fact]. *)
Definition apply_fact (admitted : Forest) (batch : BatchId) (fact : OperationFact) :
    Exec (Result AdmissionRefusal AdmittedCommand) :=
  let! folded := strict_fold admitted batch fact in
  match folded with
  | (candidate, Ok Applied) => Ret (Ok (mk_admitted candidate fact))
  | (_, Err contradiction) =>
      let! refusal := expect (admission_refusal contradiction) in
      Ret (Err refusal)
  end.

(** strom-storage-protocol/src/writer.rs:1262-1302, [admit_create]. *)
Definition admit_create (admitted : Forest) (command : CreateStream) (batch : BatchId) :
    Exec (Result AdmissionRefusal CreateAdmission) :=
  match resolve admitted (create_path command) with
  | Some (Tombstone _) => Ret (Err RefusedPathOccupied)
  | Some (Live uid) =>
      let! record := expect (record admitted uid) in
      if bool_decide (content_type record = create_content_type command)
         && bool_decide (expiry record = create_expiry command)
         && bool_decide (lifecycle record = create_lifecycle command)
      then Ret (Ok CreateAlreadyExists)
      else Ret (Err RefusedPathOccupied)
  | None =>
      let! successor := successor_uid admitted in
      match successor with
      | Err contradiction =>
          let! refusal := expect (admission_refusal contradiction) in
          Ret (Err refusal)
      | Ok uid =>
          let!? admitted :=
            apply_fact admitted batch
              (StreamCreated (create_path command) uid (create_content_type command)
                 (create_expiry command) (create_lifecycle command)) in
          Ret (Ok (CreateFact admitted))
      end
  end.

(** strom-storage-protocol/src/writer.rs:1304-1325, [admit_close]. *)
Definition admit_close (admitted : Forest) (path : StreamPath) (batch : BatchId) :
    Exec (Result AdmissionRefusal CloseAdmission) :=
  let!? uid := Ret (resolve_live_uid admitted path) in
  let! record := expect (record admitted uid) in
  if is_closed (lifecycle record) then Ret (Ok CloseAlreadyClosed)
  else
    let!? admitted := apply_fact admitted batch (StreamClosed path uid) in
    Ret (Ok (CloseFact admitted)).

(** strom-storage-protocol/src/writer.rs:1327-1340, [admit_delete]. *)
Definition admit_delete (admitted : Forest) (path : StreamPath) (batch : BatchId) :
    Exec (Result AdmissionRefusal AdmittedCommand) :=
  let!? uid := Ret (resolve_live_uid admitted path) in
  apply_fact admitted batch (StreamDeleted path uid).

(** strom-storage-protocol/src/writer.rs:1380-1383, [pending_facts]. *)
Definition pending_facts (facts : list OperationFact) : Exec WalFacts :=
  expect_ok (WalFacts_try_from facts).

(** * The machine *)

(** strom-storage-protocol/src/writer.rs:553-611, [WriterMachine::from_recovery]. *)
Definition from_recovery (recovery : WriterRecovery) (flush_interval_min flush_buffer_bytes : Z) :
    Exec WriterMachine :=
  let seal := recovery_seal recovery in
  let durable_batch := recovery_durable_batch recovery in
  assert! bool_decide (claim_generation (recovery_claim recovery) = seal_generation seal) in
  assert! (match replay_batch (seal_replay seal) with
           | None => true
           | Some cut => coord_leb cut durable_batch
           end) in
  let! next_batch := expect_ok (successor durable_batch) in
  assert! ((1 <=? flush_buffer_bytes) && (flush_buffer_bytes <=? WAL_ENCODED_BYTES_MAX)) in
  let forest := mk_rooted (recovery_durable recovery) 0 in
  Ret {| w_started := false;
         w_claim := recovery_claim recovery;
         w_seal := seal;
         w_base := recovery_base recovery;
         w_admitted := forest;
         w_durable := forest;
         w_durable_batch := durable_batch;
         w_next_batch := next_batch;
         w_pending := barrier_new;
         w_flight := None;
         w_flush_interval_min := flush_interval_min;
         w_flush_buffer_bytes := flush_buffer_bytes;
         w_last_flush_started_at := None;
         w_flush_armed := false;
         w_checkpoint_attempt := 0;
         w_last_checkpoint_attempted_cut := None;
         w_retry_checkpoint_at := None;
         w_checkpoint := None;
         w_collector := None;
         w_ingress_open := true;
         w_next_root := 1 |}.

(** strom-storage-protocol/src/writer.rs:1195-1207, [WriterMachine::hard_full]. *)
Definition hard_full (m : WriterMachine) : Exec bool :=
  assert! barrier_len (w_pending m) <=? WRITER_PENDING_COMMANDS_MAX in
  if barrier_len (w_pending m) =? WRITER_PENDING_COMMANDS_MAX then Ret true
  else
    let! estimated := bytes_estimated (w_pending m) in
    let! worst := expect (u64_checked_add estimated WAL_FACT_ENCODED_BYTES_ESTIMATE_MAX) in
    Ret (WAL_ENCODED_BYTES_MAX <? worst).

(** strom-storage-protocol/src/writer.rs:618-622, [WriterMachine::admission_open]. *)
Definition admission_open (m : WriterMachine) : Exec bool :=
  if w_ingress_open m then let! full := hard_full m in Ret (negb full) else Ret false.

(** strom-storage-protocol/src/writer.rs:1213-1216, [WriterMachine::spacing_satisfied]. *)
Definition spacing_satisfied (m : WriterMachine) (now : Z) : bool :=
  match w_last_flush_started_at m with
  | None => true
  | Some started => instant_saturating_add started (w_flush_interval_min m) <=? now
  end.

(** strom-storage-protocol/src/writer.rs:1209-1211, [WriterMachine::pending_has_facts]. *)
Definition pending_has_facts (m : WriterMachine) : bool := has_facts (w_pending m).

(** strom-storage-protocol/src/writer.rs:1143-1159, [WriterMachine::accept_fact]. *)
Definition accept_fact (m : WriterMachine) (admitted : AdmittedCommand) (completion : Completion) :
    Exec (WriterMachine * option Completion) :=
  if negb (run_leaves_takeover_room (replay_batch (seal_replay (w_seal m))) (w_next_batch m))
  then
    let m := set_retry_checkpoint_at (Some (w_durable_batch m)) m in
    Ret (m, Some (completion_refusal completion Overloaded))
  else
    let m := set_admitted (mk_rooted (admitted_forest admitted) (w_next_root m)) m in
    let m := set_next_root (S (w_next_root m)) m in
    let! pending := push_fact (w_pending m) (admitted_fact admitted) completion in
    let m := set_pending pending m in
    let! estimated := bytes_estimated (w_pending m) in
    assert! estimated <=? WAL_ENCODED_BYTES_MAX in
    Ret (m, None).

(** strom-storage-protocol/src/writer.rs:1161-1168, [WriterMachine::accept_idempotent]. *)
Definition accept_idempotent (m : WriterMachine) (completion : Completion) :
    WriterMachine * option Completion :=
  if bool_decide (w_flight m = None) && negb (pending_has_facts m) then (m, Some completion)
  else (set_pending (push_idempotent (w_pending m) completion) m, None).

(** strom-storage-protocol/src/writer.rs:923-980, [WriterMachine::admit (decision)]. *)
Definition admission_decision (m : WriterMachine) (envelope : CommandEnvelope) : Exec Admission :=
  let batch := w_next_batch m in
  let admitted := forest_of (w_admitted m) in
  match envelope with
  | CommandCreate command reply =>
      let! decided := admit_create admitted command batch in
      Ret (match decided with
           | Ok (CreateFact admitted) =>
               AdmissionFact admitted (CompletionCreate (Ok Created) reply)
           | Ok CreateAlreadyExists =>
               AdmissionIdempotent (CompletionCreate (Ok AlreadyExists) reply)
           | Err refusal => AdmissionRefused (CompletionCreate (Err refusal) reply)
           end)
  | CommandClose path reply =>
      let! decided := admit_close admitted path batch in
      Ret (match decided with
           | Ok (CloseFact admitted) =>
               AdmissionFact admitted (CompletionClose (Ok StreamClosedNow) reply)
           | Ok CloseAlreadyClosed =>
               AdmissionIdempotent (CompletionClose (Ok AlreadyClosed) reply)
           | Err refusal => AdmissionRefused (CompletionClose (Err refusal) reply)
           end)
  | CommandDelete path reply =>
      let! decided := admit_delete admitted path batch in
      Ret (match decided with
           | Ok admitted => AdmissionFact admitted (CompletionDelete (Ok tt) reply)
           | Err refusal => AdmissionRefused (CompletionDelete (Err refusal) reply)
           end)
  end.

(** strom-storage-protocol/src/writer.rs:915-990, [WriterMachine::admit]. *)
Definition admit_command (m : WriterMachine) (envelope : CommandEnvelope) :
    Exec (WriterMachine * option Completion) :=
  assert! (negb (bool_decide (w_flight m = None))
           || (barrier_is_empty (w_pending m) || pending_has_facts m)) in
  let! decision := admission_decision m envelope in
  match decision with
  | AdmissionFact admitted completion => accept_fact m admitted completion
  | AdmissionIdempotent completion => Ret (accept_idempotent m completion)
  | AdmissionRefused completion => Ret (m, Some completion)
  end.

(** strom-storage-protocol/src/writer.rs:1039-1069, [WriterMachine::record_wal_durable]. *)
Definition record_wal_durable (m : WriterMachine) (batch : BatchId) :
    Exec (WriterMachine * list WriterOutput) :=
  let! active := expect (w_flight m) in
  assert! bool_decide (batch = flight_batch active) in
  let m := set_flight None m in
  let m := set_durable (flight_forest active) m in
  let m := set_durable_batch batch m in
  let! m :=
    if barrier_is_empty (w_pending m) then
      assert! bool_decide (forest_of (w_admitted m) = forest_of (w_durable m)) in
      Ret (set_admitted (w_durable m) m)
    else Ret m in
  Ret (m, [Action (PublishView (forest_of (w_durable m)));
           Action (SendReplies (flight_replies active))]).

(** strom-storage-protocol/src/writer.rs:1071-1081, [WriterMachine::discard_wal_flight]. *)
Definition discard_wal_flight (m : WriterMachine) (batch : BatchId) : Exec WriterMachine :=
  let! active := expect (w_flight m) in
  assert! bool_decide (batch = flight_batch active) in
  Ret (set_flight None m).

(** strom-storage-protocol/src/writer.rs:1134-1141, [WriterMachine::install_prepared]. *)
Definition install_prepared (m : WriterMachine) (source successor : Seal) (snapshot : Forest) :
    Exec WriterMachine :=
  assert! bool_decide (w_seal m = source) in
  Ret (set_base snapshot (set_seal successor m)).

(** strom-storage-protocol/src/writer.rs:1174-1182, [WriterMachine::assert_checkpoint_cancelling]. *)
Definition assert_checkpoint_cancelling (m : WriterMachine) (ticket : CheckpointTicket) : Exec unit :=
  match w_checkpoint m with
  | Some (Cancelling active) => assert! bool_decide (ticket = active) in Ret tt
  | _ => Panic
  end.

(** strom-storage-protocol/src/writer.rs:1184-1193, [WriterMachine::assert_quiescent]. *)
Definition assert_quiescent (m : WriterMachine) : Exec unit :=
  assert! bool_decide (w_flight m = None) && barrier_is_empty (w_pending m) in
  assert! shares_roots_with (w_admitted m) (w_durable m) in
  Ret tt.

(** strom-storage-protocol/src/writer.rs:754-809, [WriterMachine::complete_preparation]. *)
Definition complete_preparation (m : WriterMachine) (ticket : CheckpointTicket)
    (outcome : PreparationOutcome) :
    Exec (WriterMachine * list WriterOutput * option WriterExit) :=
  let! marker := expect (w_checkpoint m) in
  match marker with
  | Cancelling active =>
      assert! bool_decide (ticket = active) in
      Ret (set_checkpoint None m, [], None)
  | Preparing active =>
      assert! bool_decide (ticket = active) in
      let m := set_checkpoint None m in
      match outcome with
      | Prepared prepared =>
          let m := set_checkpoint (Some (Publishing ticket prepared)) m in
          Ret (m, [Effect (PublishAuthority ticket (prepared_candidate prepared))], None)
      | Abandoned => Ret (m, [], None)
      | PreparationContradiction detail =>
          Ret (m, [], Some (WriterContradiction (ticket_cut ticket) detail))
      end
  | Publishing _ _ => Panic
  end.

(** strom-storage-protocol/src/writer.rs:811-873, [WriterMachine::complete_publication]. *)
Definition complete_publication (m : WriterMachine) (ticket : CheckpointTicket)
    (result : Result TypedStoreError SealPublication) :
    Exec (WriterMachine * list WriterOutput * option WriterExit) :=
  let! marker := expect (w_checkpoint m) in
  match marker with
  | Publishing active prepared =>
      assert! bool_decide (ticket = active) in
      let m := set_checkpoint None m in
      match result with
      | Ok Authored =>
          let! (snapshot, input) := from_authored prepared in
          let! m :=
            install_prepared m (collection_source input) (collection_successor input) snapshot in
          let view := Action (PublishView (forest_of (w_durable m))) in
          if w_ingress_open m && bool_decide (w_collector m = None) then
            let m := set_collector (Some (collection_cut input)) m in
            Ret (m, [view; Effect (Collect input)], None)
          else Ret (m, [view], None)
      | Ok NoAuthority => Ret (m, [], Some (Fenced (ticket_cut ticket)))
      | Ok PublicationUnresolved =>
          Ret (m, [], Some (Poisoned (ticket_cut ticket)
                 (lit "advancing Seal create is unresolved")))
      | Err (Retryable detail) | Err (Rejected detail) =>
          Ret (m, [], Some (Poisoned (ticket_cut ticket) detail))
      | Err (StoreContradiction detail) =>
          Ret (m, [], Some (WriterContradiction (ticket_cut ticket) detail))
      end
  | Preparing _ | Cancelling _ => Panic
  end.

(** strom-storage-protocol/src/writer.rs:1083-1132, [WriterMachine::take_checkpoint]. *)
Definition take_checkpoint (m : WriterMachine) : Exec (WriterMachine * option CheckpointInput) :=
  let cut := replay_batch (seal_replay (w_seal m)) in
  if negb (bool_decide (w_checkpoint m = None)) then Ret (m, None)
  else
    let! span := expect (span_through cut (w_durable_batch m)) in
    if span <? WAL_SUFFIX_CHECKPOINT_SPAN_TRIGGER then Ret (m, None)
    else
      let! head_is_unattempted :=
        match w_last_checkpoint_attempted_cut m with
        | None => Ret true
        | Some attempted =>
            assert! coord_leb attempted (w_durable_batch m) in
            Ret (coord_ltb attempted (w_durable_batch m))
        end in
      if negb head_is_unattempted
         && negb (bool_decide (w_retry_checkpoint_at m = Some (w_durable_batch m)))
      then Ret (m, None)
      else
        assert! (match cut with
                 | None => true
                 | Some cut => coord_ltb cut (w_durable_batch m)
                 end) in
        let attempt := mk_attempt (claim_generation (w_claim m)) (w_checkpoint_attempt m) in
        let! checkpoint_attempt := expect (u64_checked_add (w_checkpoint_attempt m) 1) in
        let m := set_checkpoint_attempt checkpoint_attempt m in
        let ticket := mk_ticket (seal_generation (w_seal m)) (w_durable_batch m) attempt in
        let! input :=
          CheckpointInput_new ticket (w_seal m) (w_base m) (forest_of (w_durable m)) in
        let m := set_last_checkpoint_attempted_cut (Some (w_durable_batch m)) m in
        let m := set_retry_checkpoint_at None m in
        let m := set_checkpoint (Some (Preparing ticket)) m in
        Ret (m, Some input).

Section machine.
  Context {HP : Heap} {RW : Rkyv ArchivedWalObject}.

(** strom-storage-protocol/src/writer.rs:992-1037, [WriterMachine::drain_pending]. *)
Definition drain_pending (m : WriterMachine) (now : Z) : Exec (WriterMachine * WriterOutput) :=
  assert! bool_decide (w_flight m = None) in
  assert! negb (barrier_is_empty (w_pending m)) in
  let commands := barrier_commands (w_pending m) in
  let m := set_pending barrier_new m in
  let facts := omap pending_fact commands in
  let replies := pending_completion <$> commands in
  if bool_decide (facts = []) then
    assert! bool_decide (forest_of (w_admitted m) = forest_of (w_durable m)) in
    let m := set_admitted (w_durable m) m in
    Ret (m, Action (SendReplies replies))
  else
    let batch := w_next_batch m in
    let! run := pending_facts facts in
    let! encoded :=
      EncodedWal_new
        (mk_wal_object (seal_partition (w_seal m)) batch (claim_owner (w_claim m)) (Run run)) in
    let! encoded := expect_ok encoded in
    let! next_batch := expect_ok (successor batch) in
    let m := set_next_batch next_batch m in
    let m := set_flight (Some (mk_flight batch (w_admitted m) replies)) m in
    let m := set_last_flush_started_at (Some now) m in
    Ret (m, Effect (EstablishWal encoded)).

(** The guard of the flush, with the short-circuit order of the code.
    strom-storage-protocol/src/writer.rs:884-890, [WriterMachine::schedule (flush guard)]. *)
Definition flush_now (m : WriterMachine) (now : Z) : Exec bool :=
  if negb (pending_has_facts m) || negb (w_ingress_open m) then Ret true
  else
    let! full := hard_full m in
    if full then Ret true
    else
      let! estimated := bytes_estimated (w_pending m) in
      Ret ((w_flush_buffer_bytes m <=? estimated) || spacing_satisfied m now).

(** strom-storage-protocol/src/writer.rs:884-900, [WriterMachine::schedule (flush)]. *)
Definition schedule_flush (m : WriterMachine) (now : Z) :
    Exec (WriterMachine * list WriterOutput) :=
  if bool_decide (w_flight m = None) && negb (barrier_is_empty (w_pending m)) then
    let! flush := flush_now m now in
    if flush then
      let! (m, output) := drain_pending m now in
      Ret (m, [output])
    else if negb (w_flush_armed m) then
      let! started := expect (w_last_flush_started_at m) in
      let deadline := instant_saturating_add started (w_flush_interval_min m) in
      Ret (set_flush_armed true m, [Action (ArmFlush deadline)])
    else Ret (m, [])
  else Ret (m, []).

(** strom-storage-protocol/src/writer.rs:875-913, [WriterMachine::schedule]. *)
Definition schedule (m : WriterMachine) (now : Z) (outputs : list WriterOutput) :
    Exec (WriterMachine * list WriterOutput * option WriterExit) :=
  let! (m, flushed) := schedule_flush m now in
  let outputs := outputs ++ flushed in
  if w_ingress_open m then
    let! (m, input) := take_checkpoint m in
    match input with
    | Some input => Ret (m, outputs ++ [Effect (PrepareCheckpoint input)], None)
    | None => Ret (m, outputs, None)
    end
  else if bool_decide (w_flight m = None) && bool_decide (w_checkpoint m = None)
          && barrier_is_empty (w_pending m)
  then
    let! _ := assert_quiescent m in
    Ret (m, outputs, Some Shutdown)
  else Ret (m, outputs, None).

(** strom-storage-protocol/src/writer.rs:659-752, [WriterMachine::apply_event]. *)
Definition apply_event (m : WriterMachine) (event : WriterEvent) :
    Exec (WriterMachine * list WriterOutput * option WriterExit) :=
  match event with
  | Started => Ret (m, [], None)
  | Command envelope =>
      let! is_open := admission_open m in
      assert! is_open in
      let! (m, completion) := admit_command m envelope in
      match completion with
      | Some completion => Ret (m, [Action (SendReplies [completion])], None)
      | None => Ret (m, [], None)
      end
  | FlushDue =>
      assert! w_flush_armed m in
      Ret (set_flush_armed false m, [], None)
  | IngressClosed =>
      assert! w_ingress_open m in
      let m := set_ingress_open false m in
      match w_checkpoint m with
      | Some (Preparing ticket) =>
          Ret (set_checkpoint (Some (Cancelling ticket)) m,
               [Action (CancelCheckpointPreparation ticket)], None)
      | Some (Cancelling _) | Some (Publishing _ _) | None => Ret (m, [], None)
      end
  | WalEstablished batch result =>
      match result with
      | Ok WalDurable =>
          let! (m, outputs) := record_wal_durable m batch in
          Ret (m, outputs, None)
      | Ok WalOccupied =>
          let! m := discard_wal_flight m batch in
          Ret (m, [], Some (Fenced batch))
      | Ok UnresolvedAbsent =>
          let! m := discard_wal_flight m batch in
          Ret (m, [], Some (Poisoned batch
                 (lit "unresolved WAL create is absent on its one reconciliation read")))
      | Err (Retryable detail) | Err (Rejected detail) =>
          let! m := discard_wal_flight m batch in
          Ret (m, [], Some (Poisoned batch detail))
      | Err (StoreContradiction detail) =>
          let! m := discard_wal_flight m batch in
          Ret (m, [], Some (WriterContradiction batch detail))
      end
  | CheckpointPrepared ticket outcome => complete_preparation m ticket outcome
  | SealPublished ticket result => complete_publication m ticket result
  | CollectFinished cut =>
      assert! bool_decide (Some cut = w_collector m) in
      Ret (set_collector None m, [], None)
  | CheckpointPreparationCancelled ticket =>
      let! _ := assert_checkpoint_cancelling m ticket in
      Ret (set_checkpoint None m, [], None)
  end.

Definition is_started (event : WriterEvent) : bool :=
  match event with Started => true | _ => false end.

Definition is_action (output : WriterOutput) : bool :=
  match output with Action _ => true | Effect _ => false end.

(** strom-storage-protocol/src/writer.rs:624-657, [WriterMachine::handle]. *)
Definition handle (m : WriterMachine) (now : Z) (event : WriterEvent) :
    Exec (WriterMachine * WriterStep) :=
  let is_start := is_started event in
  assert! Bool.eqb (negb (w_started m)) is_start in
  let m := if is_start then set_started true m else m in
  let! (m, outputs, exit) := apply_event m event in
  let! (m, outputs, exit) :=
    match exit with
    | Some exit => Ret (m, outputs, Some exit)
    | None => schedule m now outputs
    end in
  assert! zlen outputs <=? WRITER_OUTPUTS_PER_STEP_MAX in
  assert! match exit with Some _ => forallb is_action outputs | None => true end in
  Ret (m, mk_step outputs exit).

End machine.
