(* ===== verification/WriterSafety.v ===== *)
(** Safety of the writer machine.

    [writer_core] relates the machine's fields: the pending facts fold the head
    forest (the WAL flight's, or the durable one) into the admitted forest at the
    next batch; the batch counters are consecutive; the byte account is the sum of
    the facts' estimates; the checkpoint marker names the current Seal.
    [writer_inv] adds what holds between events.  The file shows that every
    operation keeps them and that no assertion of the machine can fail when events
    answer issued work. *)

From S2P Require Import Prelude OrdMap Text Domain Coordinates Partition Seal Wal Forest.
From S2P Require Import ForestTheory Archive Writer.

(** * The environment's contract *)

Definition facts_estimate (facts : list OperationFact) : Z :=
  foldr (λ fact n, estimated_encoded_bytes fact + n) 0 facts.

(** The size bounds of [bounds.rs], as what they say of [rkyv]: an encoded RUN is
    at most the fixed framing and the estimates of its facts. *)
Class WalSizeLaw `{Rkyv ArchivedWalObject} : Prop := {
  wal_run_size : ∀ object facts, wal_body object = Run facts →
    zlen (rkyv_bytes (archive_wal object))
    ≤ WAL_RUN_FIXED_ENCODED_BYTES_MAX + facts_estimate (facts_slice facts)
}.

(** * The invariant *)

Definition facts_of (p : PendingBarrier) : list OperationFact :=
  omap pending_fact (barrier_commands p).

Definition head_forest (m : WriterMachine) : Rooted :=
  match w_flight m with Some f => flight_forest f | None => w_durable m end.

Definition seal_cut (seal : Seal) : Z := cut_value (replay_batch (seal_replay seal)).

Definition ticket_ok (m : WriterMachine) (t : CheckpointTicket) : Prop :=
  ticket_source t = seal_generation (w_seal m) ∧
  seal_cut (w_seal m) < coord_get (ticket_cut t) ≤ coord_get (w_durable_batch m) ∧
  owner_claim (ticket_attempt t) = claim_generation (w_claim m).

(** A prepared checkpoint is one that [PreparedCheckpoint::new] built for this
    ticket from the current Seal. *)
Definition prepared_ok (m : WriterMachine) (t : CheckpointTicket) (p : PreparedCheckpoint) : Prop :=
  PreparedCheckpoint_new t (w_seal m) (prepared_successor p) (prepared_snapshot p)
    (prepared_candidate p) = Ret p.

Definition checkpoint_ok (m : WriterMachine) : Prop :=
  match w_checkpoint m with
  | None => True
  | Some (Preparing t) => w_ingress_open m = true ∧ ticket_ok m t
  | Some (Cancelling t) => ticket_ok m t
  | Some (Publishing t p) => ticket_ok m t ∧ prepared_ok m t p
  end.

Definition flight_ok (m : WriterMachine) : Prop :=
  match w_flight m with
  | None => coord_get (w_next_batch m) = coord_get (w_durable_batch m) + 1
  | Some f =>
      coord_get (flight_batch f) = coord_get (w_durable_batch m) + 1 ∧
      coord_get (w_next_batch m) = coord_get (w_durable_batch m) + 2 ∧
      ∃ facts, facts_applied (flight_batch f) (forest_of (w_durable m)) facts
                 (forest_of (flight_forest f))
  end.

Record writer_core (m : WriterMachine) : Prop := {
  core_durable : forest_wf (forest_of (w_durable m));
  core_flight : flight_ok m;
  core_pending : facts_applied (w_next_batch m) (forest_of (head_forest m))
    (facts_of (w_pending m)) (forest_of (w_admitted m));
  core_roots : facts_of (w_pending m) = [] → w_admitted m = head_forest m;
  core_estimate : facts_bytes_estimated (w_pending m) = facts_estimate (facts_of (w_pending m));
  core_len : barrier_len (w_pending m) ≤ WRITER_PENDING_COMMANDS_MAX;
  core_room : facts_of (w_pending m) ≠ [] → coord_get (w_next_batch m) < u64_max;
  core_cut : seal_cut (w_seal m) ≤ coord_get (w_durable_batch m);
  core_attempted : ∀ cut, w_last_checkpoint_attempted_cut m = Some cut →
    coord_get cut ≤ coord_get (w_durable_batch m);
  core_attempt : 0 ≤ w_checkpoint_attempt m;
  core_checkpoint : checkpoint_ok m
}.

(** Between events a barrier without a flight holds facts, waits for the armed
    timer, and ingress is still open. *)
Record writer_inv (m : WriterMachine) : Prop := {
  inv_core : writer_core m;
  inv_waiting : w_flight m = None → barrier_commands (w_pending m) ≠ [] →
    facts_of (w_pending m) ≠ [] ∧ w_flush_armed m = true ∧ w_ingress_open m = true
}.

(** * Byte accounts *)

Lemma facts_estimate_app l k : facts_estimate (l ++ k) = facts_estimate l + facts_estimate k.
Proof. induction l as [|f l IH]; simpl; [done|]. rewrite IH. lia. Qed.

Lemma facts_estimate_bounds l :
  0 ≤ facts_estimate l ≤ zlen l * WAL_FACT_ENCODED_BYTES_ESTIMATE_MAX.
Proof.
  unfold zlen. induction l as [|f l IH]; simpl; [done|].
  pose proof (estimate_bounds f). unfold_bounds. lia.
Qed.

Lemma facts_estimate_pos l : (0 <? facts_estimate l) = negb (bool_decide (l = [])).
Proof.
  destruct l as [|f l]; simpl; [done|]. pose proof (estimate_bounds f).
  pose proof (facts_estimate_bounds l). apply Z.ltb_lt. unfold_bounds. lia.
Qed.

Lemma facts_of_length p : zlen (facts_of p) ≤ barrier_len p.
Proof.
  unfold facts_of, barrier_len, zlen. induction (barrier_commands p) as [|[[f|] c] l IH]; csimpl; lia.
Qed.

Lemma facts_of_snoc_fact p f c n :
  facts_of (mk_barrier (barrier_commands p ++ [mk_pending (Some f) c]) n) = facts_of p ++ [f].
Proof. unfold facts_of; simpl. by rewrite omap_app. Qed.

Lemma facts_of_push_idempotent p c : facts_of (push_idempotent p c) = facts_of p.
Proof. unfold facts_of; simpl. rewrite omap_app. simpl. by rewrite (right_id_L [] (++)). Qed.

Lemma barrier_len_snoc p c n :
  barrier_len (mk_barrier (barrier_commands p ++ [c]) n) = barrier_len p + 1.
Proof. unfold barrier_len, zlen; simpl. rewrite length_app. simpl. lia. Qed.

Section core.
  Context (m : WriterMachine) (C : writer_core m).

Lemma core_estimate_bounds :
  0 ≤ facts_bytes_estimated (w_pending m)
  ≤ barrier_len (w_pending m) * WAL_FACT_ENCODED_BYTES_ESTIMATE_MAX.
Proof using C.
  rewrite (core_estimate m C). pose proof (facts_estimate_bounds (facts_of (w_pending m))).
  pose proof (facts_of_length (w_pending m)). unfold_bounds. lia.
Qed.

Lemma has_facts_spec :
  pending_has_facts m = negb (bool_decide (facts_of (w_pending m) = [])).
Proof using C.
  unfold pending_has_facts, has_facts. by rewrite (core_estimate m C), facts_estimate_pos.
Qed.

Lemma bytes_estimated_ok :
  bytes_estimated (w_pending m) =
    Ret (WAL_RUN_FIXED_ENCODED_BYTES_MAX + facts_bytes_estimated (w_pending m)).
Proof using C.
  pose proof core_estimate_bounds. pose proof (core_len m C).
  unfold bytes_estimated, u64_checked_add. rewrite decide_True; [done|]. unfold_bounds. lia.
Qed.

(** The count bound binds first: the byte bound is never the one that closes
    admission. *)
Lemma hard_full_ok :
  hard_full m = Ret (bool_decide (barrier_len (w_pending m) = WRITER_PENDING_COMMANDS_MAX)).
Proof using C.
  pose proof core_estimate_bounds. pose proof (core_len m C). unfold hard_full.
  rewrite (proj2 (Z.leb_le _ _)) by done.
  destruct (Z.eqb_spec (barrier_len (w_pending m)) WRITER_PENDING_COMMANDS_MAX) as [Heq|Hne].
  - by rewrite bool_decide_eq_true_2.
  - rewrite bytes_estimated_ok. cbn [exec_bind]. unfold u64_checked_add.
    rewrite decide_True by (unfold_bounds; lia). cbn [expect exec_bind].
    rewrite bool_decide_eq_false_2 by done. f_equal. apply Z.ltb_ge. unfold_bounds. lia.
Qed.

Lemma admission_open_ok :
  admission_open m = Ret (w_ingress_open m &&
    negb (bool_decide (barrier_len (w_pending m) = WRITER_PENDING_COMMANDS_MAX))).
Proof using C.
  unfold admission_open. destruct (w_ingress_open m); [|done].
  rewrite hard_full_ok. done.
Qed.

Lemma core_head_wf : forest_wf (forest_of (head_forest m)).
Proof using C.
  unfold head_forest. pose proof (core_flight m C) as Hf. unfold flight_ok in Hf.
  destruct (w_flight m) as [f|]; [|apply (core_durable m C)].
  destruct Hf as (_ & _ & facts & Hf). eapply facts_applied_wf; [apply (core_durable m C)|done].
Qed.

Lemma core_admitted_wf : forest_wf (forest_of (w_admitted m)).
Proof using C. eapply facts_applied_wf; [apply core_head_wf|apply (core_pending m C)]. Qed.

End core.

(** * Admission *)

Lemma apply_fact_ok f batch fact f' :
  forest_wf f → fold_spec f batch fact f' →
  apply_fact f batch fact = Ret (Ok (mk_admitted f' fact)).
Proof.
  intros Hwf Hs. unfold apply_fact. by rewrite (fold_spec_complete f batch fact f' Hwf Hs).
Qed.

Lemma admit_create_cases f cmd batch :
  forest_wf f →
  (∃ refusal, admit_create f cmd batch = Ret (Err refusal)) ∨
  (admit_create f cmd batch = Ret (Ok CreateAlreadyExists)) ∨
  (∃ a, admit_create f cmd batch = Ret (Ok (CreateFact a)) ∧
     fold_spec f batch (admitted_fact a) (admitted_forest a)).
Proof.
  intros Hwf. unfold admit_create, resolve, record.
  destruct (directory f !! create_path cmd) as [[u|u]|] eqn:Hp; [|eauto|].
  - destruct (live_record f _ u Hwf Hp) as [r Hr]. rewrite Hr. cbn [expect exec_bind].
    destruct (_ && _); eauto.
  - destruct (successor_uid_cases f Hwf) as [[-> _]|(u & -> & Hu & Hc)]; cbn [exec_bind];
      [left; eexists; reflexivity|].
    do 2 right. erewrite apply_fact_ok; [|done|].
    + cbn [try_bind]. eexists. split; [reflexivity|]. cbn [admitted_fact admitted_forest].
      constructor; [done..|]. by apply successor_uid_fresh.
    + constructor; [done..|]. by apply successor_uid_fresh.
Qed.

Lemma resolve_live_uid_Ok f path uid :
  resolve_live_uid f path = Ok uid ↔ directory f !! path = Some (Live uid).
Proof.
  unfold resolve_live_uid, resolve. destruct (directory f !! path) as [[u|u]|]; naive_solver.
Qed.

Lemma admit_close_cases f path batch :
  forest_wf f →
  (∃ refusal, admit_close f path batch = Ret (Err refusal)) ∨
  (admit_close f path batch = Ret (Ok CloseAlreadyClosed)) ∨
  (∃ a, admit_close f path batch = Ret (Ok (CloseFact a)) ∧
     fold_spec f batch (admitted_fact a) (admitted_forest a)).
Proof.
  intros Hwf. unfold admit_close.
  destruct (resolve_live_uid f path) as [u|r] eqn:Hu; cbn [try_bind]; [|eauto].
  apply resolve_live_uid_Ok in Hu. destruct (live_record f _ u Hwf Hu) as [rec Hr].
  unfold record. rewrite Hr. cbn [expect exec_bind].
  destruct (lifecycle rec) eqn:Hl; cbn [is_closed]; [|eauto].
  do 2 right. erewrite apply_fact_ok by (done || by econstructor).
  cbn [try_bind]. eexists. split; [reflexivity|]. by econstructor.
Qed.

Lemma admit_delete_cases f path batch :
  forest_wf f →
  (∃ refusal, admit_delete f path batch = Ret (Err refusal)) ∨
  (∃ a, admit_delete f path batch = Ret (Ok a) ∧
     fold_spec f batch (admitted_fact a) (admitted_forest a)).
Proof.
  intros Hwf. unfold admit_delete.
  destruct (resolve_live_uid f path) as [u|r] eqn:Hu; cbn [try_bind]; [|eauto].
  apply resolve_live_uid_Ok in Hu. destruct (live_record f _ u Hwf Hu) as [rec Hr].
  right. erewrite apply_fact_ok by (done || by econstructor).
  eexists. split; [reflexivity|]. by econstructor.
Qed.

(** The reply a completion answers. *)
Definition completion_reply (c : Completion) : Reply :=
  match c with
  | CompletionCreate _ r | CompletionClose _ r | CompletionDelete _ r => r
  end.
Definition envelope_reply (e : CommandEnvelope) : Reply :=
  match e with CommandCreate _ r | CommandClose _ r | CommandDelete _ r => r end.

(** Whatever is decided, the completion answers the command's own reply, and a
    fact is one that the admitted forest folds at the next batch. *)
Lemma admission_decision_cases m envelope :
  writer_core m →
  ∃ d, admission_decision m envelope = Ret d ∧
    match d with
    | AdmissionFact a c =>
        completion_reply c = envelope_reply envelope ∧
        fold_spec (forest_of (w_admitted m)) (w_next_batch m) (admitted_fact a) (admitted_forest a)
    | AdmissionIdempotent c | AdmissionRefused c => completion_reply c = envelope_reply envelope
    end.
Proof.
  intros C. pose proof (core_admitted_wf m C) as Hwf.
  destruct envelope as [cmd r|path r|path r]; cbn [admission_decision envelope_reply].
  - destruct (admit_create_cases _ cmd (w_next_batch m) Hwf)
      as [[e ->]|[->|(a & -> & Ha)]]; cbn [exec_bind]; eexists; (split; [reflexivity|]); done.
  - destruct (admit_close_cases _ path (w_next_batch m) Hwf)
      as [[e ->]|[->|(a & -> & Ha)]]; cbn [exec_bind]; eexists; (split; [reflexivity|]); done.
  - destruct (admit_delete_cases _ path (w_next_batch m) Hwf)
      as [[e ->]|(a & -> & Ha)]; cbn [exec_bind]; eexists; (split; [reflexivity|]); done.
Qed.

Lemma accept_fact_ok m a c :
  writer_core m →
  barrier_len (w_pending m) < WRITER_PENDING_COMMANDS_MAX →
  fold_spec (forest_of (w_admitted m)) (w_next_batch m) (admitted_fact a) (admitted_forest a) →
  ∃ m' o, accept_fact m a c = Ret (m', o) ∧ writer_core m'.
Proof.
  intros C Hlen Ha. unfold accept_fact.
  destruct (run_leaves_takeover_room _ _) eqn:Hroom; cbn [negb].
  - apply run_room_spec in Hroom as (Hmax & _ & _).
    unfold push_fact, u64_checked_add; simpl.
    pose proof (core_estimate_bounds m C) as He. pose proof (estimate_bounds (admitted_fact a)) as Hf.
    rewrite decide_True by (unfold_bounds; lia). cbn [expect exec_bind].
    unfold bytes_estimated, u64_checked_add; simpl.
    rewrite decide_True by (unfold_bounds; lia). cbn [expect exec_bind].
    rewrite (proj2 (Z.leb_le _ _)) by (unfold_bounds; lia).
    eexists _, _. split; [reflexivity|].
    destruct C. split; simpl; rewrite ?facts_of_snoc_fact, ?barrier_len_snoc; try done.
    + by eapply facts_applied_snoc.
    + by intros [_ [=]]%app_nil.
    + rewrite facts_estimate_app. simpl. lia.
    + lia.
  - eexists _, _. split; [reflexivity|]. by destruct C.
Qed.

Lemma accept_idempotent_ok m c :
  writer_core m →
  barrier_len (w_pending m) < WRITER_PENDING_COMMANDS_MAX →
  writer_core (accept_idempotent m c).1.
Proof.
  intros C Hlen. unfold accept_idempotent.
  destruct (bool_decide (w_flight m = None) && negb (pending_has_facts m)); [done|].
  destruct C. split; simpl; rewrite ?facts_of_push_idempotent; try done.
  unfold push_idempotent. rewrite barrier_len_snoc. lia.
Qed.

Lemma admit_attempt m envelope m' o :
  admit_command m envelope = Ret (m', o) →
  w_checkpoint_attempt m' = w_checkpoint_attempt m ∧ w_base m' = w_base m.
Proof.
  unfold admit_command. destruct (_ || _); [|done].
  destruct (admission_decision m envelope) as [[a c|c|c]|]; cbn [exec_bind]; [| | |done].
  - unfold accept_fact. destruct (negb _); [by intros [= <- _]|]. simpl.
    destruct (push_fact _ _ _); cbn [exec_bind]; [|done].
    destruct (bytes_estimated _); cbn [exec_bind]; [|done].
    destruct (_ <=? _); [|done]. by intros [= <- _].
  - unfold accept_idempotent. destruct (_ && _); by intros [= <- _].
  - by intros [= <- _].
Qed.

Lemma admit_ok m envelope :
  writer_inv m → admission_open m = Ret true →
  ∃ m' o, admit_command m envelope = Ret (m', o) ∧ writer_core m'.
Proof.
  intros [C W] Hopen. rewrite admission_open_ok in Hopen by done.
  injection Hopen as Hopen%andb_true_iff. destruct Hopen as [_ Hfull%negb_true_iff].
  apply bool_decide_eq_false in Hfull. pose proof (core_len m C) as Hlen.
  unfold admit_command. rewrite has_facts_spec by done.
  assert (negb (bool_decide (w_flight m = None))
    || (barrier_is_empty (w_pending m) || negb (bool_decide (facts_of (w_pending m) = []))) = true)
    as ->.
  { case_bool_decide as Hfl; [|done]. cbn [negb orb]. unfold barrier_is_empty.
    case_bool_decide as Hp; [done|]. destruct (W Hfl Hp) as [Hne _].
    by rewrite bool_decide_eq_false_2. }
  destruct (admission_decision_cases m envelope C) as ([a c|c|c] & -> & Hd); cbn [exec_bind].
  - apply accept_fact_ok; [done|lia|apply Hd].
  - pose proof (accept_idempotent_ok m c C ltac:(lia)) as Hc.
    destruct (accept_idempotent m c) as [m' o]. eauto.
  - eauto.
Qed.

(** * Flushing *)

Section flush.
  Context {HP : Heap} {HL : HeapLaws} {RW : Rkyv ArchivedWalObject}
    {RL : RkyvLaws ArchivedWalObject} {SL : WalSizeLaw}.

Lemma EncodedWal_new_ok object facts :
  wal_body object = Run facts →
  WAL_RUN_FIXED_ENCODED_BYTES_MAX + facts_estimate (facts_slice facts) ≤ WAL_ENCODED_BYTES_MAX →
  EncodedWal_new object =
    Ret (Ok (mk_encoded_wal (wal_partition object) (wal_batch object)
      (rkyv_bytes (archive_wal object)))).
Proof using HL RL SL.
  intros Hb Hsize. pose proof (wal_run_size object facts Hb) as Hs.
  unfold EncodedWal_new, encode_wal. rewrite encode_ok by (unfold_bounds; lia).
  cbn [try_bind]. unfold candidate_bytes_ok.
  rewrite bool_decide_eq_false_2 by apply rkyv_nonempty. cbn [negb andb].
  by rewrite (proj2 (Z.leb_le _ _)) by lia.
Qed.

(** The object a drain writes. *)
Definition run_object (m : WriterMachine) (facts : WalFacts) : WalObject :=
  mk_wal_object (seal_partition (w_seal m)) (w_next_batch m) (claim_owner (w_claim m)) (Run facts).

(** The two shapes of a drained barrier. *)
Inductive drained (m : WriterMachine) (now : Z) : WriterMachine → WriterOutput → Prop :=
| drained_replies :
    facts_of (w_pending m) = [] →
    drained m now (set_admitted (w_durable m) (set_pending barrier_new m))
      (Action (SendReplies (pending_completion <$> barrier_commands (w_pending m))))
| drained_run facts next :
    facts_slice facts = facts_of (w_pending m) →
    successor (w_next_batch m) = Ok next →
    drained m now
      (set_last_flush_started_at (Some now)
        (set_flight (Some (mk_flight (w_next_batch m) (w_admitted m)
            (pending_completion <$> barrier_commands (w_pending m))))
          (set_next_batch next (set_pending barrier_new m))))
      (Effect (EstablishWal (mk_encoded_wal (seal_partition (w_seal m)) (w_next_batch m)
        (rkyv_bytes (archive_wal (run_object m facts)))))).

Lemma drain_pending_ok m now :
  writer_core m → w_flight m = None → barrier_commands (w_pending m) ≠ [] →
  ∃ m' out, drain_pending m now = Ret (m', out) ∧ drained m now m' out.
Proof using HL RL SL.
  intros C Hfl Hne. unfold drain_pending, barrier_is_empty. rewrite Hfl.
  rewrite (bool_decide_eq_true_2 (None = None)), (bool_decide_eq_false_2 _ Hne) by done.
  cbn [negb]. fold (facts_of (w_pending m)).
  case_bool_decide as Hfacts.
  - rewrite bool_decide_eq_true_2.
    + eexists _, _. split; [reflexivity|]. by apply (drained_replies m now).
    + simpl. rewrite (core_roots m C Hfacts). unfold head_forest. by rewrite Hfl.
  - pose proof (core_len m C) as Hlen. pose proof (facts_of_length (w_pending m)) as Hfl'.
    destruct (WalFacts_try_from_total (facts_of (w_pending m))) as (facts & Hf & Hfs);
      [done|unfold_bounds; lia|].
    unfold pending_facts. rewrite Hf. cbn [expect_ok exec_bind].
    pose proof (core_estimate_bounds m C) as Hest. rewrite (core_estimate m C) in Hest.
    change (w_next_batch (set_pending barrier_new m)) with (w_next_batch m).
    change (mk_wal_object (seal_partition (w_seal (set_pending barrier_new m))) (w_next_batch m)
      (claim_owner (w_claim (set_pending barrier_new m))) (Run facts)) with (run_object m facts).
    rewrite (EncodedWal_new_ok (run_object m facts) facts); [|done|rewrite Hfs; unfold_bounds; lia].
    cbn [exec_bind expect_ok].
    destruct (successor_total (w_next_batch m)) as (next & Hn & _); [by apply (core_room m C)|].
    rewrite Hn. cbn [expect_ok exec_bind].
    eexists _, _. split; [reflexivity|]. by apply (drained_run m now facts next).
Qed.

Lemma drained_core m now m' out :
  writer_core m → w_flight m = None → drained m now m' out → writer_core m'.
Proof.
  intros C Hfl Hd. destruct Hd as [Hfacts|facts next Hfs Hn].
  - pose proof (core_roots m C Hfacts) as Hroot. unfold head_forest in Hroot.
    rewrite Hfl in Hroot.
    destruct C as [Hd Hf Hp _ _ _ _ Hc Ha Hat Hck]. unfold flight_ok in Hf. rewrite Hfl in Hf.
    split; simpl; try done.
    + unfold flight_ok; simpl. by rewrite Hfl.
    + unfold head_forest; simpl. rewrite Hfl. constructor.
    + intros _. unfold head_forest; simpl. by rewrite Hfl.
  - apply successor_Ok in Hn.
    destruct C as [Hd Hf Hp _ _ _ _ Hc Ha Hat Hck]. unfold flight_ok in Hf. rewrite Hfl in Hf.
    unfold head_forest in Hp. rewrite Hfl in Hp.
    split; simpl; try done.
    + unfold flight_ok; simpl. split_and!; [lia..|]. eauto.
    + unfold head_forest; simpl. constructor.
Qed.

End flush.

(** * Checkpoints *)

Lemma take_checkpoint_ok m :
  writer_core m → w_ingress_open m = true → w_checkpoint_attempt m < u64_max →
  ∃ m' o, take_checkpoint m = Ret (m', o) ∧ writer_core m' ∧
    w_flight m' = w_flight m ∧ w_pending m' = w_pending m ∧
    w_flush_armed m' = w_flush_armed m ∧ w_ingress_open m' = true ∧
    match o with
    | Some input =>
        w_checkpoint m = None ∧ w_checkpoint m' = Some (Preparing (input_ticket input)) ∧
        input_source input = w_seal m ∧ input_base input = w_base m ∧
        input_snapshot input = forest_of (w_durable m) ∧
        ticket_cut (input_ticket input) = w_durable_batch m ∧
        m' = set_checkpoint (Some (Preparing (input_ticket input)))
               (set_retry_checkpoint_at None
                 (set_last_checkpoint_attempted_cut (Some (w_durable_batch m))
                   (set_checkpoint_attempt (w_checkpoint_attempt m + 1) m)))
    | None => m' = m
    end.
Proof.
  intros C Hopen Hatt. unfold take_checkpoint.
  case_bool_decide as Hck; cbn [negb]; [|eexists _, _; split; [reflexivity|done]].
  pose proof (core_cut m C) as Hcut. unfold seal_cut in Hcut.
  unfold span_through, u64_checked_sub. rewrite decide_True by done. cbn [expect exec_bind].
  destruct (Z.ltb_spec (coord_get (w_durable_batch m) -
    cut_value (replay_batch (seal_replay (w_seal m)))) WAL_SUFFIX_CHECKPOINT_SPAN_TRIGGER)
    as [|Hspan]; [eexists _, _; split; [reflexivity|done]|].
  assert (∃ b, (match w_last_checkpoint_attempted_cut m with
        | None => Ret true
        | Some attempted =>
            assert! coord_leb attempted (w_durable_batch m) in
            Ret (coord_ltb attempted (w_durable_batch m))
        end) = Ret b) as [b ->].
  { destruct (w_last_checkpoint_attempted_cut m) as [c|] eqn:Hc; [|eauto].
    apply (core_attempted m C), coord_leb_spec in Hc. rewrite Hc. eauto. }
  cbn [exec_bind].
  destruct (negb b && negb _); [eexists _, _; split; [reflexivity|done]|].
  assert ((match replay_batch (seal_replay (w_seal m)) with
           | None => true
           | Some cut => coord_ltb cut (w_durable_batch m)
           end) = true) as ->.
  { unfold_bounds. destruct (replay_batch (seal_replay (w_seal m))) as [c|]; [|done].
    apply coord_ltb_spec. simpl in Hspan. lia. }
  unfold u64_checked_add. rewrite decide_True by lia. cbn [expect exec_bind].
  unfold CheckpointInput_new. simpl. rewrite bool_decide_eq_true_2 by done. cbn [exec_bind].
  eexists _, _. split; [reflexivity|]. split; [|done].
  destruct C as [Hd Hf Hp Hr He Hl Hro Hc Ha Hat _]. split; simpl; try done.
  - intros c [= <-]. lia.
  - lia.
  - split; [done|]. split; [done|]. split; [|done]. simpl. unfold seal_cut. unfold_bounds. lia.
Qed.

Lemma PreparedCheckpoint_new_Ret t src suc snap cand p :
  PreparedCheckpoint_new t src suc snap cand = Ret p →
  p = mk_prepared src suc snap cand ∧
  ticket_source t = seal_generation src ∧
  seal_partition src = seal_partition suc ∧
  coord_get (seal_generation suc) = coord_get (seal_generation src) + 1 ∧
  seal_replay suc = Through (ticket_cut t) {| generation := owner_claim (ticket_attempt t) |} ∧
  seal_cut src < coord_get (ticket_cut t) ∧
  authority_seal cand = suc.
Proof.
  unfold PreparedCheckpoint_new, seal_cut.
  case_bool_decide as H1; [|done]. case_bool_decide as H2; [|done].
  destruct (successor (seal_generation src)) as [g|] eqn:Hs; [|done].
  case_bool_decide as H3; [|done]. case_bool_decide as H4; [|done].
  destruct (replay_batch (seal_replay src)) as [c|] eqn:Hc.
  - destruct (coord_ltb c (ticket_cut t)) eqn:Hlt; [|done].
    case_bool_decide as H5; [|done]. intros [= <-].
    subst g. split_and!; try done; simpl; [coord_lia..].
  - case_bool_decide as H5; [|done]. intros [= <-].
    subst g. split_and!; try done; simpl; coord_lia.
Qed.

(** * One event *)

(** What the environment may deliver: an observation answers issued work. *)
Definition enabled (m : WriterMachine) (event : WriterEvent) : Prop :=
  w_started m = negb (is_started event) ∧
  match event with
  | Started => True
  | Command _ => admission_open m = Ret true
  | FlushDue => w_flush_armed m = true
  | IngressClosed => w_ingress_open m = true
  | WalEstablished batch _ => ∃ f, w_flight m = Some f ∧ flight_batch f = batch
  | CheckpointPrepared t outcome =>
      (w_checkpoint m = Some (Preparing t) ∨ w_checkpoint m = Some (Cancelling t)) ∧
      match outcome with Prepared p => prepared_ok m t p | _ => True end
  | SealPublished t _ => ∃ p, w_checkpoint m = Some (Publishing t p)
  | CollectFinished cut => w_collector m = Some cut
  | CheckpointPreparationCancelled t => w_checkpoint m = Some (Cancelling t)
  end.

Lemma ticket_ok_durable m t batch :
  ticket_ok m t → coord_get (w_durable_batch m) ≤ coord_get batch →
  ticket_ok (set_durable_batch batch m) t.
Proof. intros (? & ? & ?) ?. split_and!; simpl; try done; lia. Qed.

Lemma record_wal_durable_ok m f :
  writer_core m → w_flight m = Some f →
  record_wal_durable m (flight_batch f) =
    Ret (set_durable_batch (flight_batch f) (set_durable (flight_forest f) (set_flight None m)),
      [Action (PublishView (forest_of (flight_forest f))); Action (SendReplies (flight_replies f))]) ∧
  writer_core (set_durable_batch (flight_batch f)
    (set_durable (flight_forest f) (set_flight None m))).
Proof.
  intros C Hfl. unfold record_wal_durable. rewrite Hfl. cbn [expect exec_bind].
  rewrite bool_decide_eq_true_2 by done. simpl. split.
  - unfold barrier_is_empty. case_bool_decide as Hp; [|done].
    pose proof (core_roots m C) as Hr. unfold facts_of, head_forest in Hr.
    rewrite Hp, Hfl in Hr. specialize (Hr eq_refl). rewrite Hr.
    rewrite bool_decide_eq_true_2 by done. simpl. do 2 f_equal. rewrite <- Hr. by destruct m.
  - destruct C as [Hd Hf Hp Hr He Hl Hro Hc Ha Hat Hck].
    unfold flight_ok in Hf. rewrite Hfl in Hf. destruct Hf as (Hb1 & Hb2 & facts & Hfacts).
    unfold head_forest in *. rewrite Hfl in *. split; simpl; try done.
    + by eapply facts_applied_wf.
    + unfold flight_ok; simpl. lia.
    + lia.
    + intros c Hcut. specialize (Ha c Hcut). lia.
    + unfold checkpoint_ok in *; simpl.
      destruct (w_checkpoint m) as [[t|t|t p]|]; [..|done];
        unfold ticket_ok, prepared_ok in *; simpl in *; naive_solver lia.
Qed.

Lemma discard_wal_flight_ok m f :
  w_flight m = Some f → discard_wal_flight m (flight_batch f) = Ret (set_flight None m).
Proof.
  intros Hfl. unfold discard_wal_flight. rewrite Hfl. cbn [expect exec_bind].
  by rewrite bool_decide_eq_true_2.
Qed.

(** Replacing the checkpoint marker keeps the rest of the invariant. *)
Lemma core_set_checkpoint m x :
  writer_core m → checkpoint_ok (set_checkpoint x m) → writer_core (set_checkpoint x m).
Proof. by intros [] ?; split. Qed.

Lemma complete_preparation_ok m t outcome :
  writer_core m → enabled m (CheckpointPrepared t outcome) →
  ∃ m' outs exit, complete_preparation m t outcome = Ret (m', outs, exit) ∧
    writer_core m' ∧ (∃ x, m' = set_checkpoint x m) ∧
    match exit with
    | Some _ => outs = []
    | None => outs = [] ∧ w_checkpoint m' = None ∨
        ∃ p, outcome = Prepared p ∧ w_checkpoint m = Some (Preparing t) ∧
             w_checkpoint m' = Some (Publishing t p) ∧
             outs = [Effect (PublishAuthority t (prepared_candidate p))]
    end.
Proof.
  intros C (_ & Hck & Hout). pose proof (core_checkpoint m C) as Hok.
  unfold complete_preparation, checkpoint_ok in *. destruct Hck as [Hck|Hck]; rewrite Hck in *;
    cbn [expect exec_bind]; rewrite bool_decide_eq_true_2 by done.
  - destruct outcome as [p| |detail]; eexists _, _, _; (split; [reflexivity|]); simpl.
    + split; [|split; [eauto|right; eauto 10]].
      apply core_set_checkpoint; [by apply core_set_checkpoint|]. split; [apply Hok|exact Hout].
    + split; [by apply core_set_checkpoint|]. split; [eauto|]. by left.
    + split; [by apply core_set_checkpoint|]. split; [eauto|]. done.
  - eexists _, _, _. split; [reflexivity|]. split; [by apply core_set_checkpoint|].
    split; [eauto|]. by left.
Qed.

(** The machine after an authored publication. *)
Definition published (m : WriterMachine) (p : PreparedCheckpoint) : WriterMachine :=
  set_base (prepared_snapshot p) (set_seal (prepared_successor p) (set_checkpoint None m)).

Lemma published_core m t p :
  writer_core m → w_checkpoint m = Some (Publishing t p) → writer_core (published m p).
Proof.
  intros C Hck. pose proof (core_checkpoint m C) as Hok. unfold checkpoint_ok in Hok.
  rewrite Hck in Hok. destruct Hok as [(Hts & Hcut & _) Hp].
  apply PreparedCheckpoint_new_Ret in Hp as (Hp & _ & _ & _ & Hrep & _ & _).
  destruct C. split; simpl; try done. unfold seal_cut. rewrite Hrep. simpl. lia.
Qed.

Lemma complete_publication_ok m t result :
  writer_core m → enabled m (SealPublished t result) →
  ∃ m' outs exit, complete_publication m t result = Ret (m', outs, exit) ∧
    match exit with
    | Some e => outs = [] ∧ e ≠ Shutdown
    | None => writer_core m' ∧ result = Ok Authored ∧
        ∃ p cut, w_checkpoint m = Some (Publishing t p) ∧ cut = ticket_cut t ∧
          (m' = published m p ∧ outs = [Action (PublishView (forest_of (w_durable m)))] ∨
           w_ingress_open m = true ∧ w_collector m = None ∧
           m' = set_collector (Some cut) (published m p) ∧
           outs = [Action (PublishView (forest_of (w_durable m)));
                   Effect (Collect (mk_collection cut (w_seal m) (prepared_successor p)))])
    end.
Proof.
  intros C (_ & p & Hck). pose proof (core_checkpoint m C) as Hok. unfold checkpoint_ok in Hok.
  unfold complete_publication. rewrite Hck in *. cbn [expect exec_bind].
  rewrite bool_decide_eq_true_2 by done. destruct Hok as [Ht Hp].
  destruct result as [[| |]|[d|d|d]]; try (eexists _, _, _; split; [reflexivity|done]).
  apply PreparedCheckpoint_new_Ret in Hp as (Hp & _ & _ & _ & Hrep & _ & _).
  pose proof (published_core m t p C Hck) as Cp.
  unfold from_authored. rewrite Hrep. cbn [replay_batch expect exec_bind].
  assert (prepared_source p = w_seal m) as Hsrc by (by rewrite Hp).
  unfold install_prepared. simpl. rewrite Hsrc.
  rewrite bool_decide_eq_true_2 by done. cbn [exec_bind]. simpl.
  destruct (w_ingress_open m) eqn:Hop; simpl.
  - case_bool_decide as Hcol; eexists _, _, _; (split; [reflexivity|]).
    + split; [|split; [done|]].
      * by destruct Cp.
      * exists p, (ticket_cut t). split; [done|]. split; [done|]. right. done.
    + split; [done|]. split; [done|]. exists p, (ticket_cut t). split; [done|].
      split; [done|]. by left.
  - eexists _, _, _. split; [reflexivity|]. split; [done|]. split; [done|].
    exists p, (ticket_cut t). split; [done|]. split; [done|]. by left.
Qed.

Definition reply_outputs (o : option Completion) : list WriterOutput :=
  match o with Some c => [Action (SendReplies [c])] | None => [] end.

(** What each accepted event does to the machine before scheduling, when it is not
    terminal. *)
Inductive applied (m : WriterMachine) : WriterEvent → WriterMachine → list WriterOutput → Prop :=
| applied_started : applied m Started m []
| applied_command envelope m' o :
    admit_command m envelope = Ret (m', o) → applied m (Command envelope) m' (reply_outputs o)
| applied_flush_due : applied m FlushDue (set_flush_armed false m) []
| applied_cancel t :
    w_checkpoint m = Some (Preparing t) →
    applied m IngressClosed (set_checkpoint (Some (Cancelling t)) (set_ingress_open false m))
      [Action (CancelCheckpointPreparation t)]
| applied_ingress_closed :
    (∀ t, w_checkpoint m ≠ Some (Preparing t)) →
    applied m IngressClosed (set_ingress_open false m) []
| applied_durable f :
    w_flight m = Some f →
    applied m (WalEstablished (flight_batch f) (Ok WalDurable))
      (set_durable_batch (flight_batch f) (set_durable (flight_forest f) (set_flight None m)))
      [Action (PublishView (forest_of (flight_forest f))); Action (SendReplies (flight_replies f))]
| applied_prepared t p :
    w_checkpoint m = Some (Preparing t) → prepared_ok m t p →
    applied m (CheckpointPrepared t (Prepared p)) (set_checkpoint (Some (Publishing t p)) m)
      [Effect (PublishAuthority t (prepared_candidate p))]
| applied_unprepared t outcome :
    w_checkpoint m = Some (Preparing t) ∨ w_checkpoint m = Some (Cancelling t) →
    applied m (CheckpointPrepared t outcome) (set_checkpoint None m) []
| applied_published t p :
    w_checkpoint m = Some (Publishing t p) →
    applied m (SealPublished t (Ok Authored)) (published m p)
      [Action (PublishView (forest_of (w_durable m)))]
| applied_collecting t p :
    w_checkpoint m = Some (Publishing t p) → w_ingress_open m = true → w_collector m = None →
    applied m (SealPublished t (Ok Authored)) (set_collector (Some (ticket_cut t)) (published m p))
      [Action (PublishView (forest_of (w_durable m)));
       Effect (Collect (mk_collection (ticket_cut t) (w_seal m) (prepared_successor p)))]
| applied_collected cut : applied m (CollectFinished cut) (set_collector None m) []
| applied_cancelled t :
    w_checkpoint m = Some (Cancelling t) →
    applied m (CheckpointPreparationCancelled t) (set_checkpoint None m) [].

Lemma apply_event_ok m event :
  writer_inv m → enabled m event →
  (∃ m' exit, apply_event m event = Ret (m', [], Some exit) ∧ exit ≠ Shutdown) ∨
  (∃ m' outs, apply_event m event = Ret (m', outs, None) ∧ applied m event m' outs).
Proof.
  intros I (Hst & Hen). pose proof (inv_core m I) as C.
  destruct event as [|env| | |batch result|t outcome|t result|cut|t]; cbn [apply_event].
  - right. eexists _, _. split; [reflexivity|constructor].
  - rewrite Hen. cbn [exec_bind]. destruct (admit_ok m env I Hen) as (m' & o & Ha & _).
    rewrite Ha. cbn [exec_bind]. right. exists m', (reply_outputs o).
    split; [by destruct o|by constructor].
  - rewrite Hen. right. eexists _, _. split; [reflexivity|constructor].
  - rewrite Hen. simpl. right. destruct (w_checkpoint m) as [[t|t|t p]|] eqn:Hck;
      eexists _, _; (split; [reflexivity|]); [by constructor|by apply applied_ingress_closed; congruence..].
  - destruct Hen as (f & Hf & <-).
    destruct (record_wal_durable_ok m f C Hf) as [Hr _].
    pose proof (discard_wal_flight_ok m f Hf) as Hd.
    destruct result as [[| |]|[d|d|d]]; rewrite ?Hr, ?Hd; cbn [exec_bind];
      [right|left; eexists _, _; (split; [reflexivity|done])..]. eexists _, _. split; [reflexivity|by constructor].
  - destruct (complete_preparation_ok m t outcome C (conj Hst Hen)) as (m' & outs & exit & Hc & _).
    pose proof Hc as Hc'. unfold complete_preparation in Hc'. destruct Hen as [[Hck|Hck] Hout];
      rewrite Hck in Hc'; cbn [expect exec_bind] in Hc'; rewrite bool_decide_eq_true_2 in Hc' by done;
      rewrite Hc.
    + destruct outcome as [p| |detail]; injection Hc' as <- <- <-.
      * right. eexists _, _. split; [reflexivity|]. by apply (applied_prepared m t p).
      * right. eexists _, _. split; [reflexivity|]. apply applied_unprepared. by left.
      * left. eexists _, _. split; [reflexivity|done].
    + injection Hc' as <- <- <-. right. eexists _, _. split; [reflexivity|].
      apply applied_unprepared. by right.
  - destruct (complete_publication_ok m t result C (conj Hst Hen)) as (m' & outs & exit & Hc & Hx).
    rewrite Hc. destruct exit as [e|]; [destruct Hx as [-> Hx]; eauto|]. right. exists m', outs. split; [done|].
    destruct Hx as (_ & -> & p & cut & Hck & -> & [[-> ->]|(Hop & Hcol & -> & ->)]);
      by constructor.
  - rewrite Hen, bool_decide_eq_true_2 by done. right. eexists _, _.
    split; [reflexivity|constructor].
  - unfold assert_checkpoint_cancelling. rewrite Hen. rewrite bool_decide_eq_true_2 by done.
    cbn [exec_bind]. right. eexists _, _. split; [reflexivity|by constructor].
Qed.

Lemma applied_core m event m' outs :
  writer_inv m → enabled m event → applied m event m' outs → writer_core m'.
Proof.
  intros I Hen Ha. pose proof (inv_core m I) as C.
  destruct Ha as [|env m' o Hadm| |t Hck|Hck|f Hf|t p Hck Hp|t outcome Hck|t p Hck
    |t p Hck Hop Hcol|cut|t Hck].
  - done.
  - destruct Hen as (_ & Hop). destruct (admit_ok m env I Hop) as (m1 & o1 & Ha & Hc). congruence.
  - by destruct C.
  - pose proof (core_checkpoint m C) as Hok. unfold checkpoint_ok in Hok. rewrite Hck in Hok.
    destruct Hok as [_ Hok]. by destruct C.
  - destruct C as [? ? ? ? ? ? ? ? ? ? Hok]. split; try done. unfold checkpoint_ok in *; simpl.
    destruct (w_checkpoint m) as [[t|t|t p]|]; [by destruct (Hck t)|done..].
  - by apply record_wal_durable_ok.
  - apply core_set_checkpoint; [done|]. pose proof (core_checkpoint m C) as Hok.
    unfold checkpoint_ok in *. rewrite Hck in Hok. split; [apply Hok|exact Hp].
  - by apply core_set_checkpoint.
  - by eapply published_core.
  - pose proof (published_core m t p C Hck) as Cp. by destruct Cp.
  - by destruct C.
  - by apply core_set_checkpoint.
Qed.

Lemma applied_outputs m event m' outs :
  applied m event m' outs →
  zlen outs ≤ 2 ∧
  (forallb is_action outs = false → w_ingress_open m' = true ∨ w_checkpoint m' ≠ None).
Proof.
  intros Ha. destruct Ha as [|env m' [o|] Hadm| |t Hck|Hck|f Hf|t p Hck Hp|t outcome Hck|t p Hck
    |t p Hck Hop Hcol|cut|t Hck]; simpl; (split; [done|]); try done.
  - intros _. by right.
  - intros _. by left.
Qed.

(** ** Scheduling *)

Section schedule.
  Context {HP : Heap} {HL : HeapLaws} {RW : Rkyv ArchivedWalObject}
    {RL : RkyvLaws ArchivedWalObject} {SL : WalSizeLaw}.

Definition waiting (m : WriterMachine) : Prop :=
  w_flight m = None ∧ barrier_commands (w_pending m) ≠ [].

(** What the flush half of [schedule] does. *)
Inductive flushed (m : WriterMachine) (now : Z) : WriterMachine → list WriterOutput → Prop :=
| flushed_idle : ¬ waiting m → flushed m now m []
| flushed_drain m' out : waiting m → drained m now m' out → flushed m now m' [out]
| flushed_armed deadline :
    waiting m → facts_of (w_pending m) ≠ [] → w_ingress_open m = true → w_flush_armed m = false →
    flushed m now (set_flush_armed true m) [Action (ArmFlush deadline)]
| flushed_waiting :
    waiting m → facts_of (w_pending m) ≠ [] → w_ingress_open m = true → w_flush_armed m = true →
    flushed m now m [].

Lemma schedule_flush_ok m now :
  writer_core m →
  ∃ m' outs, schedule_flush m now = Ret (m', outs) ∧ flushed m now m' outs.
Proof using HL RL SL.
  intros C. unfold schedule_flush, barrier_is_empty.
  case_bool_decide as Hfl; cbn [andb]; last first.
  { eexists _, _. split; [reflexivity|]. apply flushed_idle. by intros [? _]. }
  case_bool_decide as Hp; cbn [negb].
  { eexists _, _. split; [reflexivity|]. apply flushed_idle. by intros [_ ?]. }
  assert (waiting m) as Hw by done.
  destruct (drain_pending_ok m now C Hfl Hp) as (md & out & Hd & Hdr).
  unfold flush_now. rewrite has_facts_spec by done. rewrite negb_involutive.
  case_bool_decide as Hfacts; cbn [orb].
  { cbn [exec_bind]. rewrite Hd. eexists _, _. split; [reflexivity|]. by apply flushed_drain. }
  destruct (w_ingress_open m) eqn:Hop; cbn [negb]; last first.
  { cbn [exec_bind]. rewrite Hd. eexists _, _. split; [reflexivity|]. by apply flushed_drain. }
  rewrite hard_full_ok by done. cbn [exec_bind].
  case_bool_decide as Hfull.
  { cbn [exec_bind]. rewrite Hd. eexists _, _. split; [reflexivity|]. by apply flushed_drain. }
  rewrite bytes_estimated_ok by done. cbn [exec_bind].
  destruct (_ <=? _); cbn [orb].
  { rewrite Hd. eexists _, _. split; [reflexivity|]. by apply flushed_drain. }
  unfold spacing_satisfied. destruct (w_last_flush_started_at m) as [s|]; last first.
  { rewrite Hd. eexists _, _. split; [reflexivity|]. by apply flushed_drain. }
  destruct (_ <=? _).
  { rewrite Hd. eexists _, _. split; [reflexivity|]. by apply flushed_drain. }
  destruct (w_flush_armed m) eqn:Har; cbn [negb expect exec_bind];
    eexists _, _; (split; [reflexivity|]).
  - by apply flushed_waiting.
  - by apply flushed_armed.
Qed.

Lemma flushed_inv m now m' outs :
  writer_core m → flushed m now m' outs → writer_inv m'.
Proof.
  intros C Hf. destruct Hf as [Hn|m' out [Hfl Hp] Hd|dl Hw Hfacts Hop Har|Hw Hfacts Hop Har].
  - split; [done|]. intros ? ?. by destruct Hn.
  - split; [by eapply drained_core|]. by destruct Hd.
  - split; [by destruct C|]. done.
  - split; done.
Qed.

Lemma flushed_frame m now m' outs :
  flushed m now m' outs →
  w_ingress_open m' = w_ingress_open m ∧ w_checkpoint m' = w_checkpoint m ∧
  w_checkpoint_attempt m' = w_checkpoint_attempt m ∧ w_started m' = w_started m ∧
  w_seal m' = w_seal m ∧ w_collector m' = w_collector m ∧ w_claim m' = w_claim m ∧
  w_durable m' = w_durable m ∧ w_durable_batch m' = w_durable_batch m ∧ w_base m' = w_base m ∧
  zlen outs ≤ 1 ∧
  (forallb is_action outs = false → w_flight m' ≠ None).
Proof.
  intros [Hn|m1 out Hw Hd|dl Hw Hfacts Hop Har|Hw Hfacts Hop Har]; try done.
  by destruct Hd.
Qed.

(** The outcome of scheduling a non-terminal event. *)
Inductive scheduled (m : WriterMachine) (now : Z) (outs : list WriterOutput) :
    WriterMachine → list WriterOutput → option WriterExit → Prop :=
| scheduled_checkpoint m1 fl m' input :
    flushed m now m1 fl → w_ingress_open m = true →
    take_checkpoint m1 = Ret (m', Some input) →
    scheduled m now outs m' (outs ++ fl ++ [Effect (PrepareCheckpoint input)]) None
| scheduled_open m' fl :
    flushed m now m' fl → w_ingress_open m = true →
    scheduled m now outs m' (outs ++ fl) None
| scheduled_shutdown m' fl :
    flushed m now m' fl → w_ingress_open m = false → w_flight m' = None →
    w_checkpoint m' = None → barrier_commands (w_pending m') = [] →
    scheduled m now outs m' (outs ++ fl) (Some Shutdown)
| scheduled_closing m' fl :
    flushed m now m' fl → w_ingress_open m = false →
    w_flight m' ≠ None ∨ w_checkpoint m' ≠ None →
    scheduled m now outs m' (outs ++ fl) None.

Lemma schedule_ok m now outs :
  writer_core m → w_checkpoint_attempt m < u64_max →
  ∃ m' outs' exit, schedule m now outs = Ret (m', outs', exit) ∧
    scheduled m now outs m' outs' exit.
Proof using HL RL SL.
  intros C Hatt. destruct (schedule_flush_ok m now C) as (m1 & fl & Hs & Hf).
  pose proof (flushed_inv m now m1 fl C Hf) as [C1 W1].
  destruct (flushed_frame m now m1 fl Hf) as (Hop & Hck & Hat & _).
  unfold schedule. rewrite Hs. cbn [exec_bind]. rewrite Hop.
  destruct (w_ingress_open m) eqn:Hopen.
  - destruct (take_checkpoint_ok m1 C1) as (m' & o & Ht & _ & _ & _ & _ & _ & Ho); [congruence|lia|].
    rewrite Ht. cbn [exec_bind]. destruct o as [input|].
    + eexists _, _, _. split; [reflexivity|]. rewrite <- (assoc_L (++)).
      by eapply scheduled_checkpoint.
    + subst m'. eexists _, _, _. split; [reflexivity|]. by apply scheduled_open.
  - unfold barrier_is_empty. destruct (bool_decide (w_flight m1 = None)) eqn:Hfl; cbn [andb].
    + apply bool_decide_eq_true in Hfl.
      destruct (bool_decide (w_checkpoint m1 = None)) eqn:Hc; cbn [andb].
      * apply bool_decide_eq_true in Hc. case_bool_decide as Hp.
        -- unfold assert_quiescent, barrier_is_empty, shares_roots_with.
           rewrite !(bool_decide_eq_true_2 _) by done. cbn [andb exec_bind].
           pose proof (core_roots m1 C1) as Hr. unfold facts_of, head_forest in Hr.
           rewrite Hp, Hfl in Hr. specialize (Hr eq_refl). rewrite Hr.
           rewrite bool_decide_eq_true_2 by done. cbn [exec_bind].
           eexists _, _, _. split; [reflexivity|]. by apply scheduled_shutdown.
        -- destruct (W1 Hfl Hp) as (_ & _ & Hop1). congruence.
      * apply bool_decide_eq_false in Hc. eexists _, _, _. split; [reflexivity|].
        apply scheduled_closing; auto.
    + apply bool_decide_eq_false in Hfl. eexists _, _, _. split; [reflexivity|].
      apply scheduled_closing; auto.
Qed.

Lemma scheduled_inv m now outs m' outs' exit :
  writer_core m → w_checkpoint_attempt m < u64_max →
  scheduled m now outs m' outs' exit → writer_inv m'.
Proof.
  intros C Hatt Hs. destruct Hs as [m1 fl m' input Hf Hop Ht|m' fl Hf|m' fl Hf|m' fl Hf];
    [|by eapply flushed_inv..].
  pose proof (flushed_inv m now m1 fl C Hf) as [C1 W1].
  destruct (flushed_frame m now m1 fl Hf) as (Hop' & _ & Hat & _).
  destruct (take_checkpoint_ok m1 C1) as (m2 & o & Ht' & C2 & Hfl & Hp & Har & Hop2 & _);
    [congruence|lia|].
  rewrite Ht in Ht'. injection Ht' as <- <-. split; [done|].
  rewrite Hfl, Hp, Har, Hop2. intros H1 H2. destruct (W1 H1 H2) as (? & ? & ?). done.
Qed.

Lemma scheduled_outputs m now outs m' outs' exit :
  scheduled m now outs m' outs' exit →
  zlen outs' ≤ zlen outs + 2 ∧
  (exit ≠ None → forallb is_action outs = true → forallb is_action outs' = true).
Proof.
  intros Hs. destruct Hs as [m1 fl m' input Hf Hop Ht|m' fl Hf|m' fl Hf Hop Hfl|m' fl Hf];
    pose proof (flushed_frame _ _ _ _ Hf) as (_ & _ & _ & _ & _ & _ & _ & _ & _ & _ & Hlen & Hact);
    unfold zlen in *; rewrite ?length_app; simpl; (split; [lia|]); try done.
  intros _ Ho. rewrite forallb_app, Ho. simpl. apply not_false_iff_true. intros Hn.
  by apply Hact.
Qed.

(** ** The step *)

(** One complete step that does not panic. *)
Inductive handled (m : WriterMachine) (now : Z) (event : WriterEvent) :
    WriterMachine → list WriterOutput → option WriterExit → Prop :=
| handled_terminal m' exit : exit ≠ Shutdown → handled m now event m' [] (Some exit)
| handled_step m1 outs1 m' outs exit :
    applied (set_started true m) event m1 outs1 →
    writer_core m1 →
    scheduled m1 now outs1 m' outs exit →
    handled m now event m' outs exit.

Lemma set_started_inv m : writer_inv m → writer_inv (set_started true m).
Proof. intros [C W]. split; [by destruct C|done]. Qed.

Lemma started_machine m event :
  w_started m = negb (is_started event) →
  (if is_started event then set_started true m else m) = set_started true m.
Proof. destruct m, event; simpl; intros Hs; try done; by subst. Qed.

Lemma enabled_started m event : enabled m event →
  match event with
  | Started => True
  | _ => enabled (set_started true m) event
  end.
Proof. by destruct event, m; intros [Hs He]; simpl in *; subst. Qed.

Lemma handle_ok m now event :
  writer_inv m → enabled m event → w_checkpoint_attempt m < u64_max →
  ∃ m' outs exit, handle m now event = Ret (m', mk_step outs exit) ∧
    handled m now event m' outs exit ∧
    zlen outs ≤ WRITER_OUTPUTS_PER_STEP_MAX ∧
    (exit ≠ None → forallb is_action outs = true) ∧
    (exit = None → writer_inv m').
Proof using HL RL SL.
  intros I Hen Hatt. pose proof Hen as [Hst _]. unfold handle.
  rewrite Hst, negb_involutive, eqb_reflx. rewrite (started_machine m event Hst).
  pose proof (set_started_inv m I) as I'. set (ms := set_started true m) in *.
  assert (∀ P : Prop, (∀ m' exit, apply_event ms event = Ret (m', [], Some exit) → exit ≠ Shutdown → P) →
    (∀ m' outs, apply_event ms event = Ret (m', outs, None) → applied ms event m' outs →
       writer_core m' → P) → P) as Hcases.
  { intros P H1 H2. destruct (decide (is_started event = true)) as [Hs|Hs].
    - destruct event; try done. apply (H2 ms []); [done|constructor|apply I'].
    - assert (enabled ms event) as Hen' by (apply enabled_started in Hen; by destruct event).
      destruct (apply_event_ok ms event I' Hen') as [(m' & exit & He & Hx)|(m' & outs & He & Ha)].
      + by eapply H1.
      + eapply H2; [done..|]. by eapply applied_core. }
  apply Hcases; clear Hcases.
  - intros m' exit He Hx. rewrite He. cbn [exec_bind].
    rewrite (proj2 (Z.leb_le _ _)) by done. simpl.
    eexists _, _, _. split; [reflexivity|]. split; [by constructor|]. done.
  - intros m1 outs1 He Ha C1. rewrite He. cbn [exec_bind].
    assert (w_checkpoint_attempt m1 = w_checkpoint_attempt m) as Hat1.
    { destruct Ha as [|env m' o Hadm| | | | | | | | | |]; try done.
      by eapply (admit_attempt ms). }
    destruct (schedule_ok m1 now outs1 C1) as (m' & outs & exit & Hs & Hsd); [lia|].
    rewrite Hs. cbn [exec_bind].
    destruct (applied_outputs _ _ _ _ Ha) as [Hl1 Hact1].
    destruct (scheduled_outputs _ _ _ _ _ _ Hsd) as [Hl2 Hact2].
    rewrite (proj2 (Z.leb_le _ _)) by (unfold WRITER_OUTPUTS_PER_STEP_MAX; lia).
    assert (exit ≠ None → forallb is_action outs = true) as Hact.
    { intros Hex. apply Hact2; [done|]. apply not_false_iff_true. intros Hf.
      destruct Hsd as [m2 fl m' input Hfl|m' fl Hfl|m' fl Hfl Hop Hnf Hck|m' fl Hfl]; try done.
      destruct (flushed_frame _ _ _ _ Hfl) as (_ & Hck' & _).
      destruct (Hact1 Hf); congruence. }
    assert ((match exit with Some _ => forallb is_action outs | None => true end) = true) as ->.
    { destruct exit; [|done]. by apply Hact. }
    eexists _, _, _. split; [reflexivity|]. split; [by econstructor|].
    split; [unfold WRITER_OUTPUTS_PER_STEP_MAX; lia|]. split; [done|]. intros _.
    eapply scheduled_inv; [done| |done]. lia.
Qed.

End schedule.
