(* ===== verification/WriterSystem.v ===== *)
(** The running writer: the machine with its interpreter and its environment
    (crate [strom-storage-engine], file [writer.rs]).

    The interpreter owns the outstanding effects, the flush timer, the published
    view and the reply channels.  A step delivers one observation: the completion
    of an outstanding effect, the timer, a command, or the end of ingress.  The
    ghost fields record the commands received and the WAL objects made durable.
    The file proves that the system never panics and never gets stuck, that every
    positive reply is durable, that no reply is lost, and that the durable forest
    is the fold of the durable WAL. *)

From S2P Require Import Prelude OrdMap Text Domain Coordinates Partition Seal Wal Forest.
From S2P Require Import ForestTheory Archive Writer WriterSafety.

(** * The interpreter *)

(** strom-storage-engine/src/writer.rs:21-30, [Writer]. *)
Record Interpreter : Type := mk_interp {
  i_effects : list WriterEffect;
  i_flush_timer : bool;
  i_aborted : list CheckpointTicket;
  i_view : Forest;
  i_sent : list Completion
}.

(** strom-storage-engine/src/writer.rs:124-170, [Writer::spawn_effect]. *)
Definition spawn_effect (s : Interpreter) (effect : WriterEffect) : Exec Interpreter :=
  assert! negb (bool_decide (effect_key effect ∈ effect_key <$> i_effects s)) in
  Ret (mk_interp (i_effects s ++ [effect]) (i_flush_timer s) (i_aborted s) (i_view s) (i_sent s)).

(** strom-storage-engine/src/writer.rs:172-193, [Writer::execute_action]. *)
Definition execute_action (s : Interpreter) (action : WriterAction) : Exec Interpreter :=
  match action with
  | ArmFlush _ =>
      assert! negb (i_flush_timer s) in
      Ret (mk_interp (i_effects s) true (i_aborted s) (i_view s) (i_sent s))
  | PublishView view =>
      Ret (mk_interp (i_effects s) (i_flush_timer s) (i_aborted s) view (i_sent s))
  | SendReplies replies =>
      Ret (mk_interp (i_effects s) (i_flush_timer s) (i_aborted s) (i_view s)
             (i_sent s ++ replies))
  | CancelCheckpointPreparation ticket =>
      assert! bool_decide (KeyCheckpointPreparation ticket ∈ effect_key <$> i_effects s) in
      Ret (mk_interp (i_effects s) (i_flush_timer s) (ticket :: i_aborted s) (i_view s) (i_sent s))
  end.

(** strom-storage-engine/src/writer.rs:115-120, [Writer::execute_step (loop)]. *)
Fixpoint execute_outputs (s : Interpreter) (outputs : list WriterOutput) : Exec Interpreter :=
  match outputs with
  | [] => Ret s
  | output :: outputs =>
      let! s :=
        match output with
        | Effect effect => spawn_effect s effect
        | Action action => execute_action s action
        end in
      execute_outputs s outputs
  end.

(** strom-storage-engine/src/writer.rs:101-122, [Writer::execute_step]. *)
Definition execute_step (s : Interpreter) (step : WriterStep) :
    Exec (Interpreter * option WriterExit) :=
  assert! zlen (step_outputs step) <=? WRITER_OUTPUTS_PER_STEP_MAX in
  assert! match step_exit step with
          | Some _ => forallb is_action (step_outputs step)
          | None => true
          end in
  let! s := execute_outputs s (step_outputs step) in
  Ret (s, step_exit step).

(** * The system *)

Record System : Type := mk_system {
  s_machine : WriterMachine;
  s_interp : Interpreter;
  s_received : list CommandEnvelope;
  s_wal : list EncodedWal
}.

(** The completion an outstanding effect may produce.  A preparation task returns
    what [PreparedCheckpoint::new] built from its own input, abandons, or reports a
    contradiction; it is cancelled only after an abort.
    strom-storage-engine/src/writer.rs:203-221, [joined_event]. *)
Inductive answers (aborted : list CheckpointTicket) : WriterEffect → WriterEvent → Prop :=
| answers_wal candidate result :
    answers aborted (EstablishWal candidate)
      (WalEstablished (encoded_wal_batch candidate) result)
| answers_prepared input successor candidate prepared :
    PreparedCheckpoint_new (input_ticket input) (input_source input) successor
      (input_snapshot input) candidate = Ret prepared →
    answers aborted (PrepareCheckpoint input)
      (CheckpointPrepared (input_ticket input) (Prepared prepared))
| answers_abandoned input :
    answers aborted (PrepareCheckpoint input) (CheckpointPrepared (input_ticket input) Abandoned)
| answers_contradiction input detail :
    answers aborted (PrepareCheckpoint input)
      (CheckpointPrepared (input_ticket input) (PreparationContradiction detail))
| answers_cancelled input :
    input_ticket input ∈ aborted →
    answers aborted (PrepareCheckpoint input)
      (CheckpointPreparationCancelled (input_ticket input))
| answers_published ticket candidate result :
    answers aborted (PublishAuthority ticket candidate) (SealPublished ticket result)
| answers_collected input :
    answers aborted (Collect input) (CollectFinished (collection_cut input)).

Definition with_effects (effects : list WriterEffect) (s : Interpreter) : Interpreter :=
  mk_interp effects (i_flush_timer s) (i_aborted s) (i_view s) (i_sent s).
Definition with_timer (timer : bool) (s : Interpreter) : Interpreter :=
  mk_interp (i_effects s) timer (i_aborted s) (i_view s) (i_sent s).

(** The WAL objects known durable after the completion of an effect. *)
Definition made_durable (effect : WriterEffect) (event : WriterEvent) : list EncodedWal :=
  match effect, event with
  | EstablishWal candidate, WalEstablished _ (Ok WalDurable) => [candidate]
  | _, _ => []
  end.

(** The interpreter's part of one iteration of the loop: what the observation
    takes from the interpreter before the machine handles it.
    strom-storage-engine/src/writer.rs:76-92, [Writer::run (select)]. *)
Inductive observes (s : System) : WriterEvent → System → Prop :=
| observes_start :
    w_started (s_machine s) = false → observes s Started s
| observes_effect effect event before after :
    w_started (s_machine s) = true →
    i_effects (s_interp s) = before ++ effect :: after →
    answers (i_aborted (s_interp s)) effect event →
    observes s event
      (mk_system (s_machine s) (with_effects (before ++ after) (s_interp s)) (s_received s)
         (s_wal s ++ made_durable effect event))
| observes_timer :
    w_started (s_machine s) = true → i_flush_timer (s_interp s) = true →
    observes s FlushDue
      (mk_system (s_machine s) (with_timer false (s_interp s)) (s_received s) (s_wal s))
| observes_command envelope :
    w_started (s_machine s) = true → admission_open (s_machine s) = Ret true →
    observes s (Command envelope)
      (mk_system (s_machine s) (s_interp s) (s_received s ++ [envelope]) (s_wal s))
| observes_closed :
    w_started (s_machine s) = true → admission_open (s_machine s) = Ret true →
    observes s IngressClosed s.

Section system.
  Context {HP : Heap} {RW : Rkyv ArchivedWalObject}.

(** strom-storage-engine/src/writer.rs:94-97, [Writer::run (handle)]. *)
Definition react (s : System) (now : Z) (event : WriterEvent) :
    Exec (System * option WriterExit) :=
  let! (m, step) := handle (s_machine s) now event in
  let! (interp, exit) := execute_step (s_interp s) step in
  Ret (mk_system m interp (s_received s) (s_wal s), exit).

(** strom-storage-engine/src/writer.rs:68-99, [Writer::run]. *)
Inductive sys_step (s : System) (now : Z) (event : WriterEvent) :
    System → option WriterExit → Prop :=
| sys_step_intro s1 s' exit :
    observes s event s1 → react s1 now event = Ret (s', exit) → sys_step s now event s' exit.

(** strom-storage-engine/src/writer.rs:44-66, [Writer::new]. *)
Definition sys_init (recovery : WriterRecovery) (flush_interval_min flush_buffer_bytes : Z) :
    Exec System :=
  let! m := from_recovery recovery flush_interval_min flush_buffer_bytes in
  Ret (mk_system m (mk_interp [] false [] (recovery_durable recovery) []) [] []).

(** Reachable live states: no exit yet, and the attempt counter not exhausted. *)
Inductive reachable (recovery : WriterRecovery) (interval buffer : Z) : System → Prop :=
| reachable_init s :
    sys_init recovery interval buffer = Ret s → reachable recovery interval buffer s
| reachable_step s now event s' :
    reachable recovery interval buffer s →
    w_checkpoint_attempt (s_machine s) < u64_max →
    sys_step s now event s' None →
    reachable recovery interval buffer s'.

(** Replies once sent stay sent. *)
Lemma execute_outputs_sent i outs i' :
  execute_outputs i outs = Ret i' → i_sent i `prefix_of` i_sent i'.
Proof.
  revert i. induction outs as [|out outs IH]; intros i; cbn [execute_outputs]; [by intros [= <-]|].
  destruct out as [effect|action].
  - unfold spawn_effect. destruct (negb _); [|done]. cbn [exec_bind]. intros Hx. exact (IH _ Hx).
  - destruct (execute_action i action) as [i1|] eqn:Ha; cbn [exec_bind]; [|done].
    intros Hx. etrans; [|by apply IH]. destruct action; simpl in Ha; repeat case_match; simplify_eq/=;
      try done. by apply prefix_app_r.
Qed.

Lemma sys_step_sent s now event s' exit :
  sys_step s now event s' exit → i_sent (s_interp s) `prefix_of` i_sent (s_interp s').
Proof.
  intros [s1 s2 ex Ho Hr]. assert (i_sent (s_interp s1) = i_sent (s_interp s)) as <- by (by destruct Ho).
  unfold react, execute_step in Hr. destruct (handle _ now event) as [[m step]|]; [|done].
  cbn [exec_bind] in Hr. destruct (_ <=? _); [|done].
  destruct (match step_exit step with Some _ => _ | None => _ end); [|done].
  destruct (execute_outputs _ _) as [i|] eqn:Hi; [|done]. injection Hr as <- <-.
  by apply execute_outputs_sent in Hi.
Qed.

End system.

(** * What a reply promises *)

Definition closed_or_gone (f : Forest) (path : StreamPath) : Prop :=
  match directory f !! path with
  | Some (Tombstone _) => True
  | Some (Live uid) => ∃ rec, ledger f !! uid = Some rec ∧ lifecycle rec = Closed
  | None => False
  end.

(** A positive completion of a command, and the state in which it may be sent:
    a created path is occupied, a closed stream is closed or deleted, a deleted
    path is a tombstone. *)
Definition promise (envelope : CommandEnvelope) (completion : Completion) (f : Forest) : Prop :=
  completion_reply completion = envelope_reply envelope ∧
  match envelope, completion with
  | CommandCreate command _, CompletionCreate (Ok _) _ =>
      is_Some (directory f !! create_path command)
  | CommandClose path _, CompletionClose (Ok _) _ => closed_or_gone f path
  | CommandDelete path _, CompletionDelete (Ok _) _ =>
      ∃ uid, directory f !! path = Some (Tombstone uid)
  | CommandCreate _ _, CompletionCreate (Err _) _
  | CommandClose _ _, CompletionClose (Err _) _
  | CommandDelete _ _, CompletionDelete (Err _) _ => True
  | _, _ => False
  end.

Lemma closed_or_gone_fold f batch fact f' path :
  forest_wf f → fold_spec f batch fact f' → closed_or_gone f path → closed_or_gone f' path.
Proof.
  intros Hwf Hs. unfold closed_or_gone.
  destruct (directory f !! path) as [[uid|uid]|] eqn:Hp; [| |done].
  - intros (rec & Hrec & Hcl).
    destruct Hs as [q u ct ex lc Hq Hu Hc Hl|q u r Hq Hr Ho|q u r Hq Hr]; simpl.
    + rewrite lookup_insert_ne, Hp by congruence. exists rec.
      rewrite lookup_insert_ne by congruence. done.
    + rewrite Hp. exists rec. rewrite lookup_insert_ne by congruence. done.
    + destruct (decide (q = path)) as [->|Hne]; [by rewrite lookup_insert_eq|].
      rewrite lookup_insert_ne, Hp by done. exists rec.
      rewrite lookup_delete_ne; [done|]. intros ->.
      apply Hne. by eapply (wf_unique f Hwf q path (Live uid) (Live uid)).
  - intros _. destruct Hs as [q u ct ex lc Hq Hu Hc Hl|q u r Hq Hr Ho|q u r Hq Hr]; simpl;
      rewrite ?lookup_insert_ne, ?Hp by congruence; done.
Qed.

(** Promises are monotone: what held when the command was admitted holds in every
    later forest. *)
Lemma promise_fold envelope c f batch fact f' :
  forest_wf f → fold_spec f batch fact f' → promise envelope c f → promise envelope c f'.
Proof.
  intros Hwf Hs [Hr Hp]. split; [done|]. pose proof (fold_spec_le _ _ _ _ Hs) as Hle.
  destruct envelope as [cmd r|path r|path r], c as [[?|?] ?|[?|?] ?|[?|?] ?]; try done.
  - destruct Hp as [e He]. destruct (Hle _ _ He) as (e' & He' & _). eauto.
  - by eapply closed_or_gone_fold.
  - destruct Hp as [u Hu]. destruct (Hle _ _ Hu) as (e' & He' & _ & Ht).
    naive_solver.
Qed.

Lemma promise_facts envelope c f batch facts f' :
  forest_wf f → facts_applied batch f facts f' → promise envelope c f → promise envelope c f'.
Proof.
  intros Hwf Hf. revert Hwf. induction Hf as [|f fact f1 facts f2 Hs _ IH]; [done|].
  intros Hwf Hp. apply IH; [by eapply fold_spec_wf|by eapply promise_fold].
Qed.

(** ** Admission keeps promises *)

Lemma apply_fact_Ret f batch fact r :
  forest_wf f → apply_fact f batch fact = Ret r →
  match r with
  | Ok a => fold_spec f batch fact (admitted_forest a) ∧ admitted_fact a = fact
  | Err _ => True
  end.
Proof.
  intros Hwf. unfold apply_fact.
  destruct (strict_fold_cases f batch fact Hwf) as [[e ->]|(f' & -> & Hs)]; cbn [exec_bind].
  - destruct (admission_refusal e); cbn [expect exec_bind]; [|done]. by intros [= <-].
  - by intros [= <-].
Qed.

Lemma admission_promise m envelope d :
  writer_core m → admission_decision m envelope = Ret d →
  match d with
  | AdmissionFact a c =>
      promise envelope c (admitted_forest a) ∧
      fold_spec (forest_of (w_admitted m)) (w_next_batch m) (admitted_fact a) (admitted_forest a)
  | AdmissionIdempotent c => promise envelope c (forest_of (w_admitted m))
  | AdmissionRefused c => ∀ f, promise envelope c f
  end.
Proof.
  intros C. pose proof (core_admitted_wf m C) as Hwf.
  destruct envelope as [cmd r|path r|path r]; cbn [admission_decision]; unfold promise.
  - unfold admit_create, resolve.
    destruct (directory _ !! create_path cmd) as [[u|u]|] eqn:Hp.
    + destruct (record _ u); cbn [expect exec_bind]; [|done].
      destruct (_ && _); cbn [exec_bind]; intros [= <-]; [|done].
      split; [done|]. by eexists.
    + by intros [= <-].
    + destruct (successor_uid _) as [[u|e]|]; cbn [exec_bind]; [| |done].
      * destruct (apply_fact _ _ _) as [[a|e]|] eqn:Ha; cbn [try_bind exec_bind]; [| |done];
          intros [= <-]; [|done].
        apply apply_fact_Ret in Ha as [Hs Hf]; [|done]. rewrite Hf. split; [|done].
        split; [done|]. inversion Hs; subst; simpl. by rewrite lookup_insert_eq.
      * destruct (admission_refusal e); cbn [expect exec_bind]; [|done]. by intros [= <-].
  - unfold admit_close. destruct (resolve_live_uid _ path) as [u|e] eqn:Hu; cbn [try_bind exec_bind];
      [|by intros [= <-]].
    apply resolve_live_uid_Ok in Hu.
    destruct (record _ u) as [rec|] eqn:Hr; cbn [expect exec_bind]; [|done].
    destruct (lifecycle rec) eqn:Hl; cbn [is_closed].
    + destruct (apply_fact _ _ _) as [[a|e]|] eqn:Ha; cbn [try_bind exec_bind]; [| |done];
        intros [= <-]; [|done].
      apply apply_fact_Ret in Ha as [Hs Hf]; [|done]. rewrite Hf. split; [|done].
      split; [done|]. inversion Hs; subst; simpl. unfold closed_or_gone; simpl. rewrite Hu.
      eexists. split; [apply lookup_insert_eq|done].
    + intros [= <-]. split; [done|]. unfold closed_or_gone. rewrite Hu. eauto.
  - unfold admit_delete. destruct (resolve_live_uid _ path) as [u|e] eqn:Hu; cbn [try_bind exec_bind];
      [|by intros [= <-]].
    destruct (apply_fact _ _ _) as [[a|e]|] eqn:Ha; cbn [try_bind exec_bind]; [| |done];
      intros [= <-]; [|done].
    apply apply_fact_Ret in Ha as [Hs Hf]; [|done]. rewrite Hf. split; [|done].
    split; [done|]. inversion Hs; subst; simpl. eexists. apply lookup_insert_eq.
Qed.

Lemma promise_refusal envelope c f refusal g :
  promise envelope c f → promise envelope (completion_refusal c refusal) g.
Proof. by destruct envelope, c as [[?|?] ?|[?|?] ?|[?|?] ?]; intros [? ?]. Qed.

(** The fields of the machine that admission does not touch. *)
Definition admit_frame (m m' : WriterMachine) : Prop :=
  w_flight m' = w_flight m ∧ w_durable m' = w_durable m ∧ w_durable_batch m' = w_durable_batch m ∧
  w_checkpoint m' = w_checkpoint m ∧ w_collector m' = w_collector m ∧ w_seal m' = w_seal m ∧
  w_claim m' = w_claim m ∧ w_ingress_open m' = w_ingress_open m ∧
  w_flush_armed m' = w_flush_armed m.

(** A command is answered at once, with a promise the durable forest keeps, or
    queued, with a promise the admitted forest keeps. *)
Inductive admitted_as (m : WriterMachine) (envelope : CommandEnvelope) :
    WriterMachine → option Completion → Prop :=
| admitted_now m' c :
    promise envelope c (forest_of (w_durable m)) → admit_frame m m' →
    w_pending m' = w_pending m → w_admitted m' = w_admitted m →
    admitted_as m envelope m' (Some c)
| admitted_queued m' c fact :
    promise envelope c (forest_of (w_admitted m')) → admit_frame m m' →
    barrier_commands (w_pending m') = barrier_commands (w_pending m) ++ [mk_pending fact c] →
    facts_applied (w_next_batch m) (forest_of (w_admitted m)) (option_list fact)
      (forest_of (w_admitted m')) →
    admitted_as m envelope m' None.

Lemma admit_admitted m envelope m' o :
  writer_core m → admit_command m envelope = Ret (m', o) → admitted_as m envelope m' o.
Proof.
  intros C. unfold admit_command. destruct (_ || _); [|done].
  destruct (admission_decision m envelope) as [d|] eqn:Hd; cbn [exec_bind]; [|done].
  apply (admission_promise m envelope d C) in Hd. destruct d as [a c|c|c].
  - destruct Hd as [Hp Hs]. unfold accept_fact. destruct (negb _).
    { intros [= <- <-]. apply admitted_now; try done. by eapply promise_refusal. }
    simpl. destruct (push_fact _ _ _) as [p|] eqn:Hpush; cbn [exec_bind]; [|done].
    destruct (bytes_estimated _); cbn [exec_bind]; [|done].
    destruct (_ <=? _); [|done]. intros [= <- <-].
    unfold push_fact in Hpush. destruct (u64_checked_add _ _); [|done]. simpl in Hpush.
    injection Hpush as <-.
    apply admitted_queued with c (Some (admitted_fact a)); try done.
    simpl. econstructor; [done|constructor].
  - unfold accept_idempotent. destruct (bool_decide _ && _) eqn:Hnow; intros [= <- <-].
    + apply andb_true_iff in Hnow as [Hfl%bool_decide_eq_true Hno%negb_true_iff].
      rewrite has_facts_spec in Hno by done. apply negb_false_iff, bool_decide_eq_true in Hno.
      apply (core_roots m C) in Hno. unfold head_forest in Hno. rewrite Hfl in Hno.
      apply admitted_now; try done. by rewrite <- Hno.
    + apply admitted_queued with c None; try done. constructor.
  - intros [= <- <-]. apply admitted_now; done.
Qed.

(** * The system invariant *)

Section invariant.
  Context {HP : Heap} {HL : HeapLaws} {RW : Rkyv ArchivedWalObject}
    {RL : RkyvLaws ArchivedWalObject} {SL : WalSizeLaw}.
  Context (recovery : WriterRecovery).

(** The bytes of a RUN of this owner at a batch, with its facts. *)
Definition run_candidate (candidate : EncodedWal) (entry : BatchId * list OperationFact) : Prop :=
  ∃ facts, facts_slice facts = entry.2 ∧
    candidate = mk_encoded_wal (seal_partition (recovery_seal recovery)) entry.1
      (rkyv_bytes (archive_wal (mk_wal_object (seal_partition (recovery_seal recovery)) entry.1
        (claim_owner (recovery_claim recovery)) (Run facts)))).

Definition wal_part (m : WriterMachine) (l : list WriterEffect) : Prop :=
  match w_flight m with
  | None => l = []
  | Some f => ∃ c facts, l = [EstablishWal c] ∧ run_candidate c (flight_batch f, facts) ∧
      facts_applied (flight_batch f) (forest_of (w_durable m)) facts (forest_of (flight_forest f))
  end.

Definition checkpoint_part (m : WriterMachine) (aborted : list CheckpointTicket)
    (l : list WriterEffect) : Prop :=
  match w_checkpoint m with
  | None => l = []
  | Some (Preparing t) => (t ∉ aborted) ∧
      ∃ input, l = [PrepareCheckpoint input] ∧ input_ticket input = t ∧ input_source input = w_seal m
  | Some (Cancelling t) =>
      ∃ input, l = [PrepareCheckpoint input] ∧ input_ticket input = t ∧ input_source input = w_seal m
  | Some (Publishing t p) => l = [PublishAuthority t (prepared_candidate p)]
  end.

Definition collector_part (m : WriterMachine) (l : list WriterEffect) : Prop :=
  match w_collector m with
  | None => l = []
  | Some cut => ∃ input, l = [Collect input] ∧ collection_cut input = cut
  end.

Definition flight_completions (m : WriterMachine) : list Completion :=
  match w_flight m with Some f => flight_replies f | None => [] end.
Definition pending_completions (m : WriterMachine) : list Completion :=
  pending_completion <$> barrier_commands (w_pending m).

Definition answered (received : list CommandEnvelope) (l : list Completion) (f : Forest) : Prop :=
  ∀ c, c ∈ l → ∃ envelope, envelope ∈ received ∧ promise envelope c f.

(** The durable log: what the written objects hold, at consecutive batches from
    the recovered one. *)
Record durable_log (m : WriterMachine) (wal : list EncodedWal)
    (log : list (BatchId * list OperationFact)) : Prop := {
  log_objects : Forall2 run_candidate wal log;
  log_folds : log_applied (recovery_durable recovery) log (forest_of (w_durable m));
  log_consecutive : (coord_get <$> log.*1) =
    seqZ (coord_get (recovery_durable_batch recovery) + 1) (zlen log);
  log_head : coord_get (w_durable_batch m) =
    coord_get (recovery_durable_batch recovery) + zlen log
}.

Record effects_of (m : WriterMachine) (aborted : list CheckpointTicket)
    (effects ew ep ec : list WriterEffect) : Prop := {
  effects_perm : effects ≡ₚ ew ++ ep ++ ec;
  effects_wal : wal_part m ew;
  effects_checkpoint : checkpoint_part m aborted ep;
  effects_collector : collector_part m ec
}.

Record linked (m : WriterMachine) (i : Interpreter) (received : list CommandEnvelope)
    (wal : list EncodedWal) : Prop := {
  li_effects : ∃ ew ep ec, effects_of m (i_aborted i) (i_effects i) ew ep ec;
  li_timer : i_flush_timer i = w_flush_armed m;
  li_aborted : w_ingress_open m = true → i_aborted i = [];
  li_view : i_view i = forest_of (w_durable m);
  li_sent : answered received (i_sent i) (forest_of (w_durable m));
  li_flight : answered received (flight_completions m) (forest_of (head_forest m));
  li_pending : answered received (pending_completions m) (forest_of (w_admitted m));
  li_replies : (envelope_reply <$> received) ≡ₚ
    (completion_reply <$> i_sent i ++ flight_completions m ++ pending_completions m);
  li_log : ∃ log, durable_log m wal log;
  li_partition : seal_partition (w_seal m) = seal_partition (recovery_seal recovery);
  li_claim : w_claim m = recovery_claim recovery
}.

Lemma answered_app received l k f :
  answered received (l ++ k) f ↔ answered received l f ∧ answered received k f.
Proof. unfold answered. setoid_rewrite elem_of_app. naive_solver. Qed.

Lemma answered_singleton received c f :
  answered received [c] f ↔ ∃ envelope, envelope ∈ received ∧ promise envelope c f.
Proof. unfold answered. setoid_rewrite list_elem_of_singleton. naive_solver. Qed.

Lemma answered_more received received' l f :
  received ⊆ received' → answered received l f → answered received' l f.
Proof. intros Hsub Ha c Hc. destruct (Ha c Hc) as (e & He & Hp). eauto. Qed.

Lemma answered_facts received l batch f facts f' :
  forest_wf f → facts_applied batch f facts f' → answered received l f → answered received l f'.
Proof.
  intros Hwf Hf Ha c Hc. destruct (Ha c Hc) as (e & He & Hp). exists e. split; [done|].
  by eapply promise_facts.
Qed.

(** ** Keys of the outstanding effects *)

Definition is_wal_key (k : EffectKey) : bool := match k with KeyWal _ => true | _ => false end.
Definition is_checkpoint_key (k : EffectKey) : bool :=
  match k with KeyCheckpointPreparation _ | KeySealPublication _ => true | _ => false end.
Definition is_collection_key (k : EffectKey) : bool :=
  match k with KeyCollection _ => true | _ => false end.

Lemma wal_part_keys m l e : wal_part m l → e ∈ l → is_wal_key (effect_key e) = true.
Proof.
  unfold wal_part. destruct (w_flight m); [|by intros -> ?%not_elem_of_nil].
  intros (c & facts & -> & _) ->%list_elem_of_singleton. done.
Qed.

Lemma checkpoint_part_keys m ab l e :
  checkpoint_part m ab l → e ∈ l → is_checkpoint_key (effect_key e) = true.
Proof.
  unfold checkpoint_part. destruct (w_checkpoint m) as [[t|t|t p]|].
  - intros (_ & input & -> & _) ->%list_elem_of_singleton. done.
  - intros (input & -> & _) ->%list_elem_of_singleton. done.
  - intros -> ->%list_elem_of_singleton. done.
  - by intros -> ?%not_elem_of_nil.
Qed.

Lemma collector_part_keys m l e :
  collector_part m l → e ∈ l → is_collection_key (effect_key e) = true.
Proof.
  unfold collector_part. destruct (w_collector m); [|by intros -> ?%not_elem_of_nil].
  intros (input & -> & _) ->%list_elem_of_singleton. done.
Qed.

Lemma effects_elem m ab effects ew ep ec e :
  effects_of m ab effects ew ep ec → e ∈ effects →
  (e ∈ ew ∧ is_wal_key (effect_key e) = true) ∨
  (e ∈ ep ∧ is_checkpoint_key (effect_key e) = true) ∨
  (e ∈ ec ∧ is_collection_key (effect_key e) = true).
Proof.
  intros [Hp Hw Hc Hl] He. rewrite Hp in He.
  apply elem_of_app in He as [He|[He|He]%elem_of_app];
    eauto 6 using wal_part_keys, checkpoint_part_keys, collector_part_keys.
Qed.

(** A new effect is accepted when its part is empty. *)
Lemma spawn_ok m i ew ep ec e :
  effects_of m (i_aborted i) (i_effects i) ew ep ec →
  (is_wal_key (effect_key e) = true → ew = []) →
  (is_checkpoint_key (effect_key e) = true → ep = []) →
  (is_collection_key (effect_key e) = true → ec = []) →
  spawn_effect i e = Ret (with_effects (i_effects i ++ [e]) i).
Proof.
  intros He H1 H2 H3. unfold spawn_effect. rewrite bool_decide_eq_false_2; [done|].
  intros (e' & Hk & Hin)%list_elem_of_fmap. rewrite Hk in *.
  destruct (effects_elem _ _ _ _ _ _ _ He Hin) as [[Hx Hy]|[[Hx Hy]|[Hx Hy]]];
    [rewrite (H1 Hy) in Hx|rewrite (H2 Hy) in Hx|rewrite (H3 Hy) in Hx]; by apply not_elem_of_nil in Hx.
Qed.

Lemma singleton_part (l : list WriterEffect) e : (length l ≤ 1)%nat → e ∈ l → l = [e].
Proof.
  destruct l as [|x [|y l]]; simpl; intros Hl He; [by apply not_elem_of_nil in He| |lia].
  by apply list_elem_of_singleton in He as ->.
Qed.

Lemma parts_short m ab effects ew ep ec :
  effects_of m ab effects ew ep ec → (length ew ≤ 1 ∧ length ep ≤ 1 ∧ length ec ≤ 1)%nat.
Proof.
  intros [_ Hw Hc Hl]. unfold wal_part, checkpoint_part, collector_part in *.
  destruct (w_flight m), (w_checkpoint m) as [[]|], (w_collector m);
    naive_solver (subst; simpl; lia).
Qed.

(** What is left when an effect completes. *)
Lemma remove_effect m ab before e after ew ep ec :
  effects_of m ab (before ++ e :: after) ew ep ec →
  match effect_key e with
  | KeyWal _ => ew = [e] ∧ before ++ after ≡ₚ [] ++ ep ++ ec
  | KeyCollection _ => ec = [e] ∧ before ++ after ≡ₚ ew ++ ep ++ []
  | _ => ep = [e] ∧ before ++ after ≡ₚ ew ++ [] ++ ec
  end.
Proof.
  intros He. destruct (parts_short _ _ _ _ _ _ He) as (H1 & H2 & H3).
  pose proof (effects_perm _ _ _ _ _ _ He) as Hp.
  destruct (effects_elem _ _ _ _ _ _ e He) as [[Hx Hk]|[[Hx Hk]|[Hx Hk]]]; [set_solver| | |];
    apply singleton_part in Hx; try done; subst; rewrite <- Permutation_middle in Hp;
    destruct (effect_key e); try done; (split; [done|]).
  - by apply (Permutation_cons_inv (a := e)).
  - change ([e] ++ ec) with (e :: ec) in Hp. rewrite <- (Permutation_middle ew) in Hp.
    by apply (Permutation_cons_inv (a := e)) in Hp.
  - change ([e] ++ ec) with (e :: ec) in Hp. rewrite <- (Permutation_middle ew) in Hp.
    by apply (Permutation_cons_inv (a := e)) in Hp.
  - rewrite (assoc_L (++)), <- Permutation_middle in Hp.
    apply (Permutation_cons_inv (a := e)) in Hp. by rewrite (assoc_L (++)).
Qed.

(** ** Each observation *)

(** An observation answers issued work. *)
Lemma observes_enabled s event s1 :
  writer_inv (s_machine s) → linked (s_machine s) (s_interp s) (s_received s) (s_wal s) →
  observes s event s1 → enabled (s_machine s) event.
Proof.
  intros I L Ho. destruct (li_effects _ _ _ _ L) as (ew & ep & ec & He).
  destruct Ho as [Hs|e event before after Hs Hsplit Ha|Hs Ht|envelope Hs Hop|Hs Hop].
  - by split.
  - rewrite Hsplit in He. pose proof (remove_effect _ _ _ _ _ _ _ _ He) as Hr.
    destruct He as [_ Hw Hc Hl].
    destruct Ha as [c result|input suc cand prep Hprep|input|input d|input Hab|t c r|input];
      simpl in Hr; destruct Hr as [-> _]; (split; [done|]); simpl.
    + unfold wal_part in Hw. destruct (w_flight (s_machine s)) as [f|]; [|done].
      destruct Hw as (c' & facts & [= <-] & (? & _ & Hc') & _). exists f. split; [done|].
      by rewrite Hc'.
    + unfold checkpoint_part in Hc. destruct (w_checkpoint (s_machine s)) as [[t|t|t p]|]; try done.
      * destruct Hc as (_ & i & [= <-] & <- & Hsrc). split; [by left|]. rewrite Hsrc in Hprep.
        pose proof (PreparedCheckpoint_new_Ret _ _ _ _ _ _ Hprep) as [-> _]. exact Hprep.
      * destruct Hc as (i & [= <-] & <- & Hsrc). split; [by right|]. rewrite Hsrc in Hprep.
        pose proof (PreparedCheckpoint_new_Ret _ _ _ _ _ _ Hprep) as [-> _]. exact Hprep.
    + unfold checkpoint_part in Hc. destruct (w_checkpoint (s_machine s)) as [[t|t|t p]|]; naive_solver.
    + unfold checkpoint_part in Hc. destruct (w_checkpoint (s_machine s)) as [[t|t|t p]|]; naive_solver.
    + unfold checkpoint_part in Hc. destruct (w_checkpoint (s_machine s)) as [[t|t|t p]|]; naive_solver.
    + unfold checkpoint_part in Hc. destruct (w_checkpoint (s_machine s)) as [[t'|t'|t' p]|]; naive_solver.
    + unfold collector_part in Hl. destruct (w_collector (s_machine s)); naive_solver.
  - split; [done|]. simpl. rewrite <- (li_timer _ _ _ _ L). done.
  - by split.
  - split; [done|]. simpl. rewrite admission_open_ok in Hop by apply I.
    injection Hop as Hop%andb_true_iff. apply Hop.
Qed.

Lemma durable_log_frame m m' wal log :
  w_durable m' = w_durable m → w_durable_batch m' = w_durable_batch m →
  durable_log m wal log → durable_log m' wal log.
Proof. intros Hd Hb []. split; try done; by rewrite ?Hd, ?Hb. Qed.

Lemma effects_of_frame m m' ab effects ew ep ec :
  w_flight m' = w_flight m → w_durable m' = w_durable m → w_checkpoint m' = w_checkpoint m →
  w_seal m' = w_seal m → w_collector m' = w_collector m →
  effects_of m ab effects ew ep ec → effects_of m' ab effects ew ep ec.
Proof.
  intros Hf Hd Hc Hs Hl [Hp H1 H2 H3]. split; [done|..];
    unfold wal_part, checkpoint_part, collector_part in *; by rewrite ?Hf, ?Hd, ?Hc, ?Hs, ?Hl.
Qed.

Lemma linked_started m i received wal :
  linked m i received wal → linked (set_started true m) i received wal.
Proof.
  intros [(ew & ep & ec & He) ? ? ? ? ? ? ? (log & Hlog) ? ?]. split; try done.
  - exists ew, ep, ec. by apply (effects_of_frame m).
  - exists log. by apply (durable_log_frame m).
Qed.

Lemma linked_command m i received wal envelope m' o :
  writer_core m → linked m i received wal → admitted_as m envelope m' o →
  ∃ i1, execute_outputs i (reply_outputs o) = Ret i1 ∧ linked m' i1 (received ++ [envelope]) wal.
Proof.
  intros C [(ew & ep & ec & He) Ht Hab Hv Hs Hf Hp Hr (log & Hlog) Hpart Hcl] Ha.
  pose proof (core_admitted_wf m C) as Hwf.
  assert (received ⊆ received ++ [envelope]) as Hsub by set_solver.
  assert (promise_received : ∀ c f, promise envelope c f →
    answered (received ++ [envelope]) [c] f).
  { intros c f Hc. apply answered_singleton. exists envelope. split; [set_solver|done]. }
  destruct Ha as [m' c Hc (Ef & Ed & Eb & Ec & El & Es & Ecl & Eo & Ea) Epend Eadm
    |m' c fact Hc (Ef & Ed & Eb & Ec & El & Es & Ecl & Eo & Ea) Epend Hfacts];
    (eexists; split; [reflexivity|]);
    assert (Efc : flight_completions m' = flight_completions m) by (by unfold flight_completions; rewrite Ef);
    assert (Ehf : head_forest m' = head_forest m) by (by unfold head_forest; rewrite Ef, Ed).
  - assert (Epc : pending_completions m' = pending_completions m)
      by (by unfold pending_completions; rewrite Epend).
    split; simpl; rewrite ?Efc, ?Epc, ?Ehf, ?Ed, ?Eadm, ?Ea, ?Eo, ?Es, ?Ecl; try done.
    + exists ew, ep, ec. by apply (effects_of_frame m).
    + apply answered_app. split; [by eapply answered_more|by apply promise_received].
    + by eapply answered_more.
    + by eapply answered_more.
    + rewrite fmap_app, Hr. rewrite <- (assoc_L (++)). rewrite !fmap_app; simpl.
      rewrite (proj1 Hc). solve_Permutation.
    + exists log. by apply (durable_log_frame m).
  - assert (Epc : pending_completions m' = pending_completions m ++ [c])
      by (by unfold pending_completions; rewrite Epend, fmap_app).
    split; simpl; rewrite ?Efc, ?Epc, ?Ehf, ?Ed, ?Ea, ?Eo, ?Es, ?Ecl; try done.
    + exists ew, ep, ec. by apply (effects_of_frame m).
    + by eapply answered_more.
    + by eapply answered_more.
    + apply answered_app. split; [|by apply promise_received].
      eapply answered_more; [done|]. by eapply answered_facts.
    + rewrite fmap_app, Hr. rewrite !fmap_app; simpl.
      rewrite (proj1 Hc). solve_Permutation.
    + exists log. by apply (durable_log_frame m).
Qed.

Lemma durable_log_snoc m wal log f c facts :
  writer_core m → durable_log m wal log → w_flight m = Some f →
  run_candidate c (flight_batch f, facts) →
  facts_applied (flight_batch f) (forest_of (w_durable m)) facts (forest_of (flight_forest f)) →
  durable_log (set_durable_batch (flight_batch f) (set_durable (flight_forest f) (set_flight None m)))
    (wal ++ [c]) (log ++ [(flight_batch f, facts)]).
Proof.
  intros C [Ho Hl Hcons Hhd] Hfl Hrun Hfacts.
  pose proof (core_flight m C) as Hb. unfold flight_ok in Hb. rewrite Hfl in Hb.
  destruct Hb as (Hb & _ & _).
  assert (zlen (log ++ [(flight_batch f, facts)]) = zlen log + 1) as Hlen
    by (unfold zlen; rewrite length_app; simpl; lia).
  split; simpl.
  - apply Forall2_app; [done|]. by constructor.
  - by eapply log_applied_snoc.
  - rewrite Hlen, seqZ_app by (unfold zlen; lia). rewrite fmap_app, fmap_app, Hcons. simpl.
    f_equal. rewrite seqZ_cons, seqZ_nil by lia. f_equal. lia.
  - lia.
Qed.

(** A durable RUN extends the log, publishes its forest and answers its commands. *)
Lemma linked_durable m i received wal f before c facts after ep ec :
  writer_core m → linked m i received wal → w_flight m = Some f →
  effects_of m (i_aborted i) (before ++ EstablishWal c :: after) [EstablishWal c] ep ec →
  run_candidate c (flight_batch f, facts) →
  facts_applied (flight_batch f) (forest_of (w_durable m)) facts (forest_of (flight_forest f)) →
  ∃ i1, execute_outputs (with_effects (before ++ after) i)
      [Action (PublishView (forest_of (flight_forest f)));
       Action (SendReplies (flight_replies f))] = Ret i1 ∧
    linked (set_durable_batch (flight_batch f) (set_durable (flight_forest f) (set_flight None m)))
      i1 received (wal ++ [c]).
Proof.
  intros C [_ Ht Hab Hv Hs Hf Hp Hr (log & Hlog) Hpart Hcl] Hfl He Hrun Hfacts.
  pose proof (remove_effect _ _ _ _ _ _ _ _ He) as [_ Hrest]. destruct He as [_ _ Hck Hcol].
  unfold flight_completions, head_forest in *. rewrite Hfl in *.
  eexists. split; [reflexivity|]. split; simpl; try done.
  - exists [], ep, ec. split; done.
  - apply answered_app. split; [|done]. eapply answered_facts; [apply (core_durable m C)|done..].
  - by intros c' ?%not_elem_of_nil.
  - unfold flight_completions; simpl. unfold pending_completions in *; simpl.
    rewrite Hr. by rewrite <- (assoc_L (++)).
  - exists (log ++ [(flight_batch f, facts)]). by eapply durable_log_snoc.
Qed.

(** Events that move neither commands nor facts. *)
Definition control_frame (m m' : WriterMachine) : Prop :=
  w_flight m' = w_flight m ∧ w_durable m' = w_durable m ∧ w_durable_batch m' = w_durable_batch m ∧
  w_pending m' = w_pending m ∧ w_admitted m' = w_admitted m ∧ w_claim m' = w_claim m ∧
  seal_partition (w_seal m') = seal_partition (w_seal m).

Lemma linked_control m m' i i' received wal ew ep ec :
  linked m i received wal → control_frame m m' →
  effects_of m' (i_aborted i') (i_effects i') ew ep ec →
  i_flush_timer i' = w_flush_armed m' → (w_ingress_open m' = true → i_aborted i' = []) →
  i_view i' = forest_of (w_durable m) → i_sent i' = i_sent i →
  linked m' i' received wal.
Proof.
  intros [_ Ht Hab Hv Hs Hf Hp Hr (log & Hlog) Hpart Hcl] (Ef & Ed & Eb & Ep & Ea & Ec & Es)
    He Ht' Hab' Hv' Hs'.
  assert (Efc : flight_completions m' = flight_completions m) by (by unfold flight_completions; rewrite Ef).
  assert (Ehf : head_forest m' = head_forest m) by (by unfold head_forest; rewrite Ef, Ed).
  assert (Epc : pending_completions m' = pending_completions m)
    by (by unfold pending_completions; rewrite Ep).
  split; rewrite ?Efc, ?Epc, ?Ehf, ?Ed, ?Ea, ?Ec, ?Es, ?Hv', ?Hs'; try done.
  - eauto.
  - exists log. by apply (durable_log_frame m).
Qed.

(** The wal part depends only on the flight and the durable forest. *)
Lemma wal_part_frame m m' l :
  w_flight m' = w_flight m → w_durable m' = w_durable m → wal_part m l → wal_part m' l.
Proof. unfold wal_part. by intros -> ->. Qed.

Lemma collector_part_frame m m' l :
  w_collector m' = w_collector m → collector_part m l → collector_part m' l.
Proof. unfold collector_part. by intros ->. Qed.

Lemma linked_flush_due m i received wal :
  linked m i received wal →
  linked (set_flush_armed false m) (with_timer false i) received wal.
Proof.
  intros L. destruct (li_effects _ _ _ _ L) as (ew & ep & ec & He).
  eapply (linked_control m _ i _ _ _ ew ep ec); try done.
  - by apply (effects_of_frame m).
  - apply (li_aborted _ _ _ _ L).
  - apply (li_view _ _ _ _ L).
Qed.

Lemma linked_closed m i received wal outs m' :
  linked m i received wal → applied m IngressClosed m' outs →
  ∃ i1, execute_outputs i outs = Ret i1 ∧ linked m' i1 received wal.
Proof.
  intros L Ha. destruct (li_effects _ _ _ _ L) as (ew & ep & ec & He).
  inversion Ha as [| | |t Hck| Hck| | | | | | |]; subst.
  - pose proof He as [Hp Hw Hc Hl]. unfold checkpoint_part in Hc. rewrite Hck in Hc.
    destruct Hc as (_ & input & -> & Hin & Hsrc).
    cbn [execute_outputs execute_action exec_bind]. rewrite bool_decide_eq_true_2.
    2:{ apply list_elem_of_fmap. exists (PrepareCheckpoint input). simpl. rewrite Hin.
        split; [done|]. rewrite Hp. set_solver. }
    eexists. split; [reflexivity|].
    eapply (linked_control m _ i _ _ _ ew [PrepareCheckpoint input] ec); try done; simpl.
    + split; simpl; try done. unfold checkpoint_part; simpl. eauto.
    + apply (li_timer _ _ _ _ L).
    + apply (li_view _ _ _ _ L).
  - eexists. split; [reflexivity|].
    eapply (linked_control m _ i _ _ _ ew ep ec); try done; simpl.
    + by apply (effects_of_frame m).
    + apply (li_timer _ _ _ _ L).
    + apply (li_view _ _ _ _ L).
Qed.

(** The checkpoint effect completed: the marker is cleared, or replaced by the
    publication. *)
Lemma linked_unprepared m i received wal before e after ew ec :
  linked m i received wal → before ++ after ≡ₚ ew ++ [] ++ ec →
  effects_of m (i_aborted i) (before ++ e :: after) ew [e] ec →
  linked (set_checkpoint None m) (with_effects (before ++ after) i) received wal.
Proof.
  intros L Hrest [_ Hw _ Hl].
  eapply (linked_control m _ i _ _ _ ew [] ec); try done; simpl.
  - apply (li_timer _ _ _ _ L).
  - apply (li_aborted _ _ _ _ L).
  - apply (li_view _ _ _ _ L).
Qed.

Lemma linked_prepared m i received wal before e after ew ec t p :
  linked m i received wal → before ++ after ≡ₚ ew ++ [] ++ ec →
  effects_of m (i_aborted i) (before ++ e :: after) ew [e] ec →
  ∃ i1, execute_outputs (with_effects (before ++ after) i)
      [Effect (PublishAuthority t (prepared_candidate p))] = Ret i1 ∧
    linked (set_checkpoint (Some (Publishing t p)) m) i1 received wal.
Proof.
  intros L Hrest He. pose proof (linked_unprepared _ _ _ _ _ _ _ _ _ L Hrest He) as Lu.
  destruct He as [_ Hw _ Hl].
  cbn [execute_outputs exec_bind].
  erewrite (spawn_ok (set_checkpoint None m) _ ew [] ec) by done. cbn [exec_bind].
  eexists. split; [reflexivity|].
  eapply (linked_control _ _ _ _ _ _ ew [PublishAuthority t (prepared_candidate p)] ec);
    [exact Lu|done|..]; simpl; try done.
  - split; simpl; try done. rewrite Hrest. simpl. solve_Permutation.
  - apply (li_timer _ _ _ _ L).
  - apply (li_aborted _ _ _ _ L).
  - apply (li_view _ _ _ _ L).
Qed.

Lemma linked_published m i received wal before e after ew ec t p outs m' :
  writer_core m → linked m i received wal → before ++ after ≡ₚ ew ++ [] ++ ec →
  effects_of m (i_aborted i) (before ++ e :: after) ew [e] ec →
  applied m (SealPublished t (Ok Authored)) m' outs → w_checkpoint m = Some (Publishing t p) →
  ∃ i1, execute_outputs (with_effects (before ++ after) i) outs = Ret i1 ∧ linked m' i1 received wal.
Proof.
  intros C L Hrest [_ Hw _ Hl] Ha Hck.
  pose proof (core_checkpoint m C) as Hok. unfold checkpoint_ok in Hok. rewrite Hck in Hok.
  destruct Hok as [_ Hprep].
  pose proof (PreparedCheckpoint_new_Ret _ _ _ _ _ _ Hprep) as (_ & _ & Hpart & _).
  inversion Ha as [| | | | | | | |t1 p1 Hck1|t1 p1 Hck1 Hop Hcol| |]; subst;
    assert (p1 = p) as -> by congruence.
  - eexists. split; [reflexivity|].
    eapply (linked_control m _ i _ _ _ ew [] ec); try done; simpl.
    + apply (li_timer _ _ _ _ L).
    + apply (li_aborted _ _ _ _ L).
  - unfold collector_part in Hl. rewrite Hcol in Hl. subst ec.
    cbn [execute_outputs execute_action exec_bind].
    assert (effects_of (published m p) (i_aborted i) (before ++ after) ew [] []) as He.
    { split; try done. unfold collector_part; simpl. by rewrite Hcol. }
    erewrite (spawn_ok (published m p) _ ew [] []) by (exact He || done). cbn [exec_bind].
    eexists. split; [reflexivity|]. set (input := mk_collection _ _ _).
    eapply (linked_control m _ i _ _ _ ew [] [Collect input]); try done; simpl.
    + split; simpl; try done.
      * rewrite Hrest. simpl. by rewrite (right_id_L [] (++)).
      * unfold collector_part; simpl. eauto.
    + apply (li_timer _ _ _ _ L).
    + apply (li_aborted _ _ _ _ L).
Qed.

Lemma linked_collected m i received wal before e after ew ep :
  linked m i received wal → before ++ after ≡ₚ ew ++ ep ++ [] →
  effects_of m (i_aborted i) (before ++ e :: after) ew ep [e] →
  linked (set_collector None m) (with_effects (before ++ after) i) received wal.
Proof.
  intros L Hrest [_ Hw Hc _].
  eapply (linked_control m _ i _ _ _ ew ep []); try done; simpl.
  - apply (li_timer _ _ _ _ L).
  - apply (li_aborted _ _ _ _ L).
  - apply (li_view _ _ _ _ L).
Qed.

(** The machine's part of every observation keeps the link. *)
Lemma applied_linked s event s1 m1 outs :
  let m := s_machine s in
  writer_core m → linked m (s_interp s) (s_received s) (s_wal s) →
  observes s event s1 → applied m event m1 outs →
  ∃ i1, execute_outputs (s_interp s1) outs = Ret i1 ∧ linked m1 i1 (s_received s1) (s_wal s1).
Proof.
  intros m C L Ho Ha.
  destruct Ho as [Hs|e event before after Hs Hsplit Hans|Hs Ht|envelope Hs Hop|Hs Hop]; simpl.
  - inversion Ha; subst. eauto.
  - destruct (li_effects _ _ _ _ L) as (ew & ep & ec & He). rewrite Hsplit in He.
    pose proof (remove_effect _ _ _ _ _ _ _ _ He) as Hr.
    inversion Ha as [| | | | |f Hf|t p Hck Hp|t outcome Hck|t p Hck|t p Hck Hop Hcol|cut|t Hck];
      subst; inversion Hans; subst; simpl in Hr; destruct Hr as [-> Hrest];
      cbn [s_interp s_received s_wal made_durable]; rewrite ?(right_id_L [] (++)).
    + pose proof (effects_wal _ _ _ _ _ _ He) as Hw. unfold wal_part in Hw.
      fold m in Hw. rewrite Hf in Hw. destruct Hw as (c & facts & [= ->] & Hrun & Hfacts).
      match goal with H : encoded_wal_batch _ = flight_batch _ |- _ => rewrite ?H end.
      by eapply linked_durable.
    + by eapply linked_prepared.
    + eexists. split; [reflexivity|]. by eapply linked_unprepared.
    + eexists. split; [reflexivity|]. by eapply linked_unprepared.
    + eexists. split; [reflexivity|]. by eapply linked_unprepared.
    + by eapply linked_published.
    + by eapply linked_published.
    + eexists. split; [reflexivity|]. by eapply linked_collected.
    + eexists. split; [reflexivity|]. by eapply linked_unprepared.
  - inversion Ha; subst. eexists. split; [reflexivity|]. by apply linked_flush_due.
  - inversion Ha as [|env m' o Hadm| | | | | | | | | |]; subst.
    eapply linked_command; [done..|]. by apply admit_admitted.
  - by eapply linked_closed.
Qed.

(** ** Scheduling *)

Lemma drained_linked m now i received wal m' out :
  writer_core m → linked m i received wal → waiting m → drained m now m' out →
  ∃ i1, execute_outputs i [out] = Ret i1 ∧ linked m' i1 received wal.
Proof.
  intros C [(ew & ep & ec & He) Ht Hab Hv Hs Hf Hp Hr (log & Hlog) Hpart Hcl] [Hfl Hne] Hd.
  pose proof (core_flight m C) as Hb. unfold flight_ok in Hb.
  pose proof (core_pending m C) as Hpend. unfold head_forest, flight_completions in *.
  pose proof (effects_wal _ _ _ _ _ _ He) as Hw. unfold wal_part in Hw. rewrite Hfl in *. subst ew.
  destruct Hd as [Hno|facts next Hfacts Hnext].
  - eexists. split; [reflexivity|].
    pose proof (core_roots m C Hno) as Hroot. unfold head_forest in Hroot. rewrite Hfl in Hroot.
    split; simpl; unfold flight_completions, head_forest; simpl; rewrite ?Hfl; try done.
    + exists [], ep, ec. by apply (effects_of_frame m).
    + apply answered_app. split; [done|]. by rewrite <- Hroot.
    + rewrite Hr. unfold pending_completions; simpl. by rewrite !(right_id_L [] (++)).
    + exists log. by apply (durable_log_frame m).
  - cbn [execute_outputs]. erewrite (spawn_ok m _ [] ep ec) by done. cbn [exec_bind].
    eexists. split; [reflexivity|].
    split; simpl; unfold flight_completions, head_forest; simpl; try done.
    + eexists [_], ep, ec. split; simpl; try done.
      * rewrite (effects_perm _ _ _ _ _ _ He). simpl. solve_Permutation.
      * unfold wal_part; simpl. eexists _, (facts_of (w_pending m)). split; [done|]. split; [|done].
        exists facts. split; [done|]. simpl. unfold run_object. by rewrite Hpart, Hcl.
      * apply (effects_checkpoint _ _ _ _ _ _ He).
      * apply (effects_collector _ _ _ _ _ _ He).
    + by intros c ?%not_elem_of_nil.
    + rewrite Hr. unfold pending_completions; simpl. by rewrite !(right_id_L [] (++)).
    + exists log. by apply (durable_log_frame m).
Qed.

Lemma flushed_linked m now i received wal m' outs :
  writer_core m → linked m i received wal → flushed m now m' outs →
  ∃ i1, execute_outputs i outs = Ret i1 ∧ linked m' i1 received wal.
Proof.
  intros C L Hf. destruct Hf as [Hn|m' out Hw Hd|dl Hw Hfacts Hop Har|Hw Hfacts Hop Har].
  - eauto.
  - by eapply drained_linked.
  - cbn [execute_outputs execute_action exec_bind]. rewrite (li_timer _ _ _ _ L), Har. simpl.
    eexists. split; [reflexivity|]. destruct (li_effects _ _ _ _ L) as (ew & ep & ec & He).
    eapply (linked_control m _ i _ _ _ ew ep ec); try done; simpl.
    + by apply (effects_of_frame m).
    + apply (li_aborted _ _ _ _ L).
    + apply (li_view _ _ _ _ L).
  - eauto.
Qed.

Lemma checkpoint_linked m i received wal m' input :
  writer_core m → linked m i received wal → w_ingress_open m = true →
  w_checkpoint_attempt m < u64_max → take_checkpoint m = Ret (m', Some input) →
  ∃ i1, execute_outputs i [Effect (PrepareCheckpoint input)] = Ret i1 ∧ linked m' i1 received wal.
Proof.
  intros C L Hop Hatt Htake.
  destruct (take_checkpoint_ok m C Hop Hatt) as (m1 & o & Ht & _ & _ & _ & _ & _ & Ho).
  rewrite Htake in Ht. injection Ht as <- <-. destruct Ho as (Hck & _ & Hsrc & _ & _ & _ & ->).
  destruct (li_effects _ _ _ _ L) as (ew & ep & ec & He).
  pose proof (effects_checkpoint _ _ _ _ _ _ He) as Hc. unfold checkpoint_part in Hc.
  rewrite Hck in Hc. subst ep.
  cbn [execute_outputs]. erewrite (spawn_ok m _ ew [] ec) by done. cbn [exec_bind].
  eexists. split; [reflexivity|].
  eapply (linked_control m _ i _ _ _ ew [PrepareCheckpoint input] ec); try done; simpl.
  - destruct He as [Hp Hw _ Hl]. split; simpl; try done.
    + rewrite Hp. simpl. solve_Permutation.
    + unfold checkpoint_part; simpl. rewrite (li_aborted _ _ _ _ L Hop).
      split; [apply not_elem_of_nil|eauto].
  - apply (li_timer _ _ _ _ L).
  - intros _. by apply (li_aborted _ _ _ _ L).
  - apply (li_view _ _ _ _ L).
Qed.

(** ** The step *)

Record sys_inv (s : System) : Prop := {
  sys_machine : writer_inv (s_machine s);
  sys_linked : linked (s_machine s) (s_interp s) (s_received s) (s_wal s);
  sys_live : w_ingress_open (s_machine s) = false →
    w_flight (s_machine s) ≠ None ∨ w_checkpoint (s_machine s) ≠ None
}.

Lemma execute_outputs_app i l k :
  execute_outputs i (l ++ k) = exec_bind (execute_outputs i l) (λ i1, execute_outputs i1 k).
Proof.
  revert i. induction l as [|o l IH]; intros i; simpl; [done|].
  destruct o as [e|a]; simpl; [destruct (spawn_effect i e)|destruct (execute_action i a)]; simpl;
    try done; apply IH.
Qed.

Lemma scheduled_linked m now i0 i received wal outs m' outs' exit :
  writer_core m → w_checkpoint_attempt m < u64_max →
  execute_outputs i0 outs = Ret i → linked m i received wal →
  scheduled m now outs m' outs' exit →
  ∃ i', execute_outputs i0 outs' = Ret i' ∧ linked m' i' received wal.
Proof.
  intros C Hatt Hi L Hs.
  destruct Hs as [m1 fl m' input Hf Hop Ht|m' fl Hf Hop|m' fl Hf Hop _ _ _|m' fl Hf Hop _];
    rewrite ?execute_outputs_app, Hi; cbn [exec_bind]; try by eapply flushed_linked.
  destruct (flushed_linked _ _ _ _ _ _ _ C L Hf) as (i1 & Hi1 & L1).
  destruct (flushed_inv _ _ _ _ C Hf) as [C1 _].
  destruct (flushed_frame _ _ _ _ Hf) as (Hop1 & _ & Hat1 & _).
  rewrite execute_outputs_app, Hi1. cbn [exec_bind].
  eapply checkpoint_linked; [done..| |by rewrite Hat1|done]. congruence.
Qed.

(** One iteration: it returns; a live state keeps the invariant; a clean shutdown
    leaves nothing queued or in flight; any other exit sends nothing. *)
Lemma react_ok s now event s1 :
  sys_inv s → w_checkpoint_attempt (s_machine s) < u64_max → observes s event s1 →
  ∃ s' exit, react s1 now event = Ret (s', exit) ∧
    s_received s' = s_received s1 ∧ s_wal s' = s_wal s1 ∧
    match exit with
    | None => sys_inv s'
    | Some Shutdown => linked (s_machine s') (s_interp s') (s_received s') (s_wal s') ∧
        flight_completions (s_machine s') = [] ∧ pending_completions (s_machine s') = [] ∧
        w_checkpoint (s_machine s') = None
    | Some _ => s_interp s' = s_interp s1
    end.
Proof using HL RL SL.
  intros [I L _] Hatt Ho. pose proof (observes_enabled _ _ _ I L Ho) as Hen.
  assert (s_machine s1 = s_machine s) as Hm by (by destruct Ho).
  destruct (handle_ok (s_machine s) now event I Hen Hatt)
    as (m' & outs & exit & Hh & Hd & Hlen & Hact & Hinv).
  unfold react, execute_step. rewrite Hm, Hh. cbn [exec_bind step_outputs step_exit].
  rewrite (proj2 (Z.leb_le _ _)) by done.
  assert ((match exit with Some _ => forallb is_action outs | None => true end) = true) as ->.
  { destruct exit; [|done]. by apply Hact. }
  destruct Hd as [m' exit Hx|m1 outs1 m' outs exit Ha C1 Hs].
  - cbn [execute_outputs exec_bind]. eexists _, _. split; [reflexivity|]. by destruct exit.
  - destruct (set_started_inv _ I) as [C0 _].
    assert (∃ i1, execute_outputs (s_interp s1) outs1 = Ret i1 ∧
      linked m1 i1 (s_received s1) (s_wal s1)) as (i1 & Hi1 & L1).
    { destruct (w_started (s_machine s)) eqn:Hst.
      - assert (set_started true (s_machine s) = s_machine s) as Hs0
          by (destruct (s_machine s); simpl in *; by subst).
        rewrite Hs0 in *. by eapply applied_linked.
      - destruct Ho; try congruence. inversion Ha; subst. eexists. split; [reflexivity|].
        by apply linked_started. }
    assert (w_checkpoint_attempt m1 = w_checkpoint_attempt (s_machine s)) as Hat1.
    { inversion Ha as [|env mm o Hadm| | | | | | | | | |]; subst; try done.
      by apply admit_attempt in Hadm as [? _]. }
    destruct (scheduled_linked m1 now (s_interp s1) i1 _ _ outs1 m' outs exit C1
      ltac:(lia) Hi1 L1 Hs) as (i' & Hi' & L').
    rewrite Hi'. cbn [exec_bind]. eexists _, _. split; [reflexivity|]. split; [done|]. split; [done|].
    simpl. destruct Hs as [m2 fl mm input Hf Hop Ht|mm fl Hf Hop|mm fl Hf Hop Hfl Hck Hp|mm fl Hf Hop Hlive].
    + split; [by apply Hinv|done|]. destruct (flushed_frame _ _ _ _ Hf) as (Hop2 & _ & Hat2 & _).
      destruct (flushed_inv _ _ _ _ C1 Hf) as [C2 _].
      destruct (take_checkpoint_ok m2 C2) as (m3 & o & Ht' & _ & _ & _ & _ & Hop3 & _);
        [congruence|lia|]. rewrite Ht in Ht'. injection Ht' as <- <-. simpl. congruence.
    + split; [by apply Hinv|done|]. destruct (flushed_frame _ _ _ _ Hf) as (Hop2 & _).
      simpl. congruence.
    + unfold flight_completions, pending_completions. by rewrite Hfl, Hp.
    + split; [by apply Hinv|done|]. done.
Qed.

(** What a recovery hands to the writer. *)
Record recovery_ok (flush_buffer_bytes : Z) : Prop := {
  recovery_generation : claim_generation (recovery_claim recovery) =
    seal_generation (recovery_seal recovery);
  recovery_cut : seal_cut (recovery_seal recovery) ≤ coord_get (recovery_durable_batch recovery);
  recovery_room : coord_get (recovery_durable_batch recovery) < u64_max;
  recovery_buffer : 1 ≤ flush_buffer_bytes ≤ WAL_ENCODED_BYTES_MAX;
  recovery_forest : forest_wf (recovery_durable recovery)
}.

Lemma sys_init_Ret interval buffer s :
  sys_init recovery interval buffer = Ret s →
  claim_generation (recovery_claim recovery) = seal_generation (recovery_seal recovery) ∧
  w_claim (s_machine s) = recovery_claim recovery ∧ w_seal (s_machine s) = recovery_seal recovery ∧
  w_base (s_machine s) = recovery_base recovery ∧
  w_durable (s_machine s) = mk_rooted (recovery_durable recovery) 0 ∧
  w_durable_batch (s_machine s) = recovery_durable_batch recovery ∧
  w_checkpoint (s_machine s) = None ∧ w_ingress_open (s_machine s) = true ∧
  s_interp s = mk_interp [] false [] (recovery_durable recovery) [] ∧
  s_received s = [] ∧ s_wal s = [].
Proof.
  unfold sys_init, from_recovery. case_bool_decide as Hg; [|done].
  destruct (match replay_batch _ with None => _ | Some _ => _ end); [|done].
  destruct (successor _) as [next|]; [|done]. cbn [expect_ok exec_bind].
  destruct (_ && _); [|done]. by intros [= <-].
Qed.

Lemma sys_init_ok interval buffer :
  recovery_ok buffer → ∃ s, sys_init recovery interval buffer = Ret s ∧ sys_inv s.
Proof.
  intros [Hg Hcut Hroom Hbuf Hwf]. unfold sys_init, from_recovery.
  rewrite bool_decide_eq_true_2 by done.
  assert ((match replay_batch (seal_replay (recovery_seal recovery)) with
           | None => true
           | Some cut => coord_leb cut (recovery_durable_batch recovery)
           end) = true) as ->.
  { unfold seal_cut in Hcut. destruct (replay_batch _); [|done]. by apply coord_leb_spec. }
  destruct (successor_total (recovery_durable_batch recovery) Hroom) as (next & -> & Hn).
  cbn [expect_ok exec_bind].
  rewrite (proj2 (andb_true_iff _ _)) by (split; apply Z.leb_le; lia). cbn [exec_bind].
  eexists. split; [reflexivity|]. split; simpl; [| |done].
  - split; [|done]. split; simpl; try done. unfold head_forest; simpl. constructor.
  - split; simpl; try done.
    + exists [], [], []. done.
    + by intros c ?%not_elem_of_nil.
    + by intros c ?%not_elem_of_nil.
    + by intros c ?%not_elem_of_nil.
    + exists []. split; simpl; try done; [constructor|unfold zlen; simpl; lia].
Qed.

Lemma reachable_inv interval buffer s :
  recovery_ok buffer → reachable recovery interval buffer s → sys_inv s.
Proof using HL RL SL.
  intros Hok. induction 1 as [s Hs|s now event s' _ IH Hatt Hstep].
  - destruct (sys_init_ok interval buffer Hok) as (s0 & Hs0 & I). congruence.
  - inversion Hstep as [s1 s2 exit Ho Hr]; subst.
    destruct (react_ok s now event s1 IH Hatt Ho) as (s3 & exit & Hr' & _ & _ & Hx).
    rewrite Hr in Hr'. by injection Hr' as <- <-.
Qed.

End invariant.

(** * A concrete run *)

Definition sample_claim_seal : Seal :=
  mk_refined (P := accepts seal_check)
    (mk_seal sample_partition (generation_no 2 I) Genesis tree_empty tree_empty) I.

(** A recovery of generation 2 over an empty partition, fenced at batch 1. *)
Definition sample_recovery : WriterRecovery :=
  mk_recovery (AuthoredClaim_new (generation_no 2 I)) sample_claim_seal forest_empty forest_empty
    (batch_no 1 I).

Definition sample_create : CommandEnvelope :=
  CommandCreate (mk_create path_a Json NoExpiry Open) 7.

#[local] Existing Instances reference_heap reference_heap_laws reference_rkyv_laws.
#[local] Instance wal_rkyv : Rkyv ArchivedWalObject := reference_rkyv ArchivedWalObject.

Lemma sample_size_law : WalSizeLaw.
Proof.
  split. intros object facts _. change (zlen (rkyv_bytes (archive_wal object))) with 1.
  pose proof (facts_estimate_bounds (facts_slice facts)). unfold_bounds. lia.
Qed.
#[local] Existing Instance sample_size_law.

Lemma sample_recovery_ok : recovery_ok sample_recovery 4096.
Proof.
  split; [done|done|done|unfold_bounds; lia|]. apply forest_empty_wf.
Qed.

Definition or_else {A} (x : Exec (A * option WriterExit)) (a : A) : A :=
  match x with Ret (b, _) => b | Panic => a end.
Definition lives {A} (x : Exec (A * option WriterExit)) : bool :=
  match x with Ret (_, None) => true | _ => false end.
Definition receive (envelope : CommandEnvelope) (s : System) : System :=
  mk_system (s_machine s) (s_interp s) (s_received s ++ [envelope]) (s_wal s).
Definition sole_candidate (s : System) : EncodedWal :=
  match i_effects (s_interp s) with
  | [EstablishWal candidate] => candidate
  | _ => mk_encoded_wal sample_partition (batch_no 1 I) []
  end.
Definition finish_sole (event : WriterEvent) (s : System) : System :=
  mk_system (s_machine s) (with_effects [] (s_interp s)) (s_received s)
    (s_wal s ++ made_durable (EstablishWal (sole_candidate s)) event).
Definition sample_durable (s : System) : WriterEvent :=
  WalEstablished (encoded_wal_batch (sole_candidate s)) (Ok WalDurable).

Lemma lives_or_else {A} (x : Exec (A * option WriterExit)) a :
  lives x = true → x = Ret (or_else x a, None).
Proof. by destruct x as [[b [e|]]|]. Qed.

Definition sample_s0 : System :=
  match sys_init sample_recovery 0 4096 with
  | Ret s => s
  | Panic => mk_system (mk_machine false (AuthoredClaim_new (generation_no 2 I)) sample_claim_seal
      forest_empty (mk_rooted forest_empty 0) (mk_rooted forest_empty 0) (batch_no 1 I)
      (batch_no 1 I) barrier_new None 0 0 None false 0 None None None None true 0)
      (mk_interp [] false [] forest_empty []) [] []
  end.
(** Started; a create admitted and sent to the WAL; the WAL object durable. *)
Definition sample_s1 : System := or_else (react sample_s0 0 Started) sample_s0.
Definition sample_s2 : System :=
  or_else (react (receive sample_create sample_s1) 1 (Command sample_create)) sample_s1.
Definition sample_s3 : System :=
  or_else (react (finish_sole (sample_durable sample_s2) sample_s2) 2 (sample_durable sample_s2))
    sample_s2.

Lemma sample_s1_reachable : reachable sample_recovery 0 4096 sample_s1.
Proof.
  eapply (reachable_step _ _ _ sample_s0 0 Started).
  - by apply reachable_init.
  - done.
  - apply (sys_step_intro _ _ _ sample_s0); [by constructor|]. by apply lives_or_else.
Qed.

Lemma sample_s2_reachable : reachable sample_recovery 0 4096 sample_s2.
Proof.
  eapply (reachable_step _ _ _ sample_s1 1 (Command sample_create)).
  - apply sample_s1_reachable.
  - done.
  - apply (sys_step_intro _ _ _ (receive sample_create sample_s1)); [by constructor|].
    apply lives_or_else. vm_compute. reflexivity.
Qed.

Lemma sample_s2_effects :
  i_effects (s_interp sample_s2) = [EstablishWal (sole_candidate sample_s2)].
Proof.
  unfold sole_candidate. assert ((match i_effects (s_interp sample_s2) with
    | [EstablishWal _] => true | _ => false end) = true) as H by (vm_compute; reflexivity).
  by destruct (i_effects (s_interp sample_s2)) as [|[] []].
Qed.

Lemma sample_s3_reachable : reachable sample_recovery 0 4096 sample_s3.
Proof.
  eapply (reachable_step _ _ _ sample_s2 2 (sample_durable sample_s2)).
  - apply sample_s2_reachable.
  - vm_compute. reflexivity.
  - apply (sys_step_intro _ _ _ (finish_sole (sample_durable sample_s2) sample_s2)).
    + apply (observes_effect sample_s2 _ _ [] []); [vm_compute; reflexivity| |constructor].
      apply sample_s2_effects.
    + apply lives_or_else. vm_compute. reflexivity.
Qed.

(** * Properties *)

Section properties.
  Context {HP : Heap} {HL : HeapLaws} {RW : Rkyv ArchivedWalObject}
    {RL : RkyvLaws ArchivedWalObject} {SL : WalSizeLaw}.

(** C18: the running writer never panics.  From a sound recovery, whatever commands
    arrive, whatever the store answers and in whatever order work completes, every
    observation is handled: no assertion of the machine or of the interpreter fails
    (effect keys are fresh, at most one timer, a cancelled preparation is present,
    at most four outputs, a terminal step starts no work).  The checkpoint attempts have
    not used up their 64-bit counter, whose increment is checked, and the allocator does
    not refuse memory. *)
Theorem writer_never_panics (recovery : WriterRecovery) (interval buffer : Z) (s s1 : System)
    (now : Z) (event : WriterEvent) :
  recovery_ok recovery buffer → reachable recovery interval buffer s →
  w_checkpoint_attempt (s_machine s) < u64_max → observes s event s1 →
  ∃ s' exit, react s1 now event = Ret (s', exit).
Proof using HL RL SL.
  intros Hok Hr Hatt Ho.
  destruct (react_ok recovery s now event s1) as (s' & exit & Hx & _); eauto using reachable_inv.
Qed.

(** C17: the durable state is the fold of the durable WAL.  In every reachable state
    the published view is the strict fold, over the recovered forest, of the runs
    whose encoded objects the store acknowledged, at consecutive batches from the
    recovered one, and each such object is the encoding of its run. *)
Theorem view_is_durable_log (recovery : WriterRecovery) (interval buffer : Z) (s : System) :
  recovery_ok recovery buffer → reachable recovery interval buffer s →
  ∃ log, Forall2 (run_candidate recovery) (s_wal s) log ∧
    fold_log (recovery_durable recovery) log = Ret (Ok (i_view (s_interp s))) ∧
    (coord_get <$> log.*1) =
      seqZ (coord_get (recovery_durable_batch recovery) + 1) (zlen (s_wal s)) ∧
    forest_wf (i_view (s_interp s)).
Proof using HL RL SL.
  intros Hok Hr. destruct (reachable_inv _ _ _ _ Hok Hr) as [I L _].
  destruct (li_log _ _ _ _ _ L) as (log & [Ho Hf Hc _]). rewrite (li_view _ _ _ _ _ L).
  exists log. split; [done|]. split; [by apply fold_log_Ok; [apply Hok|]|].
  split; [|apply (inv_core _ I)]. unfold zlen. by rewrite (Forall2_length _ _ _ Ho).
Qed.

(** C16: a positive reply is durable.  Every completion sent in a reachable state
    answers a received command, and a positive one is already true of the published
    durable view: a created path is occupied, a closed stream is closed or deleted, a
    deleted path is a tombstone.  Later folds keep it true. *)
Theorem replies_are_durable (recovery : WriterRecovery) (interval buffer : Z) (s : System)
    (c : Completion) :
  recovery_ok recovery buffer → reachable recovery interval buffer s → c ∈ i_sent (s_interp s) →
  ∃ envelope, envelope ∈ s_received s ∧ promise envelope c (i_view (s_interp s)).
Proof using HL RL SL.
  intros Hok Hr. destruct (reachable_inv _ _ _ _ Hok Hr) as [_ L _].
  rewrite (li_view _ _ _ _ _ L). apply (li_sent _ _ _ _ _ L).
Qed.

(** No reply is lost or sent twice.  The reply channels of the received commands
    are exactly those of the completions sent, in flight and queued, with
    multiplicity. *)
Theorem replies_conserved (recovery : WriterRecovery) (interval buffer : Z) (s : System) :
  recovery_ok recovery buffer → reachable recovery interval buffer s →
  (envelope_reply <$> s_received s) ≡ₚ
  (completion_reply <$>
    i_sent (s_interp s) ++ flight_completions (s_machine s) ++ pending_completions (s_machine s)).
Proof using HL RL SL.
  intros Hok Hr. destruct (reachable_inv _ _ _ _ Hok Hr) as [_ L _]. apply (li_replies _ _ _ _ _ L).
Qed.

(** C19: the writer never gets stuck.  A reachable live writer has an outstanding
    effect, an armed flush timer, or open admission; so the event loop always has
    something to wait for, also while it drains after ingress closed. *)
Theorem writer_not_stuck (recovery : WriterRecovery) (interval buffer : Z) (s : System) :
  recovery_ok recovery buffer → reachable recovery interval buffer s →
  i_effects (s_interp s) ≠ [] ∨ i_flush_timer (s_interp s) = true ∨
  admission_open (s_machine s) = Ret true.
Proof using HL RL SL.
  intros Hok Hr. destruct (reachable_inv _ _ _ _ Hok Hr) as [[C W] L Hlive].
  destruct (li_effects _ _ _ _ _ L) as (ew & ep & ec & [Hp Hw Hc _]).
  rewrite (li_timer _ _ _ _ _ L), (admission_open_ok _ C).
  unfold wal_part, checkpoint_part in *.
  destruct (w_flight (s_machine s)) as [f|] eqn:Hfl.
  { destruct Hw as (c & facts & -> & _). left. intros Hn. rewrite Hn in Hp.
    by apply Permutation_nil_l in Hp. }
  destruct (w_ingress_open (s_machine s)) eqn:Hop; cbn [andb].
  - case_bool_decide as Hfull; [|by do 2 right]. right; left. apply W; [done|].
    intros Hn. unfold barrier_len in Hfull. by rewrite Hn in Hfull.
  - destruct (Hlive eq_refl) as [|Hck]; [done|]. left. intros Hn. rewrite Hn in Hp.
    apply Permutation_nil_l in Hp. symmetry in Hp. apply app_eq_nil in Hp as [_ Hp].
    apply app_eq_nil in Hp as [-> _].
    destruct (w_checkpoint (s_machine s)) as [[t|t|t p]|]; naive_solver.
Qed.

(** C20: a clean shutdown is complete: when the writer exits with [Shutdown], every
    received command has been answered exactly once, and every answer is true of the
    final durable view.  As for the absence of panics, the 64-bit counter of checkpoint
    attempts is not used up. *)
Theorem shutdown_answers_everything (recovery : WriterRecovery) (interval buffer : Z)
    (s s' : System) (now : Z) (event : WriterEvent) :
  recovery_ok recovery buffer → reachable recovery interval buffer s →
  w_checkpoint_attempt (s_machine s) < u64_max → sys_step s now event s' (Some Shutdown) →
  (envelope_reply <$> s_received s') ≡ₚ (completion_reply <$> i_sent (s_interp s')) ∧
  ∀ c, c ∈ i_sent (s_interp s') →
    ∃ envelope, envelope ∈ s_received s' ∧ promise envelope c (i_view (s_interp s')).
Proof using HL RL SL.
  intros Hok Hr Hatt Hstep. inversion Hstep as [s1 s2 exit Ho Hx]; subst.
  destruct (react_ok recovery s now event s1) as (s3 & e & Hx' & _ & _ & Hd);
    [by eapply reachable_inv|done..|].
  rewrite Hx in Hx'. injection Hx' as <- <-. destruct Hd as (L & Hf & Hp & _). split.
  - rewrite (li_replies _ _ _ _ _ L), Hf, Hp. by rewrite !(right_id_L [] (++)).
  - rewrite (li_view _ _ _ _ _ L). apply (li_sent _ _ _ _ _ L).
Qed.

End properties.

(** ** Witnesses *)

Lemma sample_s2_observes :
  observes sample_s2 (sample_durable sample_s2) (finish_sole (sample_durable sample_s2) sample_s2).
Proof.
  apply (observes_effect sample_s2 _ _ [] []); [vm_compute; reflexivity| |constructor].
  apply sample_s2_effects.
Qed.

Lemma writer_never_panics_witness :
  ∃ s' exit, react (finish_sole (sample_durable sample_s2) sample_s2) 2 (sample_durable sample_s2)
    = Ret (s', exit).
Proof.
  apply (writer_never_panics sample_recovery 0 4096 sample_s2 _ 2 (sample_durable sample_s2)).
  - apply sample_recovery_ok.
  - apply sample_s2_reachable.
  - vm_compute. reflexivity.
  - apply sample_s2_observes.
Defined.

Lemma view_is_durable_log_witness :
  length (s_wal sample_s3) = 1%nat ∧
  ∃ log, Forall2 (run_candidate sample_recovery) (s_wal sample_s3) log ∧
    fold_log (recovery_durable sample_recovery) log = Ret (Ok (i_view (s_interp sample_s3))) ∧
    (coord_get <$> log.*1) =
      seqZ (coord_get (recovery_durable_batch sample_recovery) + 1) (zlen (s_wal sample_s3)) ∧
    forest_wf (i_view (s_interp sample_s3)).
Proof.
  split; [vm_compute; reflexivity|].
  apply (view_is_durable_log sample_recovery 0 4096 sample_s3).
  - apply sample_recovery_ok.
  - apply sample_s3_reachable.
Defined.

Lemma replies_are_durable_witness :
  ∃ envelope, envelope ∈ s_received sample_s3 ∧
    promise envelope (CompletionCreate (Ok Created) 7) (i_view (s_interp sample_s3)).
Proof.
  apply (replies_are_durable sample_recovery 0 4096 sample_s3).
  - apply sample_recovery_ok.
  - apply sample_s3_reachable.
  - vm_compute. constructor.
Defined.

Lemma replies_conserved_witness :
  (envelope_reply <$> s_received sample_s2) ≡ₚ
  (completion_reply <$> i_sent (s_interp sample_s2) ++ flight_completions (s_machine sample_s2) ++
    pending_completions (s_machine sample_s2)).
Proof.
  apply (replies_conserved sample_recovery 0 4096 sample_s2).
  - apply sample_recovery_ok.
  - apply sample_s2_reachable.
Defined.

Lemma writer_not_stuck_witness :
  i_effects (s_interp sample_s2) ≠ [] ∨ i_flush_timer (s_interp sample_s2) = true ∨
  admission_open (s_machine sample_s2) = Ret true.
Proof.
  apply (writer_not_stuck sample_recovery 0 4096 sample_s2).
  - apply sample_recovery_ok.
  - apply sample_s2_reachable.
Defined.

(** Ingress closes after the create is durable. *)
Definition sample_s4 : System := or_else (react sample_s3 3 IngressClosed) sample_s3.

Lemma sample_shutdown : sys_step sample_s3 3 IngressClosed sample_s4 (Some Shutdown).
Proof.
  apply (sys_step_intro _ _ _ sample_s3); [apply observes_closed; vm_compute; reflexivity|].
  unfold sample_s4.
  assert ((match react sample_s3 3 IngressClosed with Ret (_, Some Shutdown) => true | _ => false end)
    = true) as H by (vm_compute; reflexivity).
  by destruct (react sample_s3 3 IngressClosed) as [[? [[]|]]|].
Qed.

Lemma shutdown_answers_everything_witness :
  (envelope_reply <$> s_received sample_s4) ≡ₚ (completion_reply <$> i_sent (s_interp sample_s4)) ∧
  ∀ c, c ∈ i_sent (s_interp sample_s4) →
    ∃ envelope, envelope ∈ s_received sample_s4 ∧
      promise envelope c (i_view (s_interp sample_s4)).
Proof.
  apply (shutdown_answers_everything sample_recovery 0 4096 sample_s3 _ 3 IngressClosed).
  - apply sample_recovery_ok.
  - apply sample_s3_reachable.
  - vm_compute. reflexivity.
  - apply sample_shutdown.
Defined.
