(* ===== verification/Spelling.v ===== *)
(** Durable key spellings (crate [strom-storage-domain], file [spelling.rs]).

    The object store is a flat map from key strings to bytes, listed in byte order.
    Seal and WAL keys spell the complement of their coordinate in twenty digits, so
    the first listed key is the newest.  The file shows that every spelling is the
    only one of its key and that the order is reversed. *)

From S2P Require Import Prelude Text Domain Coordinates.

(** strom-storage-domain/src/spelling.rs:8-14, [spelling constants]. *)
Definition REVERSE_ORDINAL_DIGITS : nat := 20.
Definition GENERATION_DIGITS : nat := 20.
Definition TABLE_ORDINAL_DIGITS : nat := 10.
Definition SEAL_SEGMENT : str := lit "seal".
Definition TABLE_SEGMENT : str := lit "table".
Definition WAL_SEGMENT : str := lit "wal".
Definition NAMESPACE_VERSION : str := lit "v1".
Definition slash : char := 47.
Definition hyphen : char := 45.

(** strom-storage-domain/src/spelling.rs:289-305, [KeySpellingError]. *)
Inductive KeySpellingError : Type :=
| Shape
| UnsupportedNamespace
| ReverseOrdinalSpelling
| ZeroCoordinateSpelling
| TableStoreSpelling
| TableCoordinate
| InvalidTableIdentity.

(** strom-storage-domain/src/spelling.rs:208-217, [ReverseOrdinal]. *)
Definition reverse_ordinal (ordinal : Z) : Exec str :=
  let! reversed := expect (u64_checked_sub u64_max ordinal) in
  Ret (dec_pad REVERSE_ORDINAL_DIGITS reversed).

(** The digits of a fixed-width number, after the width and digit checks.
    strom-storage-domain/src/spelling.rs:261-268, [parse_fixed_u64]. *)
Definition parse_digits (error : KeySpellingError) (input : str) (digits : nat) :
    Result KeySpellingError Z :=
  if negb (str_len input =? Z.of_nat digits) || negb (forallb is_ascii_digit (str_bytes input))
  then Err error
  else if dec_value 0 input <=? u64_max then Ok (dec_value 0 input) else Err error.

(** strom-storage-domain/src/spelling.rs:261-268, [parse_fixed_u64]. *)
Definition parse_fixed_u64 (input : str) (digits : nat) : Result KeySpellingError Z :=
  parse_digits TableCoordinate input digits.

(** strom-storage-domain/src/spelling.rs:252-259, [parse_reverse_ordinal]. *)
Definition parse_reverse_ordinal (input : str) : Result KeySpellingError Z :=
  parse_digits ReverseOrdinalSpelling input REVERSE_ORDINAL_DIGITS.

(** strom-storage-domain/src/spelling.rs:219-231, [parse_namespace]. *)
Definition parse_namespace (input : str) (expected_kind : str) : Result KeySpellingError unit :=
  let segments := split_char slash input in
  if negb (bool_decide (head segments = Some expected_kind)) then Err Shape
  else
    let segments := tail segments in
    if negb (bool_decide (head segments = Some NAMESPACE_VERSION)) then Err UnsupportedNamespace
    else if bool_decide (tail segments = []) then Ok tt else Err Shape.

(** strom-storage-domain/src/spelling.rs:233-250, [parse_key]. *)
Definition parse_key (input : str) (expected_kind : str) : Exec (Result KeySpellingError Z) :=
  let segments := split_char slash input in
  if negb (bool_decide (head segments = Some expected_kind)) then Ret (Err Shape)
  else
    let segments := tail segments in
    if negb (bool_decide (head segments = Some NAMESPACE_VERSION))
    then Ret (Err UnsupportedNamespace)
    else
      let segments := tail segments in
      let!? spelled := Ret (ok_or Shape (head segments)) in
      if negb (bool_decide (tail segments = [])) then Ret (Err Shape)
      else
        let!? reversed := Ret (parse_reverse_ordinal spelled) in
        let! ordinal := expect (u64_checked_sub u64_max reversed) in
        Ret (Ok ordinal).

(** strom-storage-domain/src/spelling.rs:20-36, [SealNamespace]. *)
Definition SealNamespace_from_str (input : str) : Result KeySpellingError unit :=
  parse_namespace input SEAL_SEGMENT.
(** strom-storage-domain/src/spelling.rs:32-36, [Display for SealNamespace]. *)
Definition SealNamespace_display : str := SEAL_SEGMENT ++ slash :: NAMESPACE_VERSION.

(** strom-storage-domain/src/spelling.rs:75-95, [WalNamespace]. *)
Definition WalNamespace_from_str (input : str) : Result KeySpellingError unit :=
  parse_namespace input WAL_SEGMENT.
(** strom-storage-domain/src/spelling.rs:91-95, [Display for WalNamespace]. *)
Definition WalNamespace_display : str := WAL_SEGMENT ++ slash :: NAMESPACE_VERSION.

(** A key in a namespace of reverse ordinals.
    strom-storage-domain/src/spelling.rs:54-73, [SealKey FromStr and Display]. *)
Definition coordinate_key_from_str {k} (segment : str) (input : str) :
    Exec (Result KeySpellingError (Coord k)) :=
  let!? ordinal := parse_key input segment in
  Ret (map_err (λ _, ZeroCoordinateSpelling) (coord_try_from ordinal)).

(** strom-storage-domain/src/spelling.rs:65-73, [Display for SealKey]. *)
Definition coordinate_key_display {k} (segment : str) (c : Coord k) : Exec str :=
  let! spelled := reverse_ordinal (coord_get c) in
  Ret (segment ++ slash :: NAMESPACE_VERSION ++ slash :: spelled).

(** strom-storage-domain/src/spelling.rs:38-73, [SealKey]. *)
Definition SealKey_from_str (input : str) : Exec (Result KeySpellingError SealGeneration) :=
  coordinate_key_from_str SEAL_SEGMENT input.
(** strom-storage-domain/src/spelling.rs:65-73, [Display for SealKey]. *)
Definition SealKey_display (generation : SealGeneration) : Exec str :=
  coordinate_key_display SEAL_SEGMENT generation.

(** strom-storage-domain/src/spelling.rs:97-132, [WalKey]. *)
Definition WalKey_from_str (input : str) : Exec (Result KeySpellingError BatchId) :=
  coordinate_key_from_str WAL_SEGMENT input.
(** strom-storage-domain/src/spelling.rs:124-132, [Display for WalKey]. *)
Definition WalKey_display (batch : BatchId) : Exec str :=
  coordinate_key_display WAL_SEGMENT batch.

(** strom-storage-domain/src/spelling.rs:270-277, [store_name]. *)
Definition store_name (store : StoreKind) : str :=
  match store with
  | Directory => lit "directory"
  | Ledger => lit "ledger"
  | Tally => lit "tally"
  | Annals => lit "annals"
  end.

(** strom-storage-domain/src/spelling.rs:279-287, [parse_store]. *)
Definition parse_store (input : str) : Result KeySpellingError StoreKind :=
  if bool_decide (input = lit "directory") then Ok Directory
  else if bool_decide (input = lit "ledger") then Ok Ledger
  else if bool_decide (input = lit "tally") then Ok Tally
  else if bool_decide (input = lit "annals") then Ok Annals
  else Err TableStoreSpelling.

(** strom-storage-domain/src/spelling.rs:134-147, [TableKey]. *)
Record TableKey : Type := mk_table_key { key_object : TableObjectId }.

#[export] Instance TableKey_eq_dec : EqDecision TableKey.
Proof. solve_decision. Defined.

(** strom-storage-domain/src/spelling.rs:149-191, [TableKey::from_str]. *)
Definition TableKey_from_str (input : str) : Result KeySpellingError TableKey :=
  let segments := split_char slash input in
  if negb (bool_decide (head segments = Some TABLE_SEGMENT)) then Err Shape
  else
    let segments := tail segments in
    if negb (bool_decide (head segments = Some NAMESPACE_VERSION)) then Err UnsupportedNamespace
    else
      let segments := tail segments in
      let? spelled := ok_or Shape (head segments) in
      let? store := parse_store spelled in
      let segments := tail segments in
      let? spelled := ok_or Shape (head segments) in
      let? birth := parse_fixed_u64 spelled GENERATION_DIGITS in
      let segments := tail segments in
      let? attempt := ok_or Shape (head segments) in
      let? (owner, counter) := ok_or TableCoordinate (split_once_char hyphen attempt) in
      if str_contains hyphen counter then Err TableCoordinate
      else
        let? owner := parse_fixed_u64 owner GENERATION_DIGITS in
        let? counter := parse_fixed_u64 counter GENERATION_DIGITS in
        let segments := tail segments in
        let? spelled := ok_or Shape (head segments) in
        let? ordinal := parse_fixed_u64 spelled TABLE_ORDINAL_DIGITS in
        if negb (ordinal <=? u32_max) then Err TableCoordinate
        else if negb (bool_decide (tail segments = [])) then Err Shape
        else
          let? birth := map_err (λ _, ZeroCoordinateSpelling) (coord_try_from birth) in
          let? owner := map_err (λ _, ZeroCoordinateSpelling) (coord_try_from owner) in
          let? fresh :=
            map_err (λ _, InvalidTableIdentity)
              (FreshIdentity_new birth (mk_attempt owner counter) ordinal) in
          Ok (mk_table_key (mk_table_object fresh store)).

(** strom-storage-domain/src/spelling.rs:193-206, [TableKey Display]. *)
Definition TableKey_display (key : TableKey) : str :=
  let object := key_object key in
  let attempt := attempt (fresh object) in
  TABLE_SEGMENT ++ slash :: NAMESPACE_VERSION ++ slash :: store_name (store object) ++ slash ::
  dec_pad 20 (coord_get (birth_generation (fresh object))) ++ slash ::
  (dec_pad 20 (coord_get (owner_claim attempt)) ++ hyphen :: dec_pad 20 (local_counter attempt))
  ++ slash :: dec_pad 10 (ordinal (fresh object)).

(** * Splitting is the inverse of joining *)

Fixpoint str_join (c : char) (l : list str) : str :=
  match l with
  | [] => []
  | [p] => p
  | p :: l => p ++ c :: str_join c l
  end.

Lemma split_char_cons c s : ∃ p l, split_char c s = p :: l.
Proof. unfold split_char. destruct (split_pieces c s). eauto. Qed.

Lemma join_split c s : str_join c (split_char c s) = s.
Proof.
  unfold split_char. induction s as [|x s IH]; [done|]. cbn [split_pieces].
  destruct (split_pieces c s) as [p l] eqn:E.
  destruct (Z.eqb_spec x c) as [->|Hx].
  - cbn [str_join]. by rewrite <- IH.
  - destruct l as [|q l]; cbn [str_join] in *; rewrite <- IH; done.
Qed.

Lemma split_join c l : l ≠ [] → Forall (no_char c) l → split_char c (str_join c l) = l.
Proof.
  intros Hne Hl. unfold split_char. induction Hl as [|p l Hp Hl IH]; [done|].
  destruct l as [|q l].
  - cbn [str_join]. by rewrite split_pieces_none.
  - change (str_join c (p :: q :: l)) with (p ++ c :: str_join c (q :: l)).
    rewrite split_pieces_app by done. specialize (IH ltac:(done)).
    destruct (split_pieces c (str_join c (q :: l))). simpl. by rewrite IH.
Qed.

Lemma digits_no_char c s : all_digits s → c < 48 → no_char c s.
Proof. intros Hs Hc. eapply Forall_impl; [exact Hs|]. simpl. lia. Qed.

(** * Fixed-width numbers *)

Lemma digit_bytes s : forallb is_ascii_digit (str_bytes s) = true ↔ all_digits s.
Proof.
  split.
  - intros H. assert (str_bytes s = s) as Hs.
    { apply str_bytes_ascii_inv, Forall_forall. intros b Hb.
      rewrite forallb_forall in H. apply list_elem_of_In, H, is_digit_spec in Hb. lia. }
    rewrite Hs in H. apply Forall_forall. intros b Hb. rewrite forallb_forall in H.
    by apply list_elem_of_In, H, is_digit_spec in Hb.
  - intros Hs. rewrite str_bytes_ascii by (by apply all_digits_ascii).
    apply forallb_forall. intros b Hb%list_elem_of_In. apply is_digit_spec.
    unfold all_digits in Hs. rewrite Forall_forall in Hs. by apply Hs.
Qed.

Lemma parse_digits_Ok e s n v :
  parse_digits e s n = Ok v ↔ s = dec_pad n v ∧ 0 ≤ v ≤ u64_max ∧ v < 10 ^ Z.of_nat n.
Proof.
  unfold parse_digits.
  destruct (forallb is_ascii_digit (str_bytes s)) eqn:Hd; rewrite ?orb_true_r; cbn [negb orb].
  - apply digit_bytes in Hd. rewrite orb_false_r.
    rewrite str_len_ascii by (by apply all_digits_ascii).
    pose proof (dec_value_bounds s Hd) as Hb.
    destruct (Z.eqb_spec (zlen s) (Z.of_nat n)) as [Hl|Hl]; cbn [negb].
    + rewrite Hl in Hb. assert (length s = n) as <- by (unfold zlen in Hl; lia).
      destruct (Z.leb_spec (dec_value 0 s) u64_max) as [Hm|Hm]; split.
      * intros [= <-]. rewrite dec_pad_dec_value by done. split_and!; [done|lia..].
      * intros (Hs & Hv & Hv'). f_equal. rewrite Hs. apply dec_pad_value. lia.
      * done.
      * intros (Hs & Hv & Hv'). rewrite Hs, dec_pad_value in Hm by lia. lia.
    + split; [done|]. intros (-> & _ & _). unfold zlen in Hl. by rewrite dec_pad_length in Hl.
  - split; [done|]. intros (-> & Hv & _). apply not_true_iff_false in Hd. destruct Hd.
    apply digit_bytes, dec_pad_digits. lia.
Qed.

Lemma pow_20 : u64_max < 10 ^ Z.of_nat 20.
Proof. reflexivity. Qed.

Lemma third_inj {A} (a b c a' b' c' : A) : [a; b; c] = [a'; b'; c'] → c = c'.
Proof. by intros [=]. Qed.

Lemma Ret_inj {A} (a b : A) : Ret a = Ret b → a = b.
Proof. by intros [=]. Qed.

(** * Keys of coordinates *)

Lemma parse_key_Ret kind input :
  ∃ r, parse_key input kind = Ret r ∧
    ∀ n, r = Ok n ↔ 0 ≤ n ≤ u64_max ∧
      split_char slash input = [kind; NAMESPACE_VERSION; dec_pad 20 (u64_max - n)].
Proof.
  unfold parse_key. destruct (split_char_cons slash input) as (p & l & ->). cbn [head tail].
  case_bool_decide as Hk; cbn [negb]; last first.
  { eexists. split; [done|]. naive_solver. }
  injection Hk as ->. destruct l as [|q l]; cbn [head tail].
  { rewrite bool_decide_eq_false_2 by done. eexists. split; [done|]. naive_solver. }
  case_bool_decide as Hv; cbn [negb]; last first.
  { eexists. split; [done|]. naive_solver. }
  injection Hv as ->. destruct l as [|s l]; cbn [head tail ok_or try_bind].
  { eexists. split; [done|]. naive_solver. }
  case_bool_decide as Hl; cbn [negb]; last first.
  { eexists. split; [done|]. naive_solver. }
  subst l. unfold parse_reverse_ordinal.
  destruct (parse_digits _ s _) as [v|e] eqn:Hp; cbn [try_bind].
  - pose proof (proj1 (parse_digits_Ok _ _ _ _) Hp) as (-> & Hv & _).
    unfold u64_checked_sub. rewrite decide_True by lia. cbn [expect exec_bind].
    eexists. split; [done|]. intros n. split.
    + intros [= <-]. split; [lia|]. do 3 f_equal. unfold REVERSE_ORDINAL_DIGITS. f_equal. lia.
    + intros [Hn He%third_inj]. f_equal.
      apply (f_equal (dec_value 0)) in He.
      rewrite !dec_pad_value in He by (apply u64_20_digits; lia). lia.
  - eexists. split; [done|]. intros n. split; [done|]. intros [Hn ->%third_inj].
    assert (parse_digits ReverseOrdinalSpelling (dec_pad 20 (u64_max - n)) 20 = Ok (u64_max - n))
      as Hx by (apply parse_digits_Ok; pose proof pow_20; split_and!; [done|lia..]).
    unfold REVERSE_ORDINAL_DIGITS in Hp. rewrite Hx in Hp. done.
Qed.

Lemma coordinate_key_display_Ret {k} segment (c : Coord k) :
  coordinate_key_display segment c =
    Ret (str_join slash [segment; NAMESPACE_VERSION; dec_pad 20 (u64_max - coord_get c)]).
Proof.
  unfold coordinate_key_display, reverse_ordinal, u64_checked_sub.
  rewrite decide_True by coord_lia. reflexivity.
Qed.

Lemma coordinate_key_roundtrip {k} segment (input : str) (c : Coord k) :
  no_char slash segment →
  coordinate_key_from_str segment input ≠ Panic (A := Result KeySpellingError (Coord k)) ∧
  (coordinate_key_from_str segment input = Ret (Ok c) ↔
   coordinate_key_display segment c = Ret input).
Proof.
  intros Hseg. destruct (parse_key_Ret segment input) as (r & Hr & Hspec).
  unfold coordinate_key_from_str. rewrite Hr, coordinate_key_display_Ret.
  assert (∀ n, 0 ≤ n ≤ u64_max →
    Forall (no_char slash) [segment; NAMESPACE_VERSION; dec_pad 20 (u64_max - n)]) as Hno.
  { intros n Hn. apply Forall_cons. split; [done|].
    apply Forall_cons. split; [by repeat constructor|]. apply Forall_singleton.
    apply digits_no_char; [|done]. apply dec_pad_digits. lia. }
  destruct r as [n|e]; cbn [try_bind].
  - destruct (proj1 (Hspec n) eq_refl) as [Hn Hs].
    assert (input = str_join slash [segment; NAMESPACE_VERSION; dec_pad 20 (u64_max - n)]) as ->
      by (by rewrite <- Hs, join_split).
    destruct (coord_try_from n) as [d|e] eqn:Hd; cbn [map_err]; (split; [done|]); split.
    + intros [= <-]. apply coord_try_from_Ok in Hd. by rewrite Hd.
    + intros He%Ret_inj. apply (f_equal (split_char slash)) in He.
      pose proof (coord_bounds c). rewrite !split_join in He by (done || apply Hno; lia).
      apply third_inj, (f_equal (dec_value 0)) in He.
      rewrite !dec_pad_value in He by (apply u64_20_digits; lia).
      apply coord_try_from_Ok in Hd. do 2 f_equal. apply coord_get_inj. lia.
    + done.
    + intros He%Ret_inj. apply (f_equal (split_char slash)) in He.
      pose proof (coord_bounds c). rewrite !split_join in He by (done || apply Hno; lia).
      apply third_inj, (f_equal (dec_value 0)) in He.
      rewrite !dec_pad_value in He by (apply u64_20_digits; lia).
      assert (@coord_try_from k n = Ok c) by (apply coord_try_from_Ok; lia). congruence.
  - split; [done|]. split; [done|]. intros <-%Ret_inj. pose proof (coord_bounds c).
    assert (@Err KeySpellingError Z e = Ok (coord_get c)) as [=].
    apply Hspec. split; [lia|]. apply split_join; [done|]. apply Hno. lia.
Qed.

(** * Order *)

Lemma list_cmp_app (a b x y : list Z) :
  length a = length b →
  list_cmp (a ++ x) (b ++ y) = match list_cmp a b with Eq => list_cmp x y | c => c end.
Proof.
  revert b. induction a as [|p a IH]; intros [|q b]; simpl; intros Hl; try done.
  rewrite IH by lia. by destruct (ord_cmp p q).
Qed.

Lemma list_cmp_prefix (a x y : list Z) : list_cmp (a ++ x) (a ++ y) = list_cmp x y.
Proof.
  rewrite list_cmp_app by done.
  assert (list_cmp a a = Eq) as -> by (by apply (ord_cmp_eq a a)). done.
Qed.

(** Fixed-width decimal spelling is monotone for the byte order. *)
Lemma dec_pad_cmp n v w :
  0 ≤ v < 10 ^ Z.of_nat n → 0 ≤ w < 10 ^ Z.of_nat n →
  list_cmp (dec_pad n v) (dec_pad n w) = (v ?= w).
Proof.
  revert v w. induction n as [|n IH]; intros v w Hv Hw.
  - change (10 ^ Z.of_nat 0) with 1 in *. assert (v = 0) as -> by lia.
    by assert (w = 0) as -> by lia.
  - rewrite Nat2Z.inj_succ, Z.pow_succ_r in Hv, Hw by lia. cbn [dec_pad].
    rewrite list_cmp_app by (by rewrite !dec_pad_length).
    pose proof (Z.div_mod v 10). pose proof (Z.div_mod w 10).
    pose proof (Z.mod_pos_bound v 10). pose proof (Z.mod_pos_bound w 10).
    rewrite IH by (split; [apply Z.div_pos; lia|apply Z.div_lt_upper_bound; lia]).
    cbn [list_cmp]. unfold ord_cmp, Z_Ord.
    destruct (Z.compare_spec (v / 10) (w / 10)) as [E|E|E].
    + destruct (Z.compare_spec (48 + v mod 10) (48 + w mod 10)) as [F|F|F]; symmetry.
      * apply Z.compare_eq_iff. lia.
      * apply Z.compare_lt_iff. lia.
      * apply Z.compare_gt_iff. lia.
    + symmetry. apply Z.compare_lt_iff. lia.
    + symmetry. apply Z.compare_gt_iff. lia.
Qed.

Lemma coordinate_key_order {k} segment (c d : Coord k) s t :
  coordinate_key_display segment c = Ret s → coordinate_key_display segment d = Ret t →
  ord_lt s t ↔ coord_get d < coord_get c.
Proof.
  rewrite !coordinate_key_display_Ret. intros <-%Ret_inj <-%Ret_inj.
  unfold ord_lt, ord_cmp, list_Ord. cbn [str_join].
  rewrite list_cmp_prefix. cbn [list_cmp]. rewrite (ord_cmp_refl slash).
  rewrite list_cmp_prefix. cbn [list_cmp]. rewrite (ord_cmp_refl slash).
  pose proof (coord_bounds c). pose proof (coord_bounds d).
  rewrite dec_pad_cmp by (apply u64_20_digits; lia). rewrite Z.compare_lt_iff. lia.
Qed.

(** * Table keys *)

(** The machine widths of an identity's fields. *)
Definition table_key_widths (key : TableKey) : Prop :=
  0 ≤ local_counter (attempt (fresh (key_object key))) ≤ u64_max ∧
  0 ≤ ordinal (fresh (key_object key)) ≤ u32_max.

Lemma parse_store_Ok s k : parse_store s = Ok k ↔ s = store_name k.
Proof.
  unfold parse_store. repeat case_bool_decide; subst; destruct k; split; intros Hk; done.
Qed.

Lemma TableKey_display_join key :
  TableKey_display key = str_join slash
    [TABLE_SEGMENT; NAMESPACE_VERSION; store_name (store (key_object key));
     dec_pad 20 (coord_get (birth_generation (fresh (key_object key))));
     dec_pad 20 (coord_get (owner_claim (attempt (fresh (key_object key)))))
       ++ hyphen :: dec_pad 20 (local_counter (attempt (fresh (key_object key))));
     dec_pad 10 (ordinal (fresh (key_object key)))].
Proof. reflexivity. Qed.

Lemma fixed_digits n v : 0 ≤ v ≤ u64_max → v < 10 ^ Z.of_nat n → parse_fixed_u64 (dec_pad n v) n = Ok v.
Proof. intros Hv Hn. by apply parse_digits_Ok. Qed.

Lemma TableKey_parse_display key :
  table_key_widths key → TableKey_from_str (TableKey_display key) = Ok key.
Proof.
  intros [Hc Ho]. destruct key as [[f st]]. cbn [key_object fresh store] in *.
  pose proof (coord_bounds (birth_generation f)) as Hb.
  pose proof (coord_bounds (owner_claim (attempt f))) as Hw. pose proof pow_20 as H20.
  unfold TableKey_from_str. rewrite TableKey_display_join. cbn [key_object fresh store].
  rewrite split_join; [|done|].
  - cbn [head tail]. rewrite !bool_decide_eq_true_2 by done. cbn [negb ok_or result_bind].
    rewrite (proj2 (parse_store_Ok (store_name st) st) eq_refl). cbn [result_bind].
    unfold GENERATION_DIGITS, TABLE_ORDINAL_DIGITS.
    rewrite fixed_digits by lia. cbn [result_bind].
    rewrite split_once_char_app by (apply digits_no_char; [apply dec_pad_digits; lia|done]).
    cbn [ok_or result_bind].
    rewrite (proj2 (str_contains_false hyphen _))
      by (apply digits_no_char; [apply dec_pad_digits; lia|done]).
    assert (10 ^ Z.of_nat 10 = 10000000000) as H10 by reflexivity.
    rewrite (fixed_digits 20 (coord_get _)), (fixed_digits 20 (local_counter _)) by lia.
    cbn [result_bind].
    rewrite (fixed_digits 10) by (unfold u32_max, u64_max in *; lia). cbn [result_bind].
    rewrite (proj2 (Z.leb_le _ _)) by lia. cbn [negb].
    rewrite !(proj2 (coord_try_from_Ok _ _) eq_refl). cbn [map_err result_bind].
    assert (FreshIdentity_new (birth_generation f)
      (mk_attempt (owner_claim (attempt f)) (local_counter (attempt f))) (ordinal f) = Ok f) as ->.
    { replace (mk_attempt (owner_claim (attempt f)) (local_counter (attempt f))) with (attempt f)
        by (by destruct (attempt f)).
      unfold birth_generation, attempt, ordinal, FreshIdentity_new.
      replace (mk_fresh _ _ _) with (content f) by (by destruct (content f)).
      apply checked_content. }
    reflexivity.
  - do 2 (apply Forall_cons; split; [by repeat constructor|]).
    apply Forall_cons; split; [destruct st; by repeat constructor|].
    apply Forall_cons; split; [|apply Forall_cons; split; [|apply Forall_singleton]].
    + apply digits_no_char; [apply dec_pad_digits; lia|done].
    + apply Forall_app. split; [|apply Forall_cons; split; [done|]];
        (apply digits_no_char; [apply dec_pad_digits; lia|done]).
    + apply digits_no_char; [apply dec_pad_digits; lia|done].
Qed.

Lemma TableKey_from_str_Ok input key :
  TableKey_from_str input = Ok key → input = TableKey_display key ∧ table_key_widths key.
Proof.
  unfold TableKey_from_str. pose proof (join_split slash input) as Hj.
  destruct (split_char_cons slash input) as (p & l & Hs). rewrite Hs in *. clear Hs.
  cbn [head tail]. case_bool_decide as Hp; [|done]. injection Hp as ->. cbn [negb].
  destruct l as [|q l]; cbn [head tail]; [by rewrite bool_decide_eq_false_2 by done|].
  case_bool_decide as Hq; [|done]. injection Hq as ->. cbn [negb].
  destruct l as [|s1 l]; [done|]. cbn [head tail ok_or result_bind].
  destruct (parse_store s1) as [st|] eqn:Hst; [|done]. cbn [result_bind].
  apply parse_store_Ok in Hst as ->.
  destruct l as [|s2 l]; [done|]. cbn [head tail ok_or result_bind].
  destruct (parse_fixed_u64 s2 GENERATION_DIGITS) as [b|] eqn:Hb; [|done]. cbn [result_bind].
  destruct l as [|s3 l]; [done|]. cbn [head tail ok_or result_bind].
  destruct (split_once_char hyphen s3) as [[w c]|] eqn:H3; [|done]. cbn [ok_or result_bind].
  apply split_once_char_Some in H3 as [-> _].
  destruct (str_contains hyphen c); [done|].
  destruct (parse_fixed_u64 w GENERATION_DIGITS) as [o|] eqn:Ho; [|done]. cbn [result_bind].
  destruct (parse_fixed_u64 c GENERATION_DIGITS) as [n|] eqn:Hn; [|done]. cbn [result_bind].
  destruct l as [|s4 l]; [done|]. cbn [head tail ok_or result_bind].
  destruct (parse_fixed_u64 s4 TABLE_ORDINAL_DIGITS) as [r|] eqn:Hr; [|done]. cbn [result_bind].
  destruct (Z.leb_spec r u32_max) as [Hm|Hm]; [|done]. cbn [negb].
  case_bool_decide as Hl; [|done]. subst l. cbn [negb].
  destruct (coord_try_from b) as [birth|] eqn:Hbirth; [|done]. cbn [map_err result_bind].
  destruct (coord_try_from o) as [owner|] eqn:Howner; [|done]. cbn [map_err result_bind].
  destruct (FreshIdentity_new birth (mk_attempt owner n) r) as [f|] eqn:Hf; [|done].
  cbn [map_err result_bind]. intros [= <-].
  apply FreshIdentity_new_Ok in Hf as (Ef & Ea & Eo).
  apply coord_try_from_Ok in Hbirth. apply coord_try_from_Ok in Howner.
  apply parse_digits_Ok in Hb as (-> & _ & _). apply parse_digits_Ok in Ho as (-> & _ & _).
  apply parse_digits_Ok in Hn as (-> & Hn & _). apply parse_digits_Ok in Hr as (-> & Hr & _).
  unfold table_key_widths. rewrite TableKey_display_join. cbn [key_object fresh store].
  rewrite Ef, Ea, Eo. cbn [owner_claim local_counter]. rewrite Hbirth, Howner.
  split; [symmetry; exact Hj|]. lia.
Qed.

(** * Properties *)

(** A Seal key has exactly one spelling: parsing never panics and accepts a
    string exactly when it is the displayed key of the generation it returns. *)
Theorem seal_key_roundtrip (input : str) (g : SealGeneration) :
  SealKey_from_str input ≠ Panic ∧
  (SealKey_from_str input = Ret (Ok g) ↔ SealKey_display g = Ret input).
Proof. apply coordinate_key_roundtrip. by repeat constructor. Qed.

(** A WAL key has exactly one spelling: parsing never panics and accepts a
    string exactly when it is the displayed key of the batch it returns. *)
Theorem wal_key_roundtrip (input : str) (b : BatchId) :
  WalKey_from_str input ≠ Panic ∧
  (WalKey_from_str input = Ret (Ok b) ↔ WalKey_display b = Ret input).
Proof. apply coordinate_key_roundtrip. by repeat constructor. Qed.

(** Listing keys in byte order lists coordinates newest first: one Seal key (one
    WAL key) precedes another exactly when its generation (batch) is larger, so a
    one-entry LIST of a namespace finds its newest object. *)
Theorem newest_key_lists_first (g h : SealGeneration) (b c : BatchId) :
  (∃ s t, SealKey_display g = Ret s ∧ SealKey_display h = Ret t ∧
     (ord_lt s t ↔ coord_get h < coord_get g)) ∧
  (∃ s t, WalKey_display b = Ret s ∧ WalKey_display c = Ret t ∧
     (ord_lt s t ↔ coord_get c < coord_get b)).
Proof.
  unfold SealKey_display, WalKey_display. split.
  - eexists _, _. split_and!; [apply coordinate_key_display_Ret..|].
    apply (coordinate_key_order SEAL_SEGMENT g h); apply coordinate_key_display_Ret.
  - eexists _, _. split_and!; [apply coordinate_key_display_Ret..|].
    apply (coordinate_key_order WAL_SEGMENT b c); apply coordinate_key_display_Ret.
Qed.

(** A table key has exactly one spelling: a string parses to a key exactly when
    it is that key's display and the key's counters have their machine widths. *)
Theorem table_key_roundtrip (input : str) (key : TableKey) :
  TableKey_from_str input = Ok key ↔ input = TableKey_display key ∧ table_key_widths key.
Proof.
  split; [apply TableKey_from_str_Ok|]. intros [-> Hw]. by apply TableKey_parse_display.
Qed.
