(* ===== verification/Strategies.v ===== *)
(** The generators of valid values (crates [strom-domain] and [strom-storage-domain], files
    [strategy.rs]).

    A strategy of the property-testing library is the set of outcomes one draw may have: a
    value, or a panic of the function that maps what was drawn.  The combinators are those
    the files use.  The strategies build values that are valid by construction and assert it;
    the assertions hold: no strategy ever panics, whatever it draws. *)

From S2P Require Import Prelude OrdMap Text Domain Coordinates Partition Seal Wal Spelling.

(** * Strategies *)

Definition Strategy (A : Type) : Type := Exec A → Prop.

Section combinators.
  Context {A B : Type}.

(** A draw from a range, a regular expression or the values of a type. *)
Definition draws (P : A → Prop) : Strategy A := λ outcome, ∃ a, P a ∧ outcome = Ret a.

Definition Just (a : A) : Strategy A := λ outcome, outcome = Ret a.

Definition prop_map (s : Strategy A) (f : A → Exec B) : Strategy B :=
  λ outcome, ∃ drawn, s drawn ∧ outcome = (let! a := drawn in f a).

Definition prop_filter_map (s : Strategy A) (f : A → option B) : Strategy B :=
  λ outcome, ∃ drawn, s drawn ∧
    match drawn with
    | Panic => outcome = Panic
    | Ret a => ∃ b, f a = Some b ∧ outcome = Ret b
    end.

Definition prop_flat_map (s : Strategy A) (f : A → Exec (Strategy B)) : Strategy B :=
  λ outcome, ∃ drawn, s drawn ∧
    match (let! a := drawn in f a) with Panic => outcome = Panic | Ret t => t outcome end.

Definition prop_oneof (choices : list (Strategy A)) : Strategy A :=
  λ outcome, ∃ s, s ∈ choices ∧ s outcome.

Definition tuple (s : Strategy A) (t : Strategy B) : Strategy (A * B) :=
  λ outcome, ∃ x y, s x ∧ t y ∧ outcome = (let! a := x in let! b := y in Ret (a, b)).

Definition option_of (s : Strategy A) : Strategy (option A) :=
  λ outcome, outcome = Ret None ∨ ∃ x, s x ∧ outcome = (let! a := x in Ret (Some a)).

Fixpoint sequence (drawn : list (Exec A)) : Exec (list A) :=
  match drawn with
  | [] => Ret []
  | x :: drawn => let! a := x in let! rest := sequence drawn in Ret (a :: rest)
  end.

Definition vec (s : Strategy A) (least most : Z) : Strategy (list A) :=
  λ outcome, ∃ drawn, least ≤ zlen drawn ≤ most ∧ Forall s drawn ∧ outcome = sequence drawn.

(** Every draw gives a value of which [P] holds. *)
Definition gives (s : Strategy A) (P : A → Prop) : Prop :=
  ∀ outcome, s outcome → ∃ a, outcome = Ret a ∧ P a.

End combinators.

(** A regular expression of one class, repeated between one and [most] times. *)
Definition class (member : char → bool) (most : Z) : Strategy str :=
  draws (λ s, 1 ≤ zlen s ≤ most ∧ Forall (λ c, member c = true) s).

Definition is_alphanumeric (c : char) : bool := is_ascii_lowercase c || is_ascii_digit c.

(** * The domain *)

(** strom-domain/src/strategy.rs:18-25, [stream_path]. *)
Definition stream_path_strategy : Strategy StreamPath :=
  prop_map (vec (class is_alphanumeric 8) 1 3)
    (λ segments, expect_ok (StreamPath_from_str (str_join 47 segments))).

(** strom-domain/src/strategy.rs:30-42, [stream_content_type]. *)
Definition stream_content_type_strategy : Strategy StreamContentType :=
  let essence := tuple (class is_ascii_lowercase 10)
    (class (λ c, is_alphanumeric c || bool_decide (c ∈ [46; 43; 45])) 10) in
  let charset := option_of (class (λ c, is_alphanumeric c || (c =? 45)) 8) in
  prop_map (tuple essence charset) (λ '(type_raw, subtype_raw, charset),
    let source :=
      match charset with
      | Some value => type_raw ++ lit "/" ++ subtype_raw ++ lit "; charset=" ++ value
      | None => type_raw ++ lit "/" ++ subtype_raw
      end in
    let! parsed := StreamContentType_from_str source in
    expect_ok parsed).

(** strom-domain/src/strategy.rs:55-59, [stream_ttl]. *)
Definition stream_ttl_strategy : Strategy StreamTtl :=
  prop_map (draws (λ seconds, 1 ≤ seconds ≤ u64_max)) (λ seconds, expect (NonZeroU64_new seconds)).

(** The instants from [Timestamp::MIN] to [Timestamp::MAX] are those the library represents.
    strom-domain/src/strategy.rs:64-69, [expires_at]. *)
Definition expires_at_strategy `{Jiff} : Strategy ExpiresAt :=
  prop_map (draws (λ nanoseconds, timestamp_in_range nanoseconds = true))
    (λ nanoseconds, expect_ok (ExpiresAt_try_from nanoseconds)).

(** strom-domain/src/strategy.rs:44-50, [expiry_policy]. *)
Definition expiry_policy_strategy `{Jiff} : Strategy ExpiryPolicy :=
  prop_oneof [Just NoExpiry;
              prop_map stream_ttl_strategy (λ ttl, Ret (SlidingTtl ttl));
              prop_map expires_at_strategy (λ instant, Ret (AbsoluteExpiry instant))].

(** strom-domain/src/strategy.rs:71-73, [stream_lifecycle]. *)
Definition stream_lifecycle_strategy : Strategy StreamLifecycle := prop_oneof [Just Open; Just Closed].

(** * The storage domain *)

(** The nonzero integers from one upwards, as coordinates. *)
Definition coordinate_strategy {k} : Strategy (Coord k) :=
  prop_map (draws (λ raw, 1 ≤ raw ≤ u64_max)) (λ raw, let! raw := expect (NonZeroU64_new raw) in Ret (mk_coord raw)).

(** strom-storage-domain/src/strategy.rs:125-129, [stream_uid]. *)
Definition stream_uid_strategy : Strategy StreamUid := coordinate_strategy.
(** strom-storage-domain/src/strategy.rs:153-157, [batch_id]. *)
Definition batch_id_strategy : Strategy BatchId := coordinate_strategy.
(** strom-storage-domain/src/strategy.rs:166-170, [seal_generation]. *)
Definition seal_generation_strategy : Strategy SealGeneration := coordinate_strategy.
(** strom-storage-domain/src/strategy.rs:159-161, [owner_token]. *)
Definition owner_token_strategy : Strategy OwnerToken :=
  prop_map seal_generation_strategy (λ generation, Ret {| generation := generation |}).

(** strom-storage-domain/src/strategy.rs:79-82, [partition_id]. *)
Definition partition_id_strategy : Strategy PartitionId :=
  prop_filter_map (draws (λ _ : Octets, True)) (λ bytes,
    match PartitionId_try_from bytes with Ok partition => Some partition | Err _ => None end).

(** strom-storage-domain/src/strategy.rs:84-107, [operation_fact]. *)
Definition operation_fact_strategy `{Jiff} : Strategy OperationFact :=
  prop_oneof [
    prop_map (tuple (tuple stream_path_strategy stream_uid_strategy)
                (tuple stream_content_type_strategy (tuple expiry_policy_strategy stream_lifecycle_strategy)))
      (λ '(path, uid, (content_type, (expiry, lifecycle))),
        Ret (StreamCreated path uid content_type expiry lifecycle));
    prop_map (tuple stream_path_strategy stream_uid_strategy) (λ '(path, uid), Ret (StreamClosed path uid));
    prop_map (tuple stream_path_strategy stream_uid_strategy) (λ '(path, uid), Ret (StreamDeleted path uid))].

(** strom-storage-domain/src/strategy.rs:113-118, [directory_entry]. *)
Definition directory_entry_strategy : Strategy DirectoryEntry :=
  prop_oneof [prop_map stream_uid_strategy (λ uid, Ret (Live uid));
              prop_map stream_uid_strategy (λ uid, Ret (Tombstone uid))].

(** strom-storage-domain/src/strategy.rs:138-148, [stream_record]. *)
Definition stream_record_strategy `{Jiff} : Strategy StreamRecord :=
  prop_map (tuple (tuple stream_content_type_strategy expiry_policy_strategy)
              (tuple stream_lifecycle_strategy batch_id_strategy))
    (λ '(content_type, expiry, (lifecycle, created_at)), Ret (mk_record content_type expiry lifecycle created_at)).

(** strom-storage-domain/src/strategy.rs:131-136, [ledger_cell]. *)
Definition ledger_cell_strategy `{Jiff} : Strategy LedgerCell :=
  prop_oneof [prop_map stream_record_strategy (λ record, Ret (Value record)); Just Delete].

(** Rows through a [BTreeMap]: a later row replaces an earlier one of its key. *)
Definition sorted_rows {K V} `{Ord K, Countable K} (rows : list (K * V)) : list (K * V) :=
  om_iter (foldl (λ map row, <[row.1 := row.2]> map) ∅ rows).

(** strom-storage-domain/src/strategy.rs:15-22, [ledger_rows]. *)
Definition ledger_rows_strategy `{Jiff} : Strategy (list (StreamUid * LedgerCell)) :=
  prop_map (vec (tuple stream_uid_strategy ledger_cell_strategy) 1 16) (λ rows, Ret (sorted_rows rows)).

(** strom-storage-domain/src/strategy.rs:24-31, [directory_rows]. *)
Definition directory_rows_strategy : Strategy (list (StreamPath * DirectoryEntry)) :=
  prop_map (vec (tuple stream_path_strategy directory_entry_strategy) 1 16) (λ rows, Ret (sorted_rows rows)).

(** strom-storage-domain/src/strategy.rs:37-52, [wal_object]. *)
Definition wal_object_strategy `{Jiff} : Strategy WalObject :=
  prop_flat_map
    (tuple (tuple partition_id_strategy (vec operation_fact_strategy 1 16))
       (tuple batch_id_strategy owner_token_strategy))
    (λ '(partition, facts, (batch, owner)),
      let! facts := expect_ok (checked facts_check facts) in
      Ret (prop_oneof [Just (mk_wal_object partition batch owner (Run facts));
                       Just (mk_wal_object partition batch owner Fence)])).

(** strom-storage-domain/src/strategy.rs:54-77, [seal]. *)
Definition seal_strategy : Strategy Seal :=
  prop_filter_map
    (tuple (tuple partition_id_strategy (option_of (tuple batch_id_strategy owner_token_strategy)))
       seal_generation_strategy)
    (λ '(partition, replay, generation),
      let replay := match replay with Some (batch, owner) => Through batch owner | None => Genesis end in
      match Seal_new partition generation replay tree_empty tree_empty with
      | Ok seal => Some seal
      | Err _ => None
      end).

(** * No assertion fails *)

Section gives.
  Context {A B : Type}.

Lemma gives_weaken (s : Strategy A) (P Q : A → Prop) : (∀ a, P a → Q a) → gives s P → gives s Q.
Proof. intros H Hs o Ho. destruct (Hs o Ho) as (a & -> & Ha). eauto. Qed.

Lemma draws_gives (P : A → Prop) : gives (draws P) P.
Proof. intros o (a & Ha & ->). eauto. Qed.

Lemma Just_gives (a : A) (P : A → Prop) : P a → gives (Just a) P.
Proof. intros Ha o ->. eauto. Qed.

Lemma prop_map_gives (s : Strategy A) (f : A → Exec B) P Q :
  gives s P → (∀ a, P a → ∃ b, f a = Ret b ∧ Q b) → gives (prop_map s f) Q.
Proof. intros Hs Hf o (x & Hx & ->). destruct (Hs x Hx) as (a & -> & Ha). apply Hf, Ha. Qed.

Lemma prop_filter_map_gives (s : Strategy A) (f : A → option B) P (Q : B → Prop) :
  gives s P → (∀ a b, P a → f a = Some b → Q b) → gives (prop_filter_map s f) Q.
Proof.
  intros Hs Hf o (x & Hx & Ho). destruct (Hs x Hx) as (a & -> & Ha). destruct Ho as (b & Hb & ->). eauto.
Qed.

Lemma prop_flat_map_gives (s : Strategy A) (f : A → Exec (Strategy B)) P Q :
  gives s P → (∀ a, P a → ∃ t, f a = Ret t ∧ gives t Q) → gives (prop_flat_map s f) Q.
Proof.
  intros Hs Hf o (x & Hx & Ho). destruct (Hs x Hx) as (a & -> & Ha). cbn [exec_bind] in Ho.
  destruct (Hf a Ha) as (t & Ht & Hg). rewrite Ht in Ho. by apply Hg.
Qed.

Lemma prop_oneof_gives (choices : list (Strategy A)) P :
  Forall (λ s, gives s P) choices → gives (prop_oneof choices) P.
Proof. rewrite Forall_forall. intros Hc o (s & Hs & Ho). by apply (Hc s Hs). Qed.

Lemma tuple_gives (s : Strategy A) (t : Strategy B) P Q :
  gives s P → gives t Q → gives (tuple s t) (λ x, P x.1 ∧ Q x.2).
Proof.
  intros Hs Ht o (x & y & Hx & Hy & ->). destruct (Hs x Hx) as (a & -> & Ha), (Ht y Hy) as (b & -> & Hb).
  by exists (a, b).
Qed.

Lemma option_of_gives (s : Strategy A) (P : A → Prop) :
  gives s P → gives (option_of s) (λ x, ∀ a, x = Some a → P a).
Proof.
  intros Hs o [->|(x & Hx & ->)]; [by exists None|]. destruct (Hs x Hx) as (a & -> & Ha).
  exists (Some a). split; [done|]. by intros a' [= <-].
Qed.

Lemma vec_gives (s : Strategy A) P least most :
  gives s P → gives (vec s least most) (λ l, least ≤ zlen l ≤ most ∧ Forall P l).
Proof.
  intros Hs o (drawn & Hl & Hd & ->).
  assert (∃ l, sequence drawn = Ret l ∧ zlen l = zlen drawn ∧ Forall P l) as (l & -> & Hz & HP).
  { clear Hl. induction Hd as [|x drawn Hx _ IH]; [by exists []|].
    destruct (Hs x Hx) as (a & -> & Ha), IH as (l & Hl & Hz & HP). exists (a :: l). cbn. rewrite Hl.
    split; [done|]. split; [unfold zlen in *; simpl; lia|by constructor]. }
  exists l. split; [done|]. by rewrite Hz.
Qed.

End gives.

Lemma is_alphanumeric_spec c : is_alphanumeric c = true ↔ 48 ≤ c ≤ 57 ∨ 97 ≤ c ≤ 122.
Proof.
  unfold is_alphanumeric, is_ascii_lowercase, is_ascii_digit.
  rewrite orb_true_iff, !andb_true_iff, !Z.leb_le. lia.
Qed.

Lemma join_Forall (P : char → Prop) l : P 47 → Forall (Forall P) l → Forall P (str_join 47 l).
Proof.
  intros H47. induction 1 as [|s [|t l] Hs Hl IH]; [constructor|done|].
  change (str_join 47 (s :: t :: l)) with (s ++ 47 :: str_join 47 (t :: l)).
  rewrite Forall_app, Forall_cons. done.
Qed.

Lemma join_length most l :
  Forall (λ s : str, zlen s ≤ most) l → 0 ≤ most → zlen (str_join 47 l) ≤ zlen l * (most + 1).
Proof.
  intros Hl H0. induction Hl as [|s [|t l] Hs Hl IH]; [done|unfold zlen in *; simpl; lia|].
  change (str_join 47 (s :: t :: l)) with (s ++ 47 :: str_join 47 (t :: l)).
  unfold zlen in *. rewrite length_app. simpl length in *. nia.
Qed.

(** Alphanumeric segments joined by slashes are neither empty, relative, nor reserved. *)
Lemma alphanumeric_path segments :
  1 ≤ zlen segments ≤ 3 →
  Forall (λ s : str, 1 ≤ zlen s ≤ 8 ∧ Forall (λ c, is_alphanumeric c = true) s) segments →
  path_ok (str_join 47 segments).
Proof.
  intros Hn Hs.
  assert (Forall (Forall (λ c, 48 ≤ c ≤ 57 ∨ 97 ≤ c ≤ 122)) segments) as Hchars.
  { eapply Forall_impl; [exact Hs|]. intros s [_ Hc]. eapply Forall_impl; [exact Hc|].
    intros c. apply is_alphanumeric_spec. }
  assert (Forall (λ c, 47 ≤ c ≤ 122) (str_join 47 segments)) as Hjoin.
  { apply join_Forall; [lia|]. eapply Forall_impl; [exact Hchars|]. intros s Hc.
    eapply Forall_impl; [exact Hc|]. simpl. lia. }
  assert (split_char 47 (str_join 47 segments) = segments) as Hsplit.
  { apply split_join; [intros ->; unfold zlen in Hn; simpl in Hn; lia|]. eapply Forall_impl; [exact Hchars|]. intros s Hc.
    eapply Forall_impl; [exact Hc|]. simpl. lia. }
  assert (∀ s, s ∈ segments → s ≠ [] ∧ (∀ c, c ∈ s → 48 ≤ c ≤ 57 ∨ 97 ≤ c ≤ 122)) as Hseg.
  { rewrite Forall_forall in Hs, Hchars. intros s Hin. specialize (Hchars s Hin).
    rewrite Forall_forall in Hchars. split; [|done]. intros ->. destruct (Hs [] Hin) as [H _].
    unfold zlen in H. simpl in H. lia. }
  unfold path_ok. rewrite Hsplit. split_and!.
  - rewrite str_len_ascii by (eapply Forall_impl; [exact Hjoin|]; simpl; lia).
    pose proof (join_length 8 segments) as Hl. etransitivity; [apply Hl|unfold STREAM_PATH_BYTES_MAX; lia]; [|done].
    eapply Forall_impl; [exact Hs|]. simpl. lia.
  - eapply Forall_impl; [exact Hjoin|]. intros c Hc. unfold is_control. simpl in Hc.
    apply not_true_is_false. rewrite orb_true_iff, ?andb_true_iff, ?Z.leb_le, ?Z.ltb_lt. lia.
  - rewrite Forall_forall. intros s Hin. destruct (Hseg s Hin) as [Hne Hc].
    unfold segment_ok. split_and!; [done|..]; intros ->; specialize (Hc 46 ltac:(apply (bool_decide_unpack _); vm_compute; exact I)); lia.
  - destruct segments as [|s l]; [done|]. intros [= ->].
    destruct (Hseg ROOT_SEGMENT_RESERVED ltac:(by left)) as [_ Hc].
    specialize (Hc 95 ltac:(apply (bool_decide_unpack _); vm_compute; exact I)). lia.
Qed.

Lemma stream_path_gives : gives stream_path_strategy (λ _, True).
Proof.
  eapply prop_map_gives; [apply vec_gives, draws_gives|]. intros segments [Hn Hs].
  pose proof (alphanumeric_path segments Hn Hs) as Hok. apply StreamPath_validate_ok in Hok.
  destruct (checked_total StreamPath_validate (str_join 47 segments)) as (p & Hp & _);
    [unfold accepts; by rewrite Hok|]. unfold StreamPath_from_str. rewrite Hp. by exists p.
Qed.

Lemma lower_alphabet (member : char → bool) most s :
  (∀ c, member c = true → is_token_char c = true ∧ is_ascii_uppercase c = false) →
  1 ≤ zlen s ≤ most ∧ Forall (λ c, member c = true) s → lower_token s ∧ str_len s ≤ most.
Proof.
  intros Hm [Hl Hs].
  assert (Forall (λ c, is_token_char c = true ∧ is_ascii_uppercase c = false) s) as Hboth.
  { eapply Forall_impl; [exact Hs|]. intros c. apply Hm. }
  apply Forall_and in Hboth as [Ht Hu]. split; [split; [|done]|].
  - apply is_token_spec. split; [|done]. intros ->. unfold zlen in Hl. simpl in Hl. lia.
  - rewrite str_len_ascii; [lia|]. eapply Forall_impl; [exact Ht|]. apply is_token_char_ascii.
Qed.

Lemma member_token c :
  is_alphanumeric c || bool_decide (c ∈ [46; 43; 45]) = true →
  is_token_char c = true ∧ is_ascii_uppercase c = false.
Proof.
  rewrite orb_true_iff, is_alphanumeric_spec, bool_decide_eq_true.
  intros H. assert (c ∈ [46; 43; 45] → c = 46 ∨ c = 43 ∨ c = 45) as Hin.
  { rewrite !elem_of_cons, elem_of_nil. tauto. }
  unfold is_token_char, is_ascii_uppercase, is_ascii_lowercase, is_ascii_digit.
  split.
  - destruct H as [[H|H]|H%Hin]; rewrite !orb_true_iff, !andb_true_iff, !Z.leb_le; [lia..|].
    right. destruct H as [->|[->| ->]]; reflexivity.
  - apply not_true_is_false. rewrite andb_true_iff, !Z.leb_le. intros [H1 H2].
    destruct H as [H|H%Hin]; lia.
Qed.

Lemma stream_content_type_gives : gives stream_content_type_strategy (λ _, True).
Proof.
  eapply prop_map_gives.
  { apply tuple_gives; [apply tuple_gives; apply draws_gives|apply option_of_gives, draws_gives]. }
  intros [[ty sub] charset] [[Ht Hs] Hv]. cbn [fst snd] in *.
  apply lower_alphabet in Ht as [Ht Ht'].
  2: { intros c Hc. apply member_token. unfold is_alphanumeric. by rewrite Hc. }
  apply lower_alphabet in Hs as [Hs Hs']; [|apply member_token].
  assert (∀ value, charset = Some value → lower_token value ∧ str_len value ≤ 8) as Hc.
  { intros value Hval. apply Hv, lower_alphabet in Hval; [done|]. intros c Hx. apply member_token.
    apply orb_true_iff in Hx as [->|Hx%Z.eqb_eq]; [done|]. subst c. apply orb_true_r. }
  assert (canonical_parts ty sub charset) as Hparts.
  { split_and!; [done|done|by intros value Hval; apply Hc|]. unfold spelling.
    rewrite !str_len_app. destruct charset as [value|].
    - destruct (Hc value eq_refl) as [_ Hlen]. rewrite str_len_app.
      change (str_len CHARSET_INTRO) with 10. change (str_len [47]) with 1. unfold CONTENT_TYPE_BYTES_MAX. lia.
    - change (str_len []) with 0. change (str_len [47]) with 1. unfold CONTENT_TYPE_BYTES_MAX. lia. }
  pose proof (parse_spelling _ _ _ Hparts) as Hparse.
  assert (match charset with
    | Some value => ty ++ lit "/" ++ sub ++ lit "; charset=" ++ value
    | None => ty ++ lit "/" ++ sub end = spelling ty sub charset) as ->.
  { unfold spelling. destruct charset; [done|]. by rewrite (right_id_L [] (++)). }
  unfold StreamContentType_from_str.
  pose proof (wrap_media_type_spec _ _ (eq_refl (parse_media_type (spelling ty sub charset)))) as Hw.
  destruct (wrap_media_type _ _ _) as [[ct|e]|]; [by exists ct|rewrite Hparse in Hw; discriminate Hw..].
Qed.

Lemma nonzero_draw raw : 1 ≤ raw ≤ u64_max → ∃ x, expect (NonZeroU64_new raw) = Ret x.
Proof.
  intros H. destruct (NonZeroU64_new_in raw H) as (x & -> & _). by exists x.
Qed.

Lemma stream_ttl_gives : gives stream_ttl_strategy (λ _, True).
Proof.
  eapply prop_map_gives; [apply draws_gives|]. intros raw H.
  destruct (nonzero_draw raw H) as [x ->]. by exists x.
Qed.

Lemma coordinate_gives {k} : gives (@coordinate_strategy k) (λ _, True).
Proof.
  eapply prop_map_gives; [apply draws_gives|]. intros raw H.
  destruct (nonzero_draw raw H) as [x ->]. by exists (mk_coord x).
Qed.

(** A map that asserts nothing. *)
Lemma pure_gives {A B} (s : Strategy A) (f : A → B) P :
  gives s P → gives (prop_map s (λ a, Ret (f a))) (λ _, True).
Proof. intros Hs. eapply prop_map_gives; [exact Hs|]. eauto. Qed.

Lemma gives_any {A} (s : Strategy A) P : gives s P → gives s (λ _, True).
Proof. by apply gives_weaken. Qed.

#[local] Create HintDb strategies.
#[local] Hint Resolve stream_path_gives stream_content_type_gives stream_ttl_gives coordinate_gives
  draws_gives Just_gives tuple_gives option_of_gives vec_gives : strategies.

Section storage.
  Context {J : Jiff}.

Lemma expires_at_gives : gives expires_at_strategy (λ _, True).
Proof.
  eapply prop_map_gives; [apply draws_gives|]. intros raw H. unfold ExpiresAt_try_from.
  rewrite H. by eexists.
Qed.

Lemma expiry_policy_gives : gives expiry_policy_strategy (λ _, True).
Proof.
  apply prop_oneof_gives. rewrite !Forall_cons.
  split_and!; [by apply Just_gives|eapply pure_gives, stream_ttl_gives|eapply pure_gives, expires_at_gives|constructor].
Qed.

Lemma stream_lifecycle_gives : gives stream_lifecycle_strategy (λ _, True).
Proof. apply prop_oneof_gives. rewrite !Forall_cons. split_and!; [by apply Just_gives..|constructor]. Qed.

Lemma owner_token_gives : gives owner_token_strategy (λ _, True).
Proof. eapply pure_gives, coordinate_gives. Qed.

Lemma partition_id_gives : gives partition_id_strategy (λ _, True).
Proof. by eapply prop_filter_map_gives; [apply draws_gives|]. Qed.

Lemma operation_fact_gives : gives operation_fact_strategy (λ _, True).
Proof.
  apply prop_oneof_gives. rewrite !Forall_cons. split_and!; [..|constructor].
  - eapply prop_map_gives.
    { eauto using expiry_policy_gives, stream_lifecycle_gives with strategies. }
    intros [[path uid] [ct [ex lc]]] _. by eexists.
  - eapply prop_map_gives; [eauto with strategies|]. intros [path uid] _. by eexists.
  - eapply prop_map_gives; [eauto with strategies|]. intros [path uid] _. by eexists.
Qed.

Lemma directory_entry_gives : gives directory_entry_strategy (λ _, True).
Proof.
  apply prop_oneof_gives. rewrite !Forall_cons. split_and!; [eapply pure_gives, coordinate_gives..|constructor].
Qed.

Lemma stream_record_gives : gives stream_record_strategy (λ _, True).
Proof.
  eapply prop_map_gives; [eauto using expiry_policy_gives, stream_lifecycle_gives with strategies|].
  intros [[ct ex] [lc at_]] _. by eexists.
Qed.

Lemma ledger_cell_gives : gives ledger_cell_strategy (λ _, True).
Proof.
  apply prop_oneof_gives. rewrite !Forall_cons.
  split_and!; [eapply pure_gives, stream_record_gives|by apply Just_gives|constructor].
Qed.

(** Rows come out strictly sorted, at least one and at most as many as were drawn. *)
Lemma sorted_rows_ok {K V} `{OrdLaws K, Countable K} (rows : list (K * V)) :
  1 ≤ zlen rows ≤ 16 →
  strictly_sorted (sorted_rows rows) ∧ 1 ≤ zlen (sorted_rows rows) ≤ 16.
Proof.
  intros Hl. split; [apply om_iter_sorted|]. unfold sorted_rows, zlen in *. rewrite om_iter_length.
  assert (∀ m : gmap K V, (size m ≤ size (foldl (λ map row, <[row.1 := row.2]> map) m rows) ≤ size m + length rows)%nat
    ∧ (rows ≠ [] → 1 ≤ size (foldl (λ map row, <[row.1 := row.2]> map) m rows))%nat) as Hgen.
  { clear Hl. induction rows as [|[k v] rows IH]; intros m; simpl; [split; [lia|done]|].
    destruct (IH (<[k := v]> m)) as [Hb _].
    assert (size m ≤ size (<[k := v]> m) ≤ S (size m) ∧ 1 ≤ size (<[k := v]> m))%nat as Hi.
    { rewrite map_size_insert. destruct (m !! k) as [x|] eqn:E; simpl; [|lia].
      assert (size m ≠ 0%nat) by (eapply map_size_ne_0_lookup_2; by eexists). lia. }
    split; [lia|]. intros _. lia. }
  destruct (Hgen ∅) as [Hb Hne]. rewrite map_size_empty in Hb.
  assert (rows ≠ []) as Hr by (intros ->; simpl in Hl; lia). specialize (Hne Hr). lia.
Qed.

Lemma ledger_rows_gives :
  gives ledger_rows_strategy (λ rows, strictly_sorted rows ∧ 1 ≤ zlen rows ≤ 16).
Proof.
  eapply prop_map_gives; [apply vec_gives, tuple_gives; [apply coordinate_gives|apply ledger_cell_gives]|].
  intros rows [Hl _]. eexists. split; [reflexivity|]. by apply sorted_rows_ok.
Qed.

Lemma directory_rows_gives :
  gives directory_rows_strategy (λ rows, strictly_sorted rows ∧ 1 ≤ zlen rows ≤ 16).
Proof.
  eapply prop_map_gives; [apply vec_gives, tuple_gives; [apply stream_path_gives|apply directory_entry_gives]|].
  intros rows [Hl _]. eexists. split; [reflexivity|]. by apply sorted_rows_ok.
Qed.

Lemma wal_object_gives : gives wal_object_strategy (λ _, True).
Proof.
  eapply prop_flat_map_gives.
  { apply tuple_gives; apply tuple_gives;
      [apply partition_id_gives|apply vec_gives, operation_fact_gives|apply coordinate_gives|apply owner_token_gives]. }
  intros [[partition facts] [batch owner]] [[_ [Hl _]] _]. cbn [fst snd] in *.
  destruct (checked_total facts_check facts) as (x & -> & _).
  { unfold accepts, facts_check. rewrite bool_decide_eq_false_2 by (intros ->; unfold zlen in Hl; simpl in Hl; lia).
    rewrite (proj2 (Z.ltb_ge _ _)); [done|]. unfold WAL_RUN_FACTS_MAX. lia. }
  eexists. split; [reflexivity|]. apply prop_oneof_gives. rewrite !Forall_cons.
  split_and!; [by apply Just_gives..|constructor].
Qed.

Lemma seal_gives : gives seal_strategy (λ _, True).
Proof.
  eapply prop_filter_map_gives; [|done]. apply tuple_gives; [apply tuple_gives|apply coordinate_gives].
  - apply partition_id_gives.
  - apply option_of_gives, tuple_gives; [apply coordinate_gives|apply owner_token_gives].
Qed.

(** No strategy panics: every draw gives a value, and rows come strictly sorted and few. *)
Theorem strategies_assert_truly :
  gives stream_path_strategy (λ _, True) ∧ gives stream_content_type_strategy (λ _, True) ∧
  gives stream_ttl_strategy (λ _, True) ∧ gives expires_at_strategy (λ _, True) ∧
  gives expiry_policy_strategy (λ _, True) ∧ gives operation_fact_strategy (λ _, True) ∧
  gives ledger_rows_strategy (λ rows, strictly_sorted rows ∧ 1 ≤ zlen rows ≤ 16) ∧
  gives directory_rows_strategy (λ rows, strictly_sorted rows ∧ 1 ≤ zlen rows ≤ 16) ∧
  gives wal_object_strategy (λ _, True) ∧ gives seal_strategy (λ _, True).
Proof.
  split_and!; [apply stream_path_gives|apply stream_content_type_gives|apply stream_ttl_gives
    |apply expires_at_gives|apply expiry_policy_gives|apply operation_fact_gives|apply ledger_rows_gives
    |apply directory_rows_gives|apply wal_object_gives|apply seal_gives].
Qed.

End storage.

(** Empty trees do not always form a Seal: a replay point whose owner is not before the
    generation is refused, and the draw is thrown away. *)
Lemma empty_trees_refused partition batch (generation : SealGeneration) :
  1 < coord_get generation →
  Seal_new partition generation (Through batch {| generation := generation |}) tree_empty tree_empty =
    Err ReplayOwnerNotBeforeSeal.
Proof.
  intros Hg. unfold Seal_new. apply checked_Err. unfold seal_check. cbn [fields_generation fields_replay].
  rewrite bool_decide_eq_false_2.
  - cbn [andb]. unfold coord_leb. cbn. by rewrite Z.leb_refl.
  - intros ->. vm_compute in Hg. discriminate Hg.
Qed.
