(* ===== verification/Sst.v ===== *)
(** Sorted-string tables (crate [strom-storage-domain], files [sst.rs],
    [sst/directory.rs], [sst/ledger.rs] and the table part of [candidate.rs]).

    A table is one archived object: its partition, its fresh identity and its rows
    in strictly ascending key order.  The file shows that decoding an encoded table
    gives its rows back and that whatever decodes is nonempty and sorted. *)

From S2P Require Import Prelude OrdMap Text Domain Coordinates Partition Seal Wal Forest.
From S2P Require Import ForestTheory Archive Spelling.

(** strom-storage-domain/src/sst.rs:16-30, [SstEncodeError]. *)
Inductive SstEncodeError : Type :=
| SstStoreMismatch
| EmptyTable
| RowsNotStrictlyOrdered
| SstSerialization
| SstEncodedBytesOverMax
| SstResourceBound.

(** strom-storage-domain/src/sst.rs:32-39, [SstEncodeError::from]. *)
Definition sst_encode_error (error : EncodeError) : SstEncodeError :=
  match error with
  | Serialization => SstSerialization
  | EncodeBytesOverMax _ => SstEncodedBytesOverMax
  end.

(** strom-storage-domain/src/sst.rs:53-67, [SstDecodeError]. *)
Inductive SstDecodeError : Type :=
| DecodedBytesOverMax (bytes_actual : Z)
| SstMalformedArchive
| SstInvalidBody
| SstIdentityMismatch
| DecodedStoreMismatch
| DecodedResourceBound.

(** The archived size of a row ([size_of::<Archived<Row>>]), and the allocator
    behind [Vec::try_reserve_exact]. *)
Class RowLayout := {
  directory_row_size : Z;
  ledger_row_size : Z;
  reserve_rows : Z → bool
}.

Class RowLayoutLaws `{RowLayout} : Prop := {
  reserve_rows_succeeds : ∀ n, reserve_rows n = true
}.

(** strom-storage-domain/src/sst.rs:41-51, [check_encode_rows]. *)
Definition check_encode_rows (row_size rows_len : Z) : Result SstEncodeError unit :=
  if PARTITION_PATH_OCCUPANCIES_MAX_V2 <? rows_len then Err SstResourceBound
  else if SST_OBJECT_BYTES_MAX <? u64_saturating_mul rows_len row_size
  then Err SstEncodedBytesOverMax
  else Ok tt.

(** strom-storage-domain/src/sst.rs:69-75, [check_decode_bound]. *)
Definition check_decode_bound (bytes : list Z) : Result SstDecodeError unit :=
  if SST_OBJECT_BYTES_MAX <? zlen bytes then Err (DecodedBytesOverMax (zlen bytes)) else Ok tt.

(** The archived fields of a [FreshIdentity].
    strom-storage-domain/src/table.rs:41-48, [ArchivedFreshIdentity]. *)
Record ArchivedFresh : Type := mk_archived_fresh {
  archived_fresh_birth : SealGeneration;
  archived_fresh_attempt : AttemptId;
  archived_fresh_ordinal : Z
}.

(** strom-storage-domain/src/table.rs:42-48, [FreshIdentity (archive)]. *)
Definition archive_fresh (f : FreshIdentity) : ArchivedFresh :=
  mk_archived_fresh (birth_generation f) (attempt f) (ordinal f).

(** strom-storage-domain/src/table.rs:85-96, [FreshIdentity::try_from (archived)]. *)
Definition decode_fresh (f : ArchivedFresh) : Result DecodeError FreshIdentity :=
  map_err (λ _, InvalidBody)
    (FreshIdentity_new (archived_fresh_birth f) (archived_fresh_attempt f)
       (archived_fresh_ordinal f)).

(** strom-storage-domain/src/sst/ledger.rs:14-23, [LedgerSstArchive]. *)
Record SstArchive (Row : Type) : Type := mk_sst {
  sst_partition : Octets;
  sst_fresh : ArchivedFresh;
  sst_rows : list Row
}.
Arguments mk_sst {Row} sst_partition sst_fresh sst_rows.
Arguments sst_partition {Row} s.
Arguments sst_fresh {Row} s.
Arguments sst_rows {Row} s.

(** strom-storage-domain/src/ledger.rs:10-19, [ArchivedStreamRecord]. *)
Record ArchivedRecord : Type := mk_archived_record {
  archived_content_type : str;
  archived_expiry : ExpiryArchive;
  archived_lifecycle : LifecycleArchive;
  archived_created_at : BatchId
}.

(** strom-storage-domain/src/ledger.rs:76-81, [ArchivedLedgerCell]. *)
Inductive ArchivedCell : Type :=
| ArchivedValue (record : ArchivedRecord)
| ArchivedDelete.

(** strom-storage-domain/src/sst/directory.rs:18-25, [DirectoryRowArchive]. *)
Definition ArchivedDirectoryRow : Type := str * DirectoryEntry.
(** strom-storage-domain/src/sst/ledger.rs:14-23, [LedgerSstArchive (row)]. *)
Definition ArchivedLedgerRow : Type := StreamUid * ArchivedCell.

(** strom-storage-domain/src/ledger.rs:10-19, [StreamRecord (archive)]. *)
Definition archive_record (record : StreamRecord) : ArchivedRecord :=
  mk_archived_record (StreamContentType_as_str (content_type record))
    (archive_expiry (expiry record)) (archive_lifecycle (lifecycle record)) (created_at record).

(** strom-storage-domain/src/ledger.rs:76-81, [LedgerCell (archive)]. *)
Definition archive_cell (cell : LedgerCell) : ArchivedCell :=
  match cell with Value record => ArchivedValue (archive_record record) | Delete => ArchivedDelete end.

(** strom-storage-domain/src/sst/directory.rs:42-58, [DirectoryRowsAsArchive]. *)
Definition archive_directory_row (row : StreamPath * DirectoryEntry) : ArchivedDirectoryRow :=
  (StreamPath_as_str row.1, row.2).
(** strom-storage-domain/src/sst/ledger.rs:18-23, [LedgerSstArchive (rows)]. *)
Definition archive_ledger_row (row : StreamUid * LedgerCell) : ArchivedLedgerRow :=
  (row.1, archive_cell row.2).

(** strom-storage-domain/src/ledger.rs:63-74, [StreamRecord::try_from]. *)
Definition decode_record `{Jiff} (record : ArchivedRecord) : Exec (Result DecodeError StreamRecord) :=
  let!? content_type := decode_content_type (archived_content_type record) in
  let!? expiry := decode_expiry (archived_expiry record) in
  Ret (Ok (mk_record content_type expiry (decode_lifecycle (archived_lifecycle record))
    (archived_created_at record))).

(** strom-storage-domain/src/ledger.rs:83-92, [LedgerCell::try_from]. *)
Definition decode_cell `{Jiff} (cell : ArchivedCell) : Exec (Result DecodeError LedgerCell) :=
  match cell with
  | ArchivedValue record =>
      let!? record := decode_record record in Ret (Ok (Value record))
  | ArchivedDelete => Ret (Ok Delete)
  end.

(** The ordering scan of an encoder: every key strictly above the previous one.
    strom-storage-domain/src/sst/directory.rs:89-95, [encode_directory_sst (order)]. *)
Fixpoint check_ordered {K V} `{Ord K} (previous : option K) (rows : list (K * V)) :
    Result SstEncodeError unit :=
  match rows with
  | [] => Ok tt
  | (key, _) :: rows =>
      if match previous with Some previous => negb (ord_ltb previous key) | None => false end
      then Err RowsNotStrictlyOrdered
      else check_ordered (Some key) rows
  end.

Section codecs.
  Context {J : Jiff} {HP : Heap} {RL : RowLayout}.
  Context {RD : Rkyv (SstArchive ArchivedDirectoryRow)} {RG : Rkyv (SstArchive ArchivedLedgerRow)}.

(** strom-storage-domain/src/sst/directory.rs:71-103, [encode_directory_sst]. *)
Definition encode_directory_sst (partition : PartitionId) (expected : TableKey)
    (rows : list (StreamPath * DirectoryEntry)) : Result SstEncodeError (list Z) :=
  if negb (bool_decide (store (key_object expected) = Directory)) then Err SstStoreMismatch
  else if bool_decide (rows = []) then Err EmptyTable
  else
    let? _ := check_encode_rows directory_row_size (zlen rows) in
    let? _ := check_ordered None rows in
    map_err sst_encode_error
      (encode
         (mk_sst (content partition) (archive_fresh (fresh (key_object expected)))
            (archive_directory_row <$> rows))
         SST_OBJECT_BYTES_MAX).

(** strom-storage-domain/src/sst/ledger.rs:25-57, [encode_ledger_sst]. *)
Definition encode_ledger_sst (partition : PartitionId) (expected : TableKey)
    (rows : list (StreamUid * LedgerCell)) : Result SstEncodeError (list Z) :=
  if negb (bool_decide (store (key_object expected) = Ledger)) then Err SstStoreMismatch
  else if bool_decide (rows = []) then Err EmptyTable
  else
    let? _ := check_encode_rows ledger_row_size (zlen rows) in
    let? _ := check_ordered None rows in
    map_err sst_encode_error
      (encode
         (mk_sst (content partition) (archive_fresh (fresh (key_object expected)))
            (archive_ledger_row <$> rows))
         SST_OBJECT_BYTES_MAX).

(** The gates shared by both decoders, up to the row loop.
    strom-storage-domain/src/sst/directory.rs:111-139, [decode_directory_sst (gates)]. *)
Definition decode_root {Row} `{Rkyv (SstArchive Row)} (store_kind : StoreKind)
    (expected_partition : PartitionId) (expected : TableKey) (bytes : list Z) :
    Result SstDecodeError (list Row) :=
  let? _ := check_decode_bound bytes in
  if negb (bool_decide (store (key_object expected) = store_kind)) then Err DecodedStoreMismatch
  else
    let? root := ok_or SstMalformedArchive (rkyv_access bytes) in
    let? partition := map_err (λ _, SstInvalidBody) (decode_partition (sst_partition root)) in
    let? fresh_identity := map_err (λ _, SstInvalidBody) (decode_fresh (sst_fresh root)) in
    if negb (bool_decide (partition = expected_partition))
       || negb (bool_decide (fresh_identity = fresh (key_object expected)))
    then Err SstIdentityMismatch
    else if bool_decide (sst_rows root = []) then Err SstInvalidBody
    else if PARTITION_PATH_OCCUPANCIES_MAX_V2 <? zlen (sst_rows root)
    then Err DecodedResourceBound
    else if negb (reserve_rows (zlen (sst_rows root))) then Err DecodedResourceBound
    else Ok (sst_rows root).

(** Add a row to the resident account.
    strom-storage-domain/src/sst/directory.rs:149-154, [resident bound]. *)
Definition charge_row (resident_bytes row_bytes : Z) : Result SstDecodeError Z :=
  let? resident_bytes := ok_or DecodedResourceBound (u64_checked_add resident_bytes row_bytes) in
  if PARTITION_RESIDENT_LOGICAL_BYTES_MAX_V2 <? resident_bytes then Err DecodedResourceBound
  else Ok resident_bytes.

(** strom-storage-domain/src/sst/directory.rs:139-165, [decode_directory_sst (rows)]. *)
Fixpoint decode_directory_rows (previous : option str) (resident_bytes : Z)
    (rows : list ArchivedDirectoryRow) : Result SstDecodeError (list (StreamPath * DirectoryEntry)) :=
  match rows with
  | [] => Ok []
  | (key, entry) :: rows =>
      if bool_decide (str_len key = 0) || (STREAM_PATH_BYTES_MAX <? str_len key)
      then Err SstInvalidBody
      else if match previous with Some previous => negb (ord_ltb previous key) | None => false end
      then Err SstInvalidBody
      else
        let? resident_bytes := charge_row resident_bytes DIRECTORY_ROW_LOGICAL_BYTES_MAX in
        let? path := map_err (λ _, SstInvalidBody) (StreamPath_from_str key) in
        let? rows := decode_directory_rows (Some key) resident_bytes rows in
        Ok ((path, entry) :: rows)
  end.

(** strom-storage-domain/src/sst/directory.rs:105-165, [decode_directory_sst]. *)
Definition decode_directory_sst (expected_partition : PartitionId) (expected : TableKey)
    (bytes : list Z) : Result SstDecodeError (list (StreamPath * DirectoryEntry)) :=
  let? rows := decode_root Directory expected_partition expected bytes in
  decode_directory_rows None 0 rows.

(** strom-storage-domain/src/sst/ledger.rs:93-118, [decode_ledger_sst (rows)]. *)
Fixpoint decode_ledger_rows (previous : option StreamUid) (resident_bytes : Z)
    (rows : list ArchivedLedgerRow) : Exec (Result SstDecodeError (list (StreamUid * LedgerCell))) :=
  match rows with
  | [] => Ret (Ok [])
  | (uid, cell) :: rows =>
      if match previous with Some previous => negb (ord_ltb previous uid) | None => false end
      then Ret (Err SstInvalidBody)
      else
        let row_bytes := match cell with
                         | ArchivedValue _ => LEDGER_VALUE_ROW_LOGICAL_BYTES_MAX
                         | ArchivedDelete => LEDGER_DELETE_ROW_LOGICAL_BYTES
                         end in
        let!? resident_bytes := Ret (charge_row resident_bytes row_bytes) in
        let!? cell := try_map_err (λ _, SstInvalidBody) (decode_cell cell) in
        let!? rows := decode_ledger_rows (Some uid) resident_bytes rows in
        Ret (Ok ((uid, cell) :: rows))
  end.

(** strom-storage-domain/src/sst/ledger.rs:59-118, [decode_ledger_sst]. *)
Definition decode_ledger_sst (expected_partition : PartitionId) (expected : TableKey)
    (bytes : list Z) : Exec (Result SstDecodeError (list (StreamUid * LedgerCell))) :=
  let!? rows := Ret (decode_root Ledger expected_partition expected bytes) in
  decode_ledger_rows None 0 rows.

(** strom-storage-domain/src/candidate.rs:142-148, [EncodedTable]. *)
Record EncodedTable : Type := mk_encoded_table {
  table_key : TableKey;
  table_ref : TableRef;
  table_bytes : list Z
}.

(** strom-storage-domain/src/candidate.rs:183-197, [EncodedTable::from_encoded]. *)
Definition EncodedTable_from_encoded (key : TableKey) (bytes : list Z) : Exec EncodedTable :=
  assert! candidate_bytes_ok bytes SST_OBJECT_BYTES_MAX in
  let! object_bytes := expect (NonZeroU64_new (zlen bytes)) in
  let! table := expect_ok (TableRef_new (key_object key) object_bytes) in
  Ret (mk_encoded_table key table bytes).

(** strom-storage-domain/src/candidate.rs:151-165, [EncodedTable::encode_directory]. *)
Definition encode_directory (partition : PartitionId) (key : TableKey)
    (rows : list (StreamPath * DirectoryEntry)) : Exec (Result SstEncodeError EncodedTable) :=
  let!? bytes := Ret (encode_directory_sst partition key rows) in
  let! table := EncodedTable_from_encoded key bytes in
  Ret (Ok table).

(** strom-storage-domain/src/candidate.rs:167-181, [EncodedTable::encode_ledger]. *)
Definition encode_ledger (partition : PartitionId) (key : TableKey)
    (rows : list (StreamUid * LedgerCell)) : Exec (Result SstEncodeError EncodedTable) :=
  let!? bytes := Ret (encode_ledger_sst partition key rows) in
  let! table := EncodedTable_from_encoded key bytes in
  Ret (Ok table).

End codecs.

(** strom-storage-domain/src/candidate.rs:215-220, [DecodedTable]. *)
Inductive DecodedTable : Type :=
| DecodedDirectory (rows : list (StreamPath * DirectoryEntry))
| DecodedLedger (rows : list (StreamUid * LedgerCell)).

(** * Lemmas *)

(** A table's rows: some, in strictly ascending key order. *)
Definition rows_ok {K V} `{Ord K} (rows : list (K * V)) : Prop :=
  rows ≠ [] ∧ strictly_sorted rows.

Section ordered.
  Context {K V : Type} `{OrdLaws K}.
  Implicit Types rows : list (K * V).

Lemma check_ordered_Ok previous rows :
  check_ordered previous rows = Ok tt ↔
  strictly_sorted rows ∧ ∀ p r, previous = Some p → head rows = Some r → ord_lt p r.1.
Proof.
  unfold strictly_sorted. revert previous.
  induction rows as [|[k v] rows IH]; intros previous; simpl.
  { split; [|done]. intros _. split; [constructor|done]. }
  assert ((match previous with Some p => negb (ord_ltb p k) | None => false end) = false ↔
    ∀ p, previous = Some p → ord_lt p k) as Hprev.
  { destruct previous as [p|]; [|naive_solver]. rewrite negb_false_iff, ord_ltb_spec. naive_solver. }
  destruct (match previous with Some p => negb (ord_ltb p k) | None => false end).
  - split; [done|]. intros [_ Hp]. assert (true = false) as [=].
    apply Hprev. intros p ->. by apply (Hp p (k, v)).
  - rewrite IH. split.
    + intros [Hs Hh]. split; [|intros p r -> [= <-]; by apply Hprev].
      constructor; [done|]. destruct rows as [|[k' v'] rows]; constructor.
      * by apply (Hh k (k', v')).
      * apply StronglySorted_inv in Hs as [_ Hs]. eapply Forall_impl; [exact Hs|].
        intros x. apply ord_lt_trans. by apply (Hh k (k', v')).
    + intros [[Hs Hall]%StronglySorted_inv _]. split; [done|].
      intros p r [= <-] Hr. destruct rows as [|r' rows]; [done|]. injection Hr as <-.
      by apply Forall_cons in Hall as [? _].
Qed.

End ordered.

Lemma charge_row_ok resident row_bytes :
  0 ≤ resident → 0 ≤ row_bytes →
  resident + row_bytes ≤ PARTITION_RESIDENT_LOGICAL_BYTES_MAX_V2 →
  charge_row resident row_bytes = Ok (resident + row_bytes).
Proof.
  intros Hr Hb Hm. unfold charge_row, u64_checked_add.
  rewrite decide_True by (unfold_bounds; lia). cbn [ok_or result_bind].
  by rewrite (proj2 (Z.ltb_ge _ _)) by lia.
Qed.

Lemma sorted_tail {K V} `{OrdLaws K} (k : K) (v : V) rows :
  strictly_sorted ((k, v) :: rows) →
  strictly_sorted rows ∧ ∀ r, head rows = Some r → ord_lt k r.1.
Proof.
  intros [Hs Hall]%StronglySorted_inv. split; [done|].
  intros r Hr. destruct rows as [|r' rows]; [done|]. injection Hr as <-.
  by apply Forall_cons in Hall as [? _].
Qed.

(** The ordering gate of a decoder's loop. *)
Lemma ordered_gate {K} `{OrdLaws K} (previous : option K) (key : K) :
  (∀ p, previous = Some p → ord_lt p key) →
  (match previous with Some p => negb (ord_ltb p key) | None => false end) = false.
Proof.
  destruct previous as [p|]; [|done]. intros Hp. apply negb_false_iff, ord_ltb_spec. by apply Hp.
Qed.

Lemma path_key_gate (p : StreamPath) :
  bool_decide (str_len (StreamPath_as_str p) = 0)
  || (STREAM_PATH_BYTES_MAX <? str_len (StreamPath_as_str p)) = false.
Proof.
  pose proof (StreamPath_len p) as [_ Hlen]. unfold StreamPath_as_str.
  rewrite (proj2 (Z.ltb_ge _ _)) by done. rewrite orb_false_r. apply bool_decide_eq_false_2.
  intros Hn%str_len_0. destruct (StreamPath_ok p) as (_ & _ & Hs & _). rewrite Hn in Hs.
  apply Forall_cons in Hs as [[Hs _] _]. done.
Qed.

Lemma decode_directory_rows_ok rows previous resident :
  strictly_sorted rows →
  (∀ p r, previous = Some p → head rows = Some r → ord_lt p (StreamPath_as_str r.1)) →
  0 ≤ resident →
  resident + zlen rows * DIRECTORY_ROW_LOGICAL_BYTES_MAX ≤ PARTITION_RESIDENT_LOGICAL_BYTES_MAX_V2 →
  decode_directory_rows previous resident (archive_directory_row <$> rows) = Ok rows.
Proof.
  unfold zlen. revert previous resident.
  induction rows as [|[path entry] rows IH]; intros previous resident Hs Hp Hr Hm; [done|].
  apply sorted_tail in Hs as [Hs Hh]. rewrite fmap_cons. cbn [archive_directory_row fst snd].
  change (archive_directory_row (path, entry)) with (StreamPath_as_str path, entry).
  cbn [decode_directory_rows]. rewrite path_key_gate, ordered_gate
    by (intros p ->; by apply (Hp p (path, entry))).
  cbn [length] in Hm. rewrite charge_row_ok by (unfold_bounds; lia). cbn [result_bind].
  unfold StreamPath_from_str, StreamPath_as_str. rewrite checked_content. cbn [map_err result_bind].
  rewrite IH; [done|done| |unfold_bounds; lia|unfold_bounds; lia].
  intros p r [= <-] Hr'. by apply Hh.
Qed.

Definition record_in_range `{Jiff} (row : StreamUid * LedgerCell) : Prop :=
  match row.2 with Value record => expiry_in_range (expiry record) | Delete => True end.

Lemma decode_cell_ok `{Jiff} cell :
  (match cell with Value record => expiry_in_range (expiry record) | Delete => True end) →
  decode_cell (archive_cell cell) = Ret (Ok cell).
Proof.
  destruct cell as [[ct e l b]|]; [|done]. intros Hr. cbn [archive_cell decode_cell].
  unfold decode_record, archive_record. cbn [archived_content_type archived_expiry
    archived_lifecycle archived_created_at content_type expiry lifecycle created_at].
  rewrite decode_content_type_ok. cbn [try_bind]. rewrite decode_expiry_ok by done. cbn [try_bind].
  by rewrite decode_lifecycle_ok.
Qed.

Lemma decode_ledger_rows_ok `{Jiff} rows previous resident :
  strictly_sorted rows → Forall record_in_range rows →
  (∀ p r, previous = Some p → head rows = Some r → ord_lt p r.1) →
  0 ≤ resident →
  resident + zlen rows * LEDGER_VALUE_ROW_LOGICAL_BYTES_MAX
    ≤ PARTITION_RESIDENT_LOGICAL_BYTES_MAX_V2 →
  decode_ledger_rows previous resident (archive_ledger_row <$> rows) = Ret (Ok rows).
Proof.
  unfold zlen. revert previous resident.
  induction rows as [|[uid cell] rows IH]; intros previous resident Hs Hin Hp Hr Hm; [done|].
  apply sorted_tail in Hs as [Hs Hh]. apply Forall_cons in Hin as [Hc Hin]. rewrite fmap_cons.
  change (archive_ledger_row (uid, cell)) with (uid, archive_cell cell).
  cbn [decode_ledger_rows]. rewrite ordered_gate by (intros p ->; by apply (Hp p (uid, cell))).
  cbn [length] in Hm.
  assert (∃ n, 0 ≤ n ≤ LEDGER_VALUE_ROW_LOGICAL_BYTES_MAX ∧
    (match archive_cell cell with
     | ArchivedValue _ => LEDGER_VALUE_ROW_LOGICAL_BYTES_MAX
     | ArchivedDelete => LEDGER_DELETE_ROW_LOGICAL_BYTES
     end) = n) as (n & Hn & ->).
  { eexists. split; [|reflexivity]. destruct cell; cbn [archive_cell]; unfold_bounds; lia. }
  rewrite charge_row_ok by (unfold_bounds; lia). cbn [try_bind].
  rewrite decode_cell_ok by done. cbn [try_map_err map_err try_bind].
  rewrite IH; [done|done|done| |lia|unfold_bounds; lia].
  intros p r [= <-] Hr'. by apply Hh.
Qed.

(** What decodes at all was in range. *)
Lemma decode_cell_range `{Jiff} uid cell cell' :
  decode_cell (archive_cell cell) = Ret (Ok cell') → record_in_range (uid, cell).
Proof.
  destruct cell as [[ct e l b]|]; [|done]. cbn [archive_cell decode_cell].
  unfold decode_record, archive_record. cbn [archived_content_type archived_expiry
    archived_lifecycle archived_created_at content_type expiry lifecycle created_at].
  rewrite decode_content_type_ok. cbn [try_bind].
  destruct (decode_expiry (archive_expiry e)) as [[e'|]|] eqn:He; cbn [try_bind]; [|done..].
  intros _. by eapply decode_expiry_range.
Qed.

Lemma decode_ledger_rows_range `{Jiff} rows previous resident rows' :
  decode_ledger_rows previous resident (archive_ledger_row <$> rows) = Ret (Ok rows') →
  Forall record_in_range rows.
Proof.
  revert previous resident rows'.
  induction rows as [|[uid cell] rows IH]; intros previous resident rows'; [by constructor|].
  rewrite fmap_cons. change (archive_ledger_row (uid, cell)) with (uid, archive_cell cell).
  cbn [decode_ledger_rows]. destruct (match previous with Some _ => _ | None => _ end); [done|].
  destruct (charge_row _ _) as [resident'|]; cbn [try_bind]; [|done].
  destruct (decode_cell (archive_cell cell)) as [[cell'|]|] eqn:Hc;
    cbn [try_map_err map_err try_bind]; [|done..].
  destruct (decode_ledger_rows _ _ _) as [[more|]|] eqn:Hr; cbn [try_bind]; [|done..].
  intros _. constructor; [by eapply decode_cell_range|by eapply IH].
Qed.

Lemma decode_fresh_ok (f : FreshIdentity) : decode_fresh (archive_fresh f) = Ok f.
Proof.
  unfold decode_fresh, archive_fresh, FreshIdentity_new, birth_generation, attempt, ordinal.
  cbn [archived_fresh_birth archived_fresh_attempt archived_fresh_ordinal].
  replace (mk_fresh _ _ _) with (content f) by (by destruct (content f)).
  by rewrite checked_content.
Qed.

(** The gates of a decoder let its own encoder's bytes through. *)
Lemma decode_root_ok {Row} `{RowLayoutLaws} `{RkyvLaws (SstArchive Row)} kind partition key
    (rows : list Row) :
  store (key_object key) = kind → rows ≠ [] →
  zlen rows ≤ PARTITION_PATH_OCCUPANCIES_MAX_V2 →
  let root := mk_sst (content partition) (archive_fresh (fresh (key_object key))) rows in
  zlen (rkyv_bytes root) ≤ SST_OBJECT_BYTES_MAX →
  decode_root kind partition key (rkyv_bytes root) = Ok rows.
Proof.
  intros Hk Hne Hlen root Hb. unfold decode_root, check_decode_bound.
  rewrite (proj2 (Z.ltb_ge _ _)) by done. cbn [result_bind].
  rewrite bool_decide_eq_true_2 by done. cbn [negb]. rewrite rkyv_roundtrip.
  cbn [ok_or result_bind]. subst root. cbn [sst_partition sst_fresh sst_rows].
  rewrite decode_partition_ok. cbn [map_err result_bind]. rewrite decode_fresh_ok.
  cbn [map_err result_bind]. rewrite !bool_decide_eq_true_2 by done. cbn [negb orb].
  rewrite bool_decide_eq_false_2 by done. rewrite (proj2 (Z.ltb_ge _ _)) by done.
  by rewrite reserve_rows_succeeds.
Qed.

Lemma check_encode_rows_Ok size n :
  check_encode_rows size n = Ok tt → n ≤ PARTITION_PATH_OCCUPANCIES_MAX_V2.
Proof. unfold check_encode_rows. destruct (Z.ltb_spec PARTITION_PATH_OCCUPANCIES_MAX_V2 n); done. Qed.

Lemma EncodedTable_from_encoded_ok key bytes :
  bytes ≠ [] → zlen bytes ≤ SST_OBJECT_BYTES_MAX →
  ∃ t, EncodedTable_from_encoded key bytes = Ret t ∧ table_key t = key ∧ table_bytes t = bytes ∧
    table_object (table_ref t) = key_object key ∧ object_bytes (table_ref t) = zlen bytes.
Proof.
  intros Hne Hlen. unfold EncodedTable_from_encoded, candidate_bytes_ok.
  rewrite bool_decide_eq_false_2 by done. cbn [negb andb].
  rewrite (proj2 (Z.leb_le _ _)) by done.
  destruct (NonZeroU64_new_in (zlen bytes)) as (n & -> & Hn).
  { destruct bytes; [done|]. unfold zlen in *. cbn [length] in *. unfold_bounds. lia. }
  cbn [expect exec_bind].
  destruct (checked_total table_ref_check (mk_table_ref (key_object key) n)) as (t & Ht & Hc).
  { unfold accepts, table_ref_check. cbn [ref_object_bytes].
    by rewrite (proj2 (Z.ltb_ge _ _)) by lia. }
  unfold TableRef_new. rewrite Ht. cbn [expect_ok exec_bind].
  eexists. split; [reflexivity|]. unfold table_object, object_bytes; simpl. by rewrite Hc.
Qed.

Section encoded.
  Context {HP : Heap} {HL : HeapLaws} {RL : RowLayout}.
  Context {RD : Rkyv (SstArchive ArchivedDirectoryRow)} {LD : RkyvLaws (SstArchive ArchivedDirectoryRow)}.
  Context {RG : Rkyv (SstArchive ArchivedLedgerRow)} {LG : RkyvLaws (SstArchive ArchivedLedgerRow)}.

Lemma encode_directory_sst_Ok partition key rows bytes :
  encode_directory_sst partition key rows = Ok bytes →
  store (key_object key) = Directory ∧ rows_ok rows ∧
  zlen rows ≤ PARTITION_PATH_OCCUPANCIES_MAX_V2 ∧ zlen bytes ≤ SST_OBJECT_BYTES_MAX ∧
  bytes = rkyv_bytes (mk_sst (content partition) (archive_fresh (fresh (key_object key)))
    (archive_directory_row <$> rows)).
Proof using HL.
  unfold encode_directory_sst. case_bool_decide as Hs; [|done]. cbn [negb].
  case_bool_decide as Hne; [done|].
  destruct (check_encode_rows _ _) as [[]|] eqn:Hc; [|done]. cbn [result_bind].
  destruct (check_ordered None rows) as [[]|] eqn:Ho; [|done]. cbn [result_bind].
  destruct (encode _ _) as [b|] eqn:He; [|done]. cbn [map_err]. intros [= <-].
  apply encode_inv in He as [-> Hb]; [|unfold_bounds; lia].
  apply check_ordered_Ok in Ho as [Ho _]. by apply check_encode_rows_Ok in Hc.
Qed.

Lemma encode_ledger_sst_Ok partition key rows bytes :
  encode_ledger_sst partition key rows = Ok bytes →
  store (key_object key) = Ledger ∧ rows_ok rows ∧
  zlen rows ≤ PARTITION_PATH_OCCUPANCIES_MAX_V2 ∧ zlen bytes ≤ SST_OBJECT_BYTES_MAX ∧
  bytes = rkyv_bytes (mk_sst (content partition) (archive_fresh (fresh (key_object key)))
    (archive_ledger_row <$> rows)).
Proof using HL.
  unfold encode_ledger_sst. case_bool_decide as Hs; [|done]. cbn [negb].
  case_bool_decide as Hne; [done|].
  destruct (check_encode_rows _ _) as [[]|] eqn:Hc; [|done]. cbn [result_bind].
  destruct (check_ordered None rows) as [[]|] eqn:Ho; [|done]. cbn [result_bind].
  destruct (encode _ _) as [b|] eqn:He; [|done]. cbn [map_err]. intros [= <-].
  apply encode_inv in He as [-> Hb]; [|unfold_bounds; lia].
  apply check_ordered_Ok in Ho as [Ho _]. by apply check_encode_rows_Ok in Hc.
Qed.

Lemma encode_directory_Ret partition key rows :
  match encode_directory_sst partition key rows with
  | Ok bytes => ∃ t, encode_directory partition key rows = Ret (Ok t) ∧ table_key t = key ∧
      table_bytes t = bytes ∧ table_object (table_ref t) = key_object key ∧
      object_bytes (table_ref t) = zlen bytes
  | Err e => encode_directory partition key rows = Ret (Err e)
  end.
Proof using HL LD.
  unfold encode_directory. destruct (encode_directory_sst partition key rows) as [b|e] eqn:He; [|done].
  apply encode_directory_sst_Ok in He as (_ & _ & _ & Hb & Hr). cbn [try_bind].
  destruct (EncodedTable_from_encoded_ok key b) as (t & -> & Ht); [|done|].
  - rewrite Hr. apply rkyv_nonempty.
  - cbn [exec_bind]. eauto.
Qed.

Lemma encode_ledger_Ret partition key rows :
  match encode_ledger_sst partition key rows with
  | Ok bytes => ∃ t, encode_ledger partition key rows = Ret (Ok t) ∧ table_key t = key ∧
      table_bytes t = bytes ∧ table_object (table_ref t) = key_object key ∧
      object_bytes (table_ref t) = zlen bytes
  | Err e => encode_ledger partition key rows = Ret (Err e)
  end.
Proof using HL LG.
  unfold encode_ledger. destruct (encode_ledger_sst partition key rows) as [b|e] eqn:He; [|done].
  apply encode_ledger_sst_Ok in He as (_ & _ & _ & Hb & Hr). cbn [try_bind].
  destruct (EncodedTable_from_encoded_ok key b) as (t & -> & Ht); [|done|].
  - rewrite Hr. apply rkyv_nonempty.
  - cbn [exec_bind]. eauto.
Qed.

End encoded.

(** What decodes is sorted: the loop accepts each key only above the last one. *)
Lemma decode_directory_rows_sorted rows previous resident out :
  decode_directory_rows previous resident rows = Ok out →
  length out = length rows ∧ strictly_sorted out ∧
  ∀ p r, previous = Some p → head out = Some r → ord_lt p (StreamPath_as_str r.1).
Proof.
  revert previous resident out.
  induction rows as [|[key entry] rows IH]; intros previous resident out; cbn [decode_directory_rows].
  { intros [= <-]. split; [done|]. split; [constructor|done]. }
  destruct (_ || _); [done|].
  destruct (match previous with Some p => negb (ord_ltb p key) | None => false end) eqn:Hprev; [done|].
  destruct (charge_row _ _) as [n|]; [|done]. cbn [result_bind].
  destruct (StreamPath_from_str key) as [path|] eqn:Hk; [|done]. cbn [map_err result_bind].
  destruct (decode_directory_rows (Some key) n rows) as [l|] eqn:Hl; [|done]. cbn [result_bind].
  intros [= <-]. apply IH in Hl as (Hlen & Hs & Hh). unfold StreamPath_from_str in Hk.
  apply checked_Ok in Hk.
  assert (∀ q : StreamPath, ord_lt key (StreamPath_as_str q) → ord_lt path q) as Hlt.
  { intros q. change (ord_lt path q) with (ord_lt (content path) (StreamPath_as_str q)).
    by rewrite Hk. }
  split; [simpl; lia|]. split.
  - unfold strictly_sorted in *. rewrite fmap_cons. constructor; [done|].
    destruct l as [|r l]; constructor.
    + by apply Hlt, (Hh key r).
    + apply StronglySorted_inv in Hs as [_ Hs]. eapply Forall_impl; [exact Hs|].
      intros x. apply ord_lt_trans. by apply Hlt, (Hh key r).
  - intros p r -> [= <-]. unfold StreamPath_as_str. cbn [fst]. rewrite Hk.
    by apply ord_ltb_spec, negb_false_iff.
Qed.

Lemma decode_ledger_rows_sorted `{Jiff} rows previous resident out :
  decode_ledger_rows previous resident rows = Ret (Ok out) →
  length out = length rows ∧ strictly_sorted out ∧
  ∀ p r, previous = Some p → head out = Some r → ord_lt p r.1.
Proof.
  revert previous resident out.
  induction rows as [|[uid cell] rows IH]; intros previous resident out; cbn [decode_ledger_rows].
  { intros [= <-]. split; [done|]. split; [constructor|done]. }
  destruct (match previous with Some p => negb (ord_ltb p uid) | None => false end) eqn:Hprev; [done|].
  destruct (charge_row _ _) as [n|]; [|done]. cbn [try_bind].
  destruct (decode_cell cell) as [[c|]|]; [|done..]. cbn [try_map_err map_err try_bind].
  destruct (decode_ledger_rows (Some uid) n rows) as [[l|]|] eqn:Hl; [|done..]. cbn [try_bind].
  intros [= <-]. apply IH in Hl as (Hlen & Hs & Hh). split; [simpl; lia|]. split.
  - unfold strictly_sorted in *. rewrite fmap_cons. constructor; [done|].
    destruct l as [|r l]; constructor.
    + by apply (Hh uid r).
    + apply StronglySorted_inv in Hs as [_ Hs]. eapply Forall_impl; [exact Hs|].
      intros x. apply ord_lt_trans. by apply (Hh uid r).
  - intros p r -> [= <-]. by apply ord_ltb_spec, negb_false_iff.
Qed.

Lemma decode_root_nonempty {Row} `{RowLayout} `{Rkyv (SstArchive Row)} kind partition key bytes
    (rows : list Row) :
  decode_root kind partition key bytes = Ok rows → rows ≠ [].
Proof.
  unfold decode_root. destruct (check_decode_bound _) as [[]|]; [|done]. cbn [result_bind].
  destruct (negb _); [done|]. destruct (rkyv_access bytes) as [root|]; [|done]. cbn [ok_or result_bind].
  destruct (decode_partition _); [|done]. cbn [map_err result_bind].
  destruct (decode_fresh _); [|done]. cbn [map_err result_bind].
  destruct (_ || _); [done|]. case_bool_decide as Hne; [done|].
  destruct (_ <? _); [done|]. destruct (negb _); [done|]. by intros [= <-].
Qed.

(** * A reference layout *)

#[export] Instance ArchivedFresh_eq_dec : EqDecision ArchivedFresh.
Proof. solve_decision. Defined.
#[export] Instance ArchivedRecord_eq_dec : EqDecision ArchivedRecord.
Proof. solve_decision. Defined.
#[export] Instance ArchivedCell_eq_dec : EqDecision ArchivedCell.
Proof. solve_decision. Defined.
#[export] Instance SstArchive_eq_dec Row `{EqDecision Row} : EqDecision (SstArchive Row).
Proof. solve_decision. Defined.

#[export] Instance ArchivedFresh_countable : Countable ArchivedFresh.
Proof.
  apply (inj_countable'
    (λ f, (archived_fresh_birth f, archived_fresh_attempt f, archived_fresh_ordinal f))
    (λ '(b, a, o), mk_archived_fresh b a o)).
  by intros [].
Defined.

#[export] Instance ArchivedRecord_countable : Countable ArchivedRecord.
Proof.
  apply (inj_countable'
    (λ r, (archived_content_type r, archived_expiry r, archived_lifecycle r, archived_created_at r))
    (λ '(c, e, l, b), mk_archived_record c e l b)).
  by intros [].
Defined.

#[export] Instance ArchivedCell_countable : Countable ArchivedCell.
Proof.
  apply (inj_countable'
    (λ c, match c with ArchivedValue r => Some r | ArchivedDelete => None end)
    (λ o, match o with Some r => ArchivedValue r | None => ArchivedDelete end)).
  by intros [].
Defined.

#[export] Instance DirectoryEntry_countable : Countable DirectoryEntry.
Proof.
  apply (inj_countable'
    (λ e, match e with Live u => inl u | Tombstone u => inr u end)
    (λ s, match s with inl u => Live u | inr u => Tombstone u end)).
  by intros [].
Defined.

#[export] Instance SstArchive_countable Row `{Countable Row} : Countable (SstArchive Row).
Proof.
  apply (inj_countable' (λ s, (sst_partition s, sst_fresh s, sst_rows s))
    (λ '(p, f, r), mk_sst p f r)).
  by intros [].
Defined.

Definition reference_layout : RowLayout :=
  {| directory_row_size := 24; ledger_row_size := 56; reserve_rows := λ _, true |}.
Lemma reference_layout_laws : @RowLayoutLaws reference_layout.
Proof. by split. Qed.

(** ** An encoder's bytes decode to its rows *)

Lemma decode_directory_encoded `{HeapLaws} `{RowLayoutLaws}
    `{RkyvLaws (SstArchive ArchivedDirectoryRow)} partition key rows bytes :
  encode_directory_sst partition key rows = Ok bytes →
  decode_directory_sst partition key bytes = Ok rows.
Proof.
  intros (Hs & [Hne Hsort] & Hlen & Hbytes & ->)%encode_directory_sst_Ok.
  unfold decode_directory_sst. rewrite decode_root_ok;
    [|done|by intros ?%fmap_nil_inv|unfold zlen in *; by rewrite length_fmap|done].
  cbn [result_bind]. apply decode_directory_rows_ok; [done|done|done|].
  unfold_bounds. lia.
Qed.

Lemma decode_ledger_encoded `{Jiff} `{HeapLaws} `{RowLayoutLaws}
    `{RkyvLaws (SstArchive ArchivedLedgerRow)} partition key rows bytes :
  Forall record_in_range rows → encode_ledger_sst partition key rows = Ok bytes →
  decode_ledger_sst partition key bytes = Ret (Ok rows).
Proof.
  intros Hin (Hs & [Hne Hsort] & Hlen & Hbytes & ->)%encode_ledger_sst_Ok.
  unfold decode_ledger_sst. rewrite decode_root_ok;
    [|done|by intros ?%fmap_nil_inv|unfold zlen in *; by rewrite length_fmap|done].
  cbn [try_bind]. apply decode_ledger_rows_ok; [done|done|done|done|].
  unfold_bounds. lia.
Qed.

(** An encoded Ledger table decodes to its own rows or not at all. *)
Lemma decode_ledger_own `{Jiff} `{HeapLaws} `{RowLayoutLaws}
    `{RkyvLaws (SstArchive ArchivedLedgerRow)} partition key rows bytes rows' :
  encode_ledger_sst partition key rows = Ok bytes →
  decode_ledger_sst partition key bytes = Ret (Ok rows') → rows' = rows.
Proof.
  intros He Hd. assert (Forall record_in_range rows) as Hin.
  { pose proof He as (Hs & [Hne Hsort] & Hlen & Hbytes & ->)%encode_ledger_sst_Ok.
    unfold decode_ledger_sst in Hd. rewrite decode_root_ok in Hd;
      [|done|by intros ?%fmap_nil_inv|unfold zlen in *; by rewrite length_fmap|done].
    cbn [try_bind] in Hd. by eapply decode_ledger_rows_range. }
  rewrite (decode_ledger_encoded _ _ _ _ Hin He) in Hd. by injection Hd.
Qed.

(** * Properties *)

(** C38: a Directory table reads back.  Encoding never panics; when it succeeds the
    reference names the key's object and the exact byte length, and decoding those
    bytes at the same partition and key gives exactly the rows. *)
Theorem directory_table_roundtrip `{HeapLaws} `{RowLayoutLaws}
    `{RkyvLaws (SstArchive ArchivedDirectoryRow)} (partition : PartitionId) (key : TableKey)
    (rows : list (StreamPath * DirectoryEntry)) :
  encode_directory partition key rows ≠ Panic ∧
  ∀ t, encode_directory partition key rows = Ret (Ok t) →
    decode_directory_sst partition key (table_bytes t) = Ok rows ∧
    table_object (table_ref t) = key_object key ∧
    object_bytes (table_ref t) = zlen (table_bytes t).
Proof.
  pose proof (encode_directory_Ret partition key rows) as Hr.
  destruct (encode_directory_sst partition key rows) as [b|e] eqn:He; [|by rewrite Hr].
  destruct Hr as (t & -> & _ & Hb & Ho & Hn). split; [done|]. intros t' [= <-].
  rewrite Hb in *. split; [by apply decode_directory_encoded|done].
Qed.

(** A Ledger table reads back.  Encoding never panics; when it succeeds the
    reference names the key's object and the exact byte length, and decoding those
    bytes at the same partition and key gives exactly the rows. *)
Theorem ledger_table_roundtrip `{Jiff} `{HeapLaws} `{RowLayoutLaws}
    `{RkyvLaws (SstArchive ArchivedLedgerRow)} (partition : PartitionId) (key : TableKey)
    (rows : list (StreamUid * LedgerCell)) :
  Forall record_in_range rows →
  encode_ledger partition key rows ≠ Panic ∧
  ∀ t, encode_ledger partition key rows = Ret (Ok t) →
    decode_ledger_sst partition key (table_bytes t) = Ret (Ok rows) ∧
    table_object (table_ref t) = key_object key ∧
    object_bytes (table_ref t) = zlen (table_bytes t).
Proof.
  intros Hin. pose proof (encode_ledger_Ret partition key rows) as Hr.
  destruct (encode_ledger_sst partition key rows) as [b|e] eqn:He; [|by rewrite Hr].
  destruct Hr as (t & -> & _ & Hb & Ho & Hn). split; [done|]. intros t' [= <-].
  rewrite Hb in *. split; [by apply decode_ledger_encoded|done].
Qed.

Definition sample_fresh : FreshIdentity :=
  mk_refined (P := accepts fresh_check)
    (mk_fresh (generation_no 3 I) (mk_attempt (generation_no 2 I) 0) 0) I.
Definition sample_ledger_key : TableKey := mk_table_key (mk_table_object sample_fresh Ledger).
Definition sample_ledger_rows : list (StreamUid * LedgerCell) :=
  [(mk_coord (mk_refined (P := nonzero_u64) 1 I),
    Value (mk_record Json NoExpiry Open (mk_coord (mk_refined (P := nonzero_u64) 4 I))));
   (mk_coord (mk_refined (P := nonzero_u64) 2 I), Delete)].

Definition sample_directory_key : TableKey :=
  mk_table_key (mk_table_object sample_fresh Directory).
Definition sample_directory_rows : list (StreamPath * DirectoryEntry) :=
  [(path_a, Live (mk_coord (mk_refined (P := nonzero_u64) 1 I)))].

Lemma directory_table_roundtrip_witness :
  succeeds (@encode_directory reference_heap reference_layout (reference_rkyv _) sample_partition
    sample_directory_key sample_directory_rows) = true ∧
  ∀ t, @encode_directory reference_heap reference_layout (reference_rkyv _) sample_partition
      sample_directory_key sample_directory_rows = Ret (Ok t) →
    @decode_directory_sst reference_layout (reference_rkyv _) sample_partition
      sample_directory_key (table_bytes t) = Ok sample_directory_rows.
Proof.
  split; [vm_compute; reflexivity|]. intros t Ht.
  apply (@directory_table_roundtrip reference_heap reference_heap_laws
    reference_layout reference_layout_laws (reference_rkyv _) (reference_rkyv_laws _)
    sample_partition sample_directory_key sample_directory_rows). exact Ht.
Defined.

Lemma ledger_table_roundtrip_witness :
  succeeds (@encode_ledger reference_heap reference_layout (reference_rkyv _) sample_partition
    sample_ledger_key sample_ledger_rows) = true ∧
  ∀ t, @encode_ledger reference_heap reference_layout (reference_rkyv _) sample_partition
      sample_ledger_key sample_ledger_rows = Ret (Ok t) →
    @decode_ledger_sst reference_jiff reference_layout (reference_rkyv _) sample_partition
      sample_ledger_key (table_bytes t) = Ret (Ok sample_ledger_rows).
Proof.
  split; [vm_compute; reflexivity|]. intros t Ht.
  apply (@ledger_table_roundtrip reference_jiff reference_heap reference_heap_laws
    reference_layout reference_layout_laws (reference_rkyv _) (reference_rkyv_laws _)
    sample_partition sample_ledger_key sample_ledger_rows); [|exact Ht].
  repeat constructor.
Defined.

Section decoded.
  Context {J : Jiff} {RL : RowLayout}.
  Context {RD : Rkyv (SstArchive ArchivedDirectoryRow)} {RG : Rkyv (SstArchive ArchivedLedgerRow)}.

Lemma decode_directory_sst_ok partition key bytes rows :
  decode_directory_sst partition key bytes = Ok rows → rows_ok rows.
Proof.
  unfold decode_directory_sst. destruct (decode_root Directory partition key bytes) as [l|] eqn:Hl;
    [|done]. cbn [result_bind]. intros (Hlen & Hs & _)%decode_directory_rows_sorted.
  split; [|done]. intros ->. apply decode_root_nonempty in Hl. by destruct l.
Qed.

Lemma decode_ledger_sst_ok partition key bytes rows :
  decode_ledger_sst partition key bytes = Ret (Ok rows) → rows_ok rows.
Proof.
  unfold decode_ledger_sst. destruct (decode_root Ledger partition key bytes) as [l|] eqn:Hl;
    [|done]. cbn [try_bind]. intros (Hlen & Hs & _)%decode_ledger_rows_sorted.
  split; [|done]. intros ->. apply decode_root_nonempty in Hl. by destruct l.
Qed.

Lemma decode_cell_no_panic cell : decode_cell cell ≠ Panic.
Proof.
  destruct cell as [record|]; [|done]. cbn [decode_cell]. unfold decode_record.
  pose proof (decode_content_type_no_panic (archived_content_type record)).
  destruct (decode_content_type _) as [[]|]; cbn [try_bind]; [|done..].
  unfold decode_expiry. by destruct (match archived_expiry record with ArchivedNone => _ | _ => _ end).
Qed.

Lemma decode_ledger_sst_no_panic partition key bytes :
  decode_ledger_sst partition key bytes ≠ Panic.
Proof.
  unfold decode_ledger_sst. destruct (decode_root _ _ _ _) as [rows|]; cbn [try_bind]; [|done].
  generalize (@None StreamUid) 0. induction rows as [|[uid cell] rows IH]; intros previous resident;
    cbn [decode_ledger_rows]; [done|].
  destruct (match previous with Some p => negb (ord_ltb p uid) | None => false end); [done|].
  destruct (charge_row _ _) as [n|]; [|done]. cbn [try_bind].
  pose proof (decode_cell_no_panic cell) as Hc. specialize (IH (Some uid) n).
  destruct (decode_cell cell) as [[c|]|]; [|done..]. cbn [try_map_err map_err try_bind].
  by destruct (decode_ledger_rows (Some uid) n rows) as [[l|]|].
Qed.

End decoded.

(** C39: whatever decodes is a table: a successfully decoded Directory or Ledger
    object has at least one row, in strictly ascending key order. *)
Theorem decoded_tables_sorted `{Jiff} `{RowLayout}
    `{Rkyv (SstArchive ArchivedDirectoryRow)} `{Rkyv (SstArchive ArchivedLedgerRow)}
    (partition : PartitionId) (key : TableKey) (bytes : list Z) :
  (∀ rows, decode_directory_sst partition key bytes = Ok rows → rows_ok rows) ∧
  (∀ rows, decode_ledger_sst partition key bytes = Ret (Ok rows) → rows_ok rows).
Proof.
  split; intros rows; [apply decode_directory_sst_ok|apply decode_ledger_sst_ok].
Qed.
