(* ===== verification/Bootstrap.v ===== *)
(** The bootstrap machine: claim, load, fence, replay (crate [strom-storage-protocol],
    file [bootstrap.rs]).

    A pure machine with exactly one outstanding effect.  It finds the newest Seal,
    publishes a claim Seal, loads the tables the Seal selects, fences the WAL at the
    first free coordinate, replays the WAL up to the fence and hands the recovered
    forest to the writer.  [&mut self] is state passing; [expect], [assert!] and
    [unexpected] are [Panic]. *)

From S2P Require Import Prelude OrdMap Text Domain Coordinates Partition Seal Wal Forest.
From S2P Require Import ForestTheory Archive Spelling Sst Writer.

(** * Messages *)

(** The derived [Debug] of the tuple structs that messages print. *)
Definition debug_generation (g : SealGeneration) : str :=
  lit "SealGeneration(" ++ dec (coord_get g) ++ lit ")".
Definition debug_batch (b : BatchId) : str := lit "BatchId(" ++ dec (coord_get b) ++ lit ")".
Definition debug_owner (o : OwnerToken) : str :=
  lit "OwnerToken(" ++ debug_generation (generation o) ++ lit ")".

(** strom-storage-domain/src/archive.rs:16-23, [EncodeError Display]. *)
Definition encode_error_display (error : EncodeError) : str :=
  match error with
  | Serialization => lit "domain value could not be archived"
  | EncodeBytesOverMax bytes_max =>
      lit "encoded value exceeds the " ++ dec bytes_max ++ lit "-byte bound"
  end.

(** strom-storage-domain/src/candidate.rs:109-118, [SealCandidateError Display]. *)
Definition candidate_error_display (error : SealCandidateError) : str :=
  match error with
  | NotGenesis => lit "a genesis candidate must name the genesis generation"
  | NotAuthority => lit "an authority candidate must advance beyond the genesis generation"
  | SealEncode error => encode_error_display error
  end.

(** strom-storage-domain/src/seal.rs:240-262, [SealError Display]. *)
Definition seal_error_display (error : SealError) : str :=
  match error with
  | GenerationExhausted => lit "Seal generation is exhausted"
  | NonCanonicalGenesis => lit "generation-one Seal is not the canonical empty genesis"
  | ReplayOwnerNotBeforeSeal => lit "Seal replay owner is not older than its generation"
  | RunsOverMax => lit "tree has more than " ++ dec TREE_RUNS_MAX ++ lit " runs"
  | EmptyRun => lit "sorted run is empty"
  | TablesOverMax => lit "sorted run has more than " ++ dec RUN_TABLES_MAX ++ lit " tables"
  | ObjectBytesOverMax => lit "table object exceeds " ++ dec SST_OBJECT_BYTES_MAX ++ lit " bytes"
  | StoreMismatch => lit "table store differs from its owning tree"
  | FutureTable => lit "table birth generation is newer than its enclosing Seal"
  | DuplicateTableObject => lit "table object identity occurs more than once in the Seal"
  end.

(** strom-storage-protocol/src/forest.rs:31-52, [FoldContradiction Display]. *)
Definition fold_contradiction_display (error : FoldContradiction) : str :=
  match error with
  | PathOccupied => lit "path is already occupied"
  | PathCapacityExhausted => lit "partition path capacity is exhausted"
  | UidNotDenseSuccessor => lit "stream uid is not the dense successor"
  | PathNotLive => lit "path is not live"
  | PathUidMismatch => lit "path uid does not match"
  | StreamAlreadyClosed => lit "stream is already closed"
  end.

(** strom-storage-protocol/src/forest.rs:54-67, [ForestContradiction Display]. *)
Definition forest_contradiction_display (error : ForestContradiction) : str :=
  match error with
  | UidGap => lit "Directory stream uids are not dense and unique"
  | CountMismatch => lit "Directory row count differs from the maximum allocated stream uid"
  | LiveWithoutRecord => lit "a Live Directory row has no Ledger record"
  | RecordWithoutLive => lit "a Ledger record has no Live Directory row"
  | TombstoneWithRecord => lit "a Tombstone Directory row still has a Ledger record"
  end.

(** * Vocabulary *)

(** strom-storage-protocol/src/bootstrap.rs:22-31, [BootstrapExit]. *)
Inductive BootstrapExit : Type :=
| ExitRetryable (detail : str)
| ExitFenced (observed : SealGeneration)
| ExitContradiction (detail : str).

(** strom-storage-protocol/src/bootstrap.rs:33-51, [BootstrapEvent]. *)
Inductive BootstrapEvent : Type :=
| BootstrapStarted (genesis_partition : PartitionId)
| HeadObserved (observed : option SealGeneration)
| GenesisEstablishedEvent (establishment : GenesisEstablishment)
| SealRead (observed : option Seal)
| ClaimPublished (publication : SealPublication)
| TableRead (table : TableRef) (decoded : DecodedTable)
| WalTailObserved (listed_tail : option BatchId)
| WalRead (observed : option WalObject)
| FenceEstablished (establishment : WalEstablishment)
| StoreFailed (error : TypedStoreError).

(** strom-storage-protocol/src/bootstrap.rs:53-72, [BootstrapEffect]. *)
Inductive BootstrapEffect : Type :=
| ObserveHead
| EstablishGenesis (candidate : EncodedGenesisSeal)
| ReadSeal (generation : SealGeneration)
| PublishClaim (candidate : EncodedAuthoritySeal)
| ReadTable (partition : PartitionId) (table : TableRef)
| ObserveWalTail
| ReadWal (partition : PartitionId) (batch : BatchId)
| EstablishFence (candidate : EncodedWal).

(** strom-storage-protocol/src/bootstrap.rs:74-80, [BootstrapStep]. *)
Inductive BootstrapStep : Type :=
| StepEffect (effect : BootstrapEffect)
| StepComplete (recovery : WriterRecovery)
| StepExit (exit : BootstrapExit).

(** strom-storage-protocol/src/bootstrap.rs:126-130, [ClaimedBootstrap]. *)
Record ClaimedBootstrap : Type := mk_claimed {
  claimed_claim : AuthoredClaim;
  claimed_seal : Seal
}.

(** strom-storage-protocol/src/bootstrap.rs:132-137, [LoadedBootstrap]. *)
Record LoadedBootstrap : Type := mk_loaded {
  loaded_claimed : ClaimedBootstrap;
  loaded_base : Forest;
  loaded_durable : Forest
}.

(** strom-storage-protocol/src/bootstrap.rs:139-145, [Replay]. *)
Record Replay : Type := mk_replay {
  replay_loaded : LoadedBootstrap;
  replay_next : BatchId;
  replay_fence : TakeoverFence;
  replay_owner_now : option OwnerToken
}.

(** strom-storage-protocol/src/bootstrap.rs:147-151, [PlannedTable]. *)
Record PlannedTable : Type := mk_planned {
  planned_table : TableRef;
  starts_run : bool
}.

(** strom-storage-protocol/src/bootstrap.rs:162-167, [MergedRows]. *)
Record MergedRows : Type := mk_merged {
  merged_directory : gmap StreamPath DirectoryEntry;
  merged_ledger : gmap StreamUid StreamRecord;
  resident_bytes : Z
}.

(** strom-storage-protocol/src/bootstrap.rs:153-160, [BaseLoad]. *)
Record BaseLoad : Type := mk_load {
  load_claimed : ClaimedBootstrap;
  load_remaining : list PlannedTable;
  load_merged : MergedRows;
  previous_directory : option StreamPath;
  previous_ledger : option StreamUid
}.

(** strom-storage-protocol/src/bootstrap.rs:82-124, [BootstrapState]. *)
Inductive BootstrapState : Type :=
| Initial
| DiscoveringHead (genesis_partition : PartitionId)
| EstablishingGenesis (genesis_partition : PartitionId)
| ReadingSeal (generation : SealGeneration)
| PublishingClaim (candidate : Seal) (sources : list PlannedTable)
| ReadingTable (load : BaseLoad) (source : PlannedTable)
| ObservingWalTail (loaded : LoadedBootstrap) (occupied : option BatchId)
| ReadingWalTail (loaded : LoadedBootstrap) (fence : TakeoverFence) (listed_tail : BatchId)
| EstablishingFence (loaded : LoadedBootstrap) (fence : TakeoverFence)
| Replaying (replay : Replay)
| RefreshingAnomaly (claim : AuthoredClaim) (detail : str)
| RefreshingFinal (recovery : WriterRecovery)
| BootstrapComplete.

(** strom-storage-protocol/src/bootstrap.rs:169-182, [BootstrapMachine]. *)
Record BootstrapMachine : Type := mk_bootstrap { bootstrap_state : option BootstrapState }.
Definition BootstrapMachine_new : BootstrapMachine := mk_bootstrap (Some Initial).

(** * Planning and merging *)

(** strom-storage-protocol/src/bootstrap.rs:816-820, [bootstrap_source_bound]. *)
Definition bootstrap_source_bound : BootstrapExit :=
  ExitContradiction (lit "Seal-selected table sources exceed a V2 aggregate bootstrap bound").

(** strom-storage-protocol/src/bootstrap.rs:825-830, [tree_sources (one run)]. *)
Definition run_sources (run : SortedRun) : list PlannedTable :=
  imap (λ index table, mk_planned table (bool_decide (index = O))) (run_tables run).
(** strom-storage-protocol/src/bootstrap.rs:822-833, [tree_sources]. *)
Definition tree_sources (tree : TreeVersion) : list PlannedTable :=
  reverse (tree_runs tree) ≫= run_sources.

(** The running count and byte sum over the selected tables.
    strom-storage-protocol/src/bootstrap.rs:799-806, [plan_bootstrap_sources (sums)]. *)
Fixpoint sum_sources (objects bytes : Z) (tables : list TableRef) : Result BootstrapExit (Z * Z) :=
  match tables with
  | [] => Ok (objects, bytes)
  | table :: tables =>
      let? objects := ok_or bootstrap_source_bound (u64_checked_add objects 1) in
      let? bytes := ok_or bootstrap_source_bound (u64_checked_add bytes (object_bytes table)) in
      sum_sources objects bytes tables
  end.

(** strom-storage-protocol/src/bootstrap.rs:798-814, [plan_bootstrap_sources]. *)
Definition plan_bootstrap_sources (seal : Seal) : Result BootstrapExit (list PlannedTable) :=
  let? (objects, bytes) := sum_sources 0 0 (seal_tables seal) in
  if (PARTITION_BOOTSTRAP_OBJECTS_MAX_V2 <? objects) || (PARTITION_BOOTSTRAP_BYTES_MAX_V2 <? bytes)
  then Err bootstrap_source_bound
  else Ok (tree_sources (seal_directory seal) ++ tree_sources (seal_ledger seal)).

(** strom-storage-protocol/src/bootstrap.rs:976-980, [resident_bound]. *)
Definition resident_bound : BootstrapExit :=
  ExitContradiction
    (lit "merged Directory and Ledger rows exceed the V2 resident logical-byte bound").

(** strom-storage-protocol/src/bootstrap.rs:968-974, [add_resident_bytes]. *)
Definition add_resident_bytes (current additional : Z) : Result BootstrapExit Z :=
  let? total := ok_or resident_bound (u64_checked_add current additional) in
  if PARTITION_RESIDENT_LOGICAL_BYTES_MAX_V2 <? total then Err resident_bound else Ok total.

(** strom-storage-protocol/src/bootstrap.rs:849-855, [merge_directory_table (rows)]. *)
Fixpoint merge_directory_rows (merged : MergedRows) (rows : list (StreamPath * DirectoryEntry)) :
    Result BootstrapExit MergedRows :=
  match rows with
  | [] => Ok merged
  | (key, entry) :: rows =>
      let? resident :=
        if bool_decide (is_Some (merged_directory merged !! key)) then Ok (resident_bytes merged)
        else add_resident_bytes (resident_bytes merged) DIRECTORY_ROW_LOGICAL_BYTES_MAX in
      merge_directory_rows
        (mk_merged (<[key := entry]> (merged_directory merged)) (merged_ledger merged) resident)
        rows
  end.

(** strom-storage-protocol/src/bootstrap.rs:835-857, [merge_directory_table]. *)
Definition merge_directory_table (merged : MergedRows) (previous_last : option StreamPath)
    (rows : list (StreamPath * DirectoryEntry)) :
    Exec (Result BootstrapExit (MergedRows * option StreamPath)) :=
  let! first := expect (head rows) in
  if match previous_last with Some previous => negb (ord_ltb previous first.1) | None => false end
  then Ret (Err (ExitContradiction
    (lit "Directory tables within one sorted run overlap or are unordered")))
  else
    let!? merged := Ret (merge_directory_rows merged rows) in
    Ret (Ok (merged, fst <$> last rows)).

(** strom-storage-protocol/src/bootstrap.rs:873-893, [merge_ledger_table (rows)]. *)
Fixpoint merge_ledger_rows (merged : MergedRows) (rows : list (StreamUid * LedgerCell)) :
    Exec (Result BootstrapExit MergedRows) :=
  match rows with
  | [] => Ret (Ok merged)
  | (uid, Value record) :: rows =>
      let!? resident :=
        Ret (if bool_decide (is_Some (merged_ledger merged !! uid)) then Ok (resident_bytes merged)
             else add_resident_bytes (resident_bytes merged) LEDGER_VALUE_ROW_LOGICAL_BYTES_MAX) in
      merge_ledger_rows
        (mk_merged (merged_directory merged) (<[uid := record]> (merged_ledger merged)) resident)
        rows
  | (uid, Delete) :: rows =>
      let! resident :=
        if bool_decide (is_Some (merged_ledger merged !! uid))
        then expect (u64_checked_sub (resident_bytes merged) LEDGER_VALUE_ROW_LOGICAL_BYTES_MAX)
        else Ret (resident_bytes merged) in
      merge_ledger_rows
        (mk_merged (merged_directory merged) (delete uid (merged_ledger merged)) resident) rows
  end.

(** strom-storage-protocol/src/bootstrap.rs:859-895, [merge_ledger_table]. *)
Definition merge_ledger_table (merged : MergedRows) (previous_last : option StreamUid)
    (rows : list (StreamUid * LedgerCell)) :
    Exec (Result BootstrapExit (MergedRows * option StreamUid)) :=
  let! first := expect (head rows) in
  if match previous_last with Some previous => negb (ord_ltb previous first.1) | None => false end
  then Ret (Err (ExitContradiction
    (lit "Ledger tables within one sorted run overlap or are unordered")))
  else
    let!? merged := merge_ledger_rows merged rows in
    Ret (Ok (merged, fst <$> last rows)).

(** * Fences and replay *)

(** strom-storage-protocol/src/bootstrap.rs:897-911, [plan_fence_candidate]. *)
Definition plan_fence_candidate (cut listed_tail : option BatchId) : Result BootstrapExit BatchId :=
  let newest :=
    match cut, listed_tail with
    | Some cut, Some tail => Some (if coord_ltb tail cut then cut else tail)
    | Some cut, None => Some cut
    | None, tail => tail
    end in
  match newest with
  | Some tail =>
      map_err (λ _, ExitRetryable (lit "WAL coordinate space is exhausted before takeover"))
        (successor tail)
  | None =>
      map_err (λ _, ExitContradiction (lit "batch one must be a legal WAL coordinate"))
        (coord_try_from 1)
  end.

(** strom-storage-protocol/src/bootstrap.rs:913-927, [map_takeover_fence_error]. *)
Definition map_takeover_fence_error (error : TakeoverFenceError) : BootstrapExit :=
  match error with
  | NoRunCoordinate =>
      ExitRetryable (lit "WAL coordinate space has no RUN coordinate after the takeover FENCE")
  | NotAfterCut =>
      ExitContradiction (lit "takeover FENCE is not strictly after the Seal replay cut")
  | SpanExceeded span =>
      ExitRetryable
        (lit "WAL suffix through takeover FENCE spans " ++ dec span
         ++ lit " coordinates; the bound is " ++ dec WAL_SUFFIX_COORDINATES_MAX_V2)
  end.

(** strom-storage-protocol/src/bootstrap.rs:929-934, [replay_owner]. *)
Definition replay_owner (replay : WalReplayPoint) : option OwnerToken :=
  match replay with Genesis => None | Through _ owner => Some owner end.

(** strom-storage-protocol/src/bootstrap.rs:936-951, [replay_start]. *)
Definition replay_start (replay : WalReplayPoint) : Result BootstrapExit BatchId :=
  match replay with
  | Genesis =>
      map_err (λ _, ExitContradiction (lit "batch one must be a legal WAL coordinate"))
        (coord_try_from 1)
  | Through batch _ =>
      map_err (λ _, ExitRetryable (lit "Seal replay cut occupies the final WAL coordinate"))
        (successor batch)
  end.

(** strom-storage-protocol/src/bootstrap.rs:953-966, [fold_replay_facts]. *)
Fixpoint fold_replay_facts (forest : Forest) (batch : BatchId) (facts : list OperationFact) :
    Exec (Forest * option str) :=
  match facts with
  | [] => Ret (forest, None)
  | fact :: facts =>
      let! (forest, folded) := strict_fold forest batch fact in
      match folded with
      | Err contradiction =>
          Ret (forest, Some (lit "fact in WAL RUN " ++ debug_batch batch
            ++ lit " contradicts recovered state: " ++ fold_contradiction_display contradiction))
      | Ok _ => fold_replay_facts forest batch facts
      end
  end.

(** strom-storage-protocol/src/bootstrap.rs:982-986, [map_forest_error]. *)
Definition map_forest_error (error : ForestContradiction) : BootstrapExit :=
  ExitContradiction
    (lit "merged Directory and Ledger rows disagree: " ++ forest_contradiction_display error).

(** strom-storage-protocol/src/bootstrap.rs:988-995, [store_exit]. *)
Definition store_exit (error : TypedStoreError) : BootstrapExit :=
  match error with
  | Retryable detail => ExitRetryable detail
  | Rejected detail | StoreContradiction detail => ExitContradiction detail
  end.

(** * The machine *)

(** The derived order of owner tokens. *)
Definition owner_leb (a b : OwnerToken) : bool := coord_leb (generation a) (generation b).

(** A handler's result: the state it leaves and the step it returns. *)
Definition Transition : Type := BootstrapState * BootstrapStep.

(** strom-storage-protocol/src/bootstrap.rs:768-771, [BootstrapMachine::effect]. *)
Definition to_effect (state : BootstrapState) (effect : BootstrapEffect) : Transition :=
  (state, StepEffect effect).
(** strom-storage-protocol/src/bootstrap.rs:773-776, [BootstrapMachine::complete]. *)
Definition to_complete (recovery : WriterRecovery) : Transition :=
  (BootstrapComplete, StepComplete recovery).
(** strom-storage-protocol/src/bootstrap.rs:778-781, [BootstrapMachine::exit]. *)
Definition to_exit (exit : BootstrapExit) : Transition := (BootstrapComplete, StepExit exit).
(** strom-storage-protocol/src/bootstrap.rs:761-766, [BootstrapMachine::refresh_anomaly]. *)
Definition refresh_anomaly (claim : AuthoredClaim) (detail : str) : Transition :=
  to_effect (RefreshingAnomaly claim detail) ObserveHead.

Section machine.
  Context {HP : Heap} {RW : Rkyv ArchivedWalObject} {RS : Rkyv ArchivedSeal}.

(** strom-storage-protocol/src/bootstrap.rs:282-302, [BootstrapMachine::establish_genesis]. *)
Definition establish_genesis (partition : PartitionId) : Exec Transition :=
  let! genesis := expect_ok (Seal_new partition genesis_generation Genesis tree_empty tree_empty) in
  let! encoded := EncodedGenesisSeal_try_from genesis in
  Ret (match encoded with
       | Ok encoded => to_effect (EstablishingGenesis partition) (EstablishGenesis encoded)
       | Err source =>
           to_exit (ExitContradiction
             (lit "canonical genesis could not be encoded: " ++ candidate_error_display source))
       end).

(** strom-storage-protocol/src/bootstrap.rs:219-280, [BootstrapMachine::handle_head]. *)
Definition handle_head (state : BootstrapState) (observed : option SealGeneration) : Exec Transition :=
  match state with
  | DiscoveringHead genesis_partition =>
      match observed with
      | Some generation => Ret (to_effect (ReadingSeal generation) (ReadSeal generation))
      | None => establish_genesis genesis_partition
      end
  | RefreshingAnomaly claim detail =>
      Ret (match observed with
           | Some observed =>
               if coord_ltb (claim_generation claim) observed then to_exit (ExitFenced observed)
               else if bool_decide (observed = claim_generation claim)
               then to_exit (ExitContradiction detail)
               else to_exit (ExitContradiction
                 (lit "Seal head regressed from authored claim "
                  ++ debug_generation (claim_generation claim) ++ lit " to "
                  ++ debug_generation observed ++ lit " while classifying: " ++ detail))
           | None =>
               to_exit (ExitContradiction
                 (lit "Seal namespace became empty while classifying replay anomaly: " ++ detail))
           end)
  | RefreshingFinal recovery =>
      let claimed := claim_generation (recovery_claim recovery) in
      Ret (match observed with
           | Some observed =>
               if bool_decide (observed = claimed) then to_complete recovery
               else if coord_ltb claimed observed then to_exit (ExitFenced observed)
               else to_exit (ExitContradiction
                 (lit "final Seal refresh regressed from " ++ debug_generation claimed
                  ++ lit " to " ++ debug_generation observed))
           | None =>
               to_exit (ExitContradiction (lit "Seal namespace is empty during final refresh"))
           end)
  | _ => Panic
  end.

(** strom-storage-protocol/src/bootstrap.rs:304-331, [BootstrapMachine::handle_genesis]. *)
Definition handle_genesis (state : BootstrapState) (establishment : GenesisEstablishment) :
    Exec Transition :=
  match state with
  | EstablishingGenesis genesis_partition =>
      Ret (match establishment with
           | GenesisEstablished =>
               to_effect (ReadingSeal genesis_generation) (ReadSeal genesis_generation)
           | GenesisLostRace => to_effect (DiscoveringHead genesis_partition) ObserveHead
           | GenesisUnresolved =>
               to_exit (ExitRetryable (lit "canonical genesis create is unresolved"))
           end)
  | _ => Panic
  end.

(** strom-storage-protocol/src/bootstrap.rs:333-373, [BootstrapMachine::handle_seal]. *)
Definition handle_seal (state : BootstrapState) (observed : option Seal) : Exec Transition :=
  match state with
  | ReadingSeal generation =>
      match observed with
      | None =>
          Ret (to_exit (ExitContradiction
            (lit "newest Seal " ++ debug_generation generation ++ lit " is absent")))
      | Some head =>
          assert! bool_decide (generation = seal_generation head) in
          match plan_bootstrap_sources head with
          | Err exit => Ret (to_exit exit)
          | Ok sources =>
              match claim_successor head with
              | Err source =>
                  Ret (to_exit (ExitContradiction
                    (lit "newest Seal cannot form an exact claim successor: "
                     ++ seal_error_display source)))
              | Ok candidate =>
                  let! encoded := EncodedAuthoritySeal_try_from candidate in
                  Ret (match encoded with
                       | Ok encoded =>
                           to_effect (PublishingClaim candidate sources) (PublishClaim encoded)
                       | Err source =>
                           to_exit (ExitContradiction
                             (lit "claim Seal could not be encoded: "
                              ++ candidate_error_display source))
                       end)
              end
          end
      end
  | _ => Panic
  end.

(** strom-storage-protocol/src/bootstrap.rs:406-430, [BootstrapMachine::read_next_table]. *)
Definition read_next_table (load : BaseLoad) : Transition :=
  match load_remaining load with
  | [] =>
      match forest_try_from (merged_directory (load_merged load)) (merged_ledger (load_merged load)) with
      | Ok forest =>
          to_effect (ObservingWalTail (mk_loaded (load_claimed load) forest forest) None)
            ObserveWalTail
      | Err error => to_exit (map_forest_error error)
      end
  | source :: remaining =>
      to_effect
        (ReadingTable
           (mk_load (load_claimed load) remaining (load_merged load) (previous_directory load)
              (previous_ledger load))
           source)
        (ReadTable (seal_partition (claimed_seal (load_claimed load))) (planned_table source))
  end.

(** strom-storage-protocol/src/bootstrap.rs:375-404, [BootstrapMachine::handle_claim]. *)
Definition handle_claim (state : BootstrapState) (publication : SealPublication) : Exec Transition :=
  match state with
  | PublishingClaim candidate sources =>
      Ret (match publication with
           | Authored =>
               read_next_table
                 (mk_load (mk_claimed (AuthoredClaim_new (seal_generation candidate)) candidate)
                    sources (mk_merged ∅ ∅ 0) None None)
           | NoAuthority => to_exit (ExitFenced (seal_generation candidate))
           | PublicationUnresolved =>
               to_exit (ExitRetryable
                 (lit "claim create at " ++ debug_generation (seal_generation candidate)
                  ++ lit " is unresolved"))
           end)
  | _ => Panic
  end.

(** strom-storage-protocol/src/bootstrap.rs:432-475, [BootstrapMachine::handle_table]. *)
Definition handle_table (state : BootstrapState) (table : TableRef) (decoded : DecodedTable) :
    Exec Transition :=
  match state with
  | ReadingTable load source =>
      assert! bool_decide (planned_table source = table) in
      let! merge :=
        match decoded with
        | DecodedDirectory rows =>
            assert! bool_decide (Directory = store (table_object (planned_table source))) in
            let previous := if starts_run source then None else previous_directory load in
            let!? (merged, last) := merge_directory_table (load_merged load) previous rows in
            Ret (Ok (mk_load (load_claimed load) (load_remaining load) merged last
                       (previous_ledger load)))
        | DecodedLedger rows =>
            assert! bool_decide (Ledger = store (table_object (planned_table source))) in
            let previous := if starts_run source then None else previous_ledger load in
            let!? (merged, last) := merge_ledger_table (load_merged load) previous rows in
            Ret (Ok (mk_load (load_claimed load) (load_remaining load) merged
                       (previous_directory load) last))
        end in
      Ret (match merge with
           | Ok load => read_next_table load
           | Err exit => to_exit exit
           end)
  | _ => Panic
  end.

(** strom-storage-protocol/src/bootstrap.rs:583-599, [BootstrapMachine::establish_fence]. *)
Definition establish_fence (loaded : LoadedBootstrap) (fence : TakeoverFence) : Exec Transition :=
  let claimed := loaded_claimed loaded in
  let! encoded :=
    EncodedWal_new
      (mk_wal_object (seal_partition (claimed_seal claimed)) (fence_batch fence)
         (claim_owner (claimed_claim claimed)) Fence) in
  Ret (match encoded with
       | Ok encoded => to_effect (EstablishingFence loaded fence) (EstablishFence encoded)
       | Err source =>
           to_exit (ExitContradiction
             (lit "takeover FENCE could not be encoded: " ++ encode_error_display source))
       end).

(** After the occupancy check of the tail observation.
    strom-storage-protocol/src/bootstrap.rs:501-519, [BootstrapMachine::handle_wal_tail (fence)]. *)
Definition fence_after (loaded : LoadedBootstrap) (cut listed_tail : option BatchId)
    (candidate : BatchId) : Exec Transition :=
  match bound_takeover_fence cut candidate with
  | Err error => Ret (to_exit (map_takeover_fence_error error))
  | Ok fence =>
      let survives tail := match cut with None => true | Some cut => coord_ltb cut tail end in
      match listed_tail with
      | Some tail =>
          if survives tail then
            Ret (to_effect (ReadingWalTail loaded fence tail)
                   (ReadWal (seal_partition (claimed_seal (loaded_claimed loaded))) tail))
          else establish_fence loaded fence
      | None => establish_fence loaded fence
      end
  end.

(** strom-storage-protocol/src/bootstrap.rs:477-520, [BootstrapMachine::handle_wal_tail]. *)
Definition handle_wal_tail (state : BootstrapState) (listed_tail : option BatchId) :
    Exec Transition :=
  match state with
  | ObservingWalTail loaded occupied =>
      let cut := replay_batch (seal_replay (claimed_seal (loaded_claimed loaded))) in
      match plan_fence_candidate cut listed_tail with
      | Err exit => Ret (to_exit exit)
      | Ok candidate =>
          match occupied with
          | Some occupied =>
              if coord_leb candidate occupied then
                Ret (to_exit (ExitContradiction
                  (lit "WAL list did not advance past occupied FENCE candidate "
                   ++ debug_batch occupied)))
              else fence_after loaded cut listed_tail candidate
          | None => fence_after loaded cut listed_tail candidate
          end
      end
  | _ => Panic
  end.

(** strom-storage-protocol/src/bootstrap.rs:548-581, [BootstrapMachine::handle_tail_read]. *)
Definition handle_tail_read (loaded : LoadedBootstrap) (fence : TakeoverFence)
    (listed_tail : BatchId) (observed : option WalObject) : Exec Transition :=
  match observed with
  | None =>
      Ret (to_exit (ExitRetryable
        (lit "listed WAL tail " ++ debug_batch listed_tail
         ++ lit " disappeared before FENCE placement")))
  | Some observed =>
      let claimed := loaded_claimed loaded in
      assert! bool_decide (listed_tail = wal_batch observed) in
      assert! bool_decide (seal_partition (claimed_seal claimed) = wal_partition observed) in
      if owner_leb (claim_owner (claimed_claim claimed)) (wal_owner observed) then
        Ret (refresh_anomaly (claimed_claim claimed)
          (lit "listed WAL tail " ++ debug_batch listed_tail ++ lit " has owner "
           ++ debug_owner (wal_owner observed) ++ lit ", not older than the authored owner"))
      else establish_fence loaded fence
  end.

(** strom-storage-protocol/src/bootstrap.rs:601-644, [BootstrapMachine::handle_fence]. *)
Definition handle_fence (state : BootstrapState) (establishment : WalEstablishment) :
    Exec Transition :=
  match state with
  | EstablishingFence loaded fence =>
      Ret (match establishment with
           | WalDurable =>
               let seal := claimed_seal (loaded_claimed loaded) in
               match replay_start (seal_replay seal) with
               | Err exit => to_exit exit
               | Ok next =>
                   to_effect
                     (Replaying (mk_replay loaded next fence (replay_owner (seal_replay seal))))
                     (ReadWal (seal_partition seal) next)
               end
           | WalOccupied =>
               to_effect (ObservingWalTail loaded (Some (fence_batch fence))) ObserveWalTail
           | UnresolvedAbsent =>
               to_exit (ExitRetryable
                 (lit "takeover FENCE create at " ++ debug_batch (fence_batch fence)
                  ++ lit " is unresolved and absent on reconciliation"))
           end)
  | _ => Panic
  end.

(** The body of the observed object: the new owner and forest, or an anomaly.
    strom-storage-protocol/src/bootstrap.rs:679-705, [BootstrapMachine::handle_replay_read (body)]. *)
Definition replay_body (replay : Replay) (observed : WalObject) :
    Exec (option OwnerToken * Forest * option str) :=
  let durable := loaded_durable (replay_loaded replay) in
  let owner := replay_owner_now replay in
  match wal_body observed with
  | Fence =>
      if match owner with
         | Some current => owner_leb (wal_owner observed) current
         | None => false
         end
      then Ret (owner, durable,
        Some (lit "FENCE at " ++ debug_batch (replay_next replay)
              ++ lit " does not strictly increase the replay owner"))
      else Ret (Some (wal_owner observed), durable, None)
  | Run facts =>
      if bool_decide (owner = Some (wal_owner observed)) then
        let! (durable, anomaly) :=
          fold_replay_facts durable (replay_next replay) (facts_slice facts) in
        Ret (owner, durable, anomaly)
      else Ret (owner, durable,
        Some (lit "RUN at " ++ debug_batch (replay_next replay)
              ++ lit " does not match the replay owner"))
  end.

(** strom-storage-protocol/src/bootstrap.rs:646-739, [BootstrapMachine::handle_replay_read]. *)
Definition handle_replay_read (replay : Replay) (observed : option WalObject) : Exec Transition :=
  let loaded := replay_loaded replay in
  let claim := claimed_claim (loaded_claimed loaded) in
  let seal := claimed_seal (loaded_claimed loaded) in
  let fence := fence_batch (replay_fence replay) in
  match observed with
  | None =>
      Ret (refresh_anomaly claim
        (lit "WAL coordinate " ++ debug_batch (replay_next replay)
         ++ lit " is absent below the FENCE"))
  | Some observed =>
      assert! bool_decide (replay_next replay = wal_batch observed) in
      assert! bool_decide (seal_partition seal = wal_partition observed) in
      assert! (if bool_decide (replay_next replay = fence) then
                 match wal_body observed with Fence => true | Run _ => false end
                 && bool_decide (claim_owner claim = wal_owner observed)
               else true) in
      let! (owner, durable, anomaly) := replay_body replay observed in
      match anomaly with
      | Some detail => Ret (refresh_anomaly claim detail)
      | None =>
          if bool_decide (replay_next replay = fence) then
            assert! bool_decide (Some (claim_owner claim) = owner) in
            Ret (to_effect
                   (RefreshingFinal (mk_recovery claim seal (loaded_base loaded) durable fence))
                   ObserveHead)
          else
            Ret (match successor (replay_next replay) with
                 | Err _ =>
                     to_exit (ExitContradiction
                       (lit "WAL replay coordinate is exhausted before the FENCE"))
                 | Ok next =>
                     to_effect
                       (Replaying
                          (mk_replay
                             (mk_loaded (loaded_claimed loaded) (loaded_base loaded) durable)
                             next (replay_fence replay) owner))
                       (ReadWal (seal_partition seal) next)
                 end)
      end
  end.

(** strom-storage-protocol/src/bootstrap.rs:522-546, [BootstrapMachine::handle_wal_read]. *)
Definition handle_wal_read (state : BootstrapState) (observed : option WalObject) :
    Exec Transition :=
  match state with
  | ReadingWalTail loaded fence listed_tail => handle_tail_read loaded fence listed_tail observed
  | Replaying replay => handle_replay_read replay observed
  | _ => Panic
  end.

(** strom-storage-protocol/src/bootstrap.rs:741-759, [BootstrapMachine::handle_store_failure]. *)
Definition handle_store_failure (state : BootstrapState) (error : TypedStoreError) :
    Exec Transition :=
  match state, error with
  | ReadingWalTail loaded _ _, StoreContradiction detail =>
      Ret (refresh_anomaly (claimed_claim (loaded_claimed loaded)) detail)
  | Replaying replay, StoreContradiction detail =>
      Ret (refresh_anomaly (claimed_claim (loaded_claimed (replay_loaded replay))) detail)
  | Initial, _ | BootstrapComplete, _ => Panic
  | _, error => Ret (to_exit (store_exit error))
  end.

(** strom-storage-protocol/src/bootstrap.rs:183-217, [BootstrapMachine::handle]. *)
Definition bootstrap_handle (machine : BootstrapMachine) (event : BootstrapEvent) :
    Exec (BootstrapMachine * BootstrapStep) :=
  let! state := expect (bootstrap_state machine) in
  let! (state, step) :=
    match event with
    | BootstrapStarted genesis_partition =>
        match state with
        | Initial => Ret (to_effect (DiscoveringHead genesis_partition) ObserveHead)
        | _ => Panic
        end
    | HeadObserved result => handle_head state result
    | GenesisEstablishedEvent result => handle_genesis state result
    | SealRead result => handle_seal state result
    | ClaimPublished result => handle_claim state result
    | TableRead table decoded => handle_table state table decoded
    | WalTailObserved result => handle_wal_tail state result
    | WalRead result => handle_wal_read state result
    | FenceEstablished result => handle_fence state result
    | StoreFailed error => handle_store_failure state error
    end in
  Ret (mk_bootstrap (Some state), step).

End machine.
