(* ===== verification/BootstrapSafety.v ===== *)
(** Safety and meaning of bootstrap.

    The environment answers the one outstanding effect; what it may answer is
    [completes].  A ghost trace keeps the tables and WAL objects it delivered.  The
    file shows on which answers bootstrap panics, that a completed bootstrap hands the
    writer a sound recovery, and that the recovered forest is the fold of the
    replayed runs over the forest the Seal's tables describe. *)

From S2P Require Import Prelude OrdMap Text Domain Coordinates Partition Seal Wal Forest.
From S2P Require Import ForestTheory Archive Spelling Sst Writer WriterSafety WriterSystem.
From S2P Require Import Bootstrap.

(** * The environment *)

(** What was read: the tables in reading order, and the replayed WAL objects. *)
Record Trace : Type := mk_trace {
  trace_tables : list (TableRef * DecodedTable);
  trace_wal : list WalObject
}.
Definition trace_empty : Trace := mk_trace [] [].

(** The rows of a decoded table are a checked table of the requested store. *)
Definition decoded_matches (table : TableRef) (decoded : DecodedTable) : Prop :=
  match decoded with
  | DecodedDirectory rows => store (table_object table) = Directory ∧ rows_ok rows
  | DecodedLedger rows => store (table_object table) = Ledger ∧ rows_ok rows
  end.

(** The takeover FENCE this bootstrap wrote. *)
Definition own_fence (loaded : LoadedBootstrap) (fence : TakeoverFence) : WalObject :=
  mk_wal_object (seal_partition (claimed_seal (loaded_claimed loaded))) (fence_batch fence)
    (claim_owner (claimed_claim (loaded_claimed loaded))) Fence.

(** What may answer the outstanding effect of a state.  Two clauses are assumptions on
    the stores, which the machine asserts: a read answers for the exact identity
    requested; and the coordinate of the FENCE, once established, reads back as the
    established object.  [bootstrap_panics_exactly] says what their violation does, and
    BootstrapRun.v discharges both for the stores of the engine on a backend whose other
    actors do not overwrite Seals and FENCEs. *)
Definition completes (state : BootstrapState) (effect : BootstrapEffect) (event : BootstrapEvent) :
    Prop :=
  match effect, event with
  | _, StoreFailed _ => True
  | ObserveHead, HeadObserved _ => True
  | EstablishGenesis _, GenesisEstablishedEvent _ => True
  | ReadSeal generation, SealRead observed =>
      ∀ seal, observed = Some seal → seal_generation seal = generation
  | PublishClaim _, ClaimPublished _ => True
  | ReadTable _ table, TableRead table' decoded => table' = table ∧ decoded_matches table decoded
  | ObserveWalTail, WalTailObserved _ => True
  | ReadWal partition batch, WalRead observed =>
      (∀ w, observed = Some w → wal_partition w = partition ∧ wal_batch w = batch) ∧
      (∀ replay w, state = Replaying replay → replay_next replay = fence_batch (replay_fence replay) →
         observed = Some w → w = own_fence (replay_loaded replay) (replay_fence replay))
  | EstablishFence _, FenceEstablished _ => True
  | _, _ => False
  end.

Definition extend_trace (state : BootstrapState) (event : BootstrapEvent) (t : Trace) : Trace :=
  match state, event with
  | ReadingTable _ _, TableRead table decoded =>
      mk_trace (trace_tables t ++ [(table, decoded)]) (trace_wal t)
  | Replaying _, WalRead (Some w) => mk_trace (trace_tables t) (trace_wal t ++ [w])
  | _, _ => t
  end.

Section reach.
  Context {HP : Heap} {RW : Rkyv ArchivedWalObject} {RS : Rkyv ArchivedSeal}.

(** The sequential interpreter: one effect, one completion, until a terminal step.
    strom-storage-engine/src/bootstrap.rs:14-37, [bootstrap]. *)
Inductive boot_reach : Trace → BootstrapState → BootstrapStep → Prop :=
| boot_start partition m state step :
    bootstrap_handle BootstrapMachine_new (BootstrapStarted partition) = Ret (m, step) →
    bootstrap_state m = Some state →
    boot_reach trace_empty state step
| boot_next t state effect event m state' step :
    boot_reach t state (StepEffect effect) → completes state effect event →
    bootstrap_handle (mk_bootstrap (Some state)) event = Ret (m, step) →
    bootstrap_state m = Some state' →
    boot_reach (extend_trace state event t) state' step.

End reach.

(** * What the trace means *)

(** Tables are applied in reading order: Directory rows insert, Ledger cells insert
    or delete. *)
Definition apply_table (f : Forest) (decoded : DecodedTable) : Forest :=
  match decoded with
  | DecodedDirectory rows => mk_forest (apply_directory rows (directory f)) (ledger f)
  | DecodedLedger cells => mk_forest (directory f) (apply_ledger cells (ledger f))
  end.

Definition tables_forest (tables : list DecodedTable) : Forest := foldl apply_table forest_empty tables.

(** The replay discipline: each FENCE strictly raises the owner, each RUN belongs to
    the current owner and folds. *)
Inductive replayed (o : option OwnerToken) (f : Forest) :
    list WalObject → option OwnerToken → Forest → Prop :=
| replayed_nil : replayed o f [] o f
| replayed_fence ws w o1 f1 :
    replayed o f ws o1 f1 → wal_body w = Fence →
    (∀ c, o1 = Some c → coord_get (generation c) < coord_get (generation (wal_owner w))) →
    replayed o f (ws ++ [w]) (Some (wal_owner w)) f1
| replayed_run ws w facts f1 f2 :
    replayed o f ws (Some (wal_owner w)) f1 → wal_body w = Run facts →
    facts_applied (wal_batch w) f1 (facts_slice facts) f2 →
    replayed o f (ws ++ [w]) (Some (wal_owner w)) f2.

Lemma replayed_wf o f ws o' f' : forest_wf f → replayed o f ws o' f' → forest_wf f'.
Proof. intros Hwf. induction 1; eauto using facts_applied_wf. Qed.

(** * The invariant *)

Definition claimed_ok (c : ClaimedBootstrap) : Prop :=
  claimed_claim c = AuthoredClaim_new (seal_generation (claimed_seal c)).

Definition planned_tables (seal : Seal) : list TableRef :=
  planned_table <$> tree_sources (seal_directory seal) ++ tree_sources (seal_ledger seal).

Record merged_ok (m : MergedRows) (tables : list DecodedTable) : Prop := {
  merged_resident : resident_bytes m =
    Z.of_nat (size (merged_directory m)) * DIRECTORY_ROW_LOGICAL_BYTES_MAX +
    Z.of_nat (size (merged_ledger m)) * LEDGER_VALUE_ROW_LOGICAL_BYTES_MAX;
  merged_bound : resident_bytes m ≤ PARTITION_RESIDENT_LOGICAL_BYTES_MAX_V2;
  merged_forest : mk_forest (merged_directory m) (merged_ledger m) = tables_forest tables
}.

Record loaded_ok (t : Trace) (l : LoadedBootstrap) : Prop := {
  loaded_claim : claimed_ok (loaded_claimed l);
  loaded_tables : (trace_tables t).*1 = planned_tables (claimed_seal (loaded_claimed l));
  loaded_forest : loaded_base l = tables_forest (trace_tables t).*2;
  loaded_wf : forest_wf (loaded_base l)
}.

Definition fresh_loaded (t : Trace) (l : LoadedBootstrap) : Prop :=
  loaded_ok t l ∧ loaded_durable l = loaded_base l ∧ trace_wal t = [].

Definition fence_ok (l : LoadedBootstrap) (fence : TakeoverFence) : Prop :=
  seal_cut (claimed_seal (loaded_claimed l)) < coord_get (fence_batch fence) < u64_max.

Record replay_ok (t : Trace) (r : Replay) : Prop := {
  replay_ok_loaded : loaded_ok t (replay_loaded r);
  replay_ok_fence : fence_ok (replay_loaded r) (replay_fence r);
  replay_ok_fold : replayed (replay_owner (seal_replay (claimed_seal (loaded_claimed (replay_loaded r)))))
    (loaded_base (replay_loaded r)) (trace_wal t) (replay_owner_now r)
    (loaded_durable (replay_loaded r));
  replay_ok_batches : (coord_get ∘ wal_batch <$> trace_wal t) =
    seqZ (seal_cut (claimed_seal (loaded_claimed (replay_loaded r))) + 1) (zlen (trace_wal t));
  replay_ok_next : coord_get (replay_next r) =
    seal_cut (claimed_seal (loaded_claimed (replay_loaded r))) + zlen (trace_wal t) + 1;
  replay_ok_below : coord_get (replay_next r) ≤ coord_get (fence_batch (replay_fence r))
}.

(** What a completed bootstrap has established. *)
Record recovered (t : Trace) (r : WriterRecovery) : Prop := {
  recovered_claim : recovery_claim r = AuthoredClaim_new (seal_generation (recovery_seal r));
  recovered_tables : (trace_tables t).*1 = planned_tables (recovery_seal r);
  recovered_base : recovery_base r = tables_forest (trace_tables t).*2;
  recovered_wf : forest_wf (recovery_base r);
  recovered_fold : replayed (replay_owner (seal_replay (recovery_seal r))) (recovery_base r)
    (trace_wal t) (Some (claim_owner (recovery_claim r))) (recovery_durable r);
  recovered_batches : (coord_get ∘ wal_batch <$> trace_wal t) =
    seqZ (seal_cut (recovery_seal r) + 1)
      (coord_get (recovery_durable_batch r) - seal_cut (recovery_seal r));
  recovered_fence : last (trace_wal t) =
    Some (mk_wal_object (seal_partition (recovery_seal r)) (recovery_durable_batch r)
            (claim_owner (recovery_claim r)) Fence);
  recovered_span : seal_cut (recovery_seal r) < coord_get (recovery_durable_batch r) < u64_max
}.

Definition state_ok (t : Trace) (state : BootstrapState) : Prop :=
  match state with
  | PublishingClaim candidate sources =>
      t = trace_empty ∧
      sources = tree_sources (seal_directory candidate) ++ tree_sources (seal_ledger candidate)
  | ReadingTable load source =>
      claimed_ok (load_claimed load) ∧ trace_wal t = [] ∧
      merged_ok (load_merged load) (trace_tables t).*2 ∧
      planned_tables (claimed_seal (load_claimed load)) =
        (trace_tables t).*1 ++ planned_table source :: (planned_table <$> load_remaining load)
  | ObservingWalTail loaded _ => fresh_loaded t loaded
  | ReadingWalTail loaded fence _ | EstablishingFence loaded fence =>
      fresh_loaded t loaded ∧ fence_ok loaded fence
  | Replaying r => replay_ok t r
  | RefreshingFinal r => recovered t r
  | Initial | DiscoveringHead _ | EstablishingGenesis _ | ReadingSeal _ => t = trace_empty
  | RefreshingAnomaly _ _ | BootstrapComplete => True
  end.

(** The outstanding effect is the one its state waits for. *)
Definition waits_for (state : BootstrapState) (effect : BootstrapEffect) : Prop :=
  match state, effect with
  | DiscoveringHead _, ObserveHead | RefreshingAnomaly _ _, ObserveHead
  | RefreshingFinal _, ObserveHead => True
  | EstablishingGenesis _, EstablishGenesis _ => True
  | ReadingSeal g, ReadSeal g' => g' = g
  | PublishingClaim _ _, PublishClaim _ => True
  | ReadingTable load source, ReadTable partition table => table = planned_table source
  | ObservingWalTail _ _, ObserveWalTail => True
  | ReadingWalTail loaded _ tail, ReadWal partition batch =>
      partition = seal_partition (claimed_seal (loaded_claimed loaded)) ∧ batch = tail
  | EstablishingFence _ _, EstablishFence _ => True
  | Replaying r, ReadWal partition batch =>
      partition = seal_partition (claimed_seal (loaded_claimed (replay_loaded r))) ∧
      batch = replay_next r
  | _, _ => False
  end.

(** A transition that keeps the invariant. *)
Definition step_ok (t : Trace) (x : Transition) : Prop :=
  state_ok t x.1 ∧
  match x.2 with
  | StepEffect effect => waits_for x.1 effect
  | StepComplete r => recovered t r
  | StepExit _ => x.1 = BootstrapComplete
  end.

Lemma to_exit_ok t exit : step_ok t (to_exit exit).
Proof. done. Qed.

Lemma refresh_anomaly_ok t claim detail : step_ok t (refresh_anomaly claim detail).
Proof. done. Qed.

(** * Merging tables *)

(** The byte account of a merge follows the maps exactly. *)
Definition account (d : gmap StreamPath DirectoryEntry) (l : gmap StreamUid StreamRecord) : Z :=
  Z.of_nat (size d) * DIRECTORY_ROW_LOGICAL_BYTES_MAX +
  Z.of_nat (size l) * LEDGER_VALUE_ROW_LOGICAL_BYTES_MAX.

Definition accounted (m : MergedRows) : Prop :=
  resident_bytes m = account (merged_directory m) (merged_ledger m) ∧
  resident_bytes m ≤ PARTITION_RESIDENT_LOGICAL_BYTES_MAX_V2.

Lemma account_nonneg d l : 0 ≤ account d l.
Proof. unfold account. unfold_bounds. lia. Qed.

Lemma add_resident_bytes_Ok current additional total :
  add_resident_bytes current additional = Ok total →
  total = current + additional ∧ total ≤ PARTITION_RESIDENT_LOGICAL_BYTES_MAX_V2.
Proof.
  unfold add_resident_bytes, u64_checked_add. case_decide; [|done]. cbn [ok_or result_bind].
  destruct (Z.ltb_spec PARTITION_RESIDENT_LOGICAL_BYTES_MAX_V2 (current + additional)); [done|].
  by intros [= <-].
Qed.

Lemma merge_directory_rows_Ok rows m m' :
  accounted m → merge_directory_rows m rows = Ok m' →
  accounted m' ∧ merged_directory m' = apply_directory rows (merged_directory m) ∧
  merged_ledger m' = merged_ledger m.
Proof.
  revert m. induction rows as [|[key entry] rows IH]; intros m Ha; cbn [merge_directory_rows].
  { by intros [= <-]. }
  case_bool_decide as Hk; cbn [result_bind].
  - intros Hm. apply IH in Hm as (Ha' & Hd & Hl); [done|].
    destruct Ha as [Hr Hb]. split; [|done]. simpl. rewrite Hr. unfold account.
    by rewrite map_size_insert_Some.
  - destruct (add_resident_bytes _ _) as [n|] eqn:Hn; [|done]. cbn [result_bind].
    apply add_resident_bytes_Ok in Hn as [-> Hn]. intros Hm.
    apply IH in Hm as (Ha' & Hd & Hl); [done|]. destruct Ha as [Hr Hb]. split; [|done].
    simpl. rewrite Hr. unfold account. rewrite map_size_insert_None by (by apply eq_None_not_Some).
    lia.
Qed.

Lemma merge_ledger_rows_Ret rows m :
  accounted m →
  ∃ r, merge_ledger_rows m rows = Ret r ∧
    ∀ m', r = Ok m' → accounted m' ∧ merged_ledger m' = apply_ledger rows (merged_ledger m) ∧
      merged_directory m' = merged_directory m.
Proof.
  revert m. induction rows as [|[uid [record|]] rows IH]; intros m Ha; cbn [merge_ledger_rows].
  { eexists. split; [done|]. by intros m' [= <-]. }
  - case_bool_decide as Hk; cbn [try_bind].
    + destruct (IH (mk_merged (merged_directory m) (<[uid:=record]> (merged_ledger m))
        (resident_bytes m))) as (r & -> & Hr); [|by exists r].
      destruct Ha as [Hr Hb]. split; [|done]. simpl. rewrite Hr. unfold account.
      by rewrite map_size_insert_Some.
    + destruct (add_resident_bytes _ _) as [n|] eqn:Hn; cbn [try_bind];
        [|eexists; split; [reflexivity|done]].
      apply add_resident_bytes_Ok in Hn as [-> Hn].
      destruct (IH (mk_merged (merged_directory m) (<[uid:=record]> (merged_ledger m))
        (resident_bytes m + LEDGER_VALUE_ROW_LOGICAL_BYTES_MAX))) as (r & -> & Hr); [|by exists r].
      destruct Ha as [Hr Hb]. split; [|done]. simpl. rewrite Hr. unfold account.
      rewrite map_size_insert_None by (by apply eq_None_not_Some). lia.
  - destruct Ha as [Hres Hb]. case_bool_decide as Hk; cbn [exec_bind].
    + destruct Hk as [rec Hk].
      assert (size (merged_ledger m) = S (size (delete uid (merged_ledger m)))) as Hsize.
      { rewrite map_size_delete_Some by eauto.
        pose proof (map_size_non_empty_iff (merged_ledger m)) as Hne.
        assert (merged_ledger m ≠ ∅) as Hx%Hne by (intros He; by rewrite He in Hk). lia. }
      pose proof (account_nonneg (merged_directory m) (delete uid (merged_ledger m))) as Hnn.
      assert (resident_bytes m = account (merged_directory m) (delete uid (merged_ledger m))
        + LEDGER_VALUE_ROW_LOGICAL_BYTES_MAX) as Hres'.
      { rewrite Hres. unfold account. rewrite Hsize. lia. }
      unfold u64_checked_sub. rewrite decide_True by lia. cbn [expect exec_bind].
      destruct (IH (mk_merged (merged_directory m) (delete uid (merged_ledger m))
        (resident_bytes m - LEDGER_VALUE_ROW_LOGICAL_BYTES_MAX))) as (r & -> & Hr); [|by exists r].
      split; simpl; [lia|]. unfold_bounds. lia.
    + destruct (IH (mk_merged (merged_directory m) (delete uid (merged_ledger m))
        (resident_bytes m))) as (r & -> & Hr); [|by exists r].
      split; simpl; [|done]. rewrite delete_id; [done|]. by apply eq_None_not_Some.
Qed.

(** * The handlers keep the invariant *)

Lemma accounted_merged m tables :
  merged_ok m tables ↔
  accounted m ∧ mk_forest (merged_directory m) (merged_ledger m) = tables_forest tables.
Proof. split; [intros []; done|]. intros [[] ?]. by split. Qed.

Lemma read_next_table_ok t load :
  claimed_ok (load_claimed load) → trace_wal t = [] →
  merged_ok (load_merged load) (trace_tables t).*2 →
  planned_tables (claimed_seal (load_claimed load)) =
    (trace_tables t).*1 ++ (planned_table <$> load_remaining load) →
  step_ok t (read_next_table load).
Proof.
  intros Hc Hw Hm Hp. unfold read_next_table. destruct (load_remaining load) as [|source rest].
  - destruct (forest_try_from _ _) as [f|e] eqn:Hf; [|done].
    apply forest_try_from_Ok in Hf as [Hf Hwf]. split; [|done]. simpl. split; [|done].
    apply accounted_merged in Hm as [_ Hm]. rewrite app_nil_r in Hp.
    split; simpl; [done|done|congruence|congruence].
  - split; [|done]. simpl. done.
Qed.

Lemma extend_table_2 t table decoded :
  (trace_tables t ++ [(table, decoded)]).*2 = (trace_tables t).*2 ++ [decoded].
Proof. by rewrite fmap_app. Qed.

Lemma tables_forest_snoc tables decoded :
  tables_forest (tables ++ [decoded]) = apply_table (tables_forest tables) decoded.
Proof. unfold tables_forest. by rewrite foldl_app. Qed.

Lemma rows_ok_head {K V} `{Ord K} (rows : list (K * V)) : rows_ok rows → ∃ r, head rows = Some r.
Proof. intros [Hne _]. destruct rows; [done|]. eauto. Qed.

Lemma merge_directory_table_Ret m tables previous rows :
  merged_ok m tables → rows_ok rows →
  ∃ r, merge_directory_table m previous rows = Ret r ∧
    ∀ m' l, r = Ok (m', l) → merged_ok m' (tables ++ [DecodedDirectory rows]).
Proof.
  intros [Ha Hf]%accounted_merged [r Hr]%rows_ok_head. unfold merge_directory_table. rewrite Hr.
  cbn [expect exec_bind].
  destruct (match previous with Some p => negb (ord_ltb p r.1) | None => false end);
    [eexists; split; [reflexivity|done]|].
  destruct (merge_directory_rows m rows) as [m'|] eqn:Hm; cbn [try_bind];
    [|eexists; split; [reflexivity|done]].
  apply merge_directory_rows_Ok in Hm as (Ha' & Hd & Hl); [|done].
  eexists. split; [reflexivity|]. intros m1 l [= <- _]. apply accounted_merged. split; [done|].
  rewrite tables_forest_snoc, <- Hf, Hd, Hl. done.
Qed.

Lemma merge_ledger_table_Ret m tables previous rows :
  merged_ok m tables → rows_ok rows →
  ∃ r, merge_ledger_table m previous rows = Ret r ∧
    ∀ m' l, r = Ok (m', l) → merged_ok m' (tables ++ [DecodedLedger rows]).
Proof.
  intros [Ha Hf]%accounted_merged [r Hr]%rows_ok_head. unfold merge_ledger_table. rewrite Hr.
  cbn [expect exec_bind].
  destruct (match previous with Some p => negb (ord_ltb p r.1) | None => false end);
    [eexists; split; [reflexivity|done]|].
  destruct (merge_ledger_rows_Ret rows m Ha) as ([m'|] & -> & Hm); cbn [try_bind];
    [|eexists; split; [reflexivity|done]].
  destruct (Hm m' eq_refl) as (Ha' & Hl & Hd).
  eexists. split; [reflexivity|]. intros m1 l [= <- _]. apply accounted_merged. split; [done|].
  rewrite tables_forest_snoc, <- Hf, Hd, Hl. done.
Qed.

Lemma handle_table_ok t load source decoded :
  state_ok t (ReadingTable load source) → decoded_matches (planned_table source) decoded →
  ∃ x, handle_table (ReadingTable load source) (planned_table source) decoded = Ret x ∧
    step_ok (extend_trace (ReadingTable load source) (TableRead (planned_table source) decoded) t) x.
Proof.
  intros (Hc & Hw & Hm & Hp) Hd. unfold handle_table. rewrite bool_decide_eq_true_2 by done.
  assert (∀ m pd pl, merged_ok m ((trace_tables t).*2 ++ [decoded]) →
    step_ok (extend_trace (ReadingTable load source) (TableRead (planned_table source) decoded) t)
      (read_next_table (mk_load (load_claimed load) (load_remaining load) m pd pl))) as Hnext.
  { intros m pd pl Hmo. apply read_next_table_ok; simpl; [done|done| |].
    - by rewrite extend_table_2.
    - rewrite fmap_app. simpl. by rewrite <- (assoc_L (++)). }
  destruct decoded as [rows|rows]; destruct Hd as [Hs Hrows];
    rewrite bool_decide_eq_true_2 by done.
  - destruct (merge_directory_table_Ret (load_merged load) (trace_tables t).*2
      (if starts_run source then None else previous_directory load) rows Hm Hrows)
      as ([[m l]|e] & -> & Hr); cbn [try_bind exec_bind]; eexists; (split; [reflexivity|]).
    + by eapply Hnext, Hr.
    + apply to_exit_ok.
  - destruct (merge_ledger_table_Ret (load_merged load) (trace_tables t).*2
      (if starts_run source then None else previous_ledger load) rows Hm Hrows)
      as ([[m l]|e] & -> & Hr); cbn [try_bind exec_bind]; eexists; (split; [reflexivity|]).
    + by eapply Hnext, Hr.
    + apply to_exit_ok.
Qed.

Lemma fold_replay_facts_Ret batch facts f :
  forest_wf f →
  ∃ f' anomaly, fold_replay_facts f batch facts = Ret (f', anomaly) ∧
    (anomaly = None → facts_applied batch f facts f').
Proof.
  revert f. induction facts as [|fact facts IH]; intros f Hwf; cbn [fold_replay_facts].
  { eexists _, _. split; [reflexivity|]. constructor. }
  destruct (strict_fold_cases f batch fact Hwf) as [[e ->]|(f1 & -> & Hf)]; cbn [exec_bind].
  - eexists _, _. split; [reflexivity|done].
  - destruct (IH f1) as (f' & anomaly & -> & Ha); [by eapply fold_spec_wf|].
    eexists _, _. split; [reflexivity|]. intros Hn. econstructor; eauto.
Qed.

Lemma replay_start_Ok replay next :
  replay_start replay = Ok next → coord_get next = cut_value (replay_batch replay) + 1.
Proof.
  destruct replay as [|batch owner]; cbn [replay_start replay_batch cut_value].
  - destruct (coord_try_from 1) as [c|] eqn:Hc; [|done]. intros [= <-].
    apply coord_try_from_Ok in Hc. lia.
  - destruct (successor batch) as [c|] eqn:Hc; [|done]. intros [= <-].
    by apply successor_Ok in Hc.
Qed.

(** One replayed object: its body moves owner and forest by the replay discipline. *)
Lemma replay_body_Ret t r w :
  replay_ok t r → wal_batch w = replay_next r →
  ∃ owner f anomaly, replay_body r w = Ret (owner, f, anomaly) ∧
    (anomaly = None → owner = Some (wal_owner w) ∧
       replayed (replay_owner (seal_replay (claimed_seal (loaded_claimed (replay_loaded r)))))
         (loaded_base (replay_loaded r)) (trace_wal t ++ [w]) owner f).
Proof.
  intros [Hl _ Hfold _ _ _] Hb. unfold replay_body. destruct (wal_body w) as [facts|] eqn:Hw.
  - case_bool_decide as Ho; [|eexists _, _, _; by split].
    destruct (fold_replay_facts_Ret (replay_next r) (facts_slice facts)
      (loaded_durable (replay_loaded r))) as (f & anomaly & -> & Ha).
    { eapply replayed_wf; [apply (loaded_wf _ _ Hl)|done]. }
    eexists _, _, _. split; [reflexivity|]. intros Hn. split; [done|].
    rewrite Ho in Hfold |- *. eapply replayed_run; [done|done|]. rewrite Hb. by apply Ha.
  - destruct (match replay_owner_now r with Some c => owner_leb (wal_owner w) c | None => false end)
      eqn:Ho; eexists _, _, _; (split; [reflexivity|]); [done|]. intros _. split; [done|].
    eapply replayed_fence; [done|done|]. intros c Hc. rewrite Hc in Ho. by apply Z.leb_gt in Ho.
Qed.

Section handlers.
  Context {HP : Heap} {HL : HeapLaws} {RW : Rkyv ArchivedWalObject} {LW : RkyvLaws ArchivedWalObject}
    {RS : Rkyv ArchivedSeal} {LS : RkyvLaws ArchivedSeal}.

Lemma EncodedSeal_new_Ret seal : ∃ r, EncodedSeal_new seal = Ret r.
Proof using HL LS.
  unfold EncodedSeal_new, encode_seal. destruct (encode _ _) as [b|] eqn:He; [|eauto].
  apply encode_inv in He as [-> Hb]; [|unfold_bounds; lia]. cbn [try_bind].
  unfold candidate_bytes_ok. rewrite bool_decide_eq_false_2 by apply rkyv_nonempty. cbn [negb andb].
  rewrite (proj2 (Z.leb_le _ _)) by done. eauto.
Qed.

Lemma EncodedWal_new_Ret object : ∃ r, EncodedWal_new object = Ret r.
Proof using HL LW.
  unfold EncodedWal_new, encode_wal. destruct (encode _ _) as [b|] eqn:He; [|eauto].
  apply encode_inv in He as [-> Hb]; [|unfold_bounds; lia]. cbn [try_bind].
  unfold candidate_bytes_ok. rewrite bool_decide_eq_false_2 by apply rkyv_nonempty. cbn [negb andb].
  rewrite (proj2 (Z.leb_le _ _)) by done. eauto.
Qed.

Lemma genesis_seal_ok partition :
  ∃ seal, Seal_new partition genesis_generation Genesis tree_empty tree_empty = Ok seal ∧
    seal_generation seal = genesis_generation.
Proof.
  destruct (Seal_new_wf partition genesis_generation Genesis tree_empty tree_empty)
    as (seal & Hs & Hc).
  - split_and!; simpl; try done; repeat constructor.
  - exists seal. split; [done|]. unfold seal_generation. by rewrite Hc.
Qed.

Lemma establish_genesis_ok partition :
  ∃ x, establish_genesis partition = Ret x ∧ step_ok trace_empty x.
Proof using HL LS.
  unfold establish_genesis. destruct (genesis_seal_ok partition) as (seal & -> & Hg).
  cbn [expect_ok exec_bind]. unfold EncodedGenesisSeal_try_from.
  rewrite bool_decide_eq_true_2 by done. cbn [negb].
  destruct (EncodedSeal_new_Ret seal) as [[[s b]|e] ->]; cbn [try_map_err map_err try_bind exec_bind];
    eexists; (split; [reflexivity|]); [by split|apply to_exit_ok].
Qed.

Lemma handle_seal_ok generation observed :
  (∀ seal, observed = Some seal → seal_generation seal = generation) →
  ∃ x, handle_seal (ReadingSeal generation) observed = Ret x ∧ step_ok trace_empty x.
Proof using HL LS.
  intros Hg. unfold handle_seal. destruct observed as [head|];
    [|eexists; split; [reflexivity|apply to_exit_ok]].
  rewrite bool_decide_eq_true_2 by (symmetry; by apply Hg).
  destruct (plan_bootstrap_sources head) as [sources|] eqn:Hs;
    [|eexists; split; [reflexivity|apply to_exit_ok]].
  destruct (claim_successor head) as [candidate|] eqn:Hc;
    [|eexists; split; [reflexivity|apply to_exit_ok]].
  unfold EncodedAuthoritySeal_try_from. case_bool_decide;
    [eexists; split; [reflexivity|apply to_exit_ok]|].
  destruct (EncodedSeal_new_Ret candidate) as [[[s b]|e] ->];
    cbn [try_map_err map_err try_bind exec_bind]; eexists; (split; [reflexivity|]);
    [|apply to_exit_ok].
  split; [|done]. split; [done|]. apply claim_successor_Ok in Hc as (gen & _ & Hc).
  unfold plan_bootstrap_sources in Hs. destruct (sum_sources _ _ _) as [[n b']|]; [|done].
  cbn [result_bind] in Hs. destruct (_ || _); [done|]. injection Hs as <-.
  unfold seal_directory, seal_ledger. by rewrite Hc.
Qed.

Lemma establish_fence_ok t loaded fence :
  fresh_loaded t loaded → fence_ok loaded fence →
  ∃ x, establish_fence loaded fence = Ret x ∧ step_ok t x.
Proof using HL LW.
  intros Hl Hf. unfold establish_fence.
  destruct (EncodedWal_new_Ret (own_fence loaded fence)) as [[e|e] He]; unfold own_fence in He;
    rewrite He; cbn [exec_bind]; eexists; (split; [reflexivity|]); [by split|apply to_exit_ok].
Qed.

Lemma handle_wal_tail_ok t loaded occupied listed :
  fresh_loaded t loaded →
  ∃ x, handle_wal_tail (ObservingWalTail loaded occupied) listed = Ret x ∧ step_ok t x.
Proof using HL LW.
  intros Hl. unfold handle_wal_tail.
  destruct (plan_fence_candidate _ _) as [candidate|];
    [|eexists; split; [reflexivity|apply to_exit_ok]].
  assert (∃ x, fence_after loaded (replay_batch (seal_replay (claimed_seal (loaded_claimed loaded))))
    listed candidate = Ret x ∧ step_ok t x) as Hafter.
  { unfold fence_after. destruct (bound_takeover_fence _ _) as [fence|] eqn:Hb;
      [|eexists; split; [reflexivity|apply to_exit_ok]].
    apply bound_takeover_fence_Ok in Hb as (-> & Hmax & Hcut & _).
    assert (fence_ok loaded {| fence_batch := candidate |}) by done.
    destruct listed as [tail|]; [|by apply establish_fence_ok].
    destruct (match _ with Some _ => _ | None => _ end); [|by apply establish_fence_ok].
    eexists. split; [reflexivity|]. by split. }
  destruct occupied as [occ|]; [|done]. destruct (coord_leb candidate occ); [|done].
  eexists. split; [reflexivity|apply to_exit_ok].
Qed.

Lemma handle_tail_read_ok t loaded fence tail observed :
  fresh_loaded t loaded → fence_ok loaded fence →
  (∀ w, observed = Some w →
     wal_partition w = seal_partition (claimed_seal (loaded_claimed loaded)) ∧ wal_batch w = tail) →
  ∃ x, handle_tail_read loaded fence tail observed = Ret x ∧ step_ok t x.
Proof using HL LW.
  intros Hl Hf Hw. unfold handle_tail_read. destruct observed as [w|];
    [|eexists; split; [reflexivity|apply to_exit_ok]].
  destruct (Hw w eq_refl) as [Hp Hb]. rewrite !bool_decide_eq_true_2 by done.
  destruct (owner_leb _ _); [eexists; split; [reflexivity|apply refresh_anomaly_ok]|].
  by apply establish_fence_ok.
Qed.

Lemma handle_fence_ok t loaded fence establishment :
  fresh_loaded t loaded → fence_ok loaded fence →
  ∃ x, handle_fence (EstablishingFence loaded fence) establishment = Ret x ∧ step_ok t x.
Proof.
  intros (Hl & Hd & Hw) Hf. unfold handle_fence. eexists. split; [reflexivity|].
  destruct establishment; [|by split|apply to_exit_ok].
  destruct (replay_start _) as [next|] eqn:Hn; [|apply to_exit_ok].
  apply replay_start_Ok in Hn. split; [|by split]. split; simpl; rewrite ?Hw, ?Hd; try done.
  - constructor.
  - rewrite Hn. unfold seal_cut, zlen. simpl. lia.
  - destruct Hf as [Hf _]. unfold seal_cut in Hf. lia.
Qed.

End handlers.

Lemma seqZ_snoc m n : 0 ≤ n → seqZ m (n + 1) = seqZ m n ++ [m + n].
Proof. intros Hn. rewrite seqZ_app by lia. done. Qed.

Lemma handle_replay_read_ok t r observed :
  replay_ok t r →
  (∀ w, observed = Some w →
     wal_partition w = seal_partition (claimed_seal (loaded_claimed (replay_loaded r))) ∧
     wal_batch w = replay_next r) →
  (∀ w, observed = Some w → replay_next r = fence_batch (replay_fence r) →
     w = own_fence (replay_loaded r) (replay_fence r)) →
  ∃ x, handle_replay_read r observed = Ret x ∧
    step_ok (extend_trace (Replaying r) (WalRead observed) t) x.
Proof.
  intros R Hid Hown. unfold handle_replay_read. destruct observed as [w|];
    [|eexists; split; [reflexivity|apply refresh_anomaly_ok]].
  destruct (Hid w eq_refl) as [Hp Hb]. specialize (Hown w eq_refl).
  rewrite !bool_decide_eq_true_2 by done.
  destruct (replay_body_Ret t r w R Hb) as (owner & f & anomaly & Hbody & Hstep).
  destruct R as [[Hc Ht Hbase Hwf] Hf _ Hbs Hn Hle].
  assert ((coord_get ∘ wal_batch <$> trace_wal t ++ [w]) =
    seqZ (seal_cut (claimed_seal (loaded_claimed (replay_loaded r))) + 1)
      (zlen (trace_wal t ++ [w]))) as Hbs'.
  { rewrite fmap_app, Hbs. unfold zlen. rewrite length_app, Nat2Z.inj_add. simpl.
    rewrite seqZ_snoc by lia. rewrite Hb, Hn. unfold zlen. f_equal. f_equal. lia. }
  assert (zlen (trace_wal t ++ [w]) = zlen (trace_wal t) + 1) as Hlen.
  { unfold zlen. rewrite length_app. simpl. lia. }
  case_bool_decide as Hfe.
  - specialize (Hown Hfe). assert (wal_body w = Fence) as -> by (by rewrite Hown).
    assert (wal_owner w = claim_owner (claimed_claim (loaded_claimed (replay_loaded r)))) as Ho
      by (by rewrite Hown).
    rewrite bool_decide_eq_true_2 by done. cbn [andb]. rewrite Hbody.
    cbn [exec_bind]. destruct anomaly as [detail|];
      [eexists; split; [reflexivity|apply refresh_anomaly_ok]|].
    destruct (Hstep eq_refl) as [-> Hrep].
    rewrite Ho in Hrep |- *. rewrite bool_decide_eq_true_2 by done.
    eexists. split; [reflexivity|]. split; [|done]. cbn [to_effect fst state_ok].
    split; simpl; try done.
    + rewrite Hbs', Hlen, <- Hfe, Hn. f_equal. lia.
    + rewrite last_snoc, Hown. done.
  - rewrite Hbody. cbn [exec_bind]. destruct anomaly as [detail|];
      [eexists; split; [reflexivity|apply refresh_anomaly_ok]|].
    destruct (Hstep eq_refl) as [-> Hrep]. eexists. split; [reflexivity|].
    destruct (successor (replay_next r)) as [next|] eqn:Hs; [|apply to_exit_ok].
    apply successor_Ok in Hs. split; [|by split]. split; simpl; try done.
    + rewrite Hlen. lia.
    + rewrite coord_eq_iff in Hfe. lia.
Qed.

(** * Every step keeps the invariant *)

Section safety.
  Context {HP : Heap} {HL : HeapLaws} {RW : Rkyv ArchivedWalObject} {LW : RkyvLaws ArchivedWalObject}
    {RS : Rkyv ArchivedSeal} {LS : RkyvLaws ArchivedSeal}.

Lemma handle_store_failure_ok t state effect error :
  waits_for state effect → ∃ x, handle_store_failure state error = Ret x ∧ step_ok t x.
Proof.
  intros Hw. destruct state; try (by destruct effect); destruct error;
    (eexists; split; [reflexivity|done]).
Qed.

Lemma handle_head_ok t state observed :
  state_ok t state → waits_for state ObserveHead →
  ∃ x, handle_head state observed = Ret x ∧ step_ok t x.
Proof using HL LS.
  intros Hs Hw. destruct state as [|partition| | | | | | | | |claim detail|recovery|]; try done;
    cbn [handle_head].
  - simpl in Hs. subst t. destruct observed as [g|]; [|apply establish_genesis_ok].
    eexists. split; [reflexivity|done].
  - eexists. split; [reflexivity|]. destruct observed; [|apply to_exit_ok].
    destruct (coord_ltb _ _); [apply to_exit_ok|]. case_bool_decide; apply to_exit_ok.
  - eexists. split; [reflexivity|]. destruct observed; [|apply to_exit_ok].
    case_bool_decide; [done|]. destruct (coord_ltb _ _); apply to_exit_ok.
Qed.

Lemma handle_claim_ok t candidate sources publication :
  state_ok t (PublishingClaim candidate sources) →
  ∃ x, handle_claim (PublishingClaim candidate sources) publication = Ret x ∧ step_ok t x.
Proof.
  intros [-> ->]. cbn [handle_claim]. eexists. split; [reflexivity|].
  destruct publication; [|apply to_exit_ok..].
  apply read_next_table_ok; simpl; [done|done| |done]. split; simpl; [done|unfold_bounds; lia|done].
Qed.

(** The answer to the outstanding effect is always handled, and the next step keeps
    the invariant. *)
Lemma bootstrap_step_ok t state effect event :
  step_ok t (state, StepEffect effect) → completes state effect event →
  ∃ state' step, bootstrap_handle (mk_bootstrap (Some state)) event =
      Ret (mk_bootstrap (Some state'), step) ∧
    step_ok (extend_trace state event t) (state', step).
Proof using HL LS LW.
  intros [Hs Hw] Hc. cbn [fst snd] in Hs, Hw.
  assert (∃ x, match event with
    | BootstrapStarted partition =>
        match state with
        | Initial => Ret (to_effect (DiscoveringHead partition) ObserveHead)
        | _ => Panic
        end
    | HeadObserved result => handle_head state result
    | GenesisEstablishedEvent result => handle_genesis state result
    | SealRead result => handle_seal state result
    | ClaimPublished result => handle_claim state result
    | TableRead table decoded => handle_table state table decoded
    | WalTailObserved result => handle_wal_tail state result
    | WalRead result => handle_wal_read state result
    | FenceEstablished result => handle_fence state result
    | StoreFailed error => handle_store_failure state error
    end = Ret x ∧ step_ok (extend_trace state event t) x) as ([state' step] & Hx & Hok).
  2: { exists state', step. split; [|done]. unfold bootstrap_handle.
       cbn [bootstrap_state expect exec_bind]. by rewrite Hx. }
  assert (∀ error, extend_trace state (StoreFailed error) t = t) as Hfail by (by destruct state).
  destruct event as [partition|g|g|seal|p|table decoded|tail|w|e|error]; try (by destruct effect).
  - destruct effect; try done. assert (extend_trace state (HeadObserved g) t = t) as ->
      by (by destruct state). by apply handle_head_ok.
  - destruct effect, state; try done. cbn [handle_genesis]. eexists. split; [reflexivity|].
    destruct g; done.
  - destruct effect, state; try done. simpl in Hw, Hc, Hs. subst. by apply handle_seal_ok.
  - destruct effect, state; try done. by apply handle_claim_ok.
  - destruct effect, state; try done. simpl in Hw. destruct Hc as [-> Hm]. subst.
    by apply handle_table_ok.
  - destruct effect, state; try done. by apply handle_wal_tail_ok.
  - destruct effect, state; try done; destruct Hw as [-> ->], Hc as [Hid Hown].
    + destruct Hs as [Hl Hf]. by apply handle_tail_read_ok.
    + apply handle_replay_read_ok; [done|done|]. eauto.
  - destruct effect, state; try done. destruct Hs as [Hl Hf]. by apply handle_fence_ok.
  - rewrite Hfail. by eapply handle_store_failure_ok.
Qed.

Lemma boot_reach_ok t state step : boot_reach t state step → step_ok t (state, step).
Proof using HL LS LW.
  induction 1 as [partition m state step Hh Hm|t state effect event m state' step _ IH Hc Hh Hm].
  - cbn in Hh. injection Hh as <- <-. injection Hm as <-. done.
  - destruct (bootstrap_step_ok t state effect event IH Hc) as (s' & st' & Hh' & Hok).
    rewrite Hh in Hh'. injection Hh' as -> ->. injection Hm as <-. done.
Qed.

(** What the writer needs of a recovery. *)
Lemma recovered_handoff t r buffer :
  recovered t r → 1 ≤ buffer ≤ WAL_ENCODED_BYTES_MAX → recovery_ok r buffer.
Proof.
  intros R Hb. pose proof (recovered_span _ _ R). split; [by rewrite (recovered_claim _ _ R)|lia..| |].
  - lia.
  - eapply replayed_wf; [apply (recovered_wf _ _ R)|apply (recovered_fold _ _ R)].
Qed.

(** One more answer. *)
Definition boot_next_state (state : BootstrapState) (event : BootstrapEvent) : Transition :=
  match bootstrap_handle (mk_bootstrap (Some state)) event with
  | Ret (mk_bootstrap (Some state'), step) => (state', step)
  | _ => to_exit (ExitRetryable [])
  end.

Lemma boot_advance t x effect event t' y :
  boot_reach t x.1 x.2 → x.2 = StepEffect effect → completes x.1 effect event →
  y = boot_next_state x.1 event → extend_trace x.1 event t = t' → boot_reach t' y.1 y.2.
Proof using HL LS LW.
  intros Hr Hx Hc -> <-. rewrite Hx in Hr.
  destruct (bootstrap_step_ok t x.1 effect event (boot_reach_ok _ _ _ Hr) Hc)
    as (state' & step & Hh & _).
  unfold boot_next_state. rewrite Hh. by eapply boot_next.
Qed.

End safety.

(** * A concrete run *)

(** The first bootstrap of a partition: genesis, claim of generation 2, an empty WAL,
    a FENCE at batch 1, and its replay. *)

#[local] Existing Instances reference_heap reference_heap_laws reference_rkyv_laws.
#[local] Instance boot_wal_rkyv : Rkyv ArchivedWalObject := reference_rkyv ArchivedWalObject.
#[local] Instance boot_seal_rkyv : Rkyv ArchivedSeal := reference_rkyv ArchivedSeal.

Definition genesis_sample : Seal :=
  mk_refined (P := accepts seal_check)
    (mk_seal sample_partition (generation_no 1 I) Genesis tree_empty tree_empty) I.

Definition first_fence : WalObject :=
  mk_wal_object sample_partition (batch_no 1 I) (claim_owner (AuthoredClaim_new (generation_no 2 I)))
    Fence.

Definition b0 : Transition := to_effect (DiscoveringHead sample_partition) ObserveHead.
Definition b1 : Transition := boot_next_state b0.1 (HeadObserved None).
Definition b2 : Transition := boot_next_state b1.1 (GenesisEstablishedEvent GenesisEstablished).
Definition b3 : Transition := boot_next_state b2.1 (SealRead (Some genesis_sample)).
Definition b4 : Transition := boot_next_state b3.1 (ClaimPublished Authored).
Definition b5 : Transition := boot_next_state b4.1 (WalTailObserved None).
Definition b6 : Transition := boot_next_state b5.1 (FenceEstablished WalDurable).
Definition b7 : Transition := boot_next_state b6.1 (WalRead (Some first_fence)).
Definition b8 : Transition := boot_next_state b7.1 (HeadObserved (Some (generation_no 2 I))).

Definition effect_of (x : Transition) : BootstrapEffect :=
  match x.2 with StepEffect effect => effect | _ => ObserveHead end.
Definition recovery_of (x : Transition) : WriterRecovery :=
  match x.2 with StepComplete r => r | _ => sample_recovery end.

(** Answer the outstanding effect of a concrete step. *)
Ltac boot_answer H t x effect event t' y :=
  apply (boot_advance t x effect event t' y H);
  [vm_compute; reflexivity| |reflexivity|vm_compute; reflexivity].

(** The FENCE a replaying state expects. *)
Definition fence_of (state : BootstrapState) : WalObject :=
  match state with
  | Replaying r => own_fence (replay_loaded r) (replay_fence r)
  | _ => first_fence
  end.

Lemma reads_fence state partition batch w :
  wal_partition w = partition → wal_batch w = batch → fence_of state = w →
  completes state (ReadWal partition batch) (WalRead (Some w)).
Proof. intros Hp Hb Hf. split; [naive_solver|]. by intros r w' -> _ [= <-]. Qed.

Lemma b0_reach : boot_reach trace_empty b0.1 b0.2.
Proof. by eapply (boot_start sample_partition). Qed.
Lemma b1_reach : boot_reach trace_empty b1.1 b1.2.
Proof. boot_answer b0_reach trace_empty b0 (effect_of b0) (HeadObserved None) trace_empty b1. exact I. Qed.
Lemma b2_reach : boot_reach trace_empty b2.1 b2.2.
Proof.
  boot_answer b1_reach trace_empty b1 (effect_of b1) (GenesisEstablishedEvent GenesisEstablished) trace_empty b2.
  vm_compute. exact I.
Qed.
Lemma b3_reach : boot_reach trace_empty b3.1 b3.2.
Proof.
  boot_answer b2_reach trace_empty b2 (ReadSeal (generation_no 1 I)) (SealRead (Some genesis_sample))
    trace_empty b3.
  intros seal H. injection H as <-. reflexivity.
Qed.
Lemma b4_reach : boot_reach trace_empty b4.1 b4.2.
Proof.
  boot_answer b3_reach trace_empty b3 (effect_of b3) (ClaimPublished Authored) trace_empty b4.
  vm_compute. exact I.
Qed.
Lemma b5_reach : boot_reach trace_empty b5.1 b5.2.
Proof.
  boot_answer b4_reach trace_empty b4 (effect_of b4) (WalTailObserved None) trace_empty b5.
  vm_compute. exact I.
Qed.
Lemma b6_reach : boot_reach trace_empty b6.1 b6.2.
Proof.
  boot_answer b5_reach trace_empty b5 (effect_of b5) (FenceEstablished WalDurable) trace_empty b6.
  vm_compute. exact I.
Qed.
Lemma b7_reach : boot_reach (mk_trace [] [first_fence]) b7.1 b7.2.
Proof.
  boot_answer b6_reach trace_empty b6 (ReadWal sample_partition (batch_no 1 I))
    (WalRead (Some first_fence)) (mk_trace [] [first_fence]) b7.
  apply reads_fence; [reflexivity|reflexivity|]. vm_compute. reflexivity.
Qed.
Lemma b8_reach : boot_reach (mk_trace [] [first_fence]) b8.1 b8.2.
Proof.
  boot_answer b7_reach (mk_trace [] [first_fence]) b7 (effect_of b7)
    (HeadObserved (Some (generation_no 2 I))) (mk_trace [] [first_fence]) b8.
  vm_compute. exact I.
Qed.

Lemma b8_recovery : b8.2 = StepComplete sample_recovery.
Proof.
  assert (b8.2 = StepComplete (recovery_of b8)) as -> by (vm_compute; reflexivity).
  f_equal. transitivity (mk_recovery (recovery_claim (recovery_of b8)) (recovery_seal (recovery_of b8))
    (recovery_base (recovery_of b8)) (recovery_durable (recovery_of b8))
    (recovery_durable_batch (recovery_of b8))); [by destruct (recovery_of b8)|].
  unfold sample_recovery. f_equal. apply refined_eq. vm_compute. reflexivity.
Qed.

Lemma sample_boot_reach :
  boot_reach (mk_trace [] [first_fence]) b8.1 (StepComplete sample_recovery).
Proof. rewrite <- b8_recovery. apply b8_reach. Qed.

(** * Properties *)

Section boot_properties.
  Context {HP : Heap} {HL : HeapLaws} {RW : Rkyv ArchivedWalObject} {LW : RkyvLaws ArchivedWalObject}
    {RS : Rkyv ArchivedSeal} {LS : RkyvLaws ArchivedSeal} {SL : WalSizeLaw}.

(** An answer of the kind the effect asks for; a table's rows are a checked table, as
    decoding gives them. *)
Definition answers_kind (effect : BootstrapEffect) (event : BootstrapEvent) : Prop :=
  match effect, event with
  | _, StoreFailed _ | ObserveHead, HeadObserved _ | EstablishGenesis _, GenesisEstablishedEvent _
  | ReadSeal _, SealRead _ | PublishClaim _, ClaimPublished _ | ObserveWalTail, WalTailObserved _
  | ReadWal _ _, WalRead _ | EstablishFence _, FenceEstablished _ => True
  | ReadTable _ _, TableRead _ (DecodedDirectory rows) => rows_ok rows
  | ReadTable _ _, TableRead _ (DecodedLedger rows) => rows_ok rows
  | _, _ => False
  end.

(** The answer is for what was asked, and the FENCE this bootstrap established is there. *)
Definition identity_kept (state : BootstrapState) (effect : BootstrapEffect) (event : BootstrapEvent) :
    Prop :=
  match effect, event with
  | ReadSeal generation, SealRead (Some seal) => seal_generation seal = generation
  | ReadTable _ table, TableRead table' (DecodedDirectory _) =>
      table' = table ∧ store (table_object table) = Directory
  | ReadTable _ table, TableRead table' (DecodedLedger _) =>
      table' = table ∧ store (table_object table) = Ledger
  | ReadWal partition batch, WalRead (Some w) =>
      wal_partition w = partition ∧ wal_batch w = batch ∧
      ∀ replay, state = Replaying replay → replay_next replay = fence_batch (replay_fence replay) →
        wal_body w = Fence ∧ wal_owner w = claim_owner (claimed_claim (loaded_claimed (replay_loaded replay)))
  | _, _ => True
  end.

Lemma identity_completes state effect event :
  waits_for state effect → answers_kind effect event → identity_kept state effect event →
  completes state effect event.
Proof.
  intros Hw Hk Hi. destruct effect as [|c|g|c|partition table| |partition batch|c], event as [| | |observed|
    |table' [rows|rows]| |observed| |]; try done.
  - intros seal ->. done.
  - by destruct Hi as [-> Hs].
  - by destruct Hi as [-> Hs].
  - destruct observed as [w|]; [|by split]. destruct Hi as (Hp & Hb & Hf). split.
    { by intros w' [= <-]. }
    intros replay w' -> Hn [= <-]. destruct (Hf replay eq_refl Hn) as [Hbody Hown].
    destruct Hw as [Hwp Hwb]. destruct w as [p b o body]. simpl in *. subst. unfold own_fence.
    by rewrite Hn.
Qed.

Lemma handle_identity state effect event m step :
  waits_for state effect → answers_kind effect event →
  bootstrap_handle (mk_bootstrap (Some state)) event = Ret (m, step) → identity_kept state effect event.
Proof.
  intros Hw Hk. unfold bootstrap_handle. cbn [bootstrap_state expect exec_bind].
  destruct effect as [|c|g|c|partition table| |partition batch|c], event as [| | |[seal|]|
    |table' [rows|rows]| |[w|]| |]; try done; cbn [identity_kept].
  - destruct state; try done. simpl in Hw. subst. unfold handle_seal. by case_bool_decide.
  - destruct state; try done. simpl in Hw. subst. unfold handle_table.
    case_bool_decide; [|done]. by case_bool_decide.
  - destruct state; try done. simpl in Hw. subst. unfold handle_table.
    case_bool_decide; [|done]. by case_bool_decide.
  - destruct state as [| | | | | | |loaded fence tail| |replay| | |]; try done; destruct Hw as [-> ->];
      cbn [handle_wal_read]; unfold handle_tail_read, handle_replay_read.
    + case_bool_decide as Hb; [|done]. case_bool_decide as Hp; [|done]. by intros _.
    + case_bool_decide as Hb; [|done]. case_bool_decide as Hp; [|done].
      destruct (if bool_decide _ then _ else true) eqn:Hf; [|done]. intros _. split_and!; [done|done|].
      intros r [= <-] Hn. rewrite bool_decide_eq_true_2 in Hf by done.
      destruct (wal_body w); [done|]. split; [done|]. by apply bool_decide_eq_true in Hf.
Qed.

(** C15: on what answers bootstrap panics.  In every state the machine can reach, and for
    every answer of the kind the outstanding effect asks for (a hit, a miss, a lost race,
    an unresolved write, a failure; a table with checked rows), the machine returns its
    next step exactly when the answer keeps the identities the code asserts: a Seal of the
    generation asked for, a table that is the one asked for and of its store, a WAL object
    of the partition and coordinate asked for, and at the coordinate of its own FENCE that
    FENCE.  On every other answer of that kind it panics.  No overflow, no index, no other
    [expect] of the machine can panic; and the stores of the engine keep these identities
    ([bootstrap_executes]). *)
Theorem bootstrap_panics_exactly (t : Trace) (state : BootstrapState) (effect : BootstrapEffect)
    (event : BootstrapEvent) :
  boot_reach t state (StepEffect effect) → answers_kind effect event →
  (identity_kept state effect event →
     ∃ state' step, bootstrap_handle (mk_bootstrap (Some state)) event =
       Ret (mk_bootstrap (Some state'), step)) ∧
  (¬ identity_kept state effect event → bootstrap_handle (mk_bootstrap (Some state)) event = Panic).
Proof using HL LS LW.
  intros Hr Hk. pose proof (boot_reach_ok _ _ _ Hr) as Hok. pose proof Hok as [_ Hw]. simpl in Hw. split.
  - intros Hi. destruct (bootstrap_step_ok t state effect event Hok) as (s & st & H & _); [|by eauto].
    by apply identity_completes.
  - intros Hi. destruct (bootstrap_handle _ event) as [[m step]|] eqn:Hh; [|done].
    by destruct (Hi (handle_identity state effect event m step Hw Hk Hh)).
Qed.

(** C14: a completed bootstrap has recovered the partition.  The tables it read are
    those the claimed Seal names, in order; the base forest is their fold and is well
    formed; the WAL objects it read are consecutive from the Seal's cut through its own
    FENCE; and the durable forest is the base followed by every RUN of that suffix
    under the owner discipline. *)
Theorem bootstrap_recovers (t : Trace) (state : BootstrapState) (recovery : WriterRecovery) :
  boot_reach t state (StepComplete recovery) → recovered t recovery.
Proof using HL LS LW. intros Hr. apply (boot_reach_ok _ _ _ Hr). Qed.

(** Bootstrap hands over to the writer.  From a completed bootstrap, with a
    configured flush buffer in range, the writer starts, and no state it can reach
    panics on any observation. *)
Theorem bootstrap_handoff (t : Trace) (state : BootstrapState) (recovery : WriterRecovery)
    (interval buffer : Z) :
  boot_reach t state (StepComplete recovery) → 1 ≤ buffer ≤ WAL_ENCODED_BYTES_MAX →
  (∃ s, sys_init recovery interval buffer = Ret s) ∧
  ∀ s s1 now event, reachable recovery interval buffer s →
    w_checkpoint_attempt (s_machine s) < u64_max → observes s event s1 →
    ∃ s' exit, react s1 now event = Ret (s', exit).
Proof using HL LS LW SL.
  intros Hr Hb. destruct (boot_reach_ok _ _ _ Hr) as [_ R].
  apply recovered_handoff with (buffer := buffer) in R; [|done].
  split.
  - destruct (sys_init_ok recovery interval buffer R) as (s & Hs & _). eauto.
  - intros s s1 now event Hs Hatt Ho.
    destruct (react_ok recovery s now event s1) as (s' & exit & Hx & _); eauto using reachable_inv.
Qed.

End boot_properties.

#[local] Existing Instance sample_size_law.

Lemma keeps_fence state partition batch w :
  wal_partition w = partition → wal_batch w = batch → wal_body w = Fence → fence_of state = w →
  identity_kept state (ReadWal partition batch) (WalRead (Some w)).
Proof. intros Hp Hb Hf Hw. split_and!; [done..|]. intros r -> _. by split; [|rewrite <- Hw]. Qed.

(** The FENCE reads back, and a RUN in its place would be refused by a panic. *)
Lemma bootstrap_panics_exactly_witness :
  (∃ state' step, bootstrap_handle (mk_bootstrap (Some b6.1)) (WalRead (Some first_fence)) =
     Ret (mk_bootstrap (Some state'), step)) ∧
  bootstrap_handle (mk_bootstrap (Some b6.1)) (WalRead (Some sample_run)) = Panic.
Proof.
  assert (boot_reach trace_empty b6.1 (StepEffect (ReadWal sample_partition (batch_no 1 I)))) as R.
  { assert (b6.2 = StepEffect (ReadWal sample_partition (batch_no 1 I))) as <-
      by (vm_compute; reflexivity).
    apply b6_reach. }
  split.
  - apply (bootstrap_panics_exactly trace_empty b6.1 (ReadWal sample_partition (batch_no 1 I)) _ R);
      [exact I|]. apply keeps_fence; [reflexivity..|]. vm_compute. reflexivity.
  - apply (bootstrap_panics_exactly trace_empty b6.1 (ReadWal sample_partition (batch_no 1 I)) _ R);
      [exact I|]. intros (_ & Hb & _). discriminate Hb.
Defined.

Lemma bootstrap_recovers_witness : recovered (mk_trace [] [first_fence]) sample_recovery.
Proof. apply (bootstrap_recovers _ b8.1), sample_boot_reach. Defined.

Lemma bootstrap_handoff_witness :
  (∃ s, sys_init sample_recovery 0 4096 = Ret s) ∧
  ∀ s s1 now event, reachable sample_recovery 0 4096 s →
    w_checkpoint_attempt (s_machine s) < u64_max → observes s event s1 →
    ∃ s' exit, react s1 now event = Ret (s', exit).
Proof.
  apply (bootstrap_handoff (mk_trace [] [first_fence]) b8.1 sample_recovery 0 4096).
  - apply sample_boot_reach.
  - unfold_bounds. lia.
Defined.
