(* ===== verification/Recovery.v ===== *)
(** Crash recovery: what a restarted partition remembers.

    A writer runs from one bootstrap and stops at any point; a later bootstrap takes
    the partition over.  The file composes the bootstrap and writer theorems: the
    forest the second bootstrap recovers extends the last view the first writer
    published, so every positive reply stays true.  The store's part is that WAL
    objects are written once and read back as written; the checkpoint's part is that
    the base of a Seal is the fold of the history to its cut. *)

From S2P Require Import Prelude OrdMap Text Domain Coordinates Partition Seal Wal Forest.
From S2P Require Import ForestTheory Archive Spelling Sst Writer WriterSafety WriterSystem.
From S2P Require Import Bootstrap BootstrapSafety.

(** * The replay discipline, step by step *)

Definition replay_step (w : WalObject) (o : option OwnerToken) (f : Forest)
    (o' : option OwnerToken) (f' : Forest) : Prop :=
  o' = Some (wal_owner w) ∧
  match wal_body w with
  | Fence => f' = f ∧
      ∀ c, o = Some c → coord_get (generation c) < coord_get (generation (wal_owner w))
  | Run facts => o = Some (wal_owner w) ∧ facts_applied (wal_batch w) f (facts_slice facts) f'
  end.

Lemma replayed_snoc o f ws w o' f' :
  replayed o f (ws ++ [w]) o' f' ↔
  ∃ o1 f1, replayed o f ws o1 f1 ∧ replay_step w o1 f1 o' f'.
Proof.
  unfold replay_step. split.
  - intros H. remember (ws ++ [w]) as l eqn:Hl.
    destruct H as [|ws' w' o1 f1 Hr Hb Hc|ws' w' facts f1 f2 Hr Hb Hf].
    + symmetry in Hl. by apply app_nil in Hl as [_ ?].
    + apply app_inj_tail in Hl as [-> ->]. rewrite Hb. eauto 10.
    + apply app_inj_tail in Hl as [-> ->]. rewrite Hb. eauto 10.
  - intros (o1 & f1 & Hr & -> & Hb). destruct (wal_body w) as [facts|] eqn:Hw.
    + destruct Hb as [-> Hf]. by eapply replayed_run.
    + destruct Hb as [-> Hc]. by eapply replayed_fence.
Qed.

Lemma replayed_nil_inv o f o' f' : replayed o f [] o' f' → o' = o ∧ f' = f.
Proof.
  intros H. remember [] as l eqn:Hl. destruct H; [done|by apply app_nil in Hl as [_ ?]..].
Qed.

Lemma replay_step_det w o f o1 f1 o2 f2 :
  forest_wf f → replay_step w o f o1 f1 → replay_step w o f o2 f2 → o1 = o2 ∧ f1 = f2.
Proof.
  unfold replay_step. intros Hwf [-> H1] [-> H2]. split; [done|].
  destruct (wal_body w); [|naive_solver]. destruct H1, H2. by eapply facts_applied_det.
Qed.

Lemma replayed_det o f ws o1 f1 o2 f2 :
  forest_wf f → replayed o f ws o1 f1 → replayed o f ws o2 f2 → o1 = o2 ∧ f1 = f2.
Proof.
  intros Hwf. revert o1 f1 o2 f2.
  induction ws as [|w ws IH] using rev_ind; intros o1 f1 o2 f2 H1 H2.
  - apply replayed_nil_inv in H1, H2. naive_solver.
  - apply replayed_snoc in H1 as (p1 & g1 & R1 & S1).
    apply replayed_snoc in H2 as (p2 & g2 & R2 & S2).
    destruct (IH _ _ _ _ R1 R2) as [-> ->]. eapply replay_step_det; [|done..].
    by eapply replayed_wf.
Qed.

Lemma replayed_app o f ws1 ws2 o' f' :
  replayed o f (ws1 ++ ws2) o' f' ↔
  ∃ o1 f1, replayed o f ws1 o1 f1 ∧ replayed o1 f1 ws2 o' f'.
Proof.
  revert o' f'. induction ws2 as [|w ws2 IH] using rev_ind; intros o' f'.
  - rewrite (right_id_L [] (++)). split.
    + intros H. exists o', f'. split; [done|constructor].
    + intros (o1 & f1 & H & [-> ->]%replayed_nil_inv). done.
  - rewrite (assoc_L (++)), replayed_snoc. setoid_rewrite IH. setoid_rewrite replayed_snoc.
    naive_solver.
Qed.

(** Every owner of the replayed objects is at most the last one. *)
Lemma replayed_owners o f ws o' f' :
  replayed o f ws o' f' →
  ∀ w, w ∈ ws → ∃ c, o' = Some c ∧ coord_get (generation (wal_owner w)) ≤ coord_get (generation c).
Proof.
  induction 1 as [|ws w1 o1 f1 Hr IH Hb Hc|ws w1 facts f1 f2 Hr IH Hb Hf]; intros w.
  - by intros ?%not_elem_of_nil.
  - rewrite elem_of_app, list_elem_of_singleton. intros [Hw| ->]; [|by eexists].
    destruct (IH w Hw) as (c & -> & Hle). eexists. split; [done|].
    specialize (Hc c eq_refl). lia.
  - rewrite elem_of_app, list_elem_of_singleton. intros [Hw| ->]; [|by eexists].
    by destruct (IH w Hw) as (c & [= <-] & Hle); eexists.
Qed.

(** A promise kept by a forest is kept by every replay over it. *)
Lemma promise_replayed envelope c o f ws o' f' :
  forest_wf f → replayed o f ws o' f' → promise envelope c f → promise envelope c f'.
Proof.
  intros Hwf H. induction H as [|ws w o1 f1 Hr IH|ws w facts f1 f2 Hr IH Hb Hf]; [done|done|].
  intros Hp. eapply promise_facts; [by eapply replayed_wf|done|by apply IH].
Qed.

(** * The durable WAL of a writer, read back *)

Section crash.
  Context {J : Jiff} {HP : Heap} {HL : HeapLaws}.
  Context {RW : Rkyv ArchivedWalObject} {LW : RkyvLaws ArchivedWalObject} {SL : WalSizeLaw}.
  Context {RS : Rkyv ArchivedSeal} {LS : RkyvLaws ArchivedSeal}.

(** The objects the durable candidates decode to, at their own coordinates. *)
Definition reads_back (candidates : list EncodedWal) (ws : list WalObject) : Prop :=
  Forall2 (λ c w, decode_wal (encoded_wal_partition c) (encoded_wal_batch c)
    (encoded_wal_bytes c) = Ret (Ok w)) candidates ws.

(** A WAL coordinate is written once: two readings of one coordinate agree. *)
Definition immutable (ws ws' : list WalObject) : Prop :=
  ∀ w w', w ∈ ws → w' ∈ ws' → wal_batch w = wal_batch w' → w = w'.

(** The base of the later Seal is the fold of the history up to its cut, under the
    owner its replay point names. *)
Definition base_covers (history : list WalObject) (r r' : WriterRecovery) : Prop :=
  ∃ prefix suffix, history = prefix ++ suffix ∧
    zlen prefix = seal_cut (recovery_seal r') - seal_cut (recovery_seal r) ∧
    replayed (replay_owner (seal_replay (recovery_seal r))) (recovery_base r) prefix
      (replay_owner (seal_replay (recovery_seal r'))) (recovery_base r').

Lemma runs_replayed r candidates log ws f f' :
  Forall2 (run_candidate r) candidates log → reads_back candidates ws → log_applied f log f' →
  replayed (Some (claim_owner (recovery_claim r))) f ws (Some (claim_owner (recovery_claim r))) f' ∧
  (coord_get ∘ wal_batch <$> ws) = coord_get <$> log.*1.
Proof using LW.
  intros Hc. revert ws f f'.
  induction Hc as [|c [batch facts] candidates log (wf & Hs & ->) Hc IH]; intros ws f f' Hw Hl.
  - apply Forall2_nil_inv_l in Hw as ->. inversion Hl; subst. split; [constructor|done].
  - apply Forall2_cons_inv_l in Hw as (w & ws' & Hd & Hw & ->). cbn in Hd.
    apply decode_wal_own in Hd as ->. inversion Hl as [|? ? ? f1 ? ? Hf Hl']; subst.
    destruct (IH ws' f1 f' Hw Hl') as [Hr Hb]. csimpl. rewrite Hb. split; [|done].
    match goal with |- replayed _ _ (?w :: _) _ _ => change (w :: ws') with ([w] ++ ws') end.
    apply replayed_app. exists (Some (claim_owner (recovery_claim r))), f1.
    split; [|done]. apply (replayed_snoc _ _ []).
    exists (Some (claim_owner (recovery_claim r))), f. split; [constructor|].
    split; [done|]. split; [done|]. cbn [wal_batch]. by rewrite Hs.
Qed.

(** ** Positions *)

Lemma batch_at ws first n i w :
  (coord_get ∘ wal_batch <$> ws) = seqZ first n → ws !! i = Some w →
  coord_get (wal_batch w) = first + Z.of_nat i.
Proof.
  intros Hb Hi. assert ((coord_get ∘ wal_batch <$> ws) !! i = Some (coord_get (wal_batch w))) as Hx.
  { by rewrite list_lookup_fmap, Hi. }
  rewrite Hb in Hx. apply lookup_seqZ in Hx. lia.
Qed.

(** The history from a coordinate on is what was read, as far as both go. *)
Lemma history_read history ws first k :
  (coord_get ∘ wal_batch <$> history) = seqZ first (zlen history) →
  (coord_get ∘ wal_batch <$> ws) = seqZ (first + Z.of_nat k) (zlen ws) →
  immutable history ws → (length history ≤ k + length ws)%nat →
  take (length history - k) ws = drop k history.
Proof.
  intros Hh Hw Him Hlen. apply list_eq. intros i. rewrite lookup_drop.
  destruct (decide (i < length history - k)%nat) as [Hi|Hi].
  2: { rewrite lookup_take_ge by lia. symmetry. apply lookup_ge_None. lia. }
  rewrite lookup_take_lt by lia.
  destruct (lookup_lt_is_Some_2 ws i ltac:(lia)) as [w' Hw'].
  destruct (lookup_lt_is_Some_2 history (k + i)%nat ltac:(lia)) as [w Hx].
  rewrite Hx, Hw'. f_equal. symmetry. apply Him; [by eapply list_elem_of_lookup_2..|].
  apply coord_get_inj. rewrite (batch_at _ _ _ _ _ Hh Hx), (batch_at _ _ _ _ _ Hw Hw'). lia.
Qed.

(** The second bootstrap read past the whole history: its own FENCE, of a later
    owner, is the last object it read and cannot be one of the history. *)
Lemma read_past history ws first k o f c f' fence :
  (coord_get ∘ wal_batch <$> history) = seqZ first (zlen history) →
  (coord_get ∘ wal_batch <$> ws) = seqZ (first + Z.of_nat k) (zlen ws) →
  immutable history ws → replayed o f history (Some c) f' →
  last ws = Some fence → coord_get (generation c) < coord_get (generation (wal_owner fence)) →
  (length history ≤ k + length ws)%nat.
Proof.
  intros Hh Hw Him Hr Hlast Hc. destruct (decide (length history ≤ k + length ws)%nat) as [|Hn];
    [done|exfalso].
  rewrite last_lookup in Hlast.
  destruct (lookup_lt_is_Some_2 history (k + Nat.pred (length ws))%nat ltac:(lia)) as [w Hx].
  assert (w = fence) as ->.
  { apply Him; [by eapply list_elem_of_lookup_2..|]. apply coord_get_inj.
    rewrite (batch_at _ _ _ _ _ Hh Hx), (batch_at _ _ _ _ _ Hw Hlast). lia. }
  destruct (replayed_owners _ _ _ _ _ Hr fence) as (c' & [= <-] & Hle);
    [by eapply list_elem_of_lookup_2|lia].
Qed.

(** The whole history of a run: what its bootstrap replayed, then what it wrote. *)
Lemma history_replayed t r interval buffer s ws :
  recovered t r → 1 ≤ buffer ≤ WAL_ENCODED_BYTES_MAX → reachable r interval buffer s →
  reads_back (s_wal s) ws →
  replayed (replay_owner (seal_replay (recovery_seal r))) (recovery_base r) (trace_wal t ++ ws)
    (Some (claim_owner (recovery_claim r))) (i_view (s_interp s)) ∧
  (coord_get ∘ wal_batch <$> trace_wal t ++ ws) =
    seqZ (seal_cut (recovery_seal r) + 1) (zlen (trace_wal t ++ ws)).
Proof using HL LW SL.
  intros R Hb Hs Hw.
  destruct (reachable_inv _ _ _ _ (recovered_handoff _ _ _ R Hb) Hs) as [_ Li _].
  destruct (li_log _ _ _ _ _ Li) as (log & [Ho Hf Hc _]). rewrite (li_view _ _ _ _ _ Li).
  destruct (runs_replayed r (s_wal s) log ws _ _ Ho Hw Hf) as [Hr Hbs]. split.
  - apply replayed_app. eexists _, _. split; [apply (recovered_fold _ _ R)|done].
  - pose proof (recovered_batches _ _ R) as Ht. pose proof (recovered_span _ _ R).
    assert (zlen (trace_wal t) =
      coord_get (recovery_durable_batch r) - seal_cut (recovery_seal r)) as Hn.
    { apply (f_equal length) in Ht. rewrite length_fmap, length_seqZ in Ht. unfold zlen. lia. }
    assert (zlen ws = zlen log) as Hn'.
    { unfold zlen. by rewrite <- (Forall2_length _ _ _ Hw), (Forall2_length _ _ _ Ho). }
    rewrite fmap_app, Ht, Hbs, Hc. unfold zlen at 2. rewrite length_app, Nat2Z.inj_add.
    change (Z.of_nat (length (trace_wal t))) with (zlen (trace_wal t)).
    change (Z.of_nat (length ws)) with (zlen ws). rewrite Hn, Hn'.
    rewrite seqZ_app by (unfold zlen in *; lia). do 2 f_equal. lia.
Qed.

Lemma recovered_owner t r :
  recovered t r → generation (claim_owner (recovery_claim r)) = claim_generation (recovery_claim r).
Proof. intros R. by rewrite (recovered_claim _ _ R). Qed.

(** What the later bootstrap recovers is a replay over the last published view. *)
Lemma recovered_extends t r interval buffer s ws t' r' :
  recovered t r → 1 ≤ buffer ≤ WAL_ENCODED_BYTES_MAX → reachable r interval buffer s →
  recovered t' r' →
  coord_get (claim_generation (recovery_claim r)) < coord_get (claim_generation (recovery_claim r')) →
  reads_back (s_wal s) ws → immutable (trace_wal t ++ ws) (trace_wal t') →
  base_covers (trace_wal t ++ ws) r r' →
  ∃ rest, replayed (Some (claim_owner (recovery_claim r))) (i_view (s_interp s)) rest
    (Some (claim_owner (recovery_claim r'))) (recovery_durable r').
Proof using HL LW SL.
  intros R Hb Hs R' Hgen Hw Him (prefix & suffix & Hsplit & Hlen & Hpre).
  destruct (history_replayed _ _ _ _ _ _ R Hb Hs Hw) as [Hhist Hbs]. rewrite Hsplit in *.
  pose proof (recovered_batches _ _ R') as Hbs'. pose proof (recovered_span _ _ R').
  assert (zlen (trace_wal t') =
    coord_get (recovery_durable_batch r') - seal_cut (recovery_seal r')) as Hn'.
  { apply (f_equal length) in Hbs'. rewrite length_fmap, length_seqZ in Hbs'. unfold zlen. lia. }
  rewrite <- Hn' in Hbs'.
  replace (seal_cut (recovery_seal r') + 1)
    with (seal_cut (recovery_seal r) + 1 + Z.of_nat (length prefix)) in Hbs'
    by (unfold zlen in Hlen; lia).
  rewrite <- (recovered_owner _ _ R), <- (recovered_owner _ _ R') in Hgen.
  pose proof (read_past _ _ _ _ _ _ _ _ _ Hbs Hbs' Him Hhist (recovered_fence _ _ R') Hgen) as Hpast.
  pose proof (history_read _ _ _ _ Hbs Hbs' Him Hpast) as Hread. rewrite drop_app_length in Hread.
  apply replayed_app in Hhist as (o1 & f1 & H1 & H2).
  destruct (replayed_det _ _ _ _ _ _ _ (recovered_wf _ _ R) H1 Hpre) as [-> ->].
  pose proof (recovered_fold _ _ R') as Hfold.
  rewrite <- (take_drop (length (prefix ++ suffix) - length prefix) (trace_wal t')), Hread in Hfold.
  apply replayed_app in Hfold as (o2 & f2 & H3 & H4).
  destruct (replayed_det _ _ _ _ _ _ _ (recovered_wf _ _ R') H2 H3) as [<- <-]. eauto.
Qed.

(** C3: no acknowledged work is lost in a crash.  A partition runs from a completed
    bootstrap, stops in any reachable state, and is taken over by a later claim.  Given
    that WAL coordinates are written once and read back as written, and that the later
    Seal's base is the fold of the history to its cut, the forest the second bootstrap
    recovers is a replay over the last published view, and every positive reply ever
    sent is still true in it. *)
Theorem crash_recovery (t t' : Trace) (state state' : BootstrapState) (r r' : WriterRecovery)
    (interval buffer : Z) (s : System) (ws : list WalObject) :
  boot_reach t state (StepComplete r) → 1 ≤ buffer ≤ WAL_ENCODED_BYTES_MAX →
  reachable r interval buffer s → boot_reach t' state' (StepComplete r') →
  coord_get (claim_generation (recovery_claim r)) < coord_get (claim_generation (recovery_claim r')) →
  reads_back (s_wal s) ws → immutable (trace_wal t ++ ws) (trace_wal t') →
  base_covers (trace_wal t ++ ws) r r' →
  (∃ rest, replayed (Some (claim_owner (recovery_claim r))) (i_view (s_interp s)) rest
    (Some (claim_owner (recovery_claim r'))) (recovery_durable r')) ∧
  ∀ c, c ∈ i_sent (s_interp s) →
    ∃ envelope, envelope ∈ s_received s ∧ promise envelope c (recovery_durable r').
Proof using HL LS LW SL.
  intros Hr Hb Hs Hr' Hgen Hw Him Hcov.
  destruct (boot_reach_ok _ _ _ Hr) as [_ R], (boot_reach_ok _ _ _ Hr') as [_ R'].
  destruct (recovered_extends t r interval buffer s ws t' r') as [rest Hrest]; [done..|].
  split; [by exists rest|]. intros c Hc.
  destruct (reachable_inv _ _ _ _ (recovered_handoff _ _ _ R Hb) Hs) as [I Li _].
  destruct (li_sent _ _ _ _ _ Li c Hc) as (e & He & Hp). exists e. split; [done|].
  rewrite (li_view _ _ _ _ _ Li) in Hrest.
  eapply promise_replayed; [|done|done]. apply (inv_core _ I).
Qed.

End crash.

(** * A concrete restart *)

(** The partition of the sample run is taken over: the second bootstrap claims
    generation 3, finds the RUN at the tail, fences at batch 3 and replays all three
    objects. *)

#[local] Existing Instances reference_heap reference_heap_laws reference_rkyv_laws reference_jiff.
#[local] Existing Instance sample_size_law.
#[local] Instance crash_wal_rkyv : Rkyv ArchivedWalObject := reference_rkyv ArchivedWalObject.
#[local] Instance crash_seal_rkyv : Rkyv ArchivedSeal := reference_rkyv ArchivedSeal.

Definition first_run : WalObject :=
  match s_wal sample_s3 with
  | [c] =>
      match decode_wal (encoded_wal_partition c) (encoded_wal_batch c) (encoded_wal_bytes c) with
      | Ret (Ok w) => w
      | _ => first_fence
      end
  | _ => first_fence
  end.

Definition second_fence : WalObject :=
  mk_wal_object sample_partition (batch_no 3 I) (claim_owner (AuthoredClaim_new (generation_no 3 I)))
    Fence.

Definition c1 : Transition := boot_next_state b0.1 (HeadObserved (Some (generation_no 2 I))).
Definition c2 : Transition := boot_next_state c1.1 (SealRead (Some sample_claim_seal)).
Definition c3 : Transition := boot_next_state c2.1 (ClaimPublished Authored).
Definition c4 : Transition := boot_next_state c3.1 (WalTailObserved (Some (batch_no 2 I))).
Definition c5 : Transition := boot_next_state c4.1 (WalRead (Some first_run)).
Definition c6 : Transition := boot_next_state c5.1 (FenceEstablished WalDurable).
Definition c7 : Transition := boot_next_state c6.1 (WalRead (Some first_fence)).
Definition c8 : Transition := boot_next_state c7.1 (WalRead (Some first_run)).
Definition c9 : Transition := boot_next_state c8.1 (WalRead (Some second_fence)).
Definition c10 : Transition := boot_next_state c9.1 (HeadObserved (Some (generation_no 3 I))).

Definition restart_trace : Trace := mk_trace [] [first_fence; first_run; second_fence].
Definition restart_recovery : WriterRecovery := recovery_of c10.

(** A read of a coordinate other than the expected FENCE. *)
Definition at_fence (state : BootstrapState) : bool :=
  match state with
  | Replaying r => bool_decide (replay_next r = fence_batch (replay_fence r))
  | _ => false
  end.

Lemma reads_other state partition batch w :
  wal_partition w = partition → wal_batch w = batch → at_fence state = false →
  completes state (ReadWal partition batch) (WalRead (Some w)).
Proof.
  intros Hp Hb Hf. split; [naive_solver|]. intros r w' -> Hn. cbn in Hf.
  by rewrite bool_decide_eq_true_2 in Hf.
Qed.

Lemma c1_reach : boot_reach trace_empty c1.1 c1.2.
Proof.
  boot_answer b0_reach trace_empty b0 (effect_of b0) (HeadObserved (Some (generation_no 2 I)))
    trace_empty c1. exact I.
Qed.
Lemma c2_reach : boot_reach trace_empty c2.1 c2.2.
Proof.
  boot_answer c1_reach trace_empty c1 (ReadSeal (generation_no 2 I))
    (SealRead (Some sample_claim_seal)) trace_empty c2.
  intros seal H. injection H as <-. reflexivity.
Qed.
Lemma c3_reach : boot_reach trace_empty c3.1 c3.2.
Proof.
  boot_answer c2_reach trace_empty c2 (effect_of c2) (ClaimPublished Authored) trace_empty c3.
  vm_compute. exact I.
Qed.
Lemma c4_reach : boot_reach trace_empty c4.1 c4.2.
Proof.
  boot_answer c3_reach trace_empty c3 (effect_of c3) (WalTailObserved (Some (batch_no 2 I)))
    trace_empty c4. vm_compute. exact I.
Qed.
Lemma c5_reach : boot_reach trace_empty c5.1 c5.2.
Proof.
  boot_answer c4_reach trace_empty c4 (ReadWal sample_partition (batch_no 2 I))
    (WalRead (Some first_run)) trace_empty c5.
  apply reads_other; vm_compute; reflexivity.
Qed.
Lemma c6_reach : boot_reach trace_empty c6.1 c6.2.
Proof.
  boot_answer c5_reach trace_empty c5 (effect_of c5) (FenceEstablished WalDurable) trace_empty c6.
  vm_compute. exact I.
Qed.
Lemma c7_reach : boot_reach (mk_trace [] [first_fence]) c7.1 c7.2.
Proof.
  boot_answer c6_reach trace_empty c6 (ReadWal sample_partition (batch_no 1 I))
    (WalRead (Some first_fence)) (mk_trace [] [first_fence]) c7.
  apply reads_other; vm_compute; reflexivity.
Qed.
Lemma c8_reach : boot_reach (mk_trace [] [first_fence; first_run]) c8.1 c8.2.
Proof.
  boot_answer c7_reach (mk_trace [] [first_fence]) c7 (ReadWal sample_partition (batch_no 2 I))
    (WalRead (Some first_run)) (mk_trace [] [first_fence; first_run]) c8.
  apply reads_other; vm_compute; reflexivity.
Qed.
Lemma c9_reach : boot_reach restart_trace c9.1 c9.2.
Proof.
  boot_answer c8_reach (mk_trace [] [first_fence; first_run]) c8
    (ReadWal sample_partition (batch_no 3 I)) (WalRead (Some second_fence)) restart_trace c9.
  apply reads_fence; vm_compute; reflexivity.
Qed.
Definition completed (x : Transition) : bool :=
  match x.2 with StepComplete _ => true | _ => false end.

Lemma completed_recovery x : completed x = true → x.2 = StepComplete (recovery_of x).
Proof. unfold completed, recovery_of. by destruct x.2. Qed.

Lemma c10_reach : boot_reach restart_trace c10.1 (StepComplete restart_recovery).
Proof.
  assert (c10.2 = StepComplete restart_recovery) as <-
    by (apply completed_recovery; vm_compute; reflexivity).
  boot_answer c9_reach restart_trace c9 (effect_of c9) (HeadObserved (Some (generation_no 3 I)))
    restart_trace c10. vm_compute. exact I.
Qed.

Lemma immutable_subset ws ws' :
  ws ⊆ ws' → NoDup (wal_batch <$> ws') → immutable ws ws'.
Proof.
  intros Hs Hn w w' Hw%Hs Hw' Hb.
  apply list_elem_of_lookup in Hw as [i Hi], Hw' as [j Hj].
  assert (i = j) as ->; [|congruence].
  eapply (NoDup_lookup _ i j (wal_batch w) Hn); rewrite list_lookup_fmap, ?Hi, ?Hj; [done|].
  simpl. by rewrite Hb.
Qed.

Lemma sample_reads_back : reads_back (s_wal sample_s3) [first_run].
Proof.
  assert (length (s_wal sample_s3) = 1%nat) as Hl by (vm_compute; reflexivity).
  unfold reads_back, first_run. destruct (s_wal sample_s3) as [|c [|]] eqn:Hs; [done| |done].
  constructor; [|constructor].
  assert (match s_wal sample_s3 with
    | [c] => succeeds (decode_wal (encoded_wal_partition c) (encoded_wal_batch c)
        (encoded_wal_bytes c))
    | _ => false end = true) as Hd by (vm_compute; reflexivity).
  rewrite Hs in Hd. by destruct (decode_wal _ _ _) as [[w|]|].
Qed.

Lemma crash_recovery_witness :
  CompletionCreate (Ok Created) 7 ∈ i_sent (s_interp sample_s3) ∧
  ((∃ rest, replayed (Some (claim_owner (recovery_claim sample_recovery)))
    (i_view (s_interp sample_s3)) rest
    (Some (claim_owner (recovery_claim restart_recovery))) (recovery_durable restart_recovery)) ∧
  ∀ c, c ∈ i_sent (s_interp sample_s3) →
    ∃ envelope, envelope ∈ s_received sample_s3 ∧
      promise envelope c (recovery_durable restart_recovery)).
Proof.
  split.
  - assert (i_sent (s_interp sample_s3) = [CompletionCreate (Ok Created) 7]) as ->
      by (vm_compute; reflexivity). by left.
  - apply (crash_recovery (mk_trace [] [first_fence]) restart_trace b8.1 c10.1 sample_recovery
      restart_recovery 0 4096 sample_s3 [first_run]).
    + apply sample_boot_reach.
    + unfold_bounds. lia.
    + apply sample_s3_reachable.
    + apply c10_reach.
    + vm_compute. reflexivity.
    + apply sample_reads_back.
    + apply immutable_subset; [intros w; cbn; rewrite !elem_of_cons; tauto|].
      apply (bool_decide_unpack (NoDup (wal_batch <$> trace_wal restart_trace))).
      vm_compute. exact I.
    + exists [], [first_fence; first_run]. split; [done|]. split; [vm_compute; reflexivity|].
      assert (replay_owner (seal_replay (recovery_seal restart_recovery)) = None) as ->
        by (vm_compute; reflexivity).
      assert (recovery_base restart_recovery = forest_empty) as -> by (vm_compute; reflexivity).
      apply replayed_nil.
Defined.
