(* ===== verification/ObjectStore.v ===== *)
(** The raw object-store adapter (crate [strom-object-store]).

    Keys, bodies, bounds and validators with their constructors, the evidence a
    conditional create yields, and the four operations of the adapter.  The backend
    (the [object_store] crate over a bucket) is the class [Backend]: its world and its
    four requests.  [BackendLaws] states what such a store promises of each request:
    a create succeeds only on an absent key, an ambiguous failure may or may not have
    taken effect, a read and a listing change nothing.  Other actors, and requests
    whose outcome was lost, act around every request within the relation [env]; the
    theorems say what was true at some point of an operation, and what stays true when
    [env] keeps it.

    A store may have more state than its contents: requests under way, and actors whose
    next moves depend on what they did before.  [StoreState] and [StateLaws] state the same
    promises over such a state; [BackendLaws] is the case where the contents are all
    ([plain_state], [plain_laws]), and the operations are proved once, over the former. *)

From S2P Require Import Prelude OrdMap Text.

(** * Bounds *)

(** strom-object-store/src/bounds.rs:3-4, [KEY_BYTES_MAX]. *)
Definition KEY_BYTES_MAX : Z := 1024.
(** strom-object-store/src/bounds.rs:6-7, [LIST_KEYS_MAX]. *)
Definition LIST_KEYS_MAX : Z := 1000.
(** strom-object-store/src/bounds.rs:9-11, [PUT_BYTES_MAX]. *)
Definition PUT_BYTES_MAX : Z := 5 * 1024 * 1024 * 1024.

(** * Keys *)

(** strom-object-store/src/key.rs:88-101, [ObjectKeyError]. *)
Inductive ObjectKeyError : Type :=
| KeyEmpty
| KeyTooLong (bytes_actual : Z)
| KeyForbiddenCharacter (character : char)
| KeyEmptySegment
| KeyRelativeSegment.

#[export] Instance ObjectKeyError_eq_dec : EqDecision ObjectKeyError.
Proof. solve_decision. Defined.

(** strom-object-store/src/key.rs:82-86, [is_key_character]. *)
Definition is_key_character (character : char) : bool :=
  is_ascii_lowercase character || is_ascii_digit character
  || bool_decide (character ∈ [45; 95; 46]).

(** strom-object-store/src/key.rs:48-61, [ObjectKey::try_from (segments)]. *)
Fixpoint key_segments (segments : list str) : Result ObjectKeyError unit :=
  match segments with
  | [] => Ok tt
  | segment :: segments =>
      if bool_decide (segment = []) then Err KeyEmptySegment
      else if bool_decide (segment = lit ".") || bool_decide (segment = lit "..")
      then Err KeyRelativeSegment
      else
        match List.find (λ character, negb (is_key_character character)) segment with
        | Some character => Err (KeyForbiddenCharacter character)
        | None => key_segments segments
        end
  end.

(** strom-object-store/src/key.rs:36-64, [ObjectKey::try_from (check)]. *)
Definition key_check (raw : str) : Result ObjectKeyError str :=
  if bool_decide (raw = []) then Err KeyEmpty
  else if KEY_BYTES_MAX <? str_len raw then Err (KeyTooLong (str_len raw))
  else
    let? _ := key_segments (split_char 47 raw) in
    Ok raw.

(** strom-object-store/src/key.rs:14-16, [ObjectKey]. *)
Definition ObjectKey : Type := Refined (accepts key_check).

#[export] Instance ObjectKey_eq_dec : EqDecision ObjectKey := _.

(** strom-object-store/src/key.rs:36-80, [ObjectKey::try_from]. *)
Definition ObjectKey_try_from (raw : str) : Result ObjectKeyError ObjectKey :=
  checked key_check raw.

(** strom-object-store/src/key.rs:19-22, [ObjectKey::as_str]. *)
Definition key_str (key : ObjectKey) : str := content key.

(** * Bodies, bounds and validators *)

(** strom-object-store/src/bytes.rs:58-66, [PutBodyError]. *)
Inductive PutBodyError : Type :=
| BodyEmpty
| BodyOverPutBound (bytes_actual : Z).

(** strom-object-store/src/bytes.rs:33-48, [PutBody::try_from (check)]. *)
Definition put_body_check (raw : list Z) : Result PutBodyError (list Z) :=
  if bool_decide (raw = []) then Err BodyEmpty
  else if PUT_BYTES_MAX <? zlen raw then Err (BodyOverPutBound (zlen raw))
  else Ok raw.

(** strom-object-store/src/bytes.rs:8-10, [PutBody]. *)
Definition PutBody : Type := Refined (accepts put_body_check).

#[export] Instance PutBody_eq_dec : EqDecision PutBody := _.

(** strom-object-store/src/bytes.rs:33-56, [PutBody::try_from]. *)
Definition PutBody_try_from (raw : list Z) : Result PutBodyError PutBody :=
  checked put_body_check raw.

(** strom-object-store/src/bytes.rs:13-16, [PutBody::as_slice]. *)
Definition body_bytes (body : PutBody) : list Z := content body.

(** strom-object-store/src/bytes.rs:68-85, [ByteBound]. *)
Definition ByteBound_try_from (raw : Z) : option NonZeroU64 := NonZeroU64_new raw.

(** strom-object-store/src/bytes.rs:109-118, [Etag::try_from (check)]. *)
Definition etag_check (raw : str) : Result unit str :=
  if bool_decide (raw = []) then Err tt else Ok raw.

(** strom-object-store/src/bytes.rs:92-94, [Etag]. *)
Definition Etag : Type := Refined (accepts etag_check).

#[export] Instance Etag_eq_dec : EqDecision Etag := _.

(** The [Display] of [EmptyEtag].
    strom-object-store/src/bytes.rs:120-123, [EmptyEtag]. *)
Definition empty_etag_display : str := lit "etag is empty".

(** * Evidence *)

(** strom-object-store/src/evidence.rs:9-24, [CreateEvidence]. *)
Inductive CreateEvidence : Type := Direct | DurableMatch | NotOurs | Unresolved.

#[export] Instance CreateEvidence_eq_dec : EqDecision CreateEvidence.
Proof. solve_decision. Defined.

(** strom-object-store/src/evidence.rs:26-52, [RawObject]. *)
Record RawObject : Type := mk_raw { raw_body : list Z; raw_etag : Etag }.

(** strom-object-store/src/evidence.rs:88-95, [KeysBoundError]. *)
Inductive KeysBoundError : Type := KeysBoundZero | KeysOverListBound (keys_actual : Z).

(** The count is a [usize], so only zero fails the first test.
    strom-object-store/src/evidence.rs:74-86, [KeysBound::try_from (check)]. *)
Definition keys_bound_check (raw : Z) : Result KeysBoundError Z :=
  if raw <=? 0 then Err KeysBoundZero
  else if LIST_KEYS_MAX <? raw then Err (KeysOverListBound raw)
  else Ok raw.

(** strom-object-store/src/evidence.rs:63-72, [KeysBound]. *)
Definition KeysBound : Type := Refined (accepts keys_bound_check).

(** strom-object-store/src/evidence.rs:54-61, [ListPageRequest]. *)
Record ListPageRequest : Type := mk_list_request {
  list_prefix : ObjectKey;
  start_exclusive : option ObjectKey;
  keys_max : KeysBound
}.

(** strom-object-store/src/evidence.rs:97-107, [ListPage]. *)
Record ListPage : Type := mk_page {
  page_keys : list ObjectKey;
  page_continuation : option ObjectKey
}.

(** * Failures *)

(** strom-object-store/src/error.rs:22-41, [StoreContradiction]. *)
Inductive DurableContradiction : Type :=
| OversizedObject (key : ObjectKey) (bytes_max bytes_actual : Z)
| ForeignKey (listed detail : str)
| UnorderedList (previous listed : ObjectKey).

(** strom-object-store/src/error.rs:5-20, [StoreError]. *)
Inductive StoreError : Type :=
| StoreRetryable (detail : str)
| StoreRejected (detail : str)
| StoreContradicted (contradiction : DurableContradiction).

(** The escaped [Debug] spellings of a string and of a character. *)
Class DebugFormat : Type := {
  debug_str : str → str;
  debug_char : char → str
}.

(** strom-object-store/src/key.rs:88-101, [Display for ObjectKeyError]. *)
Definition object_key_error_display `{DebugFormat} (error : ObjectKeyError) : str :=
  match error with
  | KeyEmpty => lit "object key is empty"
  | KeyTooLong bytes_actual =>
      lit "object key is " ++ dec bytes_actual ++ lit " bytes; the bound is " ++ dec KEY_BYTES_MAX
  | KeyForbiddenCharacter character =>
      lit "object key contains forbidden character " ++ debug_char character
  | KeyEmptySegment => lit "object key contains an empty segment"
  | KeyRelativeSegment => lit "object key contains a `.` or `..` segment"
  end.

(** strom-object-store/src/error.rs:22-41, [Display for StoreContradiction]. *)
Definition contradiction_display `{DebugFormat} (contradiction : DurableContradiction) : str :=
  match contradiction with
  | OversizedObject key bytes_max bytes_actual =>
      lit "object " ++ key_str key ++ lit " is " ++ dec bytes_actual
      ++ lit " bytes; the bound is " ++ dec bytes_max
  | ForeignKey listed detail =>
      lit "listed key " ++ debug_str listed ++ lit " is not canonical: " ++ detail
  | UnorderedList previous listed =>
      lit "listing returned " ++ key_str listed ++ lit " after " ++ key_str previous
  end.

(** * The backend *)

(** The variants of the backend's error that the adapter tells apart. *)
Inductive BackendErrorKind : Type :=
| BackendNotFound | BackendAlreadyExists | BackendPrecondition | BackendPermissionDenied
| BackendUnauthenticated | BackendNotSupported | BackendNotImplemented | BackendInvalidPath
| BackendUnknownConfigurationKey | BackendOther.

#[export] Instance BackendErrorKind_eq_dec : EqDecision BackendErrorKind.
Proof. solve_decision. Defined.

Record BackendError : Type := mk_backend_error {
  error_kind : BackendErrorKind;
  error_text : str
}.

(** One observed object: the metadata and the stream of its body. *)
Record GetResult : Type := mk_get {
  meta_size : Z;
  meta_etag : option str;
  body_stream : list (Result BackendError (list Z))
}.

(** The requests of an object store, over its world. *)
Class Backend : Type := {
  World : Type;
  path_parse : str → option str;
  put_create : World → str → list Z → World * Result BackendError unit;
  get_object : World → str → World * Result BackendError GetResult;
  list_objects : World → str → option str → World * list (Result BackendError str);
  delete_object : World → str → World * Result BackendError unit
}.

(** Collect a body stream up to its first failure. *)
Fixpoint collect_stream (stream : list (Result BackendError (list Z))) :
    Result BackendError (list Z) :=
  match stream with
  | [] => Ok []
  | Ok chunk :: stream => let? rest := collect_stream stream in Ok (chunk ++ rest)
  | Err e :: _ => Err e
  end.

(** * The adapter *)

(** strom-object-store/src/adapter.rs:257-275, [map_operation_error]. *)
Definition map_operation_error (source : BackendError) : StoreError :=
  match error_kind source with
  | BackendPermissionDenied | BackendUnauthenticated | BackendNotSupported
  | BackendNotImplemented | BackendInvalidPath | BackendUnknownConfigurationKey =>
      StoreRejected (error_text source)
  | _ => StoreRetryable (error_text source)
  end.

(** strom-object-store/src/adapter.rs:239-246, [require_etag]. *)
Definition require_etag (observed : option str) : Result StoreError Etag :=
  let? raw :=
    ok_or (StoreRejected (lit "backend returned no etag for an observed object")) observed in
  map_err (λ _, StoreRejected empty_etag_display) (checked etag_check raw).

(** strom-object-store/src/adapter.rs:248-255, [parse_listed_key]. *)
Definition parse_listed_key `{DebugFormat} (location : str) : Result StoreError ObjectKey :=
  map_err (λ source, StoreContradicted (ForeignKey location (object_key_error_display source)))
    (ObjectKey_try_from location).

(** strom-object-store/src/adapter.rs:214-235, [consume_bounded_object (loop)]. *)
Fixpoint consume_stream (key : ObjectKey) (bytes_max : NonZeroU64) (body : list Z)
    (bytes_observed : Z) (stream : list (Result BackendError (list Z))) :
    Exec (Result StoreError (list Z)) :=
  match stream with
  | [] => Ret (Ok body)
  | Err source :: _ => Ret (Err (map_operation_error source))
  | Ok chunk :: stream =>
      let chunk_bytes := zlen chunk in
      let! bytes_remaining := expect (u64_checked_sub (content bytes_max) bytes_observed) in
      if bytes_remaining <? chunk_bytes then
        Ret (Err (StoreContradicted
          (OversizedObject key (content bytes_max) (u64_saturating_add (content bytes_max) 1))))
      else
        let! bytes_observed := expect (u64_checked_add bytes_observed chunk_bytes) in
        consume_stream key bytes_max (body ++ chunk) bytes_observed stream
  end.

(** strom-object-store/src/adapter.rs:206-237, [consume_bounded_object]. *)
Definition consume_bounded_object (key : ObjectKey) (bytes_max : NonZeroU64)
    (observation : GetResult) : Exec (Result StoreError RawObject) :=
  let!? etag := Ret (require_etag (meta_etag observation)) in
  let!? body := consume_stream key bytes_max [] 0 (body_stream observation) in
  Ret (Ok (mk_raw body etag)).

(** strom-object-store/src/adapter.rs:138-160, [ObjectStoreAdapter::list_page (loop)]. *)
Fixpoint list_entries `{DebugFormat} (start : option ObjectKey) (keys_max : Z)
    (keys : list ObjectKey) (listing : list (Result BackendError str)) :
    Result StoreError (list ObjectKey * bool) :=
  match listing with
  | [] => Ok (keys, false)
  | entry :: listing =>
      let? location := map_err map_operation_error entry in
      let? listed := parse_listed_key location in
      let previous := match last keys with Some key => Some key | None => start end in
      let unordered :=
        match previous with
        | Some previous =>
            if negb (ord_ltb (key_str previous) (key_str listed)) then Some previous else None
        | None => None
        end in
      match unordered with
      | Some previous => Err (StoreContradicted (UnorderedList previous listed))
      | None =>
          if zlen keys =? keys_max then Ok (keys, true)
          else list_entries start keys_max (keys ++ [listed]) listing
      end
  end.

Section adapter.
  Context {DF : DebugFormat} {B : Backend}.

(** strom-object-store/src/key.rs:24-27, [ObjectKey::to_store_path]. *)
Definition to_store_path (key : ObjectKey) : Exec str := expect (path_parse (key_str key)).

(** strom-object-store/src/adapter.rs:182-203, [ObjectStoreAdapter::compare_occupant]. *)
Definition compare_occupant (w : World) (location : str) (candidate : PutBody) :
    World * CreateEvidence :=
  let candidate_size := zlen (body_bytes candidate) in
  let (w, outcome) := get_object w location in
  (w, match outcome with
      | Ok observation =>
          if negb (meta_size observation =? candidate_size) then NotOurs
          else
            match collect_stream (body_stream observation) with
            | Ok occupant =>
                if bool_decide (occupant = body_bytes candidate) then DurableMatch else NotOurs
            | Err _ => Unresolved
            end
      | Err _ => Unresolved
      end).

(** strom-object-store/src/adapter.rs:46-84, [ObjectStoreAdapter::create_if_absent]. *)
Definition create_if_absent (w : World) (key : ObjectKey) (candidate : PutBody) :
    Exec (World * Result StoreError CreateEvidence) :=
  let! location := to_store_path key in
  let (w, outcome) := put_create w location (body_bytes candidate) in
  Ret (match outcome with
       | Ok _ => (w, Ok Direct)
       | Err error =>
           match error_kind error with
           | BackendAlreadyExists | BackendPrecondition =>
               let (w, evidence) := compare_occupant w location candidate in (w, Ok evidence)
           | BackendPermissionDenied | BackendUnauthenticated =>
               (w, Err (StoreRejected (error_text error)))
           | _ => (w, Ok Unresolved)
           end
       end).

(** strom-object-store/src/adapter.rs:86-116, [ObjectStoreAdapter::read]. *)
Definition adapter_read (w : World) (key : ObjectKey) (bytes_max : NonZeroU64) :
    Exec (World * Result StoreError (option RawObject)) :=
  let! location := to_store_path key in
  let (w, outcome) := get_object w location in
  match outcome with
  | Ok observation =>
      if content bytes_max <? meta_size observation then
        Ret (w, Err (StoreContradicted
          (OversizedObject key (content bytes_max) (meta_size observation))))
      else
        let! observed := consume_bounded_object key bytes_max observation in
        Ret (w, result_map Some observed)
  | Err source =>
      Ret (w, if bool_decide (error_kind source = BackendNotFound) then Ok None
              else Err (map_operation_error source))
  end.

(** strom-object-store/src/adapter.rs:118-166, [ObjectStoreAdapter::list_page]. *)
Definition list_page (w : World) (request : ListPageRequest) :
    Exec (World * Result StoreError ListPage) :=
  let! prefix := to_store_path (list_prefix request) in
  let! offset :=
    match start_exclusive request with
    | Some offset => let! offset := to_store_path offset in Ret (Some offset)
    | None => Ret None
    end in
  let (w, listing) := list_objects w prefix offset in
  Ret (w,
    let? (keys, truncated) :=
      list_entries (start_exclusive request) (content (keys_max request)) [] listing in
    Ok (mk_page keys (if truncated then last keys else None))).

(** strom-object-store/src/adapter.rs:168-180, [ObjectStoreAdapter::delete_idempotent]. *)
Definition delete_idempotent (w : World) (key : ObjectKey) :
    Exec (World * Result StoreError unit) :=
  let! location := to_store_path key in
  let (w, outcome) := delete_object w location in
  Ret (w, match outcome with
          | Ok _ => Ok tt
          | Err source =>
              if bool_decide (error_kind source = BackendNotFound) then Ok tt
              else Err (map_operation_error source)
          end).

End adapter.

(** * What the store promises *)

(** The keys under a prefix, segment-wise, after an exclusive start, in order. *)
Definition listed_after (prefix : str) (start : option str) (key : str) : bool :=
  starts_with (prefix ++ [47]) key &&
  match start with Some start => ord_ltb start key | None => true end.

Definition keys_under (contents : gmap str (list Z)) (prefix : str) (start : option str) :
    list str :=
  filter (λ key, listed_after prefix start key = true) (om_iter contents).*1.

(** What each answer says of the map from keys to bodies, when other actors, and requests
    whose outcome was never learned, change it around the request as [env] allows.  A
    create takes effect only on an absent key; a failure that is neither an occupied key
    nor a refusal may hide a create or a delete that took effect.  A
    listing may begin with an entry that is no key or with two entries out of order: the
    adapter refuses it. *)
Definition visibly_wrong (entries : list (Result BackendError str)) : Prop :=
  (∃ k rest, entries = Ok k :: rest ∧ accepts key_check k = false) ∨
  (∃ k k' rest, entries = Ok k :: Ok k' :: rest ∧ ord_ltb k k' = false).

Section answers.
  Context (env : relation (gmap str (list Z))) (c c' : gmap str (list Z)).

Definition put_answer (p : str) (body : list Z) (r : Result BackendError unit) : Prop :=
  ∃ d, env c d ∧
  match r with
  | Ok _ => d !! p = None ∧ env (<[p := body]> d) c'
  | Err e =>
      match error_kind e with
      | BackendAlreadyExists | BackendPrecondition => is_Some (d !! p) ∧ env d c'
      | _ => env d c' ∨ d !! p = None ∧ env (<[p := body]> d) c'
      end
  end.

Definition get_answer (p : str) (r : Result BackendError GetResult) : Prop :=
  ∃ d, env c d ∧ env d c' ∧
  match r with
  | Ok g => ∃ body, d !! p = Some body ∧ meta_size g = zlen body ∧
      (∀ bytes, collect_stream (body_stream g) = Ok bytes → bytes = body) ∧
      (∀ chunks rest, body_stream g = (Ok <$> chunks) ++ rest → concat chunks `prefix_of` body)
  | Err e => error_kind e = BackendNotFound → d !! p = None
  end.

(** The same, when the size may be understated. *)
Definition loose_get_answer (p : str) (r : Result BackendError GetResult) : Prop :=
  ∃ d, env c d ∧ env d c' ∧
  match r with
  | Ok g => ∃ body, d !! p = Some body ∧ meta_size g ≤ zlen body ∧
      (∀ bytes, collect_stream (body_stream g) = Ok bytes → bytes = body) ∧
      (∀ chunks rest, body_stream g = (Ok <$> chunks) ++ rest → concat chunks `prefix_of` body)
  | Err e => error_kind e = BackendNotFound → d !! p = None
  end.

Lemma get_answer_loose p r : get_answer p r → loose_get_answer p r.
Proof.
  intros (d & H1 & H2 & Hr). exists d. split_and!; [done|done|]. destruct r as [g|e]; [|done].
  destruct Hr as (body & ? & -> & ?). by exists body.
Qed.

Definition honest_list_answer (prefix : str) (start : option str)
    (entries : list (Result BackendError str)) : Prop :=
  ∃ d, env c d ∧ env d c' ∧
  (entries = Ok <$> keys_under d prefix start ∨
   ∃ n e rest, entries = (Ok <$> take n (keys_under d prefix start)) ++ Err e :: rest).

Definition list_answer (prefix : str) (start : option str) (entries : list (Result BackendError str)) :
    Prop :=
  honest_list_answer prefix start entries ∨ env c c' ∧ visibly_wrong entries.

Definition delete_answer (p : str) (r : Result BackendError unit) : Prop :=
  ∃ d, env c d ∧
  match r with
  | Ok _ => env (delete p d) c'
  | Err e =>
      if bool_decide (error_kind e = BackendNotFound)
      then d !! p = None ∧ env d c'
      else env d c' ∨ env (delete p d) c'
  end.

End answers.

(** The promises of a store: its contents, what others may do, and true answers. *)
Class BackendLaws `{Backend} : Type := {
  contents : World → gmap str (list Z);
  env : relation (gmap str (list Z));
  env_preorder :: PreOrder env;
  path_parse_key : ∀ key : ObjectKey, path_parse (key_str key) = Some (key_str key);
  put_law : ∀ w p body w' r, put_create w p body = (w', r) →
    put_answer env (contents w) (contents w') p body r;
  get_law : ∀ w p w' r, get_object w p = (w', r) → get_answer env (contents w) (contents w') p r;
  list_law : ∀ w prefix start w' entries, list_objects w prefix start = (w', entries) →
    list_answer env (contents w) (contents w') prefix start entries;
  delete_law : ∀ w p w' r, delete_object w p = (w', r) →
    delete_answer env (contents w) (contents w') p r
}.

(** A store whose listings are never wrong. *)
Class HonestListing `{BackendLaws} : Prop :=
  honest_list : ∀ w prefix start w' entries, list_objects w prefix start = (w', entries) →
    honest_list_answer env (contents w) (contents w') prefix start entries.

(** ** Listing *)

Lemma list_entries_Ok `{DebugFormat} start max keys l tail keys' truncated :
  0 ≤ max → zlen keys ≤ max →
  (tail = [] ∨ ∃ e rest, tail = Err e :: rest) →
  list_entries start max keys ((Ok <$> l) ++ tail) = Ok (keys', truncated) →
  ∃ new, keys' = keys ++ new ∧
    (key_str <$> new) = take (Z.to_nat (max - zlen keys)) l ∧
    truncated = bool_decide (max - zlen keys < zlen l) ∧ (tail ≠ [] → truncated = true).
Proof.
  intros Hmax. revert keys. induction l as [|k l IH]; intros keys Hk Ht; csimpl.
  - destruct Ht as [->|(e & rest & ->)]; cbn [app list_entries]; [|done]. intros [= <- <-].
    exists []. rewrite (right_id_L [] (++)), take_nil. split_and!; [done|done| |done].
    symmetry. apply bool_decide_eq_false_2. unfold zlen in *. simpl. lia.
  - cbn [list_entries map_err result_bind].
    unfold parse_listed_key. destruct (ObjectKey_try_from k) as [key|] eqn:Hkey;
      cbn [map_err result_bind]; [|done].
    apply checked_Ok in Hkey.
    match goal with
    | |- context [match ?u with Some _ => Err _ | None => if _ then _ else _ end] =>
        destruct u; [done|]
    end.
    destruct (Z.eqb_spec (zlen keys) max) as [Heq|Hne].
    + intros [= <- <-]. exists []. rewrite (right_id_L [] (++)), Heq, Z.sub_diag.
      split_and!; [done|done| |done]. symmetry. apply bool_decide_eq_true_2.
      unfold zlen. simpl. lia.
    + intros Hl. assert (zlen (keys ++ [key]) = zlen keys + 1) as Hlen.
      { unfold zlen. rewrite length_app. simpl. lia. }
      destruct (IH (keys ++ [key])) as (new & -> & Hnew & Htr & Hte); [lia|done|done|].
      exists (key :: new). rewrite <- (assoc_L (++)). split; [done|].
      rewrite Hlen in Hnew, Htr. csimpl. rewrite Hnew.
      replace (Z.to_nat (max - zlen keys)) with (S (Z.to_nat (max - (zlen keys + 1))))
        by (unfold zlen in *; lia).
      split; [unfold key_str; simpl; by rewrite Hkey|]. split; [|done]. rewrite Htr.
      apply bool_decide_ext. unfold zlen. simpl. lia.
Qed.

(** A listing that is visibly wrong gives no page. *)
Lemma list_entries_refuses `{DebugFormat} start max entries :
  1 ≤ max → visibly_wrong entries → ∃ e, list_entries start max [] entries = Err e.
Proof.
  intros Hmax Hw.
  assert (∀ k, accepts key_check k = false → ∃ e, parse_listed_key k = Err e) as Hforeign.
  { intros k Hk. unfold parse_listed_key. destruct (ObjectKey_try_from k) as [key|] eqn:E; [|by eexists].
    apply checked_Ok in E. subst k. by rewrite content_true in Hk. }
  destruct Hw as [(k & rest & -> & Hk)|(k & k' & rest & -> & Hk)]; cbn [list_entries map_err result_bind].
  { destruct (Hforeign k Hk) as [e ->]. by eexists. }
  destruct (parse_listed_key k) as [key|] eqn:E; cbn [result_bind]; [|by eexists].
  match goal with
  | |- context [match ?u with Some _ => Err _ | None => if _ then _ else _ end] =>
      destruct u; [by eexists|]
  end.
  destruct (Z.eqb_spec (zlen (A:=ObjectKey) []) max) as [Hz|_]; [unfold zlen in Hz; simpl in Hz; lia|].
  cbn [list_entries map_err result_bind app last].
  destruct (parse_listed_key k') as [key'|] eqn:E'; cbn [result_bind]; [|by eexists].
  unfold parse_listed_key in E, E'.
  destruct (ObjectKey_try_from k) as [x|] eqn:F; [|discriminate E]. injection E as ->.
  destruct (ObjectKey_try_from k') as [x'|] eqn:F'; [|discriminate E']. injection E' as ->.
  apply checked_Ok in F, F'. unfold key_str. rewrite F, F', Hk. by eexists.
Qed.

(** * Stores with more state than their contents *)

(** What is known of a store may be more than its contents: who shares it, and which
    requests are outstanding.  A state has contents and moves of the other actors; a
    request that is sent becomes outstanding, whatever is learned of it; and a create or a
    delete that takes effect changes the contents. *)
Class StoreState : Type := {
  State : Type;
  view : State → gmap str (list Z);
  quiet : relation State;
  quiet_preorder :: PreOrder quiet;
  ask_put : str → list Z → State → State;
  ask_delete : str → State → State;
  enter : str → list Z → State → State;
  erase : str → State → State;
  view_enter : ∀ k body s, view (enter k body s) = <[k := body]> (view s)
}.

(** The answers above, over states. *)
Section replies.
  Context {SS : StoreState} (s s' : State).

Definition put_reply (p : str) (body : list Z) (r : Result BackendError unit) : Prop :=
  ∃ d, quiet (ask_put p body s) d ∧
  match r with
  | Ok _ => view d !! p = None ∧ quiet (enter p body d) s'
  | Err e =>
      match error_kind e with
      | BackendAlreadyExists | BackendPrecondition => is_Some (view d !! p) ∧ quiet d s'
      | _ => quiet d s' ∨ view d !! p = None ∧ quiet (enter p body d) s'
      end
  end.

Definition get_reply (p : str) (r : Result BackendError GetResult) : Prop :=
  ∃ d, quiet s d ∧ quiet d s' ∧
  match r with
  | Ok g => ∃ body, view d !! p = Some body ∧ meta_size g = zlen body ∧
      (∀ bytes, collect_stream (body_stream g) = Ok bytes → bytes = body) ∧
      (∀ chunks rest, body_stream g = (Ok <$> chunks) ++ rest → concat chunks `prefix_of` body)
  | Err e => error_kind e = BackendNotFound → view d !! p = None
  end.

Definition loose_get_reply (p : str) (r : Result BackendError GetResult) : Prop :=
  ∃ d, quiet s d ∧ quiet d s' ∧
  match r with
  | Ok g => ∃ body, view d !! p = Some body ∧ meta_size g ≤ zlen body ∧
      (∀ bytes, collect_stream (body_stream g) = Ok bytes → bytes = body) ∧
      (∀ chunks rest, body_stream g = (Ok <$> chunks) ++ rest → concat chunks `prefix_of` body)
  | Err e => error_kind e = BackendNotFound → view d !! p = None
  end.

Lemma get_reply_loose p r : get_reply p r → loose_get_reply p r.
Proof.
  intros (d & H1 & H2 & Hr). exists d. split_and!; [done|done|]. destruct r as [g|e]; [|done].
  destruct Hr as (body & ? & -> & ?). by exists body.
Qed.

Definition list_reply (prefix : str) (start : option str) (entries : list (Result BackendError str)) :
    Prop :=
  (∃ d, quiet s d ∧ quiet d s' ∧
   (entries = Ok <$> keys_under (view d) prefix start ∨
    ∃ n e rest, entries = (Ok <$> take n (keys_under (view d) prefix start)) ++ Err e :: rest)) ∨
  quiet s s' ∧ visibly_wrong entries.

Definition delete_reply (p : str) (r : Result BackendError unit) : Prop :=
  ∃ d, quiet (ask_delete p s) d ∧
  match r with
  | Ok _ => quiet (erase p d) s'
  | Err e =>
      if bool_decide (error_kind e = BackendNotFound)
      then view d !! p = None ∧ quiet d s'
      else quiet d s' ∨ quiet (erase p d) s'
  end.

End replies.

(** A store whose worlds have such a state, and true answers. *)
Class StateLaws `{Backend} {SS : StoreState} : Type := {
  state : World → State;
  state_path_parse : ∀ key : ObjectKey, path_parse (key_str key) = Some (key_str key);
  state_put : ∀ w p body w' r, put_create w p body = (w', r) → put_reply (state w) (state w') p body r;
  state_get : ∀ w p w' r, get_object w p = (w', r) → get_reply (state w) (state w') p r;
  state_list : ∀ w prefix start w' entries, list_objects w prefix start = (w', entries) →
    list_reply (state w) (state w') prefix start entries;
  state_delete : ∀ w p w' r, delete_object w p = (w', r) → delete_reply (state w) (state w') p r
}.

(** ** Reading bodies and listings *)

Lemma consume_stream_Ret key bytes_max body observed stream :
  0 ≤ observed ≤ content bytes_max → zlen body = observed →
  ∃ r, consume_stream key bytes_max body observed stream = Ret r ∧
    ∀ bytes, r = Ok bytes → zlen bytes ≤ content bytes_max ∧
      ∃ rest, collect_stream stream = Ok rest ∧ bytes = body ++ rest.
Proof.
  revert body observed. induction stream as [|[chunk|e] stream IH]; intros body observed Ho Hb;
    cbn [consume_stream collect_stream].
  - eexists. split; [reflexivity|]. intros bytes [= <-]. split; [lia|].
    exists []. by rewrite (right_id_L [] (++)).
  - unfold u64_checked_sub. rewrite decide_True by lia. cbn [expect exec_bind].
    destruct (Z.ltb_spec (content bytes_max - observed) (zlen chunk));
      [eexists; split; [reflexivity|done]|].
    pose proof (nonzero_bounds bytes_max) as Hmax.
    assert (0 ≤ zlen chunk) by (unfold zlen; lia).
    unfold u64_checked_add. rewrite decide_True by lia. cbn [expect exec_bind].
    destruct (IH (body ++ chunk) (observed + zlen chunk)) as (r & -> & Hr); [lia| |].
    { unfold zlen in *. rewrite length_app. lia. }
    exists r. split; [done|]. intros bytes Hbytes. destruct (Hr bytes Hbytes) as (Hn & rest & Hc & ->).
    split; [done|]. exists (chunk ++ rest). rewrite Hc. cbn [result_bind].
    by rewrite (assoc_L (++)).
  - eexists. split; [reflexivity|done].
Qed.

Lemma consume_stream_err key bytes_max body observed stream r :
  consume_stream key bytes_max body observed stream = Ret (Err (StoreContradicted r)) →
  ∃ actual chunks rest, r = OversizedObject key (content bytes_max) actual ∧
    stream = (Ok <$> chunks) ++ rest ∧ content bytes_max < observed + zlen (concat chunks).
Proof.
  revert body observed. induction stream as [|[chunk|e] stream IH]; intros body observed;
    cbn [consume_stream]; [done| |].
  - unfold u64_checked_sub. case_decide; cbn [expect exec_bind]; [|done].
    destruct (Z.ltb_spec (content bytes_max - observed) (zlen chunk)).
    { intros [= <-]. eexists _, [chunk], stream. split_and!; [done|done|].
      cbn [concat]. rewrite (right_id_L [] (++)). lia. }
    unfold u64_checked_add. case_decide; cbn [expect exec_bind]; [|done].
    intros (actual & chunks & rest & -> & -> & Hlt)%IH.
    exists actual, (chunk :: chunks), rest. split_and!; [done|done|].
    cbn [concat]. unfold zlen in *. rewrite length_app. lia.
  - unfold map_operation_error. by destruct (error_kind e).
Qed.

Lemma keys_bound_positive (bound : KeysBound) : 1 ≤ content bound.
Proof.
  assert (∀ n, accepts keys_bound_check n = true → 1 ≤ n) as H.
  { intros n. unfold accepts, keys_bound_check. destruct (Z.leb_spec n 0); [done|]. lia. }
  apply H, content_true.
Qed.

(** A page is the first keys of the listing, and says whether there are more. *)
Definition page_means (request : ListPageRequest) (page : ListPage) (c : gmap str (list Z)) : Prop :=
  let all := keys_under c (key_str (list_prefix request)) (key_str <$> start_exclusive request) in
  (key_str <$> page_keys page) = take (Z.to_nat (content (keys_max request))) all ∧
  page_continuation page =
    (if bool_decide (content (keys_max request) < zlen all) then last (page_keys page) else None).

(** ** The operations over states *)

Section state_operations.
  Context {DF : DebugFormat} {SS : StoreState}.

(** At some point of an operation the contents satisfied a predicate. *)
Definition meanwhile (s s' : State) (P : gmap str (list Z) → Prop) : Prop :=
  ∃ d, quiet s d ∧ P (view d) ∧ quiet d s'.

(** A create took effect at some point of an operation. *)
Definition entered (k : str) (body : list Z) (s s' : State) : Prop :=
  ∃ d, quiet s d ∧ view d !! k = None ∧ quiet (enter k body d) s'.

(** The most an operation that creates one object does. *)
Definition tried (k : str) (body : list Z) (s s' : State) : Prop := quiet s s' ∨ entered k body s s'.

(** What each outcome of a create says. *)
Definition evidence_says (k : str) (body : list Z) (s s' : State)
    (r : Result StoreError CreateEvidence) : Prop :=
  match r with
  | Ok Direct => entered k body s s'
  | Ok DurableMatch => meanwhile s s' (λ d, d !! k = Some body)
  | Ok NotOurs => meanwhile s s' (λ d, ∃ other, d !! k = Some other ∧ other ≠ body)
  | Ok Unresolved | Err _ => tried k body s s'
  end.

(** What a bounded read says; it changes nothing itself. *)
Definition read_says (k : str) (bytes_max : Z) (s s' : State)
    (r : Result StoreError (option RawObject)) : Prop :=
  match r with
  | Ok (Some raw) =>
      meanwhile s s' (λ d, d !! k = Some (raw_body raw)) ∧ zlen (raw_body raw) ≤ bytes_max
  | Ok None => meanwhile s s' (λ d, d !! k = None)
  | Err (StoreContradicted (OversizedObject key _ _)) =>
      key_str key = k ∧
      meanwhile s s' (λ d, ∃ body, d !! k = Some body ∧ bytes_max < zlen body)
  | Err (StoreContradicted _) => False
  | Err _ => quiet s s'
  end.

(** A delete took effect at some point of an operation, or there was nothing to delete. *)
Definition erased (k : str) (s s' : State) : Prop :=
  ∃ d, quiet s d ∧ (quiet (erase k d) s' ∨ view d !! k = None ∧ quiet d s').

Lemma meanwhile_quiet s s' P : meanwhile s s' P → quiet s s'.
Proof. intros (d & H1 & _ & H2). by etransitivity. Qed.

Lemma evidence_tried k body s s' r : evidence_says k body s s' r → tried k body s s'.
Proof. destruct r as [[]|]; simpl; unfold tried; eauto using meanwhile_quiet. Qed.

Lemma tried_post k body s d s' : tried k body s d → quiet d s' → tried k body s s'.
Proof.
  intros [H'|(x & H1 & Hx & H2)] H; [left; by etransitivity|right]. exists x.
  split_and!; [done|done|by etransitivity].
Qed.

Lemma evidence_later k body s d s' r :
  quiet s d → evidence_says k body d s' r → evidence_says k body s s' r.
Proof.
  assert (∀ P, quiet s d → meanwhile d s' P → meanwhile s s' P) as Hm.
  { intros P H (x & H1 & Hx & H2). exists x. split_and!; [by etransitivity|done|done]. }
  assert (quiet s d → entered k body d s' → entered k body s s') as Hi.
  { intros H (x & H1 & Hx & H2). exists x. split_and!; [by etransitivity|done|done]. }
  intros H. destruct r as [[]|]; simpl; eauto; intros [H'|H']; first [by left; etransitivity|right; eauto].
Qed.

(** A bounded read of a backend that answers so. *)
Lemma adapter_read_says {B' : Backend} (w w1 : @World B') r key bytes_max s0 s1 :
  @path_parse B' (key_str key) = Some (key_str key) → get_object w (key_str key) = (w1, r) →
  loose_get_reply s0 s1 (key_str key) r →
  ∃ r', adapter_read w key bytes_max = Ret (w1, r') ∧
    read_says (key_str key) (content bytes_max) s0 s1 r'.
Proof.
  intros Hp Hget (c & H1 & H2 & Hg). unfold adapter_read, to_store_path. rewrite Hp.
  cbn [expect exec_bind]. rewrite Hget. assert (quiet s0 s1) as H12 by (by etransitivity).
  destruct r as [g|e].
  2: { eexists. split; [reflexivity|]. case_bool_decide; [exists c; split_and!; auto|].
       unfold map_operation_error. by destruct (error_kind e). }
  destruct Hg as (body & Hb & Hsize & Hcol & Hpre).
  assert (content bytes_max < zlen body → meanwhile s0 s1
    (λ d, ∃ body, d !! key_str key = Some body ∧ content bytes_max < zlen body)) as Hsome.
  { exists c. split_and!; [done|by eexists|done]. }
  destruct (Z.ltb_spec (content bytes_max) (meta_size g)).
  { eexists. split; [reflexivity|]. split; [done|]. apply Hsome. lia. }
  unfold consume_bounded_object. destruct (require_etag (meta_etag g)) as [etag|e] eqn:He;
    cbn [try_bind exec_bind].
  2: { eexists. split; [reflexivity|]. unfold require_etag in He.
       destruct (meta_etag g) as [raw|]; cbn [ok_or result_bind] in He; [|by injection He as <-].
       destruct (checked etag_check raw); [done|]. by injection He as <-. }
  pose proof (nonzero_bounds bytes_max).
  destruct (consume_stream_Ret key bytes_max [] 0 (body_stream g)) as (r & Hr & Hok); [lia|done|].
  rewrite Hr. destruct r as [bytes|e]; cbn [try_bind exec_bind result_map].
  - eexists. split; [reflexivity|].
    destruct (Hok bytes eq_refl) as (Hn & rest & Hs & ->). pose proof (Hcol rest Hs) as ->.
    split; [|done]. by exists c.
  - eexists. split; [reflexivity|]. destruct e as [d|d|x]; [done|done|].
    destruct (consume_stream_err _ _ _ _ _ _ Hr) as (actual & chunks & rest & -> & Hs & Hlt).
    split; [done|]. apply Hsome. apply Hpre, prefix_length in Hs. unfold zlen in *. lia.
Qed.

(** A page of a backend that answers so. *)
Lemma list_page_says {B' : Backend} (w w1 : @World B') request entries s0 s1 :
  (∀ key : ObjectKey, @path_parse B' (key_str key) = Some (key_str key)) →
  list_objects w (key_str (list_prefix request)) (key_str <$> start_exclusive request) = (w1, entries) →
  list_reply s0 s1 (key_str (list_prefix request)) (key_str <$> start_exclusive request) entries →
  ∃ r, list_page w request = Ret (w1, r) ∧ quiet s0 s1 ∧
    ∀ page, r = Ok page → meanwhile s0 s1 (page_means request page).
Proof.
  intros Hp Hlist Hl. unfold list_page, to_store_path. rewrite Hp. cbn [expect exec_bind].
  assert ((match start_exclusive request with
           | Some offset => let! offset := expect (path_parse (key_str offset)) in Ret (Some offset)
           | None => Ret None
           end) = Ret (key_str <$> start_exclusive request)) as ->.
  { destruct (start_exclusive request); [|done]. by rewrite Hp. }
  cbn [exec_bind]. rewrite Hlist. pose proof (keys_bound_positive (keys_max request)).
  destruct Hl as [(c & H1 & H2 & Hl)|[Henv Hl]]; eexists; (split; [reflexivity|]).
  2: { split; [done|]. intros page. destruct (list_entries_refuses (start_exclusive request)
         (content (keys_max request)) _ ltac:(done) Hl) as [e ->]. discriminate. }
  split; [by etransitivity|].
  intros page. destruct (list_entries _ _ _ _) as [[keys truncated]|] eqn:Hk; [|done].
  cbn [result_bind]. intros [= <-].
  exists c. split; [done|]. split; [|done]. unfold page_means. cbn [page_keys page_continuation].
  set (all := keys_under _ _ _) in *. set (max := content (keys_max request)) in *.
  destruct Hl as [->|(n & e & rest & ->)].
  - rewrite <- (right_id_L [] (++) (Ok <$> all)) in Hk.
    apply list_entries_Ok in Hk as (new & -> & Hn & -> & _); [|lia|unfold zlen; simpl; lia|by left].
    change (zlen []) with 0 in *. rewrite Z.sub_0_r in *. done.
  - apply list_entries_Ok in Hk as (new & -> & Hn & Ht & Htrue);
      [|lia|unfold zlen; simpl; lia|right; eauto].
    change (zlen []) with 0 in *. rewrite Z.sub_0_r in *.
    assert (truncated = true) as -> by (by apply Htrue). symmetry in Ht.
    apply bool_decide_eq_true in Ht. unfold zlen in Ht. rewrite length_take in Ht.
    rewrite take_take, Nat.min_l in Hn by lia. split; [done|].
    rewrite bool_decide_eq_true_2 by (unfold zlen; lia). done.
Qed.

  Context {B : Backend} {ST : StateLaws}.

Lemma compare_occupant_says w location candidate :
  let '(w', evidence) := compare_occupant w location candidate in
  evidence_says location (body_bytes candidate) (state w) (state w') (Ok evidence) ∧
  evidence ≠ Direct ∧ quiet (state w) (state w').
Proof.
  unfold compare_occupant. destruct (get_object w location) as [w1 r] eqn:Hg.
  apply state_get in Hg as (d & H1 & H2 & Hg).
  assert (quiet (state w) (state w1)) as H12 by (by etransitivity).
  destruct r as [g|e]; [|by split_and!; [left| |]].
  destruct Hg as (body & Hb & Hsize & Hcol & Hpre).
  destruct (Z.eqb_spec (meta_size g) (zlen (body_bytes candidate))) as [Hz|Hz]; cbn [negb].
  - destruct (collect_stream (body_stream g)) as [bytes|]; [|by split_and!; [left| |]].
    specialize (Hcol bytes eq_refl) as ->. case_bool_decide as He.
    + split_and!; [|done|done]. exists d. split_and!; [done|congruence|done].
    + split_and!; [|done|done]. exists d. split_and!; [done|by exists body|done].
  - split_and!; [|done|done]. exists d. split_and!; [done| |done]. exists body.
    split; [done|]. congruence.
Qed.

Lemma create_says w key body :
  ∃ w' r, create_if_absent w key body = Ret (w', r) ∧
    evidence_says (key_str key) (body_bytes body) (ask_put (key_str key) (body_bytes body) (state w))
      (state w') r.
Proof.
  unfold create_if_absent, to_store_path. rewrite state_path_parse. cbn [expect exec_bind].
  destruct (put_create w _ _) as [w1 r] eqn:Hp. apply state_put in Hp as (c & H1 & Hp).
  destruct r as [[]|e]; [eexists _, _; split; [reflexivity|]; by exists c|].
  assert (quiet c (state w1) ∨ view c !! key_str key = None ∧
    quiet (enter (key_str key) (body_bytes body) c) (state w1) →
    tried (key_str key) (body_bytes body)
      (ask_put (key_str key) (body_bytes body) (state w)) (state w1)) as Hcr.
  { intros [H|[Hn H]]; [left; by etransitivity|right; by exists c]. }
  pose proof (compare_occupant_says w1 (key_str key) body) as Hcmp.
  destruct (compare_occupant w1 (key_str key) body) as [w2 evidence].
  destruct (error_kind e);
    first [eexists _, _; split; [reflexivity|]; by apply Hcr
          |eexists _, _; split; [reflexivity|]; eapply evidence_later;
             [|apply Hcmp]; destruct Hp; by etransitivity].
Qed.

Lemma read_object_says w key bytes_max :
  ∃ w' r, adapter_read w key bytes_max = Ret (w', r) ∧
    read_says (key_str key) (content bytes_max) (state w) (state w') r.
Proof.
  destruct (get_object w (key_str key)) as [w1 r] eqn:Hg.
  destruct (adapter_read_says w w1 r key bytes_max (state w) (state w1)) as (r' & Hr & Hm);
    [apply state_path_parse|done|by apply get_reply_loose, state_get|]. by exists w1, r'.
Qed.

Lemma list_says w request :
  ∃ w' r, list_page w request = Ret (w', r) ∧ quiet (state w) (state w') ∧
    ∀ page, r = Ok page → meanwhile (state w) (state w') (page_means request page).
Proof.
  destruct (list_objects w (key_str (list_prefix request)) (key_str <$> start_exclusive request))
    as [w1 entries] eqn:Hl.
  destruct (list_page_says w w1 request entries (state w) (state w1)) as (r & Hr & Hm);
    [apply state_path_parse|done|by apply state_list|]. by exists w1, r.
Qed.

Lemma delete_says w key :
  ∃ w' r, delete_idempotent w key = Ret (w', r) ∧
    let s := ask_delete (key_str key) (state w) in
    match r with
    | Ok _ => erased (key_str key) s (state w')
    | Err _ => quiet s (state w') ∨ erased (key_str key) s (state w')
    end.
Proof.
  unfold delete_idempotent, to_store_path. rewrite state_path_parse. cbn [expect exec_bind].
  destruct (delete_object w (key_str key)) as [w1 r] eqn:Hd. apply state_delete in Hd as (c & H1 & Hd).
  eexists _, _. split; [reflexivity|]. destruct r as [[]|e]; [exists c; auto|].
  case_bool_decide; [exists c; auto|].
  destruct Hd as [H2|H2]; [left; by etransitivity|right; exists c; auto].
Qed.

End state_operations.

(** ** The operations over contents *)

(** A store whose state is its contents. *)
Definition plain_state (env : relation (gmap str (list Z))) {P : PreOrder env} : StoreState := {|
  State := gmap str (list Z); view c := c; quiet := env; quiet_preorder := P;
  ask_put _ _ c := c; ask_delete _ c := c; enter k body c := <[k := body]> c; erase k c := delete k c;
  view_enter k body c := eq_refl
|}.

Definition plain_laws {B : Backend} {BL : BackendLaws} : @StateLaws B (plain_state env) :=
  @Build_StateLaws B (plain_state env) contents path_parse_key put_law get_law list_law delete_law.

Section operations.
  Context {DF : DebugFormat} {B : Backend} {BL : BackendLaws}.

(** At some point of an operation the store satisfied a predicate. *)
Definition sometime (c c' : gmap str (list Z)) (P : gmap str (list Z) → Prop) : Prop :=
  ∃ d, env c d ∧ P d ∧ env d c'.

(** A create took effect at some point of an operation. *)
Definition inserted (k : str) (body : list Z) (c c' : gmap str (list Z)) : Prop :=
  ∃ d, env c d ∧ d !! k = None ∧ env (<[k := body]> d) c'.

(** The most an operation that creates one object does to the store. *)
Definition created (k : str) (body : list Z) (c c' : gmap str (list Z)) : Prop :=
  env c c' ∨ inserted k body c c'.

(** What each outcome of a create says about the store. *)
Definition evidence_means (k : str) (body : list Z) (c c' : gmap str (list Z))
    (r : Result StoreError CreateEvidence) : Prop :=
  match r with
  | Ok Direct => inserted k body c c'
  | Ok DurableMatch => sometime c c' (λ d, d !! k = Some body)
  | Ok NotOurs => sometime c c' (λ d, ∃ other, d !! k = Some other ∧ other ≠ body)
  | Ok Unresolved | Err _ => created k body c c'
  end.

Lemma sometime_env c c' P : sometime c c' P → env c c'.
Proof. intros (d & H1 & _ & H2). by etransitivity. Qed.

Lemma evidence_created k body c c' r : evidence_means k body c c' r → created k body c c'.
Proof. destruct r as [[]|]; simpl; unfold created; eauto using sometime_env. Qed.

Lemma sometime_pre c d c' P : env c d → sometime d c' P → sometime c c' P.
Proof. intros H (x & H1 & Hx & H2). exists x. split_and!; [by etransitivity|done|done]. Qed.

Lemma sometime_post c d c' P : sometime c d P → env d c' → sometime c c' P.
Proof. intros (x & H1 & Hx & H2) H. exists x. split_and!; [done|done|by etransitivity]. Qed.

Lemma inserted_pre k body c d c' : env c d → inserted k body d c' → inserted k body c c'.
Proof. intros H (x & H1 & Hx & H2). exists x. split_and!; [by etransitivity|done|done]. Qed.

Lemma inserted_post k body c d c' : inserted k body c d → env d c' → inserted k body c c'.
Proof. intros (x & H1 & Hx & H2) H. exists x. split_and!; [done|done|by etransitivity]. Qed.

Lemma created_pre k body c d c' : env c d → created k body d c' → created k body c c'.
Proof. intros H [H'|H']; [left; by etransitivity|right; by eapply inserted_pre]. Qed.

Lemma created_post k body c d c' : created k body c d → env d c' → created k body c c'.
Proof. intros [H'|H'] H; [left; by etransitivity|right; by eapply inserted_post]. Qed.

Lemma evidence_after k body c d c' r :
  env c d → evidence_means k body d c' r → evidence_means k body c c' r.
Proof.
  intros H. destruct r as [[]|]; simpl; eauto using sometime_pre, inserted_pre, created_pre.
Qed.

Lemma create_if_absent_Ret w key body :
  ∃ w' r, create_if_absent w key body = Ret (w', r) ∧
    evidence_means (key_str key) (body_bytes body) (contents w) (contents w') r.
Proof. exact (create_says (ST := plain_laws) w key body). Qed.

(** What a bounded read says about the store; it changes nothing itself. *)
Definition read_means (k : str) (bytes_max : Z) (c c' : gmap str (list Z))
    (r : Result StoreError (option RawObject)) : Prop :=
  match r with
  | Ok (Some raw) =>
      sometime c c' (λ d, d !! k = Some (raw_body raw)) ∧ zlen (raw_body raw) ≤ bytes_max
  | Ok None => sometime c c' (λ d, d !! k = None)
  | Err (StoreContradicted (OversizedObject key _ _)) =>
      key_str key = k ∧
      sometime c c' (λ d, ∃ body, d !! k = Some body ∧ bytes_max < zlen body)
  | Err (StoreContradicted _) => False
  | Err _ => env c c'
  end.

(** A bounded read of a backend that answers so. *)
Lemma adapter_read_means {B' : Backend} (w w1 : @World B') r key bytes_max c0 c1 :
  @path_parse B' (key_str key) = Some (key_str key) → get_object w (key_str key) = (w1, r) →
  loose_get_answer env c0 c1 (key_str key) r →
  ∃ r', adapter_read w key bytes_max = Ret (w1, r') ∧
    read_means (key_str key) (content bytes_max) c0 c1 r'.
Proof. exact (adapter_read_says (SS := plain_state env) w w1 r key bytes_max c0 c1). Qed.

Lemma adapter_read_Ret w key bytes_max :
  ∃ w' r, adapter_read w key bytes_max = Ret (w', r) ∧
    read_means (key_str key) (content bytes_max) (contents w) (contents w') r.
Proof. exact (read_object_says (ST := plain_laws) w key bytes_max). Qed.

Lemma list_page_means {B' : Backend} (w w1 : @World B') request entries c0 c1 :
  (∀ key : ObjectKey, @path_parse B' (key_str key) = Some (key_str key)) →
  list_objects w (key_str (list_prefix request)) (key_str <$> start_exclusive request) = (w1, entries) →
  list_answer env c0 c1 (key_str (list_prefix request)) (key_str <$> start_exclusive request) entries →
  ∃ r, list_page w request = Ret (w1, r) ∧ env c0 c1 ∧
    ∀ page, r = Ok page → sometime c0 c1 (page_means request page).
Proof. exact (list_page_says (SS := plain_state env) w w1 request entries c0 c1). Qed.

Lemma list_page_Ret w request :
  ∃ w' r, list_page w request = Ret (w', r) ∧ env (contents w) (contents w') ∧
    ∀ page, r = Ok page → sometime (contents w) (contents w') (page_means request page).
Proof. exact (list_says (ST := plain_laws) w request). Qed.

(** What a delete leaves. *)
Definition deleted (k : str) (c c' : gmap str (list Z)) : Prop :=
  ∃ d, env c d ∧ env (delete k d) c'.

Lemma erased_deleted k c c' : erased (SS := plain_state env) k c c' → deleted k c c'.
Proof.
  intros (d & H1 & [H2|[Hn H2]]); exists d; [done|]. split; [done|].
  cbn [view plain_state] in Hn. by rewrite delete_id.
Qed.

Lemma delete_idempotent_Ret w key :
  ∃ w' r, delete_idempotent w key = Ret (w', r) ∧
    match r with
    | Ok _ => deleted (key_str key) (contents w) (contents w')
    | Err _ => env (contents w) (contents w') ∨ deleted (key_str key) (contents w) (contents w')
    end.
Proof.
  destruct (delete_says (ST := plain_laws) w key) as (w' & r & Hd & Hr). exists w', r.
  split; [done|]. destruct r; [by apply erased_deleted|].
  destruct Hr; [by left|right; by apply erased_deleted].
Qed.

End operations.

(** * A reference backend *)

(** The in-memory store: a map, every request definitive, bodies in one chunk. *)
Definition reference_backend : Backend := {|
  World := gmap str (list Z);
  path_parse p := Some p;
  put_create w p body :=
    match w !! p with
    | Some _ => (w, Err (mk_backend_error BackendAlreadyExists []))
    | None => (<[p := body]> w, Ok tt)
    end;
  get_object w p :=
    match w !! p with
    | Some body => (w, Ok (mk_get (zlen body) (Some (lit "1")) [Ok body]))
    | None => (w, Err (mk_backend_error BackendNotFound []))
    end;
  list_objects w prefix start := (w, Ok <$> keys_under w prefix start);
  delete_object w p :=
    match w !! p with
    | Some _ => (delete p w, Ok tt)
    | None => (w, Err (mk_backend_error BackendNotFound []))
    end
|}.

Definition reference_format : DebugFormat := {| debug_str s := s; debug_char c := [c] |}.

Definition reference_backend_laws : @BackendLaws reference_backend.
Proof.
  refine (@Build_BackendLaws reference_backend (λ w, w) eq _ _ _ _ _ _); simpl.
  - done.
  - intros w p body w' r. destruct (w !! p) eqn:Hp; intros [= <- <-]; exists w; [|done].
    split; [done|]. split; [by eexists|done].
  - intros w p w' r. destruct (w !! p) as [body|] eqn:Hp; intros [= <- <-]; exists w; [|done].
    split_and!; [done|done|]. exists body. split_and!; [done|done| |].
    + intros bytes [= <-]. by rewrite (right_id_L [] (++)).
    + intros [|chunk [|chunk' chunks]] rest; [intros _; apply prefix_nil| |done].
      intros [= -> _]. cbn [concat]. by rewrite (right_id_L [] (++)).
  - intros w prefix start w' entries [= <- <-]. left. exists w. split_and!; [done|done|by left].
  - intros w p w' r. destruct (w !! p) eqn:Hp; intros [= <- <-]; exists w; done.
Defined.

Lemma reference_honest : @HonestListing _ reference_backend_laws.
Proof. intros w prefix start w' entries [= <- <-]. exists w. split_and!; [done|done|by left]. Qed.
