(* ===== verification/Stores.v ===== *)
(** The typed Seal, WAL and table stores over the adapter (crate
    [strom-storage-engine], files [store.rs], [store/seal.rs], [store/wal.rs] and
    [store/table.rs]).

    Every operation threads the world of the backend.  The file holds the operations
    and shows that every canonical spelling is a legal object key, so that the
    conversions the stores unwrap never fail; what the operations say about the object
    store is in StoreTheory.v. *)

From S2P Require Import Prelude OrdMap Text Domain Coordinates Partition Seal Wal Forest.
From S2P Require Import ForestTheory Archive Spelling Sst Writer Bootstrap ObjectStore.

(** Sequencing of operations on the store that may fail. *)
Definition world_bind {W E A B} (x : Exec (W * Result E A)) (k : W → A → Exec (W * Result E B)) :
    Exec (W * Result E B) :=
  match x with
  | Ret (w, Ok a) => k w a
  | Ret (w, Err e) => Ret (w, Err e)
  | Panic => Panic
  end.

Definition world_map_err {W E F A} (f : E → F) (x : Exec (W * Result E A)) :
    Exec (W * Result F A) :=
  match x with Ret (w, r) => Ret (w, map_err f r) | Panic => Panic end.

Notation "'let@' w ',' x ':=' e 'in' k" := (world_bind e (fun w x => k))
  (at level 10, w name, x pattern, e at level 100, k at level 200,
   format "'let@'  w ','  x  ':='  e  'in' '//' k") : strom_scope.

(** * Error texts *)

(** strom-storage-domain/src/spelling.rs:289-305, [Display for KeySpellingError]. *)
Definition key_spelling_error_display (error : KeySpellingError) : str :=
  match error with
  | Shape => lit "durable key has the wrong segment shape"
  | UnsupportedNamespace => lit "durable key namespace version is unsupported"
  | ReverseOrdinalSpelling =>
      lit "durable key reverse ordinal is not a fixed-width 20-digit u64"
  | ZeroCoordinateSpelling => lit "durable key spells reserved coordinate zero"
  | TableStoreSpelling => lit "table key store spelling is not canonical"
  | TableCoordinate =>
      lit "table key coordinate does not have its canonical fixed-width decimal spelling"
  | InvalidTableIdentity => lit "table key fresh identity violates its generation ordering"
  end.

(** strom-storage-domain/src/archive.rs:25-39, [Display for DecodeError]. *)
Definition decode_error_display (error : DecodeError) : str :=
  match error with
  | DecodeBytesOverMax bytes_max bytes_actual =>
      lit "encoded value is " ++ dec bytes_actual ++ lit " bytes; the bound is " ++ dec bytes_max
  | MalformedArchive => lit "archive is structurally malformed"
  | InvalidBody => lit "archive violates a domain invariant"
  | IdentityMismatch => lit "body identity differs from the durable location"
  end.

(** strom-storage-domain/src/sst.rs:53-67, [Display for SstDecodeError]. *)
Definition sst_decode_error_display (error : SstDecodeError) : str :=
  match error with
  | DecodedBytesOverMax bytes_actual =>
      lit "SST is " ++ dec bytes_actual ++ lit " bytes; the bound is " ++ dec SST_OBJECT_BYTES_MAX
  | SstMalformedArchive => lit "SST archive is structurally malformed"
  | SstInvalidBody => lit "SST body violates a domain invariant"
  | SstIdentityMismatch => lit "SST body identity differs from the durable table key"
  | DecodedStoreMismatch => lit "table key names the wrong store for this SST root"
  | DecodedResourceBound => lit "SST exceeds a decoded resource bound"
  end.

(** strom-object-store/src/bytes.rs:58-66, [Display for PutBodyError]. *)
Definition put_body_error_display (error : PutBodyError) : str :=
  match error with
  | BodyEmpty => lit "object body is empty"
  | BodyOverPutBound bytes_actual =>
      lit "object body is " ++ dec bytes_actual ++ lit " bytes; the bound is " ++ dec PUT_BYTES_MAX
  end.

(** * Shared helpers *)

(** strom-storage-engine/src/store.rs:17-25, [typed_store_error]. *)
Definition typed_store_error `{DebugFormat} (error : StoreError) : TypedStoreError :=
  match error with
  | StoreRetryable detail => Retryable detail
  | StoreRejected detail => Rejected detail
  | StoreContradicted contradiction => StoreContradiction (contradiction_display contradiction)
  end.

(** strom-storage-engine/src/store.rs:57-60, [object_key]. *)
Definition object_key (spelling : str) : Exec ObjectKey := expect_ok (ObjectKey_try_from spelling).

(** strom-storage-engine/src/store.rs:62-64, [newest_keys_bound]. *)
Definition newest_keys_bound : Exec KeysBound := expect_ok (checked keys_bound_check 1).

(** The object keys of the three namespaces: the spelling, then the key. *)
Definition seal_object_key (generation : SealGeneration) : Exec ObjectKey :=
  let! spelling := SealKey_display generation in object_key spelling.
Definition wal_object_key (batch : BatchId) : Exec ObjectKey :=
  let! spelling := WalKey_display batch in object_key spelling.
Definition table_object_key (key : TableKey) : Exec ObjectKey := object_key (TableKey_display key).

Section stores.
  Context {DF : DebugFormat} {B : Backend} {J : Jiff} {RL : RowLayout}.
  Context {RW : Rkyv ArchivedWalObject} {RS : Rkyv ArchivedSeal}.
  Context {RD : Rkyv (SstArchive ArchivedDirectoryRow)} {RG : Rkyv (SstArchive ArchivedLedgerRow)}.

(** One create of encoded bytes at a key. *)
Definition create_bytes (w : World) (key : ObjectKey) (bytes : list Z) :
    Exec (World * Result TypedStoreError CreateEvidence) :=
  let! body := expect_ok (PutBody_try_from bytes) in
  world_map_err typed_store_error (create_if_absent w key body).

(** * Seals *)

(** strom-storage-engine/src/store/seal.rs:61-75, [SealStore::create_seal]. *)
Definition create_seal (w : World) (generation : SealGeneration) (bytes : list Z) :
    Exec (World * Result TypedStoreError CreateEvidence) :=
  let! key := seal_object_key generation in
  create_bytes w key bytes.

(** strom-storage-engine/src/store/seal.rs:29-43, [SealStore::establish_genesis]. *)
Definition store_establish_genesis (w : World) (candidate : EncodedGenesisSeal) :
    Exec (World * Result TypedStoreError GenesisEstablishment) :=
  let@ w, evidence :=
    create_seal w (seal_generation (genesis_seal candidate)) (genesis_bytes candidate) in
  Ret (w, Ok (match evidence with
              | Direct | DurableMatch => GenesisEstablished
              | NotOurs => GenesisLostRace
              | Unresolved => GenesisUnresolved
              end)).

(** strom-storage-engine/src/store/seal.rs:45-59, [SealStore::publish_authority]. *)
Definition publish_authority (w : World) (candidate : EncodedAuthoritySeal) :
    Exec (World * Result TypedStoreError SealPublication) :=
  let@ w, evidence :=
    create_seal w (seal_generation (authority_seal candidate)) (authority_bytes candidate) in
  Ret (w, Ok (match evidence with
              | Direct => Authored
              | DurableMatch | NotOurs => NoAuthority
              | Unresolved => PublicationUnresolved
              end)).

(** strom-storage-engine/src/store/seal.rs:77-104, [SealStore::newest_generation]. *)
Definition newest_generation (w : World) :
    Exec (World * Result TypedStoreError (option SealGeneration)) :=
  let! prefix := object_key SealNamespace_display in
  let! keys_max := newest_keys_bound in
  let@ w, page :=
    world_map_err typed_store_error (list_page w (mk_list_request prefix None keys_max)) in
  match page_keys page with
  | [] => Ret (w, Ok None)
  | listed :: _ =>
      let! parsed := SealKey_from_str (key_str listed) in
      Ret (w, match parsed with
              | Ok generation => Ok (Some generation)
              | Err source =>
                  Err (StoreContradiction
                    (lit "listed key " ++ key_str listed
                     ++ lit " under the Seal namespace is not a Seal key: "
                     ++ key_spelling_error_display source))
              end)
  end.

(** strom-storage-engine/src/store/seal.rs:136-139, [seal_read_bound]. *)
Definition seal_read_bound : Exec NonZeroU64 := expect (ByteBound_try_from SEAL_ENCODED_BYTES_MAX).

(** strom-storage-engine/src/store/seal.rs:106-133, [SealStore::read_seal]. *)
Definition read_seal (w : World) (generation : SealGeneration) :
    Exec (World * Result TypedStoreError (option Seal)) :=
  let! key := seal_object_key generation in
  let! bound := seal_read_bound in
  let@ w, observed := world_map_err typed_store_error (adapter_read w key bound) in
  match observed with
  | None => Ret (w, Ok None)
  | Some observed =>
      let! decoded := decode_seal generation (raw_body observed) in
      Ret (w, match decoded with
              | Ok seal => Ok (Some seal)
              | Err source =>
                  Err (StoreContradiction
                    (lit "Seal body at " ++ key_str key ++ lit " failed checked decode for "
                     ++ debug_generation generation ++ lit ": " ++ decode_error_display source))
              end)
  end.

(** * WAL objects *)

(** strom-storage-engine/src/store/wal.rs:19-25, [ObservedWal]. *)
Record ObservedWal : Type := mk_observed {
  observed_object : WalObject;
  observed_validator : Etag;
  observed_bytes : PutBody
}.

(** strom-storage-engine/src/store/wal.rs:82-99, [AuthorizedWalRunDelete]. *)
Record AuthorizedWalRunDelete : Type := mk_run_delete {
  run_delete_batch : BatchId;
  run_delete_validator : Etag
}.

(** strom-storage-engine/src/store/wal.rs:56-80, [ObservedWal::into_run_delete]. *)
Definition into_run_delete (observed : ObservedWal) : Result BatchId AuthorizedWalRunDelete :=
  match wal_body (observed_object observed) with
  | Run _ =>
      Ok (mk_run_delete (wal_batch (observed_object observed)) (observed_validator observed))
  | Fence => Err (wal_batch (observed_object observed))
  end.

(** strom-storage-engine/src/store/wal.rs:142-152, [WalStore::create_wal]. *)
Definition create_wal (w : World) (candidate : EncodedWal) :
    Exec (World * Result TypedStoreError CreateEvidence) :=
  let! key := wal_object_key (encoded_wal_batch candidate) in
  create_bytes w key (encoded_wal_bytes candidate).

(** strom-storage-engine/src/store/wal.rs:154-179, [WalStore::newest_surviving_batch]. *)
Definition newest_surviving_batch (w : World) :
    Exec (World * Result TypedStoreError (option BatchId)) :=
  let! prefix := object_key WalNamespace_display in
  let! keys_max := newest_keys_bound in
  let@ w, page :=
    world_map_err typed_store_error (list_page w (mk_list_request prefix None keys_max)) in
  match page_keys page with
  | [] => Ret (w, Ok None)
  | listed :: _ =>
      let! parsed := WalKey_from_str (key_str listed) in
      Ret (w, match parsed with
              | Ok batch => Ok (Some batch)
              | Err source =>
                  Err (StoreContradiction
                    (lit "listed key " ++ key_str listed
                     ++ lit " under the WAL namespace is not a WAL key: "
                     ++ key_spelling_error_display source))
              end)
  end.

(** strom-storage-engine/src/store/wal.rs:251-254, [wal_read_bound]. *)
Definition wal_read_bound : Exec NonZeroU64 := expect (ByteBound_try_from WAL_ENCODED_BYTES_MAX).

(** strom-storage-engine/src/store/wal.rs:181-218, [WalStore::read_wal]. *)
Definition read_wal (w : World) (partition : PartitionId) (batch : BatchId) :
    Exec (World * Result TypedStoreError (option ObservedWal)) :=
  let! key := wal_object_key batch in
  let! bound := wal_read_bound in
  let@ w, observed := world_map_err typed_store_error (adapter_read w key bound) in
  match observed with
  | None => Ret (w, Ok None)
  | Some observed =>
      let! decoded := decode_wal partition batch (raw_body observed) in
      Ret (w,
        let? object :=
          map_err (λ source, StoreContradiction
            (lit "WAL body at " ++ key_str key ++ lit " failed checked decode for "
             ++ PartitionId_display partition ++ lit "/" ++ debug_batch batch ++ lit ": "
             ++ decode_error_display source)) decoded in
        let? bytes :=
          map_err (λ source, StoreContradiction
            (lit "decoded WAL body at " ++ key_str key
             ++ lit " cannot be retained for exact reconciliation: "
             ++ put_body_error_display source)) (PutBody_try_from (raw_body observed)) in
        Ok (Some (mk_observed object (raw_etag observed) bytes)))
  end.

(** strom-storage-engine/src/store/wal.rs:113-140, [WalStore::establish_wal]. *)
Definition establish_wal (w : World) (candidate : EncodedWal) :
    Exec (World * Result TypedStoreError WalEstablishment) :=
  let@ w, evidence := create_wal w candidate in
  match evidence with
  | Direct | DurableMatch => Ret (w, Ok WalDurable)
  | NotOurs => Ret (w, Ok WalOccupied)
  | Unresolved =>
      let@ w, observed :=
        read_wal w (encoded_wal_partition candidate) (encoded_wal_batch candidate) in
      Ret (w, Ok (match observed with
                  | Some observed =>
                      if bool_decide (body_bytes (observed_bytes observed) =
                                      encoded_wal_bytes candidate)
                      then WalDurable else WalOccupied
                  | None => UnresolvedAbsent
                  end))
  end.

(** strom-storage-engine/src/store/wal.rs:220-248, [WalStore::delete_run]. *)
Definition delete_run (w : World) (proof : AuthorizedWalRunDelete) :
    Exec (World * Result TypedStoreError unit) :=
  let! key := wal_object_key (run_delete_batch proof) in
  world_map_err typed_store_error (delete_idempotent w key).

(** * Tables *)

(** strom-storage-engine/src/store/table.rs:13-18, [CandidateTableEvidence]. *)
Inductive CandidateTableEvidence : Type := TableMatch | TableForeign | TableAbsent.

(** strom-storage-engine/src/store/table.rs:20-25, [TableEstablishment]. *)
Inductive TableEstablishment : Type :=
| TableEstablished
| TableAbandoned
| TableContradiction (detail : str).

(** strom-storage-engine/src/store/table.rs:32-47, [AuthorizedTableDelete::dropped_by]. *)
Definition dropped_by (input : CollectionInput) : list TableObjectId :=
  let successor_objects := table_object <$> seal_tables (collection_successor input) in
  filter (λ object, object ∉ successor_objects)
    (table_object <$> seal_tables (collection_source input)).

(** strom-storage-engine/src/store/table.rs:90-103, [TableStore::create_table]. *)
Definition create_table (w : World) (candidate : EncodedTable) :
    Exec (World * Result TypedStoreError CreateEvidence) :=
  let! key := table_object_key (table_key candidate) in
  create_bytes w key (table_bytes candidate).

(** strom-storage-engine/src/store/table.rs:105-124, [TableStore::reconcile_table]. *)
Definition reconcile_table (w : World) (candidate : EncodedTable) :
    Exec (World * Result TypedStoreError CandidateTableEvidence) :=
  let! key := table_object_key (table_key candidate) in
  let! bound := expect (ByteBound_try_from (object_bytes (table_ref candidate))) in
  let@ w, observed := world_map_err typed_store_error (adapter_read w key bound) in
  Ret (w, Ok (match observed with
              | Some observed =>
                  if bool_decide (raw_body observed = table_bytes candidate) then TableMatch
                  else TableForeign
              | None => TableAbsent
              end)).

(** strom-storage-engine/src/store/table.rs:60-88, [TableStore::establish_table]. *)
Definition establish_table (w : World) (candidate : EncodedTable) :
    Exec (World * TableEstablishment) :=
  let! (w, created) := create_table w candidate in
  match created with
  | Ok (Direct | DurableMatch) => Ret (w, TableEstablished)
  | Ok NotOurs =>
      Ret (w, TableContradiction (lit "foreign bytes occupy a fresh checkpoint table identity"))
  | Ok Unresolved =>
      let! (w, reconciled) := reconcile_table w candidate in
      Ret (w, match reconciled with
              | Ok TableMatch => TableEstablished
              | Ok TableForeign =>
                  TableContradiction
                    (lit "an unresolved fresh checkpoint table contains foreign bytes")
              | Ok TableAbsent | Err (Retryable _) | Err (Rejected _) => TableAbandoned
              | Err (StoreContradiction detail) => TableContradiction detail
              end)
  | Err (Retryable _) | Err (Rejected _) => Ret (w, TableAbandoned)
  | Err (StoreContradiction detail) => Ret (w, TableContradiction detail)
  end.

(** strom-storage-engine/src/store/table.rs:126-135, [TableStore::delete_table]. *)
Definition delete_table (w : World) (object : TableObjectId) :
    Exec (World * Result TypedStoreError unit) :=
  let! key := table_object_key (mk_table_key object) in
  world_map_err typed_store_error (delete_idempotent w key).

(** strom-storage-engine/src/store/table.rs:164-182, [TableStore::read_table (decode)]. *)
Definition decode_table (partition : PartitionId) (key : TableKey) (bytes : list Z) :
    Exec (Result TypedStoreError DecodedTable) :=
  match store (key_object key) with
  | Directory =>
      Ret (map_err (λ source, StoreContradiction
             (lit "Directory table " ++ TableKey_display key ++ lit " failed checked decode: "
              ++ sst_decode_error_display source))
           (result_map DecodedDirectory (decode_directory_sst partition key bytes)))
  | Ledger =>
      let! decoded := decode_ledger_sst partition key bytes in
      Ret (map_err (λ source, StoreContradiction
             (lit "Ledger table " ++ TableKey_display key ++ lit " failed checked decode: "
              ++ sst_decode_error_display source))
           (result_map DecodedLedger decoded))
  | Tally | Annals =>
      Ret (Err (StoreContradiction
        (lit "table " ++ TableKey_display key ++ lit " names a store with no resident decoder")))
  end.

(** strom-storage-engine/src/store/table.rs:137-183, [TableStore::read_table]. *)
Definition read_table (w : World) (partition : PartitionId) (table : TableRef) :
    Exec (World * Result TypedStoreError DecodedTable) :=
  let key := mk_table_key (table_object table) in
  let! object_key := table_object_key key in
  let! bound := expect (ByteBound_try_from (object_bytes table)) in
  let@ w, observed := world_map_err typed_store_error (adapter_read w object_key bound) in
  match observed with
  | None =>
      Ret (w, Err (StoreContradiction
        (lit "Seal-selected table " ++ TableKey_display key ++ lit " is absent")))
  | Some observed =>
      let bytes_actual := zlen (raw_body observed) in
      if negb (bytes_actual =? object_bytes table) then
        Ret (w, Err (StoreContradiction
          (lit "table " ++ TableKey_display key ++ lit " has " ++ dec bytes_actual
           ++ lit " bytes; its Seal records " ++ dec (object_bytes table))))
      else
        let! decoded := decode_table partition key (raw_body observed) in
        Ret (w, decoded)
  end.

End stores.

(** * Canonical spellings are legal object keys *)

Definition segment_legal (segment : str) : Prop :=
  segment ≠ [] ∧ segment ≠ lit "." ∧ segment ≠ lit ".." ∧
  Forall (λ c, is_key_character c = true) segment.

Lemma is_key_character_spec c :
  is_key_character c = true ↔ 97 ≤ c ≤ 122 ∨ 48 ≤ c ≤ 57 ∨ c ∈ [45; 95; 46].
Proof.
  unfold is_key_character, is_ascii_lowercase, is_ascii_digit.
  rewrite !orb_true_iff, !andb_true_iff, !Z.leb_le, bool_decide_eq_true. tauto.
Qed.

Lemma key_character_bounds c : is_key_character c = true → 45 ≤ c < 128 ∧ c ≠ 47.
Proof.
  rewrite is_key_character_spec. intros [?|[?|Hc]]; [lia|lia|].
  rewrite !elem_of_cons, elem_of_nil in Hc. lia.
Qed.

Lemma key_segments_legal l : Forall segment_legal l → key_segments l = Ok tt.
Proof.
  induction 1 as [|s l (Hne & Hd & Hdd & Hc) Hl IH]; [done|]. cbn [key_segments].
  rewrite !bool_decide_eq_false_2 by done. cbn [orb].
  destruct (List.find _ s) as [c|] eqn:Hf; [|done].
  apply find_some in Hf as [Hin%list_elem_of_In Hx]. rewrite Forall_forall in Hc.
  by rewrite (Hc c Hin) in Hx.
Qed.

Lemma legal_no_slash s : segment_legal s → no_char slash s.
Proof.
  intros (_ & _ & _ & Hc). eapply Forall_impl; [exact Hc|]. intros c Hx%key_character_bounds.
  unfold slash. lia.
Qed.

Lemma join_ascii l : Forall segment_legal l → is_ascii_str (str_join slash l).
Proof.
  induction 1 as [|s l (_ & _ & _ & Hc) Hl IH]; [constructor|].
  assert (is_ascii_str s) as Hs.
  { eapply Forall_impl; [exact Hc|]. intros c Hx%key_character_bounds. lia. }
  destruct l; [done|]. apply Forall_app. split; [done|]. constructor; [|done].
  unfold slash. lia.
Qed.

Lemma object_key_join l :
  l ≠ [] → Forall segment_legal l → str_join slash l ≠ [] →
  zlen (str_join slash l) ≤ KEY_BYTES_MAX →
  ∃ key, object_key (str_join slash l) = Ret key ∧ key_str key = str_join slash l.
Proof.
  intros Hne Hl Hj Hlen. unfold object_key, ObjectKey_try_from.
  destruct (checked_total key_check (str_join slash l)) as (key & -> & Hk).
  - unfold accepts, key_check. rewrite bool_decide_eq_false_2 by done.
    rewrite str_len_ascii by (by apply join_ascii).
    rewrite (proj2 (Z.ltb_ge _ _)) by done. change 47 with slash.
    rewrite split_join by (done || (eapply Forall_impl; [exact Hl|apply legal_no_slash])).
    by rewrite key_segments_legal.
  - eauto.
Qed.

Lemma dec_pad_characters n v : Forall (λ c, 48 ≤ c ≤ 57) (dec_pad n v).
Proof.
  revert v. induction n as [|n IH]; intros v; simpl; [constructor|].
  apply Forall_app. split; [done|]. constructor; [|constructor].
  pose proof (Z.mod_pos_bound v 10). lia.
Qed.

Lemma digits_legal s : s ≠ [] → Forall (λ c, 48 ≤ c ≤ 57) s → segment_legal s.
Proof.
  intros Hne Hs. split_and!; [done| | |].
  - intros ->. apply Forall_cons in Hs as [Hs _]. vm_compute in Hs. by destruct Hs as [[] _].
  - intros ->. apply Forall_cons in Hs as [Hs _]. vm_compute in Hs. by destruct Hs as [[] _].
  - eapply Forall_impl; [exact Hs|]. intros c Hc. apply is_key_character_spec. auto.
Qed.

Lemma dec_pad_legal n v : segment_legal (dec_pad (S n) v).
Proof. apply digits_legal; [|apply dec_pad_characters]. simpl. by destruct (dec_pad n _). Qed.

(** The literal segments of the namespaces. *)
Lemma literal_legal s :
  bool_decide (s ≠ [] ∧ s ≠ lit "." ∧ s ≠ lit "..") && forallb is_key_character s = true →
  segment_legal s.
Proof.
  intros [(? & ? & ?)%bool_decide_eq_true Hc]%andb_true_iff. split_and!; [done..|].
  by apply forallb_true.
Qed.

Lemma coordinate_object_key {k} segment (c : Coord k) :
  segment_legal segment → zlen segment ≤ 900 →
  ∃ key, (let! spelling := coordinate_key_display segment c in object_key spelling) = Ret key ∧
    coordinate_key_display segment c = Ret (key_str key).
Proof.
  intros Hs Hlen. rewrite coordinate_key_display_Ret. cbn [exec_bind].
  destruct (object_key_join [segment; NAMESPACE_VERSION; dec_pad 20 (u64_max - coord_get c)])
    as (key & Hk & Hstr).
  - done.
  - constructor; [done|]. constructor; [by apply literal_legal|]. constructor; [apply dec_pad_legal|].
    constructor.
  - destruct Hs as [Hne _]. by destruct segment.
  - cbn [str_join]. unfold zlen in *. repeat (rewrite length_app; cbn [length]).
    rewrite dec_pad_length. unfold KEY_BYTES_MAX. change (length NAMESPACE_VERSION) with 2%nat. lia.
  - exists key. by rewrite Hstr.
Qed.

Lemma seal_object_key_Ret g :
  ∃ key, seal_object_key g = Ret key ∧ SealKey_display g = Ret (key_str key).
Proof. apply (coordinate_object_key SEAL_SEGMENT g); [by apply literal_legal|done]. Qed.

Lemma wal_object_key_Ret b :
  ∃ key, wal_object_key b = Ret key ∧ WalKey_display b = Ret (key_str key).
Proof. apply (coordinate_object_key WAL_SEGMENT b); [by apply literal_legal|done]. Qed.

Lemma legal_app a b :
  segment_legal a → Forall (λ c, is_key_character c = true) b → hd 0 a ≠ 46 →
  segment_legal (a ++ b).
Proof.
  intros (Hne & _ & _ & Ha) Hb Hh. destruct a as [|x a]; [done|]. cbn [hd] in Hh. split_and!.
  - done.
  - intros [= -> _]. by destruct Hh.
  - intros [= -> _]. by destruct Hh.
  - by apply Forall_app.
Qed.

Lemma table_object_key_Ret key :
  ∃ okey, table_object_key key = Ret okey ∧ key_str okey = TableKey_display key.
Proof.
  unfold table_object_key. rewrite TableKey_display_join. apply object_key_join.
  - done.
  - rewrite !Forall_cons, Forall_nil. split_and!; try apply dec_pad_legal; [| | | |done].
    + by apply literal_legal.
    + by apply literal_legal.
    + apply literal_legal. by destruct (store (key_object key)).
    + apply legal_app; [apply dec_pad_legal| |].
      * constructor; [done|]. eapply Forall_impl; [apply dec_pad_characters|].
        intros c Hc. apply is_key_character_spec. auto.
      * pose proof (dec_pad_characters 20
          (coord_get (owner_claim (attempt (fresh (key_object key)))))) as Hd.
        destruct (dec_pad 20 _) as [|x l]; [done|]. apply Forall_cons in Hd as [Hd _].
        cbn [hd]. lia.
  - done.
  - cbn [str_join]. unfold zlen. repeat (rewrite length_app; cbn [length]).
    rewrite !dec_pad_length. unfold KEY_BYTES_MAX. change (length NAMESPACE_VERSION) with 2%nat.
    change (length TABLE_SEGMENT) with 5%nat.
    assert (length (store_name (store (key_object key))) ≤ 9)%nat by (by destruct (store _); vm_compute; lia).
    lia.
Qed.
