(* ===== verification/StoreTheory.v ===== *)
(** What the operations of the typed stores say about the object store.

    The operations are those of [Stores.v]; the object store is any backend that
    satisfies the laws of [ObjectStore.v], over its contents or over a richer state.  No
    operation panics.  A read returns bytes
    the store held and their checked decoding; a listing finds the newest coordinate of
    its namespace; a durable establishment means the store held the candidate's bytes,
    and every operation changes at most the one object it names. *)

From S2P Require Import Prelude OrdMap Text Domain Coordinates Partition Seal Wal Forest.
From S2P Require Import ForestTheory Archive Spelling Sst Writer WriterSafety WriterSystem.
From S2P Require Import Bootstrap BootstrapSafety ObjectStore Stores.

(** * Spellings *)

(** The one spelling of a coordinate in a namespace of reverse ordinals. *)
Definition coord_spelling {k} (segment : str) (c : Coord k) : str :=
  str_join slash [segment; NAMESPACE_VERSION; dec_pad 20 (u64_max - coord_get c)].
Definition seal_spelling (g : SealGeneration) : str := coord_spelling SEAL_SEGMENT g.
Definition wal_spelling (b : BatchId) : str := coord_spelling WAL_SEGMENT b.

Lemma seal_object_key_spelling g :
  ∃ key, seal_object_key g = Ret key ∧ key_str key = seal_spelling g.
Proof.
  destruct (seal_object_key_Ret g) as (key & Hk & Hd). exists key. split; [done|].
  unfold SealKey_display in Hd. rewrite coordinate_key_display_Ret in Hd. by injection Hd.
Qed.

Lemma wal_object_key_spelling b :
  ∃ key, wal_object_key b = Ret key ∧ key_str key = wal_spelling b.
Proof.
  destruct (wal_object_key_Ret b) as (key & Hk & Hd). exists key. split; [done|].
  unfold WalKey_display in Hd. rewrite coordinate_key_display_Ret in Hd. by injection Hd.
Qed.

Lemma coord_spelling_order {k} segment (c d : Coord k) :
  ord_lt (coord_spelling segment c) (coord_spelling segment d) ↔ coord_get d < coord_get c.
Proof. apply (coordinate_key_order segment); apply coordinate_key_display_Ret. Qed.

Lemma coord_spelling_inj {k} segment (c d : Coord k) :
  coord_spelling segment c = coord_spelling segment d → c = d.
Proof.
  intros He. apply coord_get_inj.
  destruct (Z.lt_trichotomy (coord_get c) (coord_get d)) as [H|[H|H]]; [|done|];
    apply (coord_spelling_order segment) in H; rewrite He in H; by apply ord_lt_irrefl in H.
Qed.

(** * The newest coordinate of a namespace *)

(** A listing's first key is the newest coordinate, since ordinals are spelled in
    reverse. *)
Definition newest {k} (segment : str) (observed : option (Coord k)) (d : gmap str (list Z)) : Prop :=
  match observed with
  | Some g =>
      is_Some (d !! coord_spelling segment g) ∧
      ∀ c : Coord k, is_Some (d !! coord_spelling segment c) → coord_get c ≤ coord_get g
  | None => ∀ c : Coord k, d !! coord_spelling segment c = None
  end.

Lemma coord_spelling_listed {k} segment (c : Coord k) :
  listed_after (segment ++ slash :: NAMESPACE_VERSION) None (coord_spelling segment c) = true.
Proof.
  unfold listed_after, coord_spelling. cbn [str_join].
  replace (segment ++ slash :: NAMESPACE_VERSION ++ slash :: dec_pad 20 (u64_max - coord_get c))
    with (((segment ++ slash :: NAMESPACE_VERSION) ++ [47]) ++ dec_pad 20 (u64_max - coord_get c))
    by (by rewrite <- !(assoc_L (++))).
  by rewrite starts_with_app.
Qed.

Lemma elem_of_keys_under c prefix start k :
  k ∈ keys_under c prefix start ↔ listed_after prefix start k = true ∧ is_Some (c !! k).
Proof.
  unfold keys_under. rewrite list_elem_of_filter. f_equiv. rewrite list_elem_of_fmap. split.
  - intros ([k' v] & -> & Hin%elem_of_om_iter). by eexists.
  - intros [v Hv]. exists (k, v). split; [done|]. by apply elem_of_om_iter.
Qed.

Lemma StronglySorted_filter {A} (R : relation A) (P : A → Prop) `{∀ x, Decision (P x)} l :
  StronglySorted R l → StronglySorted R (filter P l).
Proof.
  induction 1 as [|x l Hl IH Hx]; [constructor|]. rewrite filter_cons. case_decide; [|done].
  constructor; [done|]. rewrite Forall_forall in *. intros y [_ Hy]%list_elem_of_filter. auto.
Qed.

Lemma keys_under_sorted c prefix start : StronglySorted ord_lt (keys_under c prefix start).
Proof. unfold keys_under. apply StronglySorted_filter, om_iter_sorted. Qed.

Lemma keys_under_head c prefix start k l :
  keys_under c prefix start = k :: l →
  ∀ k', k' ∈ keys_under c prefix start → k' = k ∨ ord_lt k k'.
Proof.
  intros Hk k'. pose proof (keys_under_sorted c prefix start) as Hs. rewrite Hk in Hs |- *. apply StronglySorted_inv in Hs as [_ Hs]. rewrite Forall_forall in Hs.
  rewrite elem_of_cons. intros [->|Hin]; [by left|right; by apply Hs].
Qed.

(** The page of one key under a namespace, read as a coordinate. *)
Lemma first_key_newest {k} segment (page : ListPage) request d :
  no_char slash segment →
  key_str (list_prefix request) = segment ++ slash :: NAMESPACE_VERSION →
  start_exclusive request = None → 1 ≤ content (keys_max request) →
  page_means request page d →
  match page_keys page with
  | [] => newest segment (@None (Coord k)) d
  | listed :: _ => ∀ g : Coord k,
      coordinate_key_from_str segment (key_str listed) = Ret (Ok g) → newest segment (Some g) d
  end.
Proof.
  intros Hno Hp Hst Hmax [Hk _]. rewrite Hst, Hp in Hk. cbn [fmap option_fmap option_map] in Hk.
  set (all := keys_under d (segment ++ slash :: NAMESPACE_VERSION) None) in *.
  assert (∀ c : Coord k, is_Some (d !! coord_spelling segment c) → coord_spelling segment c ∈ all)
    as Hall.
  { intros c Hc. apply elem_of_keys_under. split; [apply coord_spelling_listed|done]. }
  destruct (Z.to_nat (content (keys_max request))) as [|n] eqn:Hn; [lia|].
  destruct (page_keys page) as [|listed rest].
  - destruct all as [|x all]; [|done]. intros c. destruct (d !! _) eqn:Hc; [|done].
    destruct (not_elem_of_nil (coord_spelling segment c)). apply Hall. by eexists.
  - destruct all as [|x l] eqn:Ha; [done|]. injection Hk as Hx _. intros g Hg.
    apply coordinate_key_roundtrip in Hg; [|done]. rewrite coordinate_key_display_Ret in Hg.
    injection Hg as Hg. change (coord_spelling segment g = key_str listed) in Hg.
    rewrite Hx in Hg. unfold all in Ha. split.
    + rewrite Hg. apply (elem_of_keys_under _ (segment ++ slash :: NAMESPACE_VERSION) None).
      rewrite Ha. apply elem_of_cons. by left.
    + intros c Hc. destruct (keys_under_head _ _ _ _ _ Ha (coord_spelling segment c)) as [He|Hlt].
      * rewrite Ha. by apply Hall.
      * rewrite <- Hg in He. apply coord_spelling_inj in He as ->. done.
      * rewrite <- Hg in Hlt. apply coord_spelling_order in Hlt. lia.
Qed.

(** * The operations *)

(** ** Candidates, namespaces and decodings *)

Section pure.
  Context {J : Jiff} {RL : RowLayout} {RW : Rkyv ArchivedWalObject} {RS : Rkyv ArchivedSeal}.
  Context {RD : Rkyv (SstArchive ArchivedDirectoryRow)} {RG : Rkyv (SstArchive ArchivedLedgerRow)}.

Lemma candidate_put_body bytes bytes_max :
  candidate_bytes_ok bytes bytes_max = true → bytes_max ≤ PUT_BYTES_MAX →
  ∃ body, PutBody_try_from bytes = Ok body ∧ body_bytes body = bytes.
Proof.
  unfold candidate_bytes_ok. intros [Hne Hlen%Z.leb_le]%andb_true_iff Hmax.
  apply negb_true_iff, bool_decide_eq_false in Hne.
  apply checked_total. unfold accepts, put_body_check. rewrite bool_decide_eq_false_2 by done.
  by rewrite (proj2 (Z.ltb_ge _ _)) by lia.
Qed.

Lemma seal_bytes_max : SEAL_ENCODED_BYTES_MAX ≤ PUT_BYTES_MAX.
Proof. done. Qed.
Lemma wal_bytes_max : WAL_ENCODED_BYTES_MAX ≤ PUT_BYTES_MAX.
Proof. done. Qed.
Lemma sst_bytes_max : SST_OBJECT_BYTES_MAX ≤ PUT_BYTES_MAX.
Proof. done. Qed.

Lemma newest_keys_bound_Ret : ∃ bound, newest_keys_bound = Ret bound ∧ content bound = 1.
Proof.
  unfold newest_keys_bound. destruct (checked_total keys_bound_check 1) as (b & -> & Hb); [done|].
  eauto.
Qed.

Lemma namespace_key segment :
  segment_legal segment → zlen segment ≤ 900 →
  ∃ key, object_key (segment ++ slash :: NAMESPACE_VERSION) = Ret key ∧
    key_str key = segment ++ slash :: NAMESPACE_VERSION.
Proof.
  intros Hs Hlen. apply (object_key_join [segment; NAMESPACE_VERSION]); [done| | |].
  - constructor; [done|]. constructor; [by apply literal_legal|constructor].
  - destruct Hs as [Hne _]. by destruct segment.
  - cbn [str_join]. unfold zlen in *. rewrite length_app. cbn [length]. unfold KEY_BYTES_MAX.
    change (length NAMESPACE_VERSION) with 2%nat. lia.
Qed.

Lemma read_bound_Ret n : 1 ≤ n ≤ u64_max →
  ∃ bound, expect (ByteBound_try_from n) = Ret bound ∧ content bound = n.
Proof.
  intros Hn. unfold ByteBound_try_from. destruct (NonZeroU64_new_in n Hn) as (bound & -> & Hb).
  eauto.
Qed.

Definition seal_rejected (generation : SealGeneration) (bytes : list Z) : Prop :=
  SEAL_ENCODED_BYTES_MAX < zlen bytes ∨ ∃ e, decode_seal generation bytes = Ret (Err e).

(** The observed WAL object retains the exact bytes it decoded from. *)
Definition observed_decodes (partition : PartitionId) (batch : BatchId) (bytes : list Z)
    (observed : ObservedWal) : Prop :=
  decode_wal partition batch bytes = Ret (Ok (observed_object observed)) ∧
  body_bytes (observed_bytes observed) = bytes.

Definition wal_rejected (partition : PartitionId) (batch : BatchId) (bytes : list Z) : Prop :=
  WAL_ENCODED_BYTES_MAX < zlen bytes ∨ bytes = [] ∨
  ∃ e, decode_wal partition batch bytes = Ret (Err e).

Lemma table_ref_bytes (table : TableRef) : 1 ≤ object_bytes table ≤ u64_max.
Proof. apply nonzero_bounds. Qed.

Lemma decode_table_Ret partition key bytes :
  ∃ r, decode_table partition key bytes = Ret r ∧
    match r with
    | Ok decoded => ∀ table, table_object table = key_object key → decoded_matches table decoded
    | Err (StoreContradiction _) => True
    | Err _ => False
    end.
Proof.
  unfold decode_table. destruct (store (key_object key)) eqn:Hs; [| |by eexists|by eexists].
  - eexists. split; [reflexivity|].
    destruct (decode_directory_sst partition key bytes) as [rows|] eqn:Hd; [|done].
    intros table Ht. split; [by rewrite Ht|by eapply decode_directory_sst_ok].
  - pose proof (decode_ledger_sst_no_panic partition key bytes).
    destruct (decode_ledger_sst partition key bytes) as [[rows|]|] eqn:Hd; [| |done];
      (eexists; split; [reflexivity|]); [|done].
    intros table Ht. split; [by rewrite Ht|by eapply decode_ledger_sst_ok].
Qed.

(** Why a selected table is refused: it is absent, or it has not the bytes its Seal
    records, or they do not decode as the table named. *)
Definition table_refused (partition : PartitionId) (table : TableRef) (d : gmap str (list Z)) : Prop :=
  let key := mk_table_key (table_object table) in
  match d !! TableKey_display key with
  | None => True
  | Some bytes =>
      zlen bytes ≠ object_bytes table ∨ ∃ e, decode_table partition key bytes = Ret (Err e)
  end.

End pure.

(** ** Operations over states *)

Section state_operations.
  Context {DF : DebugFormat} {B : Backend} {SS : StoreState} {ST : StateLaws} {J : Jiff} {RL : RowLayout}.
  Context {RW : Rkyv ArchivedWalObject} {RS : Rkyv ArchivedSeal}.
  Context {RD : Rkyv (SstArchive ArchivedDirectoryRow)} {RG : Rkyv (SstArchive ArchivedLedgerRow)}.

(** One page of one key under a namespace: what the first key reads as. *)
Lemma newest_listed {k} segment w :
  segment_legal segment → zlen segment ≤ 900 →
  ∃ prefix bound w' r,
    object_key (segment ++ slash :: NAMESPACE_VERSION) = Ret prefix ∧
    newest_keys_bound = Ret bound ∧
    list_page w (mk_list_request prefix None bound) = Ret (w', r) ∧
    quiet (state w) (state w') ∧
    ∀ page, r = Ok page →
      match page_keys page with
      | [] => meanwhile (state w) (state w') (newest segment (@None (Coord k)))
      | listed :: _ =>
          ∃ parsed : Result KeySpellingError (Coord k),
            coordinate_key_from_str segment (key_str listed) = Ret parsed ∧
            ∀ g, parsed = Ok g → meanwhile (state w) (state w') (newest segment (Some g))
      end.
Proof.
  intros Hs Hlen. destruct (namespace_key segment Hs Hlen) as (prefix & Hp & Hpk).
  destruct newest_keys_bound_Ret as (bound & Hm & Hmc).
  destruct (list_says w (mk_list_request prefix None bound)) as (w' & r & Hl & He & Hpage).
  exists prefix, bound, w', r. split_and!; [done..|]. intros page Hr.
  destruct (Hpage page Hr) as (d & H1 & Hd & H2).
  pose proof (legal_no_slash segment Hs) as Hno.
  pose proof (first_key_newest (k := k) segment page (mk_list_request prefix None bound) (view d)
    Hno Hpk eq_refl) as Hfirst.
  cbn [keys_max] in Hfirst. rewrite Hmc in Hfirst. specialize (Hfirst ltac:(lia) Hd).
  destruct (page_keys page) as [|listed rest]; [by exists d|].
  destruct (coordinate_key_from_str segment (key_str listed)) as [parsed|] eqn:Hc.
  - exists parsed. split; [done|]. intros g ->. exists d. auto.
  - exfalso.
    destruct (coordinate_key_roundtrip segment (key_str listed) (mk_coord (k := k) (mk_refined (P := nonzero_u64) 1 I))
      Hno). done.
Qed.

(** Both namespaces list alike. *)
Ltac newest_cases segment kind parse w :=
  destruct (newest_listed (k := kind) segment w) as (prefix & bound & w' & r & Hp & Hm & Hl & He & Hpage);
    [by apply literal_legal|done|];
  rewrite Hp, Hm; cbn [exec_bind]; rewrite Hl;
  destruct r as [page|e]; cbn [world_map_err map_err world_bind];
  [specialize (Hpage page eq_refl); destruct (page_keys page) as [|listed rest];
   [eexists _, _; split_and!; [reflexivity|done|]; by intros ? [= <-]
   |destruct Hpage as (parsed & Hparsed & Hg); unfold parse; rewrite Hparsed;
    cbn [exec_bind]; eexists _, _; split_and!; [reflexivity|done|];
    destruct parsed as [g|]; [|done]; intros ? [= <-]; auto]
  |eexists _, _; by split_and!].

Lemma newest_generation_says w :
  ∃ w' r, newest_generation w = Ret (w', r) ∧ quiet (state w) (state w') ∧
    ∀ observed, r = Ok observed →
      meanwhile (state w) (state w') (newest SEAL_SEGMENT observed).
Proof.
  unfold newest_generation, SealNamespace_display.
  newest_cases SEAL_SEGMENT KGeneration SealKey_from_str w.
Qed.

Lemma newest_surviving_batch_says w :
  ∃ w' r, newest_surviving_batch w = Ret (w', r) ∧ quiet (state w) (state w') ∧
    ∀ observed, r = Ok observed →
      meanwhile (state w) (state w') (newest WAL_SEGMENT observed).
Proof.
  unfold newest_surviving_batch, WalNamespace_display.
  newest_cases WAL_SEGMENT KBatch WalKey_from_str w.
Qed.

(** What a checked read says: the store held bytes that decode to the answer, or held
    nothing; a contradiction is reported only of bytes the store held that a checked
    read rejects, never of a transport failure.  A read changes nothing itself. *)
Definition found_says {A : Type} (k : str) (decodes : list Z → A → Prop) (rejects : list Z → Prop)
    (c c' : State) (r : Result TypedStoreError (option A)) : Prop :=
  quiet c c' ∧
  match r with
  | Ok (Some a) => meanwhile c c' (λ d, ∃ bytes, d !! k = Some bytes ∧ decodes bytes a)
  | Ok None => meanwhile c c' (λ d, d !! k = None)
  | Err (StoreContradiction _) => meanwhile c c' (λ d, ∃ bytes, d !! k = Some bytes ∧ rejects bytes)
  | Err _ => True
  end.

(** Errors of the adapter pass through; only oversize is a contradiction. *)
Lemma found_err {A : Type} k (decodes : list Z → A → Prop) (rejects : list Z → Prop) bytes_max
    c c' e :
  read_says k bytes_max c c' (Err e) → (∀ bytes, bytes_max < zlen bytes → rejects bytes) →
  found_says k decodes rejects c c' (Err (typed_store_error e)).
Proof.
  intros Hr Hrej. destruct e as [| |[]]; cbn [read_says typed_store_error] in *;
    try (by split); try done.
  destruct Hr as [_ Hr]. split; [by eapply meanwhile_quiet|].
  destruct Hr as (d & H1 & (body & Hd & Hlt) & H2). exists d. eauto 6.
Qed.

Lemma read_says_quiet k bytes_max c c' r : read_says k bytes_max c c' r → quiet c c'.
Proof.
  destruct r as [[raw|]|[| |[]]]; simpl; try done; try apply meanwhile_quiet.
  - intros [H _]. by eapply meanwhile_quiet.
  - intros [_ H]. by eapply meanwhile_quiet.
Qed.

Lemma read_seal_says w generation :
  ∃ w' r, read_seal w generation = Ret (w', r) ∧
    found_says (seal_spelling generation)
      (λ bytes seal, decode_seal generation bytes = Ret (Ok seal)) (seal_rejected generation)
      (state w) (state w') r.
Proof.
  unfold read_seal, seal_read_bound.
  destruct (seal_object_key_spelling generation) as (key & -> & Hk). cbn [exec_bind].
  destruct (read_bound_Ret SEAL_ENCODED_BYTES_MAX) as (bound & -> & Hbound);
    [by vm_compute|].
  cbn [exec_bind]. destruct (read_object_says w key bound) as (w' & r & -> & Hr).
  pose proof (read_says_quiet _ _ _ _ _ Hr) as He. rewrite Hk, Hbound in Hr.
  destruct r as [[raw|]|e]; cbn [world_map_err map_err world_bind].
  - pose proof (decode_seal_checked generation (raw_body raw)) as Hd.
    destruct (decode_seal generation (raw_body raw)) as [decoded|] eqn:Hdec; [|done].
    cbn [exec_bind]. eexists _, _. split; [reflexivity|]. split; [done|].
    destruct Hr as [(d & H1 & Hd' & H2) _].
    destruct decoded as [seal|]; exists d; unfold seal_rejected; eauto 8.
  - eexists _, _. split; [reflexivity|]. by split.
  - eexists _, _. split; [reflexivity|]. eapply found_err; [done|]. by left.
Qed.

Lemma read_wal_says w partition batch :
  ∃ w' r, read_wal w partition batch = Ret (w', r) ∧
    found_says (wal_spelling batch) (observed_decodes partition batch)
      (wal_rejected partition batch) (state w) (state w') r.
Proof.
  unfold read_wal, wal_read_bound.
  destruct (wal_object_key_spelling batch) as (key & -> & Hk). cbn [exec_bind].
  destruct (read_bound_Ret WAL_ENCODED_BYTES_MAX) as (bound & -> & Hbound);
    [by vm_compute|].
  cbn [exec_bind]. destruct (read_object_says w key bound) as (w' & r & -> & Hr).
  pose proof (read_says_quiet _ _ _ _ _ Hr) as He. rewrite Hk, Hbound in Hr.
  destruct r as [[raw|]|e]; cbn [world_map_err map_err world_bind].
  - pose proof (decode_wal_checked partition batch (raw_body raw)) as Hd.
    destruct (decode_wal partition batch (raw_body raw)) as [decoded|] eqn:Hdec; [|done].
    cbn [exec_bind]. eexists _, _. split; [reflexivity|]. split; [done|].
    destruct Hr as [(d & H1 & Hd' & H2) Hlen].
    destruct decoded as [object|]; cbn [map_err result_bind];
      [|exists d; unfold wal_rejected; eauto 9].
    destruct (PutBody_try_from (raw_body raw)) as [body|] eqn:Hb.
    + apply checked_Ok in Hb. exists d. split_and!; [done| |done]. exists (raw_body raw). by split.
    + exists d. split_and!; [done| |done]. exists (raw_body raw). split; [done|]. right. left.
      apply dec_stable. intros Hne.
      destruct (candidate_put_body (raw_body raw) WAL_ENCODED_BYTES_MAX) as (x & Hx & _);
        [|apply wal_bytes_max|congruence].
      unfold candidate_bytes_ok. rewrite bool_decide_eq_false_2 by done.
      apply Z.leb_le. lia.
  - eexists _, _. split; [reflexivity|]. by split.
  - eexists _, _. split; [reflexivity|]. eapply found_err; [done|]. by left.
Qed.

(** What a table read says. *)
Definition table_read_tells (partition : PartitionId) (table : TableRef)
    (c c' : State) (r : Result TypedStoreError DecodedTable) : Prop :=
  let key := mk_table_key (table_object table) in
  quiet c c' ∧
  match r with
  | Ok decoded =>
      decoded_matches table decoded ∧
      meanwhile c c' (λ d, ∃ bytes, d !! TableKey_display key = Some bytes ∧
        zlen bytes = object_bytes table ∧ decode_table partition key bytes = Ret (Ok decoded))
  | Err (StoreContradiction _) => meanwhile c c' (table_refused partition table)
  | Err _ => True
  end.

Lemma read_table_says w partition table :
  ∃ w' r, read_table w partition table = Ret (w', r) ∧
    table_read_tells partition table (state w) (state w') r.
Proof.
  unfold read_table. set (key := mk_table_key (table_object table)).
  destruct (table_object_key_Ret key) as (okey & -> & Hk). cbn [exec_bind].
  destruct (read_bound_Ret _ (table_ref_bytes table)) as (bound & -> & Hbound). cbn [exec_bind].
  destruct (read_object_says w okey bound) as (w' & r & -> & Hr).
  pose proof (read_says_quiet _ _ _ _ _ Hr) as He. rewrite Hk, Hbound in Hr.
  unfold table_read_tells, table_refused. fold key.
  destruct r as [[raw|]|e]; cbn [world_map_err map_err world_bind].
  - destruct Hr as [(d & H1 & Hd & H2) _].
    destruct (Z.eqb_spec (zlen (raw_body raw)) (object_bytes table)) as [Hz|Hz]; cbn [negb].
    2: { eexists _, _. split; [reflexivity|]. split; [done|]. exists d. rewrite Hd. auto. }
    destruct (decode_table_Ret partition key (raw_body raw)) as (decoded & Hdec & Hm).
    rewrite Hdec. cbn [exec_bind]. eexists _, _. split; [reflexivity|]. split; [done|].
    destruct decoded as [decoded|[| |detail]]; [|done|done|].
    + split; [by apply Hm|]. exists d. eauto 6.
    + exists d. rewrite Hd. eauto 6.
  - eexists _, _. split; [reflexivity|]. split; [done|]. destruct Hr as (d & H1 & Hd & H2).
    exists d. by rewrite Hd.
  - eexists _, _. split; [reflexivity|]. split; [done|].
    destruct e as [| |[]]; cbn [read_says typed_store_error] in *; try done.
    destruct Hr as [_ (d & H1 & (body & Hd & Hlt) & H2)]. exists d. rewrite Hd.
    split_and!; [done| |done]. left. lia.
Qed.

(** A RUN delete removes at most the authorised coordinate. *)
Lemma delete_run_says w proof :
  ∃ w' r, delete_run w proof = Ret (w', r) ∧
    let k := wal_spelling (run_delete_batch proof) in
    match r with
    | Ok _ => erased k (ask_delete k (state w)) (state w')
    | Err _ => quiet (ask_delete k (state w)) (state w') ∨ erased k (ask_delete k (state w)) (state w')
    end.
Proof.
  unfold delete_run. destruct (wal_object_key_spelling (run_delete_batch proof)) as (key & -> & <-).
  cbn [exec_bind]. destruct (delete_says w key) as (w' & r & -> & Hr).
  eexists _, _. split; [reflexivity|]. by destruct r.
Qed.

Lemma delete_table_says w object :
  ∃ w' r, delete_table w object = Ret (w', r) ∧
    let k := TableKey_display (mk_table_key object) in
    match r with
    | Ok _ => erased k (ask_delete k (state w)) (state w')
    | Err _ => quiet (ask_delete k (state w)) (state w') ∨ erased k (ask_delete k (state w)) (state w')
    end.
Proof.
  unfold delete_table. destruct (table_object_key_Ret (mk_table_key object)) as (key & -> & <-).
  cbn [exec_bind]. destruct (delete_says w key) as (w' & r & -> & Hr).
  eexists _, _. split; [reflexivity|]. by destruct r.
Qed.

End state_operations.

(** ** Operations over contents *)

Section operations.
  Context {DF : DebugFormat} {B : Backend} {BL : BackendLaws} {J : Jiff} {RL : RowLayout}.
  Context {RW : Rkyv ArchivedWalObject} {RS : Rkyv ArchivedSeal}.
  Context {RD : Rkyv (SstArchive ArchivedDirectoryRow)} {RG : Rkyv (SstArchive ArchivedLedgerRow)}.

(** At some moment of an establishment, before or after its create took effect. *)
Definition during (k : str) (body : list Z) (c c' : gmap str (list Z)) (P : gmap str (list Z) → Prop) :
    Prop :=
  ∃ d, created k body c d ∧ P d ∧ env d c'.

(** The store held these bytes. *)
Definition established (k : str) (body : list Z) (c c' : gmap str (list Z)) : Prop :=
  during k body c c' (λ d, d !! k = Some body).

(** Other bytes occupied the key. *)
Definition occupied (k : str) (body : list Z) (c c' : gmap str (list Z)) : Prop :=
  during k body c c' (λ d, ∃ other, d !! k = Some other ∧ other ≠ body).

Lemma inserted_established k body c c' : inserted k body c c' → established k body c c'.
Proof.
  intros (d & H1 & Hn & H). exists (<[k := body]> d). split_and!; [|apply lookup_insert_eq|done].
  right. by exists d.
Qed.

Lemma sometime_during (k : str) (body : list Z) (c c' : gmap str (list Z)) (P : gmap str (list Z) → Prop) :
  sometime c c' P → during k body c c' P.
Proof. intros (d & H1 & Hd & H). exists d. split_and!; [by left|done|done]. Qed.

Lemma sometime_established k body c c' :
  sometime c c' (λ d, d !! k = Some body) → established k body c c'.
Proof. apply sometime_during. Qed.

Lemma sometime_occupied k body c c' :
  sometime c c' (λ d, ∃ other, d !! k = Some other ∧ other ≠ body) → occupied k body c c'.
Proof. apply sometime_during. Qed.

(** A read after the create. *)
Lemma during_later (k : str) (body : list Z) (c c1 c' : gmap str (list Z)) (P : gmap str (list Z) → Prop) :
  created k body c c1 → sometime c1 c' P → during k body c c' P.
Proof. intros Hc (d & H1 & Hd & H). exists d. split_and!; [by eapply created_post|done|done]. Qed.

Lemma create_bytes_Ret w key bytes bytes_max :
  candidate_bytes_ok bytes bytes_max = true → bytes_max ≤ PUT_BYTES_MAX →
  ∃ w' r, create_bytes w key bytes = Ret (w', map_err typed_store_error r) ∧
    evidence_means (key_str key) bytes (contents w) (contents w') r.
Proof.
  intros Hb Hmax. unfold create_bytes.
  destruct (candidate_put_body bytes bytes_max Hb Hmax) as (body & -> & Hbody).
  cbn [expect_ok exec_bind]. destruct (create_if_absent_Ret w key body) as (w' & r & -> & Hr).
  exists w', r. split; [done|]. by rewrite Hbody in Hr.
Qed.

(** ** Seals *)

Lemma create_seal_Ret w generation bytes :
  candidate_bytes_ok bytes SEAL_ENCODED_BYTES_MAX = true →
  ∃ w' r, create_seal w generation bytes = Ret (w', map_err typed_store_error r) ∧
    evidence_means (seal_spelling generation) bytes (contents w) (contents w') r.
Proof.
  intros Hb. unfold create_seal. destruct (seal_object_key_spelling generation) as (key & -> & Hk).
  cbn [exec_bind]. rewrite <- Hk. apply (create_bytes_Ret _ _ _ _ Hb), seal_bytes_max.
Qed.

(** What each answer to a genesis create says. *)
Definition genesis_means (k : str) (bytes : list Z) (c c' : gmap str (list Z))
    (r : Result TypedStoreError GenesisEstablishment) : Prop :=
  created k bytes c c' ∧
  match r with
  | Ok GenesisEstablished => established k bytes c c'
  | Ok GenesisLostRace => occupied k bytes c c'
  | _ => True
  end.

Lemma store_establish_genesis_Ret w candidate :
  candidate_bytes_ok (genesis_bytes candidate) SEAL_ENCODED_BYTES_MAX = true →
  ∃ w' r, store_establish_genesis w candidate = Ret (w', r) ∧
    genesis_means (seal_spelling (seal_generation (genesis_seal candidate)))
      (genesis_bytes candidate) (contents w) (contents w') r.
Proof.
  intros Hb. unfold store_establish_genesis.
  destruct (create_seal_Ret w (seal_generation (genesis_seal candidate)) _ Hb) as (w' & r & -> & Hr).
  destruct r as [e|e]; cbn [map_err world_bind]; eexists _, _; (split; [reflexivity|]);
    (split; [by eapply evidence_created|]); [|done].
  destruct e; eauto using inserted_established, sometime_established, sometime_occupied.
Qed.

(** What each answer to an authority create says: only the direct create authors. *)
Definition authority_means (k : str) (bytes : list Z) (c c' : gmap str (list Z))
    (r : Result TypedStoreError SealPublication) : Prop :=
  created k bytes c c' ∧
  match r with
  | Ok Authored => inserted k bytes c c'
  | Ok NoAuthority => sometime c c' (λ d, is_Some (d !! k))
  | _ => True
  end.

Lemma publish_authority_Ret w candidate :
  candidate_bytes_ok (authority_bytes candidate) SEAL_ENCODED_BYTES_MAX = true →
  ∃ w' r, publish_authority w candidate = Ret (w', r) ∧
    authority_means (seal_spelling (seal_generation (authority_seal candidate)))
      (authority_bytes candidate) (contents w) (contents w') r.
Proof.
  intros Hb. unfold publish_authority.
  destruct (create_seal_Ret w (seal_generation (authority_seal candidate)) _ Hb)
    as (w' & r & -> & Hr).
  destruct r as [e|e]; cbn [map_err world_bind]; eexists _, _; (split; [reflexivity|]);
    (split; [by eapply evidence_created|]); [|done].
  destruct e; cbn [evidence_means] in Hr; [done| | |done]; destruct Hr as (d & H1 & Hd & H2);
    exists d; (split_and!; [done| |done]).
  - by rewrite Hd.
  - destruct Hd as (other & -> & _). by eexists.
Qed.

Lemma newest_generation_Ret w :
  ∃ w' r, newest_generation w = Ret (w', r) ∧ env (contents w) (contents w') ∧
    ∀ observed, r = Ok observed →
      sometime (contents w) (contents w') (newest SEAL_SEGMENT observed).
Proof. exact (newest_generation_says (ST := plain_laws) w). Qed.

Lemma newest_surviving_batch_Ret w :
  ∃ w' r, newest_surviving_batch w = Ret (w', r) ∧ env (contents w) (contents w') ∧
    ∀ observed, r = Ok observed →
      sometime (contents w) (contents w') (newest WAL_SEGMENT observed).
Proof. exact (newest_surviving_batch_says (ST := plain_laws) w). Qed.

(** ** Reads *)

(** What a checked read says: the store held bytes that decode to the answer, or held
    nothing; a contradiction is reported only of bytes the store held that a checked
    read rejects, never of a transport failure.  A read changes nothing itself. *)
Definition read_found {A : Type} (k : str) (decodes : list Z → A → Prop) (rejects : list Z → Prop)
    (c c' : gmap str (list Z)) (r : Result TypedStoreError (option A)) : Prop :=
  env c c' ∧
  match r with
  | Ok (Some a) => sometime c c' (λ d, ∃ bytes, d !! k = Some bytes ∧ decodes bytes a)
  | Ok None => sometime c c' (λ d, d !! k = None)
  | Err (StoreContradiction _) => sometime c c' (λ d, ∃ bytes, d !! k = Some bytes ∧ rejects bytes)
  | Err _ => True
  end.

Lemma read_means_env k bytes_max c c' r : read_means k bytes_max c c' r → env c c'.
Proof.
  destruct r as [[raw|]|[| |[]]]; simpl; try done; try apply sometime_env.
  - intros [H _]. by eapply sometime_env.
  - intros [_ H]. by eapply sometime_env.
Qed.

Lemma read_seal_Ret w generation :
  ∃ w' r, read_seal w generation = Ret (w', r) ∧
    read_found (seal_spelling generation)
      (λ bytes seal, decode_seal generation bytes = Ret (Ok seal)) (seal_rejected generation)
      (contents w) (contents w') r.
Proof. exact (read_seal_says (ST := plain_laws) w generation). Qed.

Lemma read_wal_Ret w partition batch :
  ∃ w' r, read_wal w partition batch = Ret (w', r) ∧
    read_found (wal_spelling batch) (observed_decodes partition batch)
      (wal_rejected partition batch) (contents w) (contents w') r.
Proof. exact (read_wal_says (ST := plain_laws) w partition batch). Qed.

(** ** WAL objects *)

Lemma create_wal_Ret w candidate :
  candidate_bytes_ok (encoded_wal_bytes candidate) WAL_ENCODED_BYTES_MAX = true →
  ∃ w' r, create_wal w candidate = Ret (w', map_err typed_store_error r) ∧
    evidence_means (wal_spelling (encoded_wal_batch candidate)) (encoded_wal_bytes candidate)
      (contents w) (contents w') r.
Proof.
  intros Hb. unfold create_wal.
  destruct (wal_object_key_spelling (encoded_wal_batch candidate)) as (key & -> & Hk).
  cbn [exec_bind]. rewrite <- Hk. apply (create_bytes_Ret _ _ _ _ Hb), wal_bytes_max.
Qed.

(** What each answer to a WAL establishment says. *)
Definition establishment_means (k : str) (bytes : list Z) (c c' : gmap str (list Z))
    (r : Result TypedStoreError WalEstablishment) : Prop :=
  created k bytes c c' ∧
  match r with
  | Ok WalDurable => established k bytes c c'
  | Ok WalOccupied => occupied k bytes c c'
  | Ok UnresolvedAbsent => during k bytes c c' (λ d, d !! k = None)
  | Err _ => True
  end.

Lemma establish_wal_Ret w candidate :
  candidate_bytes_ok (encoded_wal_bytes candidate) WAL_ENCODED_BYTES_MAX = true →
  ∃ w' r, establish_wal w candidate = Ret (w', r) ∧
    establishment_means (wal_spelling (encoded_wal_batch candidate)) (encoded_wal_bytes candidate)
      (contents w) (contents w') r.
Proof.
  intros Hb. unfold establish_wal.
  destruct (create_wal_Ret w candidate Hb) as (w1 & r & -> & Hr).
  pose proof (evidence_created _ _ _ _ _ Hr) as Hc.
  destruct r as [[]|e]; cbn [map_err world_bind].
  1-3: eexists _, _; (split; [reflexivity|]); split; [done|];
    eauto using inserted_established, sometime_established, sometime_occupied.
  2: by eexists _, _.
  destruct (read_wal_Ret w1 (encoded_wal_partition candidate) (encoded_wal_batch candidate))
    as (w2 & r & -> & He & Hf).
  assert (created (wal_spelling (encoded_wal_batch candidate)) (encoded_wal_bytes candidate)
    (contents w) (contents w2)) by (by eapply created_post).
  destruct r as [[observed|]|e]; cbn [world_bind]; eexists _, _; (split; [reflexivity|]);
    (split; [done|]); [| |done].
  - destruct Hf as (d & H1 & (bytes & Hd & _ & Hbytes) & H2).
    case_bool_decide as Heq; apply (during_later _ _ _ (contents w1)); try done; exists d.
    + split_and!; [done|congruence|done].
    + split_and!; [done| |done]. exists bytes. split; [done|congruence].
  - by apply (during_later _ _ _ (contents w1)).
Qed.

(** A RUN delete removes at most the authorised coordinate. *)
Lemma delete_run_Ret w proof :
  ∃ w' r, delete_run w proof = Ret (w', r) ∧
    match r with
    | Ok _ => deleted (wal_spelling (run_delete_batch proof)) (contents w) (contents w')
    | Err _ => env (contents w) (contents w') ∨
        deleted (wal_spelling (run_delete_batch proof)) (contents w) (contents w')
    end.
Proof.
  destruct (delete_run_says (ST := plain_laws) w proof) as (w' & r & Hd & Hr). exists w', r. split; [done|].
  destruct r; [by apply erased_deleted|]. destruct Hr; [by left|right; by apply erased_deleted].
Qed.

(** ** Tables *)

Lemma create_table_Ret w candidate :
  candidate_bytes_ok (table_bytes candidate) SST_OBJECT_BYTES_MAX = true →
  ∃ w' r, create_table w candidate = Ret (w', map_err typed_store_error r) ∧
    evidence_means (TableKey_display (table_key candidate)) (table_bytes candidate)
      (contents w) (contents w') r.
Proof.
  intros Hb. unfold create_table.
  destruct (table_object_key_Ret (table_key candidate)) as (key & -> & Hk).
  cbn [exec_bind]. rewrite <- Hk. apply (create_bytes_Ret _ _ _ _ Hb), sst_bytes_max.
Qed.

(** What each answer to a table establishment says: only the candidate's own bytes
    establish; foreign bytes are a contradiction; anything unknown abandons. *)
Definition table_means (k : str) (bytes : list Z) (c c' : gmap str (list Z))
    (r : TableEstablishment) : Prop :=
  created k bytes c c' ∧
  match r with TableEstablished => established k bytes c c' | _ => True end.

Lemma establish_table_Ret w candidate :
  candidate_bytes_ok (table_bytes candidate) SST_OBJECT_BYTES_MAX = true →
  ∃ w' r, establish_table w candidate = Ret (w', r) ∧
    table_means (TableKey_display (table_key candidate)) (table_bytes candidate)
      (contents w) (contents w') r.
Proof.
  intros Hb. unfold establish_table.
  destruct (create_table_Ret w candidate Hb) as (w1 & r & -> & Hr).
  pose proof (evidence_created _ _ _ _ _ Hr) as Hc. cbn [exec_bind].
  destruct r as [[]|e]; cbn [map_err].
  1-3: eexists _, _; (split; [reflexivity|]); split; [done|];
    eauto using inserted_established, sometime_established, sometime_occupied.
  2: by destruct (typed_store_error e); eexists _, _.
  unfold reconcile_table. destruct (table_object_key_Ret (table_key candidate)) as (key & -> & Hk).
  cbn [exec_bind]. destruct (read_bound_Ret _ (table_ref_bytes (table_ref candidate)))
    as (bound & -> & _).
  cbn [exec_bind]. destruct (adapter_read_Ret w1 key bound) as (w2 & r & -> & Hf).
  pose proof (read_means_env _ _ _ _ _ Hf) as He. rewrite Hk in Hf.
  assert (created (TableKey_display (table_key candidate)) (table_bytes candidate)
    (contents w) (contents w2)) by (by eapply created_post).
  destruct r as [[raw|]|e]; cbn [world_map_err map_err world_bind exec_bind].
  - destruct Hf as [(d & H1 & Hd & H2) _].
    case_bool_decide as Heq; eexists _, _; (split; [reflexivity|]); (split; [done|]); [|done].
    apply (during_later _ _ _ (contents w1)); [done|]. exists d. split_and!; [done|congruence|done].
  - by eexists _, _.
  - by destruct (typed_store_error e); eexists _, _.
Qed.

Lemma delete_table_Ret w object :
  ∃ w' r, delete_table w object = Ret (w', r) ∧
    match r with
    | Ok _ => deleted (TableKey_display (mk_table_key object)) (contents w) (contents w')
    | Err _ => env (contents w) (contents w') ∨
        deleted (TableKey_display (mk_table_key object)) (contents w) (contents w')
    end.
Proof.
  destruct (delete_table_says (ST := plain_laws) w object) as (w' & r & Hd & Hr). exists w', r. split; [done|].
  destruct r; [by apply erased_deleted|]. destruct Hr; [by left|right; by apply erased_deleted].
Qed.

(** What a table read says. *)
Definition table_read_means (partition : PartitionId) (table : TableRef)
    (c c' : gmap str (list Z)) (r : Result TypedStoreError DecodedTable) : Prop :=
  let key := mk_table_key (table_object table) in
  env c c' ∧
  match r with
  | Ok decoded =>
      decoded_matches table decoded ∧
      sometime c c' (λ d, ∃ bytes, d !! TableKey_display key = Some bytes ∧
        zlen bytes = object_bytes table ∧ decode_table partition key bytes = Ret (Ok decoded))
  | Err (StoreContradiction _) => sometime c c' (table_refused partition table)
  | Err _ => True
  end.

Lemma read_table_Ret w partition table :
  ∃ w' r, read_table w partition table = Ret (w', r) ∧
    table_read_means partition table (contents w) (contents w') r.
Proof. exact (read_table_says (ST := plain_laws) w partition table). Qed.

End operations.

(** * Properties *)

Section store_properties.
  Context {DF : DebugFormat} {B : Backend} {BL : BackendLaws} {J : Jiff} {RL : RowLayout}.
  Context {HP : Heap} {HL : HeapLaws}.
  Context {RW : Rkyv ArchivedWalObject} {LW : RkyvLaws ArchivedWalObject} {RS : Rkyv ArchivedSeal}.
  Context {RD : Rkyv (SstArchive ArchivedDirectoryRow)} {RG : Rkyv (SstArchive ArchivedLedgerRow)}.

(** The other actors leave this object alone. *)
Definition keeps (k : str) (body : list Z) : Prop :=
  ∀ d d', d !! k = Some body → env d d' → d' !! k = Some body.

Lemma keeps_established k body c c' : keeps k body → established k body c c' → c' !! k = Some body.
Proof. intros Hk (d & _ & Hd & He). by apply (Hk d). Qed.

(** Reading a kept object finds its bytes. *)
Lemma read_kept {A : Type} k body (decodes : list Z → A → Prop) rejects c c' r :
  keeps k body → c !! k = Some body → read_found k decodes rejects c c' r →
  match r with
  | Ok (Some a) => decodes body a
  | Ok None => False
  | Err (StoreContradiction _) => rejects body
  | Err _ => True
  end.
Proof.
  intros Hk Hc [_ Hr]. destruct r as [[a|]|[]]; try done; destruct Hr as (d & H1 & Hd & _);
    pose proof (Hk _ _ Hc H1) as Hd'; rewrite Hd' in Hd; [|done|]; by destruct Hd as (? & [= <-] & ?).
Qed.

(** C24: the stores answer truthfully, and never panic.  Whatever the object store and
    the other actors do around an establishment, it changes at most the object it
    names, and only to the candidate's bytes; a durable answer means the store held
    exactly those bytes at some moment of the call, an occupied answer that it held
    others, an absent answer that the coordinate was free (what holds afterwards is what
    the other actors leave); and authority is granted only to the writer whose create
    made the object. *)
Theorem store_answers_sound (w : World) :
  (∀ object candidate, EncodedWal_new object = Ret (Ok candidate) →
     ∃ w' r, establish_wal w candidate = Ret (w', r) ∧
       establishment_means (wal_spelling (wal_batch object)) (encoded_wal_bytes candidate)
         (contents w) (contents w') r) ∧
  (∀ seal candidate, EncodedAuthoritySeal_try_from seal = Ret (Ok candidate) →
     ∃ w' r, publish_authority w candidate = Ret (w', r) ∧
       authority_means (seal_spelling (seal_generation seal)) (authority_bytes candidate)
         (contents w) (contents w') r) ∧
  (∀ key bytes candidate, EncodedTable_from_encoded key bytes = Ret candidate →
     ∃ w' r, establish_table w candidate = Ret (w', r) ∧
       table_means (TableKey_display key) bytes (contents w) (contents w') r).
Proof using BL.
  split_and!.
  - intros object candidate (_ & <- & _ & Hb)%EncodedWal_new_Ok. by apply establish_wal_Ret.
  - intros seal candidate. unfold EncodedAuthoritySeal_try_from. case_bool_decide; [done|].
    destruct (EncodedSeal_new seal) as [[[s bytes]|]|] eqn:Hs; cbn [try_map_err map_err try_bind];
      [|done|done].
    apply EncodedSeal_new_Ok in Hs as (-> & _ & Hb). intros [= <-]. by apply publish_authority_Ret.
  - intros key bytes candidate. unfold EncodedTable_from_encoded.
    destruct (candidate_bytes_ok bytes _) eqn:Hb; [|done].
    destruct (NonZeroU64_new _); cbn [expect exec_bind]; [|done].
    destruct (TableRef_new _ _) as [table|]; cbn [expect_ok exec_bind]; [|done]. intros [= <-].
    by apply (establish_table_Ret w (mk_encoded_table key table bytes)).
Qed.

(** One listing of one key finds the head.  The generation returned is present in
    the store at some point of the call and no Seal of a later generation is; no
    generation returned means there was none.  The same holds of the newest surviving
    WAL coordinate. *)
Theorem newest_found (w : World) :
  (∃ w' r, newest_generation w = Ret (w', r) ∧
     ∀ observed, r = Ok observed →
       sometime (contents w) (contents w') (newest SEAL_SEGMENT observed)) ∧
  (∃ w' r, newest_surviving_batch w = Ret (w', r) ∧
     ∀ observed, r = Ok observed →
       sometime (contents w) (contents w') (newest WAL_SEGMENT observed)).
Proof using BL.
  split.
  - destruct (newest_generation_Ret w) as (w' & r & H & _ & Hr). eauto.
  - destruct (newest_surviving_batch_Ret w) as (w' & r & H & _ & Hr). eauto.
Qed.

(** C29: reading a table the Seal selected never panics; a success is the checked
    decoding of bytes the store held, of exactly the recorded length, as a non-empty
    sorted table of the named store; and a contradiction is reported only when the
    store did contradict the Seal (the object absent, of another length, or not that
    table), while a failed request is never reported as one. *)
Theorem table_read_errors (w : World) (partition : PartitionId) (table : TableRef) :
  ∃ w' r, read_table w partition table = Ret (w', r) ∧
    table_read_means partition table (contents w) (contents w') r.
Proof using BL. apply read_table_Ret. Qed.

(** C30: what is established reads back.  Once a WAL establishment answers durable, and
    as long as the other actors keep the object, every later read of the coordinate
    that succeeds returns the very object that was written; it is never absent and
    never a contradiction. *)
Theorem wal_establish_read (object : WalObject) (candidate : EncodedWal) (w w1 w2 : World) :
  body_in_range (wal_body object) → EncodedWal_new object = Ret (Ok candidate) →
  keeps (wal_spelling (wal_batch object)) (encoded_wal_bytes candidate) →
  establish_wal w candidate = Ret (w1, Ok WalDurable) → env (contents w1) (contents w2) →
  ∃ w3 r, read_wal w2 (wal_partition object) (wal_batch object) = Ret (w3, r) ∧
    match r with
    | Ok (Some observed) => observed_object observed = object
    | Ok None | Err (StoreContradiction _) => False
    | Err _ => True
    end.
Proof using BL HL LW.
  intros Hrange Hnew Hk Hest Henv.
  destruct (EncodedWal_new_Ok _ _ Hnew) as (Hp & Hb & Henc & Hok).
  destruct (establish_wal_Ret w candidate Hok) as (w' & r & Hest' & _ & Hr).
  rewrite Hest in Hest'. injection Hest' as -> <-. cbn beta iota in Hr. rewrite Hb in Hr.
  assert (contents w2 !! wal_spelling (wal_batch object) = Some (encoded_wal_bytes candidate)) as Hc.
  { apply (Hk (contents w')); [|done]. by eapply keeps_established. }
  destruct (read_wal_Ret w2 (wal_partition object) (wal_batch object)) as (w3 & r & Hread & Hf).
  exists w3, r. split; [done|]. pose proof (read_kept _ _ _ _ _ _ _ Hk Hc Hf) as Hkept.
  pose proof (decode_wal_encoded object _ Hrange Henc) as Hdec.
  destruct r as [[observed|]|[]]; [|done..|].
  - destruct Hkept as [Hd _]. congruence.
  - unfold candidate_bytes_ok in Hok. apply andb_true_iff in Hok as [Hne Hlen%Z.leb_le].
    apply negb_true_iff, bool_decide_eq_false in Hne.
    destruct Hkept as [Hlt|[Hnil|[e He]]]; [lia|done|congruence].
Qed.

End store_properties.

(** * The in-memory store as an instance *)

#[local] Existing Instances reference_heap reference_heap_laws reference_jiff reference_layout
  reference_rkyv_laws reference_backend reference_backend_laws reference_format.
#[local] Existing Instance reference_rkyv.

Definition sample_world : World := (∅ : gmap str (list Z)).
Definition first_fence_candidate : EncodedWal :=
  mk_encoded_wal sample_partition (batch_no 1 I) (rkyv_bytes (archive_wal first_fence)).
Definition sample_world_1 : World :=
  match establish_wal sample_world first_fence_candidate with Ret (w, _) => w | Panic => sample_world end.

Lemma sample_establish :
  establish_wal sample_world first_fence_candidate = Ret (sample_world_1, Ok WalDurable).
Proof.
  unfold sample_world_1.
  assert (match establish_wal sample_world first_fence_candidate with
          | Ret (_, Ok WalDurable) => true
          | _ => false
          end = true) as H by (vm_compute; reflexivity).
  by destruct (establish_wal sample_world first_fence_candidate) as [[w [[]|]]|].
Qed.

Lemma wal_establish_read_witness :
  ∃ w3 r, read_wal sample_world_1 sample_partition (batch_no 1 I) = Ret (w3, r) ∧
    match r with
    | Ok (Some observed) => observed_object observed = first_fence
    | Ok None | Err (StoreContradiction _) => False
    | Err _ => True
    end.
Proof.
  apply (wal_establish_read first_fence first_fence_candidate sample_world sample_world_1).
  - done.
  - reflexivity.
  - by intros d d' Hd <-.
  - apply sample_establish.
  - reflexivity.
Defined.

Lemma store_answers_sound_witness :
  (∃ w' r, establish_wal sample_world first_fence_candidate = Ret (w', r) ∧
     establishment_means (wal_spelling (batch_no 1 I)) (encoded_wal_bytes first_fence_candidate)
       (contents sample_world) (contents w') r).
Proof.
  apply (proj1 (store_answers_sound sample_world) first_fence). reflexivity.
Defined.

Lemma newest_found_witness :
  ∃ w' r, newest_surviving_batch sample_world_1 = Ret (w', r) ∧
    ∀ observed, r = Ok observed →
      sometime (contents sample_world_1) (contents w') (newest WAL_SEGMENT observed).
Proof. apply (proj2 (newest_found sample_world_1)). Defined.

Definition sample_table : TableRef :=
  mk_refined (P := accepts table_ref_check)
    (mk_table_ref (key_object sample_ledger_key) (mk_refined (P := nonzero_u64) 8 I)) I.

Lemma table_read_errors_witness :
  ∃ w' r, read_table sample_world sample_partition sample_table = Ret (w', r) ∧
    table_read_means sample_partition sample_table (contents sample_world) (contents w') r.
Proof. apply table_read_errors. Defined.
