(* ===== verification/FaultStore.v ===== *)
(** The fault-injecting object store (crate [strom-object-store], file
    [test_support/fault_store.rs]).

    A [FaultStore] wraps the in-memory store.  It is configured with one-shot faults and
    with gates, each selecting an operation on a key or on the keys below one; every
    request is recorded as a call, reserves the fault that selects it, waits at the gates
    that select it, and then passes through or suffers the fault.  The wrapped store is a
    [Backend]; the printed errors of the [object_store] crate are the class
    [StoreErrorText].

    A request is one function here: from its arrival, past its gates, to its outcome.  The
    body of a read whose stream is to fail keeps its attempt until the stream is polled or
    dropped.  FaultCalls.v interleaves the parts of many requests. *)

From S2P Require Import Prelude OrdMap Text ObjectStore.

(** * Selections *)

(** strom-object-store/src/test_support/fault_store.rs:28-33, [Operation]. *)
Inductive Operation : Type := OpCreate | OpRead | OpList | OpDelete.

(** strom-object-store/src/test_support/fault_store.rs:37-40, [Target]. *)
Inductive Target : Type := TargetKey (key : ObjectKey) | TargetPrefix (key : ObjectKey).

(** strom-object-store/src/test_support/fault_store.rs:71-74, [Selection]. *)
Record Selection : Type := mk_selection { sel_operation : Operation; sel_target : Target }.

#[export] Instance Operation_eq_dec : EqDecision Operation.
Proof. solve_decision. Defined.
#[export] Instance Target_eq_dec : EqDecision Target.
Proof. solve_decision. Defined.
#[export] Instance Selection_eq_dec : EqDecision Selection.
Proof. solve_decision. Defined.

(** strom-object-store/src/test_support/fault_store.rs:872-878, [key_has_prefix]. *)
Definition key_has_prefix (key prefix : ObjectKey) : bool :=
  bool_decide (key = prefix) ||
  match strip_prefix (key_str prefix) (key_str key) with
  | Some suffix => starts_with (lit "/") suffix
  | None => false
  end.

(** strom-object-store/src/test_support/fault_store.rs:43-47, [Target::key]. *)
Definition target_key (target : Target) : ObjectKey :=
  match target with TargetKey key | TargetPrefix key => key end.

(** strom-object-store/src/test_support/fault_store.rs:49-54, [Target::matches]. *)
Definition target_matches (target : Target) (observed : ObjectKey) : bool :=
  match target with
  | TargetKey expected => bool_decide (expected = observed)
  | TargetPrefix prefix => key_has_prefix observed prefix
  end.

(** strom-object-store/src/test_support/fault_store.rs:56-66, [Target::overlaps]. *)
Definition target_overlaps (target other : Target) : bool :=
  match target, other with
  | TargetKey key, TargetKey key' => bool_decide (key = key')
  | TargetKey key, TargetPrefix prefix | TargetPrefix prefix, TargetKey key =>
      key_has_prefix key prefix
  | TargetPrefix prefix, TargetPrefix prefix' =>
      key_has_prefix prefix prefix' || key_has_prefix prefix' prefix
  end.

(** strom-object-store/src/test_support/fault_store.rs:78-83, [Selection::create]. *)
Definition selection_create (target : Target) : Selection := mk_selection OpCreate target.
(** strom-object-store/src/test_support/fault_store.rs:86-91, [Selection::read]. *)
Definition selection_read (target : Target) : Selection := mk_selection OpRead target.
(** strom-object-store/src/test_support/fault_store.rs:94-99, [Selection::list]. *)
Definition selection_list (prefix : ObjectKey) : Selection := mk_selection OpList (TargetPrefix prefix).
(** strom-object-store/src/test_support/fault_store.rs:102-107, [Selection::delete]. *)
Definition selection_delete (target : Target) : Selection := mk_selection OpDelete target.

(** strom-object-store/src/test_support/fault_store.rs:109-115, [Selection::exact]. *)
Definition selection_exact (operation : Operation) (key : ObjectKey) : Selection :=
  mk_selection operation
    match operation with
    | OpCreate | OpRead | OpDelete => TargetKey key
    | OpList => TargetPrefix key
    end.

(** strom-object-store/src/test_support/fault_store.rs:117-119, [Selection::matches]. *)
Definition selection_matches (selection observed : Selection) : bool :=
  bool_decide (sel_operation selection = sel_operation observed) &&
  target_matches (sel_target selection) (target_key (sel_target observed)).

(** strom-object-store/src/test_support/fault_store.rs:121-123, [Selection::overlaps]. *)
Definition selection_overlaps (selection other : Selection) : bool :=
  bool_decide (sel_operation selection = sel_operation other) &&
  target_overlaps (sel_target selection) (sel_target other).

Definition operation_debug (operation : Operation) : str :=
  match operation with
  | OpCreate => lit "Create"
  | OpRead => lit "Read"
  | OpList => lit "List"
  | OpDelete => lit "Delete"
  end.

(** strom-object-store/src/test_support/fault_store.rs:126-130, [Display for Selection]. *)
Definition selection_display (selection : Selection) : str :=
  operation_debug (sel_operation selection) ++ lit " " ++ key_str (target_key (sel_target selection)).

(** * Faults *)

(** strom-object-store/src/test_support/fault_store.rs:134-138, [BackendFailure]. *)
Inductive BackendFailure : Type := Transport | PermissionDenied | Unauthenticated.

(** strom-object-store/src/test_support/fault_store.rs:142-166, [Fault]. *)
Inductive Fault : Type :=
| FailBefore (selection : Selection) (failure : BackendFailure)
| CreateThenLoseResponse (target : Target)
| DeleteThenLoseResponse (target : Target)
| FailBody (target : Target) (failure : BackendFailure)
| UnderreportMetadata (target : Target)
| ReturnOutOfOrder (prefix : ObjectKey)
| ReturnForeignKey (prefix : ObjectKey).

(** strom-object-store/src/test_support/fault_store.rs:169-181, [Fault::selection]. *)
Definition fault_selection (fault : Fault) : Selection :=
  match fault with
  | FailBefore selection _ => selection
  | CreateThenLoseResponse target => selection_create target
  | DeleteThenLoseResponse target => selection_delete target
  | FailBody target _ | UnderreportMetadata target => selection_read target
  | ReturnOutOfOrder prefix | ReturnForeignKey prefix => selection_list prefix
  end.

(** strom-object-store/src/test_support/fault_store.rs:743-748, [FaultStatus]. *)
Inductive FaultStatus : Type :=
| FaultAvailable
| FaultPending (call_id : Z)
| FaultApplied
| FaultIneffective (detail : str).

#[export] Instance FaultStatus_eq_dec : EqDecision FaultStatus.
Proof. solve_decision. Defined.

(** strom-object-store/src/test_support/fault_store.rs:736-740, [ConfiguredFault]. *)
Record ConfiguredFault : Type := mk_configured {
  configured_selection : Selection;
  configured_fault : Fault;
  configured_status : FaultStatus
}.

(** A gate is shared by reference: its name stands for the reference.
    strom-object-store/src/test_support/fault_store.rs:751-755, [ConfiguredGate]. *)
Record ConfiguredGate : Type := mk_configured_gate {
  gate_selection : Selection;
  gate_name : nat;
  gate_observed : bool
}.

(** strom-object-store/src/test_support/gate.rs:25-29, [GateState]. *)
Record GateState : Type := mk_gate { arrived : bool; released : bool; finished : bool }.

Definition gate_new : GateState := mk_gate false false false.

(** strom-object-store/src/test_support/fault_store.rs:727-733, [State]. *)
Record FaultState : Type := mk_fault_state {
  next_call_id : Z;
  state_faults : list ConfiguredFault;
  state_gates : list ConfiguredGate;
  state_calls : list Selection;
  state_log : list str
}.

(** strom-object-store/src/test_support/fault_store.rs:757-764, [Attempt]. *)
Record FaultAttempt : Type := mk_fault_attempt {
  attempt_call : Z;
  attempt_selection : Selection;
  fault_index : option nat;
  attempt_gates : list nat
}.

(** strom-object-store/src/test_support/fault_store.rs:186-193, [FaultStoreConfigError]. *)
Inductive FaultStoreConfigError : Type :=
| AmbiguousFault (first second : Selection)
| AmbiguousGate (first second : Selection)
| AlreadyShared.

(** * Calls *)

(** The first fault that is available and selects the call is reserved for it.
    strom-object-store/src/test_support/fault_store.rs:364-377, [FaultStore::begin (fault)]. *)
Fixpoint reserve (call_id : Z) (selection : Selection) (faults : list ConfiguredFault) :
    list ConfiguredFault * option nat :=
  match faults with
  | [] => ([], None)
  | configured :: faults =>
      if bool_decide (configured_status configured = FaultAvailable) &&
         selection_matches (configured_selection configured) selection
      then (mk_configured (configured_selection configured) (configured_fault configured)
              (FaultPending call_id) :: faults, Some O)
      else
        let (faults, index) := reserve call_id selection faults in
        (configured :: faults, S <$> index)
  end.

Definition observe (selection : Selection) (gate : ConfiguredGate) : ConfiguredGate :=
  if selection_matches (gate_selection gate) selection
  then mk_configured_gate (gate_selection gate) (gate_name gate) true else gate.

(** strom-object-store/src/test_support/fault_store.rs:355-400, [FaultStore::begin]. *)
Definition begin (state : FaultState) (selection : Selection) : Exec (FaultState * FaultAttempt) :=
  let call_id := next_call_id state in
  let! next := expect (u64_checked_add (next_call_id state) 1) in
  let (faults, index) := reserve call_id selection (state_faults state) in
  let selected := filter (λ gate, selection_matches (gate_selection gate) selection = true) (state_gates state) in
  Ret (mk_fault_state next faults (observe selection <$> state_gates state) (state_calls state ++ [selection])
         (state_log state ++ [lit "call " ++ dec call_id ++ lit " arrived: " ++ selection_display selection]),
       mk_fault_attempt call_id selection index (gate_name <$> selected)).

(** strom-object-store/src/test_support/fault_store.rs:773-780, [Attempt::fault]. *)
Definition attempt_fault (state : FaultState) (attempt : FaultAttempt) : option Fault :=
  index ← fault_index attempt;
  configured_fault <$> state_faults state !! index.

Definition fault_with_status (status : FaultStatus) (configured : ConfiguredFault) : ConfiguredFault :=
  mk_configured (configured_selection configured) (configured_fault configured) status.

(** The status of the reserved fault, and a line of the log. *)
Definition set_status (state : FaultState) (index : nat) (status : FaultStatus) : Exec FaultState :=
  let! configured := expect (state_faults state !! index) in
  Ret (mk_fault_state (next_call_id state) (<[index := fault_with_status status configured]> (state_faults state))
         (state_gates state) (state_calls state) (state_log state)).
Definition note (state : FaultState) (line : str) : FaultState :=
  mk_fault_state (next_call_id state) (state_faults state) (state_gates state) (state_calls state) (state_log state ++ [line]).
Definition call_line (attempt : FaultAttempt) (what : str) : str :=
  lit "call " ++ dec (attempt_call attempt) ++ what ++ selection_display (attempt_selection attempt).

(** strom-object-store/src/test_support/fault_store.rs:782-798, [Attempt::applied]. *)
Definition attempt_applied (state : FaultState) (attempt : FaultAttempt) (detail : str) : Exec FaultState :=
  let! state :=
    match fault_index attempt with
    | Some index => set_status state index FaultApplied
    | None => Ret state
    end in
  Ret (note state (call_line attempt (lit " applied: ") ++ lit " (" ++ detail ++ lit ")")).

(** strom-object-store/src/test_support/fault_store.rs:800-807, [Attempt::completed]. *)
Definition attempt_completed (state : FaultState) (attempt : FaultAttempt) (detail : str) : FaultState :=
  note state (call_line attempt (lit " completed: ") ++ lit " (" ++ detail ++ lit ")").

(** strom-object-store/src/test_support/fault_store.rs:815-833, [Attempt::mark_ineffective]. *)
Definition mark_ineffective (state : FaultState) (attempt : FaultAttempt) (detail : str) :
    Exec FaultState :=
  let! state :=
    match fault_index attempt with
    | Some index => set_status state index (FaultIneffective detail)
    | None => Ret state
    end in
  Ret (note state (call_line attempt (lit " ineffective: ") ++ lit " (" ++ detail ++ lit ")")).

(** An attempt dropped before it finished.
    strom-object-store/src/test_support/fault_store.rs:850-870, [Drop for Attempt]. *)
Definition attempt_cancelled (state : FaultState) (attempt : FaultAttempt) : FaultState :=
  let state :=
    match fault_index attempt with
    | Some index =>
        match state_faults state !! index with
        | Some configured =>
            mk_fault_state (next_call_id state)
              (<[index := fault_with_status (FaultIneffective
                   (lit "selected call " ++ dec (attempt_call attempt) ++ lit " was cancelled")) configured]>
                 (state_faults state))
              (state_gates state) (state_calls state) (state_log state)
        | None => state
        end
    | None => state
    end in
  note state (call_line attempt (lit " cancelled: ")).

(** * Errors *)

(** The printed forms of the errors of the [object_store] crate that the store builds. *)
Class StoreErrorText : Type := {
  generic_text : str → str → str;
  permission_denied_text : str → str → str;
  unauthenticated_text : str → str → str
}.

Definition failure_debug (failure : BackendFailure) : str :=
  match failure with
  | Transport => lit "Transport"
  | PermissionDenied => lit "PermissionDenied"
  | Unauthenticated => lit "Unauthenticated"
  end.

Section requests.
  Context {DF : DebugFormat} {ET : StoreErrorText}.

(** strom-object-store/src/test_support/fault_store.rs:887-898, [backend_error]. *)
Definition backend_error (failure : BackendFailure) (key : ObjectKey) : BackendError :=
  let source := lit "injected " ++ failure_debug failure ++ lit " failure" in
  match failure with
  | Transport => mk_backend_error BackendOther (generic_text (lit "strom fault store") source)
  | PermissionDenied =>
      mk_backend_error BackendPermissionDenied (permission_denied_text (key_str key) source)
  | Unauthenticated =>
      mk_backend_error BackendUnauthenticated (unauthenticated_text (key_str key) source)
  end.

(** strom-object-store/src/test_support/fault_store.rs:900-907, [mismatch_error]. *)
Definition mismatch_error (detail : str) : BackendError :=
  mk_backend_error BackendOther
    (generic_text (lit "strom fault store") (lit "fault mismatch: " ++ detail)).

(** strom-object-store/src/test_support/fault_store.rs:880-885, [object_key_from_path]. *)
Definition object_key_from_path (path : str) : Result BackendError ObjectKey :=
  map_err (λ source, mk_backend_error BackendOther
      (generic_text (lit "strom fault store") (object_key_error_display source)))
    (ObjectKey_try_from path).

(** strom-object-store/src/test_support/fault_store.rs:809-813, [Attempt::ineffective]. *)
Definition ineffective (state : FaultState) (attempt : FaultAttempt) (detail : str) :
    Exec (FaultState * BackendError) :=
  let! state := mark_ineffective state attempt detail in
  Ret (state, mismatch_error detail).

(** * Requests *)

  Context {B : Backend}.

(** The wrapped store, the state behind the lock, the gates by name, and the attempts that
    body streams not yet polled keep. *)
Record FaultWorld : Type := mk_fault_world {
  fw_inner : World;
  fw_state : FaultState;
  fw_gates : gmap nat GateState;
  fw_bodies : list FaultAttempt
}.

Definition with_state (fw : FaultWorld) (state : FaultState) : FaultWorld :=
  mk_fault_world (fw_inner fw) state (fw_gates fw) (fw_bodies fw).
Definition with_inner (fw : FaultWorld) (inner : World) : FaultWorld :=
  mk_fault_world inner (fw_state fw) (fw_gates fw) (fw_bodies fw).

Definition gate_at (names : gmap nat GateState) (name : nat) : GateState :=
  default gate_new (names !! name).
Definition pass_gate (names : gmap nat GateState) (name : nat) : gmap nat GateState :=
  <[name := mk_gate true true (finished (gate_at names name))]> names.
Definition finish_gate (names : gmap nat GateState) (name : nat) : gmap nat GateState :=
  let gate := gate_at names name in <[name := mk_gate (arrived gate) (released gate) true]> names.

(** A request is past a gate once the gate was released: this is the world after the wait.
    The wait itself, and that it ends when the gate is released, is in Gates.v.
    strom-object-store/src/test_support/fault_store.rs:767-771, [Attempt::wait_at_gates]. *)
Definition wait_at_gates (fw : FaultWorld) (attempt : FaultAttempt) : FaultWorld :=
  mk_fault_world (fw_inner fw) (fw_state fw) (foldl pass_gate (fw_gates fw) (attempt_gates attempt))
    (fw_bodies fw).

(** strom-object-store/src/test_support/fault_store.rs:835-840, [Attempt::finish]. *)
Definition finish (fw : FaultWorld) (attempt : FaultAttempt) : FaultWorld :=
  mk_fault_world (fw_inner fw) (fw_state fw) (foldl finish_gate (fw_gates fw) (attempt_gates attempt))
    (fw_bodies fw).

(** The arrival of a request, up to its outcome. *)
Definition arrive (fw : FaultWorld) (selection : Selection) : Exec (FaultWorld * FaultAttempt) :=
  let! (state, attempt) := begin (fw_state fw) selection in
  Ret (wait_at_gates (with_state fw state) attempt, attempt).

(** The ends of a request: its fault applied, nothing to apply, or a fault that could not
    apply, with the answer. *)
Definition end_applied {A} (fw : FaultWorld) (attempt : FaultAttempt) (detail : str) (answer : A) :
    Exec (FaultWorld * A) :=
  let! state := attempt_applied (fw_state fw) attempt detail in
  Ret (finish (with_state fw state) attempt, answer).
Definition end_completed {A} (fw : FaultWorld) (attempt : FaultAttempt) (detail : str) (answer : A) :
    FaultWorld * A :=
  (finish (with_state fw (attempt_completed (fw_state fw) attempt detail)) attempt, answer).
Definition end_ineffective {A} (fw : FaultWorld) (attempt : FaultAttempt) (detail : str) :
    Exec (FaultWorld * Result BackendError A) :=
  let! (state, error) := ineffective (fw_state fw) attempt detail in
  Ret (finish (with_state fw state) attempt, Err error).

(** Only conditional creates are selected; the adapter makes no other put.
    strom-object-store/src/test_support/fault_store.rs:481-516, [FaultStore::put_opts]. *)
Definition put_opts (fw : FaultWorld) (location : str) (payload : list Z) :
    Exec (FaultWorld * Result BackendError unit) :=
  match object_key_from_path location with
  | Err error => Ret (fw, Err error)
  | Ok key =>
      let! (fw, attempt) := arrive fw (selection_create (TargetKey key)) in
      match attempt_fault (fw_state fw) attempt with
      | Some (FailBefore _ failure) =>
          end_applied fw attempt (lit "failed before create reached storage")
            (Err (backend_error failure key))
      | Some (CreateThenLoseResponse _) =>
          let (inner, result) := put_create (fw_inner fw) location payload in
          match result with
          | Ok _ =>
              end_applied (with_inner fw inner) attempt
                (lit "create took effect before its response was lost")
                (Err (backend_error Transport key))
          | Err source =>
              end_ineffective (with_inner fw inner) attempt
                (lit "create did not take effect: " ++ error_text source)
          end
      | None =>
          let (inner, result) := put_create (fw_inner fw) location payload in
          Ret (end_completed (with_inner fw inner) attempt (lit "create passed through") result)
      | Some _ => end_ineffective fw attempt (lit "configured effect cannot apply to a create")
      end
  end.

(** strom-object-store/src/test_support/fault_store.rs:526-581, [FaultStore::get_opts]. *)
Definition get_opts (fw : FaultWorld) (location : str) : Exec (FaultWorld * Result BackendError GetResult) :=
  match object_key_from_path location with
  | Err error => Ret (fw, Err error)
  | Ok key =>
      let! (fw, attempt) := arrive fw (selection_read (TargetKey key)) in
      match attempt_fault (fw_state fw) attempt with
      | Some (FailBefore _ failure) =>
          end_applied fw attempt (lit "failed before read reached storage")
            (Err (backend_error failure key))
      | Some (FailBody _ failure) =>
          let (inner, result) := get_object (fw_inner fw) location in
          let fw := with_inner fw inner in
          match result with
          | Err source =>
              end_ineffective fw attempt
                (lit "body failure requires a readable object: " ++ error_text source)
          | Ok result =>
              if meta_size result =? 0
              then end_ineffective fw attempt (lit "body failure requires a non-empty body")
              else
                Ret (mk_fault_world (fw_inner fw) (fw_state fw) (fw_gates fw) (fw_bodies fw ++ [attempt]),
                     Ok (mk_get (meta_size result) (meta_etag result) [Err (backend_error failure key)]))
          end
      | Some (UnderreportMetadata _) =>
          let (inner, result) := get_object (fw_inner fw) location in
          let fw := with_inner fw inner in
          match result with
          | Err source =>
              end_ineffective fw attempt
                (lit "metadata underreport requires a readable object: " ++ error_text source)
          | Ok result =>
              if meta_size result =? 0
              then end_ineffective fw attempt (lit "metadata underreport requires a non-empty body")
              else
                let! size := expect (u64_checked_sub (meta_size result) 1) in
                end_applied fw attempt (lit "underreported object size by one byte")
                  (Ok (mk_get size (meta_etag result) (body_stream result)))
          end
      | None =>
          let (inner, result) := get_object (fw_inner fw) location in
          Ret (end_completed (with_inner fw inner) attempt (lit "read passed through") result)
      | Some _ => end_ineffective fw attempt (lit "configured effect cannot apply to a read")
      end
  end.

(** strom-object-store/src/test_support/fault_store.rs:431-457, [FaultStore::delete_one]. *)
Definition delete_one (fw : FaultWorld) (location : str) : Exec (FaultWorld * Result BackendError unit) :=
  match object_key_from_path location with
  | Err error => Ret (fw, Err error)
  | Ok key =>
      let! (fw, attempt) := arrive fw (selection_delete (TargetKey key)) in
      match attempt_fault (fw_state fw) attempt with
      | Some (FailBefore _ failure) =>
          end_applied fw attempt (lit "failed before delete reached storage")
            (Err (backend_error failure key))
      | Some (DeleteThenLoseResponse _) =>
          let (inner, result) := delete_object (fw_inner fw) location in
          match result with
          | Ok _ =>
              end_applied (with_inner fw inner) attempt
                (lit "delete took effect before its response was lost")
                (Err (backend_error Transport key))
          | Err source =>
              end_ineffective (with_inner fw inner) attempt
                (lit "delete did not take effect: " ++ error_text source)
          end
      | None =>
          let (inner, result) := delete_object (fw_inner fw) location in
          let fw := with_inner fw inner in
          Ret (match result with
               | Err source =>
                   (finish (with_state fw (attempt_cancelled (fw_state fw) attempt)) attempt, Err source)
               | Ok _ => end_completed fw attempt (lit "delete passed through") (Ok tt)
               end)
      | Some _ => end_ineffective fw attempt (lit "configured effect cannot apply to a delete")
      end
  end.

(** strom-object-store/src/test_support/fault_store.rs:674-686, [required_list_entry]. *)
Definition required_list_entry (listing : list (Result BackendError str)) (effect : str) :
    Result str (str * list (Result BackendError str)) :=
  match listing with
  | Ok entry :: listing => Ok (entry, listing)
  | Err source :: _ => Err (effect ++ lit " requires another readable entry: " ++ error_text source)
  | [] => Err (effect ++ lit " requires more stored entries")
  end.

Definition foreign_location (prefix : ObjectKey) : str := key_str prefix ++ lit "/FOREIGN".

(** strom-object-store/src/test_support/fault_store.rs:634-672, [apply_list_fault]. *)
Definition apply_list_fault (fw : FaultWorld) (listing : list (Result BackendError str))
    (prefix : ObjectKey) (fault : option Fault) (attempt : FaultAttempt) :
    Exec (FaultWorld * Result BackendError (list (Result BackendError str))) :=
  match fault with
  | Some (ReturnOutOfOrder _) =>
      match required_list_entry listing (lit "out-of-order listing") with
      | Err detail => end_ineffective fw attempt detail
      | Ok (first, listing) =>
          match required_list_entry listing (lit "out-of-order listing") with
          | Err detail => end_ineffective fw attempt detail
          | Ok (second, listing) =>
              end_applied fw attempt (lit "returned an out-of-order listing")
                (Ok (Ok second :: Ok first :: listing))
          end
      end
  | Some (ReturnForeignKey _) =>
      match required_list_entry listing (lit "foreign-key listing") with
      | Err detail => end_ineffective fw attempt detail
      | Ok (_, listing) =>
          end_applied fw attempt (lit "returned a foreign key")
            (Ok (Ok (foreign_location prefix) :: listing))
      end
  | None => Ret (end_completed fw attempt (lit "list passed through") (Ok listing))
  | Some (CreateThenLoseResponse _) | Some (DeleteThenLoseResponse _) | Some (FailBody _ _)
  | Some (UnderreportMetadata _) =>
      end_ineffective fw attempt (lit "configured effect cannot apply to a list")
  | Some (FailBefore _ _) =>
      end_ineffective fw attempt (lit "fail-before selection changed during list")
  end.

(** The adapter always gives a prefix.
    strom-object-store/src/test_support/fault_store.rs:409-429, [FaultStore::execute_list]. *)
Definition execute_list (fw : FaultWorld) (prefix : str) (offset : option str) :
    Exec (FaultWorld * Result BackendError (list (Result BackendError str))) :=
  match object_key_from_path prefix with
  | Err error => Ret (fw, Err error)
  | Ok observed_prefix =>
      let! (fw, attempt) := arrive fw (selection_list observed_prefix) in
      let fault := attempt_fault (fw_state fw) attempt in
      match fault with
      | Some (FailBefore _ failure) =>
          end_applied fw attempt (lit "failed before list reached storage")
            (Err (backend_error failure observed_prefix))
      | _ =>
          let (inner, listing) := list_objects (fw_inner fw) prefix offset in
          apply_list_fault (with_inner fw inner) listing observed_prefix fault attempt
      end
  end.

(** A listing that failed before its first entry is a stream of that one error.
    strom-object-store/src/test_support/fault_store.rs:598-618, [FaultStore::list, FaultStore::list_with_offset]. *)
Definition list_stream (fw : FaultWorld) (prefix : str) (offset : option str) :
    Exec (FaultWorld * list (Result BackendError str)) :=
  let! (fw, listing) := execute_list fw prefix offset in
  Ret (fw, match listing with Ok listing => listing | Err error => [Err error] end).

(** The requests that no fault selects, and no gate: puts of other modes, multipart uploads,
    delimited lists and copies go to the wrapped store unrecorded.
    strom-object-store/src/test_support/fault_store.rs:620-631, [FaultStore::list_with_delimiter, FaultStore::copy_opts]. *)
Definition delegate {A} (request : World → World * A) (fw : FaultWorld) : FaultWorld * A :=
  let (inner, answer) := request (fw_inner fw) in (with_inner fw inner, answer).

(** The attempt kept by the [index]th body stream not yet settled. *)
Definition take_body (fw : FaultWorld) (index : nat) : option (FaultAttempt * FaultWorld) :=
  attempt ← fw_bodies fw !! index;
  Some (attempt, mk_fault_world (fw_inner fw) (fw_state fw) (fw_gates fw) (delete index (fw_bodies fw))).

(** The first poll of a failing body; a stream already polled ends.
    strom-object-store/src/test_support/fault_store.rs:705-716, [BodyFailureStream::poll_next]. *)
Definition body_poll_next (fw : FaultWorld) (index : nat) : Exec FaultWorld :=
  match take_body fw index with
  | Some (attempt, fw) =>
      let! (fw, _) := end_applied fw attempt (lit "body emitted its injected streaming failure") tt in
      Ret fw
  | None => Ret fw
  end.

(** strom-object-store/src/test_support/fault_store.rs:718-724, [Drop for BodyFailureStream]. *)
Definition body_drop (fw : FaultWorld) (index : nat) : Exec FaultWorld :=
  match take_body fw index with
  | Some (attempt, fw) =>
      let! state := mark_ineffective (fw_state fw) attempt
        (lit "body was dropped before its injected failure was emitted") in
      Ret (finish (with_state fw state) attempt)
  | None => Ret fw
  end.

End requests.
Arguments mk_fault_world {_} _ _ _ _.

(** * Configuration and verification *)

(** strom-object-store/src/test_support/fault_store.rs:210-217, [FaultStore::new]. *)
Definition fault_state_new : FaultState := mk_fault_state 0 [] [] [] [].

(** [owners] counts the handles on the shared state: configuration needs the only one.
    strom-object-store/src/test_support/fault_store.rs:224-247, [FaultStore::inject]. *)
Definition inject (owners : nat) (state : FaultState) (fault : Fault) :
    Result FaultStoreConfigError FaultState :=
  if bool_decide (owners = 1%nat) then
    let selection := fault_selection fault in
    match List.find (λ existing, selection_overlaps (configured_selection existing) selection)
            (state_faults state) with
    | Some existing => Err (AmbiguousFault (configured_selection existing) selection)
    | None =>
        Ok (mk_fault_state (next_call_id state)
              (state_faults state ++ [mk_configured selection fault FaultAvailable])
              (state_gates state) (state_calls state) (state_log state))
    end
  else Err AlreadyShared.

(** strom-object-store/src/test_support/fault_store.rs:255-278, [FaultStore::gate]. *)
Definition add_gate (owners : nat) (state : FaultState) (selection : Selection) (gate : nat) :
    Result FaultStoreConfigError FaultState :=
  if bool_decide (owners = 1%nat) then
    match List.find (λ existing, selection_overlaps (gate_selection existing) selection)
            (state_gates state) with
    | Some existing => Err (AmbiguousGate (gate_selection existing) selection)
    | None =>
        Ok (mk_fault_state (next_call_id state) (state_faults state)
              (state_gates state ++ [mk_configured_gate selection gate false])
              (state_calls state) (state_log state))
    end
  else Err AlreadyShared.

Definition newline : str := lit "
".

(** [[String]::join] with line ends. *)
Fixpoint join_lines (lines : list str) : str :=
  match lines with
  | [] => []
  | [line] => line
  | line :: lines => line ++ newline ++ join_lines lines
  end.

(** strom-object-store/src/test_support/fault_store.rs:909-918, [verification_error]. *)
Definition verification_error (detail : str) (state : FaultState) : str :=
  detail ++ newline ++ lit "operation log:" ++ newline ++
  match state_log state with [] => lit "<empty>" | log => join_lines log end.

(** strom-object-store/src/test_support/fault_store.rs:290-313, [FaultStore::assert_called_once]. *)
Definition assert_called_once (state : FaultState) (operation : Operation) (key : ObjectKey) :
    Result str unit :=
  let selection := selection_exact operation key in
  let count := zlen (filter (λ observed, observed = selection) (state_calls state)) in
  if count =? 1 then Ok tt
  else Err (verification_error
    (lit "expected " ++ selection_display selection ++ lit " once, observed " ++ dec count ++ lit " calls")
    state).

Section verification.
  Context {DF : DebugFormat}.

Definition key_debug (key : ObjectKey) : str := lit "ObjectKey(" ++ debug_str (key_str key) ++ lit ")".
Definition target_debug (target : Target) : str :=
  match target with
  | TargetKey key => lit "Key(" ++ key_debug key ++ lit ")"
  | TargetPrefix key => lit "Prefix(" ++ key_debug key ++ lit ")"
  end.
Definition selection_debug (selection : Selection) : str :=
  lit "Selection { operation: " ++ operation_debug (sel_operation selection) ++
  lit ", target: " ++ target_debug (sel_target selection) ++ lit " }".
Definition fault_debug (fault : Fault) : str :=
  match fault with
  | FailBefore selection failure =>
      lit "FailBefore { selection: " ++ selection_debug selection ++
      lit ", failure: " ++ failure_debug failure ++ lit " }"
  | CreateThenLoseResponse target =>
      lit "CreateThenLoseResponse { target: " ++ target_debug target ++ lit " }"
  | DeleteThenLoseResponse target =>
      lit "DeleteThenLoseResponse { target: " ++ target_debug target ++ lit " }"
  | FailBody target failure =>
      lit "FailBody { target: " ++ target_debug target ++
      lit ", failure: " ++ failure_debug failure ++ lit " }"
  | UnderreportMetadata target =>
      lit "UnderreportMetadata { target: " ++ target_debug target ++ lit " }"
  | ReturnOutOfOrder prefix => lit "ReturnOutOfOrder { prefix: " ++ key_debug prefix ++ lit " }"
  | ReturnForeignKey prefix => lit "ReturnForeignKey { prefix: " ++ key_debug prefix ++ lit " }"
  end.

(** What verification says of one fault and of one gate. *)
Definition fault_failure (configured : ConfiguredFault) : list str :=
  let about := fault_debug (configured_fault configured) ++ lit " for " ++
    selection_display (configured_selection configured) in
  match configured_status configured with
  | FaultApplied => []
  | FaultAvailable => [lit "unused fault " ++ about]
  | FaultPending call_id => [lit "fault " ++ about ++ lit " remains pending on call " ++ dec call_id]
  | FaultIneffective detail => [lit "ineffective fault " ++ about ++ lit ": " ++ detail]
  end.
Definition gate_failure (configured : ConfiguredGate) : list str :=
  if gate_observed configured then []
  else [lit "unobserved gate for " ++ selection_display (gate_selection configured)].

(** strom-object-store/src/test_support/fault_store.rs:320-353, [FaultStore::verify]. *)
Definition verify (state : FaultState) : Result str unit :=
  match (state_faults state ≫= fault_failure) ++ (state_gates state ≫= gate_failure) with
  | [] => Ok tt
  | failures => Err (verification_error (join_lines failures) state)
  end.

End verification.
