(* ===== verification/FaultTheory.v ===== *)
(** What the fault-injecting store does (FaultStore.v).

    Selections: two faults that select one call overlap, so a configuration built with
    [inject] has at most one fault for any call.  Requests: whatever is configured, each
    request returns below the bound on call identifiers, keeps the configuration, and
    answers truly of the wrapped store unless it is a read with understated metadata or a
    list made visibly wrong; so the store keeps the promises of [BackendLaws] when no fault understates metadata.  The
    adapter refuses the lists that a fault made wrong and reads through understated
    metadata. *)

From S2P Require Import Prelude OrdMap Text ObjectStore FaultStore StoreTheory.

(** * Selections *)

Definition below (key prefix : ObjectKey) : Prop :=
  key = prefix ∨ ∃ rest, key_str key = key_str prefix ++ 47 :: rest.

Lemma key_has_prefix_spec key prefix : key_has_prefix key prefix = true ↔ below key prefix.
Proof.
  unfold key_has_prefix, below, strip_prefix. rewrite orb_true_iff, bool_decide_eq_true. f_equiv.
  destruct (starts_with (key_str prefix) (key_str key)) eqn:E.
  - apply starts_with_drop in E. change (lit "/") with [47]. rewrite starts_with_true. split.
    + intros [rest Hr]. exists rest. by rewrite E at 1; rewrite Hr.
    + intros [rest Hr]. exists rest. by rewrite Hr, drop_app_length.
  - split; [done|]. intros [rest Hr]. rewrite Hr, starts_with_app in E. done.
Qed.

(** Two prefixes of one key: one is below the other. *)
Lemma below_comparable key prefix prefix' :
  below key prefix → below key prefix' → below prefix prefix' ∨ below prefix' prefix.
Proof.
  intros [<-|[rest Hr]] [<-|[rest' Hr']]; unfold below; eauto.
  assert (key_str prefix ++ 47 :: rest = key_str prefix' ++ 47 :: rest') as E by congruence.
  apply app_eq_app in E as (mid & [(E & Hm)|(E & Hm)]); destruct mid as [|x mid].
  - rewrite (right_id_L [] (++)) in E. left. left. apply refined_eq, E.
  - left. right. injection Hm as <- _. eauto.
  - rewrite (right_id_L [] (++)) in E. left. left. apply refined_eq. symmetry. apply E.
  - right. right. injection Hm as <- _. eauto.
Qed.

Lemma target_matches_overlap target other observed :
  target_matches target observed = true → target_matches other observed = true →
  target_overlaps target other = true.
Proof.
  destruct target as [key|key], other as [key'|key']; simpl;
    rewrite ?orb_true_iff, ?bool_decide_eq_true, ?key_has_prefix_spec; try congruence.
  intros H H'. by apply (below_comparable observed).
Qed.

Lemma selection_matches_overlap selection other observed :
  selection_matches selection observed = true → selection_matches other observed = true →
  selection_overlaps selection other = true.
Proof.
  unfold selection_matches, selection_overlaps. rewrite !andb_true_iff, !bool_decide_eq_true.
  intros [-> H] [-> H']. split; [done|]. by eapply target_matches_overlap.
Qed.

Lemma selection_overlaps_sym selection other :
  selection_overlaps selection other = selection_overlaps other selection.
Proof.
  unfold selection_overlaps. f_equal; [apply bool_decide_ext; naive_solver|].
  destruct (sel_target selection), (sel_target other); simpl; try done; [|apply orb_comm].
  apply bool_decide_ext. naive_solver.
Qed.

(** The configuration: what was injected, in order, whatever became of it. *)
Definition configuration (state : FaultState) : list (Selection * Fault) :=
  (λ configured, (configured_selection configured, configured_fault configured)) <$> state_faults state.

(** No two faults can select the same call. *)
Definition unambiguous (state : FaultState) : Prop :=
  ∀ i j a b, configuration state !! i = Some a → configuration state !! j = Some b →
    selection_overlaps a.1 b.1 = true → i = j.

Lemma unambiguous_new : unambiguous fault_state_new.
Proof. intros i j a b Hi. discriminate Hi. Qed.

Lemma find_none {A} (f : A → bool) l : List.find f l = None → ∀ x, x ∈ l → f x = false.
Proof. intros H x Hx. apply (List.find_none f l H). by apply list_elem_of_In. Qed.

Lemma inject_unambiguous owners state fault state' :
  unambiguous state → inject owners state fault = Ok state' → unambiguous state'.
Proof.
  unfold inject. case_bool_decide; [|discriminate]. intros Hu.
  destruct (List.find _ _) eqn:F; [discriminate|]. intros [= <-].
  pose proof (find_none _ _ F) as Hf. clear F.
  assert (∀ i a, configuration state !! i = Some a →
    selection_overlaps a.1 (fault_selection fault) = false) as Hnew.
  { intros i a Hi. apply list_lookup_fmap_Some in Hi as (c & -> & Hc).
    apply (Hf c). by eapply list_elem_of_lookup_2. }
  intros i j a b. unfold configuration. cbn [state_faults]. rewrite fmap_app.
  intros Hi%lookup_app_Some Hj%lookup_app_Some Ho.
  assert (∀ k x, [(fault_selection fault, fault)] !! k = Some x →
    k = O ∧ x = (fault_selection fault, fault)) as Hone.
  { intros [|[|k]] x; simpl; intros Hx; by simplify_eq. }
  destruct Hi as [Hi|[Hli Hi]], Hj as [Hj|[Hlj Hj]].
  - by eapply Hu.
  - apply Hone in Hj as [_ ->]. cbn [fst] in Ho. rewrite (Hnew _ _ Hi) in Ho. discriminate.
  - apply Hone in Hi as [_ ->]. cbn [fst] in Ho. rewrite selection_overlaps_sym, (Hnew _ _ Hj) in Ho. discriminate.
  - apply Hone in Hi as [Hi _], Hj as [Hj _]. lia.
Qed.

(** At most one fault selects a call. *)
Lemma one_fault_per_call state i j a b observed :
  unambiguous state → configuration state !! i = Some a → configuration state !! j = Some b →
  selection_matches a.1 observed = true → selection_matches b.1 observed = true → i = j.
Proof. intros Hu Hi Hj Ha Hb. apply (Hu i j a b); [done|done|]. by eapply selection_matches_overlap. Qed.

(** * Bookkeeping *)

Lemma reserve_spec call_id selection faults :
  match (reserve call_id selection faults).2 with
  | Some i =>
      ∃ configured, faults !! i = Some configured ∧ configured_status configured = FaultAvailable ∧
        selection_matches (configured_selection configured) selection = true ∧
        (reserve call_id selection faults).1 =
          <[i := fault_with_status (FaultPending call_id) configured]> faults
  | None =>
      (reserve call_id selection faults).1 = faults ∧
      ∀ configured, configured ∈ faults → configured_status configured = FaultAvailable →
        selection_matches (configured_selection configured) selection = false
  end.
Proof.
  induction faults as [|configured faults IH]; simpl.
  { split; [done|]. intros configured Hin. by apply not_elem_of_nil in Hin. }
  case_bool_decide as Hs; simpl.
  - destruct (selection_matches _ _) eqn:Hm; simpl; [by exists configured|].
    destruct (reserve call_id selection faults) as [faults' [i|]]; simpl in *.
    + destruct IH as (c & Hi & ? & ? & ->). by exists c.
    + destruct IH as [-> IH]. split; [done|]. intros c [->|Hc]%elem_of_cons; [done|by apply IH].
  - destruct (reserve call_id selection faults) as [faults' [i|]]; simpl in *.
    + destruct IH as (c & Hi & ? & ? & ->). by exists c.
    + destruct IH as [-> IH]. split; [done|]. intros c [->|Hc]%elem_of_cons; [done|by apply IH].
Qed.

Lemma configuration_insert state i status configured next gates calls log :
  state_faults state !! i = Some configured →
  configuration (mk_fault_state next (<[i := fault_with_status status configured]> (state_faults state))
    gates calls log) = configuration state.
Proof.
  intros Hi. unfold configuration. simpl. rewrite list_fmap_insert. simpl.
  rewrite list_insert_id; [done|]. by rewrite list_lookup_fmap, Hi.
Qed.

(** The reserved fault is one of the configured ones. *)
Definition holds_fault (state : FaultState) (attempt : FaultAttempt) : Prop :=
  match fault_index attempt with Some i => is_Some (configuration state !! i) | None => True end.

Lemma holds_fault_proper state state' attempt :
  configuration state' = configuration state → holds_fault state attempt → holds_fault state' attempt.
Proof. unfold holds_fault. by intros ->. Qed.

Lemma configuration_lookup state i :
  is_Some (configuration state !! i) ↔ is_Some (state_faults state !! i).
Proof. unfold configuration. by rewrite list_lookup_fmap, fmap_is_Some. Qed.

Lemma begin_spec state selection :
  match begin state selection with
  | Panic => u64_max ≤ next_call_id state
  | Ret (state', attempt) =>
      configuration state' = configuration state ∧ holds_fault state' attempt ∧
      next_call_id state' = next_call_id state + 1
  end.
Proof.
  unfold begin, u64_checked_add. case_decide; simpl; [|lia].
  pose proof (reserve_spec (next_call_id state) selection (state_faults state)) as Hr.
  destruct (reserve _ _ _) as [faults [i|]]; simpl in *; unfold holds_fault; simpl.
  - destruct Hr as (c & Hi & _ & _ & ->). rewrite configuration_insert by done.
    split_and!; [done|by apply configuration_lookup; eexists|done].
  - by destruct Hr as [-> _].
Qed.

Lemma attempt_fault_Some state attempt fault :
  attempt_fault state attempt = Some fault → fault ∈ (configuration state).*2.
Proof.
  unfold attempt_fault. intros (i & _ & Hi)%bind_Some. apply fmap_Some in Hi as (c & Hc & ->).
  unfold configuration. rewrite <- list_fmap_compose.
  apply list_elem_of_fmap. exists c. split; [done|]. by eapply list_elem_of_lookup_2.
Qed.

(** The ends of an attempt set one status and add a line. *)
Definition settled (state : FaultState) (attempt : FaultAttempt) (status : option FaultStatus)
    (state' : FaultState) : Prop :=
  state_faults state' =
    match fault_index attempt, status with
    | Some i, Some status => alter (fault_with_status status) i (state_faults state)
    | _, _ => state_faults state
    end ∧
  next_call_id state' = next_call_id state ∧ state_gates state' = state_gates state ∧
  state_calls state' = state_calls state.

Lemma settled_configuration state attempt status state' :
  settled state attempt status state' → configuration state' = configuration state.
Proof.
  intros [Hf _]. unfold configuration. rewrite Hf. destruct (fault_index attempt), status; [|done..].
  apply list_eq. intros j. rewrite !list_lookup_fmap.
  destruct (decide (n = j)) as [->|Hne]; [|by rewrite list_lookup_alter_ne].
  rewrite list_lookup_alter_eq. by destruct (state_faults state !! j).
Qed.

Lemma set_status_settled state attempt i status :
  fault_index attempt = Some i → holds_fault state attempt →
  ∃ state', set_status state i status = Ret state' ∧ settled state attempt (Some status) state'.
Proof.
  unfold holds_fault. intros Hi. rewrite Hi, configuration_lookup. intros [c Hc].
  unfold set_status. rewrite Hc. eexists. split; [reflexivity|]. unfold settled. rewrite Hi. simpl.
  split; [|done]. rewrite list_insert_alter. apply list_alter_ext; [|done]. intros x Hx. by simplify_eq.
Qed.

Lemma settled_note state attempt status state' line :
  settled state attempt status state' → settled state attempt status (note state' line).
Proof. done. Qed.

Lemma settled_none state attempt status :
  fault_index attempt = None → settled state attempt status state.
Proof. unfold settled. by intros ->. Qed.

Lemma attempt_applied_settled state attempt detail :
  holds_fault state attempt →
  ∃ state', attempt_applied state attempt detail = Ret state' ∧
    settled state attempt (Some FaultApplied) state'.
Proof.
  intros Hh. unfold attempt_applied. destruct (fault_index attempt) as [i|] eqn:Hi; simpl.
  - destruct (set_status_settled state attempt i FaultApplied Hi Hh) as (state' & -> & Hs).
    eexists. split; [reflexivity|]. by apply settled_note.
  - eexists. split; [reflexivity|]. by apply settled_note, settled_none.
Qed.

Lemma mark_ineffective_settled state attempt detail :
  holds_fault state attempt →
  ∃ state', mark_ineffective state attempt detail = Ret state' ∧
    settled state attempt (Some (FaultIneffective detail)) state'.
Proof.
  intros Hh. unfold mark_ineffective. destruct (fault_index attempt) as [i|] eqn:Hi; simpl.
  - destruct (set_status_settled state attempt i (FaultIneffective detail) Hi Hh) as (state' & -> & Hs).
    eexists. split; [reflexivity|]. by apply settled_note.
  - eexists. split; [reflexivity|]. by apply settled_note, settled_none.
Qed.

Lemma attempt_completed_settled state attempt detail :
  settled state attempt None (attempt_completed state attempt detail).
Proof. unfold settled, attempt_completed. simpl. by destruct (fault_index attempt). Qed.

Lemma attempt_cancelled_settled state attempt :
  ∃ detail, settled state attempt (Some (FaultIneffective detail)) (attempt_cancelled state attempt).
Proof.
  eexists. apply settled_note. destruct (fault_index attempt) as [i|] eqn:Hi; [|by apply settled_none].
  unfold settled. rewrite Hi. destruct (state_faults state !! i) as [c|] eqn:Hc; simpl; (split; [|done]).
  - rewrite list_insert_alter. apply list_alter_ext; [|done]. intros x Hx. by simplify_eq.
  - symmetry. apply list_eq. intros j. destruct (decide (i = j)) as [->|Hne];
      [by rewrite list_lookup_alter_eq, Hc|by rewrite list_lookup_alter_ne].
Qed.

(** * Keys *)

Lemma split_char_elem c x s : x ∈ s → x = c ∨ ∃ piece, piece ∈ split_char c s ∧ x ∈ piece.
Proof.
  unfold split_char. induction s as [|y s IH]; [by intros Hx%not_elem_of_nil|].
  cbn [split_pieces]. destruct (split_pieces c s) as [piece rest]. rewrite elem_of_cons.
  destruct (Z.eqb_spec y c) as [->|Hne]; intros [->|Hx]; [by left| |right|].
  - destruct (IH Hx) as [|(q & Hq & ?)]; [by left|]. right. exists q. split; [by right|done].
  - exists (y :: piece). split; by left.
  - destruct (IH Hx) as [|(q & [->|Hq]%elem_of_cons & ?)]; [by left| |]; right.
    + exists (y :: piece). split; [by left|by right].
    + exists q. split; [by right|done].
Qed.

Lemma key_segments_characters segments :
  key_segments segments = Ok tt →
  ∀ segment x, segment ∈ segments → x ∈ segment → is_key_character x = true.
Proof.
  induction segments as [|s segments IH]; intros H segment x Hs Hx; [by apply not_elem_of_nil in Hs|].
  cbn [key_segments] in H. case_bool_decide; [discriminate H|]. destruct (_ || _); [discriminate H|].
  destruct (List.find _ s) eqn:F; [discriminate H|]. apply elem_of_cons in Hs as [->|Hs]; [|by eapply IH].
  by apply negb_false_iff, (find_none _ _ F).
Qed.

(** A key has no character but slashes and key characters. *)
Lemma key_check_characters raw x :
  accepts key_check raw = true → x ∈ raw → x = 47 ∨ is_key_character x = true.
Proof.
  unfold accepts, key_check. case_bool_decide; [done|]. destruct (_ <? _); [done|].
  destruct (key_segments _) as [[]|] eqn:Hk; [|done]. intros _ Hx.
  destruct (split_char_elem 47 x raw Hx) as [|(piece & Hp & Hx')]; [by left|right].
  by eapply key_segments_characters.
Qed.

(** The location a fault lists in place of the first is no key. *)
Lemma foreign_no_key prefix : accepts key_check (foreign_location prefix) = false.
Proof.
  apply not_true_is_false. intros H.
  destruct (key_check_characters _ 70 H) as [Hx|Hx]; [|discriminate Hx|discriminate Hx].
  unfold foreign_location. apply elem_of_app. right. change (lit "/FOREIGN") with [47; 70; 79; 82; 69; 73; 71; 78].
  right. left.
Qed.

(** * Requests *)

Section requests.
  Context {DF : DebugFormat} {ET : StoreErrorText} {B : Backend}.

(** What a request that was configured with [config] leaves: the configuration, and [P] of
    the wrapped store and the answer; it panics only where [panics] allows. *)
Definition outcome {A} (panics : Prop) (config : list (Selection * Fault)) (P : World → A → Prop)
    (result : Exec (FaultWorld * A)) : Prop :=
  match result with
  | Ret (fw, answer) => configuration (fw_state fw) = config ∧ P (fw_inner fw) answer
  | Panic => panics
  end.

(** Call identifiers run out. *)
Definition exhausted (fw : FaultWorld) : Prop := u64_max ≤ next_call_id (fw_state fw).

Lemma arrive_outcome {A} (fw : FaultWorld) selection (P : World → A → Prop) k :
  (∀ fw1 attempt, configuration (fw_state fw1) = configuration (fw_state fw) →
     fw_inner fw1 = fw_inner fw → holds_fault (fw_state fw1) attempt →
     outcome False (configuration (fw_state fw)) P (k fw1 attempt)) →
  outcome (exhausted fw) (configuration (fw_state fw)) P
    (let! (fw1, attempt) := arrive fw selection in k fw1 attempt).
Proof.
  intros H. unfold arrive. pose proof (begin_spec (fw_state fw) selection) as Hb.
  destruct (begin (fw_state fw) selection) as [[state attempt]|]; cbn [exec_bind] in *; [|done].
  destruct Hb as (Hc & Hh & _).
  specialize (H (wait_at_gates (with_state fw state) attempt) attempt Hc eq_refl Hh).
  destruct (k _ _) as [[fw2 a]|]; [done|contradiction].
Qed.

Lemma end_applied_outcome {A} config (P : World → A → Prop) fw attempt detail answer :
  configuration (fw_state fw) = config → holds_fault (fw_state fw) attempt →
  P (fw_inner fw) answer → outcome False config P (end_applied fw attempt detail answer).
Proof.
  intros <- Hh HP. unfold end_applied.
  destruct (attempt_applied_settled _ _ detail Hh) as (state & -> & Hs%settled_configuration). done.
Qed.

Lemma end_completed_outcome {A} config (P : World → A → Prop) fw attempt detail answer :
  configuration (fw_state fw) = config → P (fw_inner fw) answer →
  outcome False config P (Ret (end_completed fw attempt detail answer)).
Proof. done. Qed.

Lemma end_ineffective_outcome {A} config (P : World → Result BackendError A → Prop) fw attempt detail :
  configuration (fw_state fw) = config → holds_fault (fw_state fw) attempt →
  P (fw_inner fw) (Err (mismatch_error detail)) →
  outcome False config P (end_ineffective fw attempt detail).
Proof.
  intros <- Hh HP. unfold end_ineffective, ineffective.
  destruct (mark_ineffective_settled _ _ detail Hh) as (state & -> & Hs%settled_configuration). done.
Qed.

  Context {BL : BackendLaws}.

(** The errors the store makes up say nothing of the wrapped store. *)
Definition opaque_error (e : BackendError) : Prop :=
  match error_kind e with
  | BackendNotFound | BackendAlreadyExists | BackendPrecondition => False
  | _ => True
  end.

Lemma backend_error_opaque failure key : opaque_error (backend_error failure key).
Proof. by destruct failure. Qed.
Lemma mismatch_error_opaque detail : opaque_error (mismatch_error detail).
Proof. done. Qed.
Lemma object_key_from_path_opaque path e : object_key_from_path path = Err e → opaque_error e.
Proof. unfold object_key_from_path. destruct (ObjectKey_try_from path); [done|]. by intros [= <-]. Qed.

Lemma put_opaque c c' p body e : opaque_error e → env c c' → put_answer env c c' p body (Err e).
Proof. intros He Hc. exists c. split; [done|]. unfold opaque_error in He. destruct (error_kind e); done || by left. Qed.

(** An answer of the wrapped store, replaced by an error that says nothing. *)
Lemma put_hidden c c' p body r e :
  opaque_error e → put_answer env c c' p body r → put_answer env c c' p body (Err e).
Proof.
  intros He (d & H1 & Hd). exists d. split; [done|].
  assert (env d c' ∨ d !! p = None ∧ env (<[p := body]> d) c') as H.
  { destruct r as [[]|e']; [by right|]. by destruct (error_kind e'); naive_solver. }
  unfold opaque_error in He. destruct (error_kind e); done || exact H.
Qed.

Lemma delete_hidden c c' p r e :
  opaque_error e → delete_answer env c c' p r → delete_answer env c c' p (Err e).
Proof.
  intros He (d & H1 & Hd). exists d. split; [done|].
  rewrite bool_decide_eq_false_2 by (unfold opaque_error in He; intros E; by rewrite E in He).
  destruct r as [[]|e']; [by right|]. case_bool_decide; [left; naive_solver|done].
Qed.

Lemma delete_opaque c c' p e : opaque_error e → env c c' → delete_answer env c c' p (Err e).
Proof.
  intros He Hc. exists c. split; [done|].
  rewrite bool_decide_eq_false_2 by (unfold opaque_error in He; intros E; by rewrite E in He). by left.
Qed.

Lemma get_opaque c c' p e : opaque_error e → env c c' → get_answer env c c' p (Err e).
Proof.
  intros He Hc. exists c. split_and!; [done|done|]. intros E. unfold opaque_error in He. by rewrite E in He.
Qed.

Lemma get_answer_env c c' p r : get_answer env c c' p r → env c c'.
Proof. intros (d & H1 & H2 & _). by etransitivity. Qed.

Lemma list_opaque c c' prefix start e : env c c' → list_answer env c c' prefix start [Err e].
Proof. intros Hc. left. exists c. split_and!; [done|done|]. right. by exists O, e, []. Qed.

Lemma list_answer_env c c' prefix start entries : list_answer env c c' prefix start entries → env c c'.
Proof. intros [(d & H1 & H2 & _)|[H _]]; [by etransitivity|done]. Qed.

(** A request that ends, at the laws of the answers above. *)
Ltac request_end :=
  first [apply end_applied_outcome | apply end_ineffective_outcome | apply end_completed_outcome];
  cbn [with_inner fw_state fw_inner]; [assumption..|].

Lemma put_opts_outcome fw p body :
  outcome (exhausted fw) (configuration (fw_state fw))
    (λ inner r, put_answer env (contents (fw_inner fw)) (contents inner) p body r)
    (put_opts fw p body).
Proof using BL.
  unfold put_opts. destruct (object_key_from_path p) as [key|e] eqn:Hp.
  2: { split; [done|]. apply put_opaque; [by eapply object_key_from_path_opaque|done]. }
  apply arrive_outcome. intros fw1 attempt Hc Hi Hh. rewrite <- Hi.
  destruct (put_create (fw_inner fw1) p body) as [inner r] eqn:Hr.
  pose proof (put_law _ _ _ _ _ Hr) as Hput.
  destruct (attempt_fault _ _) as [[]|]; try destruct r; request_end; try done;
    solve [apply put_opaque; [apply backend_error_opaque || apply mismatch_error_opaque|done]
          |eapply put_hidden; [apply backend_error_opaque || apply mismatch_error_opaque|exact Hput]].
Qed.

Lemma delete_one_outcome fw p :
  outcome (exhausted fw) (configuration (fw_state fw))
    (λ inner r, delete_answer env (contents (fw_inner fw)) (contents inner) p r) (delete_one fw p).
Proof using BL.
  unfold delete_one. destruct (object_key_from_path p) as [key|e] eqn:Hp.
  2: { split; [done|]. apply delete_opaque; [by eapply object_key_from_path_opaque|done]. }
  apply arrive_outcome. intros fw1 attempt Hc Hi Hh. rewrite <- Hi.
  destruct (delete_object (fw_inner fw1) p) as [inner r] eqn:Hr.
  pose proof (delete_law _ _ _ _ Hr) as Hdel.
  destruct (attempt_fault _ _) as [[]|].
  8: { destruct r as [[]|e]; [done|]. split; [|done]. rewrite <- Hc.
       destruct (attempt_cancelled_settled (fw_state fw1) attempt) as [detail Hs].
       apply (settled_configuration _ _ _ _ Hs). }
  all: try destruct r; request_end;
    solve [apply delete_opaque; [apply backend_error_opaque || apply mismatch_error_opaque|done]
          |eapply delete_hidden; [apply backend_error_opaque || apply mismatch_error_opaque|exact Hdel]].
Qed.

(** What a read may answer: truly, or with the size of the object understated by a
    configured fault. *)
Definition read_answer (config : list (Selection * Fault)) (c c' : gmap str (list Z)) (p : str)
    (r : Result BackendError GetResult) : Prop :=
  get_answer env c c' p r ∨
  ∃ target g, UnderreportMetadata target ∈ config.*2 ∧ get_answer env c c' p (Ok g) ∧
    1 ≤ meta_size g ∧ r = Ok (mk_get (meta_size g - 1) (meta_etag g) (body_stream g)).

Lemma get_body_fails c c' p g e :
  get_answer env c c' p (Ok g) → get_answer env c c' p (Ok (mk_get (meta_size g) (meta_etag g) [Err e])).
Proof.
  intros (d & H1 & H2 & body & Hb & Hsize & _). exists d. split_and!; [done|done|].
  exists body. split_and!; [done|done|by intros bytes|].
  intros [|chunk chunks] rest; [intros _; apply prefix_nil|done].
Qed.

Lemma get_opts_outcome fw p :
  outcome (exhausted fw) (configuration (fw_state fw))
    (λ inner r, read_answer (configuration (fw_state fw)) (contents (fw_inner fw)) (contents inner) p r)
    (get_opts fw p).
Proof using BL.
  unfold get_opts. destruct (object_key_from_path p) as [key|e] eqn:Hp.
  2: { split; [done|]. left. apply get_opaque; [by eapply object_key_from_path_opaque|done]. }
  apply arrive_outcome. intros fw1 attempt Hc Hi Hh. rewrite <- Hi.
  destruct (get_object (fw_inner fw1) p) as [inner r] eqn:Hr.
  pose proof (get_law _ _ _ _ Hr) as Hget. pose proof (get_answer_env _ _ _ _ Hget).
  assert (∀ g, r = Ok g → 0 ≤ meta_size g) as Hsize.
  { intros g ->. destruct Hget as (d & _ & _ & body & _ & -> & _). unfold zlen. lia. }
  destruct (attempt_fault _ _) as [fault|] eqn:Hf; [destruct fault as [| | |target failure|target| |]|].
  8: by request_end; left.
  4: { destruct r as [g|e].
       2: by request_end; left; apply get_opaque; [apply mismatch_error_opaque|].
       case_match; [by request_end; left; apply get_opaque; [apply mismatch_error_opaque|]|].
       split; [done|]. left. by apply get_body_fails. }
  4: { destruct r as [g|e].
       2: by request_end; left; apply get_opaque; [apply mismatch_error_opaque|].
       destruct (Z.eqb_spec (meta_size g) 0) as [|Hne];
         [by request_end; left; apply get_opaque; [apply mismatch_error_opaque|]|].
       specialize (Hsize g eq_refl). unfold u64_checked_sub. rewrite decide_True by lia.
       cbn [expect exec_bind]. request_end. right. exists target, g.
       split_and!; [|done|lia|done]. rewrite <- Hc. by apply (attempt_fault_Some _ attempt). }
  all: request_end; left; apply get_opaque; [apply backend_error_opaque || apply mismatch_error_opaque|done].
Qed.

  Context {HL : HonestListing}.

Lemma honest_pair c c' prefix start a b rest :
  honest_list_answer env c c' prefix start (Ok a :: Ok b :: rest) → ord_ltb b a = false.
Proof.
  intros (d & _ & _ & Hl). apply not_true_is_false. intros Hba%ord_ltb_spec.
  assert (∃ l, keys_under d prefix start = a :: b :: l) as [l Hk].
  { destruct Hl as [Hl|(n & e & tail & Hl)].
    - destruct (keys_under d prefix start) as [|x [|y l]]; [discriminate Hl|discriminate Hl|].
      injection Hl as -> -> _. by exists l.
    - destruct n as [|[|n]]; destruct (keys_under d prefix start) as [|x [|y l]]; try discriminate Hl.
      simpl in Hl. injection Hl as -> -> _. by exists l. }
  pose proof (keys_under_sorted d prefix start) as Hs. rewrite Hk in Hs.
  apply StronglySorted_inv in Hs as [_ Hs]. apply Forall_cons in Hs as [Hab _].
  by apply (ord_lt_asym a b).
Qed.

Lemma honest_env c c' prefix start entries : honest_list_answer env c c' prefix start entries → env c c'.
Proof. intros (d & H1 & H2 & _). by etransitivity. Qed.

Lemma apply_list_fault_outcome config c prefix start fw entries observed fault attempt :
  configuration (fw_state fw) = config → holds_fault (fw_state fw) attempt →
  honest_list_answer env c (contents (fw_inner fw)) prefix start entries →
  outcome False config
    (λ inner r, list_answer env c (contents inner) prefix start
       match r with Ok listing => listing | Err e => [Err e] end)
    (apply_list_fault fw entries observed fault attempt).
Proof using BL.
  intros Hc Hh Hl. pose proof (honest_env _ _ _ _ _ Hl) as Henv.
  unfold apply_list_fault. destruct fault as [[]|].
  8: by request_end; left.
  1-5: by request_end; apply list_opaque.
  - destruct entries as [|[a|e] entries]; cbn [required_list_entry];
      [by request_end; apply list_opaque| |by request_end; apply list_opaque].
    destruct entries as [|[b|e] entries]; cbn [required_list_entry];
      [by request_end; apply list_opaque| |by request_end; apply list_opaque].
    request_end. right. split; [done|]. right. exists b, a, entries. split; [done|].
    by eapply honest_pair.
  - destruct entries as [|[a|e] entries]; cbn [required_list_entry];
      [by request_end; apply list_opaque| |by request_end; apply list_opaque].
    request_end. right. split; [done|]. left. exists (foreign_location observed), entries.
    split; [done|]. apply foreign_no_key.
Qed.

Lemma execute_list_outcome fw prefix start :
  outcome (exhausted fw) (configuration (fw_state fw))
    (λ inner r, list_answer env (contents (fw_inner fw)) (contents inner) prefix start
       match r with Ok listing => listing | Err e => [Err e] end)
    (execute_list fw prefix start).
Proof using BL HL.
  unfold execute_list. destruct (object_key_from_path prefix) as [observed|e] eqn:Hp.
  2: { split; [done|]. by apply list_opaque. }
  apply arrive_outcome. intros fw1 attempt Hc Hi Hh. rewrite <- Hi.
  destruct (list_objects (fw_inner fw1) prefix start) as [inner entries] eqn:Hr.
  pose proof (honest_list _ _ _ _ _ Hr) as Hl.
  destruct (attempt_fault _ _) as [[]|]; [by request_end; apply list_opaque|..];
    by apply apply_list_fault_outcome.
Qed.

Lemma list_stream_outcome fw prefix start :
  outcome (exhausted fw) (configuration (fw_state fw))
    (λ inner entries, list_answer env (contents (fw_inner fw)) (contents inner) prefix start entries)
    (list_stream fw prefix start).
Proof using BL HL.
  unfold list_stream. pose proof (execute_list_outcome fw prefix start) as H.
  by destruct (execute_list fw prefix start) as [[fw1 r]|].
Qed.

(** * The store as a backend *)

(** A [Backend] answers every request.  A request that panics, for want of call
    identifiers, gives no answer: a failure that leaves the world as it was stands for it.
    [fault_store_lawful] is about the requests themselves and has no such stand-in. *)
Definition or_failed {A} (fw : FaultWorld) (result : Exec (FaultWorld * A)) (failed : A) : FaultWorld * A :=
  match result with Ret answered => answered | Panic => (fw, failed) end.
Definition no_identifiers : BackendError := mismatch_error (lit "no call identifiers").

Definition fault_backend : Backend := {|
  World := FaultWorld;
  path_parse := path_parse;
  put_create fw p body := or_failed fw (put_opts fw p body) (Err no_identifiers);
  get_object fw p := or_failed fw (get_opts fw p) (Err no_identifiers);
  list_objects fw prefix start := or_failed fw (list_stream fw prefix start) [Err no_identifiers];
  delete_object fw p := or_failed fw (delete_one fw p) (Err no_identifiers)
|}.

(** No fault understates metadata. *)
Definition understates (fault : Fault) : bool :=
  match fault with UnderreportMetadata _ => true | _ => false end.
Definition metadata_honest (fw : FaultWorld) : bool :=
  forallb (λ x, negb (understates x.2)) (configuration (fw_state fw)).

Definition HonestWorld : Type := Refined metadata_honest.
Definition keep (w : HonestWorld) (fw : FaultWorld) : HonestWorld := default w (refined metadata_honest fw).
Definition honest_request {A} (w : HonestWorld) (result : Exec (FaultWorld * A)) (failed : A) :
    HonestWorld * A :=
  let (fw, answer) := or_failed (content w) result failed in (keep w fw, answer).

Definition honest_backend : Backend := {|
  World := HonestWorld;
  path_parse := path_parse;
  put_create w p body := honest_request w (put_opts (content w) p body) (Err no_identifiers);
  get_object w p := honest_request w (get_opts (content w) p) (Err no_identifiers);
  list_objects w prefix start := honest_request w (list_stream (content w) prefix start) [Err no_identifiers];
  delete_object w p := honest_request w (delete_one (content w) p) (Err no_identifiers)
|}.

Lemma metadata_honest_config fw fw' :
  configuration (fw_state fw') = configuration (fw_state fw) → metadata_honest fw' = metadata_honest fw.
Proof. unfold metadata_honest. by intros ->. Qed.

Lemma honest_request_outcome {A} (w w' : HonestWorld) panics P (result : Exec (FaultWorld * A)) failed r :
  outcome panics (configuration (fw_state (content w))) P result → P (fw_inner (content w)) failed →
  honest_request w result failed = (w', r) → P (fw_inner (content w')) r.
Proof.
  unfold honest_request, keep. intros Ho Hf. destruct result as [[fw a]|]; cbn [or_failed].
  - destruct Ho as [Hc HP]. destruct (refined_is_Some metadata_honest fw) as (x & -> & <-).
    { by rewrite (metadata_honest_config (content w)), content_true. }
    by intros [= <- <-].
  - rewrite refined_content. by intros [= <- <-].
Qed.

Lemma read_answer_honest (w : HonestWorld) c c' p r :
  read_answer (configuration (fw_state (content w))) c c' p r → get_answer env c c' p r.
Proof.
  intros [H|(target & g & Hin & _)]; [done|]. pose proof (content_true w) as Hw. exfalso.
  unfold metadata_honest in Hw. apply list_elem_of_fmap in Hin as (x & Hx & Hin).
  rewrite forallb_forall in Hw. specialize (Hw x). rewrite <- Hx in Hw. discriminate Hw.
  by apply list_elem_of_In.
Qed.

Lemma honest_get_outcome (w : HonestWorld) p :
  outcome (exhausted (content w)) (configuration (fw_state (content w)))
    (λ inner r, get_answer env (contents (fw_inner (content w))) (contents inner) p r)
    (get_opts (content w) p).
Proof using BL.
  pose proof (get_opts_outcome (content w) p) as H. destruct (get_opts _ _) as [[fw r]|]; [|done].
  destruct H as [Hc Hr]. split; [done|]. by apply read_answer_honest in Hr.
Qed.

(** Without understated metadata the store keeps the promises of the store it wraps. *)
Definition honest_backend_laws : @BackendLaws honest_backend.
Proof using BL HL.
  refine (@Build_BackendLaws honest_backend
    (λ w : HonestWorld, contents (fw_inner (content w))) env env_preorder
    (@path_parse_key B BL) _ _ _ _); cbn.
  - intros w p body w' r. exact (honest_request_outcome _ _ _ _ _ _ _ (put_opts_outcome _ p body)
      (put_opaque _ _ _ _ _ (mismatch_error_opaque _) (reflexivity _))).
  - intros w p w' r. exact (honest_request_outcome _ _ _ _ _ _ _ (honest_get_outcome _ p)
      (get_opaque _ _ _ _ (mismatch_error_opaque _) (reflexivity _))).
  - intros w prefix start w' r. exact (honest_request_outcome _ _ _ _ _ _ _
      (list_stream_outcome _ prefix start) (list_opaque _ _ _ _ _ (reflexivity _))).
  - intros w p w' r. exact (honest_request_outcome _ _ _ _ _ _ _ (delete_one_outcome _ p)
      (delete_opaque _ _ _ _ (mismatch_error_opaque _) (reflexivity _))).
Defined.

(** C25: A fault-injecting store whose faults do not understate metadata answers every request
    as the store it wraps would answer under some failure: a create, a read, a listing or a
    delete returns below the bound on call identifiers, keeps the configuration, and says of
    the wrapped contents only what [BackendLaws] allows.  A lost response may hide a create
    or a delete that took effect, and nothing else changes the contents; a listing that a
    fault made wrong is visibly so. *)
Theorem fault_store_lawful (fw : FaultWorld) :
  metadata_honest fw = true →
  let ends {A} (P : gmap str (list Z) → A → Prop) :=
    outcome (exhausted fw) (configuration (fw_state fw)) (λ inner, P (contents inner)) in
  let c := contents (fw_inner fw) in
  (∀ p body, ends (λ c' r, put_answer env c c' p body r) (put_opts fw p body)) ∧
  (∀ p, ends (λ c' r, get_answer env c c' p r) (get_opts fw p)) ∧
  (∀ prefix start, ends (λ c' entries, list_answer env c c' prefix start entries)
     (list_stream fw prefix start)) ∧
  (∀ p, ends (λ c' r, delete_answer env c c' p r) (delete_one fw p)).
Proof using BL HL.
  intros Hh. split_and!; intros.
  - apply put_opts_outcome.
  - destruct (refined_is_Some metadata_honest fw Hh) as (w & _ & <-). apply honest_get_outcome.
  - apply list_stream_outcome.
  - apply delete_one_outcome.
Qed.

Lemma get_object_loose (fw fw' : FaultWorld) p r :
  @get_object fault_backend fw p = (fw', r) →
  loose_get_answer env (contents (fw_inner fw)) (contents (fw_inner fw')) p r.
Proof using BL.
  cbn [get_object fault_backend]. pose proof (get_opts_outcome fw p) as H.
  destruct (get_opts fw p) as [[fw1 r1]|]; cbn [or_failed]; intros [= <- <-].
  - destruct H as [_ [H|(target & g & _ & (d & H1 & H2 & body & ? & Hsize & ?) & Hg & ->)]];
      [by apply get_answer_loose|].
    exists d. split_and!; [done|done|]. exists body. cbn. split_and!; [done|lia|tauto|tauto].
  - apply get_answer_loose, get_opaque; [apply mismatch_error_opaque|done].
Qed.

Lemma list_objects_lawful (fw fw' : FaultWorld) prefix start entries :
  @list_objects fault_backend fw prefix start = (fw', entries) →
  list_answer env (contents (fw_inner fw)) (contents (fw_inner fw')) prefix start entries.
Proof using BL HL.
  cbn [list_objects fault_backend]. pose proof (list_stream_outcome fw prefix start) as H.
  destruct (list_stream fw prefix start) as [[fw1 entries1]|]; cbn [or_failed]; intros [= <- <-].
  - apply H.
  - by apply list_opaque.
Qed.

(** C26: Whatever faults are configured, the adapter over the fault-injecting store reads and
    lists truly.  A read that succeeds returns the stored bytes, within the bound, also when
    their size was understated or their stream was to fail; an absent object was absent.  A
    page is the first keys under the prefix: a listing out of order or with a foreign key
    gives an error and no page. *)
Theorem faults_never_believed (fw : FaultWorld) key bytes_max request :
  (∃ fw' r, @adapter_read fault_backend fw key bytes_max = Ret (fw', r) ∧
     read_means (key_str key) (content bytes_max) (contents (fw_inner fw)) (contents (fw_inner fw')) r) ∧
  (∃ fw' r, @list_page _ fault_backend fw request = Ret (fw', r) ∧
     env (contents (fw_inner fw)) (contents (fw_inner fw')) ∧
     ∀ page, r = Ok page →
       sometime (contents (fw_inner fw)) (contents (fw_inner fw')) (page_means request page)).
Proof using BL HL.
  split.
  - destruct (@get_object fault_backend fw (key_str key)) as [fw' r] eqn:Hg.
    apply get_object_loose in Hg as Hl.
    destruct (adapter_read_means (B' := fault_backend) fw fw' r key bytes_max _ _
      (@path_parse_key B BL key) Hg Hl) as (r' & Hr & Hm). by exists fw', r'.
  - destruct (@list_objects fault_backend fw (key_str (list_prefix request))
      (key_str <$> start_exclusive request)) as [fw' entries] eqn:Hl.
    apply list_objects_lawful in Hl as Ha.
    destruct (list_page_means (B' := fault_backend) fw fw' request entries _ _
      (@path_parse_key B BL) Hl Ha) as (r & Hr & Hm). by exists fw', r.
Qed.

End requests.

(** * Samples *)

#[local] Instance sample_text : StoreErrorText := {|
  generic_text store source := lit "Generic " ++ store ++ lit " error: " ++ source;
  permission_denied_text path source := path ++ lit ": " ++ source;
  unauthenticated_text path source := path ++ lit ": " ++ source
|}.
#[local] Existing Instance reference_format.
#[local] Existing Instance reference_backend.
#[local] Existing Instance reference_backend_laws.
#[local] Existing Instance reference_honest.

Definition sample_key_a : ObjectKey := @mk_refined _ (accepts key_check) (lit "a") I.
Definition sample_key_ab : ObjectKey := @mk_refined _ (accepts key_check) (lit "a/b") I.
Definition sample_key_ac : ObjectKey := @mk_refined _ (accepts key_check) (lit "a/c") I.
Definition sample_body : PutBody := @mk_refined _ (accepts put_body_check) [1; 2; 3] I.

Definition sample_configured (faults : list Fault) : Result FaultStoreConfigError FaultState :=
  foldl (λ state fault, let? state := state in inject 1 state fault) (Ok fault_state_new) faults.
Definition sample_world_of (faults : list Fault) : FaultWorld :=
  mk_fault_world ∅ match sample_configured faults with Ok state => state | Err _ => fault_state_new end ∅ [].

(** A lost response and lists gone wrong, in one store. *)
Definition sample_faulty : FaultWorld :=
  sample_world_of [CreateThenLoseResponse (TargetKey sample_key_ab); ReturnForeignKey sample_key_a;
            FailBody (TargetKey sample_key_ac) Transport; FailBefore (selection_delete (TargetPrefix sample_key_a)) Transport].

(** A create, and the same create again. *)
Definition sample_create_twice (fw : FaultWorld) (key : ObjectKey) :
    Exec (FaultWorld * list (Result StoreError CreateEvidence)) :=
  let! (fw, first) := @create_if_absent fault_backend fw key sample_body in
  let! (fw, second) := @create_if_absent fault_backend fw key sample_body in
  Ret (fw, [first; second]).

(** The reply to a create is lost; creating again finds the object the first create left. *)
Example lost_create_confirmed :
  match sample_create_twice sample_faulty sample_key_ab with
  | Ret (fw, [Ok Unresolved; Ok DurableMatch]) => bool_decide (fw_inner fw !! key_str sample_key_ab = Some (body_bytes sample_body))
  | _ => false
  end = true.
Proof. vm_compute. reflexivity. Qed.

(** With its size understated as well, the creator takes its own object for another's: the
    evidence of a create rests on true metadata. *)
Example understated_size_disowned :
  match sample_create_twice (sample_world_of [CreateThenLoseResponse (TargetKey sample_key_ab);
                                UnderreportMetadata (TargetKey sample_key_ab)]) sample_key_ab with
  | Ret (fw, [Ok Unresolved; Ok NotOurs]) => bool_decide (fw_inner fw !! key_str sample_key_ab = Some (body_bytes sample_body))
  | _ => false
  end = true.
Proof. vm_compute. reflexivity. Qed.

Lemma fault_store_lawful_witness :
  metadata_honest sample_faulty = true ∧
  outcome (exhausted sample_faulty) (configuration (fw_state sample_faulty))
    (λ inner r, put_answer env (contents (fw_inner sample_faulty)) (contents inner) (lit "a/b") [1] r)
    (put_opts sample_faulty (lit "a/b") [1]).
Proof.
  split; [vm_compute; reflexivity|].
  apply (fault_store_lawful sample_faulty). vm_compute. reflexivity.
Defined.

Lemma faults_never_believed_witness :
  ∃ fw' r, @adapter_read fault_backend sample_faulty sample_key_ac (@mk_refined _ nonzero_u64 10 I) = Ret (fw', r) ∧
    read_means (key_str sample_key_ac) 10 (contents (fw_inner sample_faulty)) (contents (fw_inner fw')) r.
Proof.
  exact (proj1 (faults_never_believed sample_faulty sample_key_ac (@mk_refined _ nonzero_u64 10 I)
    (mk_list_request sample_key_a None (@mk_refined _ (accepts keys_bound_check) 1 I)))).
Defined.
