(* ===== verification/FaultCalls.v ===== *)
(** Concurrent requests of the fault-injecting store (crate [strom-object-store], file
    [test_support/fault_store.rs]).

    Many requests share one store: each arrives, waits, and ends or is dropped at any await.
    [call_step] interleaves the arrivals and the ends over the state behind the lock and the
    attempts that are open.  A fault is reserved by one call and never becomes available
    again; it is pending exactly while the call that reserved it is open.  Every request of
    FaultStore.v is a run of these steps. *)

From S2P Require Import Prelude OrdMap Text ObjectStore FaultStore FaultTheory.

(** * Calls *)

Definition Calls : Type := FaultState * list FaultAttempt.

Inductive call_step : Calls → Calls → Prop :=
| call_arrives state open selection state' attempt :
    begin state selection = Ret (state', attempt) →
    call_step (state, open) (state', open ++ [attempt])
| call_applied state open k attempt detail state' :
    open !! k = Some attempt → attempt_applied state attempt detail = Ret state' →
    call_step (state, open) (state', delete k open)
| call_completed state open k attempt detail :
    open !! k = Some attempt → attempt_fault state attempt = None →
    call_step (state, open) (attempt_completed state attempt detail, delete k open)
| call_ineffective state open k attempt detail state' :
    open !! k = Some attempt → mark_ineffective state attempt detail = Ret state' →
    call_step (state, open) (state', delete k open)
| call_cancelled state open k attempt :
    open !! k = Some attempt →
    call_step (state, open) (attempt_cancelled state attempt, delete k open).

(** A pending fault belongs to one open call, and an open call holds what it reserved. *)
Record calls_ok (s : Calls) : Prop := mk_calls_ok {
  ok_known : ∀ attempt, attempt ∈ s.2 → attempt_call attempt < next_call_id s.1;
  ok_distinct : NoDup (attempt_call <$> s.2);
  ok_open : ∀ attempt i, attempt ∈ s.2 → fault_index attempt = Some i →
    ∃ c, state_faults s.1 !! i = Some c ∧ configured_status c = FaultPending (attempt_call attempt);
  ok_pending : ∀ i c call_id, state_faults s.1 !! i = Some c →
    configured_status c = FaultPending call_id →
    ∃ attempt, attempt ∈ s.2 ∧ fault_index attempt = Some i ∧ attempt_call attempt = call_id
}.

(** A status only moves on: available, pending on one call, then applied or ineffective. *)
Definition final (status : FaultStatus) : Prop :=
  match status with FaultApplied | FaultIneffective _ => True | _ => False end.
Definition moves (old new : FaultStatus) : Prop :=
  old = new ∨ old = FaultAvailable ∨ (∃ call_id, old = FaultPending call_id) ∧ final new.

#[export] Instance moves_preorder : PreOrder moves.
Proof.
  split; [by left|]. intros x y z [->|[->|[[id ->] Hy]]] [<-|[->|[[id' ->] Hz]]];
    unfold moves, final in *; naive_solver.
Qed.

(** What became of every fault between two states. *)
Definition progress (state state' : FaultState) : Prop :=
  configuration state' = configuration state ∧
  ∀ i c c', state_faults state !! i = Some c → state_faults state' !! i = Some c' →
    moves (configured_status c) (configured_status c').

#[export] Instance progress_preorder : PreOrder progress.
Proof.
  split.
  - intros x. split; [done|]. intros i c c' H H'. by simplify_eq.
  - intros x y z [Hxy H] [Hyz H']. split; [congruence|]. intros i c c' Hi Hi'.
    assert (is_Some (state_faults y !! i)) as [d Hd].
    { apply configuration_lookup. rewrite Hxy. apply configuration_lookup. by eexists. }
    transitivity (configured_status d); eauto.
Qed.

(** A status settled by the call that reserved the fault. *)
Definition settles (attempt : FaultAttempt) (status : option FaultStatus) : Prop :=
  fault_index attempt = None ∨ ∃ s, status = Some s ∧ final s.

Lemma settled_lookup state attempt status state' i :
  settled state attempt status state' →
  state_faults state' !! i =
    match fault_index attempt, status with
    | Some j, Some status => if decide (j = i) then fault_with_status status <$> state_faults state !! i
                             else state_faults state !! i
    | _, _ => state_faults state !! i
    end.
Proof.
  intros [-> _]. destruct (fault_index attempt), status; [|done..]. case_decide as Hd.
  - rewrite Hd. apply list_lookup_alter_eq.
  - by apply list_lookup_alter_ne.
Qed.

Lemma delete_elem {A B} (f : A → B) (l : list A) k x y :
  NoDup (f <$> l) → l !! k = Some x → y ∈ l → y ∈ delete k l ∨ y = x.
Proof.
  intros Hnd Hk Hy. apply list_elem_of_lookup in Hy as [j Hj]. destruct (decide (j = k)) as [->|Hne].
  - right. congruence.
  - left. rewrite (delete_take_drop l k). apply elem_of_app.
    destruct (decide (j < k)%nat).
    + left. apply list_elem_of_lookup. exists j. by rewrite lookup_take_lt.
    + right. apply list_elem_of_lookup. exists (j - S k)%nat. rewrite lookup_drop.
      by replace (S k + (j - S k))%nat with j by lia.
Qed.

Lemma delete_not_elem {A B} (f : A → B) (l : list A) k x y :
  NoDup (f <$> l) → l !! k = Some x → y ∈ delete k l → y ∈ l ∧ f y ≠ f x.
Proof.
  intros Hnd Hk Hy. rewrite (delete_take_drop l k) in Hy. rewrite <- (take_drop_middle l k x Hk) in Hnd.
  rewrite fmap_app, fmap_cons in Hnd. apply NoDup_app in Hnd as (_ & H1 & H2).
  apply NoDup_cons in H2 as [H2 _]. rewrite <- (take_drop_middle l k x Hk).
  apply elem_of_app in Hy as [Hy|Hy]; (split; [rewrite elem_of_app, elem_of_cons; tauto|]); intros E.
  - apply (H1 (f y)); [by apply list_elem_of_fmap_2|]. rewrite E. by left.
  - apply H2. rewrite <- E. by apply list_elem_of_fmap_2.
Qed.

(** The end of an open call keeps the invariant and settles at most its own fault. *)
Lemma settled_ok state open k attempt status state' :
  calls_ok (state, open) → open !! k = Some attempt → settles attempt status →
  settled state attempt status state' → calls_ok (state', delete k open) ∧ progress state state'.
Proof.
  intros [Hknown Hnd Hopen Hpend] Hk Hst Hs. simpl in *.
  assert (attempt ∈ open) as Hin by (by eapply list_elem_of_lookup_2).
  pose proof (λ i, settled_lookup _ _ _ _ i Hs) as Hl.
  assert (next_call_id state' = next_call_id state) as Hn by apply Hs.
  split; [split; simpl|split].
  - intros a Ha. rewrite Hn. apply Hknown. by eapply (delete_not_elem attempt_call).
  - rewrite list_fmap_delete. eapply sublist_NoDup; [exact Hnd|apply sublist_delete].
  - intros a i Ha Hi. destruct (delete_not_elem _ _ _ _ _ Hnd Hk Ha) as [Ha' Hne].
    destruct (Hopen a i Ha' Hi) as (c & Hc & Hst'). exists c. split; [|done]. rewrite Hl.
    destruct (fault_index attempt) as [j|] eqn:Hj, status; try done. rewrite decide_False; [done|].
    intros ->. destruct (Hopen attempt i Hin Hj) as (c' & Hc' & E). congruence.
  - intros i c id Hc Hid. rewrite Hl in Hc.
    assert (state_faults state !! i = Some c ∧ fault_index attempt ≠ Some i) as [Hc' Hne].
    { destruct Hst as [Hnone|(s & -> & Hf)]; [by rewrite Hnone in Hc |- *|].
      destruct (fault_index attempt) as [j|]; [|done]. case_decide as Hd; [|by split; [|congruence]].
      destruct (state_faults state !! i); [|discriminate Hc]. injection Hc as <-. simpl in Hid. by rewrite Hid in Hf. }
    destruct (Hpend i c id Hc' Hid) as (a & Ha & Hi & Hcall). exists a. split; [|done].
    destruct (delete_elem attempt_call open k attempt a Hnd Hk Ha) as [| ->]; done.
  - by eapply settled_configuration.
  - intros i c c' Hc Hc'. rewrite Hl in Hc'. destruct Hst as [Hnone|(s & -> & Hf)].
    { rewrite Hnone in Hc'. by simplify_eq. }
    destruct (fault_index attempt) as [j|] eqn:Hj; [|by simplify_eq].
    case_decide as Hd; [|by simplify_eq]. subst j. rewrite Hc in Hc'. injection Hc' as <-.
    destruct (Hopen attempt i Hin Hj) as (d & Hd & E). right. right. simplify_eq. split; [by eexists|done].
Qed.

Lemma begin_ok state open selection state' attempt :
  calls_ok (state, open) → begin state selection = Ret (state', attempt) →
  calls_ok (state', open ++ [attempt]) ∧ progress state state'.
Proof.
  intros [Hknown Hnd Hopen Hpend] Hb. simpl in *.
  pose proof (begin_spec state selection) as Hs. rewrite Hb in Hs. destruct Hs as (Hcfg & _ & _).
  unfold begin, u64_checked_add in Hb. case_decide; [|discriminate Hb]. cbn [expect exec_bind] in Hb.
  pose proof (reserve_spec (next_call_id state) selection (state_faults state)) as Hr.
  destruct (reserve _ _ _) as [faults index]. injection Hb as <- <-. cbn [fst snd] in Hr. simpl in *.
  assert (∀ i c, state_faults state !! i = Some c → configured_status c ≠ FaultAvailable →
    faults !! i = Some c) as Hkeep.
  { intros i c Hi Hne. destruct index as [j|]; [|by destruct Hr as [-> _]].
    destruct Hr as (d & Hj & Hd & _ & ->). rewrite list_lookup_insert_ne; [done|].
    intros ->. by simplify_eq. }
  split; [split; simpl|split; [done|]].
  - intros a [Ha| ->%list_elem_of_singleton]%elem_of_app; simpl; [|lia]. specialize (Hknown a Ha). lia.
  - rewrite fmap_app. apply NoDup_app. split_and!; [done| |apply NoDup_singleton].
    intros x (a & -> & Ha)%list_elem_of_fmap Hx. apply list_elem_of_singleton in Hx. simpl in Hx.
    specialize (Hknown a Ha). lia.
  - intros a i [Ha| ->%list_elem_of_singleton]%elem_of_app Hi; simpl in *.
    + destruct (Hopen a i Ha Hi) as (c & Hc & Hst). exists c. split; [|done]. apply Hkeep; [done|]. by rewrite Hst.
    + subst index. destruct Hr as (c & Hc & _ & _ & ->). eexists.
      rewrite list_lookup_insert_eq; [done|]. by eapply lookup_lt_Some.
  - intros i c id Hc Hid. destruct (decide (index = Some i)) as [->|Hne].
    + destruct Hr as (d & Hd & _ & _ & ->).
      rewrite list_lookup_insert_eq in Hc by (by eapply lookup_lt_Some). injection Hc as <-.
      injection Hid as <-. eexists. split; [apply elem_of_app; right; by apply list_elem_of_singleton|done].
    + assert (state_faults state !! i = Some c) as Hc'.
      { destruct index as [j|]; [|by destruct Hr as [-> _]]. destruct Hr as (d & _ & _ & _ & ->).
        rewrite list_lookup_insert_ne in Hc; [done|congruence]. }
      destruct (Hpend i c id Hc' Hid) as (a & Ha & Hi & Hcall). exists a.
      split; [by apply elem_of_app; left|done].
  - intros i c c' Hc Hc'. destruct (decide (configured_status c = FaultAvailable)) as [->|Hne].
    + right. by left.
    + pose proof (Hkeep i c Hc Hne). simpl in *. by simplify_eq.
Qed.

Lemma open_holds s attempt : calls_ok s → attempt ∈ s.2 → holds_fault s.1 attempt.
Proof.
  intros [_ _ Hopen _] Hin. unfold holds_fault. destruct (fault_index attempt) as [i|] eqn:Hi; [|done].
  apply configuration_lookup. destruct (Hopen attempt i Hin Hi) as (c & Hc & _). by eexists.
Qed.

Lemma no_fault_no_index s attempt :
  calls_ok s → attempt ∈ s.2 → attempt_fault s.1 attempt = None → fault_index attempt = None.
Proof.
  intros Hok Hin. pose proof (open_holds s attempt Hok Hin) as Hh. unfold holds_fault in Hh.
  unfold attempt_fault. destruct (fault_index attempt) as [i|]; [|done]. simpl.
  apply configuration_lookup in Hh as [c ->]. discriminate.
Qed.

Lemma call_step_ok s s' : calls_ok s → call_step s s' → calls_ok s' ∧ progress s.1 s'.1.
Proof.
  intros Hok Hs. destruct Hs as [state open selection state' attempt Hb
    |state open k attempt detail state' Hk He|state open k attempt detail Hk Hf
    |state open k attempt detail state' Hk He|state open k attempt Hk]; simpl;
    [by eapply begin_ok|..]; assert (attempt ∈ open) as Hin by (by eapply list_elem_of_lookup_2);
    pose proof (open_holds _ attempt Hok Hin) as Hh.
  - destruct (attempt_applied_settled state attempt detail Hh) as (x & Hx & Hs).
    rewrite He in Hx. injection Hx as <-.
    apply (settled_ok _ _ _ _ _ _ Hok Hk) with (2 := Hs). right. by eexists.
  - apply (settled_ok _ _ _ attempt None _ Hok Hk); [|apply attempt_completed_settled].
    left. by apply (no_fault_no_index (state, open)).
  - destruct (mark_ineffective_settled state attempt detail Hh) as (x & Hx & Hs).
    rewrite He in Hx. injection Hx as <-.
    apply (settled_ok _ _ _ _ _ _ Hok Hk) with (2 := Hs). right. by eexists.
  - destruct (attempt_cancelled_settled state attempt) as [detail Hs].
    apply (settled_ok _ _ _ _ _ _ Hok Hk) with (2 := Hs). right. by eexists.
Qed.

Lemma calls_ok_run s s' : calls_ok s → rtc call_step s s' → calls_ok s' ∧ progress s.1 s'.1.
Proof.
  intros Hok Hr. induction Hr as [s|s t s' Hs _ IH]; [done|].
  destruct (call_step_ok s t Hok Hs) as [Ht Hp]. destruct (IH Ht) as [Hs' Hp'].
  split; [done|]. by transitivity t.1.
Qed.

(** A configuration that has not been used. *)
Definition unused (state : FaultState) : Prop :=
  Forall (λ c, configured_status c = FaultAvailable) (state_faults state).

Lemma unused_ok state : unused state → calls_ok (state, []).
Proof.
  unfold unused. rewrite Forall_forall. intros Hu. split; simpl.
  - intros a Ha. by apply not_elem_of_nil in Ha.
  - constructor.
  - intros a i Ha. by apply not_elem_of_nil in Ha.
  - intros i c id Hi Hid. specialize (Hu c (list_elem_of_lookup_2 _ _ _ Hi)). congruence.
Qed.

Lemma inject_unused owners state fault state' :
  unused state → inject owners state fault = Ok state' → unused state'.
Proof.
  unfold inject, unused. case_bool_decide; [|discriminate]. destruct (List.find _ _); [discriminate|].
  intros Hu [= <-]. simpl. rewrite Forall_app, Forall_singleton. done.
Qed.

(** * Verification *)

Lemma bind_nil {A B} (f : A → list B) l : l ≫= f = [] ↔ Forall (λ x, f x = []) l.
Proof.
  induction l as [|x l IH]; [done|]. rewrite bind_cons, Forall_cons, <- IH.
  split; [intros [? ?]%app_eq_nil; done|by intros [-> ->]].
Qed.

Lemma verify_spec `{DebugFormat} state :
  verify state = Ok tt ↔
  Forall (λ c, configured_status c = FaultApplied) (state_faults state) ∧
  Forall (λ g, gate_observed g = true) (state_gates state).
Proof.
  assert ((verify state = Ok tt) ↔
    (state_faults state ≫= fault_failure) ++ (state_gates state ≫= gate_failure) = []) as ->.
  { unfold verify. by destruct (_ ++ _). }
  assert (∀ (l l' : list str), l ++ l' = [] ↔ l = [] ∧ l' = []) as Happ.
  { intros l l'. split; [apply app_eq_nil|by intros [-> ->]]. }
  rewrite Happ, !bind_nil. f_equiv; apply Forall_iff; intros x.
  - unfold fault_failure. by destruct (configured_status x).
  - unfold gate_failure. by destruct (gate_observed x).
Qed.

(** * Requests are runs *)

Section requests.
  Context {DF : DebugFormat} {ET : StoreErrorText} {B : Backend}.

Definition calls_of (fw : FaultWorld) : Calls := (fw_state fw, fw_bodies fw).

(** From [s], a request that returns has taken steps of calls. *)
Definition runs {A} (s : Calls) (result : Exec (FaultWorld * A)) : Prop :=
  match result with Ret (fw, _) => rtc call_step s (calls_of fw) | Panic => True end.

Lemma delete_last {A} (l : list A) x : delete (length l) (l ++ [x]) = l.
Proof. rewrite delete_take_drop, take_app_length, drop_ge, (right_id_L [] (++)); [done|]. rewrite length_app. simpl. lia. Qed.

(** The last attempt that arrived ends. *)
Lemma last_ends state bodies attempt state' :
  (∀ open k, open !! k = Some attempt → call_step (state, open) (state', delete k open)) →
  rtc call_step (state, bodies ++ [attempt]) (state', bodies).
Proof.
  intros H. apply rtc_once. rewrite <- (delete_last bodies attempt) at 2. apply H.
  rewrite lookup_app_r, Nat.sub_diag by lia. done.
Qed.

Lemma arrive_runs {A} (fw : FaultWorld) selection (k : FaultWorld → FaultAttempt → Exec (FaultWorld * A)) :
  (∀ fw1 attempt, fw_bodies fw1 = fw_bodies fw →
     runs (fw_state fw1, fw_bodies fw ++ [attempt]) (k fw1 attempt)) →
  runs (calls_of fw) (let! (fw1, attempt) := arrive fw selection in k fw1 attempt).
Proof.
  intros H. unfold arrive. destruct (begin (fw_state fw) selection) as [[state attempt]|] eqn:Hb; [|done].
  cbn [exec_bind]. specialize (H (wait_at_gates (with_state fw state) attempt) attempt eq_refl).
  destruct (k _ _) as [[fw2 a]|]; [|done]. eapply rtc_l; [|exact H]. by eapply call_arrives.
Qed.

Lemma end_applied_runs {A} fw state bodies attempt detail (answer : A) :
  fw_state fw = state → fw_bodies fw = bodies →
  runs (state, bodies ++ [attempt]) (end_applied fw attempt detail answer).
Proof.
  intros <- <-. unfold end_applied. destruct (attempt_applied _ _ _) eqn:E; [|done].
  apply last_ends. intros. by eapply call_applied.
Qed.

Lemma end_ineffective_runs {A} fw state bodies attempt detail :
  fw_state fw = state → fw_bodies fw = bodies →
  runs (state, bodies ++ [attempt]) (end_ineffective (A := A) fw attempt detail).
Proof.
  intros <- <-. unfold end_ineffective, ineffective. destruct (mark_ineffective _ _ _) eqn:E; [|done].
  apply last_ends. intros. by eapply call_ineffective.
Qed.

Lemma end_completed_runs {A} fw state bodies attempt detail (answer : A) :
  fw_state fw = state → fw_bodies fw = bodies → attempt_fault state attempt = None →
  runs (state, bodies ++ [attempt]) (Ret (end_completed fw attempt detail answer)).
Proof. intros <- <- Hf. apply last_ends. intros. by eapply call_completed. Qed.

#[local] Hint Resolve end_applied_runs end_ineffective_runs end_completed_runs : core.

Lemma put_opts_runs fw p body : runs (calls_of fw) (put_opts fw p body).
Proof.
  unfold put_opts. destruct (object_key_from_path p) as [key|e]; [|apply rtc_refl].
  apply arrive_runs. intros fw1 attempt Hb.
  destruct (put_create (fw_inner fw1) p body) as [inner r].
  destruct (attempt_fault _ _) as [[]|] eqn:Hf; auto. destruct r; auto.
Qed.

Lemma get_opts_runs fw p : runs (calls_of fw) (get_opts fw p).
Proof.
  unfold get_opts. destruct (object_key_from_path p) as [key|e]; [|apply rtc_refl].
  apply arrive_runs. intros fw1 attempt Hb.
  destruct (get_object (fw_inner fw1) p) as [inner r].
  destruct (attempt_fault _ _) as [[]|] eqn:Hf; auto; destruct r as [g|]; auto; destruct (_ =? _); auto.
  - cbn. rewrite <- Hb. apply rtc_refl.
  - destruct (u64_checked_sub _ _); cbn [expect exec_bind]; [auto|done].
Qed.

Lemma delete_one_runs fw p : runs (calls_of fw) (delete_one fw p).
Proof.
  unfold delete_one. destruct (object_key_from_path p) as [key|e]; [|apply rtc_refl].
  apply arrive_runs. intros fw1 attempt Hb.
  destruct (delete_object (fw_inner fw1) p) as [inner r].
  destruct (attempt_fault _ _) as [[]|] eqn:Hf; auto; destruct r as [[]|]; auto.
  cbn. unfold calls_of. cbn. rewrite Hb. apply last_ends. intros. by apply call_cancelled.
Qed.

Lemma list_stream_runs fw prefix start : runs (calls_of fw) (list_stream fw prefix start).
Proof.
  assert (∀ A A' s (result : Exec (FaultWorld * A)) (f : A → A'), runs s result →
    runs s (let! (fw, a) := result in Ret (fw, f a))) as Hmap.
  { intros A A' s [[fw' a]|] f; auto. }
  apply Hmap. clear Hmap. unfold execute_list.
  destruct (object_key_from_path prefix) as [observed|e]; [|apply rtc_refl].
  apply arrive_runs. intros fw1 attempt Hb.
  destruct (list_objects (fw_inner fw1) prefix start) as [inner entries].
  destruct (attempt_fault _ _) as [[]|] eqn:Hf; auto; cbn [apply_list_fault]; auto;
    destruct entries as [|[a|] entries]; cbn [required_list_entry]; auto.
  destruct entries as [|[b|] entries]; cbn [required_list_entry]; auto.
Qed.

Lemma body_poll_next_runs fw index fw' :
  body_poll_next fw index = Ret fw' → rtc call_step (calls_of fw) (calls_of fw').
Proof.
  unfold body_poll_next, take_body. destruct (fw_bodies fw !! index) as [attempt|] eqn:Hi; simpl.
  - unfold end_applied. cbn. destruct (attempt_applied _ _ _) eqn:E; [|discriminate].
    intros [= <-]. apply rtc_once. by eapply call_applied.
  - intros [= <-]. apply rtc_refl.
Qed.

Lemma body_drop_runs fw index fw' :
  body_drop fw index = Ret fw' → rtc call_step (calls_of fw) (calls_of fw').
Proof.
  unfold body_drop, take_body. destruct (fw_bodies fw !! index) as [attempt|] eqn:Hi; simpl.
  - destruct (mark_ineffective _ _ _) eqn:E; [|discriminate].
    intros [= <-]. apply rtc_once. by eapply call_ineffective.
  - intros [= <-]. apply rtc_refl.
Qed.

End requests.

(** C27: However the arrivals, ends and cancellations of requests interleave, each configured
    fault strikes at most one call.  A fault never becomes available again: it goes from
    available to pending on one call, and from there to applied or ineffective for good,
    while the configuration stays.  It is pending exactly while the call that reserved it is
    open, no two open calls share an identifier, and with no call open no fault is pending:
    verification then reports only faults never used, faults that took no effect, and gates
    no request was observed at. *)
Theorem faults_fire_once (state : FaultState) (s s' : Calls) :
  unused state → rtc call_step (state, []) s → rtc call_step s s' →
  progress s.1 s'.1 ∧ NoDup (attempt_call <$> s'.2) ∧
  ∀ i c call_id, state_faults s'.1 !! i = Some c →
    (configured_status c = FaultPending call_id ↔
     ∃ attempt, attempt ∈ s'.2 ∧ fault_index attempt = Some i ∧ attempt_call attempt = call_id).
Proof.
  intros Hu Hs Hs'. destruct (calls_ok_run _ _ (unused_ok _ Hu) Hs) as [Hok _].
  destruct (calls_ok_run _ _ Hok Hs') as [[_ Hnd Hopen Hpend] Hp]. split_and!; [done|done|].
  intros i c id Hc. split; [by apply Hpend|]. intros (a & Ha & Hi & <-).
  destruct (Hopen a i Ha Hi) as (d & Hd & E). congruence.
Qed.

Lemma faults_fire_once_witness :
  let state := fw_state sample_faulty in
  let again := selection_create (TargetKey sample_key_ab) in
  ∃ first second state' state'', begin state again = Ret (state', first) ∧
    begin state' again = Ret (state'', second) ∧
    fault_index first = Some O ∧ fault_index second = None ∧ progress state state''.
Proof.
  intros state again. destruct (begin state again) as [[state' first]|] eqn:E; [|vm_compute in E; discriminate E].
  destruct (begin state' again) as [[state'' second]|] eqn:E'.
  2: { exfalso. assert (match begin state again with
         | Ret (x, _) => match begin x again with Panic => true | _ => false end
         | Panic => true end = false) as F by (vm_compute; reflexivity).
       rewrite E, E' in F. discriminate F. }
  assert (match begin state again with
    | Ret (x, a) => match begin x again with
        | Ret (_, b) => bool_decide (fault_index a = Some O) && bool_decide (fault_index b = None)
        | Panic => false end
    | Panic => false end = true) as F by (vm_compute; reflexivity).
  rewrite E, E' in F. apply andb_true_iff in F as [F1 F2].
  exists first, second, state', state''.
  split; [reflexivity|]. split; [exact E'|].
  split; [exact (bool_decide_eq_true_1 _ F1)|]. split; [exact (bool_decide_eq_true_1 _ F2)|].
  refine (proj1 (faults_fire_once state (state, []) (state'', [first; second]) _ (rtc_refl _ _) _)).
  - apply (bool_decide_unpack _). vm_compute. exact I.
  - eapply rtc_l; [exact (call_arrives state [] again state' first E)|].
    eapply rtc_l; [exact (call_arrives state' [first] again state'' second E')|]. apply rtc_refl.
Defined.
