(* ===== verification/Gates.v ===== *)
(** The gates that hold requests of the fault-injecting store (crate [strom-object-store],
    file [test_support/gate.rs]).

    A gate is three flags behind a lock, each with a [Notify] of the runtime.  The runtime is
    the class [NotifyOps]; [NotifyLaws] is what its documentation promises: a future made
    before a call of [notify_waiters] is woken by it, polled or not, and stays so.

    Every function of the gate is a sequence of operations on the channels, and [task_step]
    performs the next atomic part of one: setting a flag and waking the waiters are two parts,
    and a wait makes its future, looks at the flag, and sleeps, in three.  Any number of tasks
    interleave.  No wake-up is lost, so a gate blocks a task only while the flag it waits for
    is not set. *)

From S2P Require Import Prelude FaultStore.

(** * The runtime's notifications *)

Class NotifyOps : Type := {
  Notify : Type;
  Notified : Type;
  notify_new : Notify;
  notified : Notify → Notify * Notified;
  notify_waiters : Notify → Notify;
  woken : Notify → Notified → bool
}.

Class NotifyLaws `{NotifyOps} : Type := {
  issued : Notify → Notified → Prop;
  notified_issued : ∀ n, issued (notified n).1 (notified n).2;
  issued_notified : ∀ n t, issued n t → issued (notified n).1 t;
  issued_waiters : ∀ n t, issued n t → issued (notify_waiters n) t;
  waiters_woken : ∀ n t, issued n t → woken (notify_waiters n) t = true;
  woken_notified : ∀ n t, woken n t = true → woken (notified n).1 t = true;
  woken_waiters : ∀ n t, woken n t = true → woken (notify_waiters n) t = true
}.

(** * Gates *)

Inductive Channel : Type := Arrival | Release | Finish.

#[export] Instance Channel_eq_dec : EqDecision Channel.
Proof. solve_decision. Defined.

Section gates.
  Context {NO : NotifyOps}.

(** strom-object-store/src/test_support/gate.rs:17-22, [GateInner]. *)
Record GateInner : Type := mk_gate_inner {
  gate_state : GateState;
  arrival : Notify;
  release : Notify;
  finish : Notify
}.

(** strom-object-store/src/test_support/gate.rs:33-35, [Gate::new]. *)
Definition gate_default : GateInner := mk_gate_inner gate_new notify_new notify_new notify_new.

Definition flag (gate : GateInner) (channel : Channel) : bool :=
  match channel with
  | Arrival => arrived (gate_state gate)
  | Release => released (gate_state gate)
  | Finish => finished (gate_state gate)
  end.
Definition set_flag (gate : GateInner) (channel : Channel) : GateInner :=
  let 'mk_gate arrived released finished := gate_state gate in
  mk_gate_inner
    match channel with
    | Arrival => mk_gate true released finished
    | Release => mk_gate arrived true finished
    | Finish => mk_gate arrived released true
    end (arrival gate) (release gate) (finish gate).

Definition notify_of (gate : GateInner) (channel : Channel) : Notify :=
  match channel with Arrival => arrival gate | Release => release gate | Finish => finish gate end.
Definition set_notify (gate : GateInner) (channel : Channel) (notify : Notify) : GateInner :=
  match channel with
  | Arrival => mk_gate_inner (gate_state gate) notify (release gate) (finish gate)
  | Release => mk_gate_inner (gate_state gate) (arrival gate) notify (finish gate)
  | Finish => mk_gate_inner (gate_state gate) (arrival gate) (release gate) notify
  end.

(** The operations that the functions of a gate are made of. *)
Inductive GateOp : Type := SetFlag (channel : Channel) | NotifyAll (channel : Channel) | WaitFor (channel : Channel).

(** strom-object-store/src/test_support/gate.rs:38-46, [Gate::wait_until_blocked]. *)
Definition wait_until_blocked : list GateOp := [WaitFor Arrival].
(** strom-object-store/src/test_support/gate.rs:49-54, [Gate::release]. *)
Definition gate_release : list GateOp := [SetFlag Release; NotifyAll Release].
(** strom-object-store/src/test_support/gate.rs:57-65, [Gate::wait_until_finished]. *)
Definition wait_until_finished : list GateOp := [WaitFor Finish].
(** strom-object-store/src/test_support/gate.rs:67-81, [Gate::block]. *)
Definition block : list GateOp := [SetFlag Arrival; NotifyAll Arrival; WaitFor Release].
(** strom-object-store/src/test_support/gate.rs:83-88, [Gate::finish]. *)
Definition gate_finish : list GateOp := [SetFlag Finish; NotifyAll Finish].

(** A caller calls functions of the gate, one after another. *)
Inductive GateCall : Type :=
| CallWaitUntilBlocked | CallRelease | CallWaitUntilFinished | CallBlock | CallFinish.
Definition gate_call (call : GateCall) : list GateOp :=
  match call with
  | CallWaitUntilBlocked => wait_until_blocked
  | CallRelease => gate_release
  | CallWaitUntilFinished => wait_until_finished
  | CallBlock => block
  | CallFinish => gate_finish
  end.

(** Where a wait stands: about to make its future, about to look at the flag with it, or
    asleep on it. *)
Inductive WaitPhase : Type := WaitStarts | WaitLooks (future : Notified) | WaitSleeps (future : Notified).

(** A task runs operations in order. *)
Record GateTask : Type := mk_task { todo : list GateOp; phase : WaitPhase }.

(** The next part of a task; [None] when it is done or asleep.
    strom-object-store/src/test_support/gate.rs:37-88, [Gate (one part of a function)]. *)
Definition task_step (gate : GateInner) (task : GateTask) : option (GateInner * GateTask) :=
  match todo task with
  | [] => None
  | SetFlag channel :: rest => Some (set_flag gate channel, mk_task rest WaitStarts)
  | NotifyAll channel :: rest =>
      Some (set_notify gate channel (notify_waiters (notify_of gate channel)), mk_task rest WaitStarts)
  | WaitFor channel :: rest =>
      match phase task with
      | WaitStarts =>
          let (notify, future) := notified (notify_of gate channel) in
          Some (set_notify gate channel notify, mk_task (todo task) (WaitLooks future))
      | WaitLooks future =>
          Some (gate, if flag gate channel then mk_task rest WaitStarts
                      else mk_task (todo task) (WaitSleeps future))
      | WaitSleeps future =>
          if woken (notify_of gate channel) future
          then Some (gate, mk_task (todo task) WaitStarts) else None
      end
  end.

(** Tasks that share a gate. *)
Definition GateSystem : Type := GateInner * list GateTask.
Inductive gate_step : GateSystem → GateSystem → Prop :=
| gate_steps gate tasks k task gate' task' :
    tasks !! k = Some task → task_step gate task = Some (gate', task') →
    gate_step (gate, tasks) (gate', <[k := task']> tasks).

Definition gate_start (callers : list (list GateCall)) : GateSystem :=
  (gate_default, (λ calls, mk_task (calls ≫= gate_call) WaitStarts) <$> callers).

(** The parts of a task alone. *)
Fixpoint task_run (n : nat) (gate : GateInner) (task : GateTask) : option (GateInner * GateTask) :=
  match n with
  | O => Some (gate, task)
  | S n => '(gate, task) ← task_step gate task; task_run n gate task
  end.

(** Every flag that is set is announced next. *)
Definition announces (program : list GateOp) : Prop :=
  ∀ i channel, program !! i = Some (SetFlag channel) → program !! S i = Some (NotifyAll channel).

Lemma announces_tail op program : announces (op :: program) → announces program.
Proof. intros H i channel Hi. apply (H (S i) channel Hi). Qed.

Lemma announces_next channel program :
  announces (SetFlag channel :: program) → ∃ rest, program = NotifyAll channel :: rest.
Proof.
  intros H. specialize (H O channel eq_refl). destruct program as [|op rest]; [discriminate H|].
  injection H as ->. by exists rest.
Qed.

Lemma announces_app program program' :
  announces program → announces program' → announces (program ++ program').
Proof.
  intros H H' i channel Hi. apply lookup_app_Some in Hi as [Hi|[Hl Hi]].
  - apply lookup_app_l_Some. by apply H.
  - rewrite lookup_app_r by lia. replace (S i - length program)%nat with (S (i - length program)) by lia.
    by apply H'.
Qed.

Lemma gate_call_announces call : announces (gate_call call).
Proof.
  destruct call; intros [|[|[|i]]] channel Hi; simpl in *; try discriminate Hi; injection Hi as ->; reflexivity.
Qed.

Lemma calls_announce calls : announces (calls ≫= gate_call).
Proof.
  induction calls as [|call calls IH]; [by intros i channel|]. rewrite bind_cons.
  apply announces_app; [apply gate_call_announces|exact IH].
Qed.

Lemma flag_set_flag gate channel other :
  flag (set_flag gate channel) other = bool_decide (channel = other) || flag gate other.
Proof. destruct gate as [[] ? ? ?], channel, other; reflexivity. Qed.
Lemma notify_set_flag gate channel other : notify_of (set_flag gate channel) other = notify_of gate other.
Proof. destruct gate as [[] ? ? ?], channel, other; reflexivity. Qed.
Lemma flag_set_notify gate channel notify other : flag (set_notify gate channel notify) other = flag gate other.
Proof. destruct channel, other; reflexivity. Qed.
Lemma notify_set_notify gate channel notify other :
  notify_of (set_notify gate channel notify) other =
  if decide (channel = other) then notify else notify_of gate other.
Proof. destruct channel, other; reflexivity. Qed.

  Context {NL : NotifyLaws}.

(** ** Wake-ups *)

(** Some task is about to wake the waiters of a channel. *)
Definition announcing (tasks : list GateTask) (channel : Channel) : Prop :=
  ∃ task, task ∈ tasks ∧ head (todo task) = Some (NotifyAll channel).

(** A future at work was made by its channel; one asleep is woken, or its flag is not set, or
    a task is about to wake it. *)
Definition wait_ok (gate : GateInner) (announced : Channel → Prop) (task : GateTask) : Prop :=
  announces (todo task) ∧
  match todo task, phase task with
  | WaitFor channel :: _, WaitLooks future => issued (notify_of gate channel) future
  | WaitFor channel :: _, WaitSleeps future =>
      issued (notify_of gate channel) future ∧
      (woken (notify_of gate channel) future = true ∨ flag gate channel = false ∨ announced channel)
  | _, _ => True
  end.

Definition gate_ok (s : GateSystem) : Prop := ∀ task, task ∈ s.2 → wait_ok s.1 (announcing s.2) task.

(** What a step of one task leaves of the channels for the others. *)
Definition serves (gate gate' : GateInner) (announced announced' : Channel → Prop) : Prop :=
  ∀ channel future, issued (notify_of gate channel) future →
    issued (notify_of gate' channel) future ∧
    (woken (notify_of gate channel) future = true ∨ flag gate channel = false ∨ announced channel →
     woken (notify_of gate' channel) future = true ∨ flag gate' channel = false ∨ announced' channel).

Lemma serves_wait gate gate' announced announced' task :
  serves gate gate' announced announced' → wait_ok gate announced task → wait_ok gate' announced' task.
Proof.
  intros Hs [Ha Hw]. split; [done|].
  destruct (todo task) as [|[] rest]; try done. destruct (phase task); [done|by apply Hs|].
  destruct Hw as [Hi Hw]. destruct (Hs _ _ Hi) as [Hi' Hs']. auto.
Qed.

Lemma announcing_insert tasks k task task' channel :
  tasks !! k = Some task → announcing tasks channel →
  announcing (<[k := task']> tasks) channel ∨ head (todo task) = Some (NotifyAll channel).
Proof.
  intros Hk (x & Hx & Hh). apply list_elem_of_lookup in Hx as [j Hj].
  destruct (decide (j = k)) as [->|Hne]; [right; congruence|]. left. exists x. split; [|done].
  apply list_elem_of_lookup. exists j. by rewrite list_lookup_insert_ne.
Qed.

Lemma announcing_new tasks k task task' channel :
  tasks !! k = Some task → head (todo task') = Some (NotifyAll channel) →
  announcing (<[k := task']> tasks) channel.
Proof.
  intros Hk Hh. exists task'. split; [|done]. apply list_elem_of_lookup. exists k.
  apply list_lookup_insert_eq. by eapply lookup_lt_Some.
Qed.

Lemma task_step_serves gate tasks k task gate' task' :
  tasks !! k = Some task → announces (todo task) → task_step gate task = Some (gate', task') →
  serves gate gate' (announcing tasks) (announcing (<[k := task']> tasks)).
Proof.
  intros Hk Ha Hs channel future Hi.
  assert (head (todo task) ≠ Some (NotifyAll channel) →
    announcing tasks channel → announcing (<[k := task']> tasks) channel) as Hkeep.
  { intros Hne Hx. destruct (announcing_insert tasks k task task' channel Hk Hx); done. }
  unfold task_step in Hs. destruct task as [[|[c|c|c] rest] ph]; cbn [todo phase head] in *; [discriminate Hs|..].
  - injection Hs as <- <-. rewrite notify_set_flag, flag_set_flag. split; [done|].
    destruct (announces_next _ _ Ha) as [rest' ->]. intros [|[Hf|]]; auto.
    case_bool_decide as Hc; [|auto]. right. right. eapply announcing_new; [exact Hk|]. by subst.
  - injection Hs as <- <-. rewrite notify_set_notify, flag_set_notify.
    case_decide as Hc; [subst c|split; [done|]; intros [|[|]]; auto].
    + split; [by apply issued_waiters|]. intros _. left. by apply waiters_woken.
    + right. right. apply Hkeep; [congruence|done].
  - destruct ph as [|t|t].
    + destruct (notified (notify_of gate c)) as [n t] eqn:En. injection Hs as <- <-.
      rewrite notify_set_notify, flag_set_notify. case_decide as Hc; [subst c|split; [done|]; intros [|[|]]; auto].
      pose proof (issued_notified _ _ Hi) as H1. rewrite En in H1. split; [done|]. intros [Hw|[|]]; auto.
      pose proof (woken_notified _ _ Hw) as H2. rewrite En in H2. by left.
    + injection Hs as <- <-. split; [done|]. intros [|[|]]; auto.
    + destruct (woken _ _); [|discriminate Hs]. injection Hs as <- <-. split; [done|]. intros [|[|]]; auto.
Qed.

(** The task that stepped is in order too. *)
Lemma task_step_wait gate announced announced' task gate' task' :
  wait_ok gate announced task → task_step gate task = Some (gate', task') →
  wait_ok gate' announced' task'.
Proof.
  intros [Ha Hw] Hs. unfold task_step in Hs.
  destruct task as [[|[c|c|c] rest] ph]; cbn [todo phase] in *; [discriminate Hs|..].
  - injection Hs as <- <-. split; [by eapply announces_tail|]. by destruct rest as [|[] ?].
  - injection Hs as <- <-. split; [by eapply announces_tail|]. by destruct rest as [|[] ?].
  - destruct ph as [|t|t].
    + destruct (notified (notify_of gate c)) as [n t] eqn:En. injection Hs as <- <-.
      split; [done|]. cbn [todo phase]. rewrite notify_set_notify, decide_True by done.
      pose proof (notified_issued (notify_of gate c)) as H1. by rewrite En in H1.
    + injection Hs as <- <-. destruct (flag gate c) eqn:Hf.
      * split; [by eapply announces_tail|]. by destruct rest as [|[] ?].
      * split; [done|]. cbn [todo phase]. auto.
    + destruct (woken _ _); [|discriminate Hs]. by injection Hs as <- <-.
Qed.

Lemma gate_step_ok s s' : gate_ok s → gate_step s s' → gate_ok s'.
Proof.
  intros Hok Hg. destruct Hg as [gate tasks k task gate' task' Hk Hs]. intros x Hx. cbn [fst snd] in *.
  assert (wait_ok gate (announcing tasks) task) as Ht by (apply Hok; by eapply list_elem_of_lookup_2).
  apply list_elem_of_lookup in Hx as [j Hj]. destruct (decide (j = k)) as [->|Hne].
  - rewrite list_lookup_insert_eq in Hj by (by eapply lookup_lt_Some). injection Hj as <-.
    by eapply task_step_wait.
  - rewrite list_lookup_insert_ne in Hj by done. eapply serves_wait.
    + eapply task_step_serves; [exact Hk|apply Ht|exact Hs].
    + apply Hok. by eapply list_elem_of_lookup_2.
Qed.

Lemma gate_start_ok callers s : rtc gate_step (gate_start callers) s → gate_ok s.
Proof.
  intros Hr. assert (gate_ok (gate_start callers)) as H0.
  { intros task Hin. apply list_elem_of_fmap in Hin as (calls & -> & _).
    split; [apply calls_announce|]. cbn [todo phase]. by destruct (_ ≫= _) as [|[] ?]. }
  induction Hr as [s|s t s' Hs _ IH]; [done|]. apply IH. by eapply gate_step_ok.
Qed.

Lemma starts_passes gate channel rest :
  flag gate channel = true →
  ∃ gate', task_run 2 gate (mk_task (WaitFor channel :: rest) WaitStarts) = Some (gate', mk_task rest WaitStarts).
Proof.
  intros Hf. unfold task_run, task_step. cbn -[flag set_notify].
  destruct (notified (notify_of gate channel)) as [n t]. cbn -[flag set_notify].
  rewrite flag_set_notify, Hf. by eexists.
Qed.

Lemma wait_passes gate announced task channel rest :
  wait_ok gate announced task → todo task = WaitFor channel :: rest →
  flag gate channel = true → ¬ announced channel →
  ∃ n gate', (n ≤ 3)%nat ∧ task_run n gate task = Some (gate', mk_task rest WaitStarts).
Proof.
  destruct task as [ops ph]. cbn [todo]. intros [_ Hw] -> Hf Hn. cbn [todo phase] in Hw.
  destruct (starts_passes gate channel rest Hf) as [gate' Hg]. destruct ph as [|t|t].
  - exists 2%nat, gate'. split; [lia|done].
  - exists 1%nat, gate. split; [lia|]. cbn [task_run]. unfold task_step. simpl. by rewrite Hf.
  - destruct Hw as [_ [Hw|[Hw|Hw]]]; [|congruence|contradiction].
    assert (task_step gate (mk_task (WaitFor channel :: rest) (WaitSleeps t)) =
      Some (gate, mk_task (WaitFor channel :: rest) WaitStarts)) as Hstep.
    { unfold task_step. cbn [todo phase]. by rewrite Hw. }
    exists 3%nat, gate'. split; [lia|]. rewrite <- Hg. change 3%nat with (S 2).
    cbn [task_run]. by rewrite Hstep.
Qed.

Lemma stuck_waits gate announced task :
  wait_ok gate announced task → task_step gate task = None →
  todo task = [] ∨ ∃ channel rest, todo task = WaitFor channel :: rest ∧
    (flag gate channel = false ∨ announced channel).
Proof.
  destruct task as [[|[c|c|c] rest] ph]; intros [_ Hw] Hs; cbn [todo phase] in *; [by left|done|done|].
  right. exists c, rest. split; [done|]. unfold task_step in Hs. cbn [todo phase] in Hs.
  destruct ph as [|t|t]; [by destruct (notified _)|done|].
  destruct Hw as [_ [Hw|Hw]]; [|done]. by rewrite Hw in Hs.
Qed.

Lemma stuck_waits_unset callers s :
  rtc gate_step (gate_start callers) s → (∀ s', ¬ gate_step s s') →
  ∀ task, task ∈ s.2 → todo task = [] ∨
    ∃ channel rest, todo task = WaitFor channel :: rest ∧ flag s.1 channel = false.
Proof.
  intros Hok%gate_start_ok. destruct s as [gate tasks]. cbn [fst snd] in *. intros Hstuck task Hin.
  assert (∀ other, other ∈ tasks → task_step gate other = None) as Hnone.
  { intros other [k Hk]%list_elem_of_lookup. destruct (task_step gate other) as [[g t]|] eqn:E; [|done].
    exfalso. eapply Hstuck. by eapply gate_steps. }
  destruct (stuck_waits gate _ task (Hok task Hin) (Hnone task Hin)) as [|(c & rest & Ht & [Hf|Ha])];
    [by left|right; eauto|].
  destruct Ha as (other & Hother & Hh). specialize (Hnone other Hother). unfold task_step in Hnone.
  destruct (todo other) as [|op ops]; [discriminate Hh|]. injection Hh as ->. discriminate Hnone.
Qed.

(** C28: No wake-up of a gate is lost.  In every interleaving of callers of its functions, a
    task that waits for a flag that is set, with no task still to announce it, passes the
    wait in at most three parts of its own; and when no task can take a step, every task is
    done or waits for a flag that was never set. *)
Theorem gate_no_lost_wakeup (callers : list (list GateCall)) (s : GateSystem) :
  rtc gate_step (gate_start callers) s →
  (∀ task channel rest, task ∈ s.2 → todo task = WaitFor channel :: rest →
     flag s.1 channel = true → (∀ other, other ∈ s.2 → head (todo other) ≠ Some (NotifyAll channel)) →
     ∃ n gate, (n ≤ 3)%nat ∧ task_run n s.1 task = Some (gate, mk_task rest WaitStarts)) ∧
  ((∀ s', ¬ gate_step s s') →
     ∀ task, task ∈ s.2 → todo task = [] ∨
       ∃ channel rest, todo task = WaitFor channel :: rest ∧ flag s.1 channel = false).
Proof.
  intros Hr. split; [|by eapply stuck_waits_unset]. apply gate_start_ok in Hr as Hok.
  intros task channel rest Hin Ht Hf Hn. apply (wait_passes _ (announcing s.2) task channel rest);
    [by apply Hok|done|done|]. intros (other & Hother & Hh). by apply (Hn other).
Qed.

(** ** The rendezvous *)

(** A flag is set once a task is past setting it. *)
Definition flags_follow (callers : list (list GateCall)) (s : GateSystem) : Prop :=
  length s.2 = length callers ∧
  ∀ k calls task, callers !! k = Some calls → s.2 !! k = Some task →
    ∃ past, calls ≫= gate_call = past ++ todo task ∧
      ∀ channel, SetFlag channel ∈ past → flag s.1 channel = true.

Lemma task_step_flags gate task gate' task' :
  task_step gate task = Some (gate', task') →
  (∀ channel, flag gate channel = true → flag gate' channel = true) ∧
  (todo task' = todo task ∨ ∃ op, todo task = op :: todo task' ∧
     ∀ channel, op = SetFlag channel → flag gate' channel = true).
Proof.
  intros Hs. unfold task_step in Hs.
  destruct task as [[|[c|c|c] rest] ph]; cbn [todo phase] in *; [discriminate Hs|..].
  - injection Hs as <- <-. split.
    + intros channel Hf. rewrite flag_set_flag, Hf. apply orb_true_r.
    + right. eexists. split; [reflexivity|]. intros channel [= ->].
      by rewrite flag_set_flag, bool_decide_eq_true_2.
  - injection Hs as <- <-. split; [intros channel; by rewrite flag_set_notify|].
    right. eexists. split; [reflexivity|]. discriminate.
  - destruct ph as [|t|t].
    + destruct (notified _). injection Hs as <- <-.
      split; [intros channel; by rewrite flag_set_notify|by left].
    + injection Hs as <- <-. split; [done|]. destruct (flag gate c); [|by left].
      right. eexists. split; [reflexivity|]. discriminate.
    + destruct (woken _ _); [|discriminate Hs]. injection Hs as <- <-. split; [done|by left].
Qed.

Lemma gate_step_flags callers s s' : flags_follow callers s → gate_step s s' → flags_follow callers s'.
Proof.
  intros [Hl Hf] Hg. destruct Hg as [gate tasks k task gate' task' Hk Hs]. cbn [fst snd] in *.
  destruct (task_step_flags _ _ _ _ Hs) as [Hmono Htodo].
  split; [cbn [snd]; by rewrite length_insert|]. cbn [fst snd]. intros j calls x Hj Hx.
  destruct (decide (j = k)) as [->|Hne].
  - rewrite list_lookup_insert_eq in Hx by (by eapply lookup_lt_Some). injection Hx as <-.
    destruct (Hf k calls task Hj Hk) as (past & Hpast & Hset). destruct Htodo as [->|(op & Ht & Hop)].
    + exists past. split; [done|]. eauto.
    + exists (past ++ [op]). rewrite <- (assoc_L (++)). split; [cbn [app]; by rewrite <- Ht|].
      intros channel [Hin|Hin%list_elem_of_singleton]%elem_of_app; [eauto|]. by apply Hop.
  - rewrite list_lookup_insert_ne in Hx by done. destruct (Hf j calls x Hj Hx) as (past & Hpast & Hset).
    exists past. eauto.
Qed.

Lemma gate_start_flags callers s : rtc gate_step (gate_start callers) s → flags_follow callers s.
Proof.
  intros Hr. assert (flags_follow callers (gate_start callers)) as H0.
  { split; [apply length_fmap|]. intros k calls task Hk Ht. cbn [snd gate_start] in Ht.
    rewrite list_lookup_fmap, Hk in Ht. injection Ht as <-. exists []. split; [done|].
    intros channel Hin. by apply not_elem_of_nil in Hin. }
  induction Hr as [s|s t s' Hs _ IH]; [done|]. apply IH. by eapply gate_step_flags.
Qed.

(** The test waits for the request, lets it go and waits for its end; the request stops at
    the gate and finishes.  Whatever the interleaving, they stop only when both are done. *)
Lemma rendezvous_completes s :
  rtc gate_step (gate_start [[CallWaitUntilBlocked; CallRelease; CallWaitUntilFinished];
                             [CallBlock; CallFinish]]) s →
  (∀ s', ¬ gate_step s s') → Forall (λ task, todo task = []) s.2.
Proof.
  intros Hr Hstuck. pose proof (stuck_waits_unset _ _ Hr Hstuck) as Hw.
  destruct (gate_start_flags _ _ Hr) as [Hl Hf]. destruct s as [gate tasks]. cbn [fst snd] in *.
  destruct tasks as [|test [|request [|]]]; try discriminate Hl. clear Hl.
  destruct (Hf 0%nat _ test eq_refl eq_refl) as (past & Hp & Hset).
  destruct (Hf 1%nat _ request eq_refl eq_refl) as (past' & Hp' & Hset').
  assert (flag gate Arrival = true ∧ (todo request = [] ∧ flag gate Finish = true ∨ flag gate Release = false))
    as (Ha & Hq).
  { destruct (Hw request) as [Hq|(c & rest & Hq & Hc)]; [right; left| |]; rewrite Hq in Hp'.
    - rewrite (right_id_L [] (++)) in Hp'. subst past'. split; [apply Hset'; by left|].
      left. split; [done|]. apply Hset'. do 3 right. by left.
    - destruct past' as [|? [|? [|? [|? [|? [|? past']]]]]]; try discriminate Hp'.
      injection Hp' as <- <- <- <-. split; [apply Hset'; by left|by right]. }
  assert (todo test = [] ∧ flag gate Release = true ∨ flag gate Release = true ∧ flag gate Finish = false) as Ht.
  { destruct (Hw test) as [Ht|(c & rest & Ht & Hc)]; [left| |]; rewrite Ht in Hp.
    - rewrite (right_id_L [] (++)) in Hp. subst past. left. split; [done|]. apply Hset. right. by left.
    - destruct past as [|? [|? [|? [|? [|? past]]]]]; try discriminate Hp.
      + injection Hp as <- <-. congruence.
      + injection Hp as <- <- <- <- <-. right. split; [|done]. apply Hset. right. by left. }
  rewrite !Forall_cons, Forall_nil. destruct Ht as [[Ht HR]|[HR HF]], Hq as [[Hq HF']|HR'];
    done || congruence.
Qed.


End gates.

(** * A reference notification *)

(** The number of calls of [notify_waiters]; a future keeps the count it was made at. *)
#[local] Instance reference_notify : NotifyOps := {|
  Notify := nat;
  Notified := nat;
  notify_new := O;
  notified n := (n, n);
  notify_waiters := S;
  woken n t := (t <? n)%nat
|}.

#[refine, local] Instance reference_notify_laws : NotifyLaws := {| issued n t := (t ≤ n)%nat |}.
Proof. all: cbn [notified notify_waiters woken reference_notify fst snd]; intros; rewrite ?Nat.ltb_lt in *; lia. Defined.

(** A waiter that fell asleep before the end of the request was announced. *)
Definition asleep : GateSystem :=
  (mk_gate_inner (mk_gate false false true) O O 1%nat,
   [mk_task [] WaitStarts; mk_task [WaitFor Finish] (WaitSleeps O)]).

Lemma gate_no_lost_wakeup_witness :
  rtc gate_step (gate_start [[CallFinish]; [CallWaitUntilFinished]]) asleep ∧
  ∃ n gate, (n ≤ 3)%nat ∧
    task_run n asleep.1 (mk_task [WaitFor Finish] (WaitSleeps O)) = Some (gate, mk_task [] WaitStarts).
Proof.
  assert (rtc gate_step (gate_start [[CallFinish]; [CallWaitUntilFinished]]) asleep) as Hr.
  { eapply rtc_l; [eapply (gate_steps _ _ 1%nat); reflexivity|].
    eapply rtc_l; [eapply (gate_steps _ _ 1%nat); reflexivity|].
    eapply rtc_l; [eapply (gate_steps _ _ 0%nat); reflexivity|].
    eapply rtc_l; [eapply (gate_steps _ _ 0%nat); reflexivity|]. apply rtc_refl. }
  split; [exact Hr|].
  refine (proj1 (gate_no_lost_wakeup _ asleep Hr) (mk_task [WaitFor Finish] (WaitSleeps O)) Finish [] _ eq_refl eq_refl _).
  - right. left.
  - intros other [->|[->|H%not_elem_of_nil]%elem_of_cons]%elem_of_cons; [discriminate|discriminate|exact (False_ind _ H)].
Defined.
