(* ===== verification/Common.v ===== *)
(** The capability seams shared by the crates (crate [strom-common]): seeded
    randomness with labelled forks, the clock of the process, and the manually advanced
    clock.

    The generator, the entropy source and the runtime's instants are third-party code and
    parameters.  The file shows that the
    64-bit seed mixer is injective, that a fork depends only on its parent's seed and
    its label, and that the manual clock never loses a sleeper or a wake-up. *)

From S2P Require Import Prelude OrdMap Text.

(** * Randomness *)

Definition u64_modulus : Z := 2 ^ 64.
(** [u64::wrapping_add], [u64::wrapping_mul] and [^]. *)
Definition wrapping_add (a b : Z) : Z := (a + b) mod u64_modulus.
Definition wrapping_mul (a b : Z) : Z := (a * b) mod u64_modulus.

(** strom-common/src/randomness.rs:106-107, [FNV_OFFSET_BASIS and FNV_PRIME]. *)
Definition FNV_OFFSET_BASIS : Z := 0xCBF29CE484222325.
Definition FNV_PRIME : Z := 0x00000100000001B3.

(** strom-common/src/randomness.rs:109-114, [fnv1a_64]. *)
Definition fnv1a_64 (bytes : list Z) : Z :=
  foldl (λ digest byte, wrapping_mul (Z.lxor digest byte) FNV_PRIME) FNV_OFFSET_BASIS bytes.

(** strom-common/src/randomness.rs:116-121, [SPLITMIX64 constants]. *)
Definition SPLITMIX64_GOLDEN_GAMMA : Z := 0x9E3779B97F4A7C15.
Definition SPLITMIX64_MULTIPLIER_ONE : Z := 0xBF58476D1CE4E5B9.
Definition SPLITMIX64_MULTIPLIER_TWO : Z := 0x94D049BB133111EB.
Definition SPLITMIX64_SHIFT_ONE : Z := 30.
Definition SPLITMIX64_SHIFT_TWO : Z := 27.
Definition SPLITMIX64_SHIFT_THREE : Z := 31.

(** strom-common/src/randomness.rs:123-129, [splitmix64]. *)
Definition splitmix64 (input : Z) : Z :=
  let mixed := wrapping_add input SPLITMIX64_GOLDEN_GAMMA in
  let mixed := wrapping_mul (Z.lxor mixed (Z.shiftr mixed SPLITMIX64_SHIFT_ONE))
                 SPLITMIX64_MULTIPLIER_ONE in
  let mixed := wrapping_mul (Z.lxor mixed (Z.shiftr mixed SPLITMIX64_SHIFT_TWO))
                 SPLITMIX64_MULTIPLIER_TWO in
  Z.lxor mixed (Z.shiftr mixed SPLITMIX64_SHIFT_THREE).

(** [u64::to_le_bytes]: [n] bytes, the least significant first. *)
Fixpoint to_le_bytes (n : nat) (v : Z) : list Z :=
  match n with O => [] | S n => v mod 256 :: to_le_bytes n (v / 256) end.

(** strom-common/src/randomness.rs:11-13, [Seed]. *)
Definition Seed : Type := list Z.

(** strom-common/src/randomness.rs:44-58, [Seed::from u64]. *)
Definition Seed_from_u64 (value : Z) : Seed :=
  to_le_bytes 8 (splitmix64 value)
  ++ to_le_bytes 8 (splitmix64 (Z.lxor value SPLITMIX64_GOLDEN_GAMMA))
  ++ to_le_bytes 8 (splitmix64 (Z.lxor value SPLITMIX64_MULTIPLIER_ONE))
  ++ to_le_bytes 8 (splitmix64 (Z.lxor value SPLITMIX64_MULTIPLIER_TWO)).

(** [filled] is what the entropy source of the operating system wrote, if it did.
    strom-common/src/randomness.rs:27-35, [Seed::from_os]. *)
Definition Seed_from_os (filled : option (list Z)) : Exec Seed := expect filled.

(** The third-party generator: seeded, put on a stream, drawn from. *)
Class GeneratorOps : Type := {
  Generator : Type;
  generator_from_seed : Seed → Generator;
  set_stream : Generator → Z → Generator;
  fill_bytes : Generator → nat → Generator * list Z
}.

(** A draw of [n] bytes is [n] bytes. *)
Class GeneratorLaws `{GeneratorOps} : Prop :=
  fill_bytes_octets : ∀ g n, length (fill_bytes g n).2 = n ∧
    Forall (λ b, 0 ≤ b < 256) (fill_bytes g n).2.

Section entropy.
  Context {GO : GeneratorOps}.

(** strom-common/src/randomness.rs:60-68, [Entropy]. *)
Record Entropy : Type := mk_entropy {
  entropy_seed : Seed;
  generator : Generator;
  forked_labels : gset Z
}.

(** strom-common/src/randomness.rs:71-78, [Entropy::from_seed]. *)
Definition Entropy_from_seed (seed : Seed) : Entropy :=
  mk_entropy seed (generator_from_seed seed) ∅.

(** strom-common/src/randomness.rs:80-99, [Entropy::fork]. *)
Definition fork (entropy : Entropy) (label : str) : Exec (Entropy * Entropy) :=
  let label_digest := fnv1a_64 (str_bytes label) in
  assert! negb (bool_decide (label_digest ∈ forked_labels entropy)) in
  let derivation := set_stream (generator_from_seed (entropy_seed entropy)) label_digest in
  let child := (fill_bytes derivation 32).2 in
  Ret (mk_entropy (entropy_seed entropy) (generator entropy)
         ({[label_digest]} ∪ forked_labels entropy),
       Entropy_from_seed child).

(** A draw through [Entropy::rng]. *)
Definition draw (entropy : Entropy) (n : nat) : Entropy * list Z :=
  let '(g, bytes) := fill_bytes (generator entropy) n in
  (mk_entropy (entropy_seed entropy) g (forked_labels entropy), bytes).

(** What a component may do to its source before a fork: draw, or fork others. *)
Inductive used : Entropy → Entropy → Prop :=
| used_refl e : used e e
| used_draw e e' n : used e e' → used e (draw e' n).1
| used_fork e e' label e1 child : used e e' → fork e' label = Ret (e1, child) → used e e1.

Lemma used_seed e e' : used e e' → entropy_seed e' = entropy_seed e.
Proof.
  induction 1 as [e|e e' n _ IH|e e' label e1 child _ IH Hf]; [done| |].
  - unfold draw. destruct (fill_bytes _ _). done.
  - unfold fork in Hf. case_bool_decide; [done|]. by injection Hf as <- _.
Qed.

Lemma used_labels e e' : used e e' → forked_labels e ⊆ forked_labels e'.
Proof.
  induction 1 as [e|e e' n _ IH|e e' label e1 child _ IH Hf]; [done| |].
  - unfold draw. destruct (fill_bytes _ _). done.
  - unfold fork in Hf. case_bool_decide; [done|]. injection Hf as <- _. set_solver.
Qed.

(** A fork depends only on the parent's seed and the label: draws and forks made
    before it do not shift the child's stream. *)
Lemma fork_independent e e1 e2 label e1' e2' c1 c2 :
  used e e1 → used e e2 → fork e1 label = Ret (e1', c1) → fork e2 label = Ret (e2', c2) → c1 = c2.
Proof.
  intros H1%used_seed H2%used_seed. unfold fork. do 2 (case_bool_decide; [done|]).
  intros [= _ <-] [= _ <-]. by rewrite H1, H2.
Qed.

(** A label forks at most once. *)
Lemma fork_once e label e1 child e2 :
  fork e label = Ret (e1, child) → used e1 e2 → fork e2 label = Panic.
Proof.
  unfold fork at 1. case_bool_decide; [done|]. intros [= <- _] Hl%used_labels. cbn in Hl.
  unfold fork. rewrite bool_decide_eq_true_2; [done|]. set_solver.
Qed.

End entropy.

(** ** The mixer is injective *)

Lemma xorshift_inj s x y :
  0 < s → 0 ≤ x → 0 ≤ y → Z.lxor x (Z.shiftr x s) = Z.lxor y (Z.shiftr y s) → x = y.
Proof.
  intros Hs Hx Hy He. assert (0 ≤ Z.lxor x y) as Hd by (by apply Z.lxor_nonneg).
  assert (Z.lxor x y = Z.shiftr (Z.lxor x y) s) as Hfix.
  { apply Z.lxor_eq. rewrite Z.shiftr_lxor.
    rewrite (Z.lxor_assoc x y), (Z.lxor_comm y), Z.lxor_assoc, <- (Z.lxor_assoc x).
    rewrite He, Z.lxor_assoc, <- (Z.lxor_assoc (Z.shiftr y s)), Z.lxor_nilpotent, Z.lxor_0_l.
    apply Z.lxor_nilpotent. }
  rewrite Z.shiftr_div_pow2 in Hfix by lia. pose proof (Z.pow_gt_1 2 s ltac:(lia)) as [Hp _].
  specialize (Hp Hs). apply Z.lxor_eq.
  destruct (Z.eq_dec (Z.lxor x y) 0) as [|Hne]; [done|].
  pose proof (Z.div_lt (Z.lxor x y) (2 ^ s)). lia.
Qed.

Lemma wrapping_mul_inj m inverse x y :
  (m * inverse) mod u64_modulus = 1 → 0 ≤ x < u64_modulus → 0 ≤ y < u64_modulus →
  wrapping_mul x m = wrapping_mul y m → x = y.
Proof.
  unfold wrapping_mul. intros Hi Hx Hy He.
  assert (∀ z, 0 ≤ z < u64_modulus → ((z * m) mod u64_modulus * inverse) mod u64_modulus = z) as H.
  { intros z Hz. rewrite Zmult_mod_idemp_l, <- Z.mul_assoc, <- Zmult_mod_idemp_r, Hi, Z.mul_1_r.
    by apply Z.mod_small. }
  rewrite <- (H x Hx), <- (H y Hy). by rewrite He.
Qed.

Lemma wrapping_add_inj g x y :
  0 ≤ x < u64_modulus → 0 ≤ y < u64_modulus → wrapping_add x g = wrapping_add y g → x = y.
Proof.
  unfold wrapping_add. intros Hx Hy He.
  assert (∀ z, 0 ≤ z < u64_modulus → ((z + g) mod u64_modulus - g) mod u64_modulus = z) as H.
  { intros z Hz. rewrite Zminus_mod_idemp_l, Z.add_simpl_r. by apply Z.mod_small. }
  rewrite <- (H x Hx), <- (H y Hy). by rewrite He.
Qed.

Lemma xorshift_range s x :
  0 ≤ s → 0 ≤ x < u64_modulus → 0 ≤ Z.lxor x (Z.shiftr x s) < u64_modulus.
Proof.
  intros Hs Hx. assert (0 ≤ Z.shiftr x s) by (apply Z.shiftr_nonneg; lia).
  assert (Z.shiftr x s ≤ x) by (rewrite Z.shiftr_div_pow2 by done; apply Z.div_le_upper_bound;
    [apply Z.pow_pos_nonneg; lia|]; pose proof (Z.pow_pos_nonneg 2 s); nia).
  assert (0 ≤ Z.lxor x (Z.shiftr x s)) by (apply Z.lxor_nonneg; lia). split; [done|].
  destruct (Z.eq_dec (Z.lxor x (Z.shiftr x s)) 0) as [->|Hne]; [done|].
  change u64_modulus with (2 ^ 64) in *. apply Z.log2_lt_pow2; [lia|].
  assert (∀ z, 0 ≤ z < 2 ^ 64 → Z.log2 z < 64) as Hlog.
  { intros z Hz. destruct (Z.eq_dec z 0) as [->|]; [done|]. apply Z.log2_lt_pow2; lia. }
  pose proof (Z.log2_lxor x (Z.shiftr x s) ltac:(lia) ltac:(lia)).
  pose proof (Hlog x Hx). pose proof (Hlog (Z.shiftr x s) ltac:(lia)). lia.
Qed.

Lemma wrapping_range (f : Z) : 0 ≤ f mod u64_modulus < u64_modulus.
Proof. by apply Z.mod_pos_bound. Qed.

Lemma splitmix64_inj x y :
  0 ≤ x < u64_modulus → 0 ≤ y < u64_modulus → splitmix64 x = splitmix64 y → x = y.
Proof.
  intros Hx Hy. unfold splitmix64.
  assert (∀ a b, 0 ≤ wrapping_add a b < u64_modulus) as Ha by (intros; apply wrapping_range).
  assert (∀ a b, 0 ≤ wrapping_mul a b < u64_modulus) as Hm by (intros; apply wrapping_range).
  intros He. apply xorshift_inj in He; [|done|apply Hm|apply Hm].
  apply (wrapping_mul_inj _ 3573116690164977347) in He;
    [|vm_compute; reflexivity|apply xorshift_range; done|apply xorshift_range; done].
  apply xorshift_inj in He; [|done|apply Hm|apply Hm].
  apply (wrapping_mul_inj _ 10871156337175269513) in He;
    [|vm_compute; reflexivity|apply xorshift_range; done|apply xorshift_range; done].
  apply xorshift_inj in He; [|done|apply Ha|apply Ha].
  by apply wrapping_add_inj in He.
Qed.

Lemma to_le_bytes_inj n x y :
  0 ≤ x < 256 ^ Z.of_nat n → 0 ≤ y < 256 ^ Z.of_nat n → to_le_bytes n x = to_le_bytes n y → x = y.
Proof.
  revert x y. induction n as [|n IH]; intros x y.
  - change (256 ^ Z.of_nat 0) with 1. lia.
  - rewrite Nat2Z.inj_succ, Z.pow_succ_r by lia. intros Hx Hy [= Hb Hr].
    apply IH in Hr; [|split; [apply Z.div_pos; lia|apply Z.div_lt_upper_bound; lia]..].
    rewrite (Z.div_mod x 256), (Z.div_mod y 256) by lia. congruence.
Qed.

(** Distinct 64-bit values seed distinct runs. *)
Lemma Seed_from_u64_inj x y :
  0 ≤ x < u64_modulus → 0 ≤ y < u64_modulus → Seed_from_u64 x = Seed_from_u64 y → x = y.
Proof.
  intros Hx Hy He. unfold Seed_from_u64 in He. apply app_inj_1 in He as [He _]; [|done].
  apply splitmix64_inj; [done|done|].
  assert (∀ z, 0 ≤ splitmix64 z < 256 ^ Z.of_nat 8) as H.
  { intros z. change (256 ^ Z.of_nat 8) with u64_modulus. unfold splitmix64.
    apply xorshift_range; [done|]. apply wrapping_range. }
  by apply (to_le_bytes_inj 8).
Qed.

(** * Clocks *)

(** Instants and durations in nanoseconds; [Duration::MAX] is [u64::MAX] seconds and
    999 999 999 nanoseconds. *)
Definition DURATION_MAX : Z := u64_max * 1000000000 + 999999999.

(** strom-common/src/monotonic_clock.rs:10-12, [MonotonicInstant]. *)
Definition MonotonicInstant : Type := Z.
(** strom-common/src/monotonic_clock.rs:21-24, [MonotonicInstant::saturating_add]. *)
Definition saturating_add (instant : MonotonicInstant) (duration : Z) : MonotonicInstant :=
  Z.min DURATION_MAX (instant + duration).

(** ** The clock of the process *)

(** The runtime's instants: the time since another, the instant after a duration where it
    can be represented, and their order. *)
Class InstantOps : Type := {
  Instant : Type;
  instant_elapsed : Instant → Instant → Z;
  instant_checked_add : Instant → Z → option Instant;
  instant_leb : Instant → Instant → bool
}.
Class InstantLaws `{InstantOps} : Prop :=
  instant_add_elapsed : ∀ origin duration at_ now,
    0 ≤ duration → instant_leb origin now = true → instant_checked_add origin duration = Some at_ →
    instant_leb at_ now = true ↔ duration ≤ instant_elapsed origin now.

Section os_clock.
  Context {IO : InstantOps}.

(** strom-common/src/monotonic_clock.rs:45-56, [OsMonotonicClock]. *)
Record OsMonotonicClock : Type := mk_os_clock { origin : Instant }.

(** strom-common/src/monotonic_clock.rs:59-61, [OsMonotonicClock::now]. *)
Definition os_now (clock : OsMonotonicClock) (now : Instant) : MonotonicInstant :=
  instant_elapsed (origin clock) now.

(** Whether the sleep is over at [now]: a deadline that no instant represents never comes.
    strom-common/src/monotonic_clock.rs:63-80, [OsMonotonicClock::sleep_until]. *)
Definition os_sleep_until (clock : OsMonotonicClock) (deadline : MonotonicInstant) (now : Instant) : bool :=
  match instant_checked_add (origin clock) deadline with
  | Some deadline => instant_leb deadline now
  | None => false
  end.

(** A sleep is over only at or after its deadline by the same clock, and no later where the
    deadline can be represented. *)
Lemma os_sleep_until_now {IL : InstantLaws} clock deadline now :
  0 ≤ deadline → instant_leb (origin clock) now = true →
  (os_sleep_until clock deadline now = true → deadline ≤ os_now clock now) ∧
  (is_Some (instant_checked_add (origin clock) deadline) → deadline ≤ os_now clock now →
   os_sleep_until clock deadline now = true).
Proof.
  intros Hd Ho. unfold os_sleep_until, os_now.
  destruct (instant_checked_add _ _) as [at_|] eqn:E; [|by split; [|intros []]].
  pose proof (instant_add_elapsed _ _ _ now Hd Ho E). tauto.
Qed.

End os_clock.

(** ** The clock of the tests *)

(** strom-common/src/monotonic_clock.rs:106-111, [Sleeper]. *)
Record Sleeper : Type := mk_sleeper {
  sleeper_id : Z;
  sleeper_deadline : MonotonicInstant;
  sleeper_waker : option nat
}.

(** strom-common/src/monotonic_clock.rs:96-101, [ManualState]. *)
Record ManualState : Type := mk_clock {
  clock_now : MonotonicInstant;
  sleeper_id_next : Z;
  sleepers : list Sleeper
}.

(** strom-common/src/monotonic_clock.rs:208-212, [ManualSleep]. *)
Record ManualSleep : Type := mk_sleep { sleep_id : Z; sleep_deadline : MonotonicInstant }.

(** strom-common/src/monotonic_clock.rs:114-123, [ManualMonotonicClock::new]. *)
Definition clock_new (start : MonotonicInstant) : ManualState := mk_clock start 0 [].

(** strom-common/src/monotonic_clock.rs:125-154, [ManualMonotonicClock::advance]. *)
Definition advance (state : ManualState) (duration : Z) : ManualState * list nat :=
  let now := saturating_add (clock_now state) duration in
  let due := filter (λ s, sleeper_deadline s ≤ now) (sleepers state) in
  let rest := filter (λ s, ¬ sleeper_deadline s ≤ now) (sleepers state) in
  (mk_clock now (sleeper_id_next state) rest, omap sleeper_waker due).

(** strom-common/src/monotonic_clock.rs:156-168, [ManualMonotonicClock::sleeper_count]. *)
Definition sleeper_count (state : ManualState) : nat := length (sleepers state).

(** strom-common/src/monotonic_clock.rs:179-205, [ManualMonotonicClock::sleep_until]. *)
Definition sleep_until (state : ManualState) (deadline : MonotonicInstant) :
    Exec (ManualState * ManualSleep) :=
  let sleeper_id := sleeper_id_next state in
  let! next := expect (u64_checked_add sleeper_id 1) in
  Ret (mk_clock (clock_now state) next
         (sleepers state ++ [mk_sleeper sleeper_id deadline None]),
       mk_sleep sleeper_id deadline).

Definition retain_other (id : Z) (state : ManualState) : ManualState :=
  mk_clock (clock_now state) (sleeper_id_next state)
    (filter (λ s, sleeper_id s ≠ id) (sleepers state)).

(** [iter_mut().find(..)] and the assignment of the waker; [None] when absent. *)
Fixpoint set_waker (id : Z) (waker : nat) (l : list Sleeper) : option (list Sleeper) :=
  match l with
  | [] => None
  | s :: l =>
      if sleeper_id s =? id
      then Some (mk_sleeper (sleeper_id s) (sleeper_deadline s) (Some waker) :: l)
      else l ← set_waker id waker l; Some (s :: l)
  end.

(** strom-common/src/monotonic_clock.rs:217-239, [ManualSleep::poll]. *)
Definition poll (sleep : ManualSleep) (state : ManualState) (waker : nat) :
    Exec (ManualState * bool) :=
  if sleep_deadline sleep <=? clock_now state then Ret (retain_other (sleep_id sleep) state, true)
  else
    let! l := expect (set_waker (sleep_id sleep) waker (sleepers state)) in
    Ret (mk_clock (clock_now state) (sleeper_id_next state) l, false).

(** strom-common/src/monotonic_clock.rs:242-250, [ManualSleep::drop]. *)
Definition drop_sleep (sleep : ManualSleep) (state : ManualState) : ManualState :=
  retain_other (sleep_id sleep) state.

(** The clock with the sleeps its users hold, and one operation on it.  The last
    component is what the operation woke. *)
Record ClockSystem : Type := mk_clock_system {
  clock : ManualState;
  sleeps : list ManualSleep
}.

Inductive ClockStep : Type :=
| Advance (duration : Z)
| SleepUntil (deadline : MonotonicInstant)
| PollSleep (sleep : ManualSleep) (waker : nat)
| DropSleep (sleep : ManualSleep).

Inductive clock_step (s : ClockSystem) : ClockStep → ClockSystem → list nat → Prop :=
| step_advance duration :
    0 ≤ duration →
    clock_step s (Advance duration)
      (mk_clock_system (advance (clock s) duration).1 (sleeps s)) (advance (clock s) duration).2
| step_sleep deadline state sleep :
    sleep_until (clock s) deadline = Ret (state, sleep) →
    clock_step s (SleepUntil deadline) (mk_clock_system state (sleeps s ++ [sleep])) []
| step_poll sleep waker state ready :
    sleep ∈ sleeps s → poll sleep (clock s) waker = Ret (state, ready) →
    clock_step s (PollSleep sleep waker) (mk_clock_system state (sleeps s)) []
| step_drop sleep :
    sleep ∈ sleeps s →
    clock_step s (DropSleep sleep)
      (mk_clock_system (drop_sleep sleep (clock s))
         (filter (λ h, sleep_id h ≠ sleep_id sleep) (sleeps s))) [].

Inductive clock_reach (start : MonotonicInstant) : ClockSystem → Prop :=
| clock_reach_new : 0 ≤ start ≤ DURATION_MAX → clock_reach start (mk_clock_system (clock_new start) [])
| clock_reach_step s op s' woken :
    clock_reach start s → clock_step s op s' woken → clock_reach start s'.

(** Every held sleep whose deadline is ahead is registered, once, with that deadline. *)
Record clock_ok (s : ClockSystem) : Prop := {
  clock_range : clock_now (clock s) ≤ DURATION_MAX;
  clock_ids : Forall (λ x, sleeper_id x < sleeper_id_next (clock s)) (sleepers (clock s));
  clock_nodup : NoDup (sleeper_id <$> sleepers (clock s));
  clock_held_ids : Forall (λ h, sleep_id h < sleeper_id_next (clock s)) (sleeps s);
  clock_held_inj : ∀ h h', h ∈ sleeps s → h' ∈ sleeps s → sleep_id h = sleep_id h' → h = h';
  clock_registered : ∀ h, h ∈ sleeps s → clock_now (clock s) < sleep_deadline h →
    ∃ w, mk_sleeper (sleep_id h) (sleep_deadline h) w ∈ sleepers (clock s);
  clock_deadlines : ∀ h x, h ∈ sleeps s → x ∈ sleepers (clock s) → sleeper_id x = sleep_id h →
    sleeper_deadline x = sleep_deadline h
}.

Lemma set_waker_Some id waker l :
  id ∈ (sleeper_id <$> l) →
  ∃ a x b, l = a ++ x :: b ∧ sleeper_id x = id ∧
    set_waker id waker l = Some (a ++ mk_sleeper id (sleeper_deadline x) (Some waker) :: b).
Proof.
  induction l as [|y l IH]; csimpl; [by intros ?%elem_of_nil|].
  destruct (Z.eqb_spec (sleeper_id y) id) as [<-|Hne].
  - intros _. by exists [], y, l.
  - rewrite elem_of_cons. intros [->|Hin]; [done|].
    destruct (IH Hin) as (a & x & b & -> & Hx & ->). by exists (y :: a), x, b.
Qed.

(** Setting a waker changes no identity and no deadline. *)
Lemma set_waker_keeps a x b id waker y :
  y ∈ a ++ mk_sleeper id (sleeper_deadline x) (Some waker) :: b → sleeper_id x = id →
  ∃ y', y' ∈ a ++ x :: b ∧ sleeper_id y' = sleeper_id y ∧ sleeper_deadline y' = sleeper_deadline y.
Proof.
  rewrite elem_of_app, elem_of_cons. intros [Hin|[->|Hin]] Hx.
  - exists y. rewrite elem_of_app. auto.
  - exists x. rewrite elem_of_app, elem_of_cons. auto.
  - exists y. rewrite elem_of_app, elem_of_cons. auto.
Qed.

Lemma poll_Ret s h waker :
  clock_ok s → h ∈ sleeps s →
  ∃ state ready, poll h (clock s) waker = Ret (state, ready) ∧
    (ready = true ↔ sleep_deadline h ≤ clock_now (clock s)) ∧
    clock_now state = clock_now (clock s) ∧ sleeper_id_next state = sleeper_id_next (clock s) ∧
    (if ready then sleepers state = filter (λ x, sleeper_id x ≠ sleep_id h) (sleepers (clock s))
     else ∃ a w b, sleepers (clock s) = a ++ mk_sleeper (sleep_id h) (sleep_deadline h) w :: b ∧
       sleepers state = a ++ mk_sleeper (sleep_id h) (sleep_deadline h) (Some waker) :: b).
Proof.
  intros C Hh. unfold poll. destruct (Z.leb_spec (sleep_deadline h) (clock_now (clock s))) as [Hle|Hlt].
  { eexists _, true. split; [reflexivity|]. by split_and!. }
  destruct (clock_registered s C h Hh Hlt) as [w Hw].
  assert (sleep_id h ∈ (sleeper_id <$> sleepers (clock s))) as Hid
    by (apply list_elem_of_fmap; by exists (mk_sleeper (sleep_id h) (sleep_deadline h) w)).
  destruct (set_waker_Some _ waker _ Hid) as (a & x & b & Hl & Hx & ->). cbn [expect exec_bind].
  assert (x = mk_sleeper (sleep_id h) (sleep_deadline h) (sleeper_waker x)) as Hxe.
  { rewrite <- (clock_deadlines s C h x Hh); [destruct x; simpl in *; congruence| |done].
    rewrite Hl, elem_of_app, elem_of_cons. auto. }
  eexists _, false. split; [reflexivity|]. split_and!; [split; [done|lia]|done|done|].
  exists a, (sleeper_waker x), b. rewrite <- Hxe. split; [done|]. cbn [sleepers]. by rewrite Hxe.
Qed.

Lemma Forall_filter_2 {A} (P Q : A → Prop) `{∀ x, Decision (P x)} l :
  Forall Q l → Forall Q (filter P l).
Proof. rewrite !Forall_forall. intros Hl x [_ Hx]%list_elem_of_filter. auto. Qed.

Lemma filter_ok s (P : Sleeper → Prop) `{∀ x, Decision (P x)} :
  Forall (λ x, sleeper_id x < sleeper_id_next (clock s)) (sleepers (clock s)) →
  NoDup (sleeper_id <$> sleepers (clock s)) →
  Forall (λ x, sleeper_id x < sleeper_id_next (clock s)) (filter P (sleepers (clock s))) ∧
  NoDup (sleeper_id <$> filter P (sleepers (clock s))).
Proof.
  intros Hf Hn. split; [by apply Forall_filter_2|].
  revert Hn. clear Hf.
  induction (sleepers (clock s)) as [|x l IH]; csimpl; [done|].
  rewrite NoDup_cons, filter_cons. intros [Hx Hn]. case_decide; [|auto]. csimpl.
  apply NoDup_cons. split; [|auto]. intros (y & Hy & [_ Hin]%list_elem_of_filter)%list_elem_of_fmap.
  apply Hx, list_elem_of_fmap. eauto.
Qed.

Lemma advance_ok s d :
  clock_ok s → 0 ≤ d → clock_ok (mk_clock_system (advance (clock s) d).1 (sleeps s)).
Proof.
  intros C Hd.
  destruct (filter_ok s (λ x, ¬ sleeper_deadline x ≤ saturating_add (clock_now (clock s)) d)
    (clock_ids s C) (clock_nodup s C)) as [Hi Hn].
  split; simpl; try apply C; [unfold saturating_add; lia|done|done| |].
  - intros h Hh Hlt. pose proof (clock_range s C). unfold saturating_add in *.
    destruct (decide (clock_now (clock s) < sleep_deadline h)) as [Hnow|Hnow].
    + destruct (clock_registered s C h Hh Hnow) as [w Hw]. exists w.
      apply list_elem_of_filter. split; [simpl; lia|done].
    + exfalso. lia.
  - intros h x Hh [_ Hx]%list_elem_of_filter. by apply C.
Qed.

Lemma sleep_until_ok s deadline state sleep :
  clock_ok s → sleep_until (clock s) deadline = Ret (state, sleep) →
  clock_ok (mk_clock_system state (sleeps s ++ [sleep])).
Proof.
  intros C Hsl.
  unfold sleep_until, u64_checked_add in Hsl. case_decide; [|done]. cbn [expect exec_bind] in Hsl.
  injection Hsl as <- <-.
  assert (∀ x, x ∈ sleepers (clock s) → sleeper_id x ≠ sleeper_id_next (clock s)) as Hx.
  { intros x Hin. pose proof (clock_ids s C) as Hi. rewrite Forall_forall in Hi.
    specialize (Hi x Hin). simpl in Hi. lia. }
  assert (∀ h, h ∈ sleeps s → sleep_id h ≠ sleeper_id_next (clock s)) as Hhid.
  { intros h Hin. pose proof (clock_held_ids s C) as Hi. rewrite Forall_forall in Hi.
    specialize (Hi h Hin). simpl in Hi. lia. }
  split; simpl; [apply C|..].
  - apply Forall_app. split; [|apply Forall_singleton; simpl; lia].
    eapply Forall_impl; [apply C|]. simpl. lia.
  - rewrite fmap_app. apply NoDup_app. split_and!; [apply C| |apply NoDup_singleton].
    intros i (x & -> & Hin)%list_elem_of_fmap. csimpl. rewrite list_elem_of_singleton. by apply Hx.
  - apply Forall_app. split; [|apply Forall_singleton; simpl; lia].
    eapply Forall_impl; [apply C|]. simpl. lia.
  - intros h h'. rewrite !elem_of_app, !list_elem_of_singleton.
    intros [Hh| ->] [Hh'| ->] He; simpl in *; [by apply C|by apply Hhid in He| |done].
    symmetry in He. by apply Hhid in He.
  - intros h. rewrite elem_of_app, list_elem_of_singleton. intros [Hh| ->] Hlt.
    + destruct (clock_registered s C h Hh Hlt) as [w Hw]. exists w. apply elem_of_app. auto.
    + exists None. apply elem_of_app. right. by apply list_elem_of_singleton.
  - intros h x. rewrite !elem_of_app, !list_elem_of_singleton.
    intros [Hh| ->] [Hin| ->] He; simpl in *; [by apply C| | |done].
    + symmetry in He. by apply Hhid in He.
    + by apply Hx in He.
Qed.

Lemma poll_ok s h waker state ready :
  clock_ok s → h ∈ sleeps s → poll h (clock s) waker = Ret (state, ready) →
  clock_ok (mk_clock_system state (sleeps s)).
Proof.
  intros C Hh Hp.
  destruct (poll_Ret s h waker C Hh) as (st & rd & Hp' & Hrd & Hnow & Hnext & Hs).
  rewrite Hp in Hp'. injection Hp' as <- <-. destruct ready.
  - destruct (filter_ok s (λ x, sleeper_id x ≠ sleep_id h) (clock_ids s C) (clock_nodup s C))
      as [Hi Hn].
    split; simpl; rewrite ?Hnow, ?Hnext, ?Hs; try apply C; [done|done| |].
    + intros h' Hh' Hlt. destruct (clock_registered s C h' Hh' Hlt) as [w Hw]. exists w.
      apply list_elem_of_filter. split; [|done]. simpl. intros He.
      rewrite (clock_held_inj s C h' h Hh' Hh He) in Hlt. apply proj1 in Hrd. specialize (Hrd eq_refl). lia.
    + intros h' x Hh' [_ Hx]%list_elem_of_filter. by apply C.
  - destruct Hs as (a & w & b & Hl & Hs).
    assert (∀ y, y ∈ sleepers state → ∃ y', y' ∈ sleepers (clock s) ∧
      sleeper_id y' = sleeper_id y ∧ sleeper_deadline y' = sleeper_deadline y) as Hy.
    { intros y Hin. rewrite Hs in Hin. rewrite Hl.
        by apply (set_waker_keeps a (mk_sleeper (sleep_id h) (sleep_deadline h) w) b
          (sleep_id h) waker). }
    split; simpl; rewrite ?Hnow, ?Hnext; try apply C.
    + apply Forall_forall. intros y (y' & Hin & <- & _)%Hy. pose proof (clock_ids s C) as Hi.
      rewrite Forall_forall in Hi. by apply Hi.
    + pose proof (clock_nodup s C) as Hn. rewrite Hl in Hn. rewrite Hs.
      by rewrite !fmap_app, !fmap_cons in *.
    + intros h' Hh' Hlt. destruct (clock_registered s C h' Hh' Hlt) as [w' Hw']. rewrite Hl in Hw'.
      rewrite Hs. apply elem_of_app in Hw' as [Hw'|[[= Hi Hd ->]|Hw']%elem_of_cons].
      * exists w'. apply elem_of_app. auto.
      * exists (Some waker). rewrite Hi, Hd. apply elem_of_app. right. apply elem_of_cons. auto.
      * exists w'. apply elem_of_app. right. apply elem_of_cons. auto.
    + intros h' y Hh' (y' & Hin & Hi & <-)%Hy He. apply C; [done|done|congruence].
Qed.

Lemma drop_sleep_ok s h :
  clock_ok s → h ∈ sleeps s →
  clock_ok (mk_clock_system (drop_sleep h (clock s))
    (filter (λ h', sleep_id h' ≠ sleep_id h) (sleeps s))).
Proof.
  intros C Hh.
  destruct (filter_ok s (λ x, sleeper_id x ≠ sleep_id h) (clock_ids s C) (clock_nodup s C))
    as [Hi Hn].
  split; simpl; [apply C|done|done| | | |].
  - by apply Forall_filter_2, C.
  - intros h1 h2 [_ H1]%list_elem_of_filter [_ H2]%list_elem_of_filter. by apply C.
  - intros h' [Hne Hh']%list_elem_of_filter Hlt.
    destruct (clock_registered s C h' Hh' Hlt) as [w Hw]. exists w.
    by apply list_elem_of_filter.
  - intros h' x [_ Hh']%list_elem_of_filter [_ Hx]%list_elem_of_filter. by apply C.
Qed.

Lemma clock_step_ok s op s' woken : clock_ok s → clock_step s op s' woken → clock_ok s'.
Proof.
  destruct 2; eauto using advance_ok, sleep_until_ok, poll_ok, drop_sleep_ok.
Qed.

Lemma clock_reach_ok start s : clock_reach start s → clock_ok s.
Proof.
  induction 1; [|by eapply clock_step_ok].
  split; simpl; [lia|constructor|constructor|constructor|..]; by intros ? ?%elem_of_nil || set_solver.
Qed.

(** The sleep is pending with this waker registered. *)
Definition armed (s : ClockSystem) (h : ManualSleep) (waker : nat) : Prop :=
  h ∈ sleeps s ∧ mk_sleeper (sleep_id h) (sleep_deadline h) (Some waker) ∈ sleepers (clock s) ∧
  clock_now (clock s) < sleep_deadline h.

(** The operation is a poll or a drop of this sleep itself. *)
Definition touches (op : ClockStep) (h : ManualSleep) : Prop :=
  match op with
  | PollSleep h' _ | DropSleep h' => sleep_id h' = sleep_id h
  | _ => False
  end.

Lemma armed_step s op s' woken h waker :
  clock_ok s → armed s h waker → clock_step s op s' woken → ¬ touches op h →
  armed s' h waker ∨ waker ∈ woken ∧ sleep_deadline h ≤ clock_now (clock s').
Proof.
  intros C (Hh & Hin & Hlt) Hstep Ht.
  destruct Hstep as [d Hd|deadline state sleep Hsl|h' w state ready Hh' Hp|h' Hh']; simpl in Ht.
  - destruct (decide (sleep_deadline h ≤ saturating_add (clock_now (clock s)) d)) as [Hle|Hgt].
    + right. split; [|done]. simpl. apply list_elem_of_omap.
      exists (mk_sleeper (sleep_id h) (sleep_deadline h) (Some waker)). split; [|done].
      by apply list_elem_of_filter.
    + left. split_and!; [done| |simpl; lia]. simpl. by apply list_elem_of_filter.
  - left. unfold sleep_until in Hsl. destruct (u64_checked_add _ _); cbn [expect exec_bind] in Hsl;
      [|done]. injection Hsl as <- <-. split_and!; simpl; [|apply elem_of_app; by left|done].
    apply elem_of_app. by left.
  - left. destruct (poll_Ret s h' w C Hh') as (st & rd & Hp' & _ & Hnow & _ & Hs).
    rewrite Hp in Hp'. injection Hp' as <- <-. split_and!; simpl; [done| |by rewrite Hnow].
    destruct ready; [rewrite Hs; apply list_elem_of_filter; simpl; auto|].
    destruct Hs as (a & w' & b & Hl & ->). rewrite Hl, elem_of_app, elem_of_cons in Hin.
    rewrite elem_of_app, elem_of_cons. naive_solver.
  - left. split_and!; simpl; [| |done]; apply list_elem_of_filter; simpl; auto.
Qed.

(** * Properties *)

(** The manual clock loses no wake-up.  A sleep a user still holds can always be
    polled; the poll is ready exactly when the deadline is reached, and otherwise leaves
    its waker registered.  From then on every operation that does not touch the sleep
    keeps the waker registered until the advance that reaches the deadline, which wakes
    it. *)
Theorem no_lost_wakeup (start : MonotonicInstant) (s : ClockSystem) (h : ManualSleep) :
  clock_reach start s → h ∈ sleeps s →
  (∀ waker, ∃ state ready, poll h (clock s) waker = Ret (state, ready) ∧
     (ready = true ↔ sleep_deadline h ≤ clock_now (clock s)) ∧
     (ready = false → armed (mk_clock_system state (sleeps s)) h waker)) ∧
  (∀ waker op s' woken, armed s h waker → clock_step s op s' woken → ¬ touches op h →
     armed s' h waker ∨ waker ∈ woken ∧ sleep_deadline h ≤ clock_now (clock s')).
Proof.
  intros Hr Hh. apply clock_reach_ok in Hr as C. split; [|intros; by eapply armed_step].
  intros waker. destruct (poll_Ret s h waker C Hh) as (state & ready & Hp & Hrd & Hnow & _ & Hs).
  exists state, ready. split; [done|]. split; [done|]. intros ->. destruct Hs as (a & w & b & _ & Hs).
  split_and!; simpl; [done| |].
  - rewrite Hs. apply elem_of_app. right. apply elem_of_cons. by left.
  - rewrite Hnow. destruct (decide (sleep_deadline h ≤ clock_now (clock s))) as [Hle|]; [|lia].
    by apply Hrd in Hle.
Qed.

Definition sample_sleep : ManualSleep := mk_sleep 0 10.
Definition sample_clock : ClockSystem :=
  mk_clock_system (mk_clock 0 1 [mk_sleeper 0 10 None]) [sample_sleep].

Lemma no_lost_wakeup_witness :
  ∃ state, poll sample_sleep (clock sample_clock) 7 = Ret (state, false) ∧
    armed (mk_clock_system state [sample_sleep]) sample_sleep 7.
Proof.
  destruct (no_lost_wakeup 0 sample_clock sample_sleep) as [Hp _].
  - eapply clock_reach_step; [apply clock_reach_new; vm_compute; split; congruence|].
    apply (step_sleep (mk_clock_system (clock_new 0) []) 10 _ sample_sleep). reflexivity.
  - by left.
  - destruct (Hp 7%nat) as (state & ready & Hpoll & Hready & Harmed). exists state.
    destruct ready; [|auto]. exfalso. destruct Hready as [Hle _]. specialize (Hle eq_refl).
    by vm_compute in Hle.
Defined.

(** A fork is a function of the parent's seed and the label.  Whatever was drawn
    from two copies of a source and whatever other children were forked, the same label
    yields the same child; a label forks at most once from one source, and reuse panics;
    and distinct 64-bit values make distinct seeds. *)
Theorem fork_isolated `{GeneratorOps} (e e1 e2 : Entropy) (label : str) (e1' c1 : Entropy) :
  used e e1 → used e e2 → fork e1 label = Ret (e1', c1) →
  (∀ e2' c2, fork e2 label = Ret (e2', c2) → c2 = c1) ∧
  (∀ e3, used e1' e3 → fork e3 label = Panic) ∧
  (∀ x y, 0 ≤ x < u64_modulus → 0 ≤ y < u64_modulus → Seed_from_u64 x = Seed_from_u64 y → x = y).
Proof.
  intros H1 H2 Hf. split_and!; eauto using fork_once, Seed_from_u64_inj.
  intros e2' c2 Hf'. symmetry. by eapply (fork_independent e e1 e2).
Qed.

(** A generator that repeats its seed. *)
Definition reference_generator : GeneratorOps := {|
  Generator := list Z * Z;
  generator_from_seed seed := (seed, 0);
  set_stream g stream := (g.1, stream);
  fill_bytes g n := (g, replicate n (g.2 mod 256))
|}.

Lemma fork_isolated_witness :
  ∀ e2' c2,
    @fork reference_generator
      (@draw reference_generator (@Entropy_from_seed reference_generator []) 3).1 (lit "wal")
      = Ret (e2', c2) →
    c2 = @Entropy_from_seed reference_generator
           (replicate 32 (fnv1a_64 (str_bytes (lit "wal")) mod 256)).
Proof.
  destruct (@fork_isolated reference_generator (@Entropy_from_seed reference_generator [])
    (@Entropy_from_seed reference_generator [])
    (@draw reference_generator (@Entropy_from_seed reference_generator []) 3).1 (lit "wal")
    (@mk_entropy reference_generator [] ([], 0) ({[fnv1a_64 (str_bytes (lit "wal"))]} ∪ ∅))
    (@Entropy_from_seed reference_generator
       (replicate 32 (fnv1a_64 (str_bytes (lit "wal")) mod 256)))) as [Hc _].
  - apply used_refl.
  - apply used_draw, used_refl.
  - reflexivity.
  - exact Hc.
Defined.
