(* ===== verification/BootstrapRun.v ===== *)
(** Bootstrap executed on the stores (crate [strom-storage-engine], file
    [bootstrap.rs]).

    The interpreter runs the machine of [Bootstrap.v] with the operations of
    [Stores.v].  The file shows that it returns on every store that keeps Seals and
    FENCEs, without panicking; and that what it returns was recovered from objects the
    store held.  The loop has no bound in the source: the number of iterations is fuel,
    and a sufficient amount always exists. *)

From S2P Require Import Prelude OrdMap Text Domain Coordinates Partition Seal Wal Forest.
From S2P Require Import ForestTheory Archive Spelling Sst Writer WriterSafety WriterSystem.
From S2P Require Import Bootstrap BootstrapSafety ObjectStore Stores StoreTheory Common.

Section interpreter.
  Context {DF : DebugFormat} {B : Backend} {J : Jiff} {RL : RowLayout} {HP : Heap}.
  Context {RW : Rkyv ArchivedWalObject} {RS : Rkyv ArchivedSeal}.
  Context {RD : Rkyv (SstArchive ArchivedDirectoryRow)} {RG : Rkyv (SstArchive ArchivedLedgerRow)}.
  Context {GO : GeneratorOps}.

(** strom-storage-engine/src/bootstrap.rs:85-93, [complete]. *)
Definition complete {T} (succeeded : T → BootstrapEvent) (x : Exec (World * Result TypedStoreError T)) :
    Exec (World * BootstrapEvent) :=
  let! (w, result) := x in
  Ret (w, match result with Ok value => succeeded value | Err error => StoreFailed error end).

(** strom-storage-engine/src/bootstrap.rs:39-83, [execute_effect]. *)
Definition execute_effect (w : World) (effect : BootstrapEffect) : Exec (World * BootstrapEvent) :=
  match effect with
  | ObserveHead => complete HeadObserved (newest_generation w)
  | EstablishGenesis candidate =>
      complete GenesisEstablishedEvent (store_establish_genesis w candidate)
  | ReadSeal generation => complete SealRead (read_seal w generation)
  | PublishClaim candidate => complete ClaimPublished (publish_authority w candidate)
  | ReadTable partition table => complete (TableRead table) (read_table w partition table)
  | ObserveWalTail => complete WalTailObserved (newest_surviving_batch w)
  | ReadWal partition batch =>
      complete (λ observed, WalRead (observed_object <$> observed)) (read_wal w partition batch)
  | EstablishFence candidate => complete FenceEstablished (establish_wal w candidate)
  end.

(** strom-storage-engine/src/bootstrap.rs:95-102, [mint_partition_id]. *)
Definition mint_partition_id (entropy : Entropy) : Exec PartitionId :=
  let bytes := (draw entropy 16).2 in
  let bytes := if bool_decide (bytes = replicate 16 0) then replicate 15 0 ++ [1] else bytes in
  let! octets := expect (refined is_octets bytes) in
  expect_ok (PartitionId_try_from octets).

(** The event loop; [None] when the fuel is spent.
    strom-storage-engine/src/bootstrap.rs:26-36, [bootstrap (loop)]. *)
Fixpoint bootstrap_loop (fuel : nat) (w : World) (machine : BootstrapMachine) (step : BootstrapStep) :
    Exec (option (World * Result BootstrapExit WriterRecovery)) :=
  match step with
  | StepComplete recovery => Ret (Some (w, Ok recovery))
  | StepExit exit => Ret (Some (w, Err exit))
  | StepEffect effect =>
      match fuel with
      | O => Ret None
      | S fuel =>
          let! (w, event) := execute_effect w effect in
          let! (machine, step) := bootstrap_handle machine event in
          bootstrap_loop fuel w machine step
      end
  end.

(** strom-storage-engine/src/bootstrap.rs:14-37, [bootstrap]. *)
Definition bootstrap (fuel : nat) (w : World) (entropy : Entropy) :
    Exec (option (World * Result BootstrapExit WriterRecovery)) :=
  let! (entropy, genesis_entropy) := fork entropy (lit "partition-id") in
  let! genesis_partition := mint_partition_id genesis_entropy in
  let! (machine, step) := bootstrap_handle BootstrapMachine_new (BootstrapStarted genesis_partition) in
  bootstrap_loop fuel w machine step.

(** * What an effect asks of the stores *)

Definition requested (state : BootstrapState) (effect : BootstrapEffect) : Prop :=
  match state, effect with
  | EstablishingGenesis _, EstablishGenesis candidate =>
      seal_generation (genesis_seal candidate) = genesis_generation ∧
      candidate_bytes_ok (genesis_bytes candidate) SEAL_ENCODED_BYTES_MAX = true
  | PublishingClaim _ _, PublishClaim candidate =>
      candidate_bytes_ok (authority_bytes candidate) SEAL_ENCODED_BYTES_MAX = true
  | EstablishingFence loaded fence, EstablishFence candidate =>
      EncodedWal_new (own_fence loaded fence) = Ret (Ok candidate)
  | _, _ => True
  end.

(** A transition that asks what its state stands for and does not enter replay. *)
Definition asks (x : Transition) : Prop :=
  match x.1, x.2 with
  | Replaying _, _ => False
  | state, StepEffect effect => requested state effect
  | _, _ => True
  end.

(** Replay is entered only over a durable FENCE, and keeps it. *)
Definition origin (state : BootstrapState) (event : BootstrapEvent) (x : Transition) : Prop :=
  match x.1 with
  | Replaying r' =>
      match state, event with
      | EstablishingFence loaded fence, FenceEstablished WalDurable =>
          replay_loaded r' = loaded ∧ replay_fence r' = fence
      | Replaying r, _ =>
          replay_fence r' = replay_fence r ∧
          loaded_claimed (replay_loaded r') = loaded_claimed (replay_loaded r)
      | _, _ => False
      end
  | _ => asks x
  end.

Lemma asks_origin state event x : asks x → origin state event x.
Proof. unfold asks, origin. by destruct x as [[] ?]. Qed.

Lemma establish_genesis_asks partition x : establish_genesis partition = Ret x → asks x.
Proof.
  unfold establish_genesis. destruct (Seal_new _ _ _ _ _) as [seal|]; cbn [expect_ok exec_bind];
    [|done].
  unfold EncodedGenesisSeal_try_from. case_bool_decide as Hg; cbn [negb exec_bind];
    [|by intros [= <-]].
  destruct (EncodedSeal_new seal) as [[[s b]|]|] eqn:Hs;
    cbn [try_map_err map_err try_bind exec_bind]; [|by intros [= <-]|done].
  apply EncodedSeal_new_Ok in Hs as (-> & _ & Hb). intros [= <-]. by split.
Qed.

Lemma handle_seal_asks state observed x : handle_seal state observed = Ret x → asks x.
Proof.
  unfold handle_seal. destruct state; try done. destruct observed as [head|]; [|by intros [= <-]].
  case_bool_decide; [|done]. destruct (plan_bootstrap_sources head); [|by intros [= <-]].
  destruct (claim_successor head) as [candidate|]; [|by intros [= <-]].
  unfold EncodedAuthoritySeal_try_from. case_bool_decide; cbn [exec_bind]; [by intros [= <-]|].
  destruct (EncodedSeal_new candidate) as [[[s b]|]|] eqn:Hs;
    cbn [try_map_err map_err try_bind exec_bind]; [|by intros [= <-]|done].
  apply EncodedSeal_new_Ok in Hs as (-> & _ & Hb). by intros [= <-].
Qed.

Lemma establish_fence_asks loaded fence x : establish_fence loaded fence = Ret x → asks x.
Proof.
  unfold establish_fence. fold (own_fence loaded fence).
  destruct (EncodedWal_new (own_fence loaded fence)) as [[candidate|]|] eqn:Hn; cbn [exec_bind];
    [|by intros [= <-]|done]. by intros [= <-].
Qed.

Lemma read_next_table_asks load : asks (read_next_table load).
Proof. unfold read_next_table. destruct (load_remaining load); [by destruct (forest_try_from _ _)|done]. Qed.

Lemma fence_after_asks loaded cut listed candidate x :
  fence_after loaded cut listed candidate = Ret x → asks x.
Proof.
  unfold fence_after. destruct (bound_takeover_fence _ _) as [fence|]; [|by intros [= <-]].
  destruct listed as [tail|]; [|apply establish_fence_asks].
  destruct (match cut with None => _ | _ => _ end); [by intros [= <-]|apply establish_fence_asks].
Qed.

Lemma handle_wal_tail_asks state listed x : handle_wal_tail state listed = Ret x → asks x.
Proof.
  unfold handle_wal_tail. destruct state as [| | | | | |loaded occupied| | | | | |]; try done.
  destruct (plan_fence_candidate _ _) as [candidate|]; [|by intros [= <-]].
  destruct occupied as [o|]; [|apply fence_after_asks].
  destruct (coord_leb _ _); [by intros [= <-]|apply fence_after_asks].
Qed.

Lemma handle_wal_read_origin state observed x :
  handle_wal_read state observed = Ret x → origin state (WalRead observed) x.
Proof.
  unfold handle_wal_read. destruct state as [| | | | | | |loaded fence tail| |replay| | |]; try done.
  - unfold handle_tail_read. destruct observed as [o|]; [|by intros [= <-]].
    do 2 (case_bool_decide; [|done]). destruct (owner_leb _ _); [by intros [= <-]|].
    intros Hx. by eapply asks_origin, establish_fence_asks.
  - unfold handle_replay_read. destruct observed as [o|]; [|by intros [= <-]].
    do 2 (case_bool_decide; [|done]).
    match goal with |- context [if ?b then _ else Panic] => destruct b; [|done] end.
    destruct (replay_body replay o) as [[[owner durable] [detail|]]|]; cbn [exec_bind];
      [by intros [= <-]| |done].
    case_bool_decide; [case_bool_decide; [|done]; by intros [= <-]|].
    destruct (successor _); by intros [= <-].
Qed.

Lemma handle_table_asks state table decoded x : handle_table state table decoded = Ret x → asks x.
Proof.
  unfold handle_table. destruct state; try done. case_bool_decide; [|done].
  match goal with |- context [exec_bind ?m _] => destruct m as [[l|]|] end; cbn [exec_bind];
    [|by intros [= <-]|done].
  intros [= <-]. apply read_next_table_asks.
Qed.

Lemma handle_head_asks state observed x : handle_head state observed = Ret x → asks x.
Proof.
  destruct state; try done; cbn [handle_head].
  - destruct observed; [by intros [= <-]|]. apply establish_genesis_asks.
  - intros [= <-]. destruct observed; [|done]. destruct (coord_ltb _ _); [done|].
    by case_bool_decide.
  - intros [= <-]. destruct observed; [|done]. case_bool_decide; [done|].
    by destruct (coord_ltb _ _).
Qed.

Lemma handle_requested state event m' step :
  bootstrap_handle (mk_bootstrap (Some state)) event = Ret (m', step) →
  ∃ state', bootstrap_state m' = Some state' ∧ origin state event (state', step).
Proof.
  unfold bootstrap_handle. cbn [bootstrap_state expect exec_bind].
  match goal with |- context [exec_bind ?x _] => destruct x as [[state' step']|] eqn:Hx end;
    cbn [exec_bind]; [|done]. intros [= <- <-]. exists state'. split; [done|].
  destruct event as [partition|g|g|seal|p|table decoded|tail|w|e|error].
  - destruct state; try done. by injection Hx as <- <-.
  - by apply asks_origin, (handle_head_asks state g).
  - destruct state; try done. cbn [handle_genesis] in Hx. destruct g; by injection Hx as <- <-.
  - by apply asks_origin, (handle_seal_asks state seal).
  - destruct state; try done. cbn [handle_claim] in Hx. injection Hx as Hx.
    destruct p; [|by injection Hx as <- <-..]. rewrite <- Hx. apply asks_origin, read_next_table_asks.
  - by apply asks_origin, (handle_table_asks state table decoded).
  - by apply asks_origin, (handle_wal_tail_asks state tail).
  - by apply handle_wal_read_origin.
  - destruct state; try done. cbn [handle_fence] in Hx. injection Hx as Hx.
    destruct e; [|by injection Hx as <- <-..].
    destruct (replay_start _); by injection Hx as <- <-.
  - destruct state, error; try done; by injection Hx as <- <-.
Qed.

End interpreter.

(** * The loop terminates *)

(** Phases in descending order, and within a phase what is left of it: the tables to
    read, the coordinates a FENCE can still move to, the WAL objects to replay.  The
    flag says that the store holds a genesis Seal. *)
Definition rank (seeded : bool) (state : BootstrapState) : nat * nat :=
  match state with
  | Initial => (15%nat, O)
  | DiscoveringHead _ => (if seeded then 12%nat else 14%nat, O)
  | EstablishingGenesis _ => (13%nat, O)
  | ReadingSeal _ => (11%nat, O)
  | PublishingClaim _ _ => (10%nat, O)
  | ReadingTable load _ => (9%nat, length (load_remaining load))
  | ObservingWalTail _ occupied =>
      (8%nat, Z.to_nat (3 * (u64_max - from_option coord_get 0 occupied) + 5))
  | ReadingWalTail _ fence _ => (8%nat, Z.to_nat (3 * (u64_max - coord_get (fence_batch fence)) + 7))
  | EstablishingFence _ fence => (8%nat, Z.to_nat (3 * (u64_max - coord_get (fence_batch fence)) + 6))
  | Replaying replay =>
      (7%nat, Z.to_nat (coord_get (fence_batch (replay_fence replay)) - coord_get (replay_next replay)))
  | RefreshingAnomaly _ _ => (6%nat, O)
  | RefreshingFinal _ => (5%nat, O)
  | BootstrapComplete => (0%nat, O)
  end.

Definition rank_lt (a b : nat * nat) : Prop := (a.1 < b.1 ∨ a.1 = b.1 ∧ a.2 < b.2)%nat.

Lemma rank_wf : well_founded rank_lt.
Proof.
  intros [a b]. revert b. induction a as [a IHa] using lt_wf_ind. intros b.
  induction b as [b IHb] using lt_wf_ind. constructor. intros [x y] [Hlt|[He Hlt]]; simpl in *.
  - by apply IHa.
  - subst. by apply IHb.
Qed.

(** A transition to another effect has moved down. *)
Definition drops (seeded : bool) (r : nat * nat) (x : Transition) : Prop :=
  match x.2 with StepEffect _ => rank_lt (rank seeded x.1) r | _ => True end.

Ltac phase_drops := try done; unfold drops, rank_lt; cbn -[Z.to_nat Z.mul u64_max]; lia.

Section descent.
  Context {HP : Heap} {RW : Rkyv ArchivedWalObject} {RS : Rkyv ArchivedSeal}.
  Context (seeded : bool).

Lemma establish_fence_drops loaded fence r x :
  rank_lt (rank seeded (EstablishingFence loaded fence)) r →
  establish_fence loaded fence = Ret x → drops seeded r x.
Proof.
  intros Hr. unfold establish_fence.
  destruct (EncodedWal_new _) as [[candidate|]|]; cbn [exec_bind]; [|by intros [= <-]|done].
  by intros [= <-].
Qed.

Lemma read_next_table_drops load n :
  (length (load_remaining load) ≤ n)%nat → drops seeded (9, n)%nat (read_next_table load).
Proof.
  intros Hn. unfold read_next_table. destruct (load_remaining load) as [|source remaining].
  - destruct (forest_try_from _ _); phase_drops.
  - unfold drops, rank_lt. simpl in *. lia.
Qed.

Lemma fence_after_drops loaded cut listed candidate occupied x :
  from_option coord_get 0 occupied < coord_get candidate →
  fence_after loaded cut listed candidate = Ret x →
  drops seeded (rank seeded (ObservingWalTail loaded occupied)) x.
Proof.
  intros Hlt. pose proof (coord_bounds candidate).
  unfold fence_after. destruct (bound_takeover_fence _ _) as [fence|] eqn:Hf; [|by intros [= <-]].
  apply bound_takeover_fence_Ok in Hf as (-> & _ & _ & _).
  assert (∀ x, establish_fence loaded {| fence_batch := candidate |} = Ret x →
    drops seeded (rank seeded (ObservingWalTail loaded occupied)) x) as He.
  { intros y. apply establish_fence_drops. unfold rank_lt. cbn -[Z.to_nat Z.mul u64_max]. lia. }
  destruct listed as [tail|]; [|apply He].
  destruct (match cut with None => _ | _ => _ end); [|apply He].
  intros [= <-]. unfold drops, rank_lt. cbn -[Z.to_nat Z.mul u64_max]. lia.
Qed.

Lemma handle_wal_tail_drops state listed x :
  handle_wal_tail state listed = Ret x → drops seeded (rank seeded state) x.
Proof.
  unfold handle_wal_tail. destruct state as [| | | | | |loaded occupied| | | | | |]; try done.
  destruct (plan_fence_candidate _ _) as [candidate|]; [|by intros [= <-]].
  pose proof (coord_bounds candidate).
  destruct occupied as [o|]; [|apply fence_after_drops; simpl; lia].
  destruct (coord_leb candidate o) eqn:Hle; [by intros [= <-]|].
  unfold coord_leb in Hle. apply Z.leb_gt in Hle. by apply fence_after_drops.
Qed.

Lemma handle_wal_read_drops t state observed x :
  state_ok t state → handle_wal_read state observed = Ret x → drops seeded (rank seeded state) x.
Proof.
  intros Hok. unfold handle_wal_read.
  destruct state as [| | | | | | |loaded fence tail| |replay| | |]; try done.
  - unfold handle_tail_read. destruct observed as [o|]; [|by intros [= <-]].
    do 2 (case_bool_decide; [|done]). destruct (owner_leb _ _); [intros [= <-]; phase_drops|].
    apply establish_fence_drops. unfold rank_lt. pose proof (coord_bounds (fence_batch fence)).
    cbn -[Z.to_nat Z.mul u64_max]. lia.
  - unfold handle_replay_read. destruct observed as [o|]; [|intros [= <-]; phase_drops].
    do 2 (case_bool_decide; [|done]).
    match goal with |- context [if ?b then _ else Panic] => destruct b; [|done] end.
    destruct (replay_body replay o) as [[[owner durable] [detail|]]|]; cbn [exec_bind];
      [intros [= <-]; phase_drops| |done].
    case_bool_decide as Hf; [case_bool_decide; [|done]; intros [= <-]; phase_drops|].
    destruct (successor _) as [next|] eqn:Hs; [|by intros [= <-]]. intros [= <-].
    apply successor_Ok in Hs. pose proof (replay_ok_below _ _ Hok).
    rewrite coord_eq_iff in Hf. unfold drops, rank_lt. cbn -[Z.to_nat]. lia.
Qed.

Lemma handle_table_drops state table decoded x :
  handle_table state table decoded = Ret x → drops seeded (rank seeded state) x.
Proof.
  unfold handle_table. destruct state as [| | | | |load source| | | | | | |]; try done.
  case_bool_decide; [|done]. destruct decoded as [rows|rows]; (case_bool_decide; [|done]).
  - destruct (merge_directory_table _ _ _) as [[[merged last]|]|]; cbn [try_bind exec_bind];
      [|by intros [= <-]|done]. intros [= <-]. by apply read_next_table_drops.
  - destruct (merge_ledger_table _ _ _) as [[[merged last]|]|]; cbn [try_bind exec_bind];
      [|by intros [= <-]|done]. intros [= <-]. by apply read_next_table_drops.
Qed.

Lemma handle_head_drops seeded0 state observed x :
  (observed = None → seeded0 = false) → handle_head state observed = Ret x →
  drops seeded (rank seeded0 state) x.
Proof.
  intros Hhead. destruct state as [|partition| | | | | | | | |claim detail|recovery|]; try done;
    cbn [handle_head].
  - destruct observed as [g|]; [intros [= <-]; destruct seeded0; phase_drops|].
    rewrite (Hhead eq_refl). unfold establish_genesis.
    destruct (Seal_new _ _ _ _ _); cbn [expect_ok exec_bind]; [|done].
    destruct (EncodedGenesisSeal_try_from _) as [[|]|]; cbn [exec_bind];
      [intros [= <-]; phase_drops|by intros [= <-]|done].
  - intros [= <-]. destruct observed; [|done]. destruct (coord_ltb _ _); [done|].
    by case_bool_decide.
  - intros [= <-]. destruct observed; [|done]. case_bool_decide; [done|].
    by destruct (coord_ltb _ _).
Qed.

Lemma handle_seal_drops seeded0 state observed x :
  handle_seal state observed = Ret x → drops seeded (rank seeded0 state) x.
Proof.
  unfold handle_seal. destruct state; try done. destruct observed as [head|]; [|by intros [= <-]].
  case_bool_decide; [|done]. destruct (plan_bootstrap_sources head); [|by intros [= <-]].
  destruct (claim_successor head) as [candidate|]; [|by intros [= <-]].
  destruct (EncodedAuthoritySeal_try_from candidate) as [[|]|]; cbn [exec_bind];
    [intros [= <-]; phase_drops|by intros [= <-]|done].
Qed.

Lemma handle_claim_drops seeded0 state publication x :
  handle_claim state publication = Ret x → drops seeded (rank seeded0 state) x.
Proof.
  unfold handle_claim. destruct state as [| | | |candidate sources| | | | | | | |]; try done.
  intros [= <-]. destruct publication; [|done..]. set (load := mk_load _ _ _ _ _).
  pose proof (read_next_table_drops load (length (load_remaining load)) (le_n _)) as Hd.
  unfold drops, rank_lt in *. destruct (read_next_table load) as [x [effect| |]]; [|done|done].
  cbn [fst snd] in *. left. cbn. lia.
Qed.

(** Every handled answer moves down, provided a seeded store lists a head and a lost
    genesis race leaves a seeded store. *)
Lemma handle_drops seeded0 t state event state' step :
  state_ok t state →
  (event = HeadObserved None → seeded0 = false) →
  (event = GenesisEstablishedEvent GenesisLostRace → seeded = true) →
  bootstrap_handle (mk_bootstrap (Some state)) event = Ret (mk_bootstrap (Some state'), step) →
  drops seeded (rank seeded0 state) (state', step).
Proof.
  intros Hok Hhead Hlost. unfold bootstrap_handle. cbn [bootstrap_state expect exec_bind].
  match goal with |- context [exec_bind ?x _] => destruct x as [[s st]|] eqn:Hx end;
    cbn [exec_bind]; [|done]. intros [= -> ->].
  destruct event as [partition|g|g|seal|p|table decoded|tail|w|e|error].
  - destruct state; try done. injection Hx as <- <-. unfold drops, rank_lt. simpl.
    destruct seeded; lia.
  - apply (handle_head_drops _ _ g); [|done]. intros ->. auto.
  - destruct state; try done. cbn [handle_genesis] in Hx.
    destruct g; injection Hx as <- <-; [phase_drops| |done].
    rewrite (Hlost eq_refl). phase_drops.
  - by apply (handle_seal_drops _ _ seal).
  - by apply (handle_claim_drops _ _ p).
  - replace (rank seeded0 state) with (rank seeded state) by (by destruct state).
    by apply (handle_table_drops state table decoded).
  - replace (rank seeded0 state) with (rank seeded state) by (by destruct state).
    by apply (handle_wal_tail_drops state tail).
  - replace (rank seeded0 state) with (rank seeded state) by (by destruct state).
    by apply (handle_wal_read_drops t state w).
  - destruct state as [| | | | | | | |loaded fence| | | |]; try done. cbn [handle_fence] in Hx.
    pose proof (coord_bounds (fence_batch fence)). injection Hx as Hx.
    destruct e; [destruct (replay_start _)| |]; injection Hx as <- <-; [phase_drops|done| |done].
    unfold drops, rank_lt. cbn -[Z.to_nat Z.mul u64_max]. lia.
  - destruct state, error; try done; injection Hx as <- <-; phase_drops.
Qed.

End descent.

(** * Execution on the stores *)

Section run.
  Context {DF : DebugFormat} {B : Backend} {BL : BackendLaws} {J : Jiff} {RL : RowLayout}.
  Context {HP : Heap} {HL : HeapLaws} {RW : Rkyv ArchivedWalObject} {LW : RkyvLaws ArchivedWalObject}.
  Context {RS : Rkyv ArchivedSeal} {LS : RkyvLaws ArchivedSeal}.
  Context {RD : Rkyv (SstArchive ArchivedDirectoryRow)} {RG : Rkyv (SstArchive ArchivedLedgerRow)}.
  Context {GO : GeneratorOps} {GL : GeneratorLaws}.

(** What every actor on the store respects: Seals are never changed or removed, and
    neither are FENCEs. *)
Definition seals_kept : Prop := ∀ g bytes, keeps (seal_spelling g) bytes.
Definition fences_kept : Prop := ∀ partition batch bytes object,
  decode_wal partition batch bytes = Ret (Ok object) → wal_body object = Fence →
  keeps (wal_spelling batch) bytes.

(** The store evolves by the other actors and by creates of single objects. *)
Definition evolves : relation (gmap str (list Z)) := rtc (λ c c', ∃ k body, created k body c c').

(** Some time between two moments the store satisfied a predicate. *)
Definition between (c c' : gmap str (list Z)) (P : gmap str (list Z) → Prop) : Prop :=
  ∃ d, evolves c d ∧ P d ∧ evolves d c'.

Lemma env_evolves c c' : env c c' → evolves c c'.
Proof. intros H. apply rtc_once. exists [], []. by left. Qed.

Lemma created_evolves k body c c' : created k body c c' → evolves c c'.
Proof. intros H. apply rtc_once. eauto. Qed.

Lemma sometime_between c c' P : sometime c c' P → between c c' P.
Proof. intros (d & H1 & Hd & H2). exists d. eauto using env_evolves. Qed.

Lemma between_mono a b c d P : evolves a b → evolves c d → between b c P → between a d P.
Proof. intros H1 H2 (x & Ha & Hx & Hb). exists x. split_and!; [by etrans|done|by etrans]. Qed.

Lemma created_keeps k body k' body' c c' :
  keeps k body → created k' body' c c' → c !! k = Some body → c' !! k = Some body.
Proof.
  intros Hk [He|(d & H1 & Hd & H2)] Hc; [by apply (Hk c)|].
  apply (Hk (<[k' := body']> d)); [|done]. rewrite lookup_insert_ne; [by apply (Hk c)|].
  intros ->. by rewrite (Hk c d Hc H1) in Hd.
Qed.

Lemma evolves_keeps k body c c' :
  keeps k body → evolves c c' → c !! k = Some body → c' !! k = Some body.
Proof. intros Hk. induction 1 as [|a b c (k' & body' & Hc) _ IH]; eauto using created_keeps. Qed.

Definition seeded_in (c : gmap str (list Z)) : bool :=
  bool_decide (is_Some (c !! seal_spelling genesis_generation)).

Definition fence_held (c : gmap str (list Z)) (loaded : LoadedBootstrap) (fence : TakeoverFence) :
    Prop :=
  ∃ candidate, EncodedWal_new (own_fence loaded fence) = Ret (Ok candidate) ∧
    c !! wal_spelling (fence_batch fence) = Some (encoded_wal_bytes candidate).

(** During replay the store holds this bootstrap's FENCE. *)
Definition holding (c : gmap str (list Z)) (state : BootstrapState) : Prop :=
  match state with
  | Replaying r => fence_held c (replay_loaded r) (replay_fence r)
  | _ => True
  end.

(** The objects behind what was read. *)
Definition wal_stored (object : WalObject) (d : gmap str (list Z)) : Prop :=
  ∃ bytes, d !! wal_spelling (wal_batch object) = Some bytes ∧
    decode_wal (wal_partition object) (wal_batch object) bytes = Ret (Ok object).
Definition table_stored (entry : TableRef * DecodedTable) (d : gmap str (list Z)) : Prop :=
  let key := mk_table_key (table_object entry.1) in
  ∃ partition bytes, d !! TableKey_display key = Some bytes ∧
    decode_table partition key bytes = Ret (Ok entry.2).

(** What one executed effect has done and learned. *)
Record executed (c c' : gmap str (list Z)) (state : BootstrapState) (effect : BootstrapEffect)
    (event : BootstrapEvent) : Prop := {
  executed_completes : completes state effect event;
  executed_evolves : evolves c c';
  executed_head : event = HeadObserved None → seeded_in c = false;
  executed_lost : event = GenesisEstablishedEvent GenesisLostRace → seeded_in c' = true;
  executed_fence : ∀ loaded fence, state = EstablishingFence loaded fence →
    event = FenceEstablished WalDurable → fence_held c' loaded fence;
  executed_wal : ∀ object, event = WalRead (Some object) → between c c' (wal_stored object);
  executed_table : ∀ table decoded, event = TableRead table decoded →
    between c c' (table_stored (table, decoded))
}.

Lemma failed_executed c c' state effect error :
  evolves c c' → executed c c' state effect (StoreFailed error).
Proof. intros H. by split; [destruct effect|..]. Qed.

Lemma observe_head_executed w state :
  seals_kept →
  ∃ w' event, execute_effect w ObserveHead = Ret (w', event) ∧
    executed (contents w) (contents w') state ObserveHead event.
Proof using BL.
  intros Hk. cbn [execute_effect complete].
  destruct (newest_generation_Ret w) as (w' & r & -> & He & Hr). cbn [exec_bind].
  eexists _, _. split; [reflexivity|]. apply env_evolves in He as Hev.
  destruct r as [observed|]; [|by apply failed_executed]. split; try done.
  intros [= ->]. apply bool_decide_eq_false_2. intros [bytes Hb].
  destruct (Hr None eq_refl) as (d & H1 & Hd & _).
  pose proof (Hk genesis_generation bytes _ _ Hb H1) as Hd'. unfold seal_spelling in Hd'.
  by rewrite Hd in Hd'.
Qed.

Lemma genesis_executed w state candidate :
  seals_kept → seal_generation (genesis_seal candidate) = genesis_generation →
  candidate_bytes_ok (genesis_bytes candidate) SEAL_ENCODED_BYTES_MAX = true →
  ∃ w' event, execute_effect w (EstablishGenesis candidate) = Ret (w', event) ∧
    executed (contents w) (contents w') state (EstablishGenesis candidate) event.
Proof using BL.
  intros Hk Hg Hb. cbn [execute_effect].
  destruct (store_establish_genesis_Ret w candidate Hb) as (w' & r & -> & Hc & Hr).
  cbn [complete exec_bind]. eexists _, _. split; [reflexivity|].
  apply created_evolves in Hc as Hev. destruct r as [e|]; [|by apply failed_executed].
  split; try done. intros [= ->]. destruct Hr as (d & _ & (other & Hd & _) & He). rewrite Hg in Hd.
  apply bool_decide_eq_true_2. exists other. by apply (Hk genesis_generation other d).
Qed.

Lemma read_seal_executed w state generation :
  ∃ w' event, execute_effect w (ReadSeal generation) = Ret (w', event) ∧
    executed (contents w) (contents w') state (ReadSeal generation) event.
Proof using BL.
  cbn [execute_effect]. destruct (read_seal_Ret w generation) as (w' & r & -> & He & Hr).
  cbn [complete exec_bind]. eexists _, _. split; [reflexivity|]. apply env_evolves in He as Hev.
  destruct r as [observed|]; [|by apply failed_executed]. split; try done.
  intros seal ->. destruct Hr as (d & _ & (bytes & _ & Hd) & _).
  pose proof (decode_seal_checked generation bytes) as Hc. by rewrite Hd in Hc.
Qed.

Lemma publish_claim_executed w state candidate :
  candidate_bytes_ok (authority_bytes candidate) SEAL_ENCODED_BYTES_MAX = true →
  ∃ w' event, execute_effect w (PublishClaim candidate) = Ret (w', event) ∧
    executed (contents w) (contents w') state (PublishClaim candidate) event.
Proof using BL.
  intros Hb. cbn [execute_effect].
  destruct (publish_authority_Ret w candidate Hb) as (w' & r & -> & Hc & _).
  cbn [complete exec_bind]. eexists _, _. split; [reflexivity|].
  apply created_evolves in Hc as Hev. destruct r; [|by apply failed_executed]. by split.
Qed.

Lemma read_table_executed w state partition table :
  ∃ w' event, execute_effect w (ReadTable partition table) = Ret (w', event) ∧
    executed (contents w) (contents w') state (ReadTable partition table) event.
Proof using BL.
  cbn [execute_effect]. destruct (read_table_Ret w partition table) as (w' & r & -> & He & Hr).
  cbn [complete exec_bind]. eexists _, _. split; [reflexivity|]. apply env_evolves in He as Hev.
  destruct r as [decoded|]; [|by apply failed_executed]. destruct Hr as [Hm Hs].
  split; try done. intros table' decoded' [= <- <-]. apply sometime_between.
  destruct Hs as (d & H1 & (bytes & Hd & _ & Hdec) & H2). exists d. split_and!; [done| |done].
  by exists partition, bytes.
Qed.

Lemma observe_tail_executed w state :
  ∃ w' event, execute_effect w ObserveWalTail = Ret (w', event) ∧
    executed (contents w) (contents w') state ObserveWalTail event.
Proof using BL.
  cbn [execute_effect]. destruct (newest_surviving_batch_Ret w) as (w' & r & -> & He & Hr).
  cbn [complete exec_bind]. eexists _, _. split; [reflexivity|]. apply env_evolves in He as Hev.
  destruct r; [|by apply failed_executed]. by split.
Qed.

Lemma own_fence_kept loaded fence candidate :
  fences_kept → EncodedWal_new (own_fence loaded fence) = Ret (Ok candidate) →
  keeps (wal_spelling (fence_batch fence)) (encoded_wal_bytes candidate).
Proof using HL LW.
  intros Hk (_ & _ & He & _)%EncodedWal_new_Ok.
  apply (Hk (wal_partition (own_fence loaded fence)) (fence_batch fence) _ (own_fence loaded fence));
    [|done].
  by apply (decode_wal_encoded (own_fence loaded fence)).
Qed.

Lemma read_wal_executed w state partition batch :
  fences_kept → holding (contents w) state →
  (∀ r, state = Replaying r →
     partition = seal_partition (claimed_seal (loaded_claimed (replay_loaded r))) ∧
     batch = replay_next r) →
  ∃ w' event, execute_effect w (ReadWal partition batch) = Ret (w', event) ∧
    executed (contents w) (contents w') state (ReadWal partition batch) event.
Proof using BL HL LW.
  intros Hk Hh Hw. cbn [execute_effect].
  destruct (read_wal_Ret w partition batch) as (w' & r & -> & He & Hr).
  cbn [complete exec_bind]. eexists _, _. split; [reflexivity|]. apply env_evolves in He as Hev.
  destruct r as [[observed|]|]; [|by split|by apply failed_executed]. cbn [fmap option_fmap option_map].
  destruct Hr as (d & H1 & (bytes & Hd & Hdec & _) & H2).
  pose proof (decode_wal_checked partition batch bytes) as Hc. rewrite Hdec in Hc.
  destruct Hc as (Hp & Hb & _).
  split; try done.
  - split; [by intros ? [= <-]|]. intros replay object -> Hf [= <-].
    destruct Hh as (candidate & Hn & Hheld). pose proof (own_fence_kept _ _ _ Hk Hn) as Hkeep.
    destruct (Hw replay eq_refl) as [-> ->]. rewrite Hf in *.
    pose proof (Hkeep _ _ Hheld H1) as Hd'. rewrite Hd' in Hd. injection Hd as <-.
    apply EncodedWal_new_Ok in Hn as (_ & _ & He' & _).
    pose proof (decode_wal_encoded (own_fence (replay_loaded replay) (replay_fence replay)) _ I He')
      as Hown. cbn [own_fence wal_partition wal_batch] in Hown. congruence.
  - intros object [= <-]. apply sometime_between. exists d. split_and!; [done| |done].
    exists bytes. by rewrite Hp, Hb.
Qed.

Lemma establish_fence_executed w state candidate :
  fences_kept →
  (∀ loaded fence, state = EstablishingFence loaded fence →
     EncodedWal_new (own_fence loaded fence) = Ret (Ok candidate)) →
  candidate_bytes_ok (encoded_wal_bytes candidate) WAL_ENCODED_BYTES_MAX = true →
  ∃ w' event, execute_effect w (EstablishFence candidate) = Ret (w', event) ∧
    executed (contents w) (contents w') state (EstablishFence candidate) event.
Proof using BL HL LW.
  intros Hk Hn Hb. cbn [execute_effect].
  destruct (establish_wal_Ret w candidate Hb) as (w' & r & -> & Hc & Hr).
  cbn [complete exec_bind]. eexists _, _. split; [reflexivity|].
  apply created_evolves in Hc as Hev. destruct r as [e|]; [|by apply failed_executed].
  split; try done. intros loaded fence Hs [= ->]. specialize (Hn loaded fence Hs).
  exists candidate. split; [done|]. pose proof (own_fence_kept _ _ _ Hk Hn) as Hkeep.
  apply EncodedWal_new_Ok in Hn as (_ & Hbatch & _ & _). rewrite Hbatch in Hr.
  by eapply keeps_established.
Qed.

Lemma execute_effect_executed w state effect :
  seals_kept → fences_kept → waits_for state effect → requested state effect →
  holding (contents w) state →
  ∃ w' event, execute_effect w effect = Ret (w', event) ∧
    executed (contents w) (contents w') state effect event.
Proof using BL HL LW.
  intros Hsk Hfk Hw Hr Hh. destruct effect as [|c|g|c|p t| |p b|c].
  - by apply observe_head_executed.
  - destruct state; try done. destruct Hr. by apply genesis_executed.
  - apply read_seal_executed.
  - destruct state; try done. by apply publish_claim_executed.
  - apply read_table_executed.
  - apply observe_tail_executed.
  - apply read_wal_executed; [done|done|]. by intros r ->.
  - destruct state; try done. apply establish_fence_executed; [done| |].
    + by intros loaded' fence' [= <- <-].
    + by apply EncodedWal_new_Ok in Hr as (_ & _ & _ & ?).
Qed.

(** ** The run *)

(** Every object the trace names was in the store during the run. *)
Definition trace_stored (c c' : gmap str (list Z)) (t : Trace) : Prop :=
  Forall (λ object, between c c' (wal_stored object)) (trace_wal t) ∧
  Forall (λ entry, between c c' (table_stored entry)) (trace_tables t).

Record run_ok (c0 : gmap str (list Z)) (t : Trace) (c : gmap str (list Z)) (state : BootstrapState)
    (step : BootstrapStep) : Prop := {
  run_reach : boot_reach t state step;
  run_asks : match step with StepEffect effect => requested state effect | _ => True end;
  run_holding : holding c state;
  run_since : evolves c0 c;
  run_stored : trace_stored c0 c t
}.

Lemma trace_stored_mono c0 c c' t : evolves c c' → trace_stored c0 c t → trace_stored c0 c' t.
Proof.
  intros He [Hw Ht].
  split; (eapply Forall_impl; [done|]); intros x; by apply between_mono.
Qed.

Lemma trace_stored_extend c0 c c' t state effect event :
  evolves c0 c → executed c c' state effect event → trace_stored c0 c t →
  trace_stored c0 c' (extend_trace state event t).
Proof.
  intros H0 X Ht. apply (trace_stored_mono c0 c c') in Ht; [|apply X].
  assert (∀ P, between c c' P → between c0 c' P) as Hb by (intros P; by apply between_mono).
  destruct Ht as [Hw Ht]. unfold extend_trace.
  destruct state; try done; destruct event as [| | | | |table decoded| |[o|]| |]; try done.
  - split; [done|]. apply Forall_app. split; [done|]. apply Forall_singleton.
    by apply Hb, (executed_table _ _ _ _ _ X).
  - split; [|done]. apply Forall_app. split; [done|]. apply Forall_singleton.
    by apply Hb, (executed_wal _ _ _ _ _ X).
Qed.

(** The FENCE stays in the store through the replay. *)
Lemma holding_next c c' state effect event state' step :
  fences_kept → holding c state → executed c c' state effect event →
  origin state event (state', step) → holding c' state'.
Proof using HL LW.
  intros Hk Hh X Ho. destruct state' as [| | | | | | | | |r'| | |]; try done.
  unfold origin in Ho. cbn [fst] in Ho.
  destruct state as [| | | | | | | |loaded fence|r| | |]; try done.
  - destruct event as [| | | | | | | |[]|]; try done. destruct Ho as [H1 H2]. unfold holding.
    rewrite H1, H2. by apply (executed_fence _ _ _ _ _ X).
  - destruct Ho as [Hf Hl]. destruct Hh as (candidate & Hn & Hc). unfold holding, fence_held.
    assert (own_fence (replay_loaded r') (replay_fence r') =
      own_fence (replay_loaded r) (replay_fence r)) as -> by (unfold own_fence; by rewrite Hf, Hl).
    rewrite Hf. exists candidate. split; [done|].
    eapply evolves_keeps; [by eapply own_fence_kept|apply X|done].
Qed.

Lemma run_step c0 t w state effect :
  seals_kept → fences_kept → run_ok c0 t (contents w) state (StepEffect effect) →
  ∃ w' event state' step,
    execute_effect w effect = Ret (w', event) ∧
    bootstrap_handle (mk_bootstrap (Some state)) event = Ret (mk_bootstrap (Some state'), step) ∧
    run_ok c0 (extend_trace state event t) (contents w') state' step ∧
    drops (seeded_in (contents w')) (rank (seeded_in (contents w)) state) (state', step).
Proof using BL HL LS LW.
  intros Hsk Hfk R. pose proof (boot_reach_ok _ _ _ (run_reach _ _ _ _ _ R)) as Hok.
  destruct (execute_effect_executed w state effect) as (w' & event & Hx & X);
    [done|done|apply Hok|apply (run_asks _ _ _ _ _ R)|apply (run_holding _ _ _ _ _ R)|].
  destruct (bootstrap_step_ok t state effect event Hok (executed_completes _ _ _ _ _ X))
    as (state' & step & Hh & Hok').
  exists w', event, state', step. split_and!; [done|done| |].
  - destruct (handle_requested state event _ _ Hh) as (s & [= <-] & Ho).
    split.
    + eapply boot_next; [apply R|apply X|done|done].
    + unfold origin, asks in Ho. cbn [fst snd] in Ho. destruct step; [|done|done].
      by destruct state'.
    + eapply holding_next; [done|apply R|done|done].
    + etrans; [apply R|apply X].
    + eapply trace_stored_extend; [apply R|done|apply R].
  - eapply handle_drops; [apply Hok|apply X|apply X|done].
Qed.

(** What a finished run has established. *)
Definition run_result (c0 : gmap str (list Z)) (out : World * Result BootstrapExit WriterRecovery) :
    Prop :=
  ∀ recovery, out.2 = Ok recovery →
    ∃ t, recovered t recovery ∧ trace_stored c0 (contents out.1) t.

Lemma terminal_result c0 t w state step out :
  run_ok c0 t (contents w) state step →
  match step with
  | StepComplete recovery => out = (w, Ok recovery)
  | StepExit exit => out = (w, Err exit)
  | StepEffect _ => False
  end → run_result c0 out.
Proof using HL LS LW.
  intros R Hout. destruct step as [|recovery|exit]; [done| |]; subst out; [|done].
  intros r [= <-]. exists t. split; [|apply R].
  apply (boot_reach_ok _ _ _ (run_reach _ _ _ _ _ R)).
Qed.

Lemma loop_returns c0 t w state step :
  seals_kept → fences_kept → run_ok c0 t (contents w) state step →
  ∃ fuel out, bootstrap_loop fuel w (mk_bootstrap (Some state)) step = Ret (Some out) ∧
    run_result c0 out.
Proof using BL HL LS LW.
  intros Hsk Hfk. remember (rank (seeded_in (contents w)) state) as r eqn:Hr.
  revert t w state step Hr. induction (rank_wf r) as [r _ IH]. intros t w state step -> R.
  destruct step as [effect|recovery|exit].
  - destruct (run_step c0 t w state effect Hsk Hfk R) as (w' & event & s' & st' & Hx & Hh & R' & Hd).
    assert (∃ fuel out, bootstrap_loop fuel w' (mk_bootstrap (Some s')) st' = Ret (Some out) ∧
      run_result c0 out) as (fuel & out & Hloop & Hout).
    { destruct st' as [effect'|recovery|exit].
      - exact (IH _ Hd _ w' s' _ eq_refl R').
      - exists O, (w', Ok recovery). split; [done|]. by eapply terminal_result.
      - exists O, (w', Err exit). split; [done|]. by eapply terminal_result. }
    exists (S fuel), out. split; [|done]. cbn [bootstrap_loop]. rewrite Hx. cbn [exec_bind].
    rewrite Hh. done.
  - exists O, (w, Ok recovery). split; [done|]. by eapply terminal_result.
  - exists O, (w, Err exit). split; [done|]. by eapply terminal_result.
Qed.

Lemma loop_sound fuel c0 t w state step :
  seals_kept → fences_kept → run_ok c0 t (contents w) state step →
  ∃ result, bootstrap_loop fuel w (mk_bootstrap (Some state)) step = Ret result ∧
    ∀ out, result = Some out → run_result c0 out.
Proof using BL HL LS LW.
  intros Hsk Hfk. revert t w state step. induction fuel as [|fuel IH]; intros t w state step R;
    (destruct step as [effect|recovery|exit];
     [|eexists; split; [reflexivity|]; intros out [= <-]; by eapply terminal_result..]).
  - by exists None.
  - destruct (run_step c0 t w state effect Hsk Hfk R) as (w' & event & s' & st' & Hx & Hh & R' & _).
    destruct (IH _ w' s' st' R') as (result & Hloop & Hres). exists result.
    cbn [bootstrap_loop]. rewrite Hx. cbn [exec_bind]. by rewrite Hh.
Qed.

Lemma mint_partition_id_Ret entropy : ∃ partition, mint_partition_id entropy = Ret partition.
Proof using GL.
  unfold mint_partition_id, draw.
  destruct (fill_bytes_octets (generator entropy) 16) as [Hlen Hb].
  destruct (fill_bytes (generator entropy) 16) as [g bytes]. cbn [snd] in *.
  set (minted := if bool_decide (bytes = replicate 16 0) then _ else _).
  assert (is_octets minted = true ∧ minted ≠ replicate 16 0) as [Ho Hne].
  { unfold minted. case_bool_decide; [done|]. split; [|done]. by apply is_octets_spec. }
  destruct (refined_is_Some is_octets minted Ho) as (octets & -> & Hc). cbn [expect exec_bind].
  unfold PartitionId_try_from.
  destruct (checked_total partition_check octets) as (p & -> & _); [|by eexists].
  unfold accepts, partition_check. rewrite bool_decide_eq_false_2; [done|]. by rewrite Hc.
Qed.

(** The first step. *)
Lemma bootstrap_start w entropy :
  fnv1a_64 (str_bytes (lit "partition-id")) ∉ forked_labels entropy →
  ∃ state step,
    (∀ fuel, bootstrap fuel w entropy = bootstrap_loop fuel w (mk_bootstrap (Some state)) step) ∧
    run_ok (contents w) trace_empty (contents w) state step.
Proof using GL.
  intros Hl. unfold bootstrap, fork. rewrite bool_decide_eq_false_2 by done. cbn [negb exec_bind].
  match goal with |- context [mint_partition_id ?e] =>
    destruct (mint_partition_id_Ret e) as [partition ->] end.
  cbn [exec_bind]. exists (DiscoveringHead partition), (StepEffect ObserveHead).
  split; [reflexivity|]. split; [by econstructor|done|done|reflexivity|].
  by split.
Qed.

(** C13: bootstrap returns.  Whatever the store holds and whatever the other actors do
    to it while bootstrap runs, short of changing or removing Seals and FENCEs, the
    event loop ends after finitely many effects, with a recovery or an exit: a lost
    genesis race cannot repeat, each table and each WAL coordinate is read once, and an
    occupied FENCE coordinate only moves the next candidate up. *)
Theorem bootstrap_returns (w : World) (entropy : Entropy) :
  seals_kept → fences_kept → fnv1a_64 (str_bytes (lit "partition-id")) ∉ forked_labels entropy →
  ∃ fuel w' result, bootstrap fuel w entropy = Ret (Some (w', result)).
Proof using BL HL LS LW GL.
  intros Hsk Hfk Hl. destruct (bootstrap_start w entropy Hl) as (state & step & Hb & R).
  destruct (loop_returns _ _ w state step Hsk Hfk R) as (fuel & [w' result] & Hloop & _).
  exists fuel, w', result. by rewrite Hb.
Qed.

(** C12: the bootstrap the engine executes is the recovery that was specified.  On a
    store whose other actors do not overwrite or delete Seals and FENCEs, and with a
    partition-id label the entropy has not forked yet (a second fork of it panics), it
    never panics; and a recovery it returns is the exact recovery of a trace of tables
    and WAL objects each of which the store held, under the key that names it, at some
    time of the run. *)
Theorem bootstrap_executes (fuel : nat) (w : World) (entropy : Entropy) :
  seals_kept → fences_kept → fnv1a_64 (str_bytes (lit "partition-id")) ∉ forked_labels entropy →
  ∃ result, bootstrap fuel w entropy = Ret result ∧
    ∀ w' recovery, result = Some (w', Ok recovery) →
      ∃ t, recovered t recovery ∧ trace_stored (contents w) (contents w') t.
Proof using BL HL LS LW GL.
  intros Hsk Hfk Hl. destruct (bootstrap_start w entropy Hl) as (state & step & Hb & R).
  destruct (loop_sound fuel _ _ w state step Hsk Hfk R) as (result & Hloop & Hres).
  exists result. rewrite Hb. split; [done|]. intros w' recovery ->.
  by apply (Hres (w', Ok recovery)).
Qed.

End run.

(** * Concrete runs *)

#[local] Existing Instances reference_heap reference_heap_laws reference_jiff reference_layout
  reference_rkyv_laws reference_backend reference_backend_laws reference_format reference_generator.
#[local] Existing Instance reference_rkyv.

#[local] Instance reference_generator_laws : GeneratorLaws.
Proof.
  intros g n. split; simpl; [apply length_replicate|]. apply Forall_replicate.
  apply Z.mod_pos_bound. lia.
Qed.

Definition sample_entropy : Entropy := Entropy_from_seed [].

(** On an empty store a run of a fresh source recovers the empty partition. *)
Lemma empty_store_recovers :
  match bootstrap 9 sample_world sample_entropy with
  | Ret (Some (_, Ok _)) => true
  | _ => false
  end = true.
Proof. vm_compute. reflexivity. Qed.

Lemma bootstrap_returns_witness :
  ∃ fuel w' result, bootstrap fuel sample_world sample_entropy = Ret (Some (w', result)).
Proof.
  apply bootstrap_returns.
  - by intros g bytes d d' Hd <-.
  - by intros partition batch bytes object _ _ d d' Hd <-.
  - set_solver.
Defined.

Lemma bootstrap_executes_witness :
  ∃ result, bootstrap 9 sample_world sample_entropy = Ret result ∧
    ∀ w' recovery, result = Some (w', Ok recovery) →
      ∃ t, recovered t recovery ∧ trace_stored (contents sample_world) (contents w') t.
Proof.
  apply bootstrap_executes.
  - by intros g bytes d d' Hd <-.
  - by intros partition batch bytes object _ _ d d' Hd <-.
  - set_solver.
Defined.
