(* ===== verification/Checkpoint.v ===== *)
(** Checkpoint preparation (crate [strom-storage-engine], file [checkpoint/prepare.rs]).

    A checkpoint cuts the changed rows (or, when the manifest is full, the whole
    snapshot) into tables, adds them to the carried manifest and assembles the
    successor Seal.  This file holds the operations: the chunking loop, the accounting
    and choice of a plan, the emission of tables and the assembly.  Their theory is in
    CheckpointTheory.v and CheckpointSafety.v; establishing the tables and collecting
    what a checkpoint supersedes are in CheckpointRun.v. *)

From S2P Require Import Prelude OrdMap Text Domain Coordinates Partition Seal Wal Forest.
From S2P Require Import ForestTheory Archive Spelling Sst Writer WriterSafety WriterSystem.
From S2P Require Import Bootstrap BootstrapSafety ObjectStore Stores StoreTheory.

(** * Chunking *)

(** strom-storage-engine/src/checkpoint/prepare.rs:274-307, [for_each_chunk]. *)
Fixpoint for_each_chunk {Row S} (row_bytes : Row → Z) (emit : S → list Row → Z → Exec (S * bool))
    (rows chunk : list Row) (bytes : Z) (s : S) : Exec (S * bool) :=
  match rows with
  | [] => match chunk with [] => Ret (s, true) | _ => emit s chunk bytes end
  | row :: rows =>
      let additional := row_bytes row in
      assert! (match u64_checked_add SST_ARCHIVE_FIXED_BYTES_MAX additional with
               | Some one_row => one_row <=? SST_TABLE_TARGET_BYTES
               | None => false
               end) in
      let! extended := expect (u64_checked_add bytes additional) in
      if match chunk with [] => false | _ => SST_TABLE_TARGET_BYTES <? extended end then
        let! (s, accepted) := emit s chunk bytes in
        if accepted then
          let! bytes := expect (u64_checked_add SST_ARCHIVE_FIXED_BYTES_MAX additional) in
          for_each_chunk row_bytes emit rows [row] bytes s
        else Ret (s, false)
      else
        let! bytes := expect (u64_checked_add bytes additional) in
        for_each_chunk row_bytes emit rows (chunk ++ [row]) bytes s
  end.

(** strom-storage-engine/src/checkpoint/prepare.rs:267-272, [ledger_row_bytes]. *)
Definition ledger_row_bytes (row : StreamUid * LedgerCell) : Z :=
  match row.2 with
  | Value _ => LEDGER_VALUE_ROW_ENCODED_BYTES_MAX
  | Delete => LEDGER_DELETE_ROW_ENCODED_BYTES_MAX
  end.
Definition directory_row_bytes (row : StreamPath * DirectoryEntry) : Z :=
  DIRECTORY_ROW_ENCODED_BYTES_MAX.

(** strom-storage-engine/src/checkpoint/prepare.rs:27-31, [ChunkAccounting]. *)
Record ChunkAccounting : Type := mk_accounting { acc_tables : Z; acc_bytes : Z }.

(** strom-storage-engine/src/checkpoint/prepare.rs:139-149, [account_rows (emit)]. *)
Definition account_chunk (accounting : ChunkAccounting) (rows : list Z) (table_bytes : Z) :
    Exec (ChunkAccounting * bool) :=
  let! tables := expect (u64_checked_add (acc_tables accounting) 1) in
  let! bytes := expect (u64_checked_add (acc_bytes accounting) table_bytes) in
  Ret (mk_accounting tables bytes, true).

(** strom-storage-engine/src/checkpoint/prepare.rs:134-152, [account_rows]. *)
Definition account_rows (rows : list Z) : Exec ChunkAccounting :=
  let! (accounting, _) :=
    for_each_chunk id account_chunk rows [] SST_ARCHIVE_FIXED_BYTES_MAX (mk_accounting 0 0) in
  Ret accounting.

(** [Iterator::sum] of [u64]s, with overflow checks. *)
Fixpoint sum_u64 (total : Z) (l : list Z) : Exec Z :=
  match l with
  | [] => Ret total
  | x :: l => let! total := expect (u64_checked_add total x) in sum_u64 total l
  end.

(** strom-storage-engine/src/checkpoint/prepare.rs:154-190, [select_delta]. *)
Definition select_delta (source : Seal) (directory ledger : ChunkAccounting) : Exec bool :=
  let runs tree (tables : Z) :=
    u64_checked_add (zlen (tree_runs tree)) (if tables =? 0 then 0 else 1) in
  match runs (seal_directory source) (acc_tables directory) with
  | None => Ret false
  | Some directory_runs =>
      match runs (seal_ledger source) (acc_tables ledger) with
      | None => Ret false
      | Some ledger_runs =>
          let carried_objects := zlen (seal_tables source) in
          match u64_checked_add (acc_tables directory) (acc_tables ledger) with
          | None => Ret false
          | Some fresh_objects =>
              let! carried_bytes := sum_u64 0 (object_bytes <$> seal_tables source) in
              match u64_checked_add (acc_bytes directory) (acc_bytes ledger) with
              | None => Ret false
              | Some fresh_bytes =>
                  let within a b bound :=
                    match u64_checked_add a b with Some n => n <=? bound | None => false end in
                  Ret ((directory_runs <=? TREE_RUNS_MAX) && (ledger_runs <=? TREE_RUNS_MAX)
                       && within carried_objects fresh_objects PARTITION_BOOTSTRAP_OBJECTS_MAX_V2
                       && within carried_bytes fresh_bytes PARTITION_BOOTSTRAP_BYTES_MAX_V2)
              end
          end
      end
  end.

(** strom-storage-engine/src/checkpoint/prepare.rs:192-209, [assert_full_plan]. *)
Definition assert_full_plan (directory ledger : ChunkAccounting) : Exec unit :=
  let! objects := expect (u64_checked_add (acc_tables directory) (acc_tables ledger)) in
  assert! (objects <=? PARTITION_BOOTSTRAP_OBJECTS_MAX_V2) in
  let! bytes := expect (u64_checked_add (acc_bytes directory) (acc_bytes ledger)) in
  assert! (bytes <=? PARTITION_BOOTSTRAP_BYTES_MAX_V2) in
  Ret tt.

Definition account_cells (cells : ForestDelta) : Exec (ChunkAccounting * ChunkAccounting) :=
  let! directory := account_rows (directory_row_bytes <$> delta_directory cells) in
  let! ledger := account_rows (ledger_row_bytes <$> delta_ledger cells) in
  Ret (directory, ledger).

(** strom-storage-engine/src/checkpoint/prepare.rs:118-132, [can_append_delta]. *)
Definition can_append_delta (source : Seal) (delta : ForestDelta) : Exec bool :=
  let! (directory, ledger) := account_cells delta in
  select_delta source directory ledger.

(** strom-storage-engine/src/checkpoint/prepare.rs:93-116, [plan_checkpoint]. *)
Definition plan_checkpoint (source : Seal) (snapshot : Forest) (delta : ForestDelta) :
    Exec (ForestDelta * option Seal) :=
  let! append := can_append_delta source delta in
  if append then Ret (delta, Some source)
  else
    let cells := checkpoint_cells snapshot in
    let! (directory, ledger) := account_cells cells in
    let! _ := assert_full_plan directory ledger in
    Ret (cells, None).

(** strom-storage-engine/src/checkpoint/prepare.rs:309-322, [next_table_key]. *)
Definition next_table_key (generation : SealGeneration) (attempt : AttemptId) (ordinal : Z)
    (store_kind : StoreKind) : Exec (Z * TableKey) :=
  let! next := expect (u32_checked_add ordinal 1) in
  let! fresh := expect_ok (FreshIdentity_new generation attempt ordinal) in
  Ret (next, mk_table_key (mk_table_object fresh store_kind)).

(** strom-storage-engine/src/checkpoint/prepare.rs:324-347, [build_manifest]. *)
Definition build_manifest (carried : option TreeVersion) (tables : list TableRef) : Exec TreeVersion :=
  let! fresh :=
    match tables with
    | [] => Ret None
    | _ => let! run := expect_ok (SortedRun_try_from tables) in Ret (Some run)
    end in
  let! runs :=
    match carried, fresh with
    | Some carried, Some fresh =>
        let! _ := expect (u64_checked_add (zlen (tree_runs carried)) 1) in
        Ret (fresh :: tree_runs carried)
    | Some carried, None => Ret (tree_runs carried)
    | None, Some fresh => Ret [fresh]
    | None, None => Ret []
    end in
  expect_ok (TreeVersion_try_from runs).

Section prepare.
  Context {HP : Heap} {RL : RowLayout} {RS : Rkyv ArchivedSeal}.
  Context {RD : Rkyv (SstArchive ArchivedDirectoryRow)} {RG : Rkyv (SstArchive ArchivedLedgerRow)}.
  Context {DD : MapDiff StreamPath DirectoryEntry} {DL : MapDiff StreamUid StreamRecord}.

(** The pipeline behind [emit]: whether it takes the table, given those it was handed
    before. *)
Definition Pipeline : Type := list EncodedTable → EncodedTable → bool.

(** What a tree builder carries: the next ordinal, the tables handed to the pipeline,
    and the references of this tree. *)
Record TreeBuild : Type := mk_build {
  build_ordinal : Z;
  build_sent : list EncodedTable;
  build_references : list TableRef
}.

(** strom-storage-engine/src/checkpoint/prepare.rs:221-236, [build_directory_tree (emit)]. *)
Definition emit_directory (emit : Pipeline) (partition : PartitionId) (generation : SealGeneration)
    (attempt : AttemptId) (b : TreeBuild) (rows : list (StreamPath * DirectoryEntry)) (estimate : Z) :
    Exec (TreeBuild * bool) :=
  let! (ordinal, key) := next_table_key generation attempt (build_ordinal b) Directory in
  let! encoded := encode_directory partition key rows in
  let! encoded := expect_ok encoded in
  assert! (object_bytes (table_ref encoded) <=? estimate) in
  Ret (mk_build ordinal (build_sent b ++ [encoded]) (build_references b ++ [table_ref encoded]),
       emit (build_sent b) encoded).

(** strom-storage-engine/src/checkpoint/prepare.rs:249-264, [build_ledger_tree (emit)]. *)
Definition emit_ledger (emit : Pipeline) (partition : PartitionId) (generation : SealGeneration)
    (attempt : AttemptId) (b : TreeBuild) (rows : list (StreamUid * LedgerCell)) (estimate : Z) :
    Exec (TreeBuild * bool) :=
  let! (ordinal, key) := next_table_key generation attempt (build_ordinal b) Ledger in
  let! encoded := encode_ledger partition key rows in
  let! encoded := expect_ok encoded in
  assert! (object_bytes (table_ref encoded) <=? estimate) in
  Ret (mk_build ordinal (build_sent b ++ [encoded]) (build_references b ++ [table_ref encoded]),
       emit (build_sent b) encoded).

(** strom-storage-engine/src/checkpoint/prepare.rs:211-237, [build_directory_tree]. *)
Definition build_directory_tree (emit : Pipeline) (partition : PartitionId)
    (generation : SealGeneration) (attempt : AttemptId) (ordinal : Z) (sent : list EncodedTable)
    (rows : list (StreamPath * DirectoryEntry)) (carried : option TreeVersion) :
    Exec (Z * list EncodedTable * option TreeVersion) :=
  let! (b, complete) :=
    for_each_chunk directory_row_bytes (emit_directory emit partition generation attempt)
      rows [] SST_ARCHIVE_FIXED_BYTES_MAX (mk_build ordinal sent []) in
  if complete : bool then
    let! tree := build_manifest carried (build_references b) in
    Ret (build_ordinal b, build_sent b, Some tree)
  else Ret (build_ordinal b, build_sent b, None).

(** strom-storage-engine/src/checkpoint/prepare.rs:239-265, [build_ledger_tree]. *)
Definition build_ledger_tree (emit : Pipeline) (partition : PartitionId)
    (generation : SealGeneration) (attempt : AttemptId) (ordinal : Z) (sent : list EncodedTable)
    (rows : list (StreamUid * LedgerCell)) (carried : option TreeVersion) :
    Exec (Z * list EncodedTable * option TreeVersion) :=
  let! (b, complete) :=
    for_each_chunk ledger_row_bytes (emit_ledger emit partition generation attempt)
      rows [] SST_ARCHIVE_FIXED_BYTES_MAX (mk_build ordinal sent []) in
  if complete : bool then
    let! tree := build_manifest carried (build_references b) in
    Ret (build_ordinal b, build_sent b, Some tree)
  else Ret (build_ordinal b, build_sent b, None).

(** strom-storage-engine/src/checkpoint/prepare.rs:349-368, [assemble_checkpoint_seal]. *)
Definition assemble_checkpoint_seal (partition : PartitionId) (generation : SealGeneration)
    (cut : BatchId) (owner : OwnerToken) (directory ledger : TreeVersion) :
    Exec (Seal * EncodedAuthoritySeal) :=
  let! successor :=
    expect_ok (Seal_new partition generation (Through cut owner) directory ledger) in
  let! encoded := EncodedAuthoritySeal_try_from successor in
  let! encoded := expect_ok encoded in
  Ret (successor, encoded).

(** The tables handed to the pipeline, and the prepared checkpoint unless the pipeline
    hung up.
    strom-storage-engine/src/checkpoint/prepare.rs:33-91, [prepare_checkpoint]. *)
Definition prepare_checkpoint (emit : Pipeline) (input : CheckpointInput) :
    Exec (list EncodedTable * Result CoordinateExhaustedError (option PreparedCheckpoint)) :=
  let ticket := input_ticket input in
  let source := input_source input in
  let attempt := ticket_attempt ticket in
  let partition := seal_partition source in
  match successor (seal_generation source) with
  | Err error => Ret ([], Err error)
  | Ok generation =>
      let! delta := delta_since (input_snapshot input) (input_base input) in
      let! (cells, carried) := plan_checkpoint source (input_snapshot input) delta in
      let! (ordinal, sent, directory) :=
        build_directory_tree emit partition generation attempt 0 [] (delta_directory cells)
          (seal_directory <$> carried) in
      match directory with
      | None => Ret (sent, Ok None)
      | Some directory =>
          let! (ordinal, sent, ledger) :=
            build_ledger_tree emit partition generation attempt ordinal sent (delta_ledger cells)
              (seal_ledger <$> carried) in
          match ledger with
          | None => Ret (sent, Ok None)
          | Some ledger =>
              let! (next, encoded_seal) :=
                assemble_checkpoint_seal partition generation (ticket_cut ticket)
                  {| Coordinates.generation := owner_claim attempt |} directory ledger in
              let! prepared :=
                PreparedCheckpoint_new ticket source next (input_snapshot input) encoded_seal in
              Ret (sent, Ok (Some prepared))
          end
      end
  end.

End prepare.
