(* ===== verification/CheckpointTheory.v ===== *)
(** Lemmas of checkpoint preparation.

    The chunking loop against its reference definition, the accounting it drives, the
    legality of the tables and the manifest it builds, and the bounds under which a full
    plan of any legal forest fits one Seal.  [SstSizeLaw] and [SealSizeLaw] state the
    encoded sizes the bounds of [bounds.rs] are chosen for. *)

From S2P Require Import Prelude OrdMap Text Domain Coordinates Partition Seal Wal Forest.
From S2P Require Import ForestTheory Archive Spelling Sst Writer WriterSafety WriterSystem.
From S2P Require Import Bootstrap BootstrapSafety ObjectStore Stores StoreTheory Checkpoint.

(** * Chunking *)

Section chunks.
  Context {Row : Type} (row_bytes : Row → Z).

Definition rows_bytes (rows : list Row) : Z := foldr (λ row n, row_bytes row + n) 0 rows.

Lemma rows_bytes_app a b : rows_bytes (a ++ b) = rows_bytes a + rows_bytes b.
Proof. induction a as [|x a IH]; simpl; lia. Qed.

(** The reference: fill a table until the next row would pass the target. *)
Fixpoint chunks (rows chunk : list Row) : list (list Row) :=
  match rows with
  | [] => match chunk with [] => [] | _ => [chunk] end
  | row :: rows =>
      if match chunk with
         | [] => false
         | _ => SST_TABLE_TARGET_BYTES <?
                SST_ARCHIVE_FIXED_BYTES_MAX + rows_bytes chunk + row_bytes row
         end
      then chunk :: chunks rows [row]
      else chunks rows (chunk ++ [row])
  end.

Definition chunk_bytes (chunk : list Row) : Z := SST_ARCHIVE_FIXED_BYTES_MAX + rows_bytes chunk.

(** Hand the tables over one by one, until one is refused. *)
Fixpoint emit_all {S} (emit : S → list Row → Z → Exec (S * bool)) (l : list (list Row)) (s : S) :
    Exec (S * bool) :=
  match l with
  | [] => Ret (s, true)
  | chunk :: l =>
      let! (s, accepted) := emit s chunk (chunk_bytes chunk) in
      if accepted : bool then emit_all emit l s else Ret (s, false)
  end.

(** One row and the framing fit the target. *)
Definition row_fits (row : Row) : Prop :=
  0 ≤ row_bytes row ∧ SST_ARCHIVE_FIXED_BYTES_MAX + row_bytes row ≤ SST_TABLE_TARGET_BYTES.

Lemma rows_bytes_nonneg rows : Forall row_fits rows → 0 ≤ rows_bytes rows.
Proof. induction 1 as [|x l [Hx _] _ IH]; simpl; lia. Qed.

Lemma for_each_chunk_eq {S} (emit : S → list Row → Z → Exec (S * bool)) rows chunk s :
  Forall row_fits rows → Forall row_fits chunk → chunk_bytes chunk ≤ SST_TABLE_TARGET_BYTES →
  for_each_chunk row_bytes emit rows chunk (chunk_bytes chunk) s = emit_all emit (chunks rows chunk) s.
Proof.
  intros Hrows. revert chunk s. induction Hrows as [|row rows [Hr Hfit] Hrows IH];
    intros chunk s Hc Hb; cbn [for_each_chunk chunks].
  - destruct chunk as [|x chunk]; [done|]. cbn [emit_all].
    destruct (emit s (x :: chunk) _) as [[s' []]|]; done.
  - pose proof (rows_bytes_nonneg _ Hc). unfold u64_checked_add, chunk_bytes in *.
    assert (SST_TABLE_TARGET_BYTES * 2 ≤ u64_max ∧ 0 ≤ SST_TABLE_TARGET_BYTES ∧
      0 ≤ SST_ARCHIVE_FIXED_BYTES_MAX) as (Ht & Ht0 & Hf0) by (by vm_compute).
    rewrite !decide_True by lia. rewrite (proj2 (Z.leb_le _ _)) by lia. cbn [expect exec_bind].
    destruct (match chunk with [] => false | _ => _ end) eqn:Hover.
    + cbn [emit_all]. destruct chunk as [|x chunk]; [done|].
      destruct (emit s (x :: chunk) _) as [[s' []]|]; [|done|done]. cbn [exec_bind].
      replace (SST_ARCHIVE_FIXED_BYTES_MAX + row_bytes row)
        with (SST_ARCHIVE_FIXED_BYTES_MAX + rows_bytes [row]) by (simpl; lia).
      apply IH; [by apply Forall_singleton|simpl; lia].
    + replace (SST_ARCHIVE_FIXED_BYTES_MAX + rows_bytes chunk + row_bytes row)
        with (SST_ARCHIVE_FIXED_BYTES_MAX + rows_bytes (chunk ++ [row]))
        by (rewrite rows_bytes_app; simpl; lia).
      apply IH; [apply Forall_app; split; [done|by apply Forall_singleton]|].
      rewrite rows_bytes_app. cbn [rows_bytes foldr].
      destruct chunk as [|x chunk]; [simpl; lia|]. apply Z.ltb_ge in Hover. lia.
Qed.

(** The tables hold the rows, in order, and none is empty or over the target. *)
Lemma chunks_concat rows chunk : concat (chunks rows chunk) = chunk ++ rows.
Proof.
  revert chunk. induction rows as [|row rows IH]; intros chunk; cbn [chunks].
  - destruct chunk; simpl; by rewrite ?(right_id_L [] (++)).
  - destruct (match chunk with [] => false | _ => _ end); [cbn [concat]|]; rewrite IH.
    + done.
    + by rewrite <- (assoc_L (++)).
Qed.

Lemma chunks_elem rows chunk c x : c ∈ chunks rows chunk → x ∈ c → x ∈ chunk ++ rows.
Proof.
  rewrite <- chunks_concat, !list_elem_of_In, in_concat. intros Hc Hx. eauto.
Qed.

Lemma chunks_ok rows chunk :
  Forall row_fits rows → Forall row_fits chunk → chunk_bytes chunk ≤ SST_TABLE_TARGET_BYTES →
  Forall (λ c, c ≠ [] ∧ chunk_bytes c ≤ SST_TABLE_TARGET_BYTES) (chunks rows chunk).
Proof.
  intros Hrows. revert chunk. induction Hrows as [|row rows [Hr Hfit] Hrows IH];
    intros chunk Hc Hb; cbn [chunks].
  - destruct chunk; [constructor|]. by apply Forall_singleton.
  - unfold chunk_bytes in *. destruct (match chunk with [] => false | _ => _ end) eqn:Hover.
    + constructor; [by destruct chunk|]. apply IH; [by apply Forall_singleton|simpl; lia].
    + apply IH; [apply Forall_app; split; [done|by apply Forall_singleton]|].
      rewrite rows_bytes_app. cbn [rows_bytes foldr].
      destruct chunk as [|x chunk]; [simpl; lia|]. apply Z.ltb_ge in Hover. lia.
Qed.

(** All tables but one are nearly full. *)
Lemma chunks_count rows chunk row_max :
  Forall (λ row, row_fits row ∧ row_bytes row ≤ row_max) (chunk ++ rows) →
  row_max ≤ SST_TABLE_TARGET_BYTES - SST_ARCHIVE_FIXED_BYTES_MAX →
  (zlen (chunks rows chunk) - 1)
    * (SST_TABLE_TARGET_BYTES - SST_ARCHIVE_FIXED_BYTES_MAX - row_max + 1)
  ≤ rows_bytes (chunk ++ rows).
Proof.
  intros Hall Hmax. revert chunk Hall. induction rows as [|row rows IH]; intros chunk Hall; cbn [chunks].
  - assert (0 ≤ rows_bytes (chunk ++ [])) by (apply rows_bytes_nonneg; eapply Forall_impl;
      [exact Hall|]; by intros ? [? _]).
    destruct chunk; unfold zlen; simpl in *; nia.
  - pose proof Hall as Hall'.
    apply Forall_app in Hall' as [Hc [[[Hr _] Hrm] Hrows]%Forall_cons].
    destruct (match chunk with [] => false | _ => _ end) eqn:Hover.
    + destruct chunk as [|x chunk]; [done|]. apply Z.ltb_lt in Hover.
      assert (Forall (λ row, row_fits row ∧ row_bytes row ≤ row_max) ([row] ++ rows)) as Hnext
        by (by apply Forall_app in Hall as [_ Hall]).
      specialize (IH [row] Hnext). unfold zlen in *. cbn [length]. rewrite rows_bytes_app.
      change (row :: rows) with ([row] ++ rows). nia.
    + specialize (IH (chunk ++ [row])). rewrite <- (assoc_L (++)) in IH. by apply IH.
Qed.

Lemma chunks_length rows chunk : zlen (chunks rows chunk) ≤ zlen chunk + zlen rows.
Proof.
  revert chunk. unfold zlen. induction rows as [|row rows IH]; intros chunk; cbn [chunks].
  - destruct chunk; simpl; lia.
  - destruct (match chunk with [] => false | _ => _ end) eqn:Hover.
    + specialize (IH [row]). destruct chunk; [done|]. cbn [length] in *. lia.
    + specialize (IH (chunk ++ [row])). rewrite length_app in IH. simpl in *. lia.
Qed.

End chunks.

(** The plan of a list of rows: the tables it is cut into. *)
Definition plan {Row} (row_bytes : Row → Z) (rows : list Row) : list (list Row) :=
  chunks row_bytes rows [].

(** The size of the tables does not depend on the rows beyond their bytes. *)
Lemma rows_bytes_fmap {Row} (row_bytes : Row → Z) (l : list Row) :
  rows_bytes id (row_bytes <$> l) = rows_bytes row_bytes l.
Proof.
  induction l as [|x l IH]; [done|].
  change (row_bytes x + rows_bytes id (row_bytes <$> l) = row_bytes x + rows_bytes row_bytes l). lia.
Qed.

Lemma chunks_fmap {Row} (row_bytes : Row → Z) (rows chunk : list Row) :
  chunks id (row_bytes <$> rows) (row_bytes <$> chunk) =
  (λ c : list Row, row_bytes <$> c) <$> chunks row_bytes rows chunk.
Proof.
  revert chunk. induction rows as [|row rows IH]; intros chunk; csimpl; cbn [chunks].
  - by destruct chunk.
  - rewrite rows_bytes_fmap. change (id (row_bytes row)) with (row_bytes row).
    destruct chunk as [|x chunk]; csimpl; [apply (IH [row])|].
    destruct (_ <? _); csimpl; [f_equal; apply (IH [row])|].
    rewrite <- (IH (x :: chunk ++ [row])). csimpl. by rewrite fmap_app.
Qed.

(** * Accounting *)

(** The tables of a plan, and their estimated bytes. *)
Definition planned_accounting {Row} (row_bytes : Row → Z) (rows : list Row) : ChunkAccounting :=
  mk_accounting (zlen (plan row_bytes rows))
    (zlen (plan row_bytes rows) * SST_ARCHIVE_FIXED_BYTES_MAX + rows_bytes row_bytes rows).

Lemma account_emit_all (l : list (list Z)) t b :
  0 ≤ t → 0 ≤ b → Forall (λ c, 0 ≤ chunk_bytes id c ≤ SST_TABLE_TARGET_BYTES) l →
  t + zlen l ≤ u64_max → b + zlen l * SST_TABLE_TARGET_BYTES ≤ u64_max →
  emit_all id account_chunk l (mk_accounting t b) =
  Ret (mk_accounting (t + zlen l)
         (b + zlen l * SST_ARCHIVE_FIXED_BYTES_MAX + rows_bytes id (concat l)), true).
Proof.
  unfold zlen. intros Ht Hb Hl. revert t b Ht Hb. induction Hl as [|c l Hc Hl IH];
    intros t b Ht Hb Hn Hm; cbn [emit_all concat length].
  - do 3 f_equal; simpl; lia.
  - cbn [length] in *. assert (0 ≤ SST_TABLE_TARGET_BYTES) by (by vm_compute).
    unfold account_chunk at 1. cbn [acc_tables acc_bytes]. unfold u64_checked_add.
    rewrite !decide_True by nia. cbn [expect exec_bind]. rewrite IH by nia.
    rewrite rows_bytes_app. unfold chunk_bytes. do 3 f_equal; lia.
Qed.

Lemma account_rows_Ret {Row} (row_bytes : Row → Z) (rows : list Row) :
  Forall (row_fits row_bytes) rows → zlen rows ≤ 2 ^ 32 →
  account_rows (row_bytes <$> rows) = Ret (planned_accounting row_bytes rows).
Proof.
  intros Hrows Hn. unfold account_rows. assert (Forall (row_fits id) (row_bytes <$> rows)) as Hf.
  { apply Forall_fmap. by eapply Forall_impl. }
  replace SST_ARCHIVE_FIXED_BYTES_MAX with (chunk_bytes id (@nil Z)) by done.
  rewrite for_each_chunk_eq by (done || constructor).
  pose proof (chunks_ok id (row_bytes <$> rows) [] Hf (Forall_nil_2 _)) as Hok.
  change (chunks id (row_bytes <$> rows) []) with (chunks id (row_bytes <$> rows) (row_bytes <$> []))
    in *. rewrite chunks_fmap in *.
  pose proof (chunks_length row_bytes rows []) as Hlen. change (zlen (@nil Row)) with 0 in Hlen.
  rewrite account_emit_all.
  - cbn [exec_bind]. unfold planned_accounting, plan. f_equal. unfold zlen. rewrite length_fmap.
    f_equal. rewrite <- (rows_bytes_fmap row_bytes rows), <- (chunks_fmap row_bytes rows []).
    rewrite chunks_concat. done.
  - done.
  - done.
  - specialize (Hok ltac:(by vm_compute)).
    apply Forall_forall. intros c Hc. rewrite Forall_forall in Hok. split; [|by apply Hok].
    unfold chunk_bytes. apply list_elem_of_fmap in Hc as (c' & -> & Hc'). rewrite rows_bytes_fmap.
    assert (Forall (row_fits row_bytes) c') as Hfc.
    { apply Forall_forall. intros x Hx. rewrite Forall_forall in Hrows. apply Hrows.
      by apply (chunks_elem row_bytes rows [] c'). }
    pose proof (rows_bytes_nonneg _ _ Hfc). unfold SST_ARCHIVE_FIXED_BYTES_MAX. lia.
  - unfold zlen in *. rewrite length_fmap. unfold u64_max. lia.
  - unfold zlen in *. rewrite length_fmap. unfold u64_max, SST_TABLE_TARGET_BYTES. nia.
Qed.

Lemma directory_row_fits row : row_fits directory_row_bytes row.
Proof. split; by vm_compute. Qed.

Lemma ledger_row_fits row : row_fits ledger_row_bytes row.
Proof. unfold row_fits, ledger_row_bytes. destruct (row.2); split; by vm_compute. Qed.

(** * Tables *)

(** The size bounds of [bounds.rs], as what they say of [rkyv]: an encoded table is at
    most its framing and the worst cases of its rows, and a row's archived size is
    within its worst case. *)
Class SstSizeLaw `{RowLayout} `{Rkyv (SstArchive ArchivedDirectoryRow)}
    `{Rkyv (SstArchive ArchivedLedgerRow)} : Prop := {
  directory_sst_size : ∀ partition fresh (rows : list (StreamPath * DirectoryEntry)),
    zlen (rkyv_bytes (mk_sst partition fresh (archive_directory_row <$> rows)))
    ≤ chunk_bytes directory_row_bytes rows;
  ledger_sst_size : ∀ partition fresh (rows : list (StreamUid * LedgerCell)),
    zlen (rkyv_bytes (mk_sst partition fresh (archive_ledger_row <$> rows)))
    ≤ chunk_bytes ledger_row_bytes rows;
  directory_row_size_max : 0 ≤ directory_row_size ≤ DIRECTORY_ROW_ENCODED_BYTES_MAX;
  ledger_row_size_max : 0 ≤ ledger_row_size ≤ LEDGER_DELETE_ROW_ENCODED_BYTES_MAX
}.

(** A Seal of at most the bootstrap object bound encodes within the Seal byte bound. *)
Class SealSizeLaw `{Rkyv ArchivedSeal} : Prop :=
  seal_size : ∀ seal : Seal, zlen (seal_tables seal) ≤ PARTITION_BOOTSTRAP_OBJECTS_MAX_V2 →
    zlen (rkyv_bytes (archive_seal seal)) ≤ SEAL_ENCODED_BYTES_MAX.

(** A table of this attempt, at an ordinal. *)
Record fresh_table (generation : SealGeneration) (attempt : AttemptId) (kind : StoreKind) (n : Z)
    (t : EncodedTable) : Prop := {
  fresh_object : table_object (table_ref t) = key_object (table_key t);
  fresh_store : store (key_object (table_key t)) = kind;
  fresh_fields : content (fresh (key_object (table_key t))) = mk_fresh generation attempt n;
  fresh_bytes : candidate_bytes_ok (table_bytes t) SST_OBJECT_BYTES_MAX = true
}.

Lemma rows_bytes_lower {Row} (row_bytes : Row → Z) (rows : list Row) n :
  Forall (λ row, n ≤ row_bytes row) rows → zlen rows * n ≤ rows_bytes row_bytes rows.
Proof.
  unfold zlen. induction 1 as [|x l Hx _ IH]; [done|].
  change (rows_bytes row_bytes (x :: l)) with (row_bytes x + rows_bytes row_bytes l).
  cbn [length]. rewrite Nat2Z.inj_succ, Z.mul_succ_l. lia.
Qed.

Lemma rows_bytes_upper {Row} (row_bytes : Row → Z) (rows : list Row) n :
  Forall (λ row, row_bytes row ≤ n) rows → rows_bytes row_bytes rows ≤ zlen rows * n.
Proof.
  unfold zlen. induction 1 as [|x l Hx _ IH]; [done|].
  change (rows_bytes row_bytes (x :: l)) with (row_bytes x + rows_bytes row_bytes l).
  cbn [length]. rewrite Nat2Z.inj_succ, Z.mul_succ_l. lia.
Qed.

Lemma check_encode_rows_fits size n per :
  0 ≤ n → 0 ≤ size ≤ per → 64 ≤ per → n * per ≤ SST_TABLE_TARGET_BYTES →
  check_encode_rows size n = Ok tt.
Proof.
  intros Hn Hs Hp Hle. unfold check_encode_rows, u64_saturating_mul.
  assert (n * 64 ≤ SST_TABLE_TARGET_BYTES ∧ n * size ≤ SST_TABLE_TARGET_BYTES) as [H1 H2] by nia.
  unfold SST_TABLE_TARGET_BYTES in *.
  rewrite (proj2 (Z.ltb_ge _ _)) by (unfold_bounds; lia).
  rewrite (proj2 (Z.ltb_ge _ _)) by (unfold_bounds; lia). done.
Qed.

Section tables.
  Context {HP : Heap} {HL : HeapLaws} {RL : RowLayout}.
  Context {RD : Rkyv (SstArchive ArchivedDirectoryRow)} {LD : RkyvLaws (SstArchive ArchivedDirectoryRow)}.
  Context {RG : Rkyv (SstArchive ArchivedLedgerRow)} {LG : RkyvLaws (SstArchive ArchivedLedgerRow)}.
  Context {SZ : SstSizeLaw}.

Lemma encode_directory_sst_fits partition key (rows : list (StreamPath * DirectoryEntry)) :
  store (key_object key) = Directory → rows_ok rows →
  chunk_bytes directory_row_bytes rows ≤ SST_TABLE_TARGET_BYTES →
  ∃ bytes, encode_directory_sst partition key rows = Ok bytes ∧
    zlen bytes ≤ chunk_bytes directory_row_bytes rows.
Proof using HL SZ.
  intros Hs [Hne Hsort] Hb. unfold encode_directory_sst. rewrite bool_decide_eq_true_2 by done.
  cbn [negb]. rewrite bool_decide_eq_false_2 by done.
  pose proof directory_row_size_max. pose proof (rows_bytes_lower directory_row_bytes rows
    DIRECTORY_ROW_ENCODED_BYTES_MAX) as Hlow.
  unfold chunk_bytes in Hb. assert (0 ≤ SST_ARCHIVE_FIXED_BYTES_MAX) by (by vm_compute).
  rewrite (check_encode_rows_fits _ _ DIRECTORY_ROW_ENCODED_BYTES_MAX);
    [|unfold zlen; lia|done|by vm_compute|].
  2: { etrans; [apply Hlow|lia]. by apply Forall_forall. }
  cbn [result_bind]. rewrite (proj2 (check_ordered_Ok None rows)) by (by split). cbn [result_bind].
  pose proof (directory_sst_size (content partition) (archive_fresh (fresh (key_object key))) rows).
  assert (SST_TABLE_TARGET_BYTES ≤ SST_OBJECT_BYTES_MAX) by (by vm_compute).
  unfold chunk_bytes in *.
  rewrite encode_ok by (unfold SST_OBJECT_BYTES_MAX, u64_max in *; lia). by eexists.
Qed.

Lemma encode_ledger_sst_fits partition key (rows : list (StreamUid * LedgerCell)) :
  store (key_object key) = Ledger → rows_ok rows →
  chunk_bytes ledger_row_bytes rows ≤ SST_TABLE_TARGET_BYTES →
  ∃ bytes, encode_ledger_sst partition key rows = Ok bytes ∧
    zlen bytes ≤ chunk_bytes ledger_row_bytes rows.
Proof using HL SZ.
  intros Hs [Hne Hsort] Hb. unfold encode_ledger_sst. rewrite bool_decide_eq_true_2 by done.
  cbn [negb]. rewrite bool_decide_eq_false_2 by done.
  pose proof ledger_row_size_max. pose proof (rows_bytes_lower ledger_row_bytes rows
    LEDGER_DELETE_ROW_ENCODED_BYTES_MAX) as Hlow.
  unfold chunk_bytes in Hb. assert (0 ≤ SST_ARCHIVE_FIXED_BYTES_MAX) by (by vm_compute).
  rewrite (check_encode_rows_fits _ _ LEDGER_DELETE_ROW_ENCODED_BYTES_MAX);
    [|unfold zlen; lia|done|by vm_compute|].
  2: { etrans; [apply Hlow|lia]. apply Forall_forall. intros [u []] _; by vm_compute. }
  cbn [result_bind]. rewrite (proj2 (check_ordered_Ok None rows)) by (by split). cbn [result_bind].
  pose proof (ledger_sst_size (content partition) (archive_fresh (fresh (key_object key))) rows).
  assert (SST_TABLE_TARGET_BYTES ≤ SST_OBJECT_BYTES_MAX) by (by vm_compute).
  unfold chunk_bytes in *.
  rewrite encode_ok by (unfold SST_OBJECT_BYTES_MAX, u64_max in *; lia). by eexists.
Qed.

Lemma next_table_key_Ret generation attempt n kind :
  coord_get (owner_claim attempt) < coord_get generation → 0 ≤ n < u32_max →
  ∃ key, next_table_key generation attempt n kind = Ret (n + 1, key) ∧
    store (key_object key) = kind ∧ content (fresh (key_object key)) = mk_fresh generation attempt n.
Proof.
  intros Hg Hn. unfold next_table_key, u32_checked_add. rewrite decide_True by lia.
  cbn [expect exec_bind]. unfold FreshIdentity_new.
  destruct (checked_total fresh_check (mk_fresh generation attempt n)) as (f & -> & Hf).
  { unfold accepts, fresh_check. cbn [fresh_birth_generation fresh_attempt].
    unfold coord_leb. by rewrite (proj2 (Z.leb_gt _ _)). }
  cbn [expect_ok exec_bind]. by eexists.
Qed.

Lemma EncodedTable_bytes key bytes t :
  EncodedTable_from_encoded key bytes = Ret t →
  table_bytes t = bytes ∧ candidate_bytes_ok bytes SST_OBJECT_BYTES_MAX = true.
Proof.
  unfold EncodedTable_from_encoded. destruct (candidate_bytes_ok bytes _) eqn:Hb; [|done].
  destruct (NonZeroU64_new _); cbn [expect exec_bind]; [|done].
  destruct (TableRef_new _ _); cbn [expect_ok exec_bind]; [|done]. by intros [= <-].
Qed.

(** The table an emit makes of a chunk of rows. *)
Definition directory_made (partition : PartitionId) (generation : SealGeneration) (attempt : AttemptId)
    (n : Z) (rows : list (StreamPath * DirectoryEntry)) (t : EncodedTable) : Prop :=
  fresh_table generation attempt Directory n t ∧
  encode_directory partition (table_key t) rows = Ret (Ok t).

Definition ledger_made (partition : PartitionId) (generation : SealGeneration) (attempt : AttemptId)
    (n : Z) (rows : list (StreamUid * LedgerCell)) (t : EncodedTable) : Prop :=
  fresh_table generation attempt Ledger n t ∧ encode_ledger partition (table_key t) rows = Ret (Ok t).

Lemma emit_directory_Ret emit partition generation attempt b rows :
  coord_get (owner_claim attempt) < coord_get generation → 0 ≤ build_ordinal b < u32_max →
  rows_ok rows → chunk_bytes directory_row_bytes rows ≤ SST_TABLE_TARGET_BYTES →
  ∃ t, emit_directory emit partition generation attempt b rows (chunk_bytes directory_row_bytes rows) =
      Ret (mk_build (build_ordinal b + 1) (build_sent b ++ [t]) (build_references b ++ [table_ref t]),
           emit (build_sent b) t) ∧
    directory_made partition generation attempt (build_ordinal b) rows t.
Proof using HL LD SZ.
  intros Hg Hn Hrows Hb. unfold emit_directory.
  destruct (next_table_key_Ret generation attempt (build_ordinal b) Directory Hg Hn)
    as (key & -> & Hs & Hf). cbn [exec_bind].
  destruct (encode_directory_sst_fits partition key rows Hs Hrows Hb) as (bytes & He & Hlen).
  pose proof (encode_directory_Ret partition key rows) as Hr. rewrite He in Hr.
  destruct Hr as (t & Ht & Hk & Hbytes & Ho & Hob). rewrite Ht. cbn [expect_ok exec_bind].
  rewrite (proj2 (Z.leb_le _ _)) by lia. exists t. split; [done|].
  split; [|by rewrite Hk]. split; [by rewrite Hk|by rewrite Hk|by rewrite Hk|].
  unfold encode_directory in Ht. rewrite He in Ht. cbn [try_bind] in Ht.
  destruct (EncodedTable_from_encoded key bytes) as [t'|] eqn:Hfe; [|done].
  injection Ht as ->. apply EncodedTable_bytes in Hfe as [-> ?]. done.
Qed.

Lemma emit_ledger_Ret emit partition generation attempt b rows :
  coord_get (owner_claim attempt) < coord_get generation → 0 ≤ build_ordinal b < u32_max →
  rows_ok rows → chunk_bytes ledger_row_bytes rows ≤ SST_TABLE_TARGET_BYTES →
  ∃ t, emit_ledger emit partition generation attempt b rows (chunk_bytes ledger_row_bytes rows) =
      Ret (mk_build (build_ordinal b + 1) (build_sent b ++ [t]) (build_references b ++ [table_ref t]),
           emit (build_sent b) t) ∧
    ledger_made partition generation attempt (build_ordinal b) rows t.
Proof using HL LG SZ.
  intros Hg Hn Hrows Hb. unfold emit_ledger.
  destruct (next_table_key_Ret generation attempt (build_ordinal b) Ledger Hg Hn)
    as (key & -> & Hs & Hf). cbn [exec_bind].
  destruct (encode_ledger_sst_fits partition key rows Hs Hrows Hb) as (bytes & He & Hlen).
  pose proof (encode_ledger_Ret partition key rows) as Hr. rewrite He in Hr.
  destruct Hr as (t & Ht & Hk & Hbytes & Ho & Hob). rewrite Ht. cbn [expect_ok exec_bind].
  rewrite (proj2 (Z.leb_le _ _)) by lia. exists t. split; [done|].
  split; [|by rewrite Hk]. split; [by rewrite Hk|by rewrite Hk|by rewrite Hk|].
  unfold encode_ledger in Ht. rewrite He in Ht. cbn [try_bind] in Ht.
  destruct (EncodedTable_from_encoded key bytes) as [t'|] eqn:Hfe; [|done].
  injection Ht as ->. apply EncodedTable_bytes in Hfe as [-> ?]. done.
Qed.

End tables.

(** * Trees *)

(** The tables made of a plan, at consecutive ordinals. *)
Fixpoint made_all {Row} (made : Z → list Row → EncodedTable → Prop) (n : Z) (l : list (list Row))
    (tables : list EncodedTable) : Prop :=
  match l, tables with
  | [], [] => True
  | rows :: l, t :: tables => made n rows t ∧ made_all made (n + 1) l tables
  | _, _ => False
  end.

Lemma made_all_length {Row} (made : Z → list Row → EncodedTable → Prop) n l tables :
  made_all made n l tables → length tables = length l.
Proof.
  revert n tables. induction l as [|rows l IH]; intros n [|t tables]; simpl; try done.
  intros [_ H]. f_equal. by eapply IH.
Qed.

Section trees.
  Context {Row : Type} (row_bytes : Row → Z) (accept : Pipeline).
  Context (emit_one : TreeBuild → list Row → Z → Exec (TreeBuild * bool)).
  Context (made : Z → list Row → EncodedTable → Prop) (legal : list Row → Prop).
  Context (emit_one_Ret : ∀ b rows, 0 ≤ build_ordinal b < u32_max → legal rows →
    chunk_bytes row_bytes rows ≤ SST_TABLE_TARGET_BYTES →
    ∃ t, emit_one b rows (chunk_bytes row_bytes rows) =
        Ret (mk_build (build_ordinal b + 1) (build_sent b ++ [t]) (build_references b ++ [table_ref t]),
             accept (build_sent b) t) ∧
      made (build_ordinal b) rows t).

Lemma emit_all_Ret l b :
  Forall (λ rows, legal rows ∧ chunk_bytes row_bytes rows ≤ SST_TABLE_TARGET_BYTES) l →
  0 ≤ build_ordinal b → build_ordinal b + zlen l ≤ u32_max →
  ∃ new complete, emit_all row_bytes emit_one l b =
      Ret (mk_build (build_ordinal b + zlen new) (build_sent b ++ new)
             (build_references b ++ (table_ref <$> new)), complete) ∧
    zlen new ≤ zlen l ∧ (complete = true → made_all made (build_ordinal b) l new) ∧
    ((∀ sent t, accept sent t = true) → complete = true).
Proof using emit_one_Ret.
  unfold zlen. intros Hl. revert b. induction Hl as [|rows l [Hlegal Hb] Hl IH]; intros b Hn Hm;
    cbn [emit_all].
  - exists [], true. cbn [length fmap list_fmap made_all]. destruct b as [n s r]. simpl.
    rewrite !(right_id_L [] (++)), Z.add_0_r. done.
  - cbn [length] in Hm. destruct (emit_one_Ret b rows) as (t & Ht & Hmade); [lia|done|done|].
    rewrite Ht. cbn [exec_bind]. destruct (accept (build_sent b) t) eqn:Hacc.
    + set (b1 := mk_build _ _ _). destruct (IH b1) as (new & complete & -> & Hlen & Hall & Hyes);
        [simpl; lia|simpl; lia|].
      exists (t :: new), complete. subst b1.
      cbn [build_ordinal build_sent build_references length] in *. split_and!; [|lia| |done].
      * rewrite fmap_cons, <- !(assoc_L (++)).
        replace (build_ordinal b + 1 + Z.of_nat (length new))
          with (build_ordinal b + Z.of_nat (S (length new))) by lia. done.
      * intros ->. by split; [|apply Hall].
    + exists [t], false. cbn [length fmap list_fmap]. split_and!; [done|lia|done|].
      intros Hyes. by rewrite Hyes in Hacc.
Qed.

End trees.

(** The runs of a manifest: the fresh run, when there is one, before the carried ones. *)
Definition manifest (carried : list SortedRun) (tables : list TableRef) (runs : list SortedRun) : Prop :=
  match tables with
  | [] => runs = carried
  | _ => ∃ run, run_tables run = tables ∧ runs = run :: carried
  end.

Definition carried_runs (carried : option TreeVersion) : list SortedRun :=
  from_option tree_runs [] carried.

Lemma build_manifest_Ret carried tables :
  zlen tables ≤ RUN_TABLES_MAX →
  zlen (carried_runs carried) + (if zlen tables =? 0 then 0 else 1) ≤ TREE_RUNS_MAX →
  ∃ tree, build_manifest carried tables = Ret tree ∧
    manifest (carried_runs carried) tables (tree_runs tree).
Proof.
  intros Ht Hr.
  assert (∀ runs, zlen runs ≤ TREE_RUNS_MAX →
    ∃ tree, TreeVersion_try_from runs = Ok tree ∧ tree_runs tree = runs) as Htree.
  { intros runs Hruns. apply checked_total. unfold accepts, tree_check.
    by rewrite (proj2 (Z.ltb_ge _ _)). }
  unfold build_manifest. destruct tables as [|t tables].
  - assert ((zlen (@nil TableRef) =? 0) = true) as Hz by done. rewrite Hz in Hr. cbn [exec_bind].
    destruct carried as [tree|]; cbn [carried_runs from_option] in *.
    + destruct (Htree (tree_runs tree)) as (tree' & Hx & Hruns); [lia|]. exists tree'.
      split; [cbn [exec_bind]; by rewrite Hx|done].
    + destruct (Htree []) as (tree' & Hx & Hruns); [by vm_compute|]. exists tree'.
      split; [cbn [exec_bind]; by rewrite Hx|done].
  - assert ((zlen (t :: tables) =? 0) = false) as Hz by (apply Z.eqb_neq; unfold zlen; simpl; lia).
    rewrite Hz in Hr.
    assert (∃ run, SortedRun_try_from (t :: tables) = Ok run ∧ run_tables run = t :: tables)
      as (run & -> & Hrun).
    { apply checked_total. unfold accepts, run_check. rewrite bool_decide_eq_false_2 by done.
      by rewrite (proj2 (Z.ltb_ge _ _)). }
    cbn [expect_ok exec_bind]. destruct carried as [tree|]; cbn [carried_runs from_option] in *.
    + unfold u64_checked_add. rewrite decide_True by (unfold TREE_RUNS_MAX, u64_max in *; lia).
      cbn [expect exec_bind].
      destruct (Htree (run :: tree_runs tree)) as (tree' & Hx & Hruns);
        [unfold zlen in *; cbn [length]; lia|].
      exists tree'. split; [cbn [exec_bind]; by rewrite Hx|]. rewrite Hruns. by exists run.
    + destruct (Htree [run]) as (tree' & Hx & Hruns); [by vm_compute|].
      exists tree'. split; [cbn [exec_bind]; by rewrite Hx|]. rewrite Hruns. by exists run.
Qed.

(** Consecutive pieces of a sorted list are sorted. *)
Lemma sorted_concat {K V} `{Ord K} (l : list (list (K * V))) :
  strictly_sorted (concat l) → Forall strictly_sorted l.
Proof.
  unfold strictly_sorted. induction l as [|x l IH]; cbn [concat]; [constructor|].
  rewrite fmap_app. intros Hs. constructor; [by eapply StronglySorted_app_1_l|].
  by apply IH; eapply StronglySorted_app_1_r.
Qed.

Lemma plan_legal {K V} `{Ord K} (row_bytes : K * V → Z) (rows : list (K * V)) :
  strictly_sorted rows → Forall (row_fits row_bytes) rows →
  Forall (λ c, rows_ok c ∧ chunk_bytes row_bytes c ≤ SST_TABLE_TARGET_BYTES) (plan row_bytes rows).
Proof.
  intros Hs Hf. pose proof (chunks_ok row_bytes rows [] Hf (Forall_nil_2 _) ltac:(by vm_compute)) as Hok.
  assert (Forall strictly_sorted (plan row_bytes rows)) as Hsort.
  { apply sorted_concat. unfold plan. by rewrite chunks_concat. }
  unfold plan in *. rewrite Forall_forall in *. intros c Hc. destruct (Hok c Hc) as [Hne Hb].
  split; [|done]. split; [done|]. by apply Hsort.
Qed.

(** * The plan *)

Record cells_ok (cells : ForestDelta) : Prop := {
  cells_directory : strictly_sorted (delta_directory cells);
  cells_ledger : strictly_sorted (delta_ledger cells);
  cells_directory_len : zlen (delta_directory cells) ≤ 2 ^ 32;
  cells_ledger_len : zlen (delta_ledger cells) ≤ 2 ^ 32
}.

Definition directory_plan (cells : ForestDelta) := plan directory_row_bytes (delta_directory cells).
Definition ledger_plan (cells : ForestDelta) := plan ledger_row_bytes (delta_ledger cells).

Lemma account_cells_Ret cells :
  cells_ok cells →
  account_cells cells = Ret (planned_accounting directory_row_bytes (delta_directory cells),
                             planned_accounting ledger_row_bytes (delta_ledger cells)).
Proof.
  intros C. unfold account_cells.
  rewrite (account_rows_Ret directory_row_bytes);
    [|apply Forall_forall; intros; apply directory_row_fits|apply C]. cbn [exec_bind].
  rewrite (account_rows_Ret ledger_row_bytes);
    [done|apply Forall_forall; intros; apply ledger_row_fits|apply C].
Qed.

Lemma sum_u64_Ret total l :
  Forall (λ x, 0 ≤ x ≤ SST_OBJECT_BYTES_MAX) l → 0 ≤ total →
  total + zlen l * SST_OBJECT_BYTES_MAX ≤ u64_max → ∃ n, sum_u64 total l = Ret n ∧ 0 ≤ n.
Proof.
  unfold zlen. intros Hl. revert total. induction Hl as [|x l Hx Hl IH]; intros total Ht Hm;
    cbn [sum_u64 length] in *; [eauto|].
  rewrite Nat2Z.inj_succ, Z.mul_succ_l in Hm. unfold u64_checked_add.
  assert (0 ≤ Z.of_nat (length l) * SST_OBJECT_BYTES_MAX)
    by (apply Z.mul_nonneg_nonneg; [lia|by vm_compute]).
  rewrite decide_True by lia. cbn [expect exec_bind]. apply IH; lia.
Qed.

Lemma tree_tables_length tree : zlen (tree_tables tree) ≤ TREE_RUNS_MAX * RUN_TABLES_MAX.
Proof.
  assert (zlen (tree_runs tree) ≤ TREE_RUNS_MAX) as Hruns.
  { pose proof (content_true tree) as Ht. unfold accepts, tree_check in Ht.
    destruct (_ <? _) eqn:Hlt in Ht; [done|]. by apply Z.ltb_ge in Hlt. }
  assert (zlen (tree_tables tree) ≤ zlen (tree_runs tree) * RUN_TABLES_MAX); [|unfold RUN_TABLES_MAX in *; lia].
  clear Hruns. unfold tree_tables, zlen. induction (tree_runs tree) as [|run runs IH]; [done|].
  rewrite bind_cons, length_app. cbn [length].
  assert (zlen (run_tables run) ≤ RUN_TABLES_MAX) as Hrun.
  { pose proof (content_true run) as Ht. unfold accepts, run_check in Ht.
    destruct (bool_decide _); [done|]. destruct (_ <? _) eqn:Hlt in Ht; [done|].
    by apply Z.ltb_ge in Hlt. }
  unfold zlen, RUN_TABLES_MAX in *. lia.
Qed.

Lemma table_ref_max (table : TableRef) : object_bytes table ≤ SST_OBJECT_BYTES_MAX.
Proof.
  pose proof (content_true table) as Ht. unfold accepts, table_ref_check in Ht.
  destruct (_ <? _) eqn:Hlt in Ht; [done|]. by apply Z.ltb_ge in Hlt.
Qed.

(** What a chosen plan guarantees. *)
Definition plan_bounds (source : Seal) (cells : ForestDelta) (carried : option Seal) : Prop :=
  let fresh := zlen (directory_plan cells) + zlen (ledger_plan cells) in
  match carried with
  | Some seal =>
      seal = source ∧
      zlen (tree_runs (seal_directory source))
        + (if zlen (directory_plan cells) =? 0 then 0 else 1) ≤ TREE_RUNS_MAX ∧
      zlen (tree_runs (seal_ledger source))
        + (if zlen (ledger_plan cells) =? 0 then 0 else 1) ≤ TREE_RUNS_MAX ∧
      zlen (seal_tables source) + fresh ≤ PARTITION_BOOTSTRAP_OBJECTS_MAX_V2
  | None => fresh ≤ PARTITION_BOOTSTRAP_OBJECTS_MAX_V2
  end.

Lemma select_delta_Ret source cells :
  ∃ b, select_delta source (planned_accounting directory_row_bytes (delta_directory cells))
         (planned_accounting ledger_row_bytes (delta_ledger cells)) = Ret b ∧
    (b = true → plan_bounds source cells (Some source)).
Proof.
  unfold select_delta. cbn [acc_tables acc_bytes planned_accounting].
  fold (directory_plan cells) (ledger_plan cells).
  destruct (u64_checked_add (zlen (tree_runs (seal_directory source))) _) as [dr|] eqn:Hd; [|by eexists].
  destruct (u64_checked_add (zlen (tree_runs (seal_ledger source))) _) as [lr|] eqn:Hl; [|by eexists].
  destruct (u64_checked_add (zlen (directory_plan cells)) _) as [fresh|] eqn:Hf; [|by eexists].
  destruct (sum_u64_Ret 0 (object_bytes <$> seal_tables source)) as (carried & -> & _).
  { apply Forall_fmap, Forall_forall. intros t _. simpl.
    pose proof (table_ref_bytes t). pose proof (table_ref_max t). lia. }
  { done. }
  { pose proof (tree_tables_length (seal_directory source)).
    pose proof (tree_tables_length (seal_ledger source)).
    unfold seal_tables, fields_tables, zlen in *. rewrite length_fmap, length_app.
    unfold seal_directory, seal_ledger, TREE_RUNS_MAX, RUN_TABLES_MAX, SST_OBJECT_BYTES_MAX, u64_max in *.
    lia. }
  cbn [exec_bind]. destruct (u64_checked_add (_ + _) _) as [fresh_bytes|]; [|by eexists].
  eexists. split; [reflexivity|].
  intros [[[H1%Z.leb_le H2%Z.leb_le]%andb_true_iff H3]%andb_true_iff _]%andb_true_iff.
  unfold u64_checked_add in *. repeat case_decide; simplify_eq.
  apply Z.leb_le in H3. unfold plan_bounds. split_and!; [done|lia|lia|lia].
Qed.

Lemma ledger_size_le f : forest_wf f → Z.of_nat (size (ledger f)) ≤ path_count f.
Proof.
  intros Hwf. unfold path_count. rewrite <- !om_iter_length.
  rewrite <- (length_fmap fst (om_iter (ledger f))).
  rewrite <- (length_fmap (directory_entry_uid ∘ snd) (om_iter (directory f))).
  apply inj_le, submseteq_length, NoDup_submseteq; [apply om_iter_keys_NoDup|].
  intros uid Hin%om_keys_elem%(wf_ledger f Hwf). destruct Hin as [path Hp].
  apply list_elem_of_fmap. exists (path, Live uid). split; [done|]. by apply elem_of_om_iter.
Qed.

Lemma checkpoint_cells_ok f : forest_wf f → cells_ok (checkpoint_cells f).
Proof.
  intros Hwf. pose proof (wf_capacity f Hwf) as Hcap. pose proof (ledger_size_le f Hwf) as Hl.
  unfold path_count, PARTITION_PATH_OCCUPANCIES_MAX_V2 in *. split; simpl.
  - apply om_iter_sorted.
  - unfold strictly_sorted. rewrite <- list_fmap_compose.
    erewrite list_fmap_ext; [apply om_iter_sorted|]. by intros i [].
  - unfold zlen. rewrite om_iter_length. lia.
  - unfold zlen. rewrite length_fmap, om_iter_length. lia.
Qed.

Lemma plan_count {Row} (row_bytes : Row → Z) (rows : list Row) row_max :
  Forall (λ row, row_fits row_bytes row ∧ row_bytes row ≤ row_max) rows → 0 ≤ row_max →
  row_max ≤ SST_TABLE_TARGET_BYTES - SST_ARCHIVE_FIXED_BYTES_MAX →
  (zlen (plan row_bytes rows) - 1)
    * (SST_TABLE_TARGET_BYTES - SST_ARCHIVE_FIXED_BYTES_MAX - row_max + 1)
  ≤ zlen rows * row_max ∧ rows_bytes row_bytes rows ≤ zlen rows * row_max.
Proof.
  intros Hr H0 Hm. assert (rows_bytes row_bytes rows ≤ zlen rows * row_max) as Hup.
  { apply rows_bytes_upper. eapply Forall_impl; [exact Hr|]. by intros ? [_ ?]. }
  split; [|done]. etrans; [apply (chunks_count row_bytes rows [] row_max Hr Hm)|done].
Qed.

(** A full base always fits: the greatest forest needs 459 tables. *)
Lemma full_plan_fits f :
  forest_wf f →
  let d := planned_accounting directory_row_bytes (delta_directory (checkpoint_cells f)) in
  let l := planned_accounting ledger_row_bytes (delta_ledger (checkpoint_cells f)) in
  acc_tables d + acc_tables l ≤ PARTITION_BOOTSTRAP_OBJECTS_MAX_V2 ∧
  acc_bytes d + acc_bytes l ≤ PARTITION_BOOTSTRAP_BYTES_MAX_V2 ∧
  assert_full_plan d l = Ret tt.
Proof.
  intros Hwf d l. pose proof (wf_capacity f Hwf) as Hcap. pose proof (ledger_size_le f Hwf) as Hsize.
  destruct (plan_count directory_row_bytes (delta_directory (checkpoint_cells f))
    DIRECTORY_ROW_ENCODED_BYTES_MAX) as [Hd1 Hd2]; [|by vm_compute|by vm_compute|].
  { apply Forall_forall. intros row _. split; [apply directory_row_fits|done]. }
  destruct (plan_count ledger_row_bytes (delta_ledger (checkpoint_cells f))
    LEDGER_VALUE_ROW_ENCODED_BYTES_MAX) as [Hl1 Hl2]; [|by vm_compute|by vm_compute|].
  { apply Forall_forall. intros [u []] _; (split; [apply ledger_row_fits|by vm_compute]). }
  assert (zlen (delta_directory (checkpoint_cells f)) = path_count f) as Hn1
    by (unfold zlen, path_count; simpl; by rewrite om_iter_length).
  assert (zlen (delta_ledger (checkpoint_cells f)) = Z.of_nat (size (ledger f))) as Hn2
    by (unfold zlen; simpl; by rewrite length_fmap, om_iter_length).
  rewrite Hn1, Hn2 in *. unfold assert_full_plan, u64_checked_add. subst d l.
  cbn [planned_accounting acc_tables acc_bytes].
  set (nd := zlen (plan directory_row_bytes _)) in *. set (nl := zlen (plan ledger_row_bytes _)) in *.
  unfold PARTITION_PATH_OCCUPANCIES_MAX_V2, SST_TABLE_TARGET_BYTES, SST_ARCHIVE_FIXED_BYTES_MAX,
    DIRECTORY_ROW_ENCODED_BYTES_MAX, LEDGER_VALUE_ROW_ENCODED_BYTES_MAX in *.
  assert (nd ≤ 153 ∧ nl ≤ 306) as [Hnd Hnl] by lia.
  unfold PARTITION_BOOTSTRAP_OBJECTS_MAX_V2, PARTITION_BOOTSTRAP_BYTES_MAX_V2, u64_max.
  split_and!; [lia|lia|].
  rewrite decide_True by lia. cbn [expect exec_bind]. rewrite (proj2 (Z.leb_le _ _)) by lia.
  rewrite decide_True by lia. cbn [expect exec_bind]. by rewrite (proj2 (Z.leb_le _ _)) by lia.
Qed.

Lemma plan_checkpoint_Ret source snapshot delta :
  forest_wf snapshot → cells_ok delta →
  ∃ cells carried, plan_checkpoint source snapshot delta = Ret (cells, carried) ∧
    cells_ok cells ∧ plan_bounds source cells carried ∧
    (carried = Some source ∧ cells = delta ∨ carried = None ∧ cells = checkpoint_cells snapshot).
Proof.
  intros Hwf C. unfold plan_checkpoint, can_append_delta.
  rewrite (account_cells_Ret delta C). cbn [exec_bind].
  destruct (select_delta_Ret source delta) as (b & -> & Hb). cbn [exec_bind]. destruct b.
  - exists delta, (Some source). split_and!; [done|done|by apply Hb|by left].
  - pose proof (checkpoint_cells_ok snapshot Hwf) as C'. rewrite (account_cells_Ret _ C').
    destruct (full_plan_fits snapshot Hwf) as (Ht & _ & Hassert). cbn [exec_bind].
    rewrite Hassert. cbn [exec_bind]. eexists _, None. split_and!; [done|done|exact Ht|by right].
Qed.
