(* ===== verification/CheckpointSafety.v ===== *)
(** Safety and meaning of checkpoint preparation.

    On an input the writer can hand over, preparation never panics; what it prepares is
    the exact successor of the source Seal; and the tables of that successor, read in
    bootstrap order, fold to the snapshot the writer froze. *)

From S2P Require Import Prelude OrdMap Text Domain Coordinates Partition Seal Wal Forest.
From S2P Require Import ForestTheory Archive Spelling Sst Writer WriterSafety WriterSystem.
From S2P Require Import Bootstrap BootstrapSafety ObjectStore Stores StoreTheory.
From S2P Require Import Checkpoint CheckpointTheory.

(** * Inputs *)

(** What the writer guarantees of a checkpoint input. *)
Record input_ok (input : CheckpointInput) : Prop := {
  input_source_ok : ticket_source (input_ticket input) = seal_generation (input_source input);
  input_cut_ok : ∀ cut, replay_batch (seal_replay (input_source input)) = Some cut →
    coord_get cut < coord_get (ticket_cut (input_ticket input));
  input_owner_ok : coord_get (owner_claim (ticket_attempt (input_ticket input)))
    ≤ coord_get (seal_generation (input_source input));
  input_base_wf : forest_wf (input_base input);
  input_snapshot_wf : forest_wf (input_snapshot input);
  input_occupancy : occupancy_le (input_base input) (input_snapshot input)
}.

Section cells.
  Context {DD : MapDiff StreamPath DirectoryEntry} {DL : MapDiff StreamUid StreamRecord}.
  Context {DDL : MapDiffLaws StreamPath DirectoryEntry} {DLL : MapDiffLaws StreamUid StreamRecord}.

Lemma NoDup_keys_length {K V} `{Countable K} (rows : list (K * V)) (s : gset K) :
  NoDup rows.*1 → (∀ k, k ∈ rows.*1 → k ∈ s) → (length rows ≤ size s)%nat.
Proof.
  intros Hn Hs. rewrite <- (length_fmap fst rows). unfold size, set_size. simpl.
  apply submseteq_length, NoDup_submseteq; [done|]. intros k Hk. by apply elem_of_elements, Hs.
Qed.

Lemma delta_cells_ok base f :
  forest_wf base → forest_wf f →
  cells_ok (mk_delta (changed_rows (directory base) (directory f))
    (changed_cells (ledger base) (ledger f))).
Proof using DDL DLL.
  intros Hb Hf. pose proof (wf_capacity f Hf) as Hcap. pose proof (ledger_size_le f Hf) as Hlf.
  pose proof (wf_capacity base Hb) as Hcapb. pose proof (ledger_size_le base Hb) as Hlb.
  unfold path_count, PARTITION_PATH_OCCUPANCIES_MAX_V2 in *. split; simpl.
  - apply changed_rows_sorted.
  - apply changed_cells_sorted.
  - unfold zlen. pose proof (NoDup_keys_length (changed_rows (directory base) (directory f))
      (dom (directory f))) as Hlen. rewrite size_dom in Hlen.
    assert (length (changed_rows (directory base) (directory f)) ≤ size (directory f))%nat; [|lia].
    apply Hlen; [apply strictly_sorted_NoDup, changed_rows_sorted|].
    intros k ([k' e] & -> & [Hk _]%changed_rows_elem)%list_elem_of_fmap. by apply elem_of_dom_2 in Hk.
  - unfold zlen. pose proof (NoDup_keys_length (changed_cells (ledger base) (ledger f))
      (dom (ledger base) ∪ dom (ledger f))) as Hlen.
    pose proof (size_union_alt (dom (ledger base)) (dom (ledger f))) as Hu.
    pose proof (subseteq_size (dom (ledger f) ∖ dom (ledger base)) (dom (ledger f))) as Hd.
    rewrite !size_dom in *.
    assert (length (changed_cells (ledger base) (ledger f))
      ≤ size (dom (ledger base) ∪ dom (ledger f)))%nat; [|set_solver by lia].
    apply Hlen; [apply strictly_sorted_NoDup, changed_cells_sorted|].
    intros u ([u' c] & -> & [Hc Hne]%changed_cells_elem)%list_elem_of_fmap. simpl in *.
    rewrite elem_of_union, !elem_of_dom. destruct (ledger f !! u'); [by right|].
    destruct (ledger base !! u'); [by left|done].
Qed.

End cells.

(** * Trees *)

Section built.
  Context {HP : Heap} {HL : HeapLaws} {RL : RowLayout}.
  Context {RD : Rkyv (SstArchive ArchivedDirectoryRow)} {LD : RkyvLaws (SstArchive ArchivedDirectoryRow)}.
  Context {RG : Rkyv (SstArchive ArchivedLedgerRow)} {LG : RkyvLaws (SstArchive ArchivedLedgerRow)}.
  Context {SZ : SstSizeLaw}.

(** What a tree builder returns: the tables it handed over, and the tree when the
    pipeline took them all. *)
Definition tree_built {Row} (emit : Pipeline) (made : Z → list Row → EncodedTable → Prop) (n : Z)
    (sent : list EncodedTable) (l : list (list Row)) (carried : option TreeVersion)
    (out : Z * list EncodedTable * option TreeVersion) : Prop :=
  ∃ new, out.1.1 = n + zlen new ∧ out.1.2 = sent ++ new ∧ zlen new ≤ zlen l ∧
    ((∀ sent t, emit sent t = true) → out.2 ≠ None) ∧
    ∀ tree, out.2 = Some tree →
      made_all made n l new ∧ manifest (carried_runs carried) (table_ref <$> new) (tree_runs tree).

Lemma table_refs_empty {A} (new : list EncodedTable) (l : list A) :
  length new = length l → (zlen (table_ref <$> new) =? 0) = (zlen l =? 0).
Proof. intros Hl. unfold zlen. by rewrite length_fmap, Hl. Qed.

Lemma build_directory_tree_Ret emit partition generation attempt n sent rows carried :
  coord_get (owner_claim attempt) < coord_get generation → strictly_sorted rows → 0 ≤ n →
  n + zlen (plan directory_row_bytes rows) ≤ u32_max →
  zlen (plan directory_row_bytes rows) ≤ RUN_TABLES_MAX →
  zlen (carried_runs carried) + (if zlen (plan directory_row_bytes rows) =? 0 then 0 else 1)
    ≤ TREE_RUNS_MAX →
  ∃ out, build_directory_tree emit partition generation attempt n sent rows carried = Ret out ∧
    tree_built emit (directory_made partition generation attempt) n sent
      (plan directory_row_bytes rows) carried out.
Proof using HL LD SZ.
  intros Hg Hs H0 Hn Hmax Hruns. unfold build_directory_tree.
  replace SST_ARCHIVE_FIXED_BYTES_MAX
    with (chunk_bytes directory_row_bytes (@nil (StreamPath * DirectoryEntry))) by done.
  rewrite for_each_chunk_eq;
    [|apply Forall_forall; intros; apply directory_row_fits|constructor|by vm_compute].
  fold (plan directory_row_bytes rows).
  destruct (emit_all_Ret directory_row_bytes emit (emit_directory emit partition generation attempt)
    (directory_made partition generation attempt) rows_ok
    (λ b rows Hb Hr Hc, emit_directory_Ret emit partition generation attempt b rows Hg Hb Hr Hc)
    (plan directory_row_bytes rows) (mk_build n sent [])) as (new & complete & -> & Hlen & Hmade & Hyes);
    [apply plan_legal; [done|]; apply Forall_forall; intros; apply directory_row_fits|done|done|].
  cbn [exec_bind build_ordinal build_sent build_references app] in *.
  destruct complete.
  2: { eexists. split; [reflexivity|]. exists new. split_and!; [done|done|done| |done].
       intros Hacc. by specialize (Hyes Hacc). }
  specialize (Hmade eq_refl). pose proof (made_all_length _ _ _ _ Hmade) as Hl.
  destruct (build_manifest_Ret carried (table_ref <$> new)) as (tree & -> & Hm).
  { unfold zlen in *. rewrite length_fmap. lia. }
  { by rewrite (table_refs_empty _ _ Hl). }
  cbn [exec_bind]. eexists. split; [reflexivity|]. exists new. split_and!; [done..|].
  by intros ? [= <-].
Qed.

Lemma build_ledger_tree_Ret emit partition generation attempt n sent rows carried :
  coord_get (owner_claim attempt) < coord_get generation → strictly_sorted rows → 0 ≤ n →
  n + zlen (plan ledger_row_bytes rows) ≤ u32_max →
  zlen (plan ledger_row_bytes rows) ≤ RUN_TABLES_MAX →
  zlen (carried_runs carried) + (if zlen (plan ledger_row_bytes rows) =? 0 then 0 else 1)
    ≤ TREE_RUNS_MAX →
  ∃ out, build_ledger_tree emit partition generation attempt n sent rows carried = Ret out ∧
    tree_built emit (ledger_made partition generation attempt) n sent
      (plan ledger_row_bytes rows) carried out.
Proof using HL LG SZ.
  intros Hg Hs H0 Hn Hmax Hruns. unfold build_ledger_tree.
  replace SST_ARCHIVE_FIXED_BYTES_MAX
    with (chunk_bytes ledger_row_bytes (@nil (StreamUid * LedgerCell))) by done.
  rewrite for_each_chunk_eq;
    [|apply Forall_forall; intros; apply ledger_row_fits|constructor|by vm_compute].
  fold (plan ledger_row_bytes rows).
  destruct (emit_all_Ret ledger_row_bytes emit (emit_ledger emit partition generation attempt)
    (ledger_made partition generation attempt) rows_ok
    (λ b rows Hb Hr Hc, emit_ledger_Ret emit partition generation attempt b rows Hg Hb Hr Hc)
    (plan ledger_row_bytes rows) (mk_build n sent [])) as (new & complete & -> & Hlen & Hmade & Hyes);
    [apply plan_legal; [done|]; apply Forall_forall; intros; apply ledger_row_fits|done|done|].
  cbn [exec_bind build_ordinal build_sent build_references app] in *.
  destruct complete.
  2: { eexists. split; [reflexivity|]. exists new. split_and!; [done|done|done| |done].
       intros Hacc. by specialize (Hyes Hacc). }
  specialize (Hmade eq_refl). pose proof (made_all_length _ _ _ _ Hmade) as Hl.
  destruct (build_manifest_Ret carried (table_ref <$> new)) as (tree & -> & Hm).
  { unfold zlen in *. rewrite length_fmap. lia. }
  { by rewrite (table_refs_empty _ _ Hl). }
  cbn [exec_bind]. eexists. split; [reflexivity|]. exists new. split_and!; [done..|].
  by intros ? [= <-].
Qed.

End built.

(** * The successor Seal *)

Lemma manifest_tables carried tables runs :
  manifest carried tables runs → runs ≫= run_tables = tables ++ (carried ≫= run_tables).
Proof.
  unfold manifest. destruct tables as [|t tables]; [by intros ->|].
  intros (run & Hr & ->). rewrite bind_cons. by rewrite Hr.
Qed.

Lemma manifest_reverse carried tables runs :
  manifest carried tables runs →
  reverse runs ≫= run_tables = (reverse carried ≫= run_tables) ++ tables.
Proof.
  unfold manifest. destruct tables as [|t tables]; [intros ->; by rewrite (right_id_L [] (++))|].
  intros (run & Hr & ->). rewrite reverse_cons, bind_app, bind_cons. cbn [mbind list_bind].
  by rewrite Hr, (right_id_L [] (++)).
Qed.

(** The fresh tables of one store: born in this generation, at distinct ordinals. *)
Lemma made_all_fresh {Row} (made : Z → list Row → EncodedTable → Prop) generation attempt kind n l
    tables :
  (∀ m rows t, made m rows t → fresh_table generation attempt kind m t) →
  made_all made n l tables →
  (ordinal ∘ fresh ∘ table_object <$> (table_ref <$> tables)) = seqZ n (zlen tables) ∧
  Forall (λ t, fresh_table generation attempt kind
    (ordinal (fresh (table_object (table_ref t)))) t) tables.
Proof.
  intros Hmade. revert n tables. induction l as [|rows l IH]; intros n [|t tables]; try done.
  intros [Ht Hall]. destruct (IH (n + 1) tables Hall) as [Ho Hf]. apply Hmade in Ht.
  assert (ordinal (fresh (table_object (table_ref t))) = n) as Hn.
  { unfold ordinal. by rewrite (fresh_object _ _ _ _ _ Ht), (fresh_fields _ _ _ _ _ Ht). }
  split.
  - rewrite !fmap_cons, Ho. unfold zlen. cbn [length]. rewrite (seqZ_cons n (Z.of_nat (S _))) by lia.
    unfold compose. rewrite Hn. f_equal. f_equal; lia.
  - constructor; [by rewrite Hn|done].
Qed.

Lemma fresh_birth generation attempt kind n t :
  fresh_table generation attempt kind n t →
  store (table_object (table_ref t)) = kind ∧
  birth_generation (fresh (table_object (table_ref t))) = generation.
Proof.
  intros F. rewrite (fresh_object _ _ _ _ _ F). split; [apply F|].
  unfold birth_generation. by rewrite (fresh_fields _ _ _ _ _ F).
Qed.

Lemma fresh_nodup (tables : list EncodedTable) n :
  (ordinal ∘ fresh ∘ table_object <$> (table_ref <$> tables)) = seqZ n (zlen tables) →
  NoDup (table_object <$> (table_ref <$> tables)).
Proof.
  intros Ho. apply (NoDup_fmap_1 (ordinal ∘ fresh)). rewrite <- list_fmap_compose.
  rewrite (Ho : _ = _). apply NoDup_seqZ.
Qed.

(** Tables of an older generation. *)
Definition older (generation : SealGeneration) (tables : list TableRef) : Prop :=
  Forall (λ t, coord_get (birth_generation (fresh (table_object t))) < coord_get generation) tables.

(** The fresh tables of a store. *)
Definition all_fresh (generation : SealGeneration) (attempt : AttemptId) (kind : StoreKind)
    (new : list EncodedTable) : Prop :=
  Forall (λ t, fresh_table generation attempt kind
    (ordinal (fresh (table_object (table_ref t)))) t) new.

Lemma fresh_tables_of generation attempt kind new old :
  all_fresh generation attempt kind new → Forall (λ t, store (table_object t) = kind) old →
  older generation old → tables_of kind generation ((table_ref <$> new) ++ old).
Proof.
  intros Hnew Hs Hold. apply Forall_app. split.
  - apply Forall_fmap. eapply Forall_impl; [exact Hnew|]. intros t [Hk Hb]%fresh_birth. simpl.
    by rewrite Hb.
  - unfold older in Hold. rewrite Forall_forall in *. intros t Ht. split; [by apply Hs|].
    specialize (Hold t Ht). simpl in Hold. lia.
Qed.

Lemma fresh_older_disjoint generation attempt kind new old o :
  all_fresh generation attempt kind new → older generation old →
  o ∈ table_object <$> (table_ref <$> new) → o ∉ table_object <$> old.
Proof.
  intros Hnew Hold (r & -> & (t & -> & Ht)%list_elem_of_fmap)%list_elem_of_fmap.
  intros (r & He & Hr)%list_elem_of_fmap. unfold older in Hold. unfold all_fresh in Hnew.
  rewrite Forall_forall in Hold. rewrite Forall_forall in Hnew.
  destruct (fresh_birth _ _ _ _ _ (Hnew t Ht)) as [_ Hb]. specialize (Hold r Hr). simpl in Hold.
  rewrite <- He, Hb in Hold. lia.
Qed.

Lemma fresh_stores_disjoint generation attempt kind kind' new new' o :
  kind ≠ kind' → all_fresh generation attempt kind new → all_fresh generation attempt kind' new' →
  o ∈ table_object <$> (table_ref <$> new) → o ∉ table_object <$> (table_ref <$> new').
Proof.
  intros Hne Hn Hn' (r & -> & (t & -> & Ht)%list_elem_of_fmap)%list_elem_of_fmap.
  intros (r' & He & (t' & -> & Ht')%list_elem_of_fmap)%list_elem_of_fmap.
  unfold all_fresh in *. rewrite Forall_forall in Hn. rewrite Forall_forall in Hn'.
  destruct (fresh_birth _ _ _ _ _ (Hn t Ht)) as [Hk _].
  destruct (fresh_birth _ _ _ _ _ (Hn' t' Ht')) as [Hk' _]. congruence.
Qed.

Lemma successor_seal_wf partition generation attempt cut owner dtree ltree newd newl oldd oldl n m :
  1 < coord_get generation → coord_get (Coordinates.generation owner) < coord_get generation →
  tree_tables dtree = (table_ref <$> newd) ++ oldd → tree_tables ltree = (table_ref <$> newl) ++ oldl →
  all_fresh generation attempt Directory newd → all_fresh generation attempt Ledger newl →
  (ordinal ∘ fresh ∘ table_object <$> (table_ref <$> newd)) = seqZ n (zlen newd) →
  (ordinal ∘ fresh ∘ table_object <$> (table_ref <$> newl)) = seqZ m (zlen newl) →
  Forall (λ t, store (table_object t) = Directory) oldd →
  Forall (λ t, store (table_object t) = Ledger) oldl →
  older generation (oldd ++ oldl) → NoDup (table_object <$> oldd ++ oldl) →
  seal_wf (mk_seal partition generation (Through cut owner) dtree ltree).
Proof.
  intros Hg Ho Hd Hl Hfd Hfl Hod Hol Hsd Hsl [Hold Holl]%Forall_app Hn.
  apply fresh_nodup in Hod, Hol. rewrite fmap_app in Hn. apply NoDup_app in Hn as (Hnd & Hdl & Hnl).
  unfold seal_wf, fields_tables. cbn [fields_generation fields_replay fields_directory fields_ledger].
  rewrite Hd, Hl. split_and!.
  - intros ->. by change (coord_get genesis_generation) with 1 in Hg.
  - by intros b o [= _ <-].
  - by eapply fresh_tables_of.
  - by eapply fresh_tables_of.
  - rewrite !fmap_app. apply NoDup_app. split_and!.
    + apply NoDup_app. split_and!; [done| |done]. intros o. by eapply fresh_older_disjoint.
    + intros o [Hin|Hin]%elem_of_app [Hin'|Hin']%elem_of_app.
      * by eapply (fresh_stores_disjoint _ _ Directory Ledger newd newl).
      * by eapply (fresh_older_disjoint _ _ Directory newd oldl).
      * by eapply (fresh_older_disjoint _ _ Ledger newl oldd).
      * by eapply Hdl.
    + apply NoDup_app. split_and!; [done| |done]. intros o. by eapply fresh_older_disjoint.
Qed.

Lemma seal_tables_app seal :
  seal_tables seal = tree_tables (seal_directory seal) ++ tree_tables (seal_ledger seal).
Proof. done. Qed.

(** The tables a checkpoint carries are older than it and belong to their stores. *)
Lemma carried_tables_ok (source : Seal) (carried : option Seal) generation :
  coord_get (seal_generation source) < coord_get generation → carried = Some source ∨ carried = None →
  let oldd := carried_runs (seal_directory <$> carried) ≫= run_tables in
  let oldl := carried_runs (seal_ledger <$> carried) ≫= run_tables in
  Forall (λ t, store (table_object t) = Directory) oldd ∧
  Forall (λ t, store (table_object t) = Ledger) oldl ∧
  older generation (oldd ++ oldl) ∧ NoDup (table_object <$> oldd ++ oldl) ∧
  zlen (oldd ++ oldl) = from_option (λ seal, zlen (seal_tables seal)) 0 carried.
Proof.
  intros Hg [->| ->] oldd oldl; cbn in oldd, oldl.
  - destruct (seal_ok source) as (_ & _ & Hd & Hl & Hn).
    unfold tables_of in Hd, Hl. subst oldd oldl. cbn [from_option].
    change (tree_runs (seal_directory source) ≫= run_tables) with (tree_tables (seal_directory source)).
    change (tree_runs (seal_ledger source) ≫= run_tables) with (tree_tables (seal_ledger source)).
    split_and!; [| | |done|done].
    + eapply Forall_impl; [exact Hd|]. by intros t [? _].
    + eapply Forall_impl; [exact Hl|]. by intros t [? _].
    + apply Forall_app. split; (eapply Forall_impl; [done|]); intros t [_ Ht];
        change (fields_generation (content source)) with (seal_generation source) in Ht; simpl; lia.
  - by split_and!; constructor.
Qed.

Section prepared.
  Context {HP : Heap} {HL : HeapLaws} {RL : RowLayout} {RS : Rkyv ArchivedSeal} {LS : RkyvLaws ArchivedSeal}.
  Context {RD : Rkyv (SstArchive ArchivedDirectoryRow)} {LD : RkyvLaws (SstArchive ArchivedDirectoryRow)}.
  Context {RG : Rkyv (SstArchive ArchivedLedgerRow)} {LG : RkyvLaws (SstArchive ArchivedLedgerRow)}.
  Context {SZ : SstSizeLaw} {SS : SealSizeLaw}.
  Context {DD : MapDiff StreamPath DirectoryEntry} {DL : MapDiff StreamUid StreamRecord}.
  Context {DDL : MapDiffLaws StreamPath DirectoryEntry} {DLL : MapDiffLaws StreamUid StreamRecord}.

Lemma authority_candidate_Ret seal :
  seal_generation seal ≠ genesis_generation →
  zlen (seal_tables seal) ≤ PARTITION_BOOTSTRAP_OBJECTS_MAX_V2 →
  ∃ candidate, EncodedAuthoritySeal_try_from seal = Ret (Ok candidate) ∧ authority_seal candidate = seal.
Proof using HL LS SS.
  intros Hg Hn. unfold EncodedAuthoritySeal_try_from. rewrite bool_decide_eq_false_2 by done.
  unfold EncodedSeal_new, encode_seal. pose proof (seal_size seal Hn) as Hb.
  rewrite encode_ok by (unfold SEAL_ENCODED_BYTES_MAX, u64_max in *; lia). cbn [try_bind].
  unfold candidate_bytes_ok. rewrite bool_decide_eq_false_2 by apply rkyv_nonempty. cbn [negb andb].
  rewrite (proj2 (Z.leb_le _ _)) by done. by eexists.
Qed.

(** What a prepared checkpoint is made of. *)
Record prepared_from (input : CheckpointInput) (sent : list EncodedTable) (cells : ForestDelta)
    (carried : option Seal) (newd newl : list EncodedTable) (prepared : PreparedCheckpoint) : Prop := {
  from_source : prepared_source prepared = input_source input;
  from_snapshot : prepared_snapshot prepared = input_snapshot input;
  from_partition : seal_partition (prepared_successor prepared) = seal_partition (input_source input);
  from_generation : successor (seal_generation (input_source input)) =
    Ok (seal_generation (prepared_successor prepared));
  from_replay : seal_replay (prepared_successor prepared) =
    Through (ticket_cut (input_ticket input))
      {| Coordinates.generation := owner_claim (ticket_attempt (input_ticket input)) |};
  from_sent : sent = newd ++ newl;
  from_directory : made_all (directory_made (seal_partition (input_source input))
      (seal_generation (prepared_successor prepared)) (ticket_attempt (input_ticket input)))
    0 (directory_plan cells) newd;
  from_ledger : made_all (ledger_made (seal_partition (input_source input))
      (seal_generation (prepared_successor prepared)) (ticket_attempt (input_ticket input)))
    (zlen newd) (ledger_plan cells) newl;
  from_directory_tree : manifest (carried_runs (seal_directory <$> carried)) (table_ref <$> newd)
    (tree_runs (seal_directory (prepared_successor prepared)));
  from_ledger_tree : manifest (carried_runs (seal_ledger <$> carried)) (table_ref <$> newl)
    (tree_runs (seal_ledger (prepared_successor prepared)))
}.

(** Which rows a checkpoint writes: the changes, over the carried tables, or all. *)
Definition cells_choice (input : CheckpointInput) (cells : ForestDelta) (carried : option Seal) : Prop :=
  cells_ok cells ∧
  (carried = Some (input_source input) ∧ apply_delta cells (input_base input) = input_snapshot input ∨
   carried = None ∧ cells = checkpoint_cells (input_snapshot input)).

Lemma assemble_Ret partition generation cut owner dtree ltree :
  seal_wf (mk_seal partition generation (Through cut owner) dtree ltree) →
  zlen (tree_tables dtree ++ tree_tables ltree) ≤ PARTITION_BOOTSTRAP_OBJECTS_MAX_V2 →
  ∃ seal candidate,
    assemble_checkpoint_seal partition generation cut owner dtree ltree = Ret (seal, candidate) ∧
    content seal = mk_seal partition generation (Through cut owner) dtree ltree ∧
    authority_seal candidate = seal.
Proof using HL LS SS.
  intros Hwf Hn. unfold assemble_checkpoint_seal.
  destruct (Seal_new_wf _ _ _ _ _ Hwf) as (seal & -> & Hc). cbn [expect_ok exec_bind].
  destruct (authority_candidate_Ret seal) as (candidate & -> & Hs).
  - unfold seal_generation. rewrite Hc. cbn [fields_generation]. intros ->.
    destruct Hwf as [Hg _]. by destruct (Hg eq_refl) as [? _].
  - unfold seal_tables. by rewrite Hc.
  - cbn [expect_ok exec_bind]. eauto.
Qed.

Lemma plan_bounds_use source cells carried :
  plan_bounds source cells carried → carried = Some source ∨ carried = None →
  zlen (directory_plan cells) + zlen (ledger_plan cells)
    + from_option (λ seal, zlen (seal_tables seal)) 0 carried ≤ PARTITION_BOOTSTRAP_OBJECTS_MAX_V2 ∧
  zlen (carried_runs (seal_directory <$> carried))
    + (if zlen (directory_plan cells) =? 0 then 0 else 1) ≤ TREE_RUNS_MAX ∧
  zlen (carried_runs (seal_ledger <$> carried))
    + (if zlen (ledger_plan cells) =? 0 then 0 else 1) ≤ TREE_RUNS_MAX.
Proof.
  intros Hb [->| ->]; cbn.
  - destruct Hb as (_ & Hd & Hl & Ht). split_and!; [lia|done|done].
  - unfold plan_bounds in Hb. split_and!; [lia|by destruct (_ =? 0)|by destruct (_ =? 0)].
Qed.

(** The trees built, the Seal assembles and the checkpoint is prepared. *)
Lemma finish_Ret input generation carried cells newd newl dtree ltree :
  input_ok input → successor (seal_generation (input_source input)) = Ok generation →
  plan_bounds (input_source input) cells carried →
  carried = Some (input_source input) ∨ carried = None →
  made_all (directory_made (seal_partition (input_source input)) generation
    (ticket_attempt (input_ticket input))) 0 (directory_plan cells) newd →
  made_all (ledger_made (seal_partition (input_source input)) generation
    (ticket_attempt (input_ticket input))) (zlen newd) (ledger_plan cells) newl →
  manifest (carried_runs (seal_directory <$> carried)) (table_ref <$> newd) (tree_runs dtree) →
  manifest (carried_runs (seal_ledger <$> carried)) (table_ref <$> newl) (tree_runs ltree) →
  ∃ next candidate prepared,
    assemble_checkpoint_seal (seal_partition (input_source input)) generation
      (ticket_cut (input_ticket input))
      {| Coordinates.generation := owner_claim (ticket_attempt (input_ticket input)) |} dtree ltree =
      Ret (next, candidate) ∧
    PreparedCheckpoint_new (input_ticket input) (input_source input) next (input_snapshot input)
      candidate = Ret prepared ∧
    prepared_from input (newd ++ newl) cells carried newd newl prepared.
Proof using HL LS SS.
  intros I Hgen Hb Hcar Hmd Hml Hd Hl. apply successor_Ok in Hgen as Hg.
  pose proof (input_owner_ok _ I) as Hown. pose proof (coord_bounds (seal_generation (input_source input))).
  destruct (plan_bounds_use _ _ _ Hb Hcar) as (Hcount & _ & _).
  destruct (carried_tables_ok (input_source input) carried generation) as (Hsd & Hsl & Hold & Hnd & Hlen);
    [lia|done|].
  destruct (made_all_fresh _ generation (ticket_attempt (input_ticket input)) Directory _ _ _
    (λ m rows t H, proj1 H) Hmd) as [Hod Hfd].
  destruct (made_all_fresh _ generation (ticket_attempt (input_ticket input)) Ledger _ _ _
    (λ m rows t H, proj1 H) Hml) as [Hol Hfl].
  pose proof (made_all_length _ _ _ _ Hmd) as Hld. pose proof (made_all_length _ _ _ _ Hml) as Hll.
  assert (tree_tables dtree = (table_ref <$> newd) ++ _) as Htd by (by apply manifest_tables).
  assert (tree_tables ltree = (table_ref <$> newl) ++ _) as Htl by (by apply manifest_tables).
  destruct (assemble_Ret (seal_partition (input_source input)) generation
    (ticket_cut (input_ticket input))
    {| Coordinates.generation := owner_claim (ticket_attempt (input_ticket input)) |} dtree ltree)
    as (next & candidate & Ha & Hc & Hs).
  { eapply successor_seal_wf; [lia| |exact Htd|exact Htl|done..]. simpl. lia. }
  { rewrite Htd, Htl. unfold zlen in *. rewrite !length_app, !length_fmap in *. lia. }
  exists next, candidate, (mk_prepared (input_source input) next (input_snapshot input) candidate).
  assert (seal_generation next = generation) as Hng by (unfold seal_generation; by rewrite Hc).
  split_and!; [done| |].
  - unfold PreparedCheckpoint_new. rewrite bool_decide_eq_true_2 by apply I.
    rewrite bool_decide_eq_true_2 by (unfold seal_partition; by rewrite Hc). rewrite Hgen.
    rewrite bool_decide_eq_true_2 by done.
    rewrite bool_decide_eq_true_2 by (unfold seal_replay; by rewrite Hc).
    assert (match replay_batch (seal_replay (input_source input)) with
      | None => true | Some c => coord_ltb c (ticket_cut (input_ticket input)) end = true) as ->.
    { destruct (replay_batch _) as [c|] eqn:Hr; [|done]. apply Z.ltb_lt. by apply I. }
    by rewrite bool_decide_eq_true_2.
  - split; simpl; try done.
    + unfold seal_partition. by rewrite Hc.
    + by rewrite Hng.
    + unfold seal_replay. by rewrite Hc.
    + by rewrite Hng.
    + by rewrite Hng.
    + unfold seal_directory. by rewrite Hc.
    + unfold seal_ledger. by rewrite Hc.
Qed.

Lemma prepare_checkpoint_Ret emit input :
  input_ok input →
  ∃ sent r, prepare_checkpoint emit input = Ret (sent, r) ∧
    match r with
    | Err _ => coord_get (seal_generation (input_source input)) = u64_max
    | Ok None => ¬ ∀ sent t, emit sent t = true
    | Ok (Some prepared) => ∃ cells carried newd newl,
        cells_choice input cells carried ∧ prepared_from input sent cells carried newd newl prepared
    end.
Proof using HL LS LD LG SZ SS DDL DLL.
  intros I. unfold prepare_checkpoint. set (source := input_source input) in *.
  destruct (successor (seal_generation source)) as [generation|] eqn:Hgen.
  2: { eexists _, _. split; [reflexivity|]. by apply successor_Err in Hgen. }
  apply successor_Ok in Hgen as Hg. pose proof (input_owner_ok _ I) as Hown.
  rewrite delta_since_Ret by apply I. cbn [exec_bind].
  destruct (plan_checkpoint_Ret source (input_snapshot input)
    (mk_delta (changed_rows (directory (input_base input)) (directory (input_snapshot input)))
       (changed_cells (ledger (input_base input)) (ledger (input_snapshot input)))))
    as (cells & carried & -> & C & Hb & Hchoice); [apply I|apply delta_cells_ok; apply I|].
  cbn [exec_bind].
  assert (carried = Some source ∨ carried = None) as Hcar by (destruct Hchoice as [[-> _]|[-> _]]; auto).
  assert (cells_choice input cells carried) as Hcells.
  { split; [done|]. destruct Hchoice as [[-> ->]|[-> ->]]; [left|by right]. split; [done|].
    apply delta_exact, I. }
  destruct (plan_bounds_use _ _ _ Hb Hcar) as (Hcount & Hrd & Hrl).
  assert (0 ≤ from_option (λ seal, zlen (seal_tables seal)) 0 carried) as H0
    by (destruct carried; unfold zlen; simpl; lia).
  unfold PARTITION_BOOTSTRAP_OBJECTS_MAX_V2 in Hcount.
  assert (0 ≤ zlen (directory_plan cells) ∧ 0 ≤ zlen (ledger_plan cells)) as [Hpd Hpl]
    by (unfold zlen; lia).
  destruct (build_directory_tree_Ret emit (seal_partition source) generation
    (ticket_attempt (input_ticket input)) 0 [] (delta_directory cells) (seal_directory <$> carried))
    as ([[n sent] dtree] & -> & newd & Hn & Hsent & Hlend & Hyd & Hdt); fold (directory_plan cells) in *;
    [unfold source in *; lia|apply C|done|unfold u32_max; lia|unfold RUN_TABLES_MAX; lia|done|].
  cbn [exec_bind fst snd] in *. subst n sent. cbn [app].
  destruct dtree as [dtree|]; [|eexists _, _; split; [reflexivity|]; by intros ?%Hyd]. destruct (Hdt dtree eq_refl) as [Hmd Hmand].
  destruct (build_ledger_tree_Ret emit (seal_partition source) generation
    (ticket_attempt (input_ticket input)) (zlen newd) newd (delta_ledger cells) (seal_ledger <$> carried))
    as ([[n sent] ltree] & Hx & newl & Hn & Hsent & Hlenl & Hyl & Hlt); fold (ledger_plan cells) in *;
    [unfold source in *; lia|apply C|unfold zlen; lia|unfold u32_max; lia|unfold RUN_TABLES_MAX; lia
    |done|].
  rewrite Z.add_0_l, Hx. cbn [exec_bind fst snd] in *. subst sent.
  destruct ltree as [ltree|]; [|eexists _, _; split; [reflexivity|]; by intros ?%Hyl]. destruct (Hlt ltree eq_refl) as [Hml Hmanl].
  destruct (finish_Ret input generation carried cells newd newl dtree ltree)
    as (next & candidate & prepared & Ha & Hp & Hfrom); [done..|].
  fold source in Ha, Hp. rewrite Ha. cbn [exec_bind]. rewrite Hp. cbn [exec_bind].
  eexists _, _. split; [reflexivity|]. by exists cells, carried, newd, newl.
Qed.

End prepared.

(** * The tables of the successor fold to the snapshot *)

Definition fold_directory (m : gmap StreamPath DirectoryEntry) (tables : list DecodedTable) :=
  foldl (λ m d, match d with DecodedDirectory rows => apply_directory rows m | _ => m end) m tables.
Definition fold_ledger (m : gmap StreamUid StreamRecord) (tables : list DecodedTable) :=
  foldl (λ m d, match d with DecodedLedger cells => apply_ledger cells m | _ => m end) m tables.

Lemma foldl_apply_table f tables :
  foldl apply_table f tables =
  mk_forest (fold_directory (directory f) tables) (fold_ledger (ledger f) tables).
Proof.
  revert f. induction tables as [|d tables IH]; intros f; [by destruct f|].
  cbn [foldl]. rewrite IH. by destruct d.
Qed.

Lemma fold_directory_app m a b : fold_directory m (a ++ b) = fold_directory (fold_directory m a) b.
Proof. apply foldl_app. Qed.

Lemma fold_ledger_app m a b : fold_ledger m (a ++ b) = fold_ledger (fold_ledger m a) b.
Proof. apply foldl_app. Qed.

Definition all_directory (tables : list DecodedTable) : Prop :=
  Forall (λ d, ∃ rows, d = DecodedDirectory rows) tables.
Definition all_ledger (tables : list DecodedTable) : Prop :=
  Forall (λ d, ∃ cells, d = DecodedLedger cells) tables.

Lemma fold_directory_ledger m tables : all_ledger tables → fold_directory m tables = m.
Proof. induction 1 as [|d l [cells ->] _ IH]; [done|]. exact IH. Qed.

Lemma fold_ledger_directory m tables : all_directory tables → fold_ledger m tables = m.
Proof. induction 1 as [|d l [rows ->] _ IH]; [done|]. exact IH. Qed.

(** Reading a plan's tables applies its rows, in order. *)
Lemma fold_directory_plan m (l : list (list (StreamPath * DirectoryEntry))) :
  fold_directory m (DecodedDirectory <$> l) = apply_directory (concat l) m.
Proof.
  revert m. induction l as [|rows l IH]; intros m; [done|]. rewrite fmap_cons. cbn [concat].
  unfold apply_directory at 1. rewrite foldl_app. apply IH.
Qed.

Lemma fold_ledger_plan m (l : list (list (StreamUid * LedgerCell))) :
  fold_ledger m (DecodedLedger <$> l) = apply_ledger (concat l) m.
Proof.
  revert m. induction l as [|cells l IH]; intros m; [done|]. rewrite fmap_cons. cbn [concat].
  unfold apply_ledger at 1. rewrite foldl_app. apply IH.
Qed.

Lemma planned_tables_reverse seal :
  planned_tables seal =
  (reverse (tree_runs (seal_directory seal)) ≫= run_tables) ++
  (reverse (tree_runs (seal_ledger seal)) ≫= run_tables).
Proof.
  assert (∀ runs, planned_table <$> (runs ≫= run_sources) = runs ≫= run_tables) as H.
  { induction runs as [|run runs IH]; [done|]. rewrite !bind_cons, fmap_app, IH. f_equal.
    unfold run_sources. rewrite fmap_imap. unfold compose. cbn [planned_table].
    induction (run_tables run) as [|t l IHl]; [done|]. cbn [imap]. f_equal.
    etrans; [|exact IHl]. by apply imap_ext. }
  unfold planned_tables, tree_sources. by rewrite fmap_app, !H.
Qed.

(** A full base rebuilds the forest from nothing. *)
Lemma checkpoint_cells_exact f : apply_delta (checkpoint_cells f) forest_empty = f.
Proof.
  destruct f as [d l]. unfold apply_delta, checkpoint_cells; simpl. f_equal; apply map_eq.
  - intros p. destruct (apply_directory_lookup (om_iter d) ∅ p) as [H1 H2];
      [apply om_iter_keys_NoDup|].
    destruct (d !! p) as [e|] eqn:Hp.
    + by apply H1, elem_of_om_iter.
    + rewrite H2, lookup_empty; [done|]. intros ([p' e] & -> & He%elem_of_om_iter)%list_elem_of_fmap.
      simpl in Hp. congruence.
  - intros u. set (cells := (λ '(uid, record), (uid, Value record)) <$> om_iter l).
    assert (∀ x c, (x, c) ∈ cells ↔ ∃ r, c = Value r ∧ l !! x = Some r) as Hcells.
    { intros x c. unfold cells. rewrite list_elem_of_fmap. split.
      - intros ([x' r] & [= -> ->] & Hr%elem_of_om_iter). eauto.
      - intros (r & -> & Hr). exists (x, r). split; [done|]. by apply elem_of_om_iter. }
    destruct (apply_ledger_lookup cells ∅ u) as [H1 H2].
    { unfold cells. rewrite <- list_fmap_compose.
      erewrite list_fmap_ext; [apply (om_iter_keys_NoDup l)|]. by intros i []. }
    destruct (l !! u) as [r|] eqn:Hu.
    + apply (H1 (Value r)), Hcells. eauto.
    + rewrite H2, lookup_empty; [done|].
      intros ([u' c] & -> & (r & _ & Hr)%Hcells)%list_elem_of_fmap. simpl in Hu. congruence.
Qed.

Section covers.
  Context {J : Jiff} {HP : Heap} {HL : HeapLaws} {RL : RowLayout} {RLL : RowLayoutLaws}.
  Context {RS : Rkyv ArchivedSeal} {LS : RkyvLaws ArchivedSeal}.
  Context {RD : Rkyv (SstArchive ArchivedDirectoryRow)} {LD : RkyvLaws (SstArchive ArchivedDirectoryRow)}.
  Context {RG : Rkyv (SstArchive ArchivedLedgerRow)} {LG : RkyvLaws (SstArchive ArchivedLedgerRow)}.
  Context {SZ : SstSizeLaw} {SS : SealSizeLaw}.
  Context {DD : MapDiff StreamPath DirectoryEntry} {DL : MapDiff StreamUid StreamRecord}.
  Context {DDL : MapDiffLaws StreamPath DirectoryEntry} {DLL : MapDiffLaws StreamUid StreamRecord}.

Lemma directory_made_decodes partition generation attempt n rows t d :
  directory_made partition generation attempt n rows t →
  decode_table partition (table_key t) (table_bytes t) = Ret (Ok d) → d = DecodedDirectory rows.
Proof using HL RLL LD.
  intros [F He]. unfold decode_table. rewrite (fresh_store _ _ _ _ _ F).
  pose proof (encode_directory_Ret partition (table_key t) rows) as Hr.
  destruct (encode_directory_sst partition (table_key t) rows) as [bytes|] eqn:Hb; [|congruence].
  destruct Hr as (t' & Ht & _ & Hbytes & _). rewrite He in Ht. injection Ht as <-.
  rewrite Hbytes, (decode_directory_encoded _ _ _ _ Hb). by intros [= <-].
Qed.

Lemma ledger_made_decodes partition generation attempt n rows t d :
  ledger_made partition generation attempt n rows t →
  decode_table partition (table_key t) (table_bytes t) = Ret (Ok d) → d = DecodedLedger rows.
Proof using HL RLL LG.
  intros [F He]. unfold decode_table. rewrite (fresh_store _ _ _ _ _ F).
  pose proof (encode_ledger_Ret partition (table_key t) rows) as Hr.
  destruct (encode_ledger_sst partition (table_key t) rows) as [bytes|] eqn:Hb; [|congruence].
  destruct Hr as (t' & Ht & _ & Hbytes & _). rewrite He in Ht. injection Ht as <-.
  rewrite Hbytes. destruct (decode_ledger_sst _ _ _) as [[rows'|]|] eqn:Hd; cbn; [|done..].
  intros [= <-]. by rewrite (decode_ledger_own _ _ _ _ _ Hb Hd).
Qed.

(** What the written tables decode to is what a plan says. *)
Lemma made_all_reads {Row} (made : Z → list Row → EncodedTable → Prop)
    (decoded : list Row → DecodedTable) partition (reads : TableRef → DecodedTable) n l tables :
  (∀ m rows t d, made m rows t →
     decode_table partition (table_key t) (table_bytes t) = Ret (Ok d) → d = decoded rows) →
  made_all made n l tables →
  (∀ t, t ∈ tables →
     decode_table partition (table_key t) (table_bytes t) = Ret (Ok (reads (table_ref t)))) →
  reads <$> (table_ref <$> tables) = decoded <$> l.
Proof.
  revert n tables. induction l as [|rows l IH]; intros n [|t tables] Hd; try done.
  intros [Ht Hall] Hr. rewrite !fmap_cons. f_equal.
  - eapply Hd; [done|]. apply Hr, elem_of_cons. by left.
  - apply (IH (n + 1)); [done|done|]. intros t' Hin. apply Hr, elem_of_cons. by right.
Qed.

Lemma plan_concat {Row} (row_bytes : Row → Z) rows : concat (plan row_bytes rows) = rows.
Proof. unfold plan. by rewrite chunks_concat. Qed.

(** The fresh tables, read. *)
Lemma prepared_reads input sent cells carried newd newl prepared (reads : TableRef → DecodedTable) :
  prepared_from input sent cells carried newd newl prepared →
  (∀ t, t ∈ sent → decode_table (seal_partition (input_source input)) (table_key t) (table_bytes t) =
     Ret (Ok (reads (table_ref t)))) →
  reads <$> (table_ref <$> newd) = DecodedDirectory <$> directory_plan cells ∧
  reads <$> (table_ref <$> newl) = DecodedLedger <$> ledger_plan cells.
Proof using HL RLL LD LG.
  intros F Hr. rewrite (from_sent _ _ _ _ _ _ _ F) in Hr. split.
  - eapply made_all_reads; [|apply F|intros t Ht; apply Hr, elem_of_app; by left].
    intros m rows t d. apply directory_made_decodes.
  - eapply made_all_reads; [|apply F|intros t Ht; apply Hr, elem_of_app; by right].
    intros m rows t d. apply ledger_made_decodes.
Qed.

Lemma matches_directory table d :
  decoded_matches table d → store (table_object table) = Directory → ∃ rows, d = DecodedDirectory rows.
Proof. destruct d as [rows|cells]; [eauto|]. intros [Hs _]. congruence. Qed.

Lemma matches_ledger table d :
  decoded_matches table d → store (table_object table) = Ledger → ∃ cells, d = DecodedLedger cells.
Proof. destruct d as [rows|cells]; [|eauto]. intros [Hs _]. congruence. Qed.

(** Reading Directory tables then Ledger tables. *)
Lemma tables_forest_split (a b : list DecodedTable) :
  all_directory a → all_ledger b →
  tables_forest (a ++ b) = mk_forest (fold_directory ∅ a) (fold_ledger ∅ b).
Proof.
  intros Ha Hb. unfold tables_forest. rewrite foldl_apply_table. simpl.
  rewrite fold_directory_app, fold_ledger_app.
  by rewrite (fold_ledger_directory _ _ Ha), (fold_directory_ledger _ _ Hb).
Qed.

Lemma all_directory_plan (l : list (list (StreamPath * DirectoryEntry))) :
  all_directory (DecodedDirectory <$> l).
Proof. apply Forall_fmap, Forall_forall. intros rows _. simpl. eauto. Qed.

Lemma all_ledger_plan (l : list (list (StreamUid * LedgerCell))) : all_ledger (DecodedLedger <$> l).
Proof. apply Forall_fmap, Forall_forall. intros cells _. simpl. eauto. Qed.

(** A tree's tables, read, are all of its store. *)
Lemma seal_reads_directory (seal : Seal) (reads : TableRef → DecodedTable) :
  (∀ t, t ∈ reverse (tree_runs (seal_directory seal)) ≫= run_tables → decoded_matches t (reads t)) →
  all_directory (reads <$> (reverse (tree_runs (seal_directory seal)) ≫= run_tables)).
Proof.
  intros Hm. destruct (seal_ok seal) as (_ & _ & Hd & _ & _). unfold tables_of in Hd.
  rewrite Forall_forall in Hd. apply Forall_fmap, Forall_forall. intros t Ht. simpl.
  apply (matches_directory t); [by apply Hm|]. apply Hd.
  apply list_elem_of_bind in Ht as (run & Hrun & Hin). rewrite elem_of_reverse in Hin.
  apply list_elem_of_bind. exists run. split; [exact Hrun|exact Hin].
Qed.

Lemma seal_reads_ledger (seal : Seal) (reads : TableRef → DecodedTable) :
  (∀ t, t ∈ reverse (tree_runs (seal_ledger seal)) ≫= run_tables → decoded_matches t (reads t)) →
  all_ledger (reads <$> (reverse (tree_runs (seal_ledger seal)) ≫= run_tables)).
Proof.
  intros Hm. destruct (seal_ok seal) as (_ & _ & _ & Hl & _). unfold tables_of in Hl.
  rewrite Forall_forall in Hl. apply Forall_fmap, Forall_forall. intros t Ht. simpl.
  apply (matches_ledger t); [by apply Hm|]. apply Hl.
  apply list_elem_of_bind in Ht as (run & Hrun & Hin). rewrite elem_of_reverse in Hin.
  apply list_elem_of_bind. exists run. split; [exact Hrun|exact Hin].
Qed.

(** The tables of a successor, in planning order: the carried ones, and those sent. *)
Lemma planned_successor input sent cells carried newd newl prepared table :
  prepared_from input sent cells carried newd newl prepared →
  table ∈ planned_tables (prepared_successor prepared) ↔
  (∃ source, carried = Some source ∧ table ∈ planned_tables source) ∨ table ∈ table_ref <$> sent.
Proof.
  intros F. rewrite planned_tables_reverse, (from_sent _ _ _ _ _ _ _ F), fmap_app.
  rewrite (manifest_reverse _ _ _ (from_directory_tree _ _ _ _ _ _ _ F)).
  rewrite (manifest_reverse _ _ _ (from_ledger_tree _ _ _ _ _ _ _ F)).
  destruct carried as [source|]; cbn [fmap option_fmap option_map carried_runs from_option];
    rewrite !elem_of_app.
  - split.
    + intros [[H|H]|[H|H]]; [left|by right; left|left|by right; right];
        exists source; rewrite planned_tables_reverse, elem_of_app; auto.
    + intros [(? & [= <-] & H)|H]; [|naive_solver].
      rewrite planned_tables_reverse, elem_of_app in H. naive_solver.
  - rewrite reverse_nil. split; [|naive_solver].
    intros [[H|H]|[H|H]]; auto; by apply not_elem_of_nil in H.
Qed.

Lemma prepared_covers input sent cells carried newd newl prepared (reads : TableRef → DecodedTable) :
  cells_choice input cells carried →
  prepared_from input sent cells carried newd newl prepared →
  (carried = Some (input_source input) →
     (∀ table, table ∈ planned_tables (input_source input) → decoded_matches table (reads table)) ∧
     tables_forest (reads <$> planned_tables (input_source input)) = input_base input) →
  (∀ t, t ∈ sent → decode_table (seal_partition (input_source input)) (table_key t) (table_bytes t) =
     Ret (Ok (reads (table_ref t)))) →
  tables_forest (reads <$> planned_tables (prepared_successor prepared)) = input_snapshot input.
Proof using HL RLL LD LG.
  intros Hch F Hsrc Hr.
  destruct (prepared_reads _ _ _ _ _ _ _ reads F Hr) as [Hnd Hnl].
  rewrite planned_tables_reverse, !fmap_app.
  rewrite (manifest_reverse _ _ _ (from_directory_tree _ _ _ _ _ _ _ F)).
  rewrite (manifest_reverse _ _ _ (from_ledger_tree _ _ _ _ _ _ _ F)).
  rewrite !fmap_app, Hnd, Hnl. clear Hr Hnd Hnl. destruct Hch as [C [[-> Ha]|[-> ->]]].
  - destruct (Hsrc eq_refl) as [Hm Hbase]. clear Hsrc.
    change (carried_runs (seal_directory <$> Some (input_source input)))
      with (tree_runs (seal_directory (input_source input))).
    change (carried_runs (seal_ledger <$> Some (input_source input)))
      with (tree_runs (seal_ledger (input_source input))).
    rewrite planned_tables_reverse in Hbase, Hm. rewrite fmap_app in Hbase.
    set (oldd := reverse (tree_runs (seal_directory (input_source input))) ≫= run_tables) in *.
    set (oldl := reverse (tree_runs (seal_ledger (input_source input))) ≫= run_tables) in *.
    assert (all_directory (reads <$> oldd)) as Hod
      by (apply seal_reads_directory; intros t Ht; apply Hm, elem_of_app; by left).
    assert (all_ledger (reads <$> oldl)) as Hol
      by (apply seal_reads_ledger; intros t Ht; apply Hm, elem_of_app; by right).
    rewrite tables_forest_split in Hbase by done.
    rewrite tables_forest_split; [|apply Forall_app; split; [done|apply all_directory_plan]
      |apply Forall_app; split; [done|apply all_ledger_plan]].
    rewrite fold_directory_app, fold_ledger_app.
    rewrite fold_directory_plan, fold_ledger_plan. unfold directory_plan, ledger_plan.
    rewrite !plan_concat, <- Ha, <- Hbase. done.
  - change (reverse (carried_runs (seal_directory <$> None)) ≫= run_tables) with (@nil TableRef).
    change (reverse (carried_runs (seal_ledger <$> None)) ≫= run_tables) with (@nil TableRef).
    rewrite fmap_nil, !app_nil_l.
    rewrite tables_forest_split; [|apply all_directory_plan|apply all_ledger_plan].
    rewrite fold_directory_plan, fold_ledger_plan. unfold directory_plan, ledger_plan.
    rewrite !plan_concat. apply (checkpoint_cells_exact (input_snapshot input)).
Qed.

End covers.

(** * The checkpoint's contract *)

Section contract.
  Context {J : Jiff} {HP : Heap} {HL : HeapLaws} {RL : RowLayout} {RLL : RowLayoutLaws}.
  Context {RS : Rkyv ArchivedSeal} {LS : RkyvLaws ArchivedSeal}.
  Context {RD : Rkyv (SstArchive ArchivedDirectoryRow)} {LD : RkyvLaws (SstArchive ArchivedDirectoryRow)}.
  Context {RG : Rkyv (SstArchive ArchivedLedgerRow)} {LG : RkyvLaws (SstArchive ArchivedLedgerRow)}.
  Context {SZ : SstSizeLaw} {SS : SealSizeLaw}.
  Context {DD : MapDiff StreamPath DirectoryEntry} {DL : MapDiff StreamUid StreamRecord}.
  Context {DDL : MapDiffLaws StreamPath DirectoryEntry} {DLL : MapDiffLaws StreamUid StreamRecord}.

(** The tables written carry the ordinals from zero, under one fresh identity. *)
Lemma prepared_fresh input sent cells carried newd newl prepared :
  prepared_from input sent cells carried newd newl prepared →
  (ordinal ∘ fresh ∘ table_object <$> (table_ref <$> sent)) = seqZ 0 (zlen sent) ∧
  Forall (λ t, birth_generation (fresh (table_object (table_ref t))) =
    seal_generation (prepared_successor prepared)) sent.
Proof.
  intros F. rewrite (from_sent _ _ _ _ _ _ _ F).
  pose proof (made_all_fresh _ _ _ Directory _ _ _ (λ m rows t H, proj1 H)
    (from_directory _ _ _ _ _ _ _ F)) as [Hod Hfd].
  pose proof (made_all_fresh _ _ _ Ledger _ _ _ (λ m rows t H, proj1 H)
    (from_ledger _ _ _ _ _ _ _ F)) as [Hol Hfl].
  split.
  - rewrite !fmap_app, Hod, Hol. unfold zlen. rewrite length_app, Nat2Z.inj_add.
    rewrite seqZ_app by lia. done.
  - apply Forall_app. split; eapply Forall_impl; try done; intros t Ht; simpl in Ht;
      unfold birth_generation; by rewrite (fresh_object _ _ _ _ _ Ht), (fresh_fields _ _ _ _ _ Ht).
Qed.

(** What a successor names, it carries from its source or has just written. *)
Lemma prepared_tables input sent cells carried newd newl prepared :
  cells_choice input cells carried →
  prepared_from input sent cells carried newd newl prepared →
  ∀ table, table ∈ seal_tables (prepared_successor prepared) →
    table ∈ seal_tables (input_source input) ∨ table ∈ table_ref <$> sent.
Proof.
  intros [_ Hch] F table Hin. rewrite (from_sent _ _ _ _ _ _ _ F), fmap_app.
  unfold seal_tables, fields_tables, tree_tables in *. rewrite elem_of_app in Hin.
  assert (∀ (tree : option TreeVersion) new runs, manifest (carried_runs tree) new runs →
    table ∈ runs ≫= run_tables → table ∈ new ∨ ∃ t, tree = Some t ∧ table ∈ tree_runs t ≫= run_tables)
    as Hm.
  { intros tree new runs ->%manifest_tables [?|Ht]%elem_of_app; [by left|right].
    destruct tree as [t|]; [by exists t|]. by apply elem_of_nil in Ht. }
  rewrite !elem_of_app.
  destruct Hin as [Hin|Hin]; [pose proof (from_directory_tree _ _ _ _ _ _ _ F) as Ht
    |pose proof (from_ledger_tree _ _ _ _ _ _ _ F) as Ht];
    (eapply Hm in Ht as [Ht|(t & Hs & Ht)]; [..|exact Hin]; [by auto|]);
    destruct Hch as [[-> _]|[-> _]]; simplify_eq/=; auto.
Qed.

(** What a preparation returns.  It fails only when the generations are spent, and stops
    short only when the pipeline hung up; otherwise the successor is the next generation
    of the same partition, replays from the ticket's cut, every table it names is its
    source's or was just sent, and the tables sent are born in that generation with the
    ordinals from zero. *)
Definition preparation_means (emit : Pipeline) (input : CheckpointInput) (sent : list EncodedTable)
    (r : Result CoordinateExhaustedError (option PreparedCheckpoint)) : Prop :=
  match r with
  | Err _ => coord_get (seal_generation (input_source input)) = u64_max
  | Ok None => ¬ ∀ sent t, emit sent t = true
  | Ok (Some prepared) =>
      let next := prepared_successor prepared in
      prepared_source prepared = input_source input ∧
      prepared_snapshot prepared = input_snapshot input ∧
      seal_partition next = seal_partition (input_source input) ∧
      successor (seal_generation (input_source input)) = Ok (seal_generation next) ∧
      seal_replay next = Through (ticket_cut (input_ticket input))
        {| Coordinates.generation := owner_claim (ticket_attempt (input_ticket input)) |} ∧
      (∀ table, table ∈ seal_tables next →
         table ∈ seal_tables (input_source input) ∨ table ∈ table_ref <$> sent) ∧
      (ordinal ∘ fresh ∘ table_object <$> (table_ref <$> sent)) = seqZ 0 (zlen sent) ∧
      Forall (λ t, birth_generation (fresh (table_object (table_ref t))) = seal_generation next) sent
  end.

Lemma prepare_checkpoint_means emit input :
  input_ok input →
  ∃ sent r, prepare_checkpoint emit input = Ret (sent, r) ∧ preparation_means emit input sent r.
Proof using HL LS LD LG SZ SS DDL DLL.
  intros I. destruct (prepare_checkpoint_Ret emit input I) as (sent & r & Hr & Hmeans).
  exists sent, r. split; [done|]. destruct r as [[prepared|]|]; [|done..].
  destruct Hmeans as (cells & carried & newd & newl & Hch & F).
  destruct (prepared_fresh _ _ _ _ _ _ _ F). pose proof (prepared_tables _ _ _ _ _ _ _ Hch F).
  destruct F. done.
Qed.

(** C11: a checkpoint loses nothing.  When the tables its source names fold to the base
    it was planned against, the tables its successor names, read in bootstrap's order,
    fold to the snapshot: whether the successor carries its source's runs under a delta
    or starts again from a full base. *)
Theorem checkpoint_covers emit input sent prepared (reads : TableRef → DecodedTable) :
  input_ok input →
  prepare_checkpoint emit input = Ret (sent, Ok (Some prepared)) →
  (∀ table, table ∈ planned_tables (input_source input) → decoded_matches table (reads table)) →
  tables_forest (reads <$> planned_tables (input_source input)) = input_base input →
  (∀ t, t ∈ sent → decode_table (seal_partition (input_source input)) (table_key t) (table_bytes t) =
     Ret (Ok (reads (table_ref t)))) →
  tables_forest (reads <$> planned_tables (prepared_successor prepared)) = input_snapshot input.
Proof using HL RLL LS LD LG SZ SS DDL DLL.
  intros I Hp Hm Hbase Hsent.
  destruct (prepare_checkpoint_Ret emit input I) as (sent' & r & Hr & Hmeans).
  rewrite Hr in Hp. injection Hp as -> ->. destruct Hmeans as (cells & carried & newd & newl & Hch & F).
  by eapply prepared_covers.
Qed.

End contract.

(** * A concrete checkpoint *)

#[local] Existing Instances reference_heap reference_heap_laws reference_jiff reference_layout
  reference_layout_laws reference_rkyv_laws reference_diff reference_diff_laws.
#[local] Existing Instance reference_rkyv.

Lemma sample_sst_size : SstSizeLaw.
Proof.
  split; [intros partition fresh rows..|split; by apply Z.leb_le|split; by apply Z.leb_le].
  - change (1 ≤ chunk_bytes directory_row_bytes rows).
    pose proof (rows_bytes_lower directory_row_bytes rows 0) as Hr. rewrite Z.mul_0_r in Hr.
    unfold chunk_bytes. enough (0 ≤ rows_bytes directory_row_bytes rows) by (unfold_bounds; lia).
    apply Hr, Forall_forall. intros row _. by apply Z.leb_le.
  - change (1 ≤ chunk_bytes ledger_row_bytes rows).
    pose proof (rows_bytes_lower ledger_row_bytes rows 0) as Hr. rewrite Z.mul_0_r in Hr.
    unfold chunk_bytes. enough (0 ≤ rows_bytes ledger_row_bytes rows) by (unfold_bounds; lia).
    apply Hr, Forall_forall. intros [uid []] _; by apply Z.leb_le.
Qed.
#[local] Existing Instance sample_sst_size.

Lemma sample_seal_size : SealSizeLaw.
Proof. intros seal _. change (1 ≤ SEAL_ENCODED_BYTES_MAX). unfold_bounds. lia. Qed.
#[local] Existing Instance sample_seal_size.

Definition sample_input : CheckpointInput :=
  mk_input (mk_ticket (seal_generation sample_claim_seal) (batch_no 5 I)
      (mk_attempt (seal_generation sample_claim_seal) 1))
    sample_claim_seal forest_empty sample_forest.

Lemma sample_input_ok : input_ok sample_input.
Proof.
  split; [done|done|simpl; lia|apply forest_empty_wf|apply sample_forest_wf|].
  intros path [e He]. simpl in He. by rewrite lookup_empty in He.
Qed.

Definition accepting : Pipeline := λ _ _, true.
Definition sample_preparation : list EncodedTable * option PreparedCheckpoint :=
  match prepare_checkpoint accepting sample_input with
  | Ret (sent, Ok prepared) => (sent, prepared)
  | _ => ([], None)
  end.

(** The tables of the sample, read back: one of each store. *)
Definition sample_reads (table : TableRef) : DecodedTable :=
  let read t :=
    match decode_table sample_partition (table_key t) (table_bytes t) with
    | Ret (Ok decoded) => decoded
    | _ => DecodedDirectory []
    end in
  match sample_preparation.1, store (table_object table) with
  | [t; _], Directory => read t
  | [_; t], _ => read t
  | _, _ => DecodedDirectory []
  end.

Lemma sample_prepared :
  ∃ t1 t2 prepared, sample_preparation = ([t1; t2], Some prepared) ∧
    prepare_checkpoint accepting sample_input = Ret ([t1; t2], Ok (Some prepared)).
Proof.
  assert (match sample_preparation with ([_; _], Some _) => true | _ => false end = true) as H
    by (vm_compute; reflexivity).
  assert (match prepare_checkpoint accepting sample_input with Ret (_, Ok _) => true | _ => false end
    = true) as Hr by (vm_compute; reflexivity).
  unfold sample_preparation in *.
  destruct (prepare_checkpoint accepting sample_input) as [[sent [prepared|]]|]; [|done..].
  destruct sent as [|t1 [|t2 [|]]], prepared as [prepared|]; try done.
  by exists t1, t2, prepared.
Qed.

Lemma sample_sent_read t :
  t ∈ sample_preparation.1 →
  decode_table sample_partition (table_key t) (table_bytes t) = Ret (Ok (sample_reads (table_ref t))).
Proof.
  assert (match sample_preparation.1 with
    | [t1; t2] => bool_decide (store (table_object (table_ref t1)) = Directory) &&
        bool_decide (store (table_object (table_ref t2)) = Ledger) &&
        match decode_table sample_partition (table_key t1) (table_bytes t1),
              decode_table sample_partition (table_key t2) (table_bytes t2) with
        | Ret (Ok _), Ret (Ok _) => true
        | _, _ => false
        end
    | _ => false
    end = true) as H by (vm_compute; reflexivity).
  unfold sample_reads. destruct sample_preparation.1 as [|t1 [|t2 [|]]]; try done.
  apply andb_true_iff in H as [[H1%bool_decide_eq_true H2%bool_decide_eq_true]%andb_true_iff H].
  rewrite !elem_of_cons, elem_of_nil. intros [->|[->|[]]]; rewrite ?H1, ?H2.
  - by destruct (decode_table sample_partition (table_key t1) (table_bytes t1)) as [[|]|].
  - destruct (decode_table sample_partition (table_key t1) (table_bytes t1)) as [[|]|]; [|done..].
    by destruct (decode_table sample_partition (table_key t2) (table_bytes t2)) as [[|]|].
Qed.

Lemma sample_no_tables : planned_tables sample_claim_seal = [].
Proof. apply length_zero_iff_nil. vm_compute. reflexivity. Qed.

Lemma checkpoint_covers_witness :
  ∃ prepared, sample_preparation.2 = Some prepared ∧
    tables_forest (sample_reads <$> planned_tables (prepared_successor prepared)) = sample_forest.
Proof.
  destruct sample_prepared as (t1 & t2 & prepared & Hs & Hp).
  exists prepared. split; [by rewrite Hs|].
  apply (checkpoint_covers accepting sample_input [t1; t2] prepared sample_reads).
  - apply sample_input_ok.
  - exact Hp.
  - intros table. change (input_source sample_input) with sample_claim_seal.
    rewrite sample_no_tables. intros []%elem_of_nil.
  - change (input_source sample_input) with sample_claim_seal. rewrite sample_no_tables. reflexivity.
  - intros t Ht. apply sample_sent_read. by rewrite Hs.
Defined.
