(* ===== verification/CheckpointLink.v ===== *)
(** Checkpoints and the Writer: the base a Seal promises is the fold of the log to its
    cut (crates [strom-storage-protocol] and [strom-storage-engine]).

    The invariant of this file follows a snapshot through the Writer: taken from the
    durable forest, handed to preparation, held while its Seal is published, and made
    the base of the next checkpoint.  It discharges what the other files assume of
    each other: every preparation the Writer starts gets an input preparation accepts,
    and whichever Seal a crash leaves at the head, its base is the fold of the history
    to its cut. *)

From S2P Require Import Prelude OrdMap Text Domain Coordinates Partition Seal Wal Forest.
From S2P Require Import ForestTheory Archive Spelling Sst Writer WriterSafety WriterSystem.
From S2P Require Import Bootstrap BootstrapSafety Recovery ObjectStore Stores StoreTheory.
From S2P Require Import Checkpoint CheckpointTheory CheckpointSafety.

(** * Forests along the log *)

Lemma occupancy_le_trans f g h : occupancy_le f g → occupancy_le g h → occupancy_le f h.
Proof. intros H1 H2 p Hp. by apply H2, H1. Qed.

Lemma log_applied_split f log1 log2 f2 :
  log_applied f (log1 ++ log2) f2 → ∃ f1, log_applied f log1 f1 ∧ log_applied f1 log2 f2.
Proof.
  revert f. induction log1 as [|[b facts] log1 IH]; intros f H; [exists f; split; [constructor|done]|].
  inversion H as [|? ? ? f' ? ? Hf Hl]; subst. destruct (IH _ Hl) as (f1 & H1 & H2).
  exists f1. split; [by econstructor|done].
Qed.

Lemma replayed_occupancy o f ws o' f' : replayed o f ws o' f' → occupancy_le f f'.
Proof.
  induction 1 as [|ws w o1 f1 _ IH _ _|ws w facts f1 f2 _ IH _ Hf]; [by intros p|done|].
  eapply occupancy_le_trans; [done|]. eapply forest_le_occupancy, facts_applied_le, Hf.
Qed.

(** * The invariant *)

Section link.
  Context {HP : Heap} {HL : HeapLaws} {RW : Rkyv ArchivedWalObject} {LW : RkyvLaws ArchivedWalObject}.
  Context {SL : WalSizeLaw} (recovery : WriterRecovery).

(** What a recovery says of its base. *)
Record base_ok : Prop := {
  base_wf : forest_wf (recovery_base recovery);
  base_occupancy : occupancy_le (recovery_base recovery) (recovery_durable recovery)
}.

(** The forest the log folds to at a cut. *)
Definition snapshot_of (log : list (BatchId * list OperationFact)) (cut : BatchId) (f : Forest) : Prop :=
  ∃ log1 log2, log = log1 ++ log2 ∧ log_applied (recovery_durable recovery) log1 f ∧
    coord_get cut = coord_get (recovery_durable_batch recovery) + zlen log1.

(** A Seal's replay point and the forest its tables hold: what was recovered, or a
    snapshot of this Writer's log. *)
Definition covers (log : list (BatchId * list OperationFact)) (seal : Seal) (base : Forest) : Prop :=
  (seal_replay seal = seal_replay (recovery_seal recovery) ∧ base = recovery_base recovery) ∨
  (∃ cut, seal_replay seal = Through cut {| Coordinates.generation :=
      claim_generation (recovery_claim recovery) |} ∧ snapshot_of log cut base).

Record lineage (m : WriterMachine) (effects : list WriterEffect)
    (log : list (BatchId * list OperationFact)) : Prop := {
  ln_base : covers log (w_seal m) (w_base m);
  ln_claim : coord_get (claim_generation (recovery_claim recovery)) ≤ coord_get (seal_generation (w_seal m));
  ln_prepare : ∀ input, PrepareCheckpoint input ∈ effects →
    input_ok input ∧ snapshot_of log (ticket_cut (input_ticket input)) (input_snapshot input) ∧
    covers log (input_source input) (input_base input);
  ln_publish : ∀ t p, w_checkpoint m = Some (Publishing t p) →
    snapshot_of log (ticket_cut t) (prepared_snapshot p)
}.

Lemma snapshot_of_app log more cut f : snapshot_of log cut f → snapshot_of (log ++ more) cut f.
Proof.
  intros (log1 & log2 & -> & Hl & Hc). exists log1, (log2 ++ more). by rewrite (assoc_L (++)).
Qed.

Lemma covers_app log more seal base : covers log seal base → covers (log ++ more) seal base.
Proof. intros [?|(cut & Hr & Hs)]; [by left|]. right. eauto using snapshot_of_app. Qed.

Lemma lineage_app m effects log more : lineage m effects log → lineage m effects (log ++ more).
Proof.
  intros [H1 H2 H3 H4]. split; [by apply covers_app|done|..].
  - intros input (? & ? & ?)%H3. eauto using snapshot_of_app, covers_app.
  - intros t p ?%H4. eauto using snapshot_of_app.
Qed.

(** Events that move neither the Seal nor the base, and start neither a preparation nor
    a publication. *)
Lemma lineage_frame m m' effects effects' log :
  lineage m effects log →
  w_seal m' = w_seal m → w_base m' = w_base m →
  (∀ t p, w_checkpoint m' = Some (Publishing t p) → w_checkpoint m = Some (Publishing t p)) →
  (∀ input, PrepareCheckpoint input ∈ effects' → PrepareCheckpoint input ∈ effects) →
  lineage m' effects' log.
Proof.
  intros [H1 H2 H3 H4] Es Eb Hp He. split; rewrite ?Es, ?Eb; [done|done|..]; eauto.
Qed.

Lemma snapshot_of_wf m wal log cut f :
  forest_wf (recovery_durable recovery) → durable_log recovery m wal log → snapshot_of log cut f →
  forest_wf f ∧ occupancy_le f (forest_of (w_durable m)).
Proof.
  intros Hwf D (log1 & log2 & -> & Hl & _). split; [by eapply log_applied_wf|].
  destruct (log_applied_split _ _ _ _ (log_folds _ _ _ _ D)) as (f1 & H1 & H2).
  rewrite (log_applied_det _ _ _ _ Hwf Hl H1). eapply forest_le_occupancy, log_applied_le, H2.
Qed.

Lemma covers_wf m wal log seal base :
  base_ok → forest_wf (recovery_durable recovery) → durable_log recovery m wal log →
  covers log seal base → forest_wf base ∧ occupancy_le base (forest_of (w_durable m)).
Proof.
  intros [Hb Ho] Hwf D [[_ ->]|(cut & _ & Hs)]; [|by eapply snapshot_of_wf].
  split; [done|]. eapply occupancy_le_trans; [done|].
  eapply forest_le_occupancy, log_applied_le, (log_folds _ _ _ _ D).
Qed.

(** A checkpoint the Writer takes is one preparation accepts. *)
Lemma lineage_taken m m' effects wal log input :
  base_ok → forest_wf (recovery_durable recovery) → writer_core m →
  w_claim m = recovery_claim recovery → durable_log recovery m wal log →
  w_ingress_open m = true → w_checkpoint_attempt m < u64_max →
  take_checkpoint m = Ret (m', Some input) → lineage m effects log →
  lineage m' (effects ++ [PrepareCheckpoint input]) log.
Proof.
  intros B Hwf C Hcl D Hop Hatt Htake [H1 H2 H3 H4].
  destruct (take_checkpoint_ok m C Hop Hatt)
    as (m1 & o & Ht & C' & _ & _ & _ & _ & Ho). rewrite Htake in Ht. injection Ht as <- <-.
  destruct Ho as (_ & Hck & Hsrc & Hbase & Hsnap & Hcut & Hm).
  pose proof (core_checkpoint _ C') as Hok. unfold checkpoint_ok in Hok. rewrite Hck in Hok.
  destruct Hok as (_ & Hts & [Hlt _] & Hown).
  assert (w_seal m' = w_seal m ∧ w_base m' = w_base m ∧ w_claim m' = w_claim m) as (Es & Eb & Ec)
    by (by rewrite Hm).
  split; rewrite ?Es, ?Eb; [done|done| |by intros t p; rewrite Hck].
  intros input' [He|[= ->]%list_elem_of_singleton]%elem_of_app; [by apply H3|].
  destruct (covers_wf m wal log _ _ B Hwf D H1) as [Hbw Hbo]. split; [|split].
  - rewrite Es in Hts, Hlt. rewrite Ec, Hcl in Hown. split; rewrite ?Hsrc, ?Hbase, ?Hsnap; try done.
    + intros c Hc. unfold seal_cut in Hlt. by rewrite Hc in Hlt.
    + by rewrite Hown.
    + apply C.
  - exists log, []. rewrite Hsnap, Hcut. split; [by rewrite (right_id_L [] (++))|].
    split; [apply D|]. apply (log_head _ _ _ _ D).
  - by rewrite Hsrc, Hbase.
Qed.

(** ** What the interpreter's effects are *)

Lemma execute_outputs_effects i outs i' :
  execute_outputs i outs = Ret i' →
  ∀ e, e ∈ i_effects i' → e ∈ i_effects i ∨ Effect e ∈ outs.
Proof.
  revert i. induction outs as [|out outs IH]; intros i; cbn [execute_outputs].
  - intros [= <-]. by left.
  - intros Hx e He. setoid_rewrite elem_of_cons. destruct out as [e'|a].
    + unfold spawn_effect in Hx. destruct (negb _) in Hx; [|done]. cbn [exec_bind] in Hx.
      destruct (IH _ Hx e He) as [[?| ->%list_elem_of_singleton]%elem_of_app|?]; simpl; auto.
    + destruct (execute_action i a) as [i1|] eqn:Ha; cbn [exec_bind] in Hx; [|done].
      assert (i_effects i1 = i_effects i) as Heq.
      { destruct a; simpl in Ha; repeat case_match; simplify_eq; done. }
      destruct (IH _ Hx e He) as [Hin|?]; [rewrite Heq in Hin|]; auto.
Qed.

Lemma flushed_effects m now m' outs e :
  flushed m now m' outs → Effect e ∈ outs → ∃ c, e = EstablishWal c.
Proof.
  intros Hf. destruct Hf as [|m' out _ Hd|dl|]; try by intros ?%not_elem_of_nil.
  - intros Ho%list_elem_of_singleton. destruct Hd; simplify_eq. eauto.
  - by intros ?%list_elem_of_singleton.
Qed.

(** ** Each observation *)

Lemma lineage_durable m wal log f c facts effects effects' :
  writer_core m → durable_log recovery m wal log → w_flight m = Some f →
  run_candidate recovery c (flight_batch f, facts) →
  facts_applied (flight_batch f) (forest_of (w_durable m)) facts (forest_of (flight_forest f)) →
  lineage m effects log → (∀ input, PrepareCheckpoint input ∈ effects' → PrepareCheckpoint input ∈ effects) →
  let m' := set_durable_batch (flight_batch f) (set_durable (flight_forest f) (set_flight None m)) in
  ∃ log', durable_log recovery m' (wal ++ [c]) log' ∧ lineage m' effects' log'.
Proof.
  intros C D Hf Hrun Hfacts L He. exists (log ++ [(flight_batch f, facts)]).
  split; [by eapply durable_log_snoc|]. apply (lineage_frame m _ effects); try done.
  by apply lineage_app.
Qed.

(** A published successor covers its snapshot. *)
Lemma lineage_published m log t p effects effects' collector :
  writer_core m → w_claim m = recovery_claim recovery → lineage m effects log →
  w_checkpoint m = Some (Publishing t p) →
  (∀ input, PrepareCheckpoint input ∈ effects' → PrepareCheckpoint input ∈ effects) →
  lineage (set_collector collector (published m p)) effects' log.
Proof.
  intros C Hcl [H1 H2 H3 H4] Hck He. pose proof (core_checkpoint _ C) as Hok.
  unfold checkpoint_ok in Hok. rewrite Hck in Hok. destruct Hok as [(_ & _ & Hown) Hp].
  apply PreparedCheckpoint_new_Ret in Hp as (_ & _ & _ & Hgen & Hrep & _).
  split; simpl; [|lia|by intros input ?%He%H3|done].
  right. exists (ticket_cut t). rewrite Hrep, Hown, Hcl. split; [done|]. by apply (H4 t p).
Qed.

Lemma applied_lineage s event s1 m1 outs log :
  sys_inv recovery s → observes s event s1 → applied (set_started true (s_machine s)) event m1 outs →
  durable_log recovery (s_machine s) (s_wal s) log →
  lineage (s_machine s) (i_effects (s_interp s)) log →
  ∃ log', durable_log recovery m1 (s_wal s1) log' ∧ lineage m1 (i_effects (s_interp s1)) log'.
Proof.
  intros I Ho Ha D L. pose proof (sys_machine _ _ I) as [C _]. set (m := s_machine s) in *.
  pose proof (sys_linked _ _ I) as K. fold m in K.
  assert (writer_core (set_started true m)) as Cs by (by destruct C).
  assert (durable_log recovery (set_started true m) (s_wal s) log) as Ds by (by apply (durable_log_frame _ m)).
  assert (lineage (set_started true m) (i_effects (s_interp s)) log) as Ls by (by apply (lineage_frame _ _ _ _ _ L)).
  assert (∀ m', w_durable m' = w_durable m → w_durable_batch m' = w_durable_batch m →
    lineage m' (i_effects (s_interp s1)) log → s_wal s1 = s_wal s →
    ∃ log', durable_log recovery m' (s_wal s1) log' ∧ lineage m' (i_effects (s_interp s1)) log') as Hsame.
  { intros m' Ed Eb L' ->. exists log. split; [by apply (durable_log_frame _ m)|done]. }
  destruct Ho as [Hs|e event before after Hs Hsplit Hans|Hs Ht|envelope Hs Hop|Hs Hop].
  - inversion Ha; subst. by apply Hsame.
  - assert (∀ input, PrepareCheckpoint input ∈ before ++ after →
      PrepareCheckpoint input ∈ i_effects (s_interp s)) as Hsub by (rewrite Hsplit; set_solver).
    inversion Ha as [| | | | |f Hf|t p Hck Hp|t outcome Hck|t p Hck|t p Hck Hop Hcol|cut|t Hck];
      subst; inversion Hans; subst; cbn [s_interp s_wal made_durable i_effects with_effects] in *;
      rewrite ?(right_id_L [] (++)) in *.
    + destruct (li_effects _ _ _ _ _ K) as (ew & ep & ec & He). rewrite Hsplit in He.
      pose proof (remove_effect _ _ _ _ _ _ _ _ _ He) as [-> _].
      pose proof (effects_wal _ _ _ _ _ _ _ He) as Hw. unfold wal_part in Hw.
      simpl in Hf. fold m in Hw. rewrite Hf in Hw. destruct Hw as (c & facts & [= ->] & Hrun & Hfacts).
      match goal with H : encoded_wal_batch _ = flight_batch _ |- _ => rewrite ?H end.
      by eapply (lineage_durable (set_started true m)).
    + apply Hsame; [done..| |done]. destruct Ls as [? ? Hprep Hpub].
      split; simpl; [done|done|by intros input' ?%Hsub%Hprep|]. intros t p' [= <- <-].
      match goal with H : PreparedCheckpoint_new _ _ _ _ _ = _ |- _ =>
        apply PreparedCheckpoint_new_Ret in H as [-> _] end.
      apply Hprep. rewrite Hsplit. set_solver.
    + apply Hsame; [done..| |done]. by apply (lineage_frame _ _ _ _ _ Ls).
    + apply Hsame; [done..| |done]. by apply (lineage_frame _ _ _ _ _ Ls).
    + apply Hsame; [done..| |done]. by apply (lineage_frame _ _ _ _ _ Ls).
    + apply Hsame; [done..| |done].
      eapply (lineage_published _ log _ _ _ _ (w_collector m) Cs (li_claim _ _ _ _ _ K) Ls Hck Hsub).
    + apply Hsame; [done..| |done].
      eapply (lineage_published _ log _ _ _ _ _ Cs (li_claim _ _ _ _ _ K) Ls Hck Hsub).
    + apply Hsame; [done..| |done]. by apply (lineage_frame _ _ _ _ _ Ls).
    + apply Hsame; [done..| |done]. by apply (lineage_frame _ _ _ _ _ Ls).
  - inversion Ha; subst. apply Hsame; [done..| |done]. by apply (lineage_frame _ _ _ _ _ Ls).
  - inversion Ha as [|env m' o Hadm| | | | | | | | | |]; subst.
    pose proof (admit_attempt _ _ _ _ Hadm) as [_ Eb].
    assert (admit_frame (set_started true m) m1) as (_ & Ed & Edb & Eck & _ & Es & _)
      by (by destruct (admit_admitted _ _ _ _ Cs Hadm)).
    apply Hsame; [done..| |done]. apply (lineage_frame _ _ _ _ _ Ls); [done|done| |done].
    intros t p. by rewrite Eck.
  - inversion Ha; subst; (apply Hsame; [done..| |done]); by apply (lineage_frame _ _ _ _ _ Ls).
Qed.

(** ** Scheduling and the step *)

Lemma applied_prepares m event m' outs input :
  applied m event m' outs → Effect (PrepareCheckpoint input) ∉ outs.
Proof.
  intros Ha Hin. destruct Ha as [|env m' [c|] _| |t _|_|f _|t p _ _|t o _|t p _|t p _ _ _|cut|t _];
    simpl in Hin; set_solver.
Qed.

Lemma applied_keeps m event m' outs :
  writer_core m → applied m event m' outs →
  w_claim m' = w_claim m ∧ w_checkpoint_attempt m' = w_checkpoint_attempt m.
Proof.
  intros C Ha. destruct Ha as [|env m' o Hadm| |t _|_|f _|t p _ _|t o _|t p _|t p _ _ _|cut|t _]; try done.
  split; [|by apply admit_attempt in Hadm as [? _]].
  assert (admit_frame m m') as (_ & _ & _ & _ & _ & _ & ? & _); [|done].
  by destruct (admit_admitted _ _ _ _ C Hadm).
Qed.

Lemma scheduled_lineage m now i outs m' outs' exit i' wal log :
  base_ok → forest_wf (recovery_durable recovery) → writer_core m →
  w_claim m = recovery_claim recovery → w_checkpoint_attempt m < u64_max →
  (∀ input, Effect (PrepareCheckpoint input) ∉ outs) →
  scheduled m now outs m' outs' exit → execute_outputs i outs' = Ret i' →
  durable_log recovery m wal log → lineage m (i_effects i) log →
  durable_log recovery m' wal log ∧ lineage m' (i_effects i') log.
Proof using HL LW SL.
  intros B Hwf C Hcl Hatt Hno Hs Hi D L. pose proof (execute_outputs_effects _ _ _ Hi) as Hin.
  assert (∀ m1 fl, flushed m now m1 fl → writer_core m1 ∧ durable_log recovery m1 wal log ∧
    lineage m1 (i_effects i) log ∧ w_claim m1 = w_claim m ∧ w_ingress_open m1 = w_ingress_open m ∧
    w_checkpoint_attempt m1 = w_checkpoint_attempt m ∧
    ∀ input, Effect (PrepareCheckpoint input) ∉ outs ++ fl) as Hfl.
  { intros m1 fl Hf. pose proof (flushed_inv _ _ _ _ C Hf) as [C1 _].
    destruct (flushed_frame _ _ _ _ Hf) as (Eo & Eck & Ea & _ & Es & _ & Ecl & Ed & Edb & Eb & _).
    split_and!; try done.
    - by apply (durable_log_frame _ m).
    - apply (lineage_frame _ _ _ _ _ L); try done. intros t p. by rewrite Eck.
    - intros input [?%Hno|Hx]%elem_of_app; [done|].
      by destruct (flushed_effects _ _ _ _ _ Hf Hx). }
  destruct Hs as [m1 fl m' input Hf Hop Ht|m' fl Hf Hop|m' fl Hf Hop _ _ _|m' fl Hf Hop _];
    destruct (Hfl _ _ Hf) as (C1 & D1 & L1 & Ecl & Eo & Ea & Hnone).
  2-4: split; [done|]; apply (lineage_frame _ _ _ _ _ L1); try done;
    intros input Hx; destruct (Hin _ Hx) as [?|?%Hnone]; done.
  pose proof (lineage_taken m1 m' _ wal log input B Hwf C1 ltac:(congruence) D1 ltac:(congruence)
    ltac:(lia) Ht L1) as Lt.
  destruct (take_checkpoint_ok m1 C1 ltac:(congruence) ltac:(lia))
    as (m2 & o & Ht' & _ & _ & _ & _ & _ & Ho). rewrite Ht in Ht'. injection Ht' as <- <-.
  destruct Ho as (_ & _ & _ & _ & _ & _ & Hm). split; [by apply (durable_log_frame _ m1); rewrite ?Hm|].
  apply (lineage_frame _ _ _ _ _ Lt); try done.
  intros input' Hx. apply elem_of_app. destruct (Hin _ Hx) as [?|Ho]; [by left|right].
  rewrite (assoc_L (++)) in Ho. apply elem_of_app in Ho as [?%Hnone|Ho]; [done|].
  apply list_elem_of_singleton in Ho. set_solver.
Qed.

Lemma react_Ret s now event s' :
  react s now event = Ret (s', None) →
  ∃ outs, handle (s_machine s) now event = Ret (s_machine s', mk_step outs None) ∧
    execute_outputs (s_interp s) outs = Ret (s_interp s') ∧ s_wal s' = s_wal s.
Proof.
  unfold react, execute_step.
  destruct (handle _ now event) as [[m [outs exit]]|]; cbn [exec_bind step_outputs step_exit]; [|done].
  destruct (_ <=? _); [|done]. destruct (match exit with Some _ => _ | None => _ end); [|done].
  destruct (execute_outputs _ outs) as [i|] eqn:Hi; cbn [exec_bind]; [|done].
  intros [= <- ->]. eauto.
Qed.

Lemma reachable_lineage interval buffer s :
  recovery_ok recovery buffer → base_ok → reachable recovery interval buffer s →
  ∃ log, durable_log recovery (s_machine s) (s_wal s) log ∧
    lineage (s_machine s) (i_effects (s_interp s)) log.
Proof using HL LW SL.
  intros Hok B. pose proof (recovery_forest _ _ Hok) as Hwf.
  induction 1 as [s Hs|s now event s' Hr IH Hatt Hstep].
  - apply sys_init_Ret in Hs as (Hg & _ & Es & Eb & Ed & Edb & Eck & _ & Ei & _ & Ew).
    exists []. rewrite Ei, Ew. split.
    + split; simpl; rewrite ?Ed, ?Edb; try done; [constructor|unfold zlen; simpl; lia].
    + split; simpl; rewrite ?Es, ?Eb, ?Eck; [by left|by rewrite Hg|by intros input ?%not_elem_of_nil|done].
  - destruct IH as (log & D & L). pose proof (reachable_inv _ _ _ _ Hok Hr) as I.
    inversion Hstep as [s1 s2 exit Ho Hrs]; subst.
    destruct (react_Ret _ _ _ _ Hrs) as (outs & Hh & Hi & ->).
    assert (s_machine s1 = s_machine s) as Hm by (by destruct Ho). rewrite Hm in Hh.
    pose proof (observes_enabled _ _ _ _ (sys_machine _ _ I) (sys_linked _ _ I) Ho) as Hen.
    destruct (handle_ok (s_machine s) now event (sys_machine _ _ I) Hen Hatt)
      as (m' & outs' & exit & Hh' & Hd & _). rewrite Hh in Hh'. injection Hh' as <- <- <-.
    inversion Hd as [|m1 outs1 m2 outs2 exit Ha C1 Hs]; subst.
    destruct (applied_lineage s event s1 m1 outs1 log I Ho Ha D L) as (log' & D1 & L1).
    destruct (set_started_inv _ (sys_machine _ _ I)) as [C0 _].
    destruct (applied_keeps _ _ _ _ C0 Ha) as [Ecl Ea].
    exists log'. eapply (scheduled_lineage m1); try done.
    + rewrite Ecl. apply (li_claim _ _ _ _ _ (sys_linked _ _ I)).
    + by rewrite Ea.
    + intros input. by eapply applied_prepares.
Qed.

End link.

(** * Discharged assumptions *)

(** The Seal a stopped Writer may leave at the head, its own or the one it was publishing,
    and the forest the Writer keeps for it in memory. *)
Inductive head_seal (s : System) : Seal → Forest → Prop :=
| head_published : head_seal s (w_seal (s_machine s)) (w_base (s_machine s))
| head_publishing t p :
    w_checkpoint (s_machine s) = Some (Publishing t p) →
    head_seal s (prepared_successor p) (prepared_snapshot p).

Section discharged.
  Context {J : Jiff} {HP : Heap} {HL : HeapLaws}.
  Context {RW : Rkyv ArchivedWalObject} {LW : RkyvLaws ArchivedWalObject} {SL : WalSizeLaw}.
  Context {RL : RowLayout} {RLL : RowLayoutLaws} {RS : Rkyv ArchivedSeal} {LS : RkyvLaws ArchivedSeal}.
  Context {RD : Rkyv (SstArchive ArchivedDirectoryRow)} {LD : RkyvLaws (SstArchive ArchivedDirectoryRow)}.
  Context {RG : Rkyv (SstArchive ArchivedLedgerRow)} {LG : RkyvLaws (SstArchive ArchivedLedgerRow)}.
  Context {SZ : SstSizeLaw} {SS : SealSizeLaw}.
  Context {DD : MapDiff StreamPath DirectoryEntry} {DL : MapDiff StreamUid StreamRecord}.
  Context {DDL : MapDiffLaws StreamPath DirectoryEntry} {DLL : MapDiffLaws StreamUid StreamRecord}.

Lemma recovered_base_ok t r : recovered t r → base_ok r.
Proof.
  intros R. split; [apply (recovered_wf _ _ R)|]. by eapply replayed_occupancy, (recovered_fold _ _ R).
Qed.

Lemma head_seal_covers r m effects wal log s seal base :
  writer_core m → w_claim m = recovery_claim r → durable_log r m wal log →
  lineage r m effects log → s_machine s = m → head_seal s seal base → covers r log seal base.
Proof.
  intros C Hcl D L <- [|t p Hck]; [apply L|].
  pose proof (core_checkpoint _ C) as Hok. unfold checkpoint_ok in Hok. rewrite Hck in Hok.
  destruct Hok as [(_ & _ & Hown) Hp]. apply PreparedCheckpoint_new_Ret in Hp as (_ & _ & _ & _ & Hrep & _).
  right. exists (ticket_cut t). rewrite Hrep, Hown, Hcl. split; [done|]. by eapply ln_publish.
Qed.

(** A snapshot of the log is the replay of what was read back, up to its cut. *)
Lemma snapshot_replayed t r wal log ws cut base m :
  recovered t r → durable_log r m wal log → reads_back wal ws → snapshot_of r log cut base →
  ∃ prefix suffix, trace_wal t ++ ws = prefix ++ suffix ∧
    zlen prefix = coord_get cut - seal_cut (recovery_seal r) ∧
    replayed (replay_owner (seal_replay (recovery_seal r))) (recovery_base r) prefix
      (Some (claim_owner (recovery_claim r))) base.
Proof using HL LW.
  intros R [Hobj _ _ _] Hw (log1 & log2 & -> & Hl & Hcut).
  apply Forall2_app_inv_r in Hobj as (wal1 & wal2 & Ho1 & _ & ->).
  apply Forall2_app_inv_l in Hw as (ws1 & ws2 & Hw1 & _ & ->).
  destruct (runs_replayed r wal1 log1 ws1 _ _ Ho1 Hw1 Hl) as [Hr _].
  exists (trace_wal t ++ ws1), ws2. split; [by rewrite (assoc_L (++))|]. split.
  - pose proof (recovered_span _ _ R). pose proof (f_equal length (recovered_batches _ _ R)) as Hn.
    rewrite length_fmap, length_seqZ in Hn. unfold zlen in *. rewrite length_app.
    rewrite <- (Forall2_length _ _ _ Hw1), (Forall2_length _ _ _ Ho1). lia.
  - apply replayed_app. eexists _, _. split; [apply (recovered_fold _ _ R)|done].
Qed.

(** No checkpoint the Writer starts can panic.  In every reachable state of a
    Writer, whatever preparation is outstanding, and wherever its pipeline hangs up,
    preparing its input returns, and returns what [preparation_means] says. *)
Theorem writer_checkpoint_prepares (r : WriterRecovery) (interval buffer : Z) (s : System)
    (input : CheckpointInput) (emit : Pipeline) :
  recovery_ok r buffer → base_ok r → reachable r interval buffer s →
  PrepareCheckpoint input ∈ i_effects (s_interp s) →
  ∃ sent result, prepare_checkpoint emit input = Ret (sent, result) ∧
    preparation_means emit input sent result.
Proof using HL LW SL LS LD LG SZ SS DDL DLL.
  intros Hok B Hr Hin. destruct (reachable_lineage r interval buffer s Hok B Hr) as (log & _ & L).
  apply prepare_checkpoint_means. by eapply ln_prepare.
Qed.

(** A Writer keeps a forest for the Seal at the head, its own or the one it is
    publishing, and this forest is the fold of the history (what bootstrap replayed, then
    what the Writer made durable) to the Seal's cut: what crash recovery assumes of a base
    that is this forest.  That the Seal's tables hold it is [checkpoint_covers], and across
    processes [seals_hold_history]. *)
Lemma checkpoint_base_covers (t : Trace) (r r' : WriterRecovery) (interval buffer : Z) (s : System)
    (ws : list WalObject) (seal : Seal) (base : Forest) :
  recovered t r → 1 ≤ buffer ≤ WAL_ENCODED_BYTES_MAX → reachable r interval buffer s →
  reads_back (s_wal s) ws → head_seal s seal base →
  seal_replay (recovery_seal r') = seal_replay seal → recovery_base r' = base →
  base_covers (trace_wal t ++ ws) r r'.
Proof using HL LW SL.
  intros R Hb Hr Hw Hh Hrep Hbase. pose proof (recovered_handoff _ _ _ R Hb) as Hok.
  destruct (reachable_lineage r interval buffer s Hok (recovered_base_ok _ _ R) Hr) as (log & D & L).
  destruct (reachable_inv _ _ _ _ Hok Hr) as [[C _] Li _].
  unfold base_covers, seal_cut. rewrite Hrep, Hbase.
  destruct (head_seal_covers r _ _ _ _ s seal base C (li_claim _ _ _ _ _ Li) D L eq_refl Hh)
    as [[-> ->]|(cut & -> & Hs)].
  - exists [], (trace_wal t ++ ws). split; [done|]. split; [unfold zlen; simpl; lia|constructor].
  - destruct (snapshot_replayed t r _ log ws cut base _ R D Hw Hs) as (prefix & suffix & ? & ? & Hp).
    exists prefix, suffix. split; [done|]. split; [done|]. cbn [replay_owner].
    by rewrite (recovered_claim _ _ R) in Hp |- *.
Qed.

End discharged.

(** * A concrete checkpoint, issued *)

#[local] Existing Instances reference_heap reference_heap_laws reference_jiff reference_layout
  reference_layout_laws reference_rkyv_laws reference_diff reference_diff_laws.
#[local] Existing Instances sample_size_law sample_sst_size sample_seal_size.
#[local] Existing Instance reference_rkyv.

(** A recovery whose WAL suffix is long enough to checkpoint at once. *)
Definition long_recovery : WriterRecovery :=
  mk_recovery (AuthoredClaim_new (generation_no 2 I)) sample_claim_seal forest_empty sample_forest
    (batch_no 600 I).
Definition long_s0 : System :=
  match sys_init long_recovery 0 4096 with Ret s => s | Panic => sample_s0 end.
Definition long_s1 : System := or_else (react long_s0 0 Started) long_s0.

Lemma long_recovery_ok : recovery_ok long_recovery 4096.
Proof. split; [done|done|done|unfold_bounds; lia|apply sample_forest_wf]. Qed.

Lemma long_base_ok : base_ok long_recovery.
Proof. split; [apply forest_empty_wf|]. intros p [e He]. simpl in He. by rewrite lookup_empty in He. Qed.

Lemma long_s1_reachable : reachable long_recovery 0 4096 long_s1.
Proof.
  eapply (reachable_step _ _ _ long_s0 0 Started).
  - by apply reachable_init.
  - done.
  - apply (sys_step_intro _ _ _ long_s0); [by constructor|]. apply lives_or_else. vm_compute. reflexivity.
Qed.

Definition prepared_inputs (s : System) : list CheckpointInput :=
  omap (λ e, match e with PrepareCheckpoint input => Some input | _ => None end) (i_effects (s_interp s)).

Lemma long_s1_prepares : ∃ input, PrepareCheckpoint input ∈ i_effects (s_interp long_s1).
Proof.
  assert (∃ input, input ∈ prepared_inputs long_s1) as (input & Hin).
  { assert (length (prepared_inputs long_s1) = 1%nat) as Hl by (vm_compute; reflexivity).
    destruct (prepared_inputs long_s1) as [|input l]; [done|]. exists input. by left. }
  apply list_elem_of_omap in Hin as ([] & He & [= ->]). eauto.
Qed.

Lemma writer_checkpoint_prepares_witness :
  ∃ input, PrepareCheckpoint input ∈ i_effects (s_interp long_s1) ∧
    ∃ sent result, prepare_checkpoint accepting input = Ret (sent, result) ∧
      preparation_means accepting input sent result.
Proof.
  destruct long_s1_prepares as (input & He). exists input. split; [exact He|].
  apply (writer_checkpoint_prepares long_recovery 0 4096 long_s1 input accepting);
    [apply long_recovery_ok|apply long_base_ok|apply long_s1_reachable|exact He].
Defined.

Lemma checkpoint_base_covers_witness :
  base_covers (trace_wal (mk_trace [] [first_fence]) ++ [first_run]) sample_recovery restart_recovery.
Proof.
  apply (checkpoint_base_covers (mk_trace [] [first_fence]) sample_recovery restart_recovery 0 4096
    sample_s3 [first_run] (w_seal (s_machine sample_s3)) (w_base (s_machine sample_s3))).
  - apply (boot_reach_ok _ b8.1 (StepComplete sample_recovery) sample_boot_reach).
  - unfold_bounds. lia.
  - apply sample_s3_reachable.
  - apply sample_reads_back.
  - constructor.
  - vm_compute. reflexivity.
  - vm_compute. reflexivity.
Defined.
