(* ===== verification/CheckpointRun.v ===== *)
(** Checkpoint effects on the stores (crate [strom-storage-engine], files [checkpoint.rs]
    and [checkpoint/collect.rs]): preparation establishes its tables before it reports a
    checkpoint prepared, and collection deletes what a published checkpoint supersedes.

    The creates of a preparation run concurrently and complete in any order; [order]
    is the order in which they complete, and a request still outstanding when the
    pipeline stops is one whose outcome is never learned, which the store laws let take
    effect at any moment.  The file shows that a checkpoint is reported prepared only
    when the store has held every table its Seal names, and that collection terminates,
    deletes nothing but superseded RUNs and dropped tables, and when the requests it makes
    do not fail has passed a moment without each of them. *)

From S2P Require Import Prelude OrdMap Text Domain Coordinates Partition Seal Wal Forest.
From S2P Require Import ForestTheory Archive Spelling Sst Writer WriterSafety WriterSystem.
From S2P Require Import Bootstrap BootstrapSafety Recovery ObjectStore Stores StoreTheory.
From S2P Require Import Checkpoint CheckpointTheory CheckpointSafety CheckpointLink BootstrapRun.

(** * The operations *)

Section operations.
  Context {DF : DebugFormat} {B : Backend} {J : Jiff} {HP : Heap} {RL : RowLayout}.
  Context {RW : Rkyv ArchivedWalObject} {RS : Rkyv ArchivedSeal}.
  Context {RD : Rkyv (SstArchive ArchivedDirectoryRow)} {RG : Rkyv (SstArchive ArchivedLedgerRow)}.
  Context {DD : MapDiff StreamPath DirectoryEntry} {DL : MapDiff StreamUid StreamRecord}.

(** strom-storage-engine/src/checkpoint.rs:63-85, [establish_tables]. *)
Fixpoint establish_tables (w : World) (tables : list EncodedTable) : Exec (World * TableEstablishment) :=
  match tables with
  | [] => Ret (w, TableEstablished)
  | table :: tables =>
      let! (w, established) := establish_table w table in
      match established with
      | TableEstablished => establish_tables w tables
      | TableAbandoned => Ret (w, TableAbandoned)
      | TableContradiction detail => Ret (w, TableContradiction detail)
      end
  end.

(** strom-storage-domain/src/coordinate.rs:5-8, [Display for CoordinateExhausted]. *)
Definition coordinate_exhausted_display (error : CoordinateExhaustedError) : str :=
  lit "storage coordinate is exhausted".

(** [order] is the order in which the creates complete; [join_error] is the runtime's
    description of a panic of the preparation task.  Tables a task sent before it panicked
    are not written here: [prepare_checkpoint] does not panic on an input a Writer hands
    over (CheckpointSafety.v), and the theorems about [prepare] are about such inputs.
    strom-storage-engine/src/checkpoint.rs:20-53, [prepare]. *)
Definition prepare (order : list EncodedTable → list EncodedTable) (join_error : str) (w : World)
    (input : CheckpointInput) : Exec (World * PreparationOutcome) :=
  match prepare_checkpoint (λ _ _, true) input with
  | Panic => Ret (w, PreparationContradiction (lit "checkpoint preparation task failed: " ++ join_error))
  | Ret (sent, prepared) =>
      let! (w, established) := establish_tables w (order sent) in
      Ret (w, match established with
              | TableEstablished =>
                  match prepared with
                  | Ok (Some prepared) => Prepared prepared
                  | Ok None => Abandoned
                  | Err error => PreparationContradiction (coordinate_exhausted_display error)
                  end
              | TableAbandoned => Abandoned
              | TableContradiction detail => PreparationContradiction detail
              end)
  end.

(** One coordinate: read it and delete it when it is a RUN; false when the body returns.
    strom-storage-engine/src/checkpoint/collect.rs:22-33, [collect (read)]. *)
Definition collect_batch (w : World) (partition : PartitionId) (batch : BatchId) :
    Exec (World * bool) :=
  let! (w, observed) := read_wal w partition batch in
  match observed with
  | Ok (Some observed) =>
      match into_run_delete observed with
      | Ok proof =>
          let! (w, deleted) := delete_run w proof in
          Ret (w, match deleted with Ok _ => true | Err _ => false end)
      | Err _ => Ret (w, true)
      end
  | Ok None => Ret (w, true)
  | Err _ => Ret (w, false)
  end.

(** [None] when the fuel is spent; false when the body returned.
    strom-storage-engine/src/checkpoint/collect.rs:21-40, [collect (loop)]. *)
Fixpoint collect_loop (fuel : nat) (w : World) (partition : PartitionId) (cut batch : BatchId) :
    Exec (option (World * bool)) :=
  match fuel with
  | O => Ret None
  | S fuel =>
      let! (w, continue) := collect_batch w partition batch in
      if continue : bool then
        if bool_decide (batch = cut) then Ret (Some (w, true))
        else
          let! batch := expect_ok (successor batch) in
          collect_loop fuel w partition cut batch
      else Ret (Some (w, false))
  end.

(** strom-storage-engine/src/checkpoint/collect.rs:42-46, [collect (tables)]. *)
Fixpoint collect_tables (w : World) (objects : list TableObjectId) : Exec World :=
  match objects with
  | [] => Ret w
  | object :: objects =>
      let! (w, deleted) := delete_table w object in
      match deleted with
      | Ok _ => collect_tables w objects
      | Err _ => Ret w
      end
  end.

(** [None] when the fuel is spent.
    strom-storage-engine/src/checkpoint/collect.rs:8-47, [collect]. *)
Definition collect (fuel : nat) (w : World) (input : CollectionInput) : Exec (option World) :=
  let partition := seal_partition (collection_source input) in
  let! first :=
    match replay_batch (seal_replay (collection_source input)) with
    | None => expect_ok (coord_try_from 1)
    | Some previous => expect_ok (successor previous)
    end in
  let! runs := collect_loop fuel w partition (collection_cut input) first in
  match runs with
  | None => Ret None
  | Some (w, false) => Ret (Some w)
  | Some (w, true) => let! w := collect_tables w (dropped_by input) in Ret (Some w)
  end.

End operations.

(** * Collection *)

(** What a collection supersedes: a RUN between the two cuts, a table the successor
    dropped. *)
Definition superseded `{Jiff} `{Heap} `{Rkyv ArchivedWalObject} (input : CollectionInput) (k : str)
    (body : list Z) : Prop :=
  (∃ batch object facts, k = wal_spelling batch ∧
     seal_cut (collection_source input) < coord_get batch ≤ coord_get (collection_cut input) ∧
     decode_wal (seal_partition (collection_source input)) batch body = Ret (Ok object) ∧
     wal_body object = Run facts) ∨
  (∃ object, object ∈ dropped_by input ∧ k = TableKey_display (mk_table_key object)).

Section collection.
  Context {DF : DebugFormat} {B : Backend} {BL : BackendLaws} {J : Jiff} {HP : Heap} {HL : HeapLaws}.
  Context {RW : Rkyv ArchivedWalObject} {LW : RkyvLaws ArchivedWalObject}.

(** The store evolves by the other actors and by deletes. *)
Definition prunes : relation (gmap str (list Z)) := rtc (λ c c', env c c' ∨ ∃ k, deleted k c c').

(** Some time between two moments the store satisfied a predicate. *)
Definition passes (c c' : gmap str (list Z)) (P : gmap str (list Z) → Prop) : Prop :=
  ∃ d, prunes c d ∧ P d ∧ prunes d c'.

(** The objects that survive a collection, whatever it does. *)
Definition spares (input : CollectionInput) (c c' : gmap str (list Z)) : Prop :=
  ∀ k body, keeps k body → ¬ superseded input k body → c !! k = Some body → c' !! k = Some body.

Lemma env_prunes c c' : env c c' → prunes c c'.
Proof. intros H. apply rtc_once. by left. Qed.

Lemma deleted_prunes k c c' : deleted k c c' → prunes c c'.
Proof. intros H. apply rtc_once. eauto. Qed.

Lemma passes_mono a b c d P : prunes a b → prunes c d → passes b c P → passes a d P.
Proof. intros H1 H2 (x & Ha & Hx & Hb). exists x. split_and!; [by etrans|done|by etrans]. Qed.

Lemma deleted_passes k c c' : deleted k c c' → passes c c' (λ d, d !! k = None).
Proof.
  intros (d & H1 & H2). exists (delete k d). split_and!; [|apply lookup_delete_eq|by apply env_prunes].
  apply (deleted_prunes k). exists d. split; [done|reflexivity].
Qed.

Lemma env_spares input c c' : env c c' → spares input c c'.
Proof. intros He k body Hk _ Hc. by apply (Hk c). Qed.

Lemma spares_trans input a b c : spares input a b → spares input b c → spares input a c.
Proof. intros H1 H2 k body Hk Hs Ha. by apply H2, H1. Qed.

Lemma deleted_spares input k c c' :
  (∀ body, superseded input k body) → deleted k c c' → spares input c c'.
Proof.
  intros Hk' (d & H1 & H2) k1 body Hk Hs Hc. apply (Hk (delete k d)); [|done].
  rewrite lookup_delete_ne; [by apply (Hk c)|]. intros ->. by apply Hs.
Qed.

(** What is known after one coordinate. *)
Definition no_run (partition : PartitionId) (batch : BatchId) (d : gmap str (list Z)) : Prop :=
  ∀ body object facts, d !! wal_spelling batch = Some body →
    decode_wal partition batch body = Ret (Ok object) → wal_body object ≠ Run facts.

Lemma collect_batch_Ret input w batch :
  let partition := seal_partition (collection_source input) in
  seal_cut (collection_source input) < coord_get batch ≤ coord_get (collection_cut input) →
  ∃ w' continue, collect_batch w partition batch = Ret (w', continue) ∧
    prunes (contents w) (contents w') ∧ spares input (contents w) (contents w') ∧
    (continue = true → passes (contents w) (contents w') (no_run partition batch)).
Proof using BL.
  intros partition Hb. unfold collect_batch.
  destruct (read_wal_Ret w partition batch) as (w1 & r & -> & He & Hr). cbn [exec_bind].
  destruct r as [[observed|]|].
  2: { eexists _, _. split; [reflexivity|]. split_and!; [by apply env_prunes|by apply env_spares|].
       intros _. destruct Hr as (d & H1 & Hd & H2). exists d. split_and!; [by apply env_prunes| |by apply env_prunes].
       intros body object facts Hk. by rewrite Hd in Hk. }
  2: { eexists _, _. split; [reflexivity|]. split_and!; [by apply env_prunes|by apply env_spares|done]. }
  destruct Hr as (d & H1 & (bytes & Hd & Hdec & _) & H2). unfold into_run_delete.
  pose proof (decode_wal_checked partition batch bytes) as Hc. rewrite Hdec in Hc.
  destruct Hc as (_ & Hbatch & _).
  destruct (wal_body (observed_object observed)) as [facts|] eqn:Hbody.
  - destruct (delete_run_Ret w1 (mk_run_delete (wal_batch (observed_object observed))
      (observed_validator observed))) as (w2 & r & -> & Hr). cbn [exec_bind run_delete_batch] in *.
    rewrite Hbatch in Hr.
    assert (deleted (wal_spelling batch) (contents w1) (contents w2) →
      spares input (contents w) (contents w2)) as Hsp.
    { intros (e & H3 & H4) k body Hk Hs Hw. apply (Hk (delete (wal_spelling batch) e)); [|done].
      rewrite lookup_delete_ne.
      - apply (Hk (contents w1)); [|done]. by apply (Hk (contents w)).
      - intros <-. apply Hs. left. exists batch, (observed_object observed), facts.
        rewrite (Hk _ _ Hw H1) in Hd. injection Hd as ->. done. }
    eexists _, _. split; [reflexivity|]. destruct r as [u|e]; [|].
    + split_and!; [|by apply Hsp|intros _].
      * etrans; [apply env_prunes, He|by eapply deleted_prunes].
      * apply (passes_mono (contents w) (contents w1) (contents w2) (contents w2));
          [by apply env_prunes|done|].
        destruct (deleted_passes _ _ _ Hr) as (x & Hx1 & Hx & Hx2). exists x. split_and!; [done| |done].
        intros body object facts' Hk. by rewrite Hx in Hk.
    + split_and!; [| |done].
      * etrans; [apply env_prunes, He|]. destruct Hr; [by apply env_prunes|by eapply deleted_prunes].
      * destruct Hr as [Hr|Hr]; [|by apply Hsp]. apply env_spares. etrans; [exact He|exact Hr].
  - eexists _, _. split; [reflexivity|]. split_and!; [by apply env_prunes|by apply env_spares|].
    intros _. exists d. split_and!; [by apply env_prunes| |by apply env_prunes].
    intros body object facts Hk. rewrite Hd in Hk. injection Hk as <-. rewrite Hdec.
    intros [= <-]. by rewrite Hbody.
Qed.

(** The loop visits the coordinates up to the cut. *)
Lemma collect_loop_Ret input fuel w batch :
  let partition := seal_partition (collection_source input) in
  seal_cut (collection_source input) < coord_get batch ≤ coord_get (collection_cut input) →
  coord_get (collection_cut input) - coord_get batch < Z.of_nat fuel →
  ∃ w' finished, collect_loop fuel w partition (collection_cut input) batch = Ret (Some (w', finished)) ∧
    prunes (contents w) (contents w') ∧ spares input (contents w) (contents w') ∧
    (finished = true → ∀ b : BatchId,
       coord_get batch ≤ coord_get b ≤ coord_get (collection_cut input) →
       passes (contents w) (contents w') (no_run partition b)).
Proof using BL.
  intros partition. revert w batch. induction fuel as [|fuel IH]; intros w batch Hb Hf; [lia|].
  cbn [collect_loop]. destruct (collect_batch_Ret input w batch Hb) as (w1 & continue & Hc & Hp & Hs & Hn).
  fold partition in Hc, Hn. rewrite Hc. cbn [exec_bind]. destruct continue; [|eexists _, _; split; [reflexivity|]; by split_and!].
  case_bool_decide as Heq.
  - eexists _, _. split; [reflexivity|]. split_and!; [done|done|]. intros _ b Hr.
    assert (b = batch) as -> by (apply coord_get_inj; subst batch; lia). auto.
  - rewrite coord_eq_iff in Heq. pose proof (coord_bounds (collection_cut input)).
    destruct (successor_total batch) as (next & -> & Hnext); [lia|]. cbn [expect_ok exec_bind].
    destruct (IH w1 next) as (w2 & finished & Hl & Hp2 & Hs2 & Hn2); [lia|lia|]. rewrite Hl.
    eexists _, _. split; [reflexivity|]. split_and!; [by etrans|by eapply spares_trans|].
    intros Hfin b Hr. destruct (decide (b = batch)) as [->|Hne].
    + apply (passes_mono (contents w) (contents w) (contents w1) (contents w2)); [done|done|auto].
    + rewrite coord_eq_iff in Hne.
      apply (passes_mono (contents w) (contents w1) (contents w2) (contents w2)); [done|done|].
      apply Hn2; [done|lia].
Qed.

Lemma collect_tables_Ret input w objects :
  objects ⊆ dropped_by input →
  ∃ w', collect_tables w objects = Ret w' ∧
    prunes (contents w) (contents w') ∧ spares input (contents w) (contents w').
Proof using BL.
  revert w. induction objects as [|object objects IH]; intros w Hsub; cbn [collect_tables].
  - eexists. split; [reflexivity|]. split; [done|by apply env_spares].
  - destruct (delete_table_Ret w object) as (w1 & r & -> & Hr). cbn [exec_bind].
    assert (∀ body, superseded input (TableKey_display (mk_table_key object)) body) as Hsup.
    { intros body. right. exists object. split; [|done]. apply Hsub. by left. }
    destruct r as [u|e].
    + destruct (IH w1) as (w2 & -> & Hp & Hs); [intros x Hx; apply Hsub, elem_of_cons; by right|].
      eexists. split; [reflexivity|]. apply deleted_prunes in Hr as Hp1. split; [by etrans|].
      eapply spares_trans; [by eapply deleted_spares|done].
    + eexists. split; [reflexivity|]. split.
      * destruct Hr; [by apply env_prunes|by eapply deleted_prunes].
      * destruct Hr; [by apply env_spares|by eapply deleted_spares].
Qed.

(** ** When no request fails *)

(** From every world of this kind, the reads and deletes a collection may make succeed and
    lead to such a world. *)
Record requests_answered (input : CollectionInput) (served : World → Prop) : Prop := {
  answered_read : ∀ w batch, served w →
    seal_cut (collection_source input) < coord_get batch ≤ coord_get (collection_cut input) →
    ∃ w' observed, read_wal w (seal_partition (collection_source input)) batch = Ret (w', Ok observed) ∧
      served w';
  answered_run : ∀ w proof, served w →
    seal_cut (collection_source input) < coord_get (run_delete_batch proof) ≤
      coord_get (collection_cut input) →
    ∃ w', delete_run w proof = Ret (w', Ok tt) ∧ served w';
  answered_table : ∀ w object, served w → object ∈ dropped_by input →
    ∃ w', delete_table w object = Ret (w', Ok tt) ∧ served w'
}.

Lemma collect_batch_answered input served w batch w' continue :
  requests_answered input served → served w →
  seal_cut (collection_source input) < coord_get batch ≤ coord_get (collection_cut input) →
  collect_batch w (seal_partition (collection_source input)) batch = Ret (w', continue) →
  continue = true ∧ served w'.
Proof using BL.
  intros A Hw Hb. unfold collect_batch. set (partition := seal_partition _).
  destruct (answered_read _ _ A w batch Hw Hb) as (w1 & observed & Hr & Hw1).
  destruct (read_wal_Ret w partition batch) as (w1' & r & Hr' & _ & Hf).
  fold partition in Hr. rewrite Hr in Hr' |- *. injection Hr' as <- <-. cbn [exec_bind].
  destruct observed as [observed|]; [|by intros [= <- <-]].
  destruct Hf as (d & _ & (bytes & _ & Hdec & _) & _). unfold into_run_delete.
  pose proof (decode_wal_checked partition batch bytes) as Hc. rewrite Hdec in Hc. destruct Hc as (_ & Hbatch & _).
  destruct (wal_body (observed_object observed)); [|by intros [= <- <-]].
  destruct (answered_run _ _ A w1 (mk_run_delete (wal_batch (observed_object observed))
    (observed_validator observed)) Hw1) as (w2 & -> & Hw2); [simpl; by rewrite Hbatch|].
  cbn [exec_bind]. by intros [= <- <-].
Qed.

Lemma collect_loop_answered input served fuel w batch w' continue :
  requests_answered input served → served w →
  seal_cut (collection_source input) < coord_get batch ≤ coord_get (collection_cut input) →
  collect_loop fuel w (seal_partition (collection_source input)) (collection_cut input) batch =
    Ret (Some (w', continue)) →
  continue = true ∧ served w'.
Proof using BL.
  intros A. revert w batch. induction fuel as [|fuel IH]; intros w batch Hw Hb; cbn [collect_loop]; [done|].
  destruct (collect_batch _ _ _) as [[w1 next]|] eqn:Hc; cbn [exec_bind]; [|done].
  destruct (collect_batch_answered _ _ _ _ _ _ A Hw Hb Hc) as [-> Hw1].
  case_bool_decide as Heq; [by intros [= <- <-]|]. rewrite coord_eq_iff in Heq.
  destruct (successor batch) as [next|] eqn:Hn; cbn [expect_ok exec_bind]; [|done].
  apply successor_Ok in Hn. apply IH; [done|lia].
Qed.

Lemma collect_tables_answered input served w objects w' :
  requests_answered input served → served w → objects ⊆ dropped_by input →
  collect_tables w objects = Ret w' →
  ∀ object, object ∈ objects →
    passes (contents w) (contents w') (λ d, d !! TableKey_display (mk_table_key object) = None).
Proof using BL HP.
  intros A. revert w. induction objects as [|object objects IH]; intros w Hw Hsub; cbn [collect_tables].
  - by intros _ object ?%not_elem_of_nil.
  - destruct (answered_table _ _ A w object Hw) as (w1 & Hd & Hw1); [apply Hsub; by left|].
    destruct (delete_table_Ret w object) as (w1' & r & Hd' & Hr). rewrite Hd in Hd'. injection Hd' as <- <-.
    rewrite Hd. cbn [exec_bind]. intros Hrest.
    assert (objects ⊆ dropped_by input) as Hsub' by (intros x Hx; apply Hsub, elem_of_cons; by right).
    destruct (collect_tables_Ret input w1 objects Hsub') as (w2 & Hrest' & Hp & _).
    rewrite Hrest in Hrest'. injection Hrest' as <-.
    intros object' [->|Hin]%elem_of_cons.
    + eapply passes_mono; [|exact Hp|by apply deleted_passes]; done.
    + eapply passes_mono; [by eapply deleted_prunes| |by apply (IH w1)]; done.
Qed.

(** The collection starts after the source's cut. *)
Lemma collect_first (source : Seal) (cut : BatchId) :
  seal_cut source < coord_get cut →
  ∃ first : BatchId,
    match replay_batch (seal_replay source) with
    | None => expect_ok (coord_try_from 1)
    | Some previous => expect_ok (successor previous)
    end = Ret first ∧ coord_get first = seal_cut source + 1 ∧ 0 ≤ seal_cut source.
Proof.
  unfold seal_cut. intros Hcut. destruct (replay_batch _) as [previous|]; simpl in *.
  - pose proof (coord_bounds cut). pose proof (coord_bounds previous).
    destruct (successor_total previous) as (next & -> & Hnext); [lia|]. exists next. split; [done|lia].
  - by eexists.
Qed.

(** C22: collection terminates, deletes nothing it should not, and reclaims what it
    should.  For a cut past the source's it returns within the span of the cuts; every
    object the other actors keep and the checkpoint does not supersede (FENCEs, Seals, the
    WAL past the cut, the tables the successor names) is still in the store; and when the
    store answers the collection's requests, that is when the reads and deletes it may
    make do not fail, the store has passed a moment without each superseded RUN and each
    dropped table. *)
Theorem collection_reclaims (fuel : nat) (w : World) (input : CollectionInput) :
  let partition := seal_partition (collection_source input) in
  seal_cut (collection_source input) < coord_get (collection_cut input) ≤ Z.of_nat fuel →
  ∃ w', collect fuel w input = Ret (Some w') ∧
    spares input (contents w) (contents w') ∧
    ∀ served, requests_answered input served → served w →
      (∀ batch : BatchId,
         seal_cut (collection_source input) < coord_get batch ≤ coord_get (collection_cut input) →
         passes (contents w) (contents w') (no_run partition batch)) ∧
      (∀ object, object ∈ dropped_by input →
         passes (contents w) (contents w') (λ d, d !! TableKey_display (mk_table_key object) = None)).
Proof using BL.
  intros partition [Hcut Hfuel]. unfold collect.
  destruct (collect_first _ _ Hcut) as (first & -> & Hfirst & H0). cbn [exec_bind]. fold partition.
  destruct (collect_loop_Ret input fuel w first) as (w1 & continue & Hl & Hp & Hs & Hn); [lia|lia|].
  fold partition in Hl, Hn. rewrite Hl. cbn [exec_bind].
  pose proof (λ served A Hw, collect_loop_answered input served fuel w first w1 continue A Hw
    ltac:(lia) Hl) as Hcont.
  destruct continue.
  2: { eexists. split; [reflexivity|]. split; [done|]. intros served A Hw. by destruct (Hcont served A Hw). }
  destruct (collect_tables_Ret input w1 (dropped_by input)) as (w2 & Ht & Hp2 & Hs2); [done|].
  rewrite Ht. cbn [exec_bind]. eexists. split; [reflexivity|]. split; [by eapply spares_trans|].
  intros served A Hw. destruct (Hcont served A Hw) as [_ Hw1]. split.
  - intros batch Hb. eapply passes_mono; [| |apply Hn]; [done|done|done|lia].
  - intros object Ho. eapply passes_mono; [exact Hp| |by apply (collect_tables_answered input served w1 (dropped_by input) w2 A Hw1)]; done.
Qed.

End collection.

(** * Preparation *)

Section preparation.
  Context {DF : DebugFormat} {B : Backend} {BL : BackendLaws} {J : Jiff} {HP : Heap} {HL : HeapLaws}.
  Context {RW : Rkyv ArchivedWalObject} {LW : RkyvLaws ArchivedWalObject} {SL : WalSizeLaw}.
  Context {RL : RowLayout} {RLL : RowLayoutLaws} {RS : Rkyv ArchivedSeal} {LS : RkyvLaws ArchivedSeal}.
  Context {RD : Rkyv (SstArchive ArchivedDirectoryRow)} {LD : RkyvLaws (SstArchive ArchivedDirectoryRow)}.
  Context {RG : Rkyv (SstArchive ArchivedLedgerRow)} {LG : RkyvLaws (SstArchive ArchivedLedgerRow)}.
  Context {SZ : SstSizeLaw} {SS : SealSizeLaw}.
  Context {DD : MapDiff StreamPath DirectoryEntry} {DL : MapDiff StreamUid StreamRecord}.
  Context {DDL : MapDiffLaws StreamPath DirectoryEntry} {DLL : MapDiffLaws StreamUid StreamRecord}.

(** Between two moments the store held a table, with exactly its bytes. *)
Definition table_durable (c c' : gmap str (list Z)) (t : EncodedTable) : Prop :=
  between c c' (λ d, d !! TableKey_display (table_key t) = Some (table_bytes t)).

Lemma establish_tables_Ret w tables :
  Forall (λ t, candidate_bytes_ok (table_bytes t) SST_OBJECT_BYTES_MAX = true) tables →
  ∃ w' r, establish_tables w tables = Ret (w', r) ∧ evolves (contents w) (contents w') ∧
    (r = TableEstablished → Forall (table_durable (contents w) (contents w')) tables).
Proof using BL.
  intros Ht. revert w. induction Ht as [|t tables Hb _ IH]; intros w; cbn [establish_tables].
  - eexists _, _. split; [reflexivity|]. split; [done|]. constructor.
  - destruct (establish_table_Ret w t Hb) as (w1 & r & -> & Hc & Hr). cbn [exec_bind].
    apply created_evolves in Hc. destruct r; [|by eexists _, _..].
    destruct (IH w1) as (w2 & r & -> & He & Hall). eexists _, _. split; [reflexivity|].
    split; [by etrans|]. intros ->. constructor.
    + destruct Hr as (d & Hcd & Hd & Hdc). exists d.
      split_and!; [by eapply created_evolves|done|]. etrans; [by apply env_evolves|done].
    + eapply Forall_impl; [by apply Hall|]. intros x. by apply between_mono.
Qed.

(** What is sent fits the store's bounds. *)
Lemma prepared_sent input sent cells carried newd newl prepared :
  prepared_from input sent cells carried newd newl prepared →
  Forall (λ t, table_object (table_ref t) = key_object (table_key t) ∧
    candidate_bytes_ok (table_bytes t) SST_OBJECT_BYTES_MAX = true) sent.
Proof.
  intros F. rewrite (from_sent _ _ _ _ _ _ _ F).
  pose proof (made_all_fresh _ _ _ Directory _ _ _ (λ m rows t H, proj1 H)
    (from_directory _ _ _ _ _ _ _ F)) as [_ Hfd].
  pose proof (made_all_fresh _ _ _ Ledger _ _ _ (λ m rows t H, proj1 H)
    (from_ledger _ _ _ _ _ _ _ F)) as [_ Hfl].
  apply Forall_app. split; (eapply Forall_impl; [done|]); intros t []; done.
Qed.

(** A prepared checkpoint is what [PreparedCheckpoint::new] returned; a failed one sent
    nothing. *)
Lemma prepare_checkpoint_built emit input sent r :
  prepare_checkpoint emit input = Ret (sent, r) →
  match r with
  | Ok (Some prepared) => ∃ next candidate, PreparedCheckpoint_new (input_ticket input)
      (input_source input) next (input_snapshot input) candidate = Ret prepared
  | Ok None => True
  | Err _ => sent = []
  end.
Proof.
  unfold prepare_checkpoint. destruct (successor _) as [generation|]; [|by intros [= <- <-]].
  destruct (delta_since _ _); cbn [exec_bind]; [|done].
  destruct (plan_checkpoint _ _ _) as [[cells carried]|]; cbn [exec_bind]; [|done].
  destruct (build_directory_tree _ _ _ _ _ _ _ _) as [[[n sent1] [dtree|]]|]; cbn [exec_bind];
    [|by intros [= <- <-]|done].
  destruct (build_ledger_tree _ _ _ _ _ _ _ _) as [[[n' sent2] [ltree|]]|]; cbn [exec_bind];
    [|by intros [= <- <-]|done].
  destruct (assemble_checkpoint_seal _ _ _ _ _ _) as [[next candidate]|]; cbn [exec_bind]; [|done].
  destruct (PreparedCheckpoint_new _ _ _ _ _) as [prepared|] eqn:Hp; cbn [exec_bind]; [|done].
  intros [= <- <-]. eauto.
Qed.

(** C21: a checkpoint is reported prepared only when its tables are durable.  Whatever
    preparation a Writer has outstanding, and in whatever order its creates complete, the
    effect returns an outcome the Writer's loop expects.  When it reports a checkpoint
    prepared, that is the checkpoint the preparation computed, together with the tables it
    sent; between the start and the end of the effect the store held each of these tables
    under its key with exactly the encoded bytes; and every table of the successor Seal is
    one of them or one the source already named. *)
Theorem prepared_tables_durable (r : WriterRecovery) (interval buffer : Z) (s : System)
    (input : CheckpointInput) (order : list EncodedTable → list EncodedTable) (join_error : str)
    (w : World) :
  recovery_ok r buffer → base_ok r → reachable r interval buffer s →
  PrepareCheckpoint input ∈ i_effects (s_interp s) → (∀ l, order l ≡ₚ l) →
  ∃ w' outcome, prepare order join_error w input = Ret (w', outcome) ∧
    evolves (contents w) (contents w') ∧
    answers (i_aborted (s_interp s)) (PrepareCheckpoint input)
      (CheckpointPrepared (input_ticket input) outcome) ∧
    ∀ prepared, outcome = Prepared prepared →
      ∃ sent, prepare_checkpoint (λ _ _, true) input = Ret (sent, Ok (Some prepared)) ∧
        (∀ t, t ∈ sent → key_object (table_key t) = table_object (table_ref t) ∧
           table_durable (contents w) (contents w') t) ∧
        ∀ table, table ∈ seal_tables (prepared_successor prepared) →
          table ∈ seal_tables (input_source input) ∨ table ∈ table_ref <$> sent.
Proof using BL HL LW SL LS LD LG SZ SS DDL DLL.
  intros Hok Hbase Hr Hin Hord.
  destruct (reachable_lineage r interval buffer s Hok Hbase Hr) as (log & _ & L).
  pose proof (proj1 (ln_prepare _ _ _ _ L _ Hin)) as I. unfold prepare.
  destruct (prepare_checkpoint_Ret (λ _ _, true) input I) as (sent & result & Hp & Hmeans).
  rewrite Hp. pose proof (prepare_checkpoint_built _ _ _ _ Hp) as Hbuilt.
  assert (Forall (λ t, table_object (table_ref t) = key_object (table_key t) ∧
    candidate_bytes_ok (table_bytes t) SST_OBJECT_BYTES_MAX = true) sent) as Hsent.
  { destruct result as [[prepared|]|]; [|by destruct Hmeans|by rewrite Hbuilt].
    destruct Hmeans as (cells & carried & newd & newl & _ & F). by eapply prepared_sent. }
  destruct (establish_tables_Ret w (order sent)) as (w' & est & -> & He & Hdur).
  { rewrite Hord. eapply Forall_impl; [exact Hsent|]. by intros t []. }
  cbn [exec_bind]. eexists _, _. split; [reflexivity|]. split; [done|].
  destruct est as [| |detail]; [|split; [constructor|done]|split; [constructor|done]].
  destruct result as [[prepared|]|]; [|by split; [constructor|]|by split; [constructor|]].
  destruct Hbuilt as (next & candidate & Hnew). split; [by econstructor|].
  intros prepared' [= <-]. destruct Hmeans as (cells & carried & newd & newl & Hch & F).
  exists sent. split; [done|]. split; [|by apply (prepared_tables _ _ _ _ _ _ _ Hch F)].
  intros t Hs. specialize (Hdur eq_refl). rewrite Hord in Hdur. rewrite Forall_forall in Hdur, Hsent.
  destruct (Hsent t Hs) as [Hk _]. split; [done|by apply Hdur].
Qed.

End preparation.

(** * Concrete runs *)

#[local] Existing Instances reference_heap reference_heap_laws reference_jiff reference_layout
  reference_layout_laws reference_rkyv_laws reference_diff reference_diff_laws reference_backend
  reference_backend_laws reference_format.
#[local] Existing Instances sample_size_law sample_sst_size sample_seal_size.
#[local] Existing Instance reference_rkyv.

(** A FENCE and a RUN below the cut, and two tables the successor no longer names. *)
Definition old_fence : WalObject :=
  mk_wal_object sample_partition (batch_no 6 I) (claim_owner (AuthoredClaim_new (generation_no 2 I))) Fence.
Definition old_run : WalObject :=
  mk_wal_object sample_partition (batch_no 7 I) (claim_owner (AuthoredClaim_new (generation_no 2 I)))
    (Run sample_facts).
Definition collected_source : Seal :=
  match sample_preparation.2 with Some prepared => prepared_successor prepared | None => sample_seal end.
Definition sample_collection : CollectionInput :=
  mk_collection (batch_no 7 I) collected_source sample_claim_seal.
Definition collected_world : gmap str (list Z) :=
  list_to_map
    ((wal_spelling (batch_no 6 I), rkyv_bytes (archive_wal old_fence)) ::
     (wal_spelling (batch_no 7 I), rkyv_bytes (archive_wal old_run)) ::
     ((λ t, (TableKey_display (table_key t), table_bytes t)) <$> sample_preparation.1)).

(** A WAL object that reads. *)
Definition readable (partition : PartitionId) (batch : BatchId) (bytes : list Z) : bool :=
  candidate_bytes_ok bytes WAL_ENCODED_BYTES_MAX &&
  match decode_wal partition batch bytes with Ret (Ok _) => true | _ => false end.

Lemma reference_read_wal (w : World) (partition : PartitionId) (batch : BatchId) :
  (∀ bytes, (w : gmap str (list Z)) !! wal_spelling batch = Some bytes → readable partition batch bytes = true) →
  ∃ observed, read_wal w partition batch = Ret (w, Ok observed).
Proof.
  intros Hr. unfold read_wal, wal_read_bound.
  destruct (wal_object_key_spelling batch) as (key & -> & Hk). cbn [exec_bind].
  destruct (read_bound_Ret WAL_ENCODED_BYTES_MAX) as (bound & -> & Hbound); [by vm_compute|].
  cbn [exec_bind]. unfold adapter_read, to_store_path.
  cbn [reference_backend path_parse get_object expect exec_bind]. rewrite Hk.
  destruct ((w : gmap str (list Z)) !! wal_spelling batch) as [bytes|] eqn:Hw; [|by eexists].
  specialize (Hr bytes eq_refl). apply andb_true_iff in Hr as [Hok Hdec].
  destruct (candidate_put_body bytes _ Hok wal_bytes_max) as (body & Hbody & _).
  unfold candidate_bytes_ok in Hok. apply andb_true_iff in Hok as [_ Hlen%Z.leb_le].
  cbn [meta_size]. rewrite Hbound, (proj2 (Z.ltb_ge _ _)) by done. unfold consume_bounded_object.
  cbn [meta_etag body_stream]. destruct (require_etag (Some (lit "1"))) as [etag|] eqn:He; [|done].
  cbn [try_bind exec_bind consume_stream]. assert (0 ≤ zlen bytes) by (unfold zlen; lia).
  assert (WAL_ENCODED_BYTES_MAX ≤ u64_max) by done.
  unfold u64_checked_sub, u64_checked_add. rewrite Hbound, decide_True by lia. cbn [expect exec_bind].
  rewrite (proj2 (Z.ltb_ge _ _)), decide_True by lia.
  cbn [expect exec_bind consume_stream app try_bind result_map world_map_err map_err world_bind raw_body].
  destruct (decode_wal partition batch bytes) as [[object|]|]; [|done..].
  cbn [exec_bind map_err result_bind]. rewrite Hbody. cbn [map_err result_bind]. by eexists.
Qed.

Lemma reference_delete (w : World) (key : ObjectKey) :
  delete_idempotent w key = Ret (delete (key_str key) (w : gmap str (list Z)), Ok tt).
Proof.
  unfold delete_idempotent, to_store_path.
  cbn [reference_backend path_parse delete_object expect exec_bind].
  destruct ((w : gmap str (list Z)) !! key_str key) eqn:Hw; [done|]. simpl. by rewrite delete_id.
Qed.

Lemma collected_readable :
  readable sample_partition (batch_no 6 I) (rkyv_bytes (archive_wal old_fence)) &&
  readable sample_partition (batch_no 7 I) (rkyv_bytes (archive_wal old_run)) &&
  bool_decide (collected_world !! wal_spelling (batch_no 6 I) = Some (rkyv_bytes (archive_wal old_fence))) &&
  bool_decide (collected_world !! wal_spelling (batch_no 7 I) = Some (rkyv_bytes (archive_wal old_run))) &&
  bool_decide (seal_partition collected_source = sample_partition) &&
  bool_decide (seal_cut collected_source = 5) = true.
Proof. vm_compute. reflexivity. Qed.

(** The in-memory store answers whatever subset of the objects is left. *)
Lemma collected_answered :
  requests_answered sample_collection (λ w, (w : gmap str (list Z)) ⊆ collected_world).
Proof.
  pose proof collected_readable as H. rewrite !andb_true_iff, !bool_decide_eq_true in H.
  destruct H as [[[[[H6 H7] W6] W7] Hp] Hc].
  split; cbn [sample_collection collection_source collection_cut]; rewrite ?Hc.
  - intros w batch Hw Hb. rewrite Hp.
    destruct (reference_read_wal w sample_partition batch) as (observed & Hr); [|exists w, observed; split; [exact Hr|exact Hw]].
    intros bytes Hl. pose proof (lookup_weaken _ _ _ _ Hl Hw) as Hl'.
    assert (batch = batch_no 6 I ∨ batch = batch_no 7 I) as [->| ->].
    { change (coord_get (batch_no 7 I)) with 7 in Hb.
      assert (coord_get batch = 6 ∨ coord_get batch = 7) as [E|E] by lia;
        [left|right]; apply coord_get_inj; exact E. }
    + rewrite W6 in Hl'. apply (inj Some) in Hl'. rewrite <- Hl'. exact H6.
    + rewrite W7 in Hl'. apply (inj Some) in Hl'. rewrite <- Hl'. exact H7.
  - intros w proof Hw _. unfold delete_run.
    destruct (wal_object_key_spelling (run_delete_batch proof)) as (key & -> & _). cbn [exec_bind].
    rewrite reference_delete. eexists. split; [reflexivity|]. etrans; [apply delete_subseteq|exact Hw].
  - intros w object Hw _. unfold delete_table.
    destruct (table_object_key_Ret (mk_table_key object)) as (key & -> & _). cbn [exec_bind].
    rewrite reference_delete. eexists. split; [reflexivity|]. etrans; [apply delete_subseteq|exact Hw].
Qed.

(** The tables a Seal no longer names are two. *)
Lemma collected_drops : length (dropped_by sample_collection) = 2%nat.
Proof. vm_compute. reflexivity. Qed.

Lemma collection_reclaims_witness :
  ∃ w', collect 7 collected_world sample_collection = Ret (Some w') ∧
    spares sample_collection collected_world w' ∧
    passes collected_world w' (no_run sample_partition (batch_no 7 I)) ∧
    ∀ object, object ∈ dropped_by sample_collection →
      passes collected_world w' (λ d, d !! TableKey_display (mk_table_key object) = None).
Proof.
  pose proof collected_readable as H. rewrite !andb_true_iff, !bool_decide_eq_true in H.
  destruct H as [[_ Hp] Hc].
  destruct (collection_reclaims (B := reference_backend) 7 collected_world sample_collection) as (w' & Hcol & Hs & Hre).
  { change (collection_source sample_collection) with collected_source. rewrite Hc.
    change (coord_get (collection_cut sample_collection)) with 7. lia. }
  destruct (Hre _ collected_answered (reflexivity collected_world)) as [Hruns Htables].
  exists w'. split; [exact Hcol|]. split; [exact Hs|]. split; [|exact Htables].
  rewrite <- Hp. apply (Hruns (batch_no 7 I)). change (collection_source sample_collection) with collected_source.
  rewrite Hc. change (coord_get (collection_cut sample_collection)) with 7.
  change (coord_get (batch_no 7 I)) with 7. lia.
Defined.

(** What was there is gone, and the FENCE is not. *)
Lemma collection_reclaims_computed :
  match collect 7 collected_world sample_collection with
  | Ret (Some w) =>
      bool_decide ((w : gmap str (list Z)) !! wal_spelling (batch_no 7 I) = None) &&
      bool_decide (size w = 1%nat) && bool_decide (size collected_world = 4%nat)
  | _ => false
  end = true.
Proof. vm_compute. reflexivity. Qed.

(** The preparation the sample Writer has outstanding reports a checkpoint of new tables. *)
Lemma long_s1_prepared :
  match prepared_inputs long_s1 with
  | [input] =>
      match prepare reverse [] sample_world input with
      | Ret (_, Prepared prepared) =>
          bool_decide (length (seal_tables (prepared_successor prepared)) = 2%nat) &&
          bool_decide (length (seal_tables (input_source input)) = 0%nat)
      | _ => false
      end
  | _ => false
  end = true.
Proof. vm_compute. reflexivity. Qed.

Lemma prepared_tables_durable_witness :
  ∃ input w' prepared (sent : list EncodedTable), PrepareCheckpoint input ∈ i_effects (s_interp long_s1) ∧
    prepare reverse [] sample_world input = Ret (w', Prepared prepared) ∧
    length (seal_tables (prepared_successor prepared)) = 2%nat ∧
    ∀ table, table ∈ seal_tables (prepared_successor prepared) →
      ∃ t, t ∈ sent ∧ table_ref t = table ∧ table_durable (contents sample_world) (contents w') t.
Proof.
  pose proof long_s1_prepared as H. destruct long_s1_prepares as (input & Hin).
  assert (input ∈ prepared_inputs long_s1) as Hin'
    by (apply list_elem_of_omap; exists (PrepareCheckpoint input); split; [exact Hin|reflexivity]).
  destruct (prepared_inputs long_s1) as [|i [|]]; [discriminate H| |discriminate H].
  apply list_elem_of_singleton in Hin'. subst i.
  destruct (prepared_tables_durable long_recovery 0 4096 long_s1 input reverse [] sample_world)
    as (w' & outcome & Hp & He & Ha & Hd);
    [apply long_recovery_ok|apply long_base_ok|apply long_s1_reachable|exact Hin| |].
  { intros l. apply reverse_Permutation. }
  rewrite Hp in H. destruct outcome as [prepared| |]; [|discriminate H..].
  apply andb_true_iff in H as [Hn%bool_decide_eq_true Hz%bool_decide_eq_true].
  destruct (Hd prepared eq_refl) as (sent & _ & Hdur & Htab). exists input, w', prepared, sent.
  split; [exact Hin|]. split; [exact Hp|]. split; [exact Hn|]. intros table Ht.
  destruct (Htab table Ht) as [Hs|Hs].
  - destruct (seal_tables (input_source input)); [|discriminate Hz]. by apply not_elem_of_nil in Hs.
  - apply list_elem_of_fmap in Hs as (t & Href & Hs). exists t. split; [exact Hs|].
    split; [by rewrite Href|]. apply Hdur. exact Hs.
Defined.
