(* ===== verification/Cluster.v ===== *)
(** Many processes on one object store.

    Any number of processes open the partition: each bootstraps (the machine of
    Bootstrap.v) and then serves (the Writer of WriterSystem.v).  They share one store
    and nothing else.  A process asks the store for creates and deletes; a request that
    was issued takes effect at any later moment, any number of times, or never, whether
    or not its process is still alive.  A process that stops is one that takes no more
    steps.

    An effect is answered from one moment of the store between its start and its
    completion ([learns], [service_learns]); authority over a Seal is granted only by
    the create that made it.  ClusterRun.v shows that the bootstrap's effects and the
    Writer's tasks, as the code executes them on a backend whose other actors are the
    processes of the cluster, answer so. *)

From S2P Require Import Prelude OrdMap Text Domain Coordinates Partition Seal Wal Forest.
From S2P Require Import ForestTheory Archive Spelling Sst Writer WriterSafety WriterSystem.
From S2P Require Import Bootstrap BootstrapSafety Recovery ObjectStore Stores StoreTheory Common.
From S2P Require Import BootstrapRun Checkpoint CheckpointTheory CheckpointSafety.
From S2P Require Import CheckpointLink CheckpointRun.

(** * Requests *)

(** A conditional create, with the process that issued it, or a delete. *)
Inductive Request : Type :=
| Put (process : nat) (key : str) (body : list Z)
| Remove (key : str).

Definition put_wal (process : nat) (c : EncodedWal) : Request :=
  Put process (wal_spelling (encoded_wal_batch c)) (encoded_wal_bytes c).
Definition put_seal (process : nat) (seal : Seal) (bytes : list Z) : Request :=
  Put process (seal_spelling (seal_generation seal)) bytes.
Definition put_table (process : nat) (t : EncodedTable) : Request :=
  Put process (TableKey_display (table_key t)) (table_bytes t).

(** * Processes *)

(** A bootstrap: its machine state, the effect it waits for, the answer once the store
    gave it, and the trace of what it read. *)
Record Boot : Type := mk_boot {
  bt_trace : Trace;
  bt_state : BootstrapState;
  bt_effect : BootstrapEffect;
  bt_answer : option BootstrapEvent
}.

(** A Writer: how it was opened, its system, the answers its effects were given, the
    tables a preparation knows established, and how it ended. *)
Record Service : Type := mk_service {
  sv_recovery : WriterRecovery;
  sv_interval : Z;
  sv_buffer : Z;
  sv_system : System;
  sv_learned : list (WriterEffect * WriterEvent);
  sv_tables : list EncodedTable;
  sv_exit : option WriterExit
}.

Inductive Process : Type :=
| Booting (b : Boot)
| Serving (v : Service).

(** The store, every request ever issued, the processes, and which process was told it
    authored a generation. *)
Record Cluster : Type := mk_cluster {
  cl_store : gmap str (list Z);
  cl_requests : list Request;
  cl_authority : gmap Z nat;
  cl_procs : gmap nat Process
}.

Definition cluster_init : Cluster := mk_cluster ∅ [] ∅ ∅.

Definition with_proc (c : Cluster) (pid : nat) (p : Process) (more : list Request) : Cluster :=
  mk_cluster (cl_store c) (cl_requests c ++ more) (cl_authority c) (<[pid := p]> (cl_procs c)).
Definition with_store (c : Cluster) (d : gmap str (list Z)) : Cluster :=
  mk_cluster d (cl_requests c) (cl_authority c) (cl_procs c).
Definition with_authored (c : Cluster) (pid : nat) (p : Process) (seal : Seal) (bytes : list Z) :
    Cluster :=
  mk_cluster (<[seal_spelling (seal_generation seal) := bytes]> (cl_store c)) (cl_requests c)
    (<[coord_get (seal_generation seal) := pid]> (cl_authority c)) (<[pid := p]> (cl_procs c)).

Definition answered_with (b : Boot) (event : BootstrapEvent) : Boot :=
  mk_boot (bt_trace b) (bt_state b) (bt_effect b) (Some event).
Definition learning (v : Service) (effect : WriterEffect) (event : WriterEvent) : Service :=
  mk_service (sv_recovery v) (sv_interval v) (sv_buffer v) (sv_system v)
    (sv_learned v ++ [(effect, event)]) (sv_tables v) (sv_exit v).
Definition tabling (v : Service) (t : EncodedTable) : Service :=
  mk_service (sv_recovery v) (sv_interval v) (sv_buffer v) (sv_system v) (sv_learned v)
    (sv_tables v ++ [t]) (sv_exit v).
Definition running (v : Service) (s : System) (exit : option WriterExit) : Service :=
  mk_service (sv_recovery v) (sv_interval v) (sv_buffer v) s (sv_learned v) (sv_tables v) exit.

Definition sv_effects (v : Service) : list WriterEffect := i_effects (s_interp (sv_system v)).

(** The system once the completion of one effect is taken from the interpreter. *)
Definition taken (s : System) (before after : list WriterEffect) (effect : WriterEffect)
    (event : WriterEvent) : System :=
  mk_system (s_machine s) (with_effects (before ++ after) (s_interp s)) (s_received s)
    (s_wal s ++ made_durable effect event).

(** Events that come from elsewhere than the store. *)
Definition local_event (event : WriterEvent) : Prop :=
  match event with Started | Command _ | FlushDue | IngressClosed => True | _ => False end.

Section cluster.
  Context {J : Jiff} {HP : Heap} {RL : RowLayout} {RW : Rkyv ArchivedWalObject} {RS : Rkyv ArchivedSeal}.
  Context {RD : Rkyv (SstArchive ArchivedDirectoryRow)} {RG : Rkyv (SstArchive ArchivedLedgerRow)}.
  Context {DD : MapDiff StreamPath DirectoryEntry} {DL : MapDiff StreamUid StreamRecord}.

(** * What effects ask of the store *)

Definition boot_requests (pid : nat) (effect : BootstrapEffect) : list Request :=
  match effect with
  | EstablishGenesis c => [put_seal pid (genesis_seal c) (genesis_bytes c)]
  | PublishClaim c => [put_seal pid (authority_seal c) (authority_bytes c)]
  | EstablishFence c => [put_wal pid c]
  | _ => []
  end.

(** The tables a preparation writes. *)
Definition written_tables (input : CheckpointInput) : list EncodedTable :=
  match prepare_checkpoint (λ _ _, true) input with
  | Ret (sent, Ok (Some _)) => sent
  | _ => []
  end.

Definition service_requests (pid : nat) (effect : WriterEffect) : list Request :=
  match effect with
  | EstablishWal c => [put_wal pid c]
  | PrepareCheckpoint input => put_table pid <$> written_tables input
  | PublishAuthority _ c => [put_seal pid (authority_seal c) (authority_bytes c)]
  | Collect _ => []
  end.

(** * What a moment of the store may answer *)

Definition establishes (d : gmap str (list Z)) (key : str) (bytes : list Z) (e : WalEstablishment) :
    Prop :=
  match e with
  | WalDurable => d !! key = Some bytes
  | WalOccupied => ∃ other, d !! key = Some other ∧ other ≠ bytes
  | UnresolvedAbsent => True
  end.

Definition learns (d : gmap str (list Z)) (effect : BootstrapEffect) (event : BootstrapEvent) : Prop :=
  match effect, event with
  | _, StoreFailed _ => True
  | ObserveHead, HeadObserved observed => newest SEAL_SEGMENT observed d
  | EstablishGenesis c, GenesisEstablishedEvent e =>
      let key := seal_spelling (seal_generation (genesis_seal c)) in
      match e with
      | GenesisEstablished => d !! key = Some (genesis_bytes c)
      | GenesisLostRace => ∃ other, d !! key = Some other ∧ other ≠ genesis_bytes c
      | GenesisUnresolved => True
      end
  | ReadSeal generation, SealRead observed =>
      match observed with
      | Some seal => ∃ bytes, d !! seal_spelling generation = Some bytes ∧
          decode_seal generation bytes = Ret (Ok seal)
      | None => d !! seal_spelling generation = None
      end
  | PublishClaim c, ClaimPublished publication =>
      match publication with
      | Authored => False
      | NoAuthority => is_Some (d !! seal_spelling (seal_generation (authority_seal c)))
      | PublicationUnresolved => True
      end
  | ReadTable partition table, TableRead table' decoded =>
      table' = table ∧ decoded_matches table decoded ∧
      let key := mk_table_key (table_object table) in
      ∃ bytes, d !! TableKey_display key = Some bytes ∧
        decode_table partition key bytes = Ret (Ok decoded)
  | ObserveWalTail, WalTailObserved tail => newest WAL_SEGMENT tail d
  | ReadWal partition batch, WalRead observed =>
      match observed with
      | Some w => ∃ bytes, d !! wal_spelling batch = Some bytes ∧
          decode_wal partition batch bytes = Ret (Ok w)
      | None => d !! wal_spelling batch = None
      end
  | EstablishFence c, FenceEstablished e =>
      establishes d (wal_spelling (encoded_wal_batch c)) (encoded_wal_bytes c) e
  | _, _ => False
  end.

(** A checkpoint is reported prepared when every table it wrote is known established. *)
Definition service_learns (d : gmap str (list Z)) (tables : list EncodedTable) (effect : WriterEffect)
    (event : WriterEvent) : Prop :=
  match effect, event with
  | EstablishWal c, WalEstablished _ (Ok e) =>
      establishes d (wal_spelling (encoded_wal_batch c)) (encoded_wal_bytes c) e
  | PrepareCheckpoint input, CheckpointPrepared _ (Prepared prepared) =>
      ∃ sent, prepare_checkpoint (λ _ _, true) input = Ret (sent, Ok (Some prepared)) ∧ sent ⊆ tables
  | PublishAuthority _ c, SealPublished _ (Ok publication) =>
      match publication with
      | Authored => False
      | NoAuthority => is_Some (d !! seal_spelling (seal_generation (authority_seal c)))
      | PublicationUnresolved => True
      end
  | EstablishWal _, WalEstablished _ (Err _) | PublishAuthority _ _, SealPublished _ (Err _)
  | PrepareCheckpoint _, CheckpointPrepared _ _ | PrepareCheckpoint _, CheckpointPreparationCancelled _
  | Collect _, CollectFinished _ => True
  | _, _ => False
  end.

(** * Steps *)

(** A step of the Writer whose effects ask what they ask. *)
Definition serve (c : Cluster) (pid : nat) (v : Service) (s : System) (exit : option WriterExit) :
    Cluster :=
  with_proc c pid (Serving (running v s exit)) (i_effects (s_interp s) ≫= service_requests pid).

Inductive cluster_step (c : Cluster) : Cluster → Prop :=
| step_start pid partition state effect :
    cl_procs c !! pid = None →
    bootstrap_handle BootstrapMachine_new (BootstrapStarted partition) =
      Ret (mk_bootstrap (Some state), StepEffect effect) →
    cluster_step c (with_proc c pid (Booting (mk_boot trace_empty state effect None)) [])
| step_learn pid b event :
    cl_procs c !! pid = Some (Booting b) → bt_answer b = None →
    learns (cl_store c) (bt_effect b) event →
    cluster_step c (with_proc c pid (Booting (answered_with b event)) [])
| step_claimed pid b candidate :
    cl_procs c !! pid = Some (Booting b) → bt_answer b = None →
    bt_effect b = PublishClaim candidate →
    cl_store c !! seal_spelling (seal_generation (authority_seal candidate)) = None →
    cluster_step c (with_authored c pid (Booting (answered_with b (ClaimPublished Authored)))
      (authority_seal candidate) (authority_bytes candidate))
| step_boot pid b event state effect :
    cl_procs c !! pid = Some (Booting b) → bt_answer b = Some event →
    bootstrap_handle (mk_bootstrap (Some (bt_state b))) event =
      Ret (mk_bootstrap (Some state), StepEffect effect) →
    cluster_step c (with_proc c pid
      (Booting (mk_boot (extend_trace (bt_state b) event (bt_trace b)) state effect None))
      (boot_requests pid effect))
| step_open pid b event m r interval buffer s :
    cl_procs c !! pid = Some (Booting b) → bt_answer b = Some event →
    bootstrap_handle (mk_bootstrap (Some (bt_state b))) event = Ret (m, StepComplete r) →
    1 ≤ buffer ≤ WAL_ENCODED_BYTES_MAX → sys_init r interval buffer = Ret s →
    cluster_step c (with_proc c pid (Serving (mk_service r interval buffer s [] [] None)) [])
| step_observe pid v effect event :
    cl_procs c !! pid = Some (Serving v) → effect ∈ sv_effects v →
    service_learns (cl_store c) (sv_tables v) effect event →
    cluster_step c (with_proc c pid (Serving (learning v effect event)) [])
| step_table pid v input t :
    cl_procs c !! pid = Some (Serving v) → PrepareCheckpoint input ∈ sv_effects v →
    t ∈ written_tables input → cl_store c !! TableKey_display (table_key t) = Some (table_bytes t) →
    cluster_step c (with_proc c pid (Serving (tabling v t)) [])
| step_published pid v ticket candidate :
    cl_procs c !! pid = Some (Serving v) → PublishAuthority ticket candidate ∈ sv_effects v →
    cl_store c !! seal_spelling (seal_generation (authority_seal candidate)) = None →
    cluster_step c (with_authored c pid
      (Serving (learning v (PublishAuthority ticket candidate) (SealPublished ticket (Ok Authored))))
      (authority_seal candidate) (authority_bytes candidate))
| step_local pid v now event s1 s exit :
    cl_procs c !! pid = Some (Serving v) → sv_exit v = None →
    w_checkpoint_attempt (s_machine (sv_system v)) < u64_max →
    observes (sv_system v) event s1 → local_event event → react s1 now event = Ret (s, exit) →
    cluster_step c (serve c pid v s exit)
| step_complete pid v now effect event before after s exit :
    cl_procs c !! pid = Some (Serving v) → sv_exit v = None →
    w_checkpoint_attempt (s_machine (sv_system v)) < u64_max →
    w_started (s_machine (sv_system v)) = true → sv_effects v = before ++ effect :: after →
    (effect, event) ∈ sv_learned v → answers (i_aborted (s_interp (sv_system v))) effect event →
    react (taken (sv_system v) before after effect event) now event = Ret (s, exit) →
    cluster_step c (serve c pid v s exit)
| step_collect pid v input batch bytes w facts :
    cl_procs c !! pid = Some (Serving v) → Collect input ∈ sv_effects v →
    seal_cut (collection_source input) < coord_get batch ≤ coord_get (collection_cut input) →
    cl_store c !! wal_spelling batch = Some bytes →
    decode_wal (seal_partition (collection_source input)) batch bytes = Ret (Ok w) →
    wal_body w = Run facts →
    cluster_step c (with_proc c pid (Serving v) [Remove (wal_spelling batch)])
| step_drop pid v input object :
    cl_procs c !! pid = Some (Serving v) → Collect input ∈ sv_effects v →
    object ∈ dropped_by input →
    cluster_step c (with_proc c pid (Serving v) [Remove (TableKey_display (mk_table_key object))])
| step_land pid key body :
    Put pid key body ∈ cl_requests c → cl_store c !! key = None →
    cluster_step c (with_store c (<[key := body]> (cl_store c)))
| step_remove key :
    Remove key ∈ cl_requests c → cluster_step c (with_store c (delete key (cl_store c))).

Definition cluster_reachable (c : Cluster) : Prop := rtc cluster_step cluster_init c.

End cluster.
