(* ===== verification/ClusterInv.v ===== *)
(** The invariant of many processes on one store.

    A cluster has one history: the list of the WAL objects that took their coordinate
    first.  The store holds each of them, or, once a Seal covers it, may have lost a RUN
    of it, and may then hold a late FENCE in its place.  Seals form one chain whose cuts
    never fall, and the tables of each fold to the history at its cut.  Requests still in
    the air can only land inside this picture, whatever they are and whenever they land. *)

From S2P Require Import Prelude OrdMap Text Domain Coordinates Partition Seal Wal Forest.
From S2P Require Import ForestTheory Archive Spelling Sst Writer WriterSafety WriterSystem.
From S2P Require Import Bootstrap BootstrapSafety Recovery ObjectStore Stores StoreTheory Common.
From S2P Require Import BootstrapRun Checkpoint CheckpointTheory CheckpointSafety.
From S2P Require Import CheckpointLink CheckpointRun Cluster.

(** * Keys *)

Lemma seal_wal_keys g b : seal_spelling g ≠ wal_spelling b.
Proof. intros He. by injection (f_equal (take 1) He). Qed.

Lemma seal_table_keys g k : seal_spelling g ≠ TableKey_display k.
Proof. intros He. by injection (f_equal (take 1) He). Qed.

Lemma wal_table_keys b k : wal_spelling b ≠ TableKey_display k.
Proof. intros He. by injection (f_equal (take 1) He). Qed.

Lemma seal_spelling_inj g g' : seal_spelling g = seal_spelling g' → g = g'.
Proof. apply coord_spelling_inj. Qed.

Lemma wal_spelling_inj b b' : wal_spelling b = wal_spelling b' → b = b'.
Proof. apply coord_spelling_inj. Qed.

Lemma table_display_inj k k' :
  table_key_widths k → table_key_widths k' → TableKey_display k = TableKey_display k' → k = k'.
Proof.
  intros Hk Hk' He. apply TableKey_parse_display in Hk, Hk'. rewrite He in Hk. congruence.
Qed.

Lemma put_inj p k b p' k' b' : Put p k b = Put p' k' b' → p = p' ∧ k = k' ∧ b = b'.
Proof. by intros [= -> -> ->]. Qed.

(** * Histories *)

(** The history to a coordinate. *)
Definition upto (n : Z) (h : list WalObject) : list WalObject := take (Z.to_nat n) h.

(** Every object at its own coordinate, from one. *)
Definition placed (h : list WalObject) : Prop := (coord_get ∘ wal_batch <$> h) = seqZ 1 (zlen h).

(** The state a history replays to. *)
Definition folds (h : list WalObject) (o : option OwnerToken) (f : Forest) : Prop :=
  replayed None forest_empty h o f.

Lemma folds_det h o f o' f' : folds h o f → folds h o' f' → o = o' ∧ f = f'.
Proof. apply replayed_det, forest_empty_wf. Qed.

Lemma folds_wf h o f : folds h o f → forest_wf f.
Proof. apply replayed_wf, forest_empty_wf. Qed.

Lemma folds_prefix h h' o f : h `prefix_of` h' → folds h' o f → ∃ o1 f1, folds h o1 f1.
Proof. intros [k ->] (o1 & f1 & H & _)%replayed_app. by exists o1, f1. Qed.

Lemma placed_at h w :
  placed h → w ∈ h → h !! Z.to_nat (coord_get (wal_batch w) - 1) = Some w ∧
    1 ≤ coord_get (wal_batch w) ≤ zlen h.
Proof.
  intros Hp [i Hi]%list_elem_of_lookup. pose proof (batch_at _ _ _ _ _ Hp Hi) as ->.
  apply lookup_lt_Some in Hi as Hl. unfold zlen. replace (Z.to_nat _) with i by lia. split; [done|lia].
Qed.

Lemma placed_unique h w w' : placed h → w ∈ h → w' ∈ h → wal_batch w = wal_batch w' → w = w'.
Proof.
  intros Hp Hw Hw' He. destruct (placed_at _ _ Hp Hw) as [H1 _], (placed_at _ _ Hp Hw') as [H2 _].
  rewrite He, H2 in H1. congruence.
Qed.

Lemma placed_exists h n : placed h → 1 ≤ n ≤ zlen h → ∃ w, w ∈ h ∧ coord_get (wal_batch w) = n.
Proof.
  intros Hp Hn. unfold zlen in Hn.
  destruct (lookup_lt_is_Some_2 h (Z.to_nat (n - 1)) ltac:(lia)) as [w Hw].
  exists w. split; [by eapply list_elem_of_lookup_2|]. rewrite (batch_at _ _ _ _ _ Hp Hw). lia.
Qed.

Lemma placed_snoc h w : placed h → coord_get (wal_batch w) = zlen h + 1 → placed (h ++ [w]).
Proof.
  unfold placed, zlen. intros Hp Hw. rewrite fmap_app, Hp, length_app. cbn [fmap list_fmap length].
  rewrite Nat2Z.inj_add, seqZ_snoc by lia. unfold compose. by rewrite Hw, Z.add_comm.
Qed.

Lemma upto_prefix n h h' : n ≤ zlen h → h `prefix_of` h' → upto n h' = upto n h.
Proof. intros Hn [k ->]. unfold upto, zlen in *. apply take_app_le. lia. Qed.

Lemma upto_full h : upto (zlen h) h = h.
Proof. unfold upto, zlen. rewrite Nat2Z.id. apply firstn_all. Qed.

(** A longer prefix replays over a shorter one. *)
Lemma folds_between h n m o f o' f' :
  0 ≤ n → n ≤ m → folds (upto n h) o f → folds (upto m h) o' f' → ∃ rest, replayed o f rest o' f'.
Proof.
  intros Hn Hm H1 H2. exists (drop (Z.to_nat n) (upto m h)).
  rewrite <- (take_drop (Z.to_nat n) (upto m h)) in H2. apply replayed_app in H2 as (o1 & f1 & H2 & H3).
  assert (take (Z.to_nat n) (upto m h) = upto n h) as He.
  { unfold upto. rewrite take_take. f_equal. lia. }
  rewrite He in H2. by destruct (folds_det _ _ _ _ _ H1 H2) as [-> ->].
Qed.

(** Objects of the history at consecutive coordinates are its segment. *)
Lemma upto_segment h ws n k :
  placed h → 0 ≤ n → (coord_get ∘ wal_batch <$> ws) = seqZ (n + 1) k → Forall (.∈ h) ws →
  n ≤ zlen h → 0 ≤ k →
  upto (n + k) h = upto n h ++ ws ∧ n + k ≤ zlen h.
Proof.
  intros Hp Hn Hb Hin Hle Hk.
  assert (Z.of_nat (length ws) = k) as Hlen.
  { apply (f_equal length) in Hb. rewrite length_fmap, length_seqZ in Hb. lia. }
  assert (∀ i w, ws !! i = Some w → h !! (Z.to_nat n + i)%nat = Some w) as Hat.
  { intros i w Hi. pose proof (batch_at _ _ _ _ _ Hb Hi) as Hw.
    destruct (placed_at h w Hp (Forall_lookup_1 _ _ _ _ Hin Hi)) as [Hl _].
    by replace (Z.to_nat n + i)%nat with (Z.to_nat (coord_get (wal_batch w) - 1)) by lia. }
  assert (Z.to_nat (n + k) ≤ length h)%nat as Hmax.
  { destruct ws as [|w ws'] using rev_ind; [simpl in Hlen; unfold zlen in Hle; lia|].
    rewrite length_app in Hlen. simpl in Hlen.
    pose proof (Hat (length ws') w ltac:(by rewrite lookup_app_r, Nat.sub_diag by lia)) as Hl.
    apply lookup_lt_Some in Hl. lia. }
  split; [|unfold zlen; lia]. unfold upto. apply list_eq. intros i.
  destruct (decide (i < Z.to_nat n)%nat) as [Hi|Hi].
  { rewrite lookup_app_l by (rewrite length_take; lia). by rewrite !lookup_take_lt by lia. }
  rewrite lookup_app_r by (rewrite length_take; lia). rewrite length_take.
  replace (i - Z.to_nat n `min` length h)%nat with (i - Z.to_nat n)%nat by (unfold zlen in Hle; lia).
  destruct (decide (i < Z.to_nat (n + k))%nat) as [Hj|Hj].
  - rewrite lookup_take_lt by lia.
    destruct (lookup_lt_is_Some_2 ws (i - Z.to_nat n)%nat ltac:(lia)) as [w Hw]. rewrite Hw.
    rewrite <- (Hat _ _ Hw). f_equal. lia.
  - rewrite lookup_take_ge by lia. symmetry. apply lookup_ge_None. lia.
Qed.

(** The owner in force just before a RUN is the RUN's. *)
Lemma run_owner h w facts o f :
  placed h → folds h o f → w ∈ h → wal_body w = Run facts →
  ∃ f1, folds (upto (coord_get (wal_batch w) - 1) h) (Some (wal_owner w)) f1.
Proof.
  intros Hp Hf Hw Hb. destruct (placed_at _ _ Hp Hw) as [Hl [Hn _]]. unfold upto.
  rewrite <- (take_drop_middle h _ _ Hl) in Hf. apply replayed_app in Hf as (o1 & f1 & H1 & H2).
  apply (replayed_app _ _ [w]) in H2 as (o2 & f2 & H2 & _).
  apply (replayed_snoc _ _ []) in H2 as (o3 & f3 & [-> ->]%replayed_nil_inv & _ & H3).
  rewrite Hb in H3. destruct H3 as [-> _]. eauto.
Qed.

(** The last object of a history is of the owner in force. *)
Lemma last_owner h w o f :
  placed h → folds h o f → w ∈ h → coord_get (wal_batch w) = zlen h → o = Some (wal_owner w).
Proof.
  intros Hp Hf Hw Hb. destruct (placed_at _ _ Hp Hw) as [Hl Hn]. unfold zlen in *.
  destruct h as [|w' h'] using rev_ind; [by apply not_elem_of_nil in Hw|].
  rewrite length_app in *. simpl in *. replace (Z.to_nat _) with (length h') in Hl by lia.
  rewrite lookup_app_r, Nat.sub_diag in Hl by lia. injection Hl as ->.
  apply replayed_snoc in Hf as (o1 & f1 & _ & -> & _). done.
Qed.

Lemma placed_upto h n : placed h → n ≤ zlen h → placed (upto n h).
Proof.
  unfold placed, upto, zlen. intros Hp Hn. rewrite length_take. apply list_eq. intros i.
  rewrite list_lookup_fmap. destruct (decide (i < Z.to_nat n)%nat) as [Hi|Hi].
  - rewrite lookup_take_lt by lia. rewrite <- list_lookup_fmap, Hp.
    transitivity (Some (1 + Z.of_nat i)); [|symmetry]; apply lookup_seqZ; lia.
  - rewrite lookup_take_ge by lia. symmetry. apply lookup_seqZ_ge. lia.
Qed.

(** * The store and the requests *)

Section invariant.
  Context {J : Jiff} {HP : Heap} {HL : HeapLaws} {RL : RowLayout}.
  Context {RW : Rkyv ArchivedWalObject} {LW : RkyvLaws ArchivedWalObject} {RS : Rkyv ArchivedSeal}.
  Context {RD : Rkyv (SstArchive ArchivedDirectoryRow)} {RG : Rkyv (SstArchive ArchivedLedgerRow)}.

Definition wal_bytes (w : WalObject) : list Z := rkyv_bytes (archive_wal w).
Definition wal_key (w : WalObject) : str := wal_spelling (wal_batch w).
Definition owner_of (w : WalObject) : Z := coord_get (generation (wal_owner w)).

(** A Seal in the store. *)
Definition sealed (c : Cluster) (s : Seal) : Prop :=
  ∃ bytes, cl_store c !! seal_spelling (seal_generation s) = Some bytes ∧
    decode_seal (seal_generation s) bytes = Ret (Ok s).

(** A coordinate some Seal covers. *)
Definition covered (c : Cluster) (b : BatchId) : Prop := ∃ s, sealed c s ∧ coord_get b ≤ seal_cut s.

(** A generation with a newer Seal. *)
Definition stale (c : Cluster) (g : SealGeneration) : Prop :=
  ∃ s, sealed c s ∧ coord_get g < coord_get (seal_generation s).

(** A Seal whose create this process was told it won. *)
Definition holds_claim (c : Cluster) (pid : nat) (s : Seal) : Prop :=
  sealed c s ∧ cl_authority c !! coord_get (seal_generation s) = Some pid.

Definition table_spelling (object : TableObjectId) : str := TableKey_display (mk_table_key object).

(** The rows some process asked to write as a table. *)
Definition written (c : Cluster) (partition : PartitionId) (table : TableRef)
    (decoded : DecodedTable) : Prop :=
  ∃ pid bytes, Put pid (table_spelling (table_object table)) bytes ∈ cl_requests c ∧
    decode_table partition (mk_table_key (table_object table)) bytes = Ret (Ok decoded) ∧
    decoded_matches table decoded.

(** The tables of a Seal, however they are read, fold to the history at its cut. *)
Record seal_good (c : Cluster) (h : list WalObject) (s : Seal) : Prop := {
  good_base : ∃ base, folds (upto (seal_cut s) h) (replay_owner (seal_replay s)) base ∧
    ∀ reads : TableRef → DecodedTable,
      (∀ table, table ∈ planned_tables s → written c (seal_partition s) table (reads table)) →
      tables_forest (reads <$> planned_tables s) = base;
  good_tables : ∀ table, table ∈ planned_tables s →
    ∃ pid bytes, Put pid (table_spelling (table_object table)) bytes ∈ cl_requests c
}.

(** A WAL create that may still land: at the end of the history, where the object
    replays, or where the history already has an object that keeps the coordinate, or
    that only a later FENCE may come after. *)
Record wal_request (c : Cluster) (h : list WalObject) (w : WalObject) : Prop := {
  wr_reach : coord_get (wal_batch w) ≤ zlen h + 1;
  wr_next : coord_get (wal_batch w) = zlen h + 1 →
    ∃ o f o' f', folds h o f ∧ replay_step w o f o' f';
  wr_taken : ∀ w0, w0 ∈ h → wal_batch w0 = wal_batch w →
    w0 = w ∨ wal_body w0 = Fence ∨ (wal_body w = Fence ∧ owner_of w0 < owner_of w);
  wr_partition : ∃ s, sealed c s ∧ wal_partition w = seal_partition s
}.

(** A Seal create that may still land: genesis, or the successor of a Seal in the store. *)
Definition seal_request (c : Cluster) (h : list WalObject) (s : Seal) : Prop :=
  (seal_generation s = genesis_generation ∧ seal_replay s = Genesis ∧ planned_tables s = []) ∨
  (∃ source, sealed c source ∧
     coord_get (seal_generation s) = coord_get (seal_generation source) + 1 ∧
     seal_partition s = seal_partition source ∧
     seal_cut source ≤ seal_cut s ≤ zlen h ∧ seal_good c h s).

Definition table_claim (key : TableKey) : Z := coord_get (owner_claim (attempt (fresh (key_object key)))).
Definition table_counter (key : TableKey) : Z := local_counter (attempt (fresh (key_object key))).

Inductive put_ok (c : Cluster) (h : list WalObject) (pid : nat) : str → list Z → Prop :=
| put_ok_wal w :
    wal_request c h w →
    (wal_body w ≠ Fence → cl_authority c !! owner_of w = Some pid) →
    put_ok c h pid (wal_key w) (wal_bytes w)
| put_ok_seal s bytes :
    decode_seal (seal_generation s) bytes = Ret (Ok s) → seal_request c h s →
    put_ok c h pid (seal_spelling (seal_generation s)) bytes
| put_ok_table key bytes :
    table_key_widths key → cl_authority c !! table_claim key = Some pid →
    put_ok c h pid (TableKey_display key) bytes.

(** A delete that may still land: of a covered RUN, or of a table. *)
Inductive remove_ok (c : Cluster) (h : list WalObject) : str → Prop :=
| remove_ok_wal w facts :
    w ∈ h → wal_body w = Run facts → covered c (wal_batch w) → remove_ok c h (wal_key w)
| remove_ok_table key : remove_ok c h (TableKey_display key).

(** What the store holds at a WAL coordinate: the history's object, or a FENCE that came
    after its RUN was collected. *)
Definition wal_content (c : Cluster) (h : list WalObject) (b : BatchId) (bytes : list Z) : Prop :=
  ∃ w, wal_batch w = b ∧ bytes = wal_bytes w ∧
    (w ∈ h ∨
     (wal_body w = Fence ∧ covered c b ∧
      ∃ w0, w0 ∈ h ∧ wal_batch w0 = b ∧ owner_of w0 < owner_of w)).

(** A process asks for one RUN at a coordinate, and the cluster for one content of a table. *)
Definition runs_unique (requests : list Request) : Prop := ∀ pid w w',
  Put pid (wal_key w) (wal_bytes w) ∈ requests → Put pid (wal_key w') (wal_bytes w') ∈ requests →
  wal_body w ≠ Fence → wal_body w' ≠ Fence → wal_batch w = wal_batch w' → w = w'.
Definition tables_unique (requests : list Request) : Prop := ∀ pid pid' object bytes bytes',
  Put pid (table_spelling object) bytes ∈ requests →
  Put pid' (table_spelling object) bytes' ∈ requests → bytes = bytes'.

(** The history and the coordinates that hold it. *)
Record wal_inv (c : Cluster) (h : list WalObject) : Prop := {
  si_placed : placed h;
  si_folds : ∃ o f, folds h o f;
  si_wal : ∀ b bytes, cl_store c !! wal_spelling b = Some bytes → wal_content c h b bytes;
  si_gone : ∀ w, w ∈ h → cl_store c !! wal_key w = None → wal_body w ≠ Fence ∧ covered c (wal_batch w);
  si_partition : ∀ w, w ∈ h → ∃ s, sealed c s ∧ wal_partition w = seal_partition s
}.

(** The chain of Seals. *)
Record seals_inv (c : Cluster) (h : list WalObject) : Prop := {
  si_seals : ∀ g bytes, cl_store c !! seal_spelling g = Some bytes →
    ∃ s, seal_generation s = g ∧ decode_seal g bytes = Ret (Ok s);
  si_chain : ∀ s, sealed c s → seal_generation s = genesis_generation ∨
    ∃ source, sealed c source ∧ coord_get (seal_generation s) = coord_get (seal_generation source) + 1 ∧
      seal_partition s = seal_partition source ∧ seal_cut source ≤ seal_cut s;
  si_good : ∀ s, sealed c s → seal_cut s ≤ zlen h ∧ seal_good c h s;
  si_authority : ∀ g pid, cl_authority c !! coord_get g = Some pid →
    is_Some (cl_store c !! seal_spelling g)
}.

(** The requests that may still land. *)
Record requests_inv (c : Cluster) (h : list WalObject) : Prop := {
  si_store : ∀ key bytes, cl_store c !! key = Some bytes → ∃ pid, Put pid key bytes ∈ cl_requests c;
  si_puts : ∀ pid key bytes, Put pid key bytes ∈ cl_requests c → put_ok c h pid key bytes;
  si_removes : ∀ key, Remove key ∈ cl_requests c → remove_ok c h key;
  si_runs : runs_unique (cl_requests c);
  si_asked : ∀ w, w ∈ h → wal_body w ≠ Fence →
    ∃ pid, Put pid (wal_key w) (wal_bytes w) ∈ cl_requests c ∧ cl_authority c !! owner_of w = Some pid;
  si_tables : tables_unique (cl_requests c)
}.

Record store_inv (c : Cluster) (h : list WalObject) : Prop := {
  inv_wal :> wal_inv c h;
  inv_seals :> seals_inv c h;
  inv_requests :> requests_inv c h
}.

(** What only grows. *)
Record grows (c : Cluster) (h : list WalObject) (c' : Cluster) (h' : list WalObject) : Prop := {
  gr_history : h `prefix_of` h';
  gr_requests : ∀ r, r ∈ cl_requests c → r ∈ cl_requests c';
  gr_seals : ∀ s, sealed c s → sealed c' s;
  gr_authority : cl_authority c ⊆ cl_authority c'
}.

(** ** Seals *)

Lemma sealed_det c s s' : sealed c s → sealed c s' → seal_generation s = seal_generation s' → s = s'.
Proof.
  intros (b & Hb & Hd) (b' & Hb' & Hd') He. rewrite He in *. rewrite Hb in Hb'. injection Hb' as <-.
  rewrite Hd in Hd'. by injection Hd'.
Qed.

Lemma sealed_lookup c h g bytes s :
  seals_inv c h → cl_store c !! seal_spelling g = Some bytes → decode_seal g bytes = Ret (Ok s) →
  seal_generation s = g ∧ sealed c s.
Proof.
  intros I Hb Hd. destruct (si_seals _ _ I _ _ Hb) as (s' & <- & Hd'). rewrite Hd in Hd'.
  injection Hd' as <-. split; [done|]. by exists bytes.
Qed.

(** Cuts never fall along the chain, and the partition is one. *)
Lemma sealed_between c h s s' :
  seals_inv c h → sealed c s → sealed c s' →
  coord_get (seal_generation s) ≤ coord_get (seal_generation s') →
  seal_cut s ≤ seal_cut s' ∧ seal_partition s = seal_partition s'.
Proof.
  intros I Hs. remember (coord_get (seal_generation s') - coord_get (seal_generation s)) as n eqn:Hn.
  intros Hs' Hle. assert (0 ≤ n) as H0 by lia. clear Hle. revert s' Hn Hs'.
  pattern n. apply natlike_ind; [| |done]; clear n H0.
  - intros s' Hn Hs'. assert (s' = s) as ->; [|done]. apply (sealed_det c); try done.
    apply coord_get_inj. lia.
  - intros n H0 IH s' Hn Hs'. destruct (si_chain _ _ I _ Hs') as [Hg|(source & Hsrc & Hg & Hp & Hc)].
    + pose proof (coord_bounds (seal_generation s)). rewrite Hg in Hn.
      change (coord_get genesis_generation) with 1 in Hn. lia.
    + destruct (IH source ltac:(lia) Hsrc). split; [lia|congruence].
Qed.

Lemma sealed_partition c h s s' :
  seals_inv c h → sealed c s → sealed c s' → seal_partition s = seal_partition s'.
Proof.
  intros I Hs Hs'.
  destruct (Z.le_ge_cases (coord_get (seal_generation s)) (coord_get (seal_generation s'))).
  - by eapply sealed_between.
  - symmetry. by eapply sealed_between.
Qed.

(** A coordinate past a Seal's cut that is covered makes the Seal stale. *)
Lemma covered_stale c h s b :
  seals_inv c h → sealed c s → seal_cut s < coord_get b → covered c b → stale c (seal_generation s).
Proof.
  intros I Hs Hb (s' & Hs' & Hc). exists s'. split; [done|].
  destruct (Z.lt_ge_cases (coord_get (seal_generation s)) (coord_get (seal_generation s'))); [done|].
  destruct (sealed_between _ _ _ _ I Hs' Hs); [done|lia].
Qed.

(** ** What grows stays *)

Lemma grows_refl c h : grows c h c h.
Proof. by split. Qed.

Lemma grows_trans c1 h1 c2 h2 c3 h3 : grows c1 h1 c2 h2 → grows c2 h2 c3 h3 → grows c1 h1 c3 h3.
Proof.
  intros [A1 A2 A3 A4] [B1 B2 B3 B4]. split; [by etrans|auto|auto|by etrans].
Qed.

Lemma covered_grows c h c' h' b : grows c h c' h' → covered c b → covered c' b.
Proof. intros G (s & Hs & Hb). exists s. split; [by eapply gr_seals|done]. Qed.

Lemma stale_grows c h c' h' g : grows c h c' h' → stale c g → stale c' g.
Proof. intros G (s & Hs & Hg). exists s. split; [by eapply gr_seals|done]. Qed.

Lemma authority_grows c h c' h' g pid :
  grows c h c' h' → cl_authority c !! g = Some pid → cl_authority c' !! g = Some pid.
Proof. intros G Hg. by eapply lookup_weaken, gr_authority. Qed.

Lemma holds_grows c h c' h' pid s : grows c h c' h' → holds_claim c pid s → holds_claim c' pid s.
Proof. intros G [Hs Ha]. split; [by eapply gr_seals|by eapply authority_grows]. Qed.

Lemma history_grows c h c' h' w : grows c h c' h' → w ∈ h → w ∈ h'.
Proof. intros G Hw. destruct (gr_history _ _ _ _ G) as [k ->]. apply elem_of_app. by left. Qed.

Lemma length_grows c h c' h' : grows c h c' h' → zlen h ≤ zlen h'.
Proof. intros G. unfold zlen. apply gr_history, prefix_length in G. lia. Qed.

Lemma written_grows c h c' h' partition table decoded :
  grows c h c' h' → written c partition table decoded → written c' partition table decoded.
Proof. intros G (pid & bytes & Hin & ?). exists pid, bytes. split; [by eapply gr_requests|done]. Qed.

Lemma seal_good_grows c h c' h' s :
  grows c h c' h' → tables_unique (cl_requests c') → seal_cut s ≤ zlen h →
  seal_good c h s → seal_good c' h' s.
Proof.
  intros G U Hc [(base & Hf & Hr) Ht]. split.
  - exists base. rewrite (upto_prefix _ h) by (done || apply G). split; [done|].
    intros reads Hw. apply Hr. intros table Hin. destruct (Hw table Hin) as (p1 & b1 & H1 & H2).
    destruct (Ht table Hin) as (p2 & b2 & H3). exists p2, b1. split; [|done].
    rewrite (U _ _ _ _ _ H1 (gr_requests _ _ _ _ G _ H3)). done.
  - intros table Hin. destruct (Ht table Hin) as (pid & bytes & Hp). exists pid, bytes. by apply G.
Qed.

Lemma seal_request_grows c h c' h' s :
  grows c h c' h' → tables_unique (cl_requests c') → seal_request c h s → seal_request c' h' s.
Proof.
  intros G U [?|(source & Hs & Hg & Hp & Hc & Hgood)]; [by left|right]. exists source.
  pose proof (length_grows _ _ _ _ G). split_and!; try done; [by eapply gr_seals|lia|lia|].
  eapply seal_good_grows; [done..| |done]. lia.
Qed.

Lemma wal_request_same c c' h w : grows c h c' h → wal_request c h w → wal_request c' h w.
Proof.
  intros G [H1 H2 H3 (s & Hs & Hp)]. split; try done. exists s. split; [by eapply gr_seals|done].
Qed.

(** A request survives another object taking the end of the history. *)
Lemma wal_request_snoc c c' h w w1 o f o' f' :
  grows c h c' (h ++ [w1]) → coord_get (wal_batch w1) = zlen h + 1 →
  folds h o f → replay_step w1 o f o' f' → wal_request c h w →
  (wal_body w ≠ Fence → wal_body w1 ≠ Fence → wal_batch w = wal_batch w1 →
     wal_owner w = wal_owner w1 → w1 = w) →
  wal_request c' (h ++ [w1]) w.
Proof.
  intros G Hb Hf Hst [H1 H2 H3 (s & Hs & Hp)] Hrun. unfold zlen in *.
  split; unfold zlen; rewrite ?length_app; simpl; [lia|lia| |].
  2: { exists s. split; [by eapply gr_seals|done]. }
  intros w0 [Hw0|Hw0]%elem_of_app He; [by apply H3|]. apply list_elem_of_singleton in Hw0 as ->.
  destruct H2 as (o2 & f2 & o3 & f3 & Hf2 & Hst2); [rewrite <- He; lia|].
  destruct (folds_det _ _ _ _ _ Hf Hf2) as [<- <-].
  destruct Hst as [_ Hst], Hst2 as [_ Hst2]. unfold owner_of.
  destruct (wal_body w1) as [facts|]; [|by right; left].
  destruct Hst as [-> _]. destruct (wal_body w) as [facts'|].
  - left. destruct Hst2 as [[= Ho] _]. by apply Hrun.
  - right. right. split; [done|]. by apply (proj2 Hst2).
Qed.

Lemma put_ok_grows c c' h pid key bytes :
  grows c h c' h → tables_unique (cl_requests c') → put_ok c h pid key bytes → put_ok c' h pid key bytes.
Proof.
  intros G U [w Hw Ha|s b Hd Hs|k b Hk Ha].
  - constructor; [by eapply wal_request_same|]. intros ?%Ha. by eapply authority_grows.
  - constructor; [done|]. by eapply seal_request_grows.
  - constructor; [done|]. by eapply authority_grows.
Qed.

Lemma remove_ok_grows c h c' h' key : grows c h c' h' → remove_ok c h key → remove_ok c' h' key.
Proof.
  intros G [w facts Hw Hb Hc|k]; [|constructor].
  econstructor; [by eapply history_grows|done|by eapply covered_grows].
Qed.

End invariant.
