(* ===== verification/ClusterStore.v ===== *)
(** Requests landing on the store.

    Whatever a process asked for, at any time after it asked: a create that finds its
    coordinate free, and a delete, keep the invariant of ClusterInv.v.  A WAL create lands
    at the end of the history and extends it, or inside, where it restores a collected
    object or leaves a late FENCE that only outdated readers can meet. *)

From S2P Require Import Prelude OrdMap Text Domain Coordinates Partition Seal Wal Forest.
From S2P Require Import ForestTheory Archive Spelling Sst Writer WriterSafety WriterSystem.
From S2P Require Import Bootstrap BootstrapSafety Recovery ObjectStore Stores StoreTheory Common.
From S2P Require Import BootstrapRun Checkpoint CheckpointTheory CheckpointSafety.
From S2P Require Import CheckpointLink CheckpointRun Cluster ClusterInv.

Section landing.
  Context {J : Jiff} {HP : Heap} {HL : HeapLaws} {RL : RowLayout}.
  Context {RW : Rkyv ArchivedWalObject} {LW : RkyvLaws ArchivedWalObject} {RS : Rkyv ArchivedSeal}.
  Context {RD : Rkyv (SstArchive ArchivedDirectoryRow)} {RG : Rkyv (SstArchive ArchivedLedgerRow)}.

(** * Frames *)

(** The Seals are read from their own keys. *)
Definition same_seals (c c' : Cluster) : Prop :=
  ∀ g, cl_store c' !! seal_spelling g = cl_store c !! seal_spelling g.

Lemma sealed_same c c' s : same_seals c c' → sealed c' s ↔ sealed c s.
Proof. intros Hs. unfold sealed. by rewrite Hs. Qed.

Lemma seals_frame c h c' h' :
  seals_inv c h → grows c h c' h' → same_seals c c' → tables_unique (cl_requests c') →
  cl_authority c' = cl_authority c → seals_inv c' h'.
Proof.
  intros [H1 H2 H3 H4] G Hs U Ha. split.
  - intros g bytes. rewrite Hs. apply H1.
  - intros s. rewrite sealed_same by done. intros [?|(source & Hsrc & ?)]%H2; [by left|right].
    exists source. by rewrite sealed_same by done.
  - intros s. rewrite sealed_same by done. intros [Hc Hg]%H3. pose proof (length_grows _ _ _ _ G).
    split; [lia|]. by eapply seal_good_grows.
  - intros g pid. rewrite Ha, Hs. apply H4.
Qed.

Lemma wal_content_grows c h c' h' b bytes :
  grows c h c' h' → wal_content c h b bytes → wal_content c' h' b bytes.
Proof.
  intros G (w & Hb & -> & Hw). exists w. split; [done|]. split; [done|].
  destruct Hw as [?|(Hf & Hc & w0 & Hw0 & ?)]; [left; by eapply history_grows|right].
  split; [done|]. split; [by eapply covered_grows|]. exists w0. split; [by eapply history_grows|done].
Qed.

Lemma requests_frame c h c' :
  requests_inv c h → grows c h c' h → cl_requests c' = cl_requests c →
  (∀ key bytes, cl_store c' !! key = Some bytes → ∃ pid, Put pid key bytes ∈ cl_requests c) →
  requests_inv c' h.
Proof.
  intros [_ H1 H2 H3 H4 H5] G Hr Hst. split; rewrite ?Hr; try done.
  - intros pid key bytes ?%H1. eapply put_ok_grows; [done| |done]. by rewrite Hr.
  - intros key ?%H2. by eapply remove_ok_grows.
  - intros w Hw Hb. destruct (H4 w Hw Hb) as (pid & ? & ?). exists pid. split; [done|].
    by eapply authority_grows.
Qed.

(** What the store holds was asked for. *)
Lemma insert_asked c h c' pid key body :
  requests_inv c h → Put pid key body ∈ cl_requests c → cl_store c' = <[key := body]> (cl_store c) →
  ∀ k bytes, cl_store c' !! k = Some bytes → ∃ pid, Put pid k bytes ∈ cl_requests c.
Proof.
  intros I Hp -> k bytes [[<- <-]|[_ Hk]]%lookup_insert_Some; [by exists pid|]. by apply (si_store _ _ I).
Qed.

(** The WAL coordinates are read from their own keys. *)
Lemma wal_frame c h c' :
  wal_inv c h → grows c h c' h →
  (∀ b, cl_store c' !! wal_spelling b = cl_store c !! wal_spelling b) → wal_inv c' h.
Proof.
  intros [H1 H2 H3 H4 H5] G Hs. split; [done|done|..].
  - intros b bytes. rewrite Hs. intros ?%H3. by eapply wal_content_grows.
  - intros w Hw. unfold wal_key. rewrite Hs. intros Hn. destruct (H4 w Hw Hn). split; [done|].
    by eapply covered_grows.
  - intros w Hw. destruct (H5 w Hw) as (s & Hs' & ?). exists s. split; [by eapply gr_seals|done].
Qed.

Lemma insert_grows c h c' key body :
  cl_store c !! key = None → cl_store c' = <[key := body]> (cl_store c) →
  cl_requests c' = cl_requests c → cl_authority c ⊆ cl_authority c' → grows c h c' h.
Proof.
  intros Hk Hs Hr Ha. split; [done|by rewrite Hr| |done].
  intros s (bytes & Hb & Hd). exists bytes. split; [|done]. rewrite Hs, lookup_insert_ne; congruence.
Qed.

Lemma grows_snoc c c' h w : grows c h c' h → grows c h c' (h ++ [w]).
Proof. intros [? ? ? ?]. split; try done. by apply prefix_app_r. Qed.

(** * Creates *)

(** Where an absent coordinate is inside the history, what lands is the object that was
    there, or a late FENCE. *)
Lemma land_wal_inside c h c' pid w :
  store_inv c h → wal_request c h w → coord_get (wal_batch w) ≤ zlen h →
  Put pid (wal_key w) (wal_bytes w) ∈ cl_requests c →
  cl_store c !! wal_key w = None → cl_store c' = <[wal_key w := wal_bytes w]> (cl_store c) →
  cl_requests c' = cl_requests c → cl_authority c' = cl_authority c → store_inv c' h.
Proof.
  intros I Q Hb Hput Hk Hs Hr Ha. assert (grows c h c' h) as G by (eapply insert_grows; rewrite ?Ha; done).
  split; [|eapply seals_frame; rewrite ?Hr; try done; [apply I| |apply I]|].
  3: { eapply requests_frame; [apply I|done..|]. by eapply insert_asked; [apply I|..]. }
  2: { intros g. rewrite Hs, lookup_insert_ne; [done|]. intros He. by apply (seal_wal_keys g (wal_batch w)). }
  pose proof I.(inv_wal _ _) as [H1 H2 H3 H4 H5].
  destruct (placed_exists h (coord_get (wal_batch w)) H1) as (w0 & Hw0 & Hbw%coord_get_inj);
    [pose proof (coord_bounds (wal_batch w)); lia|].
  assert (cl_store c !! wal_key w0 = None) as Hk0 by (unfold wal_key in *; by rewrite Hbw).
  destruct (H4 w0 Hw0 Hk0) as [Hrun Hcov].
  split; [done|done|..].
  - intros b bytes. rewrite Hs. destruct (decide (b = wal_batch w)) as [->|Hne].
    + unfold wal_key. rewrite lookup_insert_eq. intros [= <-]. exists w. split; [done|]. split; [done|].
      destruct (wr_taken _ _ _ Q w0 Hw0 Hbw) as [->|[?|[Hf Ho]]]; [by left|done|right].
      rewrite Hbw in Hcov. split; [done|]. split; [by eapply covered_grows|]. eauto.
    + rewrite lookup_insert_ne by (intros ?%wal_spelling_inj; congruence).
      intros ?%H3. by eapply wal_content_grows.
  - intros w1 Hw1. rewrite Hs. intros [Hn _]%lookup_insert_None. destruct (H4 w1 Hw1 Hn).
    split; [done|]. by eapply covered_grows.
  - intros w1 Hw1. destruct (H5 w1 Hw1) as (s & ? & ?). exists s. split; [by eapply gr_seals|done].
Qed.

(** At the end of the history, what lands extends it. *)
Lemma land_wal_end c h c' pid w :
  store_inv c h → wal_request c h w → coord_get (wal_batch w) = zlen h + 1 →
  Put pid (wal_key w) (wal_bytes w) ∈ cl_requests c →
  (wal_body w ≠ Fence → cl_authority c !! owner_of w = Some pid) →
  cl_store c !! wal_key w = None → cl_store c' = <[wal_key w := wal_bytes w]> (cl_store c) →
  cl_requests c' = cl_requests c → cl_authority c' = cl_authority c → store_inv c' (h ++ [w]).
Proof.
  intros I Q Hb Hput Hauth Hk Hs Hr Ha.
  assert (grows c h c' h) as G by (eapply insert_grows; rewrite ?Ha; done).
  pose proof (grows_snoc _ _ _ w G) as G'.
  destruct (wr_next _ _ _ Q Hb) as (o & f & o' & f' & Hf & Hst).
  split; [|eapply seals_frame; rewrite ?Hr; try done; [apply I| |apply I]|].
  2: { intros g. rewrite Hs, lookup_insert_ne; [done|]. intros He. by apply (seal_wal_keys g (wal_batch w)). }
  - pose proof I.(inv_wal _ _) as [H1 H2 H3 H4 H5]. split.
    + by apply placed_snoc.
    + exists o', f'. apply replayed_snoc. eauto.
    + intros b bytes. rewrite Hs. destruct (decide (b = wal_batch w)) as [->|Hne].
      * unfold wal_key. rewrite lookup_insert_eq. intros [= <-]. exists w. split; [done|]. split; [done|].
        left. apply elem_of_app. right. by apply list_elem_of_singleton.
      * rewrite lookup_insert_ne by (intros ?%wal_spelling_inj; congruence).
        intros ?%H3. by eapply wal_content_grows.
    + intros w1 [Hw1|Hw1]%elem_of_app; rewrite Hs; intros [Hn Hne]%lookup_insert_None.
      * destruct (H4 w1 Hw1 Hn). split; [done|]. by eapply covered_grows.
      * apply list_elem_of_singleton in Hw1 as ->. done.
    + intros w1 [Hw1|Hw1]%elem_of_app.
      * destruct (H5 w1 Hw1) as (s & ? & ?). exists s. split; [by eapply gr_seals|done].
      * apply list_elem_of_singleton in Hw1 as ->. destruct (wr_partition _ _ _ Q) as (s & ? & ?).
        exists s. split; [by eapply gr_seals|done].
  - pose proof I.(inv_requests _ _) as [_ H1 H2 H3 H4 H5]. split; rewrite ?Hr; try done.
    + by eapply insert_asked; [apply I|..].
    + intros pid1 key bytes Hp. destruct (H1 _ _ _ Hp) as [w1 Q1 Ha1|s b Hd Hq|k b Hk1 Ha1].
      * constructor; [|by rewrite Ha]. eapply wal_request_snoc; [done..|].
        intros Hb1 Hb2 Hbe Ho. assert (pid1 = pid) as ->.
        { specialize (Ha1 Hb1). specialize (Hauth Hb2). unfold owner_of in *. rewrite Ho in Ha1.
          congruence. }
        by eapply (H3 pid w w1).
      * constructor; [done|]. eapply seal_request_grows; [done| |done]. by rewrite Hr.
      * constructor; [done|]. by rewrite Ha.
    + intros key ?%H2. by eapply remove_ok_grows.
    + intros w1 [Hw1|Hw1]%elem_of_app Hb1; rewrite Ha; [by apply H4|].
      apply list_elem_of_singleton in Hw1 as ->. exists pid. split; [done|by apply Hauth].
Qed.

Lemma table_unaffected c h c' key :
  store_inv c h → grows c h c' h → (∀ k, k ≠ TableKey_display key → cl_store c' !! k = cl_store c !! k) →
  cl_requests c' = cl_requests c → cl_authority c' = cl_authority c →
  (∀ key bytes, cl_store c' !! key = Some bytes → ∃ pid, Put pid key bytes ∈ cl_requests c) →
  store_inv c' h.
Proof.
  intros I G Hs Hr Ha Hst. split.
  - eapply wal_frame; [apply I|done|]. intros b. apply Hs, wal_table_keys.
  - eapply seals_frame; rewrite ?Hr; [apply I|done| |apply I|done]. intros g. apply Hs, seal_table_keys.
  - eapply requests_frame; [apply I|done..].
Qed.

(** A Seal that lands extends the chain. *)
Lemma land_seal c h c' pid s bytes :
  store_inv c h → seal_request c h s →
  Put pid (seal_spelling (seal_generation s)) bytes ∈ cl_requests c → decode_seal (seal_generation s) bytes = Ret (Ok s) →
  cl_store c !! seal_spelling (seal_generation s) = None →
  cl_store c' = <[seal_spelling (seal_generation s) := bytes]> (cl_store c) →
  cl_requests c' = cl_requests c → cl_authority c ⊆ cl_authority c' →
  (∀ g pid, cl_authority c' !! coord_get g = Some pid → is_Some (cl_store c' !! seal_spelling g)) →
  store_inv c' h.
Proof.
  intros I Q Hput Hd Hk Hs Hr Ha Hauth. assert (grows c h c' h) as G by (by eapply insert_grows).
  assert (∀ s1, sealed c' s1 → s1 = s ∨ sealed c s1) as Hnew.
  { intros s1 (b & Hb & Hd1). rewrite Hs in Hb.
    destruct (decide (seal_generation s1 = seal_generation s)) as [He|He].
    - rewrite He, lookup_insert_eq in Hb. injection Hb as <-. left. rewrite He, Hd in Hd1. congruence.
    - rewrite lookup_insert_ne in Hb by (intros ?%seal_spelling_inj; congruence).
      right. by exists b. }
  pose proof I.(inv_seals _ _) as [H1 H2 H3 H4].
  assert (tables_unique (cl_requests c')) as U by (rewrite Hr; apply I).
  split; [eapply wal_frame; [apply I|done|]|split|].
  6: { eapply requests_frame; [apply I|done..|]. by eapply insert_asked; [apply I|..]. }
  - intros b. rewrite Hs. apply lookup_insert_ne. apply seal_wal_keys.
  - intros g b. rewrite Hs. destruct (decide (g = seal_generation s)) as [->|He].
    + rewrite lookup_insert_eq. intros [= <-]. eauto.
    + rewrite lookup_insert_ne by (intros ?%seal_spelling_inj; congruence). apply H1.
  - intros s1 [->|Hs1]%Hnew.
    + destruct Q as [[? _]|(source & Hsrc & ? & ? & ? & _)]; [by left|right]. exists source.
      split_and!; try done; [by eapply gr_seals|lia].
    + destruct (H2 s1 Hs1) as [?|(source & Hsrc & ?)]; [by left|right]. exists source.
      split; [by eapply gr_seals|done].
  - intros s1 [->|Hs1]%Hnew.
    + destruct Q as [(_ & Hrep & Ht)|(source & _ & _ & _ & Hc & Hgood)].
      * unfold seal_cut. rewrite Hrep. cbn [replay_batch cut_value]. split; [unfold zlen; lia|].
        split; rewrite ?Ht; [|by intros table ?%not_elem_of_nil]. exists forest_empty.
        unfold seal_cut. rewrite Hrep. split; [constructor|done].
      * split; [lia|]. eapply seal_good_grows; [done..| |done]. lia.
    + destruct (H3 s1 Hs1). split; [done|]. by eapply seal_good_grows.
  - done.
Qed.

(** A create that lands, whatever it is. *)
Lemma land_keeps c h pid key body :
  store_inv c h → Put pid key body ∈ cl_requests c → cl_store c !! key = None →
  let c' := with_store c (<[key := body]> (cl_store c)) in
  ∃ h', store_inv c' h' ∧ grows c h c' h'.
Proof.
  intros I Hput Hk c'. assert (grows c h c' h) as G by (by eapply insert_grows).
  destruct (si_puts _ _ I _ _ _ Hput) as [w Q Ha|s b Hd Q|k b Hw Ha].
  - destruct (decide (coord_get (wal_batch w) = zlen h + 1)) as [He|He].
    + exists (h ++ [w]). split; [by eapply (land_wal_end c h c' pid)|by apply grows_snoc].
    + exists h. split; [|done]. eapply (land_wal_inside c h c' pid w); try done.
      pose proof (wr_reach _ _ _ Q). lia.
  - exists h. split; [|done]. eapply (land_seal c h c' pid s); try done.
    intros g p Hg%(si_authority _ _ I). destruct Hg as [b' Hb']. exists b'.
    simpl. rewrite lookup_insert_ne; congruence.
  - exists h. split; [|done]. eapply (table_unaffected c h c' k); try done.
    + intros k' Hne. by apply lookup_insert_ne.
    + by eapply insert_asked; [apply I|..].
Qed.

(** * Deletes *)

Lemma remove_keeps c h key :
  store_inv c h → Remove key ∈ cl_requests c →
  let c' := with_store c (delete key (cl_store c)) in store_inv c' h ∧ grows c h c' h.
Proof.
  intros I Hrm c'.
  assert ((∀ g, key ≠ seal_spelling g) → grows c h c' h ∧ same_seals c c') as HG.
  { intros Hne. assert (same_seals c c') as Hs by (intros g; by apply lookup_delete_ne).
    split; [|done]. split; try done. intros s. by apply sealed_same. }
  assert (∀ k bytes, cl_store c' !! k = Some bytes → ∃ pid, Put pid k bytes ∈ cl_requests c) as Hst.
  { intros k bytes. simpl. intros [_ Hk]%lookup_delete_Some. by apply (si_store _ _ I). }
  destruct (si_removes _ _ I _ Hrm) as [w facts Hw Hb Hc|k].
  - destruct HG as [G Hs]; [intros g He; by apply (seal_wal_keys g (wal_batch w))|]. split; [|done].
    split; [|eapply seals_frame; [apply I|done..|apply I|done]|eapply requests_frame; [apply I|done..]].
    pose proof I.(inv_wal _ _) as [H1 H2 H3 H4 H5]. split; [done|done|..].
    + intros b bytes. simpl. intros [_ Hl]%lookup_delete_Some. eapply wal_content_grows; [done|]. by apply H3.
    + intros w1 Hw1. simpl. intros [He|Hn]%lookup_delete_None.
      * apply wal_spelling_inj in He. assert (w1 = w) as -> by (by eapply placed_unique).
        split; [by rewrite Hb|]. by eapply covered_grows.
      * destruct (H4 w1 Hw1 Hn). split; [done|]. by eapply covered_grows.
    + intros w1 Hw1. destruct (H5 w1 Hw1) as (s & ? & ?). exists s. split; [by eapply gr_seals|done].
  - destruct HG as [G _]; [intros g He; by apply (seal_table_keys g k)|]. split; [|done].
    eapply (table_unaffected c h c' k); try done. intros k' Hne. by apply lookup_delete_ne.
Qed.

(** * Asking *)

Definition request_ok (c : Cluster) (h : list WalObject) (pid : nat) (r : Request) : Prop :=
  match r with
  | Put pid' key bytes => pid' = pid ∧ put_ok c h pid key bytes
  | Remove key => remove_ok c h key
  end.

Lemma with_proc_grows c h pid p more : grows c h (with_proc c pid p more) h.
Proof. split; try done. intros r Hr. apply elem_of_app. by left. Qed.

Lemma ask_keeps c h pid p more :
  store_inv c h → (∀ r, r ∈ more → request_ok c h pid r) →
  runs_unique (cl_requests c ++ more) → tables_unique (cl_requests c ++ more) →
  store_inv (with_proc c pid p more) h.
Proof.
  intros I Hmore Hruns Htables. pose proof (with_proc_grows c h pid p more) as G. split.
  - eapply wal_frame; [apply I|done..].
  - eapply seals_frame; [apply I|done..].
  - pose proof I.(inv_requests _ _) as [H0 H1 H2 _ H4 _]. split; try done.
    + intros key bytes (pid1 & Hp)%H0. exists pid1. by apply G.
    + intros pid1 key bytes [Hp|Hp]%elem_of_app; (eapply put_ok_grows; [done|done|]); [by apply H1|].
      by destruct (Hmore _ Hp) as [-> ?].
    + intros key [Hp|Hp]%elem_of_app; (eapply remove_ok_grows; [done|]); [by apply H2|by apply (Hmore _ Hp)].
    + intros w Hw Hb. destruct (H4 w Hw Hb) as (pid1 & ? & ?). exists pid1. split; [by apply G|done].
Qed.

(** Steps that ask for nothing. *)
Lemma idle_keeps c h pid p : store_inv c h → store_inv (with_proc c pid p []) h.
Proof.
  intros I. apply ask_keeps; rewrite ?(right_id_L [] (++)); [done| |apply I|apply I].
  by intros r ?%not_elem_of_nil.
Qed.

(** Deletes never clash. *)
Lemma removes_keep c h pid p key :
  store_inv c h → remove_ok c h key → store_inv (with_proc c pid p [Remove key]) h.
Proof.
  intros I Hr. apply ask_keeps; [done| |..].
  - by intros r ->%list_elem_of_singleton.
  - intros pid1 w w' [H|H]%elem_of_app [H'|H']%elem_of_app; try by apply list_elem_of_singleton in H.
    + by apply (si_runs _ _ I pid1).
    + by apply list_elem_of_singleton in H'.
  - intros p1 p2 o b b' [H|H]%elem_of_app [H'|H']%elem_of_app; try by apply list_elem_of_singleton in H.
    + by apply (si_tables _ _ I p1 p2 o).
    + by apply list_elem_of_singleton in H'.
Qed.

(** * Authority *)

Lemma put_ok_seal_inv c h pid g bytes :
  put_ok c h pid (seal_spelling g) bytes →
  ∃ s, seal_generation s = g ∧ decode_seal g bytes = Ret (Ok s) ∧ seal_request c h s.
Proof.
  intros H. remember (seal_spelling g) as key eqn:Hk. destruct H as [w|s b Hd Q|k b].
  - symmetry in Hk. by apply seal_wal_keys in Hk.
  - apply seal_spelling_inj in Hk as <-. by exists s.
  - symmetry in Hk. by apply seal_table_keys in Hk.
Qed.

Lemma put_ok_table_inv c h pid k bytes :
  put_ok c h pid (TableKey_display k) bytes →
  ∃ k', TableKey_display k = TableKey_display k' ∧ table_key_widths k' ∧
    cl_authority c !! table_claim k' = Some pid.
Proof.
  intros H. remember (TableKey_display k) as key eqn:Hk. destruct H as [w|s b Hd Q|k' b Hw Ha].
  - by apply wal_table_keys in Hk.
  - by apply seal_table_keys in Hk.
  - by exists k'.
Qed.

(** The create that makes a Seal gives its process the generation. *)
Lemma author_keeps c h pid p seal bytes :
  store_inv c h → Put pid (seal_spelling (seal_generation seal)) bytes ∈ cl_requests c →
  decode_seal (seal_generation seal) bytes = Ret (Ok seal) →
  cl_store c !! seal_spelling (seal_generation seal) = None →
  let c' := with_authored c pid p seal bytes in
  store_inv c' h ∧ grows c h c' h ∧ holds_claim c' pid seal.
Proof.
  intros I Hput Hd Hk c'.
  destruct (put_ok_seal_inv _ _ _ _ _ (si_puts _ _ I _ _ _ Hput)) as (s & _ & Hd' & Q).
  rewrite Hd in Hd'. injection Hd' as <-.
  assert (cl_authority c ⊆ cl_authority c') as Ha.
  { apply insert_subseteq. destruct (cl_authority c !! _) as [q|] eqn:Hq; [|done].
    apply (si_authority _ _ I) in Hq as [b Hb]. congruence. }
  split; [|split; [by eapply insert_grows|]].
  - eapply (land_seal c h c' pid seal bytes); try done. intros g q. simpl.
    intros [[Hg _]|[_ Hg]]%lookup_insert_Some.
    + apply coord_get_inj in Hg as <-. rewrite lookup_insert_eq. by eexists.
    + apply (si_authority _ _ I) in Hg as [b Hb].
      destruct (decide (g = seal_generation seal)) as [->|Hne]; [rewrite lookup_insert_eq; by eexists|].
      rewrite lookup_insert_ne by (intros ?%seal_spelling_inj; congruence). by exists b.
  - split; [|apply lookup_insert_eq]. exists bytes. split; [apply lookup_insert_eq|done].
Qed.

End landing.
