(* ===== verification/ClusterBoot.v ===== *)
(** A bootstrap among other processes.

    What a bootstrap knows of the cluster at each of its states, and why its claim and
    its FENCE are requests that may land at any later time: the claim is the exact
    successor of a Seal in the store, and the FENCE comes after a coordinate whose owner
    is older.  A replay that met a late FENCE has been overtaken by a newer Seal, and the
    final refresh tells it so. *)

From S2P Require Import Prelude OrdMap Text Domain Coordinates Partition Seal Wal Forest.
From S2P Require Import ForestTheory Archive Spelling Sst Writer WriterSafety WriterSystem.
From S2P Require Import Bootstrap BootstrapSafety Recovery ObjectStore Stores StoreTheory Common.
From S2P Require Import BootstrapRun Checkpoint CheckpointTheory CheckpointSafety.
From S2P Require Import CheckpointLink CheckpointRun Cluster ClusterInv ClusterStore.

(** * Seals and their successors *)

Lemma claim_successor_fields seal claim :
  claim_successor seal = Ok claim →
  coord_get (seal_generation claim) = coord_get (seal_generation seal) + 1 ∧
  seal_partition claim = seal_partition seal ∧ seal_replay claim = seal_replay seal ∧
  planned_tables claim = planned_tables seal.
Proof.
  intros (gen & Hg%successor_Ok & Hc)%claim_successor_Ok.
  unfold seal_generation at 1, seal_partition, seal_replay, planned_tables, seal_directory, seal_ledger.
  by rewrite Hc.
Qed.

Lemma seal_owner_older (seal : Seal) owner :
  replay_owner (seal_replay seal) = Some owner →
  coord_get (generation owner) < coord_get (seal_generation seal).
Proof.
  destruct (seal_ok seal) as (_ & Hr & _). unfold seal_replay. intros Ho.
  destruct (fields_replay (content seal)) as [|b o] eqn:Hf; [done|]. injection Ho as <-. by eapply Hr.
Qed.

Lemma seal_cut_nonneg (seal : Seal) : 0 ≤ seal_cut seal.
Proof.
  unfold seal_cut. destruct (replay_batch _) as [b|]; simpl; [|done]. pose proof (coord_bounds b). lia.
Qed.

(** * The FENCE candidate *)

Lemma survives_spec (cut : option BatchId) (tail : BatchId) :
  (match cut with None => true | Some cut => coord_ltb cut tail end) = (cut_value cut <? coord_get tail).
Proof.
  destruct cut as [cut|]; simpl; [done|]. symmetry. apply Z.ltb_lt. pose proof (coord_bounds tail). lia.
Qed.

(** The candidate follows the listed tail when the tail survives the cut, and the cut
    otherwise. *)
Lemma plan_fence_Ok cut listed candidate :
  plan_fence_candidate cut listed = Ok candidate →
  coord_get candidate =
    match listed with
    | Some tail => if cut_value cut <? coord_get tail then coord_get tail else cut_value cut
    | None => cut_value cut
    end + 1.
Proof.
  unfold plan_fence_candidate.
  assert (∀ b, map_err (λ _ : CoordinateExhaustedError,
    ExitRetryable (lit "WAL coordinate space is exhausted before takeover")) (successor b) =
    Ok candidate → coord_get candidate = coord_get b + 1) as Hsucc.
  { intros b. destruct (successor b) as [n|] eqn:Hn; [|done]. intros [= <-]. by apply successor_Ok. }
  destruct cut as [cut|], listed as [tail|]; simpl.
  - intros ->%Hsucc. unfold coord_ltb.
    destruct (Z.ltb_spec (coord_get tail) (coord_get cut)), (Z.ltb_spec (coord_get cut) (coord_get tail)); lia.
  - apply Hsucc.
  - intros ->%Hsucc. pose proof (coord_bounds tail). by rewrite (proj2 (Z.ltb_lt _ _)) by lia.
  - destruct (coord_try_from 1 : Result _ BatchId) as [n|] eqn:Hn; [|done]. intros [= <-].
    by apply coord_try_from_Ok in Hn.
Qed.

Section boot.
  Context {J : Jiff} {HP : Heap} {HL : HeapLaws} {RL : RowLayout}.
  Context {RW : Rkyv ArchivedWalObject} {LW : RkyvLaws ArchivedWalObject}.
  Context {RS : Rkyv ArchivedSeal} {LS : RkyvLaws ArchivedSeal}.
  Context {RD : Rkyv (SstArchive ArchivedDirectoryRow)} {RG : Rkyv (SstArchive ArchivedLedgerRow)}.

Lemma encoded_fence object candidate :
  EncodedWal_new object = Ret (Ok candidate) →
  encoded_wal_batch candidate = wal_batch object ∧ encoded_wal_bytes candidate = wal_bytes object.
Proof.
  intros (_ & -> & He & _)%EncodedWal_new_Ok. split; [done|].
  apply encode_inv in He as [-> _]; [done|unfold_bounds; lia].
Qed.

Lemma encoded_authority seal candidate :
  EncodedAuthoritySeal_try_from seal = Ret (Ok candidate) →
  authority_seal candidate = seal ∧
  decode_seal (seal_generation seal) (authority_bytes candidate) = Ret (Ok seal).
Proof using HL LS.
  unfold EncodedAuthoritySeal_try_from. case_bool_decide; [done|].
  destruct (EncodedSeal_new seal) as [[[s b]|]|] eqn:Hs; [|done..].
  apply EncodedSeal_new_Ok in Hs as (-> & He & _). intros [= <-]. split; [done|].
  by apply decode_seal_encoded.
Qed.

(** * What a bootstrap knows *)

Definition tables_known (c : Cluster) (seal : Seal) (t : Trace) : Prop :=
  Forall (λ p, written c (seal_partition seal) p.1 p.2) (trace_tables t).

(** What a claimed state knows. *)
Definition claim_known (c : Cluster) (pid : nat) (seal : Seal) (t : Trace) : Prop :=
  holds_claim c pid seal ∧ tables_known c seal t.

Definition wal_known (c : Cluster) (h : list WalObject) (seal : Seal) (t : Trace) : Prop :=
  Forall (.∈ h) (trace_wal t) ∨ stale c (seal_generation seal).

Definition boot_known (c : Cluster) (h : list WalObject) (pid : nat) (t : Trace)
    (state : BootstrapState) : Prop :=
  match state with
  | ReadingTable load _ => claim_known c pid (claimed_seal (load_claimed load)) t
  | ObservingWalTail loaded _ | EstablishingFence loaded _ =>
      claim_known c pid (claimed_seal (loaded_claimed loaded)) t
  | ReadingWalTail loaded fence tail =>
      claim_known c pid (claimed_seal (loaded_claimed loaded)) t ∧
      coord_get (fence_batch fence) = coord_get tail + 1 ∧ coord_get tail ≤ zlen h
  | Replaying r =>
      let seal := claimed_seal (loaded_claimed (replay_loaded r)) in
      claim_known c pid seal t ∧ wal_known c h seal t
  | RefreshingFinal r => claim_known c pid (recovery_seal r) t ∧ wal_known c h (recovery_seal r) t
  | _ => True
  end.

(** The effect a state waits for, as it was built. *)
Definition poses (state : BootstrapState) (effect : BootstrapEffect) : Prop :=
  match state, effect with
  | PublishingClaim candidate _, PublishClaim e =>
      authority_seal e = candidate ∧
      decode_seal (seal_generation candidate) (authority_bytes e) = Ret (Ok candidate)
  | ReadingTable load _, ReadTable partition _ =>
      partition = seal_partition (claimed_seal (load_claimed load))
  | _, _ => True
  end.

(** What an answer of the store says of the cluster. *)
Definition boot_told (c : Cluster) (h : list WalObject) (pid : nat) (t : Trace)
    (state : BootstrapState) (event : BootstrapEvent) : Prop :=
  match state, event with
  | ReadingSeal _, SealRead (Some seal) => sealed c seal
  | PublishingClaim candidate _, ClaimPublished Authored => holds_claim c pid candidate
  | ReadingTable load _, TableRead table decoded =>
      written c (seal_partition (claimed_seal (load_claimed load))) table decoded
  | ObservingWalTail _ _, WalTailObserved (Some tail) => coord_get tail ≤ zlen h
  | ReadingWalTail _ _ tail, WalRead (Some w) =>
      ∃ w0, w0 ∈ h ∧ wal_batch w0 = tail ∧ owner_of w0 ≤ owner_of w
  | Replaying r, WalRead (Some w) =>
      w ∈ h ∨ stale c (seal_generation (claimed_seal (loaded_claimed (replay_loaded r))))
  | RefreshingFinal r, HeadObserved (Some g) =>
      g = seal_generation (recovery_seal r) → Forall (.∈ h) (trace_wal t)
  | _, _ => True
  end.

(** A request a bootstrap may make: of a Seal, or of a FENCE. *)
Definition quiet (key : str) (bytes : list Z) : Prop :=
  (∀ w, key = wal_key w → bytes = wal_bytes w → wal_body w = Fence) ∧
  (∀ k, key ≠ TableKey_display k).

Definition boot_asks (c : Cluster) (h : list WalObject) (pid : nat) (r : Request) : Prop :=
  ∃ key bytes, r = Put pid key bytes ∧ put_ok c h pid key bytes ∧ quiet key bytes.

(** What a completed bootstrap knows. *)
Record opens (c : Cluster) (h : list WalObject) (pid : nat) (t : Trace) (r : WriterRecovery) : Prop := {
  opens_recovered : recovered t r;
  opens_claim : claim_known c pid (recovery_seal r) t;
  opens_wal : Forall (.∈ h) (trace_wal t)
}.

Definition advances (c : Cluster) (h : list WalObject) (pid : nat) (t : Trace) (x : Transition) : Prop :=
  match x.2 with
  | StepEffect effect =>
      boot_known c h pid t x.1 ∧ poses x.1 effect ∧
      ∀ r, r ∈ boot_requests pid effect → boot_asks c h pid r
  | StepComplete r => claim_known c pid (recovery_seal r) t ∧ Forall (.∈ h) (trace_wal t)
  | StepExit _ => True
  end.

Lemma advances_anomaly c h pid t claim detail : advances c h pid t (refresh_anomaly claim detail).
Proof. split; [done|]. split; [done|]. by intros r ?%not_elem_of_nil. Qed.

(** * The FENCE *)

(** A FENCE just after a coordinate of an older owner may land at any time. *)
Lemma fence_request c h pid seal w :
  store_inv c h → sealed c seal → wal_partition w = seal_partition seal → wal_body w = Fence →
  coord_get (wal_batch w) - 1 ≤ zlen h →
  (∀ o f, folds (upto (coord_get (wal_batch w) - 1) h) (Some o) f →
     coord_get (generation o) < owner_of w) →
  put_ok c h pid (wal_key w) (wal_bytes w).
Proof.
  intros I Hs Hp Hw Hb Hold. constructor; [|done]. pose proof (si_placed _ _ I) as P.
  destruct (si_folds _ _ I) as (o & f & Hf). split.
  - lia.
  - intros He. exists o, f, (Some (wal_owner w)), f. split; [done|]. split; [done|]. rewrite Hw.
    split; [done|]. intros o1 ->. apply (Hold o1 f). replace (_ - 1) with (zlen h) by lia.
    by rewrite upto_full.
  - intros w0 Hw0 He. destruct (wal_body w0) as [facts|] eqn:Hb0; [|by right; left].
    right. right. split; [done|]. destruct (run_owner h w0 facts o f P Hf Hw0 Hb0) as (f1 & Hf1).
    rewrite He in Hf1. by eapply Hold.
  - exists seal. by split.
Qed.

Lemma quiet_fence w : wal_body w = Fence → quiet (wal_key w) (wal_bytes w).
Proof using LW.
  intros Hw. split.
  - intros w' _ He%wal_bytes_inj. by subst.
  - intros k. apply wal_table_keys.
Qed.

Lemma quiet_seal g bytes : quiet (seal_spelling g) bytes.
Proof.
  split; [|apply seal_table_keys]. intros w He. by apply seal_wal_keys in He.
Qed.

Lemma establish_fence_advances c h pid t loaded fence x :
  store_inv c h → claim_known c pid (claimed_seal (loaded_claimed loaded)) t →
  claimed_ok (loaded_claimed loaded) →
  coord_get (fence_batch fence) - 1 ≤ zlen h →
  (∀ o f, folds (upto (coord_get (fence_batch fence) - 1) h) (Some o) f →
     coord_get (generation o) < coord_get (seal_generation (claimed_seal (loaded_claimed loaded)))) →
  establish_fence loaded fence = Ret x → advances c h pid t x.
Proof using HL LW.
  intros I K Hcl Hb Hold. unfold establish_fence. fold (own_fence loaded fence).
  destruct (EncodedWal_new (own_fence loaded fence)) as [[e|]|] eqn:He; cbn [exec_bind];
    [|by intros [= <-]|done].
  intros [= <-]. apply encoded_fence in He as [Eb Ey]. split; [done|]. split; [done|].
  intros r Hr%list_elem_of_singleton. subst r. unfold put_wal. rewrite Eb, Ey.
  eexists _, _. split; [reflexivity|]. split; [|by apply quiet_fence].
  apply (fence_request c h pid (claimed_seal (loaded_claimed loaded))); try done; [apply K|].
  intros o f Hf. unfold owner_of, own_fence. cbn [wal_owner]. rewrite Hcl. by apply (Hold o f).
Qed.

(** * Each handler *)

Lemma handle_wal_tail_advances c h pid t loaded occupied listed x :
  store_inv c h → claim_known c pid (claimed_seal (loaded_claimed loaded)) t →
  claimed_ok (loaded_claimed loaded) → (∀ tail, listed = Some tail → coord_get tail ≤ zlen h) →
  handle_wal_tail (ObservingWalTail loaded occupied) listed = Ret x → advances c h pid t x.
Proof using HL LW.
  intros I K Hcl Hl. set (seal := claimed_seal (loaded_claimed loaded)) in *.
  destruct K as [[Hs Ha] Ht]. destruct (si_good _ _ I _ Hs) as [Hcut [(base & Hbase & _) _]].
  assert (∀ fence, coord_get (fence_batch fence) = seal_cut seal + 1 →
    establish_fence loaded fence = Ret x → advances c h pid t x) as Hfence.
  { intros fence Hb. apply establish_fence_advances; try done; rewrite Hb; [lia|].
    replace (seal_cut seal + 1 - 1) with (seal_cut seal) by lia. intros o f Hf.
    destruct (folds_det _ _ _ _ _ Hbase Hf) as [Ho _]. by apply seal_owner_older. }
  unfold handle_wal_tail. fold seal.
  destruct (plan_fence_candidate _ _) as [candidate|] eqn:Hplan; [|by intros [= <-]].
  intros Hx. assert (fence_after loaded (replay_batch (seal_replay seal)) listed candidate = Ret x ∨
    advances c h pid t x) as [Hy|?]; [|clear Hx|done].
  { destruct occupied as [occ|]; [|by left]. destruct (coord_leb _ _); [|by left].
    injection Hx as <-. by right. }
  apply plan_fence_Ok in Hplan. unfold fence_after in Hy.
  destruct (bound_takeover_fence _ _) as [fence|] eqn:Hb; [|by injection Hy as <-].
  apply bound_takeover_fence_Ok in Hb as (-> & _ & _ & _).
  destruct listed as [tail|]; [|by refine (Hfence _ _ Hy)]. rewrite survives_spec in Hy.
  destruct (_ <? _); [|by refine (Hfence _ _ Hy)]. injection Hy as <-.
  split; [|by split; [|intros r ?%not_elem_of_nil]].
  split; [done|]. split; [done|]. by apply Hl.
Qed.

Lemma handle_tail_read_advances c h pid t loaded fence tail observed x :
  store_inv c h → claim_known c pid (claimed_seal (loaded_claimed loaded)) t →
  claimed_ok (loaded_claimed loaded) →
  coord_get (fence_batch fence) = coord_get tail + 1 → coord_get tail ≤ zlen h →
  (∀ w, observed = Some w → ∃ w0, w0 ∈ h ∧ wal_batch w0 = tail ∧ owner_of w0 ≤ owner_of w) →
  handle_tail_read loaded fence tail observed = Ret x → advances c h pid t x.
Proof using HL LW.
  intros I K Hcl Hb Hle Ht. unfold handle_tail_read. destruct observed as [w|]; [|by intros [= <-]].
  destruct (Ht w eq_refl) as (w0 & Hw0 & Hbw & Ho). do 2 (case_bool_decide; [|done]).
  destruct (owner_leb _ _) eqn:Hown; [intros [= <-]; apply advances_anomaly|].
  apply establish_fence_advances; try done; rewrite Hb; [lia|].
  replace (coord_get tail + 1 - 1) with (coord_get tail) by lia. intros o f Hf.
  assert (Some o = Some (wal_owner w0)) as [= ->].
  { pose proof (si_placed _ _ I) as P. destruct (placed_at _ _ P Hw0) as [Hl _].
    eapply (last_owner (upto (coord_get tail) h)); [by apply placed_upto|done|..].
    - apply list_elem_of_lookup. exists (Z.to_nat (coord_get (wal_batch w0) - 1)).
      unfold upto. pose proof (coord_bounds tail). rewrite lookup_take_lt; [done|].
      rewrite Hbw. lia.
    - pose proof (coord_bounds tail). unfold upto, zlen in *. rewrite Hbw, length_take. lia. }
  unfold owner_leb, coord_leb in Hown. apply Z.leb_gt in Hown. rewrite Hcl in Hown.
  unfold owner_of in Ho. simpl in Hown. lia.
Qed.

Lemma handle_replay_advances c h pid t r observed x :
  let seal := claimed_seal (loaded_claimed (replay_loaded r)) in
  claim_known c pid seal t → wal_known c h seal t →
  (∀ w, observed = Some w → w ∈ h ∨ stale c (seal_generation seal)) →
  handle_replay_read r observed = Ret x →
  advances c h pid (extend_trace (Replaying r) (WalRead observed) t) x.
Proof.
  intros seal K W Ht. unfold handle_replay_read. destruct observed as [w|];
    [|intros [= <-]; apply advances_anomaly].
  assert (claim_known c pid seal (extend_trace (Replaying r) (WalRead (Some w)) t)) as K' by done.
  assert (wal_known c h seal (extend_trace (Replaying r) (WalRead (Some w)) t)) as W'.
  { destruct W as [W|?]; [|by right]. destruct (Ht w eq_refl); [left|by right].
    by apply Forall_app; repeat constructor. }
  do 2 (case_bool_decide; [|done]).
  match goal with |- context [if ?b then _ else Panic] => destruct b; [|done] end.
  destruct (replay_body r w) as [[[owner durable] [detail|]]|]; cbn [exec_bind];
    [intros [= <-]; apply advances_anomaly| |done].
  case_bool_decide.
  - case_bool_decide; [|done]. intros [= <-]. split; [done|]. split; [done|].
    by intros ? ?%not_elem_of_nil.
  - destruct (successor _); [|by intros [= <-]]. intros [= <-]. split; [done|]. split; [done|].
    by intros ? ?%not_elem_of_nil.
Qed.

Lemma no_requests c h pid (r : Request) : r ∈ @nil Request → boot_asks c h pid r.
Proof. by intros ?%not_elem_of_nil. Qed.

Lemma establish_genesis_advances c h pid t partition x :
  establish_genesis partition = Ret x → advances c h pid t x.
Proof using HL LS.
  unfold establish_genesis.
  destruct (Seal_new partition genesis_generation Genesis tree_empty tree_empty) as [seal|] eqn:Hn;
    cbn [expect_ok exec_bind]; [|done].
  pose proof (proj1 (checked_Ok _ _ _) Hn) as Hc.
  unfold EncodedGenesisSeal_try_from. case_bool_decide as Hg; cbn [negb exec_bind]; [|by intros [= <-]].
  destruct (EncodedSeal_new seal) as [[[s b]|]|] eqn:Hs;
    cbn [try_map_err map_err try_bind exec_bind fst snd]; [|by intros [= <-]|done].
  apply EncodedSeal_new_Ok in Hs as (-> & He & _). intros [= <-]. split; [done|]. split; [done|].
  intros r Hr%list_elem_of_singleton. subst r. unfold put_seal. cbn [genesis_seal genesis_bytes].
  eexists _, _. split; [reflexivity|]. split; [|apply quiet_seal].
  constructor; [by apply decode_seal_encoded|]. left. split; [done|].
  unfold seal_replay, planned_tables, seal_directory, seal_ledger. by rewrite Hc.
Qed.

(** A claim keeps its head's replay point and tables. *)
Lemma claim_request c h head candidate :
  store_inv c h → sealed c head → claim_successor head = Ok candidate → seal_request c h candidate.
Proof.
  intros I Hs (Hg & Hp & Hr & Ht)%claim_successor_fields.
  destruct (si_good _ _ I _ Hs) as [Hc [Hb Htab]].
  assert (seal_cut candidate = seal_cut head) as Ec by (unfold seal_cut; by rewrite Hr).
  right. exists head. rewrite Ec. split_and!; try done.
  split; rewrite ?Ec, ?Hr, ?Ht, ?Hp; done.
Qed.

Lemma handle_seal_advances c h pid t g observed x :
  store_inv c h → (∀ head, observed = Some head → sealed c head) →
  handle_seal (ReadingSeal g) observed = Ret x → advances c h pid t x.
Proof using HL LS.
  intros I Hs. unfold handle_seal. destruct observed as [head|]; [|by intros [= <-]].
  specialize (Hs head eq_refl). case_bool_decide; [|done].
  destruct (plan_bootstrap_sources head); [|by intros [= <-]].
  destruct (claim_successor head) as [candidate|] eqn:Hcl; [|by intros [= <-]].
  destruct (EncodedAuthoritySeal_try_from candidate) as [[e|]|] eqn:He; cbn [exec_bind];
    [|by intros [= <-]|done].
  apply encoded_authority in He as [Ea Ed]. intros [= <-]. split; [done|]. split; [done|].
  intros r Hr%list_elem_of_singleton. subst r. unfold put_seal. rewrite Ea.
  eexists _, _. split; [reflexivity|]. split; [|apply quiet_seal]. constructor; [done|].
  by eapply claim_request.
Qed.

Lemma read_next_table_advances c h pid t load :
  claim_known c pid (claimed_seal (load_claimed load)) t → advances c h pid t (read_next_table load).
Proof.
  intros K. unfold read_next_table. destruct (load_remaining load) as [|source rest].
  - destruct (forest_try_from _ _); [|done]. split; [done|]. split; [done|]. apply no_requests.
  - split; [done|]. split; [done|]. apply no_requests.
Qed.

Lemma handle_table_advances c h pid t load source table decoded x :
  claim_known c pid (claimed_seal (load_claimed load)) t →
  written c (seal_partition (claimed_seal (load_claimed load))) table decoded →
  handle_table (ReadingTable load source) table decoded = Ret x →
  advances c h pid (extend_trace (ReadingTable load source) (TableRead table decoded) t) x.
Proof.
  intros [K Ht] Hw. unfold handle_table. case_bool_decide; [|done].
  assert (∀ load', load_claimed load' = load_claimed load →
    advances c h pid (extend_trace (ReadingTable load source) (TableRead table decoded) t)
      (read_next_table load')) as Hnext.
  { intros load' El. apply read_next_table_advances. rewrite El. split; [done|].
    apply Forall_app. by repeat constructor. }
  destruct decoded as [rows|rows]; (case_bool_decide; [|done]).
  - destruct (merge_directory_table _ _ _) as [[[m l]|]|]; cbn [try_bind exec_bind]; [| |done];
      intros [= <-]; [by apply Hnext|done].
  - destruct (merge_ledger_table _ _ _) as [[[m l]|]|]; cbn [try_bind exec_bind]; [| |done];
      intros [= <-]; [by apply Hnext|done].
Qed.

Lemma handle_head_advances c h pid t state observed x :
  boot_known c h pid t state → boot_told c h pid t state (HeadObserved observed) →
  (∀ r, state = RefreshingFinal r → claim_generation (recovery_claim r) = seal_generation (recovery_seal r)) →
  handle_head state observed = Ret x → advances c h pid t x.
Proof using HL LS.
  intros K T Hg. unfold handle_head. destruct state as [|p| | | | | | | | |claim detail|r|]; try done.
  - destruct observed as [g|]; [|apply establish_genesis_advances].
    intros [= <-]. split; [done|]. split; [done|]. apply no_requests.
  - intros [= <-]. destruct observed as [g|]; [|done]. destruct (coord_ltb _ _); [done|].
    by case_bool_decide.
  - intros [= <-]. specialize (Hg _ eq_refl). destruct observed as [g|]; [|done].
    case_bool_decide as Hgen; [|by destruct (coord_ltb _ _)]. rewrite Hg in Hgen. destruct K as [K _].
    split; [done|by apply T].
Qed.

Lemma handle_claim_advances c h pid t candidate sources publication x :
  t = trace_empty → boot_told c h pid t (PublishingClaim candidate sources) (ClaimPublished publication) →
  handle_claim (PublishingClaim candidate sources) publication = Ret x → advances c h pid t x.
Proof.
  intros -> T. unfold handle_claim. intros [= <-]. destruct publication; [|done..].
  apply read_next_table_advances. split; [done|constructor].
Qed.

Lemma handle_fence_advances c h pid t loaded fence establishment x :
  claim_known c pid (claimed_seal (loaded_claimed loaded)) t → trace_wal t = [] →
  handle_fence (EstablishingFence loaded fence) establishment = Ret x → advances c h pid t x.
Proof.
  intros K Hw. unfold handle_fence. intros [= <-]. destruct establishment;
    [|split; [done|split; [done|apply no_requests]]|done].
  destruct (replay_start _); [|done]. split; [|by split; [|apply no_requests]].
  split; [done|]. left. by rewrite Hw.
Qed.

Lemma handle_failure_advances c h pid t state error x :
  handle_store_failure state error = Ret x → advances c h pid t x.
Proof.
  unfold handle_store_failure.
  destruct state, error; try done; intros [= <-]; first [done|apply advances_anomaly].
Qed.

(** A step of the bootstrap, on an answer of the store. *)
Lemma boot_advances c h pid t state event m step :
  store_inv c h → state_ok t state → boot_known c h pid t state → boot_told c h pid t state event →
  bootstrap_handle (mk_bootstrap (Some state)) event = Ret (m, step) →
  ∃ state', m = mk_bootstrap (Some state') ∧
    advances c h pid (extend_trace state event t) (state', step).
Proof using HL LW LS.
  intros I S K T. unfold bootstrap_handle. cbn [bootstrap_state expect exec_bind].
  match goal with |- context [exec_bind ?e] => destruct e as [[state' step']|] eqn:Hx end;
    cbn [exec_bind]; [|done].
  intros [= <- <-]. exists state'. split; [done|].
  destruct event as [p|observed|e|observed|publication|table decoded|listed|observed|e|error].
  - destruct state; try done. injection Hx as <- <-. split; [done|]. split; [done|]. apply no_requests.
  - assert (extend_trace state (HeadObserved observed) t = t) as -> by (by destruct state).
    eapply handle_head_advances; try done. intros r ->. simpl in S.
    by rewrite (recovered_claim _ _ S).
  - unfold handle_genesis in Hx. destruct state; try done. injection Hx as <-. subst.
    destruct e; [..|done]; (split; [done|]; split; [done|]; apply no_requests).
  - assert (extend_trace state (SealRead observed) t = t) as -> by (by destruct state).
    unfold handle_seal in Hx. destruct state; try done.
    eapply handle_seal_advances; [done| |done]. intros head ->. done.
  - assert (extend_trace state (ClaimPublished publication) t = t) as -> by (by destruct state).
    destruct state; try done. destruct S as [S _]. by eapply handle_claim_advances.
  - destruct state; try done. by eapply handle_table_advances.
  - assert (extend_trace state (WalTailObserved listed) t = t) as -> by (by destruct state).
    destruct state; try done. destruct S as [L _]. eapply handle_wal_tail_advances; try done.
    + apply L.
    + intros tail ->. done.
  - destruct state; try done.
    + destruct S as [[L _] _], K as (K & Hb & Hle).
      assert (extend_trace (ReadingWalTail loaded fence listed_tail) (WalRead observed) t = t) as -> by done.
      eapply handle_tail_read_advances; try done; [apply L|]. intros w ->. done.
    + destruct K as [K W]. eapply handle_replay_advances; try done. intros w ->. done.
  - assert (extend_trace state (FenceEstablished e) t = t) as -> by (by destruct state).
    destruct state; try done. destruct S as [(_ & _ & S) _]. by eapply handle_fence_advances.
  - assert (extend_trace state (StoreFailed error) t = t) as -> by (by destruct state).
    by eapply handle_failure_advances.
Qed.

(** * The process *)

Record boot_ok (c : Cluster) (h : list WalObject) (pid : nat) (b : Boot) : Prop := {
  bo_reach : boot_reach (bt_trace b) (bt_state b) (StepEffect (bt_effect b));
  bo_known : boot_known c h pid (bt_trace b) (bt_state b);
  bo_poses : poses (bt_state b) (bt_effect b);
  bo_asked : ∀ r, r ∈ boot_requests pid (bt_effect b) → r ∈ cl_requests c;
  bo_quiet : ∀ key bytes, Put pid key bytes ∈ cl_requests c → quiet key bytes;
  bo_answer : ∀ event, bt_answer b = Some event →
    completes Initial (bt_effect b) event ∧ boot_told c h pid (bt_trace b) (bt_state b) event
}.

Lemma claim_known_grows c h c' h' pid seal t :
  grows c h c' h' → claim_known c pid seal t → claim_known c' pid seal t.
Proof.
  intros G [Hc Ht]. split; [by eapply holds_grows|]. eapply Forall_impl; [done|].
  intros p Hp. by eapply written_grows.
Qed.

Lemma in_history_grows c h c' h' ws : grows c h c' h' → Forall (.∈ h) ws → Forall (.∈ h') ws.
Proof. intros G Hw. eapply Forall_impl; [done|]. intros w. by eapply history_grows. Qed.

Lemma wal_known_grows c h c' h' seal t :
  grows c h c' h' → wal_known c h seal t → wal_known c' h' seal t.
Proof.
  intros G [?|?]; [left; by eapply in_history_grows|right; by eapply stale_grows].
Qed.

Lemma boot_known_grows c h c' h' pid t state :
  grows c h c' h' → boot_known c h pid t state → boot_known c' h' pid t state.
Proof.
  intros G. pose proof (length_grows _ _ _ _ G).
  destruct state; simpl; try done; try (by eapply claim_known_grows).
  - intros (K & ? & ?). split; [by eapply claim_known_grows|lia].
  - intros [K W]. split; [by eapply claim_known_grows|by eapply wal_known_grows].
  - intros [K W]. split; [by eapply claim_known_grows|by eapply wal_known_grows].
Qed.

Lemma boot_told_grows c h c' h' pid t state event :
  grows c h c' h' → boot_told c h pid t state event → boot_told c' h' pid t state event.
Proof.
  intros G. pose proof (length_grows _ _ _ _ G).
  destruct state, event as [|[]| |[]|[]| |[]|[]| |]; simpl; try done.
  - apply G.
  - by eapply holds_grows.
  - by eapply written_grows.
  - lia.
  - intros (w0 & Hw & ?). exists w0. split; [by eapply history_grows|done].
  - intros [?|?]; [left; by eapply history_grows|right; by eapply stale_grows].
  - intros Hf Hg. eapply in_history_grows; [done|by apply Hf].
Qed.

(** What other processes do leaves a bootstrap what it knows. *)
Lemma boot_ok_grows c h c' h' pid b :
  grows c h c' h' →
  (∀ key bytes, Put pid key bytes ∈ cl_requests c' → Put pid key bytes ∈ cl_requests c) →
  boot_ok c h pid b → boot_ok c' h' pid b.
Proof.
  intros G Hown [H1 H2 H3 H4 H5 H6]. split; try done.
  - by eapply boot_known_grows.
  - intros r ?%H4. by apply G.
  - intros key bytes ?%Hown. by apply H5.
  - intros event [? ?]%H6. split; [done|]. by eapply boot_told_grows.
Qed.

(** ** Answers *)

Lemma boot_waits t state effect :
  boot_reach t state (StepEffect effect) → state_ok t state ∧ waits_for state effect.
Proof using HL LW LS. apply boot_reach_ok. Qed.

(** The object a coordinate holds is of the history, or the coordinate is covered. *)
Lemma read_content c h partition b bytes w :
  store_inv c h → cl_store c !! wal_spelling b = Some bytes →
  decode_wal partition b bytes = Ret (Ok w) →
  w ∈ h ∨ covered c b ∧ ∃ w0, w0 ∈ h ∧ wal_batch w0 = b ∧ owner_of w0 < owner_of w.
Proof using LW.
  intros I Hb Hd. destruct (si_wal _ _ I _ _ Hb) as (w' & Hw & -> & Hc).
  apply decode_wal_own in Hd as ->. naive_solver.
Qed.

Lemma wal_read_told c h pid t state b partition observed :
  store_inv c h → state_ok t state → boot_known c h pid t state →
  waits_for state (ReadWal partition b) → learns (cl_store c) (ReadWal partition b) (WalRead observed) →
  boot_told c h pid t state (WalRead observed).
Proof using LW.
  intros I S K W L. destruct observed as [w|]; [|by destruct state].
  destruct L as (bytes & Hb & Hd). pose proof (decode_wal_checked partition b bytes) as Hi.
  rewrite Hd in Hi. destruct Hi as (_ & Hbw & _).
  pose proof (read_content c h partition b bytes w I Hb Hd) as Hc.
  destruct state as [| | | | | | |loaded fence tail| |r| | |]; try done; destruct W as [_ ->]; simpl.
  - destruct Hc as [Hw|[_ (w0 & ? & ? & ?)]]; [by exists w|]. exists w0. split_and!; try done. lia.
  - destruct Hc as [Hw|[Hc _]]; [by left|right]. destruct K as [[[Hs _] _] _].
    eapply covered_stale; [apply I|done| |done]. pose proof (replay_ok_next _ _ S).
    unfold zlen in *. lia.
Qed.

(** An answer of the store tells what [boot_told] says. *)
Lemma learns_told c h pid b event :
  store_inv c h → boot_ok c h pid b → learns (cl_store c) (bt_effect b) event →
  completes Initial (bt_effect b) event ∧ boot_told c h pid (bt_trace b) (bt_state b) event.
Proof using HL LW LS.
  intros I O L. destruct (boot_waits _ _ _ (bo_reach _ _ _ _ O)) as [S W].
  pose proof (bo_known _ _ _ _ O) as K. pose proof (bo_poses _ _ _ _ O) as Po.
  destruct b as [t state effect answer]. cbn [bt_trace bt_state bt_effect] in *.
  destruct event as [p|observed|e|observed|publication|table decoded|listed|observed|e|error].
  10: { split; [by destruct effect|by destruct state]. }
  all: destruct effect; try done.
  - split; [done|]. destruct state; try done. destruct observed as [g|]; [|done]. simpl. intros ->.
    destruct K as [[[Hs _] _] [Hw|(s & (bytes & Hb & _) & Hlt)]]; [done|].
    destruct L as [_ Hmax]. specialize (Hmax (seal_generation s) (mk_is_Some _ _ Hb)). lia.
  - destruct observed as [seal|]; [|split; [done|by destruct state]]. destruct L as (bytes & Hb & Hd).
    destruct (sealed_lookup _ _ _ _ _ (inv_seals _ _ I) Hb Hd) as [Hg Hs].
    split; [by intros s [= <-]|by destruct state].
  - split; [done|]. destruct publication; [done|by destruct state..].
  - destruct L as (-> & Hm & bytes & Hb & Hd). split; [done|].
    destruct state as [| | | | |load source| | | | | | |]; try done. simpl in Po, W. subst.
    destruct (si_store _ _ I _ _ Hb) as [pid' Hp]. by exists pid', bytes.
  - split; [done|]. destruct state; try done. destruct listed as [tail|]; [|done].
    destruct L as [[bytes Hb] _]. destruct (si_wal _ _ I _ _ Hb) as (w & Hbw & _ & Hw).
    assert (∃ w0, w0 ∈ h ∧ wal_batch w0 = tail) as (w0 & Hw0 & <-) by naive_solver.
    apply (placed_at _ _ (si_placed _ _ I) Hw0).
  - split; [|by eapply wal_read_told]. split; [|done]. intros w ->. destruct L as (bytes & Hb & Hd).
    pose proof (decode_wal_checked partition batch bytes) as Hi. rewrite Hd in Hi. naive_solver.
Qed.

(** An answer the machine accepts is one bootstrap's own theory admits: at its FENCE it
    read its own FENCE. *)
Lemma accepted_completes state effect event x :
  waits_for state effect → completes Initial effect event →
  bootstrap_handle (mk_bootstrap (Some state)) event = Ret x → completes state effect event.
Proof.
  intros W Hc Hh. destruct effect; try done. destruct event; try done. destruct Hc as [Hc _]. split; [done|].
  intros r w -> Hn ->. destruct W as [-> ->]. destruct (Hc w eq_refl) as [Hp Hb].
  unfold bootstrap_handle, handle_wal_read, handle_replay_read in Hh. cbn in Hh.
  do 2 (case_bool_decide; [|done]). rewrite (bool_decide_eq_true_2 _ Hn) in Hh.
  destruct (wal_body w) as [facts|] eqn:Hbody; [done|]. cbn [andb] in Hh.
  case_bool_decide as Ho; [|done]. unfold own_fence. rewrite <- Hn, <- Hb, <- Hp, Ho, <- Hbody.
  by destruct w.
Qed.

(** ** Steps *)

(** Seals and FENCEs clash with no RUN and no table. *)
Lemma quiet_asks_keep c h pid p more :
  store_inv c h → (∀ key bytes, Put pid key bytes ∈ cl_requests c → quiet key bytes) →
  (∀ r, r ∈ more → boot_asks c h pid r) → store_inv (with_proc c pid p more) h.
Proof using LW.
  intros I Hq Hmore.
  assert (∀ pid1 key bytes, Put pid1 key bytes ∈ cl_requests c ++ more →
    Put pid1 key bytes ∈ cl_requests c ∨ quiet key bytes) as Hold.
  { intros pid1 key bytes [?|Hr]%elem_of_app; [by left|right].
    destruct (Hmore _ Hr) as (k & b & [= _ -> ->] & _ & ?). done. }
  apply ask_keeps; [done|..].
  - intros r Hr. destruct (Hmore _ Hr) as (k & b & -> & ? & _). done.
  - intros pid1 w w' Hw Hw' Hb Hb'.
    assert (∀ w1, Put pid1 (wal_key w1) (wal_bytes w1) ∈ cl_requests c ++ more → wal_body w1 ≠ Fence →
      Put pid1 (wal_key w1) (wal_bytes w1) ∈ cl_requests c) as Hr.
    { intros w1 [?|[Hf _]]%Hold Hb1; [done|]. by destruct (Hb1 (Hf w1 eq_refl eq_refl)). }
    apply (si_runs _ _ I pid1); auto.
  - intros p1 p2 o b b' Hw Hw'.
    assert (∀ p o b, Put p (table_spelling o) b ∈ cl_requests c ++ more →
      Put p (table_spelling o) b ∈ cl_requests c) as Hr.
    { intros p3 o3 b3 [?|[_ Hf]]%Hold; [done|]. by destruct (Hf _ eq_refl). }
    eapply (si_tables _ _ I p1 p2); eauto.
Qed.

Lemma quiet_more c h pid p more :
  (∀ key bytes, Put pid key bytes ∈ cl_requests c → quiet key bytes) →
  (∀ r, r ∈ more → boot_asks c h pid r) →
  ∀ key bytes, Put pid key bytes ∈ cl_requests (with_proc c pid p more) → quiet key bytes.
Proof.
  intros Hq Hmore key bytes [?|Hr]%elem_of_app; [by apply Hq|].
  destruct (Hmore _ Hr) as (k & b & [= -> ->] & _ & ?). done.
Qed.

(** The process starts knowing nothing. *)
Lemma start_ok c h pid partition state effect p :
  (∀ key bytes, Put pid key bytes ∉ cl_requests c) →
  bootstrap_handle BootstrapMachine_new (BootstrapStarted partition) =
    Ret (mk_bootstrap (Some state), StepEffect effect) →
  boot_ok (with_proc c pid p []) h pid (mk_boot trace_empty state effect None).
Proof.
  intros Hnone Hh. pose proof Hh as Hh'. cbn in Hh'. injection Hh' as <- <-.
  split; simpl; try done; rewrite ?(right_id_L [] (++)).
  - by eapply boot_start.
  - by intros r ?%not_elem_of_nil.
  - by intros key bytes ?%Hnone.
Qed.

Lemma answered_ok c h c' pid b event :
  boot_ok c h pid b → grows c h c' h → cl_requests c' = cl_requests c →
  completes Initial (bt_effect b) event → boot_told c' h pid (bt_trace b) (bt_state b) event →
  boot_ok c' h pid (answered_with b event).
Proof.
  intros O G Hr Hc Ht. destruct (boot_ok_grows c h c' h pid b G) as [H1 H2 H3 H4 H5 H6]; [by rewrite Hr|done|].
  split; simpl; try done. by intros e [= <-].
Qed.

Lemma boot_next_advances c h pid b event m step :
  store_inv c h → boot_ok c h pid b → bt_answer b = Some event →
  bootstrap_handle (mk_bootstrap (Some (bt_state b))) event = Ret (m, step) →
  ∃ state', m = mk_bootstrap (Some state') ∧
    boot_reach (extend_trace (bt_state b) event (bt_trace b)) state' step ∧
    advances c h pid (extend_trace (bt_state b) event (bt_trace b)) (state', step).
Proof using HL LW LS.
  intros I O Ha Hh. destruct (bo_answer _ _ _ _ O _ Ha) as [Hc Ht].
  destruct (boot_waits _ _ _ (bo_reach _ _ _ _ O)) as [S W].
  destruct (boot_advances c h pid _ _ _ _ _ I S (bo_known _ _ _ _ O) Ht Hh) as (state' & -> & A).
  exists state'. split; [done|]. split; [|done].
  eapply boot_next; [apply (bo_reach _ _ _ _ O)|by eapply accepted_completes|done..].
Qed.

Lemma boot_step_keeps c h pid b event state effect :
  store_inv c h → boot_ok c h pid b → bt_answer b = Some event →
  bootstrap_handle (mk_bootstrap (Some (bt_state b))) event =
    Ret (mk_bootstrap (Some state), StepEffect effect) →
  let b' := mk_boot (extend_trace (bt_state b) event (bt_trace b)) state effect None in
  let c' := with_proc c pid (Booting b') (boot_requests pid effect) in
  store_inv c' h ∧ grows c h c' h ∧ boot_ok c' h pid b'.
Proof using HL LW LS.
  intros I O Ha Hh b' c'. pose proof (with_proc_grows c h pid (Booting b') (boot_requests pid effect)) as G.
  destruct (boot_next_advances c h pid b event _ _ I O Ha Hh) as (state' & [= <-] & Hr & K & P & Q).
  split; [apply quiet_asks_keep; [done|apply O|done]|]. split; [done|]. split; simpl; try done.
  - by eapply boot_known_grows.
  - intros r Hin. apply elem_of_app. by right.
  - eapply (quiet_more c h pid (Booting b')); [apply O|done].
Qed.

(** A completed bootstrap opens its Writer on the history. *)
Lemma boot_opens c h pid b event m r :
  store_inv c h → boot_ok c h pid b → bt_answer b = Some event →
  bootstrap_handle (mk_bootstrap (Some (bt_state b))) event = Ret (m, StepComplete r) →
  ∃ t, opens c h pid t r.
Proof using HL LW LS.
  intros I O Ha Hh. destruct (boot_next_advances c h pid b event _ _ I O Ha Hh) as (s' & _ & Hr & K & W).
  apply boot_reach_ok in Hr as [_ R]. eexists. split; [exact R|exact K|exact W].
Qed.

(** The claim's create lands. *)
Lemma claimed_keeps c h pid b e :
  store_inv c h → boot_ok c h pid b → bt_effect b = PublishClaim e →
  cl_store c !! seal_spelling (seal_generation (authority_seal e)) = None →
  let b' := answered_with b (ClaimPublished Authored) in
  let c' := with_authored c pid (Booting b') (authority_seal e) (authority_bytes e) in
  store_inv c' h ∧ grows c h c' h ∧ boot_ok c' h pid b'.
Proof using HL LW LS.
  intros I O He Hk b' c'. destruct (boot_waits _ _ _ (bo_reach _ _ _ _ O)) as [S W].
  pose proof (bo_poses _ _ _ _ O) as P. pose proof (bo_asked _ _ _ _ O) as Q. rewrite He in W, P, Q.
  destruct (bt_state b) as [| | | |candidate sources| | | | | | | |] eqn:Hst; try done.
  destruct P as [Ea Ed].
  assert (Put pid (seal_spelling (seal_generation (authority_seal e))) (authority_bytes e) ∈ cl_requests c)
    as Hp by (apply Q; by apply list_elem_of_singleton).
  destruct (author_keeps c h pid (Booting b') (authority_seal e) (authority_bytes e) I Hp)
    as (I' & G & Hh); [by rewrite Ea|done|].
  split; [done|]. split; [done|]. eapply answered_ok; [done..|by rewrite He|]. rewrite Hst.
  rewrite <- Ea. done.
Qed.

End boot.
