(* ===== verification/ClusterWriter.v ===== *)
(** What a step of the Writer asks of the store.

    The effects a step leaves outstanding: those it found, and at most a new RUN, a new
    preparation under a fresh attempt, the publication of what was just prepared, and the
    collection behind what was just published. *)

From S2P Require Import Prelude OrdMap Text Domain Coordinates Partition Seal Wal Forest.
From S2P Require Import ForestTheory Archive Spelling Sst Writer WriterSafety WriterSystem.
From S2P Require Import Bootstrap BootstrapSafety Recovery ObjectStore Stores StoreTheory.
From S2P Require Import Checkpoint CheckpointTheory CheckpointSafety CheckpointLink.

Section step.
  Context {HP : Heap} {HL : HeapLaws} {RW : Rkyv ArchivedWalObject} {LW : RkyvLaws ArchivedWalObject}.
  Context {SL : WalSizeLaw} (recovery : WriterRecovery).

(** ** Outstanding effects stay outstanding *)

Lemma execute_outputs_keeps i outs i' :
  execute_outputs i outs = Ret i' → ∀ e, e ∈ i_effects i → e ∈ i_effects i'.
Proof.
  revert i. induction outs as [|out outs IH]; intros i; cbn [execute_outputs]; [by intros [= <-]|].
  intros Hx e He. destruct out as [e'|a].
  - unfold spawn_effect in Hx. destruct (negb _) in Hx; [|done]. cbn [exec_bind] in Hx.
    apply (IH _ Hx). apply elem_of_app. by left.
  - destruct (execute_action i a) as [i1|] eqn:Ha; cbn [exec_bind] in Hx; [|done].
    apply (IH _ Hx). destruct a; simpl in Ha; repeat case_match; simplify_eq; done.
Qed.

Lemma actions_no_effect outs e : forallb is_action outs = true → Effect e ∉ outs.
Proof. intros Ha Hin. apply forallb_true in Ha. by apply (proj1 (Forall_forall _ _) Ha) in Hin. Qed.

(** ** Checkpoint attempts *)

Lemma take_checkpoint_attempt m m' input :
  take_checkpoint m = Ret (m', Some input) →
  ticket_attempt (input_ticket input) =
    mk_attempt (claim_generation (w_claim m)) (w_checkpoint_attempt m) ∧
  w_checkpoint_attempt m' = w_checkpoint_attempt m + 1 ∧
  w_seal m' = w_seal m ∧ w_durable_batch m' = w_durable_batch m.
Proof.
  unfold take_checkpoint. destruct (negb _); [done|].
  destruct (span_through _ _) as [span|]; cbn [expect exec_bind]; [|done].
  destruct (_ <? _); [done|].
  match goal with |- context [exec_bind ?e] => destruct e as [head|] end; cbn [exec_bind]; [|done].
  destruct (_ && _); [done|].
  match goal with |- context [if ?b then _ else Panic] => destruct b end; [|done].
  destruct (u64_checked_add _ _) as [n|] eqn:Hn; cbn [expect exec_bind]; [|done].
  unfold CheckpointInput_new. case_bool_decide; cbn [exec_bind]; [|done]. intros [= <- <-].
  split; [done|]. simpl. unfold u64_checked_add in Hn. by case_decide; simplify_eq.
Qed.

(** ** New effects *)

Inductive new_effect (m : WriterMachine) (event : WriterEvent) : WriterEffect → Prop :=
| new_run e : new_effect m event (EstablishWal e)
| new_preparation input :
    ticket_attempt (input_ticket input) =
      mk_attempt (claim_generation (w_claim m)) (w_checkpoint_attempt m) →
    new_effect m event (PrepareCheckpoint input)
| new_publication t p :
    event = CheckpointPrepared t (Prepared p) → w_checkpoint m = Some (Preparing t) →
    new_effect m event (PublishAuthority t (prepared_candidate p))
| new_collection t p :
    event = SealPublished t (Ok Authored) → w_checkpoint m = Some (Publishing t p) →
    new_effect m event (Collect (mk_collection (ticket_cut t) (w_seal m) (prepared_successor p))).

Lemma new_effect_started m event e : new_effect (set_started true m) event e → new_effect m event e.
Proof.
  intros [c|input Hat|t p He Hck|t p He Hck]; [apply new_run|by apply new_preparation| |].
  - by apply new_publication.
  - by apply (new_collection m event t p).
Qed.

Lemma applied_new m event m' outs e :
  applied m event m' outs → Effect e ∈ outs → new_effect m event e.
Proof.
  intros Ha Hin. destruct Ha as [|env m' [c|] _| |t _|_|f _|t p Hck _|t o _|t p _|t p Hck _ _|cut|t _];
    simpl in Hin; rewrite ?elem_of_cons, ?elem_of_nil in Hin; destruct_or?; simplify_eq; by econstructor.
Qed.

(** What a step that goes on does to the machine. *)
Record goes_on (m : WriterMachine) (event : WriterEvent) (m' : WriterMachine) : Prop := {
  on_durable : coord_get (w_durable_batch m) ≤ coord_get (w_durable_batch m');
  on_established : ∀ b result, event = WalEstablished b result → coord_get b ≤ coord_get (w_durable_batch m');
  on_seal : w_seal m' = w_seal m ∨
    ∃ t p, event = SealPublished t (Ok Authored) ∧ w_checkpoint m = Some (Publishing t p) ∧
      w_seal m' = prepared_successor p;
  on_attempt : w_checkpoint_attempt m ≤ w_checkpoint_attempt m'
}.

Lemma applied_goes_on m event m' outs :
  writer_core m → applied m event m' outs → goes_on m event m'.
Proof.
  intros C Ha. pose proof (core_flight m C) as Hfl. unfold flight_ok in Hfl.
  destruct Ha as [|env m' o Hadm| |t Hck|_|f Hf|t p Hck Hp|t o Hck|t p Hck|t p Hck Hop Hcol|cut|t Hck];
    try (split; simpl; [lia|done|by left|lia]).
  - pose proof (admit_attempt _ _ _ _ Hadm) as [Ea _].
    assert (admit_frame m m') as (_ & _ & Eb & _ & _ & Es & _)
      by (by destruct (admit_admitted _ _ _ _ C Hadm)).
    split; rewrite ?Ea, ?Eb; [lia|done|by left|lia].
  - rewrite Hf in Hfl. split; simpl; [lia| |by left|lia]. by intros b result [= <- _].
  - split; simpl; [lia|done| |lia]. right. by exists t, p.
  - split; simpl; [lia|done| |lia]. right. by exists t, p.
Qed.

(** What scheduling adds. *)
Lemma scheduled_adds m now outs m' outs' exit :
  scheduled m now outs m' outs' exit →
  (w_seal m' = w_seal m ∧ w_durable_batch m' = w_durable_batch m) ∧
  (w_checkpoint_attempt m ≤ w_checkpoint_attempt m') ∧
  ∀ e, Effect e ∈ outs' → Effect e ∈ outs ∨ (∃ c, e = EstablishWal c) ∨
    ∃ input, e = PrepareCheckpoint input ∧
      ticket_attempt (input_ticket input) =
        mk_attempt (claim_generation (w_claim m)) (w_checkpoint_attempt m) ∧
      w_checkpoint_attempt m' = w_checkpoint_attempt m + 1.
Proof.
  intros Hs.
  assert (∀ m1 fl, flushed m now m1 fl →
    w_seal m1 = w_seal m ∧ w_durable_batch m1 = w_durable_batch m ∧
    w_checkpoint_attempt m1 = w_checkpoint_attempt m ∧ w_claim m1 = w_claim m ∧
    ∀ e, Effect e ∈ outs ++ fl → Effect e ∈ outs ∨ ∃ c, e = EstablishWal c) as Hfl.
  { intros m1 fl Hf. destruct (flushed_frame _ _ _ _ Hf) as (_ & _ & Ea & _ & Es & _ & Ec & _ & Eb & _).
    split_and!; try done. intros e [?|He]%elem_of_app; [by left|right]. by eapply flushed_effects. }
  destruct Hs as [m1 fl m' input Hf Hop Ht|m' fl Hf Hop|m' fl Hf Hop _ _ _|m' fl Hf Hop _];
    destruct (Hfl _ _ Hf) as (Es & Eb & Ea & Ec & Hin).
  2-4: split; [done|]; split; [lia|]; intros e [?|?]%Hin; auto.
  destruct (take_checkpoint_attempt _ _ _ Ht) as (Hat & Hat' & Es' & Eb').
  split; [by rewrite Es', Eb'|]. split; [lia|]. intros e He. rewrite (assoc_L (++)) in He.
  apply elem_of_app in He as [He|He]; [destruct (Hin e He); auto|].
  apply list_elem_of_singleton in He as [= ->]. right. right. exists input.
  by rewrite <- Ea, <- Ec.
Qed.

Lemma react_handled s now event s1 s' exit :
  sys_inv recovery s → w_checkpoint_attempt (s_machine s) < u64_max → observes s event s1 →
  react s1 now event = Ret (s', exit) →
  ∃ outs, handled (s_machine s) now event (s_machine s') outs exit ∧
    execute_outputs (s_interp s1) outs = Ret (s_interp s') ∧
    (exit ≠ None → forallb is_action outs = true).
Proof using HL LW SL.
  intros I Hatt Ho Hr. assert (s_machine s1 = s_machine s) as Hm by (by destruct Ho).
  pose proof (observes_enabled _ _ _ _ (sys_machine _ _ I) (sys_linked _ _ I) Ho) as Hen.
  destruct (handle_ok (s_machine s) now event (sys_machine _ _ I) Hen Hatt)
    as (m' & outs & exit' & Hh & Hd & _ & Hact & _).
  unfold react, execute_step in Hr. rewrite Hm, Hh in Hr. cbn [exec_bind step_outputs step_exit] in Hr.
  destruct (_ <=? _); [|done]. destruct (match exit' with Some _ => _ | None => _ end); [|done].
  destruct (execute_outputs _ outs) as [i|] eqn:Hi; cbn [exec_bind] in Hr; [|done].
  injection Hr as <- <-. eauto.
Qed.

(** The effects after a step. *)
Lemma step_effects s now event s1 s' exit :
  sys_inv recovery s → w_checkpoint_attempt (s_machine s) < u64_max → observes s event s1 →
  react s1 now event = Ret (s', exit) →
  (∀ e, e ∈ i_effects (s_interp s1) → e ∈ i_effects (s_interp s')) ∧
  (∀ e, e ∈ i_effects (s_interp s') →
     e ∈ i_effects (s_interp s1) ∨ exit = None ∧ new_effect (s_machine s) event e ∧
       ∀ input, e = PrepareCheckpoint input →
         w_checkpoint_attempt (s_machine s') = w_checkpoint_attempt (s_machine s) + 1) ∧
  (exit = None → goes_on (s_machine s) event (s_machine s')).
Proof using HL LW SL.
  intros I Hatt Ho Hr. destruct (react_handled _ _ _ _ _ _ I Hatt Ho Hr) as (outs & Hd & Hi & Hact).
  split; [by eapply execute_outputs_keeps|].
  pose proof (execute_outputs_effects _ _ _ Hi) as Hin.
  destruct (set_started_inv _ (sys_machine _ _ I)) as [C0 _].
  destruct Hd as [m' exit Hx|m1 outs1 m' outs exit Ha C1 Hs].
  { split; [|done]. intros e [?|?%not_elem_of_nil]%Hin; [by left|done]. }
  destruct (scheduled_adds _ _ _ _ _ _ Hs) as ([Es Eb] & Ea & Hnew).
  destruct (applied_keeps _ _ _ _ C0 Ha) as [Ecl Eat]. cbn [w_claim w_checkpoint_attempt set_started] in *.
  pose proof (applied_goes_on _ _ _ _ C0 Ha) as [G1 G2 G3 G4]. split.
  - intros e [?|He]%Hin; [by left|right]. destruct exit as [exit|].
    { by destruct (actions_no_effect _ _ (Hact ltac:(done)) He). }
    split; [done|]. destruct (Hnew e He) as [He1|[(c & ->)|(input & -> & Hat & Hat')]].
    + split; [by apply new_effect_started, (applied_new _ _ _ _ _ Ha)|].
      intros input ->. by destruct (applied_prepares _ _ _ _ _ Ha He1).
    + split; [constructor|done].
    + split; [constructor; by rewrite Hat, Ecl, Eat|]. intros ? _. by rewrite Hat', Eat.
  - intros _. split; rewrite ?Eb, ?Es; [done..|]. simpl in *. lia.
Qed.

(** ** What an outstanding effect says of the machine *)

Lemma run_outstanding s e :
  sys_inv recovery s → EstablishWal e ∈ i_effects (s_interp s) →
  ∃ f facts, w_flight (s_machine s) = Some f ∧ run_candidate recovery e (flight_batch f, facts) ∧
    facts_applied (flight_batch f) (forest_of (w_durable (s_machine s))) facts
      (forest_of (flight_forest f)) ∧
    ∀ e', EstablishWal e' ∈ i_effects (s_interp s) → e' = e.
Proof.
  intros I He. destruct (li_effects _ _ _ _ _ (sys_linked _ _ I)) as (ew & ep & ec & E).
  assert (∀ e', EstablishWal e' ∈ i_effects (s_interp s) → EstablishWal e' ∈ ew) as Hin.
  { intros e' He'. by destruct (effects_elem _ _ _ _ _ _ _ _ E He') as [[? _]|[[_ ?]|[_ ?]]]. }
  pose proof (effects_wal _ _ _ _ _ _ _ E) as W. unfold wal_part in W. pose proof (Hin e He) as Hew.
  destruct (w_flight _) as [f|]; [|subst ew; by apply not_elem_of_nil in Hew].
  destruct W as (c & facts & -> & Hrun & Hfacts). apply list_elem_of_singleton in Hew as [= ->].
  exists f, facts. split_and!; try done. by intros e' [= ->]%Hin%list_elem_of_singleton.
Qed.

Lemma preparation_outstanding s input :
  sys_inv recovery s → PrepareCheckpoint input ∈ i_effects (s_interp s) →
  (w_checkpoint (s_machine s) = Some (Preparing (input_ticket input)) ∨
   w_checkpoint (s_machine s) = Some (Cancelling (input_ticket input))) ∧
  input_source input = w_seal (s_machine s) ∧
  ∀ input', PrepareCheckpoint input' ∈ i_effects (s_interp s) → input' = input.
Proof.
  intros I He. destruct (li_effects _ _ _ _ _ (sys_linked _ _ I)) as (ew & ep & ec & E).
  assert (∀ i, PrepareCheckpoint i ∈ i_effects (s_interp s) → PrepareCheckpoint i ∈ ep) as Hin.
  { intros e' He'. by destruct (effects_elem _ _ _ _ _ _ _ _ E He') as [[_ ?]|[[? _]|[_ ?]]]. }
  pose proof (effects_checkpoint _ _ _ _ _ _ _ E) as W. unfold checkpoint_part in W.
  pose proof (Hin input He) as Hew.
  destruct (w_checkpoint _) as [[t|t|t p]|].
  - destruct W as (_ & i & -> & Ht & Hs). apply list_elem_of_singleton in Hew as [= ->]. subst t.
    split; [by left|]. split; [done|]. by intros i' [= ->]%Hin%list_elem_of_singleton.
  - destruct W as (i & -> & Ht & Hs). apply list_elem_of_singleton in Hew as [= ->]. subst t.
    split; [by right|]. split; [done|]. by intros i' [= ->]%Hin%list_elem_of_singleton.
  - subst ep. by apply list_elem_of_singleton in Hew.
  - subst ep. by apply not_elem_of_nil in Hew.
Qed.

Lemma publication_outstanding s t e :
  sys_inv recovery s → PublishAuthority t e ∈ i_effects (s_interp s) →
  ∃ p, w_checkpoint (s_machine s) = Some (Publishing t p) ∧ e = prepared_candidate p.
Proof.
  intros I He. destruct (li_effects _ _ _ _ _ (sys_linked _ _ I)) as (ew & ep & ec & E).
  pose proof (effects_checkpoint _ _ _ _ _ _ _ E) as W. unfold checkpoint_part in W.
  destruct (effects_elem _ _ _ _ _ _ _ _ E He) as [[_ ?]|[[Hew _]|[_ ?]]]; [done| |done].
  destruct (w_checkpoint _) as [[t'|t'|t' p]|].
  - destruct W as (_ & i & -> & _). by apply list_elem_of_singleton in Hew.
  - destruct W as (i & -> & _). by apply list_elem_of_singleton in Hew.
  - subst ep. apply list_elem_of_singleton in Hew as [= -> ->]. by exists p.
  - subst ep. by apply not_elem_of_nil in Hew.
Qed.

End step.
