(* ===== verification/ClusterServe.v ===== *)
(** A Writer among other processes.

    What a serving process knows of the cluster, live or exited: its view is the fold of a
    prefix of the history that ends under its own owner, its RUN follows that prefix, its
    tables are its own, and the Seal it publishes folds to a snapshot of its own log. *)

From S2P Require Import Prelude OrdMap Text Domain Coordinates Partition Seal Wal Forest.
From S2P Require Import ForestTheory Archive Spelling Sst Writer WriterSafety WriterSystem.
From S2P Require Import Bootstrap BootstrapSafety Recovery ObjectStore Stores StoreTheory Common.
From S2P Require Import BootstrapRun Checkpoint CheckpointTheory CheckpointSafety.
From S2P Require Import CheckpointLink CheckpointRun Cluster ClusterInv ClusterStore ClusterBoot.
From S2P Require Import ClusterWriter.

Section serve.
  Context {J : Jiff} {HP : Heap} {HL : HeapLaws} {RL : RowLayout} {RLL : RowLayoutLaws}.
  Context {RW : Rkyv ArchivedWalObject} {LW : RkyvLaws ArchivedWalObject} {SL : WalSizeLaw}.
  Context {RS : Rkyv ArchivedSeal} {LS : RkyvLaws ArchivedSeal}.
  Context {RD : Rkyv (SstArchive ArchivedDirectoryRow)} {LD : RkyvLaws (SstArchive ArchivedDirectoryRow)}.
  Context {RG : Rkyv (SstArchive ArchivedLedgerRow)} {LG : RkyvLaws (SstArchive ArchivedLedgerRow)}.
  Context {SZ : SstSizeLaw} {SS : SealSizeLaw}.
  Context {DD : MapDiff StreamPath DirectoryEntry} {DL : MapDiff StreamUid StreamRecord}.
  Context {DDL : MapDiffLaws StreamPath DirectoryEntry} {DLL : MapDiffLaws StreamUid StreamRecord}.

(** * The history a Writer sees *)

(** A WAL candidate whose object is of the history. *)
Definition recorded (h : list WalObject) (e : EncodedWal) : Prop :=
  ∃ w, w ∈ h ∧ encoded_wal_batch e = wal_batch w ∧ encoded_wal_bytes e = wal_bytes w.

Lemma written_det c partition table d d' :
  tables_unique (cl_requests c) → written c partition table d → written c partition table d' → d = d'.
Proof.
  intros U (p & b & Hp & Hd & _) (p' & b' & Hp' & Hd' & _).
  rewrite (U _ _ _ _ _ Hp Hp'), Hd' in Hd. by injection Hd.
Qed.

(** Tables that were read are what a function of the tables reads. *)
Lemma known_reads c partition (l : list (TableRef * DecodedTable)) :
  tables_unique (cl_requests c) → Forall (λ p, written c partition p.1 p.2) l →
  ∃ reads : TableRef → DecodedTable, reads <$> l.*1 = l.*2 ∧
    ∀ table, table ∈ l.*1 → written c partition table (reads table).
Proof.
  intros U Hl.
  exists (λ table, match list_find (λ p, p.1 = table) l with Some (_, p) => p.2 | None => DecodedDirectory [] end).
  assert (∀ p, p ∈ l → match list_find (λ q, q.1 = p.1) l with
    Some (_, q) => q.2 = p.2 | None => False end) as Hfind.
  { intros p Hp. destruct (list_find (λ q, q.1 = p.1) l) as [[i q]|] eqn:Hq.
    - apply list_find_Some in Hq as (Hi & He & _). rewrite Forall_forall in Hl.
      apply list_elem_of_lookup_2 in Hi. apply Hl in Hi as Hwq. apply Hl in Hp as Hwp.
      rewrite He in Hwq. by eapply written_det.
    - apply list_find_None in Hq. rewrite Forall_forall in Hq. by apply (Hq p Hp). }
  split.
  - rewrite <- list_fmap_compose. apply list_fmap_ext. intros i p Hp. unfold compose.
    apply list_elem_of_lookup_2 in Hp. specialize (Hfind p Hp).
    by destruct (list_find _ l) as [[j q]|].
  - intros table (p & -> & Hp)%list_elem_of_fmap. specialize (Hfind p Hp).
    destruct (list_find _ l) as [[j q]|]; [|done]. rewrite Hfind. by eapply Forall_forall in Hl.
Qed.

(** The base a recovery loaded is the history at its Seal's cut. *)
Lemma opens_base c h pid t r :
  store_inv c h → opens c h pid t r →
  folds (upto (seal_cut (recovery_seal r)) h) (replay_owner (seal_replay (recovery_seal r)))
    (recovery_base r).
Proof.
  intros I [R [[Hs _] Ht] _]. destruct (si_good _ _ I _ Hs) as [_ [(base & Hf & Hb) _]].
  destruct (known_reads c _ _ (si_tables _ _ I) Ht) as (reads & Hr & Hw).
  rewrite (recovered_tables _ _ R) in Hr, Hw. rewrite (recovered_base _ _ R), <- Hr.
  by rewrite (Hb reads Hw).
Qed.

(** What it replayed is the history to its FENCE. *)
Lemma opens_durable c h pid t r :
  store_inv c h → opens c h pid t r →
  folds (upto (coord_get (recovery_durable_batch r)) h) (Some (claim_owner (recovery_claim r)))
    (recovery_durable r) ∧ coord_get (recovery_durable_batch r) ≤ zlen h.
Proof.
  intros I O. pose proof (opens_base _ _ _ _ _ I O) as Hb. destruct O as [R [[Hs _] _] Hw].
  destruct (si_good _ _ I _ Hs) as [Hc _]. pose proof (recovered_span _ _ R).
  destruct (upto_segment h (trace_wal t) (seal_cut (recovery_seal r))
    (coord_get (recovery_durable_batch r) - seal_cut (recovery_seal r))) as [Hu Hle]; try done;
    [apply I|apply seal_cut_nonneg|apply R|lia|].
  replace (seal_cut _ + (_ - _)) with (coord_get (recovery_durable_batch r)) in * by lia.
  split; [|done]. rewrite Hu. apply replayed_app. eexists _, _. split; [exact Hb|apply R].
Qed.

(** Recorded RUNs of this Writer are a segment of the history. *)
Lemma runs_recorded h r wal log f f' :
  Forall2 (run_candidate r) wal log → Forall (recorded h) wal → log_applied f log f' →
  ∃ ws, Forall (.∈ h) ws ∧ (coord_get ∘ wal_batch <$> ws) = coord_get <$> log.*1 ∧
    replayed (Some (claim_owner (recovery_claim r))) f ws (Some (claim_owner (recovery_claim r))) f'.
Proof using LW.
  intros Hc. revert f f'.
  induction Hc as [|c [batch facts] wal log (wf & Hs & ->) Hc IH]; intros f f' Hr Hl.
  - inversion Hl; subst. exists []. split; [done|]. split; [done|constructor].
  - apply Forall_cons in Hr as [(w & Hw & Hb & Hy) Hr]. inversion Hl as [|? ? ? f1 ? ? Hf Hl']; subst.
    destruct (IH f1 f' Hr Hl') as (ws & Hws & Hbs & Hrep). cbn [encoded_wal_batch encoded_wal_bytes] in *.
    apply wal_bytes_inj in Hy. subst w. eexists (_ :: ws). split; [by constructor|]. csimpl.
    rewrite Hbs. split; [done|]. apply (replayed_app _ _ [_]). eexists _, f1. split; [|exact Hrep].
    apply (replayed_snoc _ _ []). exists (Some (claim_owner (recovery_claim r))), f.
    split; [constructor|]. split; [done|]. split; [done|]. cbn [wal_batch]. by rewrite Hs.
Qed.

Lemma log_history c h pid t r wal log f :
  store_inv c h → opens c h pid t r → Forall2 (run_candidate r) wal log → Forall (recorded h) wal →
  log_applied (recovery_durable r) log f →
  (coord_get <$> log.*1) = seqZ (coord_get (recovery_durable_batch r) + 1) (zlen log) →
  folds (upto (coord_get (recovery_durable_batch r) + zlen log) h)
    (Some (claim_owner (recovery_claim r))) f ∧
  coord_get (recovery_durable_batch r) + zlen log ≤ zlen h.
Proof using LW.
  intros I O Hc Hr Hl Hb. destruct (opens_durable _ _ _ _ _ I O) as [Hd Hle].
  destruct (runs_recorded h r wal log _ _ Hc Hr Hl) as (ws & Hws & Hbs & Hrep). rewrite Hb in Hbs.
  pose proof (coord_bounds (recovery_durable_batch r)).
  destruct (upto_segment h ws (coord_get (recovery_durable_batch r)) (zlen log)) as [Hu Hlen]; try done;
    [apply I|lia|unfold zlen; lia|].
  split; [|done]. rewrite Hu. apply replayed_app. eexists _, _. by split.
Qed.

(** A snapshot of the log is the history at its cut. *)
Lemma snapshot_history c h pid t r m wal log cut f :
  store_inv c h → opens c h pid t r → durable_log r m wal log → Forall (recorded h) wal →
  snapshot_of r log cut f →
  folds (upto (coord_get cut) h) (Some (claim_owner (recovery_claim r))) f ∧ coord_get cut ≤ zlen h.
Proof using LW.
  intros I O [Hc _ Hb _] Hr (log1 & log2 & -> & Hl & ->).
  apply Forall2_app_inv_r in Hc as (wal1 & wal2 & Hc & _ & ->). apply Forall_app in Hr as [Hr _].
  eapply log_history; try done. rewrite !fmap_app in Hb. unfold zlen in *.
  rewrite length_app, Nat2Z.inj_add, seqZ_app in Hb by lia.
  by apply app_inj_1 in Hb as [? _]; [|rewrite !length_fmap, length_seqZ; lia].
Qed.

(** A covered base is the history at its Seal's cut. *)
Lemma covers_history c h pid t r m wal log seal base :
  store_inv c h → opens c h pid t r → durable_log r m wal log → Forall (recorded h) wal →
  covers r log seal base →
  folds (upto (seal_cut seal) h) (replay_owner (seal_replay seal)) base.
Proof using LW.
  intros I O D Hr [[Hs ->]|(cut & Hs & Hsnap)].
  - pose proof (opens_base _ _ _ _ _ I O) as Hb. unfold seal_cut in *. by rewrite Hs.
  - unfold seal_cut. rewrite Hs. cbn [replay_batch cut_value replay_owner].
    destruct (snapshot_history _ _ _ _ _ _ _ _ _ _ I O D Hr Hsnap) as [Hf _].
    pose proof (opens_recovered _ _ _ _ _ O) as R. rewrite (recovered_claim _ _ R) in Hf |- *. done.
Qed.

(** * Preparations *)

Lemma prepare_encoded emit input sent p :
  prepare_checkpoint emit input = Ret (sent, Ok (Some p)) →
  EncodedAuthoritySeal_try_from (prepared_successor p) = Ret (Ok (prepared_candidate p)).
Proof.
  unfold prepare_checkpoint. destruct (successor _) as [g|]; [|done].
  destruct (delta_since _ _) as [delta|]; cbn [exec_bind]; [|done].
  destruct (plan_checkpoint _ _ _) as [[cells carried]|]; cbn [exec_bind]; [|done].
  destruct (build_directory_tree _ _ _ _ _ _ _ _) as [[[n s1] [dtree|]]|]; cbn [exec_bind]; [|done..].
  destruct (build_ledger_tree _ _ _ _ _ _ _ _) as [[[n' s2] [ltree|]]|]; cbn [exec_bind]; [|done..].
  unfold assemble_checkpoint_seal. destruct (Seal_new _ _ _ _ _) as [next|]; cbn [expect_ok exec_bind]; [|done].
  destruct (EncodedAuthoritySeal_try_from next) as [[e|]|] eqn:He; cbn [expect_ok exec_bind]; [|done..].
  destruct (PreparedCheckpoint_new _ _ _ _ _) as [p'|] eqn:Hp; cbn [exec_bind]; [|done].
  intros [= _ <-]. by apply PreparedCheckpoint_new_Ret in Hp as (-> & _).
Qed.

(** What a preparation writes is the tables of the checkpoint it prepares. *)
Lemma written_from input :
  input_ok input →
  written_tables input = [] ∨
  ∃ p cells carried newd newl,
    prepare_checkpoint (λ _ _, true) input = Ret (written_tables input, Ok (Some p)) ∧
    cells_choice input cells carried ∧
    prepared_from input (written_tables input) cells carried newd newl p.
Proof using HL LS LD LG SZ SS DDL DLL.
  intros I. destruct (prepare_checkpoint_Ret (λ _ _, true) input I) as (sent & r & Hr & Hm).
  unfold written_tables. rewrite Hr. destruct r as [[p|]|]; [|by left..]. right.
  destruct Hm as (cells & carried & newd & newl & Hch & F). eauto 10.
Qed.

Lemma run_length carried tables tree :
  manifest carried tables (tree_runs tree) → zlen tables ≤ TREE_RUNS_MAX * RUN_TABLES_MAX.
Proof.
  intros Hm%manifest_tables. pose proof (tree_tables_length tree) as Hl. unfold tree_tables, zlen in *.
  rewrite Hm, length_app in Hl. lia.
Qed.

Section sent.
  Context (input : CheckpointInput) (cells : ForestDelta) (carried : option Seal).
  Context (newd newl : list EncodedTable) (prepared : PreparedCheckpoint) (sent : list EncodedTable).
  Context (F : prepared_from input sent cells carried newd newl prepared).

Lemma sent_fresh t :
  t ∈ sent →
  ∃ kind, fresh_table (seal_generation (prepared_successor prepared)) (ticket_attempt (input_ticket input))
    kind (ordinal (fresh (table_object (table_ref t)))) t.
Proof using F.
  rewrite (from_sent _ _ _ _ _ _ _ F). intros [H1|H1]%elem_of_app.
  - destruct (made_all_fresh _ _ _ Directory _ _ _ (λ m rows t H, proj1 H)
      (from_directory _ _ _ _ _ _ _ F)) as [_ Hf]. exists Directory. by eapply Forall_forall in Hf.
  - destruct (made_all_fresh _ _ _ Ledger _ _ _ (λ m rows t H, proj1 H)
      (from_ledger _ _ _ _ _ _ _ F)) as [_ Hf]. exists Ledger. by eapply Forall_forall in Hf.
Qed.

Lemma sent_length : zlen sent ≤ u32_max.
Proof using F.
  rewrite (from_sent _ _ _ _ _ _ _ F). pose proof (run_length _ _ _ (from_directory_tree _ _ _ _ _ _ _ F)).
  pose proof (run_length _ _ _ (from_ledger_tree _ _ _ _ _ _ _ F)). unfold zlen in *.
  rewrite !length_fmap in *. rewrite length_app. unfold TREE_RUNS_MAX, RUN_TABLES_MAX, u32_max in *. lia.
Qed.

(** Ordinals are positions. *)
Lemma sent_ordinal i t :
  sent !! i = Some t → ordinal (fresh (key_object (table_key t))) = Z.of_nat i.
Proof using F.
  intros Hi. destruct (prepared_fresh _ _ _ _ _ _ _ F) as [Ho _].
  destruct (sent_fresh t ltac:(by eapply list_elem_of_lookup_2)) as (kind & [Fo _ _ _]).
  assert ((ordinal ∘ fresh ∘ table_object <$> (table_ref <$> sent)) !! i =
    Some (ordinal (fresh (key_object (table_key t))))) as Hoi.
  { by rewrite !list_lookup_fmap, Hi, <- Fo. }
  rewrite Ho in Hoi. apply lookup_seqZ in Hoi as [Hoi _]. lia.
Qed.

End sent.

Lemma written_fresh input t :
  input_ok input → t ∈ written_tables input →
  attempt (fresh (key_object (table_key t))) = ticket_attempt (input_ticket input) ∧
  (0 ≤ ordinal (fresh (key_object (table_key t))) ≤ u32_max) ∧
  mk_table_key (table_object (table_ref t)) = table_key t ∧
  ∀ t', t' ∈ written_tables input → table_key t' = table_key t → t' = t.
Proof using HL LS LD LG SZ SS DDL DLL.
  intros I Ht. destruct (written_from input I) as [He|(p & cells & carried & newd & newl & _ & _ & F)].
  { rewrite He in Ht. by apply not_elem_of_nil in Ht. }
  destruct (sent_fresh _ _ _ _ _ _ _ F t Ht) as (kind & [Fo Fs Ff _]).
  pose proof (sent_length _ _ _ _ _ _ _ F) as Hlen.
  apply list_elem_of_lookup in Ht as [i Hi]. pose proof (sent_ordinal _ _ _ _ _ _ _ F i t Hi) as Hord.
  apply lookup_lt_Some in Hi as Hlt. split; [|split; [|split]].
  - unfold attempt. by rewrite Ff.
  - unfold zlen in Hlen. lia.
  - rewrite Fo. by destruct (table_key t).
  - intros t' [j Hj]%list_elem_of_lookup He.
    pose proof (sent_ordinal _ _ _ _ _ _ _ F j t' Hj) as Hord'. rewrite He in Hord'.
    assert (i = j) as -> by lia. congruence.
Qed.

(** ** The Seal a preparation builds *)

Section publication.
  Context (c : Cluster) (h : list WalObject) (pid : nat) (t : Trace) (r : WriterRecovery).
  Context (m : WriterMachine) (wal : list EncodedWal) (log : list (BatchId * list OperationFact)).
  Context (I : store_inv c h) (O : opens c h pid t r) (D : durable_log r m wal log).
  Context (Hrec : Forall (recorded h) wal).
  Context (input : CheckpointInput) (Hinput : input_ok input).
  Context (Hsnap : snapshot_of r log (ticket_cut (input_ticket input)) (input_snapshot input)).
  Context (Hbase : covers r log (input_source input) (input_base input)).
  Context (Hsealed : sealed c (input_source input)).
  Context (Hclaim : owner_claim (ticket_attempt (input_ticket input)) = claim_generation (recovery_claim r)).
  Context (p : PreparedCheckpoint).
  Context (Hp : prepare_checkpoint (λ _ _, true) input = Ret (written_tables input, Ok (Some p))).
  Context (Hasked : ∀ t, t ∈ written_tables input → put_table pid t ∈ cl_requests c).

Lemma asked_table t1 :
  t1 ∈ written_tables input →
  Put pid (table_spelling (table_object (table_ref t1))) (table_bytes t1) ∈ cl_requests c.
Proof using HL LS LD LG SZ SS DDL DLL Hinput Hasked.
  intros Ht. destruct (written_fresh input t1 Hinput Ht) as (_ & _ & Hk & _).
  unfold table_spelling. rewrite Hk. by apply Hasked.
Qed.

(** However the tables of the successor are read, they fold to the snapshot. *)
Lemma publication_reads reads :
  (∀ table, table ∈ planned_tables (prepared_successor p) →
     written c (seal_partition (prepared_successor p)) table (reads table)) →
  tables_forest (reads <$> planned_tables (prepared_successor p)) = input_snapshot input.
Proof using HL RLL LW LS LD LG SZ SS DDL DLL I O D Hrec Hinput Hbase Hsealed Hp Hasked.
  intros Hw. destruct (prepare_checkpoint_Ret (λ _ _, true) input Hinput) as (sent & res & Hr & Hm).
  rewrite Hp in Hr. injection Hr as <- <-. destruct Hm as (cells & carried & newd & newl & Hch & F).
  rewrite (from_partition _ _ _ _ _ _ _ F) in Hw.
  eapply prepared_covers; [exact Hch|exact F| |].
  - intros Hcar. assert (∀ table, table ∈ planned_tables (input_source input) →
      written c (seal_partition (input_source input)) table (reads table)) as Hsrc.
    { intros table Hin. apply Hw, (planned_successor _ _ _ _ _ _ _ _ F). left. eauto. }
    split; [intros table Hin; by destruct (Hsrc table Hin) as (? & ? & _ & _ & ?)|].
    destruct (si_good _ _ I _ Hsealed) as [_ [(base & Hf & Hb) _]]. rewrite (Hb reads Hsrc).
    by eapply folds_det, covers_history.
  - intros t1 Ht. assert (table_ref t1 ∈ planned_tables (prepared_successor p)) as Hin.
    { apply (planned_successor _ _ _ _ _ _ _ _ F). right. by apply list_elem_of_fmap_2. }
    destruct (Hw _ Hin) as (pid' & bytes & Hput & Hd & _).
    rewrite (si_tables _ _ I _ _ _ _ _ Hput (asked_table t1 Ht)) in Hd.
    destruct (written_fresh input t1 Hinput Ht) as (_ & _ & <- & _). exact Hd.
Qed.

Lemma publication_request : seal_request c h (prepared_successor p).
Proof using HL RLL LW LS LD LG SZ SS DDL DLL I O D Hrec Hinput Hsnap Hbase Hsealed Hclaim Hp Hasked.
  destruct (prepare_checkpoint_Ret (λ _ _, true) input Hinput) as (sent & res & Hr & Hm).
  rewrite Hp in Hr. injection Hr as <- <-. destruct Hm as (cells & carried & newd & newl & Hch & F).
  destruct (snapshot_history _ _ _ _ _ _ _ _ _ _ I O D Hrec Hsnap) as [Hf Hle].
  pose proof (from_replay _ _ _ _ _ _ _ F) as Hrep.
  assert (seal_cut (prepared_successor p) = coord_get (ticket_cut (input_ticket input))) as Hcut
    by (unfold seal_cut; by rewrite Hrep).
  right. exists (input_source input). split_and!.
  - done.
  - by apply successor_Ok, (from_generation _ _ _ _ _ _ _ F).
  - apply (from_partition _ _ _ _ _ _ _ F).
  - rewrite Hcut. unfold seal_cut. pose proof (input_cut_ok _ Hinput) as Hc.
    pose proof (coord_bounds (ticket_cut (input_ticket input))).
    destruct (replay_batch _) as [b|]; simpl; [specialize (Hc b eq_refl); lia|lia].
  - by rewrite Hcut.
  - split.
    + exists (input_snapshot input). rewrite Hcut, Hrep. cbn [replay_owner]. rewrite Hclaim.
      pose proof (recovered_claim _ _ (opens_recovered _ _ _ _ _ O)) as Hcl.
      split; [rewrite Hcl in Hf |- *; exact Hf|]. apply publication_reads.
    + intros table [(src & -> & Hin)|Hin]%(planned_successor _ _ _ _ _ _ _ _ F).
      * destruct Hch as [_ [[[= ->] _]|[? _]]]; [|done].
        destruct (si_good _ _ I _ Hsealed) as [_ [_ Ht]]. by apply Ht.
      * apply list_elem_of_fmap in Hin as (t1 & -> & Ht). eexists _, _. by apply asked_table.
Qed.

End publication.

(** * The process *)

(** What an outstanding effect was built from. *)
Definition effect_ok (c : Cluster) (effect : WriterEffect) : Prop :=
  match effect with
  | EstablishWal e => ∃ w, wal_body w ≠ Fence ∧ encoded_wal_batch e = wal_batch w ∧
      encoded_wal_bytes e = wal_bytes w
  | PublishAuthority _ e =>
      decode_seal (seal_generation (authority_seal e)) (authority_bytes e) = Ret (Ok (authority_seal e))
  | Collect input => ∃ s, sealed c s ∧
      seal_cut (collection_source input) < coord_get (collection_cut input) ≤ seal_cut s
  | PrepareCheckpoint _ => True
  end.

(** What the answer to an effect says of the cluster. *)
Definition service_told (c : Cluster) (h : list WalObject) (pid : nat) (effect : WriterEffect)
    (event : WriterEvent) : Prop :=
  match effect, event with
  | EstablishWal e, WalEstablished _ (Ok WalDurable) => recorded h e
  | PrepareCheckpoint input, CheckpointPrepared _ (Prepared p) =>
      prepare_checkpoint (λ _ _, true) input = Ret (written_tables input, Ok (Some p))
  | PublishAuthority _ e, SealPublished _ (Ok Authored) => holds_claim c pid (authority_seal e)
  | _, _ => True
  end.

(** A Writer that goes on. *)
Record live_ok (c : Cluster) (h : list WalObject) (pid : nat) (v : Service) : Prop := {
  lo_reach : reachable (sv_recovery v) (sv_interval v) (sv_buffer v) (sv_system v);
  lo_seal : holds_claim c pid (w_seal (s_machine (sv_system v)));
  lo_wal : Forall (recorded h) (s_wal (sv_system v));
  lo_runs : ∀ w, Put pid (wal_key w) (wal_bytes w) ∈ cl_requests c → wal_body w ≠ Fence →
    coord_get (wal_batch w) ≤ coord_get (w_durable_batch (s_machine (sv_system v))) ∨
    ∃ e, EstablishWal e ∈ sv_effects v ∧ encoded_wal_batch e = wal_batch w ∧
      encoded_wal_bytes e = wal_bytes w;
  lo_tables : ∀ key bytes, Put pid (TableKey_display key) bytes ∈ cl_requests c → table_key_widths key →
    table_counter key < w_checkpoint_attempt (s_machine (sv_system v))
}.

(** The view is the fold of a prefix of the history under the process's own owner, and
    every reply sent is true in it. *)
Definition serves (h : list WalObject) (v : Service) : Prop :=
  let s := sv_system v in
  ∃ n, coord_get (recovery_durable_batch (sv_recovery v)) ≤ n ≤ zlen h ∧
    folds (upto n h) (Some (claim_owner (recovery_claim (sv_recovery v)))) (i_view (s_interp s)) ∧
    answered (s_received s) (i_sent (s_interp s)) (i_view (s_interp s)).

Record service_ok (c : Cluster) (h : list WalObject) (pid : nat) (v : Service) : Prop := {
  so_opened : ∃ t, opens c h pid t (sv_recovery v);
  so_buffer : 1 ≤ sv_buffer v ≤ WAL_ENCODED_BYTES_MAX;
  so_effects : ∀ e, e ∈ sv_effects v → effect_ok c e;
  so_asked : ∀ e r, e ∈ sv_effects v → r ∈ service_requests pid e → r ∈ cl_requests c;
  so_told : ∀ effect event, (effect, event) ∈ sv_learned v → service_told c h pid effect event;
  so_view : serves h v;
  so_live : sv_exit v = None → live_ok c h pid v
}.

(** ** What grows stays *)

Lemma recorded_grows c h c' h' e : grows c h c' h' → recorded h e → recorded h' e.
Proof. intros G (w & Hw & ?). exists w. split; [by eapply history_grows|done]. Qed.

Lemma opens_grows c h c' h' pid t r : grows c h c' h' → opens c h pid t r → opens c' h' pid t r.
Proof.
  intros G [R K W]. split; [done|by eapply claim_known_grows|by eapply in_history_grows].
Qed.

Lemma effect_ok_grows c h c' h' e : grows c h c' h' → effect_ok c e → effect_ok c' e.
Proof.
  intros G. destruct e; try done. intros (s & Hs & ?). exists s. split; [by eapply gr_seals|done].
Qed.

Lemma service_told_grows c h c' h' pid effect event :
  grows c h c' h' → service_told c h pid effect event → service_told c' h' pid effect event.
Proof.
  intros G. destruct effect, event as [| | | |? [[]|]|? []|? [[]|]| |]; try done; simpl.
  - by eapply recorded_grows.
  - by eapply holds_grows.
Qed.

Lemma serves_grows c h c' h' v : grows c h c' h' → serves h v → serves h' v.
Proof.
  intros G (n & Hn & Hf & Ha). pose proof (length_grows _ _ _ _ G). exists n. split; [lia|].
  rewrite (upto_prefix n h h') by (lia || apply G). done.
Qed.

Lemma live_ok_grows c h c' h' pid v :
  grows c h c' h' →
  (∀ key bytes, Put pid key bytes ∈ cl_requests c' → Put pid key bytes ∈ cl_requests c) →
  live_ok c h pid v → live_ok c' h' pid v.
Proof.
  intros G Hown [H1 H2 H3 H4 H5]. split; [done|by eapply holds_grows|..].
  - eapply Forall_impl; [done|]. intros e. by eapply recorded_grows.
  - intros w ?%Hown. by apply H4.
  - intros key bytes ?%Hown. by eapply H5.
Qed.

(** What other processes do leaves a Writer what it knows. *)
Lemma service_ok_grows c h c' h' pid v :
  grows c h c' h' →
  (∀ key bytes, Put pid key bytes ∈ cl_requests c' → Put pid key bytes ∈ cl_requests c) →
  service_ok c h pid v → service_ok c' h' pid v.
Proof.
  intros G Hown [(t & H1) H2 H3 H4 H5 H6 H7]. split; try done.
  - exists t. by eapply opens_grows.
  - intros e ?%H3. by eapply effect_ok_grows.
  - intros e r He Hr. apply G. by eapply H4.
  - intros effect event ?%H5. by eapply service_told_grows.
  - by eapply serves_grows.
  - intros ?%H7. by eapply live_ok_grows.
Qed.

End serve.
