(* ===== verification/ClusterStep.v ===== *)
(** A step of the Writer keeps the cluster's invariant.

    What the step asks for may land at any time: its RUN follows the history it knows and
    is the only RUN this process asks for there, its tables carry a fresh attempt of its
    own claim, and the Seal it publishes is the successor of the Seal it holds. *)

From S2P Require Import Prelude OrdMap Text Domain Coordinates Partition Seal Wal Forest.
From S2P Require Import ForestTheory Archive Spelling Sst Writer WriterSafety WriterSystem.
From S2P Require Import Bootstrap BootstrapSafety Recovery ObjectStore Stores StoreTheory Common.
From S2P Require Import BootstrapRun Checkpoint CheckpointTheory CheckpointSafety.
From S2P Require Import CheckpointLink CheckpointRun Cluster ClusterInv ClusterStore ClusterBoot.
From S2P Require Import ClusterWriter ClusterServe.

Section step.
  Context {J : Jiff} {HP : Heap} {HL : HeapLaws} {RL : RowLayout} {RLL : RowLayoutLaws}.
  Context {RW : Rkyv ArchivedWalObject} {LW : RkyvLaws ArchivedWalObject} {SL : WalSizeLaw}.
  Context {RS : Rkyv ArchivedSeal} {LS : RkyvLaws ArchivedSeal}.
  Context {RD : Rkyv (SstArchive ArchivedDirectoryRow)} {LD : RkyvLaws (SstArchive ArchivedDirectoryRow)}.
  Context {RG : Rkyv (SstArchive ArchivedLedgerRow)} {LG : RkyvLaws (SstArchive ArchivedLedgerRow)}.
  Context {SZ : SstSizeLaw} {SS : SealSizeLaw}.
  Context {DD : MapDiff StreamPath DirectoryEntry} {DL : MapDiff StreamUid StreamRecord}.
  Context {DDL : MapDiffLaws StreamPath DirectoryEntry} {DLL : MapDiffLaws StreamUid StreamRecord}.

(** * Opened Writers *)

Lemma opens_authority c h pid t r :
  opens c h pid t r → cl_authority c !! coord_get (claim_generation (recovery_claim r)) = Some pid.
Proof. intros [R [[_ Ha] _] _]. by rewrite (recovered_claim _ _ R). Qed.

Lemma opens_owner c h pid t r :
  opens c h pid t r → generation (claim_owner (recovery_claim r)) = claim_generation (recovery_claim r).
Proof. intros [R _ _]. by eapply recovered_owner. Qed.

(** A RUN just after the history this Writer knows may land at any time. *)
Lemma run_put c h pid t r w facts n f f' :
  store_inv c h → opens c h pid t r → folds (upto n h) (Some (claim_owner (recovery_claim r))) f →
  n ≤ zlen h → coord_get (wal_batch w) = n + 1 → wal_partition w = seal_partition (recovery_seal r) →
  wal_owner w = claim_owner (recovery_claim r) → wal_body w = Run facts →
  facts_applied (wal_batch w) f (facts_slice facts) f' →
  (∀ w0, Put pid (wal_key w0) (wal_bytes w0) ∈ cl_requests c → wal_body w0 ≠ Fence →
     wal_batch w0 = wal_batch w → w0 = w) →
  put_ok c h pid (wal_key w) (wal_bytes w).
Proof.
  intros I O Hf Hn Hb Hp Ho Hw Hfacts Hown.
  assert (cl_authority c !! owner_of w = Some pid) as Ha.
  { unfold owner_of. rewrite Ho, (opens_owner _ _ _ _ _ O). by eapply opens_authority. }
  constructor; [|done]. split.
  - lia.
  - intros He. assert (n = zlen h) as -> by lia. rewrite upto_full in Hf.
    eexists _, _, _, f'. split; [exact Hf|]. split; [done|]. by rewrite Hw, Ho.
  - intros w0 Hw0 He. destruct (wal_body w0) as [facts0|] eqn:Hb0; [|by right; left]. left.
    destruct (si_folds _ _ I) as (o1 & f1 & Hall).
    destruct (run_owner h w0 facts0 _ _ (si_placed _ _ I) Hall Hw0 Hb0) as (f2 & Hf2).
    rewrite He, Hb in Hf2. replace (n + 1 - 1) with n in Hf2 by lia.
    destruct (folds_det _ _ _ _ _ Hf Hf2) as [[= Ho0] _].
    destruct (si_asked _ _ I w0 Hw0 ltac:(by rewrite Hb0)) as (pid0 & Hput & Ha0).
    assert (pid0 = pid) as -> by (unfold owner_of in *; rewrite <- Ho0, <- Ho, Ha in Ha0; congruence).
    apply Hown; [done|by rewrite Hb0|done].
  - exists (recovery_seal r). split; [apply O|done].
Qed.

(** * One step *)

Section stepped.
  Context (c : Cluster) (h : list WalObject) (pid : nat) (v : Service).
  Context (I : store_inv c h) (O : service_ok c h pid v) (L : live_ok c h pid v).
  Context (now : Z) (event : WriterEvent) (s1 s' : System).
  Context (Hatt : w_checkpoint_attempt (s_machine (sv_system v)) < u64_max).
  Context (Hobs : observes (sv_system v) event s1).

(** What the observation says of the cluster. *)
Record hears : Prop := {
  hear_wal : Forall (recorded h) (s_wal s1);
  hear_prepared : ∀ t p, event = CheckpointPrepared t (Prepared p) →
    w_checkpoint (s_machine (sv_system v)) = Some (Preparing t) →
    ∃ input, PrepareCheckpoint input ∈ sv_effects v ∧ input_ticket input = t ∧
      prepare_checkpoint (λ _ _, true) input = Ret (written_tables input, Ok (Some p));
  hear_published : ∀ t p, event = SealPublished t (Ok Authored) →
    w_checkpoint (s_machine (sv_system v)) = Some (Publishing t p) → holds_claim c pid (prepared_successor p)
}.

Lemma step_inv : sys_inv (sv_recovery v) (sv_system v).
Proof using HL LW SL O L.
  destruct (so_opened _ _ _ _ O) as (t & [R _ _]).
  eapply reachable_inv; [|apply L]. eapply recovered_handoff; [done|apply O].
Qed.

Lemma observed_effects e : e ∈ i_effects (s_interp s1) → e ∈ sv_effects v.
Proof using Hobs.
  unfold sv_effects. destruct Hobs as [|e' ev before after _ Hsplit _| | |]; simpl; try done.
  rewrite Hsplit, !elem_of_app, elem_of_cons. tauto.
Qed.

Lemma observed_run e :
  EstablishWal e ∈ sv_effects v →
  EstablishWal e ∈ i_effects (s_interp s1) ∨ ∃ result, event = WalEstablished (encoded_wal_batch e) result.
Proof using Hobs.
  unfold sv_effects. destruct Hobs as [|e' ev before after _ Hsplit Ha| | |]; simpl; try by left.
  rewrite Hsplit, !elem_of_app, elem_of_cons. intros [He|[<-|He]]; [by left; left| |by left; right].
  right. inversion Ha; subst. eauto.
Qed.

Context (Hr : react s1 now event = Ret (s', None)) (H : hears).

Lemma next_reach : reachable (sv_recovery v) (sv_interval v) (sv_buffer v) s'.
Proof using Hatt Hobs Hr L.
  eapply reachable_step; [apply L|done|]. by econstructor.
Qed.

Lemma next_inv : sys_inv (sv_recovery v) s'.
Proof using HL LW SL O L Hatt Hobs Hr.
  destruct (so_opened _ _ _ _ O) as (t & [R _ _]).
  eapply reachable_inv; [|apply next_reach]. eapply recovered_handoff; [done|apply O].
Qed.

Lemma next_wal : Forall (recorded h) (s_wal s').
Proof using Hr H. destruct (react_Ret _ _ _ _ Hr) as (_ & _ & _ & ->). apply H. Qed.

Lemma next_effects :
  (∀ e, e ∈ i_effects (s_interp s1) → e ∈ i_effects (s_interp s')) ∧
  (∀ e, e ∈ i_effects (s_interp s') →
     e ∈ sv_effects v ∨ new_effect (s_machine (sv_system v)) event e ∧
       ∀ input, e = PrepareCheckpoint input →
         w_checkpoint_attempt (s_machine s') = w_checkpoint_attempt (s_machine (sv_system v)) + 1) ∧
  goes_on (s_machine (sv_system v)) event (s_machine s').
Proof using HL LW SL O L Hatt Hobs Hr.
  destruct (step_effects (sv_recovery v) _ _ _ _ _ _ step_inv Hatt Hobs Hr) as (H1 & H2 & H3).
  split; [done|]. split; [|by apply H3]. intros e [?|(_ & ? & ?)]%H2; [|by right].
  left. by apply observed_effects.
Qed.

(** The RUNs this process asked for: behind what is durable, or outstanding. *)
Lemma next_runs w :
  Put pid (wal_key w) (wal_bytes w) ∈ cl_requests c → wal_body w ≠ Fence →
  coord_get (wal_batch w) ≤ coord_get (w_durable_batch (s_machine s')) ∨
  ∃ e, EstablishWal e ∈ i_effects (s_interp s') ∧ encoded_wal_batch e = wal_batch w ∧
    encoded_wal_bytes e = wal_bytes w.
Proof using HL LW SL O L Hatt Hobs Hr.
  intros Hput Hb. destruct next_effects as (Hold & _ & [Hd He _ _]).
  destruct (lo_runs _ _ _ _ L w Hput Hb) as [Hle|(e & Hin & Eb & Ey)]; [left; lia|].
  destruct (observed_run e Hin) as [Hin'|(result & Hev)]; [right; eauto|left].
  rewrite <- Eb. by eapply He.
Qed.

(** The view of the next state, along the history. *)
Lemma next_view :
  folds (upto (coord_get (w_durable_batch (s_machine s'))) h) (Some (claim_owner (recovery_claim (sv_recovery v))))
    (i_view (s_interp s')) ∧
  coord_get (w_durable_batch (s_machine s')) ≤ zlen h ∧
  coord_get (recovery_durable_batch (sv_recovery v)) ≤ coord_get (w_durable_batch (s_machine s')).
Proof using HL LW SL I O L Hatt Hobs Hr H.
  destruct (so_opened _ _ _ _ O) as (t & Ot). pose proof (sys_linked _ _ next_inv) as Li.
  destruct (li_log _ _ _ _ _ Li) as (log & [Ho Hf Hc Hhd]). rewrite (li_view _ _ _ _ _ Li), Hhd.
  destruct (log_history _ _ _ _ _ _ _ _ I Ot Ho next_wal Hf Hc). split; [done|]. split; [done|].
  unfold zlen. lia.
Qed.

(** ** The RUN *)

Lemma next_run e :
  EstablishWal e ∈ i_effects (s_interp s') →
  ∃ w, wal_body w ≠ Fence ∧ encoded_wal_batch e = wal_batch w ∧ encoded_wal_bytes e = wal_bytes w ∧
    coord_get (wal_batch w) = coord_get (w_durable_batch (s_machine s')) + 1 ∧
    put_ok c h pid (wal_key w) (wal_bytes w).
Proof using HL LW SL I O L Hatt Hobs Hr H.
  intros He. destruct (so_opened _ _ _ _ O) as (t & Ot). pose proof next_inv as I'.
  destruct (run_outstanding _ _ _ I' He) as (f & facts & Hf & (wf & Hs & ->) & Hfacts & Hone).
  pose proof (core_flight _ (inv_core _ (sys_machine _ _ I'))) as Hfl. unfold flight_ok in Hfl.
  rewrite Hf in Hfl. destruct Hfl as [Hb _]. destruct next_view as (Hv & Hle & _).
  rewrite (li_view _ _ _ _ _ (sys_linked _ _ I')) in Hv. cbn [fst snd] in *.
  eexists. split; [|split; [|split; [|split]]].
  3: reflexivity.
  - done.
  - done.
  - exact Hb.
  - eapply (run_put c h pid t (sv_recovery v) _ wf); try done; [by rewrite Hs|].
    intros w0 Hput Hb0 Heq. destruct (next_runs w0 Hput Hb0) as [Hlt|(e' & He' & Eb & Ey)].
    + cbn [wal_batch] in Heq. rewrite Heq in Hlt. lia.
    + rewrite (Hone e' He') in Ey. by apply wal_bytes_inj in Ey.
Qed.

Lemma run_asked pid' w :
  Put pid' (wal_key w) (wal_bytes w) ∈ i_effects (s_interp s') ≫= service_requests pid →
  pid' = pid ∧ ∃ e, EstablishWal e ∈ i_effects (s_interp s') ∧ encoded_wal_batch e = wal_batch w ∧
    encoded_wal_bytes e = wal_bytes w.
Proof.
  intros (e & Hin & He)%list_elem_of_bind. destruct e as [e|input|t e|input]; cbn [service_requests] in Hin.
  - apply list_elem_of_singleton, put_inj in Hin as (-> & Hk & Hy). apply wal_spelling_inj in Hk. eauto.
  - apply list_elem_of_fmap in Hin as (t & (_ & Hk & _)%put_inj & _). by apply wal_table_keys in Hk.
  - apply list_elem_of_singleton, put_inj in Hin as (_ & Hk & _). symmetry in Hk.
    by apply seal_wal_keys in Hk.
  - by apply not_elem_of_nil in Hin.
Qed.

Lemma next_runs_unique :
  runs_unique (cl_requests c ++ (i_effects (s_interp s') ≫= service_requests pid)).
Proof using HL LW SL I O L Hatt Hobs Hr H.
  assert (∀ w, Put pid (wal_key w) (wal_bytes w) ∈
      cl_requests c ++ (i_effects (s_interp s') ≫= service_requests pid) → wal_body w ≠ Fence →
    coord_get (wal_batch w) ≤ coord_get (w_durable_batch (s_machine s')) ∧
      Put pid (wal_key w) (wal_bytes w) ∈ cl_requests c ∨
    ∃ e, EstablishWal e ∈ i_effects (s_interp s') ∧ encoded_wal_bytes e = wal_bytes w ∧
      coord_get (wal_batch w) = coord_get (w_durable_batch (s_machine s')) + 1) as Hcase.
  { assert (∀ e w, EstablishWal e ∈ i_effects (s_interp s') → encoded_wal_batch e = wal_batch w →
      coord_get (wal_batch w) = coord_get (w_durable_batch (s_machine s')) + 1) as Hnext.
    { intros e w He Eb. destruct (next_run e He) as (w' & _ & Eb' & _ & ? & _). congruence. }
    intros w [Hin|Hin]%elem_of_app Hb.
    - destruct (next_runs w Hin Hb) as [?|(e & He & Eb & Ey)]; [by left|right]. eauto.
    - apply run_asked in Hin as (_ & e & He & Eb & Ey). right. eauto. }
  intros pid1 w w' Hw Hw' Hb Hb' Heq. destruct (decide (pid1 = pid)) as [->|Hne].
  - destruct (Hcase w Hw Hb) as [[Hle Hin]|(e & He & Ey & Hlt)],
      (Hcase w' Hw' Hb') as [[Hle' Hin']|(e' & He' & Ey' & Hlt')].
    + by apply (si_runs _ _ I pid).
    + rewrite Heq in Hle. lia.
    + rewrite Heq in Hlt. lia.
    + destruct (run_outstanding _ _ _ next_inv He) as (f & facts & _ & _ & _ & Hone).
      rewrite (Hone e' He'), Ey in Ey'. by apply wal_bytes_inj in Ey'.
  - assert (∀ w, Put pid1 (wal_key w) (wal_bytes w) ∈
      cl_requests c ++ (i_effects (s_interp s') ≫= service_requests pid) →
      Put pid1 (wal_key w) (wal_bytes w) ∈ cl_requests c) as Hold.
    { intros w1 [?|[? _]%run_asked]%elem_of_app; done. }
    apply (si_runs _ _ I pid1); auto.
Qed.

(** ** The tables *)

(** A table this step asks for anew carries a fresh attempt of this process's claim. *)
Lemma table_asked pid' k bytes :
  Put pid' (TableKey_display k) bytes ∈ i_effects (s_interp s') ≫= service_requests pid →
  pid' = pid ∧ (Put pid' (TableKey_display k) bytes ∈ cl_requests c ∨
    ∃ input t, PrepareCheckpoint input ∈ i_effects (s_interp s') ∧ t ∈ written_tables input ∧
      TableKey_display k = TableKey_display (table_key t) ∧ bytes = table_bytes t ∧
      ticket_attempt (input_ticket input) =
        mk_attempt (claim_generation (recovery_claim (sv_recovery v)))
          (w_checkpoint_attempt (s_machine (sv_system v))) ∧
      w_checkpoint_attempt (s_machine s') = w_checkpoint_attempt (s_machine (sv_system v)) + 1).
Proof using HL LW SL O L Hatt Hobs Hr.
  intros (e & Hin & He)%list_elem_of_bind.
  assert (pid' = pid ∧ ∃ input t, e = PrepareCheckpoint input ∧ t ∈ written_tables input ∧
    TableKey_display k = TableKey_display (table_key t) ∧ bytes = table_bytes t)
    as (-> & input & t & -> & Ht & Hk & Hy).
  { destruct e as [e|input|t e|input]; cbn [service_requests] in Hin.
    - apply list_elem_of_singleton, put_inj in Hin as (_ & Hk & _). symmetry in Hk.
      by apply wal_table_keys in Hk.
    - apply list_elem_of_fmap in Hin as (t & (-> & Hk & Hy)%put_inj & Ht). eauto 10.
    - apply list_elem_of_singleton, put_inj in Hin as (_ & Hk & _). symmetry in Hk.
      by apply seal_table_keys in Hk.
    - by apply not_elem_of_nil in Hin. }
  split; [done|]. destruct next_effects as (_ & Hnew & _).
  destruct (Hnew _ He) as [Hold|[Hn Ha]]; [left; by eapply (so_asked _ _ _ _ O)|right].
  exists input, t. split_and!; try done; [|by apply (Ha input)].
  inversion Hn as [|? Hat| |]; subst. rewrite Hat.
  by rewrite (li_claim _ _ _ _ _ (sys_linked _ _ step_inv)).
Qed.

Lemma next_input input : PrepareCheckpoint input ∈ i_effects (s_interp s') → input_ok input.
Proof using HL LW SL O L Hatt Hobs Hr.
  intros He. destruct (so_opened _ _ _ _ O) as (t & [R _ _]).
  destruct (reachable_lineage _ _ _ _ (recovered_handoff _ _ _ R (so_buffer _ _ _ _ O))
    (recovered_base_ok _ _ R) next_reach) as (log & _ & Ln).
  by apply (ln_prepare _ _ _ _ Ln).
Qed.

(** A fresh table: its key, and what the key says. *)
Lemma fresh_key input t :
  PrepareCheckpoint input ∈ i_effects (s_interp s') → t ∈ written_tables input →
  ticket_attempt (input_ticket input) =
    mk_attempt (claim_generation (recovery_claim (sv_recovery v)))
      (w_checkpoint_attempt (s_machine (sv_system v))) →
  table_key_widths (table_key t) ∧
  table_claim (table_key t) = coord_get (claim_generation (recovery_claim (sv_recovery v))) ∧
  table_counter (table_key t) = w_checkpoint_attempt (s_machine (sv_system v)).
Proof using HL LW LS LD LG SL SZ SS DDL DLL O L Hatt Hobs Hr.
  intros He Ht Hat. destruct (written_fresh input t (next_input input He) Ht) as (Ha & Ho & _).
  unfold table_key_widths, table_claim, table_counter. rewrite Ha, Hat. cbn [owner_claim local_counter].
  pose proof (core_attempt _ (inv_core _ (sys_machine _ _ step_inv))). split_and!; try done; lia.
Qed.

(** No request of the cluster names a fresh table. *)
Lemma fresh_unasked input t pid' bytes :
  PrepareCheckpoint input ∈ i_effects (s_interp s') → t ∈ written_tables input →
  ticket_attempt (input_ticket input) =
    mk_attempt (claim_generation (recovery_claim (sv_recovery v)))
      (w_checkpoint_attempt (s_machine (sv_system v))) →
  Put pid' (TableKey_display (table_key t)) bytes ∉ cl_requests c.
Proof using HL LW LS LD LG SL SZ SS DDL DLL I O L Hatt Hobs Hr.
  intros He Ht Hat Hput. destruct (fresh_key input t He Ht Hat) as (Hw & Hc & Hn).
  destruct (so_opened _ _ _ _ O) as (tr & Ot).
  destruct (put_ok_table_inv _ _ _ _ _ (si_puts _ _ I _ _ _ Hput)) as (k & Hk & Hwk & Ha).
  apply table_display_inj in Hk; [|done..]. subst k. rewrite Hc, (opens_authority _ _ _ _ _ Ot) in Ha.
  injection Ha as ->. pose proof (lo_tables _ _ _ _ L _ _ Hput Hw). lia.
Qed.

Lemma next_tables_unique :
  tables_unique (cl_requests c ++ (i_effects (s_interp s') ≫= service_requests pid)).
Proof using HL LW LS LD LG SL SZ SS DDL DLL I O L Hatt Hobs Hr.
  intros p1 p2 o b b' H1 H2. unfold table_spelling in *.
  assert (∀ p b, Put p (TableKey_display (mk_table_key o)) b ∈
    cl_requests c ++ (i_effects (s_interp s') ≫= service_requests pid) →
    Put p (TableKey_display (mk_table_key o)) b ∈ cl_requests c ∨
    ∃ input t, PrepareCheckpoint input ∈ i_effects (s_interp s') ∧ t ∈ written_tables input ∧
      TableKey_display (mk_table_key o) = TableKey_display (table_key t) ∧ b = table_bytes t ∧
      ticket_attempt (input_ticket input) =
        mk_attempt (claim_generation (recovery_claim (sv_recovery v)))
          (w_checkpoint_attempt (s_machine (sv_system v)))) as Hcase.
  { intros p bytes [?|[_ [?|(input & t & ? & ? & ? & ? & ? & _)]]%table_asked]%elem_of_app; auto. right. eauto 10. }
  destruct (Hcase _ _ H1) as [O1|(i1 & t1 & E1 & T1 & K1 & -> & A1)],
    (Hcase _ _ H2) as [O2|(i2 & t2 & E2 & T2 & K2 & -> & A2)].
  - by eapply (si_tables _ _ I p1 p2 o).
  - rewrite K2 in O1. by destruct (fresh_unasked i2 t2 _ _ E2 T2 A2 O1).
  - rewrite K1 in O2. by destruct (fresh_unasked i1 t1 _ _ E1 T1 A1 O2).
  - destruct (preparation_outstanding _ _ _ next_inv E1) as (_ & _ & Hone).
    rewrite (Hone _ E2) in *. destruct (fresh_key i1 t1 E1 T1 A1) as (W1 & _).
    destruct (fresh_key i1 t2 E1 T2 A1) as (W2 & _). rewrite K2 in K1.
    apply table_display_inj in K1; [|done..].
    destruct (written_fresh i1 t1 (next_input i1 E1) T1) as (_ & _ & _ & Hinj).
    by rewrite (Hinj t2 T2 K1).
Qed.

Lemma table_put_ok k bytes :
  Put pid (TableKey_display k) bytes ∈ i_effects (s_interp s') ≫= service_requests pid →
  put_ok c h pid (TableKey_display k) bytes.
Proof using HL LW LS LD LG SL SZ SS DDL DLL I O L Hatt Hobs Hr.
  intros [_ [?|(input & t & E & T & -> & -> & A & _)]]%table_asked; [by apply (si_puts _ _ I)|].
  destruct (fresh_key input t E T A) as (W & Hc & _). destruct (so_opened _ _ _ _ O) as (tr & Ot).
  constructor; [done|]. rewrite Hc. by eapply opens_authority.
Qed.

(** ** The Seal *)

Lemma next_publication t e :
  PublishAuthority t e ∈ i_effects (s_interp s') →
  effect_ok c (PublishAuthority t e) ∧
  put_ok c h pid (seal_spelling (seal_generation (authority_seal e))) (authority_bytes e).
Proof using HL RLL LW LS LD LG SL SZ SS DDL DLL I O L Hatt Hobs Hr H.
  intros He. destruct next_effects as (_ & Hnew & _). destruct (Hnew _ He) as [Hold|[Hn _]].
  { split; [by apply (so_effects _ _ _ _ O)|]. apply (si_puts _ _ I).
    apply (so_asked _ _ _ _ O _ _ Hold). by apply list_elem_of_singleton. }
  inversion Hn as [| |t' p Hev Hck|]; subst. pose proof step_inv as Is.
  destruct (hear_prepared H t p Hev Hck) as (input & Hin & <- & Hp).
  destruct (so_opened _ _ _ _ O) as (tr & Ot). pose proof (opens_recovered _ _ _ _ _ Ot) as R.
  destruct (reachable_lineage _ _ _ _ (recovered_handoff _ _ _ R (so_buffer _ _ _ _ O))
    (recovered_base_ok _ _ R) (lo_reach _ _ _ _ L)) as (log & D & Ln).
  destruct (ln_prepare _ _ _ _ Ln input Hin) as (Hok & Hsnap & Hcov).
  destruct (preparation_outstanding _ _ _ Is Hin) as (_ & Hsrc & _).
  pose proof (core_checkpoint _ (inv_core _ (sys_machine _ _ Is))) as Hck'. unfold checkpoint_ok in Hck'.
  rewrite Hck in Hck'. destruct Hck' as (_ & _ & _ & Hcl).
  rewrite (li_claim _ _ _ _ _ (sys_linked _ _ Is)) in Hcl.
  pose proof (prepare_encoded _ _ _ _ Hp) as He'. apply encoded_authority in He' as [Ea Ed].
  split; [by rewrite <- Ea in Ed|]. rewrite Ea. constructor; [done|].
  eapply (publication_request c h pid tr (sv_recovery v)); try done; [apply L|..].
  - rewrite Hsrc. apply (lo_seal _ _ _ _ L).
  - intros t1 Ht. apply (so_asked _ _ _ _ O _ _ Hin). by apply list_elem_of_fmap_2.
Qed.

Lemma next_seal : holds_claim c pid (w_seal (s_machine s')).
Proof using HL LW SL O L Hatt Hobs Hr H.
  destruct next_effects as (_ & _ & [_ _ [->|(t & p & Hev & Hck & ->)] _]); [apply L|].
  by apply (hear_published H t p).
Qed.

Lemma next_effect_ok e : e ∈ i_effects (s_interp s') → effect_ok c e.
Proof using HL RLL LW LS LD LG SL SZ SS DDL DLL I O L Hatt Hobs Hr H.
  intros He. destruct e as [e|input|t e|input].
  - destruct (next_run e He) as (w & ? & ? & ? & _). by exists w.
  - done.
  - by apply next_publication.
  - destruct next_effects as (_ & Hnew & _). destruct (Hnew _ He) as [Hold|[Hn _]];
      [by apply (so_effects _ _ _ _ O)|].
    inversion Hn as [| | |t p Hev Hck Heq]. destruct (hear_published H t p Hev Hck) as [Hs _].
    exists (prepared_successor p). split; [done|]. cbn [collection_cut].
    pose proof (core_checkpoint _ (inv_core _ (sys_machine _ _ step_inv))) as Hok.
    unfold checkpoint_ok in Hok. rewrite Hck in Hok. destruct Hok as [(_ & Hcut & _) Hp].
    apply PreparedCheckpoint_new_Ret in Hp as (_ & _ & _ & _ & Hrep & _). cbn [collection_source].
    split; [lia|]. unfold seal_cut. by rewrite Hrep.
Qed.

Lemma next_request_ok q :
  q ∈ i_effects (s_interp s') ≫= service_requests pid → request_ok c h pid q.
Proof using HL RLL LW LS LD LG SL SZ SS DDL DLL I O L Hatt Hobs Hr H.
  intros Hq. pose proof Hq as (e & Hin & He)%list_elem_of_bind.
  destruct e as [e|input|t e|input]; cbn [service_requests] in Hin.
  - apply list_elem_of_singleton in Hin as ->. split; [done|].
    destruct (next_run e He) as (w & _ & -> & -> & _ & ?). done.
  - apply list_elem_of_fmap in Hin as (t & -> & _). split; [done|]. by apply table_put_ok.
  - apply list_elem_of_singleton in Hin as ->. split; [done|]. by apply (next_publication t).
  - by apply not_elem_of_nil in Hin.
Qed.

(** A step that goes on. *)
Lemma step_live :
  let c' := serve c pid v s' None in
  store_inv c' h ∧ grows c h c' h ∧ service_ok c' h pid (running v s' None).
Proof using HL RLL LW LS LD LG SL SZ SS DDL DLL I O L Hatt Hobs Hr H.
  intros c'. assert (grows c h c' h) as G by apply with_proc_grows.
  split; [apply ask_keeps; [done|apply next_request_ok|apply next_runs_unique|apply next_tables_unique]|].
  split; [done|]. destruct (so_opened _ _ _ _ O) as (t & Ot). pose proof (sys_linked _ _ next_inv) as Li.
  destruct next_view as (Hv & Hle & Hlow). split.
  - exists t. by eapply opens_grows.
  - apply O.
  - intros e He. eapply effect_ok_grows; [done|]. by apply next_effect_ok.
  - intros e q He Hq. apply elem_of_app. right. apply list_elem_of_bind. by exists e.
  - intros effect ev Hin. eapply service_told_grows; [done|]. by apply (so_told _ _ _ _ O).
  - eexists. split; [split; [exact Hlow|exact Hle]|]. split; [exact Hv|]. simpl.
    rewrite (li_view _ _ _ _ _ Li). apply (li_sent _ _ _ _ _ Li).
  - intros _. split; simpl.
    + apply next_reach.
    + eapply holds_grows; [done|apply next_seal].
    + apply next_wal.
    + intros w [Hp|Hp]%elem_of_app Hb; [by apply next_runs|]. right.
      apply run_asked in Hp as (_ & e & ?). by exists e.
    + intros key bytes Hp Hw. destruct next_effects as (_ & _ & [_ _ _ Ha]).
      apply elem_of_app in Hp as [Hp|Hp]; [pose proof (lo_tables _ _ _ _ L _ _ Hp Hw); lia|].
      apply table_asked in Hp as (_ & [Hp|(input & t1 & E & T & Hk & _ & A & A')]);
        [pose proof (lo_tables _ _ _ _ L _ _ Hp Hw); lia|].
      destruct (fresh_key input t1 E T A) as (W & _ & Hn). apply table_display_inj in Hk; [|done..].
      subst key. lia.
Qed.

End stepped.

(** * Steps that end the Writer *)

Lemma service_puts pid e q : q ∈ service_requests pid e → ∃ key bytes, q = Put pid key bytes.
Proof.
  destruct e; cbn [service_requests].
  - intros ->%list_elem_of_singleton. by eexists _, _.
  - intros (t & -> & _)%list_elem_of_fmap. by eexists _, _.
  - intros ->%list_elem_of_singleton. by eexists _, _.
  - by intros ?%not_elem_of_nil.
Qed.

(** Asking again for what was asked changes nothing. *)
Lemma ask_again_keeps c h pid p effects :
  store_inv c h → (∀ e q, e ∈ effects → q ∈ service_requests pid e → q ∈ cl_requests c) →
  store_inv (with_proc c pid p (effects ≫= service_requests pid)) h.
Proof.
  intros I Hold. assert (∀ q, q ∈ effects ≫= service_requests pid → q ∈ cl_requests c) as Hq.
  { intros q (e & ? & ?)%list_elem_of_bind. eauto. }
  assert (∀ q, q ∈ cl_requests c ++ (effects ≫= service_requests pid) → q ∈ cl_requests c) as Hall.
  { intros q [?|?]%elem_of_app; auto. }
  apply ask_keeps; [done|..].
  - intros q Hin. pose proof Hin as (e & He & _)%list_elem_of_bind.
    destruct (service_puts _ _ _ He) as (key & bytes & ->). split; [done|]. by apply (si_puts _ _ I), Hq.
  - intros pid1 w w' ?%Hall ?%Hall. by apply (si_runs _ _ I pid1).
  - intros p1 p2 o b b' H1%Hall H2%Hall. by eapply (si_tables _ _ I p1 p2 o).
Qed.

Lemma step_ends c h pid v now event s1 s' x :
  store_inv c h → service_ok c h pid v → live_ok c h pid v →
  w_checkpoint_attempt (s_machine (sv_system v)) < u64_max → observes (sv_system v) event s1 →
  hears c h pid v event s1 → react s1 now event = Ret (s', Some x) →
  let c' := serve c pid v s' (Some x) in
  store_inv c' h ∧ grows c h c' h ∧ service_ok c' h pid (running v s' (Some x)).
Proof using HL LW SL.
  intros I O L Hatt Hobs H Hr c'. assert (grows c h c' h) as G by apply with_proc_grows.
  pose proof (step_inv c h pid v O L) as Is.
  destruct (step_effects _ _ _ _ _ _ _ Is Hatt Hobs Hr) as (_ & Hnew & _).
  assert (∀ e, e ∈ i_effects (s_interp s') → e ∈ sv_effects v) as Hold.
  { intros e [He|[? _]]%Hnew; [|done]. by eapply observed_effects. }
  split; [apply ask_again_keeps; [done|]; intros e q He%Hold; by apply (so_asked _ _ _ _ O)|].
  split; [done|]. destruct (so_opened _ _ _ _ O) as (t & Ot). split; try done.
  - exists t. by eapply opens_grows.
  - apply O.
  - intros e He%Hold. eapply effect_ok_grows; [done|]. by apply (so_effects _ _ _ _ O).
  - intros e q He%Hold Hq. apply G. by eapply (so_asked _ _ _ _ O).
  - intros effect ev Hin. eapply service_told_grows; [done|]. by apply (so_told _ _ _ _ O).
  - destruct (react_ok _ _ now event s1 Is Hatt Hobs) as (s2 & x2 & Hr2 & Hrec & Hwal & Hx).
    rewrite Hr in Hr2. injection Hr2 as <- <-.
    assert (s_interp s' = s_interp s1 → serves h (running v s' (Some x))) as Hsame.
    { intros Ei. destruct (so_view _ _ _ _ O) as (n & Hn & Hf & Ha). exists n. simpl. rewrite Ei, Hrec.
      assert (i_view (s_interp s1) = i_view (s_interp (sv_system v)) ∧
        i_sent (s_interp s1) = i_sent (s_interp (sv_system v)) ∧
        s_received (sv_system v) ⊆ s_received s1) as (-> & -> & Hsub).
      { destruct Hobs; simpl; split_and!; try done. intros env Henv.
        apply elem_of_app. by left. }
      split; [done|]. split; [done|]. by eapply answered_more. }
    destruct x; [|by apply Hsame..]. destruct Hx as (Li & _).
    destruct (li_log _ _ _ _ _ Li) as (log & [Ho Hf Hc _]). rewrite Hwal in Ho.
    destruct (log_history _ _ _ _ _ _ _ _ I Ot Ho (hear_wal _ _ _ _ _ _ H) Hf Hc) as [Hv Hle].
    eexists. split; [split; [|exact Hle]; unfold zlen; simpl; lia|]. simpl.
    rewrite (li_view _ _ _ _ _ Li). split; [exact Hv|apply (li_sent _ _ _ _ _ Li)].
Qed.

(** * What a Writer hears *)

Lemma hears_local c h pid v event s1 :
  live_ok c h pid v → observes (sv_system v) event s1 → local_event event → hears c h pid v event s1.
Proof.
  intros L Ho Hl. assert (s_wal s1 = s_wal (sv_system v)) as Hw.
  { destruct Ho as [|e ev before after _ _ Ha| | |]; try done. by destruct Ha. }
  split; [rewrite Hw; apply L|by intros t p ->..].
Qed.

Lemma hears_effect c h pid v effect event before after :
  service_ok c h pid v → live_ok c h pid v → sv_effects v = before ++ effect :: after →
  (effect, event) ∈ sv_learned v → answers (i_aborted (s_interp (sv_system v))) effect event →
  hears c h pid v event (taken (sv_system v) before after effect event).
Proof using HL LW SL.
  intros O L Hsplit Hl Ha. pose proof (so_told _ _ _ _ O _ _ Hl) as Ht.
  assert (effect ∈ sv_effects v) as He by (rewrite Hsplit; apply elem_of_app; right; by left).
  split.
  - apply Forall_app. split; [apply L|]. unfold made_durable.
    destruct effect; try constructor. destruct event as [| | | |b [[]|]| | | |]; try constructor; [done|constructor].
  - intros t p -> Hck. inversion Ha as [|input suc cand prep Hnew| | | | |]; subst. exists input. done.
  - intros t p -> Hck. inversion Ha as [| | | | |t' cand res|]; subst.
    pose proof (step_inv c h pid v O L) as Is.
    destruct (publication_outstanding _ _ _ _ Is He) as (p' & Hck' & ->).
    rewrite Hck in Hck'. injection Hck' as <-.
    pose proof (core_checkpoint _ (inv_core _ (sys_machine _ _ Is))) as Hok.
    unfold checkpoint_ok in Hok. rewrite Hck in Hok. destruct Hok as [_ Hp].
    apply PreparedCheckpoint_new_Ret in Hp as (_ & _ & _ & _ & _ & _ & Hs). by rewrite <- Hs.
Qed.

End step.
