(* ===== verification/ClusterSafety.v ===== *)
(** Safety of many processes on one store.

    The invariant holds in every reachable cluster, whatever the interleaving, however
    late or often requests land, and wherever processes stop: there is one history, every
    Writer ever opened serves a prefix of it under its own claim, a later Writer has every
    reply of an earlier one in what it recovered, and the tables a stored Seal names fold
    to the history up to its cut. *)

From S2P Require Import Prelude OrdMap Text Domain Coordinates Partition Seal Wal Forest.
From S2P Require Import ForestTheory Archive Spelling Sst Writer WriterSafety WriterSystem.
From S2P Require Import Bootstrap BootstrapSafety Recovery ObjectStore Stores StoreTheory Common.
From S2P Require Import BootstrapRun Checkpoint CheckpointTheory CheckpointSafety.
From S2P Require Import CheckpointLink CheckpointRun Cluster ClusterInv ClusterStore ClusterBoot.
From S2P Require Import ClusterWriter ClusterServe ClusterStep.

Section safety.
  Context {J : Jiff} {HP : Heap} {HL : HeapLaws} {RL : RowLayout} {RLL : RowLayoutLaws}.
  Context {RW : Rkyv ArchivedWalObject} {LW : RkyvLaws ArchivedWalObject} {SL : WalSizeLaw}.
  Context {RS : Rkyv ArchivedSeal} {LS : RkyvLaws ArchivedSeal}.
  Context {RD : Rkyv (SstArchive ArchivedDirectoryRow)} {LD : RkyvLaws (SstArchive ArchivedDirectoryRow)}.
  Context {RG : Rkyv (SstArchive ArchivedLedgerRow)} {LG : RkyvLaws (SstArchive ArchivedLedgerRow)}.
  Context {SZ : SstSizeLaw} {SS : SealSizeLaw}.
  Context {DD : MapDiff StreamPath DirectoryEntry} {DL : MapDiff StreamUid StreamRecord}.
  Context {DDL : MapDiffLaws StreamPath DirectoryEntry} {DLL : MapDiffLaws StreamUid StreamRecord}.

(** * The invariant *)

Definition proc_ok (c : Cluster) (h : list WalObject) (pid : nat) (p : Process) : Prop :=
  match p with
  | Booting b => boot_ok c h pid b
  | Serving v => service_ok c h pid v
  end.

Record cluster_inv (c : Cluster) (h : list WalObject) : Prop := {
  ci_store : store_inv c h;
  ci_procs : ∀ pid p, cl_procs c !! pid = Some p → proc_ok c h pid p;
  ci_known : ∀ pid key bytes, Put pid key bytes ∈ cl_requests c → is_Some (cl_procs c !! pid)
}.

Lemma proc_ok_grows c h c' h' pid p :
  grows c h c' h' →
  (∀ key bytes, Put pid key bytes ∈ cl_requests c' → Put pid key bytes ∈ cl_requests c) →
  proc_ok c h pid p → proc_ok c' h' pid p.
Proof. destruct p; [apply boot_ok_grows|apply service_ok_grows]. Qed.

Lemma init_inv : cluster_inv cluster_init [].
Proof.
  assert (∀ s, ¬ sealed cluster_init s) as Hno.
  { intros s (b & Hb & _). simpl in Hb. by rewrite lookup_empty in Hb. }
  assert (∀ r : Request, r ∉ cl_requests cluster_init) as Hreq by (intros r; apply not_elem_of_nil).
  split; [split|..].
  - split; [done|exists None, forest_empty; constructor|..].
    + intros b bytes. simpl. by rewrite lookup_empty.
    + by intros w ?%not_elem_of_nil.
    + by intros w ?%not_elem_of_nil.
  - split; [|by intros s ?%Hno..|].
    + intros g bytes. simpl. by rewrite lookup_empty.
    + intros g pid. simpl. by rewrite lookup_empty.
  - split; [|by intros pid key bytes ?%Hreq|by intros key ?%Hreq|..].
    + intros key bytes. simpl. by rewrite lookup_empty.
    + by intros pid w w' ?%Hreq.
    + by intros w ?%not_elem_of_nil.
    + by intros p1 p2 o b b' ?%Hreq.
  - intros pid p. simpl. by rewrite lookup_empty.
  - by intros pid key bytes ?%Hreq.
Qed.

(** ** Frames *)

(** A step of one process. *)
Lemma process_step c h c' pid p :
  cluster_inv c h → store_inv c' h → grows c h c' h → cl_procs c' = <[pid := p]> (cl_procs c) →
  (∀ pid' key bytes, Put pid' key bytes ∈ cl_requests c' → pid' = pid ∨ Put pid' key bytes ∈ cl_requests c) →
  proc_ok c' h pid p → cluster_inv c' h.
Proof.
  intros [_ Hp Hk] I G Hprocs Hreq Hok. split; [done|..]; rewrite Hprocs.
  - intros pid' p' [[<- <-]|[Hne Hl]]%lookup_insert_Some; [done|].
    eapply proc_ok_grows; [done| |by apply Hp]. intros key bytes [?|?]%Hreq; [congruence|done].
  - intros pid' key bytes [->|Hin]%Hreq; [rewrite lookup_insert_eq; by eexists|].
    destruct (decide (pid' = pid)) as [->|Hne]; [rewrite lookup_insert_eq; by eexists|].
    rewrite lookup_insert_ne by done. by eapply Hk.
Qed.

(** A change of the store. *)
Lemma landing_step c h d h' :
  cluster_inv c h → store_inv (with_store c d) h' → grows c h (with_store c d) h' →
  cluster_inv (with_store c d) h'.
Proof.
  intros [_ Hp Hk] I G. split; [done| |done]. intros pid p Hl.
  eapply proc_ok_grows; [done|done|]. by apply Hp.
Qed.

Lemma more_requests c pid p more pid' key bytes :
  (∀ q, q ∈ more → (∃ key bytes, q = Put pid key bytes) ∨ (∃ key, q = Remove key)) →
  Put pid' key bytes ∈ cl_requests (with_proc c pid p more) → pid' = pid ∨ Put pid' key bytes ∈ cl_requests c.
Proof.
  intros Hmore [?|Hin]%elem_of_app; [by right|]. apply Hmore in Hin as [(k & b & [= ->])|(k & ?)]; [by left|done].
Qed.

(** * Bootstraps *)

Lemma boot_puts pid e q : q ∈ boot_requests pid e → ∃ key bytes, q = Put pid key bytes.
Proof.
  destruct e; cbn [boot_requests]; intros Hq;
    first [by apply not_elem_of_nil in Hq|apply list_elem_of_singleton in Hq as ->; by eexists _, _].
Qed.

Lemma booting_step c h c' pid b :
  cluster_inv c h → cl_procs c !! pid = Some (Booting b) → bt_answer b = None →
  (∃ event, learns (cl_store c) (bt_effect b) event ∧
     c' = with_proc c pid (Booting (answered_with b event)) []) ∨
  (∃ e, bt_effect b = PublishClaim e ∧
     cl_store c !! seal_spelling (seal_generation (authority_seal e)) = None ∧
     c' = with_authored c pid (Booting (answered_with b (ClaimPublished Authored)))
       (authority_seal e) (authority_bytes e)) →
  cluster_inv c' h ∧ grows c h c' h.
Proof using HL LW LS.
  intros C Hl Ha Hc. pose proof (ci_store _ _ C) as I. pose proof (ci_procs _ _ C _ _ Hl) as O.
  destruct Hc as [(event & Hlearn & ->)|(e & He & Hk & ->)].
  - assert (grows c h (with_proc c pid (Booting (answered_with b event)) []) h) as G by apply with_proc_grows.
    destruct (learns_told _ _ _ _ _ I O Hlearn) as [Hcomp Ht]. split; [|done].
    eapply (process_step c h _ pid); try done; [by apply idle_keeps|..].
    + intros pid' key bytes. apply more_requests. by intros q ?%not_elem_of_nil.
    + eapply answered_ok; [done|done|apply (right_id_L [] (++))|done|]. by eapply boot_told_grows.
  - destruct (claimed_keeps _ _ _ _ _ I O He Hk) as (I' & G & O'). split; [|done].
    eapply (process_step c h _ pid); try done. by right.
Qed.

Lemma start_step c h pid partition state effect :
  cluster_inv c h → cl_procs c !! pid = None →
  bootstrap_handle BootstrapMachine_new (BootstrapStarted partition) =
    Ret (mk_bootstrap (Some state), StepEffect effect) →
  let c' := with_proc c pid (Booting (mk_boot trace_empty state effect None)) [] in
  cluster_inv c' h ∧ grows c h c' h.
Proof.
  intros C Hl Hh c'. assert (grows c h c' h) as G by apply with_proc_grows. split; [|done].
  eapply (process_step c h c' pid); try done.
  - apply idle_keeps, C.
  - intros pid' key bytes. apply more_requests. by intros q ?%not_elem_of_nil.
  - eapply start_ok; [|done]. intros key bytes [p Hp]%(ci_known _ _ C). congruence.
Qed.

Lemma boot_step c h pid b event state effect :
  cluster_inv c h → cl_procs c !! pid = Some (Booting b) → bt_answer b = Some event →
  bootstrap_handle (mk_bootstrap (Some (bt_state b))) event =
    Ret (mk_bootstrap (Some state), StepEffect effect) →
  let c' := with_proc c pid
    (Booting (mk_boot (extend_trace (bt_state b) event (bt_trace b)) state effect None))
    (boot_requests pid effect) in
  cluster_inv c' h ∧ grows c h c' h.
Proof using HL LW LS.
  intros C Hl Ha Hh c'.
  destruct (boot_step_keeps c h pid b event state effect (ci_store _ _ C) (ci_procs _ _ C _ _ Hl) Ha Hh)
    as (I & G & O). split; [|done].
  eapply (process_step c h c' pid); try done.
  intros pid' key bytes. apply more_requests. intros q Hq. left. by eapply boot_puts.
Qed.

(** * Writers *)

Lemma open_step c h pid b event m r interval buffer s :
  cluster_inv c h → cl_procs c !! pid = Some (Booting b) → bt_answer b = Some event →
  bootstrap_handle (mk_bootstrap (Some (bt_state b))) event = Ret (m, StepComplete r) →
  1 ≤ buffer ≤ WAL_ENCODED_BYTES_MAX → sys_init r interval buffer = Ret s →
  let c' := with_proc c pid (Serving (mk_service r interval buffer s [] [] None)) [] in
  cluster_inv c' h ∧ grows c h c' h.
Proof using HL LW LS.
  intros C Hl Ha Hh Hb Hs c'. assert (grows c h c' h) as G by apply with_proc_grows. split; [|done].
  pose proof (ci_procs _ _ C _ _ Hl) as O.
  destruct (boot_opens c h pid b event m r (ci_store _ _ C) O Ha Hh) as (t & Ot).
  eapply (process_step c h c' pid); try done; [apply idle_keeps, C|..].
  { intros pid' key bytes. apply more_requests. by intros q ?%not_elem_of_nil. }
  pose proof (sys_init_Ret _ _ _ _ Hs) as (_ & _ & Es & _ & _ & _ & _ & _ & Ei & Er & Ew).
  assert (∀ key bytes, Put pid key bytes ∈ cl_requests c' → quiet key bytes) as Hq.
  { intros key bytes Hp. simpl in Hp. rewrite (right_id_L [] (++)) in Hp. by apply (bo_quiet _ _ _ _ O). }
  assert (sv_effects (mk_service r interval buffer s [] [] None) = []) as He
    by (unfold sv_effects; simpl; by rewrite Ei).
  split; simpl; rewrite ?He; try done.
  - exists t. by eapply opens_grows.
  - by intros e ?%not_elem_of_nil.
  - by intros e q ?%not_elem_of_nil.
  - by intros effect ev ?%not_elem_of_nil.
  - destruct (opens_durable _ _ _ _ _ (ci_store _ _ C) Ot) as [Hf Hle].
    exists (coord_get (recovery_durable_batch r)). simpl. rewrite Ei. split; [lia|]. split; [done|].
    by intros x ?%not_elem_of_nil.
  - intros _. split; simpl; rewrite ?Es, ?Ew.
    + by apply reachable_init.
    + eapply holds_grows; [done|apply Ot].
    + constructor.
    + intros w [Hf _]%Hq Hb'. by destruct (Hb' (Hf w eq_refl eq_refl)).
    + intros key bytes [_ Hf]%Hq. by destruct (Hf key eq_refl).
Qed.

(** An answer to an effect of the Writer. *)
Lemma learning_ok c h c' pid v effect event :
  service_ok c h pid v → grows c h c' h → cl_requests c' = cl_requests c →
  service_told c' h pid effect event → service_ok c' h pid (learning v effect event).
Proof.
  intros O G Hr Ht. destruct (service_ok_grows c h c' h pid v G) as [H1 H2 H3 H4 H5 H6 H7];
    [by rewrite Hr|done|].
  split; try done.
  - intros e ev [?|[= -> ->]%list_elem_of_singleton]%elem_of_app; [by apply H5|done].
  - intros Hx. destruct (H7 Hx). by split.
Qed.

Lemma service_learns_told c h pid v effect event :
  store_inv c h → service_ok c h pid v → effect ∈ sv_effects v →
  service_learns (cl_store c) (sv_tables v) effect event → service_told c h pid effect event.
Proof using LW.
  intros I O He. destruct effect as [e|input|t e|input], event as [| | | |b [[]|]|t' []|t' [[]|]| |];
    try done; simpl.
  - intros Hs. destruct (so_effects _ _ _ _ O _ He) as (w & Hb & Eb & Ey). rewrite Eb, Ey in Hs.
    destruct (si_wal _ _ I _ _ Hs) as (w' & Hbw & Hy & Hw). apply wal_bytes_inj in Hy as <-.
    destruct Hw as [Hw|[? _]]; [|done]. by exists w.
  - intros (sent & Hp & _). unfold written_tables. by rewrite Hp.
Qed.

Lemma idle_step c h pid p v :
  cluster_inv c h → cl_procs c !! pid = Some p →
  (grows c h (with_proc c pid v []) h → proc_ok (with_proc c pid v []) h pid v) →
  cluster_inv (with_proc c pid v []) h ∧ grows c h (with_proc c pid v []) h.
Proof.
  intros C Hl Hok. assert (grows c h (with_proc c pid v []) h) as G by apply with_proc_grows.
  split; [|done]. eapply (process_step c h _ pid); try done; [apply idle_keeps, C| |by apply Hok].
  intros pid' key bytes. apply more_requests. by intros q ?%not_elem_of_nil.
Qed.

Lemma published_step c h pid v ticket e :
  cluster_inv c h → cl_procs c !! pid = Some (Serving v) → PublishAuthority ticket e ∈ sv_effects v →
  cl_store c !! seal_spelling (seal_generation (authority_seal e)) = None →
  let v' := learning v (PublishAuthority ticket e) (SealPublished ticket (Ok Authored)) in
  let c' := with_authored c pid (Serving v') (authority_seal e) (authority_bytes e) in
  cluster_inv c' h ∧ grows c h c' h.
Proof.
  intros C Hl He Hk v' c'. pose proof (ci_procs _ _ C _ _ Hl) as O.
  destruct (author_keeps c h pid (Serving v') (authority_seal e) (authority_bytes e) (ci_store _ _ C))
    as (I & G & Hh); [|by apply (so_effects _ _ _ _ O _ He)|done|].
  { apply (so_asked _ _ _ _ O _ _ He). by apply list_elem_of_singleton. }
  split; [|done]. eapply (process_step c h c' pid); try done; [by right|].
  by eapply (learning_ok c h c').
Qed.

Lemma removing_step c h pid v key :
  cluster_inv c h → cl_procs c !! pid = Some (Serving v) → remove_ok c h key →
  let c' := with_proc c pid (Serving v) [Remove key] in cluster_inv c' h ∧ grows c h c' h.
Proof.
  intros C Hl Hr c'. assert (grows c h c' h) as G by apply with_proc_grows. split; [|done].
  assert (∀ pid' k b, Put pid' k b ∈ cl_requests c' → Put pid' k b ∈ cl_requests c) as Hreq.
  { intros pid' k b [?|?%list_elem_of_singleton]%elem_of_app; done. }
  eapply (process_step c h c' pid); try done; [apply removes_keep; [apply C|done]|intros; right; by apply Hreq|].
  eapply (proc_ok_grows c h c' h); [done|apply Hreq|]. by apply (ci_procs _ _ C).
Qed.

(** What a collection deletes is covered by the Seal it collects behind. *)
Lemma collected_ok c h pid v input batch bytes w facts partition :
  store_inv c h → service_ok c h pid v → Collect input ∈ sv_effects v →
  coord_get batch ≤ coord_get (collection_cut input) → cl_store c !! wal_spelling batch = Some bytes →
  decode_wal partition batch bytes = Ret (Ok w) → wal_body w = Run facts →
  remove_ok c h (wal_spelling batch).
Proof using LW.
  intros I O He Hb Hs Hd Hw. destruct (si_wal _ _ I _ _ Hs) as (w' & <- & -> & Hin).
  apply decode_wal_own in Hd as ->. destruct Hin as [Hin|[Hf _]]; [|congruence].
  destruct (so_effects _ _ _ _ O _ He) as (s & Hsealed & Hcut).
  apply (remove_ok_wal c h w' facts); try done. exists s. split; [done|lia].
Qed.

Lemma serve_step c h pid v now event s1 s' exit :
  cluster_inv c h → cl_procs c !! pid = Some (Serving v) → sv_exit v = None →
  w_checkpoint_attempt (s_machine (sv_system v)) < u64_max → observes (sv_system v) event s1 →
  hears c h pid v event s1 → react s1 now event = Ret (s', exit) →
  cluster_inv (serve c pid v s' exit) h ∧ grows c h (serve c pid v s' exit) h.
Proof using HL RLL LW LS LD LG SL SZ SS DDL DLL.
  intros C Hl Hx Hatt Hobs Hh Hr. pose proof (ci_procs _ _ C _ _ Hl) as O.
  pose proof (ci_store _ _ C) as I. pose proof (so_live _ _ _ _ O Hx) as L.
  assert (store_inv (serve c pid v s' exit) h ∧ grows c h (serve c pid v s' exit) h ∧
    service_ok (serve c pid v s' exit) h pid (running v s' exit)) as (I' & G & O').
  { destruct exit as [x|]; [by eapply step_ends|by eapply step_live]. }
  split; [|done]. eapply (process_step c h _ pid); try done.
  intros pid' key bytes. apply more_requests. intros q (e & He & _)%list_elem_of_bind. left.
  by eapply service_puts.
Qed.

(** * Every step *)

Lemma cluster_step_inv c h c' :
  cluster_inv c h → cluster_step c c' → ∃ h', cluster_inv c' h' ∧ grows c h c' h'.
Proof using HL RLL LW LS LD LG SL SZ SS DDL DLL.
  intros C Hstep. pose proof (ci_store _ _ C) as I.
  destruct Hstep as [pid partition state effect Hn Hh|pid b event Hl Ha He|pid b e Hl Ha He Hk
    |pid b event state effect Hl Ha Hh|pid b event m r interval buffer s Hl Ha Hh Hb Hs
    |pid v effect event Hl He Hle|pid v input t Hl He Ht Hs|pid v ticket e Hl He Hk
    |pid v now event s1 s exit Hl Hx Hatt Hobs Hloc Hr|pid v now effect event before after s exit Hl Hx Hatt Hst Hsp Hle Hans Hr
    |pid v input batch bytes w facts Hl He Hb Hs Hd Hw|pid v input object Hl He Hd|pid key body Hput Hk|key Hrm].
  - exists h. by eapply start_step.
  - exists h. eapply booting_step; [done..|]. left. eauto.
  - exists h. eapply booting_step; [done..|]. right. eauto.
  - exists h. by eapply boot_step.
  - exists h. by eapply open_step.
  - exists h. eapply idle_step; [done..|]. intros G. pose proof (ci_procs _ _ C _ _ Hl) as O.
    eapply (learning_ok c h); [done|done|apply (right_id_L [] (++))|].
    eapply service_told_grows; [done|]. by eapply service_learns_told.
  - exists h. eapply idle_step; [done..|]. intros G. pose proof (ci_procs _ _ C _ _ Hl) as O.
    destruct (service_ok_grows c h _ h pid v G ltac:(simpl; by rewrite (right_id_L [] (++))) O)
      as [H1 H2 H3 H4 H5 H6 H7]. split; try done. intros Hx. destruct (H7 Hx). by split.
  - exists h. by eapply published_step.
  - exists h. pose proof (ci_procs _ _ C _ _ Hl) as O.
    eapply serve_step; try done. eapply hears_local; [by apply O|done..].
  - exists h. pose proof (ci_procs _ _ C _ _ Hl) as O.
    eapply serve_step; try done; [by eapply observes_effect|].
    eapply hears_effect; try done. by apply O.
  - exists h. apply removing_step; [done..|]. pose proof (ci_procs _ _ C _ _ Hl) as O.
    eapply collected_ok; try done. lia.
  - exists h. apply removing_step; [done..|]. constructor.
  - destruct (land_keeps c h pid key body I Hput Hk) as (h' & I' & G). exists h'.
    split; [|done]. by eapply landing_step.
  - destruct (remove_keeps c h key I Hrm) as [I' G]. exists h. split; [|done]. by eapply landing_step.
Qed.

Lemma cluster_run_inv c h c' :
  cluster_inv c h → rtc cluster_step c c' → ∃ h', cluster_inv c' h' ∧ grows c h c' h'.
Proof using HL RLL LW LS LD LG SL SZ SS DDL DLL.
  intros C Hrun. revert h C. induction Hrun as [c|c1 c2 c3 Hs _ IH]; intros h C.
  - exists h. split; [done|apply grows_refl].
  - destruct (cluster_step_inv c1 h c2 C Hs) as (h2 & C2 & G2).
    destruct (IH h2 C2) as (h3 & C3 & G3). exists h3. split; [done|]. by eapply grows_trans.
Qed.

Lemma cluster_reachable_inv c : cluster_reachable c → ∃ h, cluster_inv c h.
Proof using HL RLL LW LS LD LG SL SZ SS DDL DLL.
  intros Hr. destruct (cluster_run_inv _ [] _ init_inv Hr) as (h & C & _). eauto.
Qed.

(** * A Writer stays *)

(** A Writer keeps the recovery it was opened on, and every reply it sent. *)
Definition outlives (v v' : Service) : Prop :=
  sv_recovery v' = sv_recovery v ∧ i_sent (s_interp (sv_system v)) `prefix_of` i_sent (s_interp (sv_system v')).

Lemma with_proc_stays c pid p pid' v :
  cl_procs c !! pid' = Some (Serving v) →
  (pid = pid' → ∃ v', p = Serving v' ∧ outlives v v') →
  ∃ v', <[pid := p]> (cl_procs c) !! pid' = Some (Serving v') ∧ outlives v v'.
Proof.
  intros Hl Hp. destruct (decide (pid = pid')) as [->|Hne].
  - destruct (Hp eq_refl) as (v' & -> & Ho). exists v'. by rewrite lookup_insert_eq.
  - exists v. by rewrite lookup_insert_ne.
Qed.

Lemma cluster_step_stays c c' pid v :
  cluster_step c c' → cl_procs c !! pid = Some (Serving v) →
  ∃ v', cl_procs c' !! pid = Some (Serving v') ∧ outlives v v'.
Proof.
  intros Hstep Hv.
  assert (∀ v0 now event s1 s exit, cl_procs c !! pid = Some (Serving v0) → observes (sv_system v0) event s1 →
    react s1 now event = Ret (s, exit) → outlives v (running v0 s exit)) as Hrun.
  { intros v0 now event s1 s exit Hv0 Ho Hr. rewrite Hv in Hv0. injection Hv0 as <-. split; [done|].
    apply (sys_step_sent _ now event _ exit). by econstructor. }
  destruct Hstep; cbn [cl_procs with_proc with_authored with_store serve];
    try (by exists v); (apply with_proc_stays; [exact Hv|intros ->]); simplify_eq; try (by eexists).
  - eexists. split; [done|]. by eapply Hrun.
  - eexists. split; [done|]. eapply Hrun; [done| |done]. by apply observes_effect.
Qed.

Lemma cluster_run_stays c c' pid v :
  rtc cluster_step c c' → cl_procs c !! pid = Some (Serving v) →
  ∃ v', cl_procs c' !! pid = Some (Serving v') ∧ outlives v v'.
Proof.
  intros Hrun. revert v. induction Hrun as [c|c1 c2 c3 Hs _ IH]; intros v Hv; [by exists v|].
  destruct (cluster_step_stays c1 c2 pid v Hs Hv) as (v2 & H2 & E2 & P2).
  destruct (IH v2 H2) as (v3 & H3 & E3 & P3). exists v3. split; [done|]. split; [congruence|by etrans].
Qed.

(** * Properties *)

(** Every Writer of the cluster serves one history. *)
Definition one_history_of (c : Cluster) (h : list WalObject) : Prop :=
  placed h ∧ (∃ o f, folds h o f) ∧
  ∀ pid v, cl_procs c !! pid = Some (Serving v) → serves h v.

Lemma inv_history c h : cluster_inv c h → one_history_of c h.
Proof.
  intros C. split; [apply C|]. split; [apply C|]. intros pid v Hl. by apply (ci_procs _ _ C _ _ Hl).
Qed.

(** C2: all processes serve one history.  However many processes bootstrap and serve on
    one store, whatever they ask, however late, often or never their requests land, and
    wherever they stop, there is one WAL history: its objects sit at consecutive
    coordinates from one and replay, it only grows, and the view of every Writer, live or
    exited, is the fold of a prefix of it that ends under the Writer's own claim, with
    every reply the Writer sent true in that view. *)
Theorem one_history (c c' : Cluster) :
  cluster_reachable c → rtc cluster_step c c' →
  ∃ h h', h `prefix_of` h' ∧ one_history_of c h ∧ one_history_of c' h'.
Proof using HL RLL LW LS LD LG SL SZ SS DDL DLL.
  intros (h & C)%cluster_reachable_inv Hrun. destruct (cluster_run_inv c h c' C Hrun) as (h' & C' & G).
  exists h, h'. split; [apply G|]. split; by apply inv_history.
Qed.

(** C9: a generation has one authority.  Every process that ever opened a Writer is the
    author of the generation it claims, so two of them claim different generations; and the
    author of a generation, whether or not it went on to open a Writer, is never replaced. *)
Theorem single_authority (c c' : Cluster) :
  cluster_reachable c → rtc cluster_step c c' →
  (∀ p v, cl_procs c !! p = Some (Serving v) →
     cl_authority c !! coord_get (claim_generation (recovery_claim (sv_recovery v))) = Some p) ∧
  (∀ p q v w, cl_procs c !! p = Some (Serving v) → cl_procs c' !! q = Some (Serving w) →
     claim_generation (recovery_claim (sv_recovery v)) = claim_generation (recovery_claim (sv_recovery w)) →
     p = q) ∧
  (∀ generation author, cl_authority c !! generation = Some author →
     cl_authority c' !! generation = Some author).
Proof using HL RLL LW LS LD LG SL SZ SS DDL DLL.
  intros (h & C)%cluster_reachable_inv Hrun.
  destruct (cluster_run_inv _ _ _ C Hrun) as (h' & C' & G).
  assert (∀ c h p v, cluster_inv c h → cl_procs c !! p = Some (Serving v) →
    cl_authority c !! coord_get (claim_generation (recovery_claim (sv_recovery v))) = Some p) as Hauthor.
  { intros x hx p v Cx Hp. destruct (so_opened _ _ _ _ (ci_procs _ _ Cx _ _ Hp)) as (t & Ot).
    by apply opens_authority in Ot. }
  split; [by intros p v; apply (Hauthor c h)|]. split; [|by intros g author; eapply authority_grows].
  intros p q v w Hp Hq He. apply (Hauthor c h p v C) in Hp. apply (Hauthor c' h' q w C') in Hq.
  eapply authority_grows in Hp; [|exact G]. rewrite He, Hq in Hp. by injection Hp as ->.
Qed.

(** A table as the store holds it. *)
Definition stored_table (c : Cluster) (partition : PartitionId) (table : TableRef)
    (decoded : DecodedTable) : Prop :=
  ∃ bytes, cl_store c !! table_spelling (table_object table) = Some bytes ∧
    decode_table partition (mk_table_key (table_object table)) bytes = Ret (Ok decoded) ∧
    decoded_matches table decoded.

(** C10: a checkpoint holds the history to its cut.  In every reachable cluster, for every
    Seal in the store, whoever published it and whether or not its author learned that it
    did: when the objects the store holds under the Seal's tables decode, the rows read
    from them, applied in the order bootstrap reads them, are exactly the fold of the
    cluster's one history to the Seal's cut, under the owner the Seal records.  And the
    base of every Writer, which its bootstrap loaded from such tables, is the fold of the
    history to the cut of the Seal it claimed. *)
Theorem seals_hold_history (c : Cluster) :
  cluster_reachable c →
  ∃ h, one_history_of c h ∧
    (∀ seal, sealed c seal → seal_cut seal ≤ zlen h ∧
       ∃ base, folds (upto (seal_cut seal) h) (replay_owner (seal_replay seal)) base ∧
         ∀ reads : TableRef → DecodedTable,
           (∀ table, table ∈ planned_tables seal →
              stored_table c (seal_partition seal) table (reads table)) →
           tables_forest (reads <$> planned_tables seal) = base) ∧
    ∀ pid v, cl_procs c !! pid = Some (Serving v) →
      let seal := recovery_seal (sv_recovery v) in
      folds (upto (seal_cut seal) h) (replay_owner (seal_replay seal)) (recovery_base (sv_recovery v)).
Proof using HL RLL LW LS LD LG SL SZ SS DDL DLL.
  intros (h & C)%cluster_reachable_inv. pose proof (ci_store _ _ C) as I. exists h.
  split; [by apply inv_history|]. split.
  - intros seal Hs. destruct (si_good _ _ I seal Hs) as [Hcut [(base & Hf & Hb) _]].
    split; [done|]. exists base. split; [done|]. intros reads Hr. apply Hb. intros table Ht.
    destruct (Hr table Ht) as (bytes & Hk & Hd & Hm).
    destruct (si_store _ _ I _ _ Hk) as (pid & Hp). by exists pid, bytes.
  - intros pid v Hl seal. destruct (so_opened _ _ _ _ (ci_procs _ _ C _ _ Hl)) as (t & Ot).
    by apply (opens_base _ _ _ _ _ I Ot).
Qed.

(** A prefix under an older owner ends before an object of a later one. *)
Lemma prefix_before h n o f w :
  placed h → folds (upto n h) (Some o) f → w ∈ h → coord_get (generation o) < owner_of w →
  n < coord_get (wal_batch w).
Proof.
  intros P Hf Hin Hlt. apply Z.nle_gt. intros Hle. destruct (placed_at _ _ P Hin) as [Hl Hb].
  assert (w ∈ upto n h) as Hin'.
  { apply list_elem_of_lookup. exists (Z.to_nat (coord_get (wal_batch w) - 1)).
    unfold upto. rewrite lookup_take_lt; [done|]. lia. }
  destruct (replayed_owners _ _ _ _ _ Hf w Hin') as (o' & [= <-] & Hge). unfold owner_of in Hlt. lia.
Qed.

(** C1: takeover loses nothing.  When two Writers of the cluster hold different claims,
    however they were interleaved and whether or not the earlier one still runs: the
    forest the later one recovered is a replay over the last view of the earlier one, and
    every reply the earlier one has ever sent is true in what the later one recovered and
    in what it serves now.  In particular the earlier one acknowledges nothing after the
    later one took over that the later one does not have. *)
Theorem replies_survive (c : Cluster) (p q : nat) (v w : Service) :
  cluster_reachable c → cl_procs c !! p = Some (Serving v) → cl_procs c !! q = Some (Serving w) →
  coord_get (claim_generation (recovery_claim (sv_recovery v))) <
    coord_get (claim_generation (recovery_claim (sv_recovery w))) →
  (∃ rest, replayed (Some (claim_owner (recovery_claim (sv_recovery v)))) (i_view (s_interp (sv_system v)))
     rest (Some (claim_owner (recovery_claim (sv_recovery w)))) (recovery_durable (sv_recovery w))) ∧
  ∀ completion, completion ∈ i_sent (s_interp (sv_system v)) →
    ∃ envelope, envelope ∈ s_received (sv_system v) ∧
      promise envelope completion (recovery_durable (sv_recovery w)) ∧
      promise envelope completion (i_view (s_interp (sv_system w))).
Proof using HL RLL LW LS LD LG SL SZ SS DDL DLL.
  intros (h & C)%cluster_reachable_inv Hp Hq Hlt. pose proof (ci_store _ _ C) as I.
  pose proof (ci_procs _ _ C _ _ Hp) as Op. pose proof (ci_procs _ _ C _ _ Hq) as Oq.
  destruct (so_opened _ _ _ _ Op) as (tp & Otp), (so_opened _ _ _ _ Oq) as (tq & Otq).
  destruct (so_view _ _ _ _ Op) as (n & Hn & Hf & Ha), (so_view _ _ _ _ Oq) as (k & Hk & Hfk & _).
  destruct (opens_durable _ _ _ _ _ I Otq) as [Hd Hle].
  pose proof (opens_recovered _ _ _ _ _ Otq) as Rq. pose proof (recovered_fence _ _ Rq) as Hfence.
  assert (n < coord_get (recovery_durable_batch (sv_recovery w))) as Hnb.
  { apply last_Some_elem_of in Hfence. pose proof (opens_wal _ _ _ _ _ Otq) as Hw.
    rewrite Forall_forall in Hw. apply Hw in Hfence.
    apply (prefix_before h n _ _ _ (si_placed _ _ I) Hf) in Hfence; [done|].
    unfold owner_of. cbn [wal_owner].
    by rewrite (opens_owner _ _ _ _ _ Otp), (opens_owner _ _ _ _ _ Otq). }
  pose proof (coord_bounds (recovery_durable_batch (sv_recovery v))).
  assert (∃ rest, replayed (Some (claim_owner (recovery_claim (sv_recovery v))))
    (i_view (s_interp (sv_system v))) rest (Some (claim_owner (recovery_claim (sv_recovery w))))
    (recovery_durable (sv_recovery w))) as (rest & Hr)
    by (eapply (folds_between h n); [lia| |exact Hf|exact Hd]; lia).
  assert (∃ rest, replayed (Some (claim_owner (recovery_claim (sv_recovery w))))
    (recovery_durable (sv_recovery w)) rest (Some (claim_owner (recovery_claim (sv_recovery w))))
    (i_view (s_interp (sv_system w)))) as (rest' & Hr')
    by (eapply (folds_between h _ k); [| |exact Hd|exact Hfk]; lia).
  split; [eauto|]. intros x Hx. destruct (Ha x Hx) as (envelope & Hin & Hprom). exists envelope.
  assert (promise envelope x (recovery_durable (sv_recovery w))) as Hprom'
    by exact (promise_replayed _ _ _ _ _ _ _ (folds_wf _ _ _ Hf) Hr Hprom).
  split; [done|]. split; [done|]. exact (promise_replayed _ _ _ _ _ _ _ (folds_wf _ _ _ Hd) Hr' Hprom').
Qed.

End safety.
