(* ===== verification/ClusterHost.v ===== *)
(** A backend whose other actors are the processes of a cluster.

    The state of such a store is the cluster without the process that uses the backend:
    its contents, the requests outstanding on it, and the other processes, which take
    steps of Cluster.v around every request.  So a Writer that is alive may write its
    RUNs, publish and collect, a process that boots may claim and fence, and requests
    whose process is gone may land, whenever the cluster allows it and at no other time;
    a request this process sends joins the outstanding ones, and may land late as well.

    The frame lemma shows that what the others do beside the process, they do in the
    cluster that holds it too.  The file ends with an executable backend of this kind. *)

From S2P Require Import Prelude OrdMap Text Domain Coordinates Partition Seal Wal Forest.
From S2P Require Import ForestTheory Archive Spelling Sst Writer WriterSafety WriterSystem.
From S2P Require Import Bootstrap BootstrapSafety Recovery ObjectStore Stores StoreTheory Common.
From S2P Require Import BootstrapRun Checkpoint CheckpointTheory CheckpointSafety.
From S2P Require Import CheckpointLink CheckpointRun Cluster.

Section host.
  Context {J : Jiff} {HP : Heap} {RL : RowLayout} {RW : Rkyv ArchivedWalObject} {RS : Rkyv ArchivedSeal}.
  Context {RD : Rkyv (SstArchive ArchivedDirectoryRow)} {RG : Rkyv (SstArchive ArchivedLedgerRow)}.
  Context {DD : MapDiff StreamPath DirectoryEntry} {DL : MapDiff StreamUid StreamRecord}.

(** * The cluster around a process *)

(** A step of a cluster that does not hold the process. *)
Definition other_step (pid : nat) (h h' : Cluster) : Prop :=
  cluster_step h h' ∧ cl_procs h !! pid = None ∧ cl_procs h' !! pid = None.

Definition with_requests (h : Cluster) (more : list Request) : Cluster :=
  mk_cluster (cl_store h) (cl_requests h ++ more) (cl_authority h) (cl_procs h).

(** The store of one process: the others take their steps, and its own requests are
    outstanding from when they are sent. *)
Definition cluster_state (pid : nat) : StoreState := {|
  State := Cluster;
  view := cl_store;
  quiet := rtc (other_step pid);
  quiet_preorder := _;
  ask_put key body h := with_requests h [Put pid key body];
  ask_delete key h := with_requests h [Remove key];
  enter key body h := with_store h (<[key := body]> (cl_store h));
  erase key h := with_store h (delete key (cl_store h));
  view_enter key body h := eq_refl
|}.

(** The cluster that holds the process, and the one around it. *)
Record beside (pid : nat) (h c : Cluster) : Prop := {
  be_store : cl_store c = cl_store h;
  be_requests : cl_requests h ⊆ cl_requests c;
  be_procs : ∀ q, q ≠ pid → cl_procs c !! q = cl_procs h !! q
}.

(** Steps that leave the process as it is. *)
Record aside (pid : nat) (c c' : Cluster) : Prop := {
  as_steps : rtc cluster_step c c';
  as_proc : cl_procs c' !! pid = cl_procs c !! pid;
  as_requests : cl_requests c ⊆ cl_requests c'
}.

Lemma aside_refl pid c : aside pid c c.
Proof. by split. Qed.

Lemma aside_trans pid c1 c2 c3 : aside pid c1 c2 → aside pid c2 c3 → aside pid c1 c3.
Proof. intros [S1 P1 R1] [S2 P2 R2]. split; [by etrans|by rewrite P2|by etrans]. Qed.

Lemma beside_proc pid h c q p more :
  beside pid h c → q ≠ pid →
  beside pid (with_proc h q p more) (with_proc c q p more) ∧
  cl_procs (with_proc c q p more) !! pid = cl_procs c !! pid ∧
  cl_requests c ⊆ cl_requests (with_proc c q p more).
Proof.
  intros [Hs Hr Hp] Hq. split_and!; [split| |]; simpl.
  - done.
  - intros r [H|H]%elem_of_app; apply elem_of_app; auto.
  - intros q' Hq'. destruct (decide (q' = q)) as [->|Hne]; [by rewrite !lookup_insert_eq|].
    rewrite !lookup_insert_ne by done. by apply Hp.
  - by rewrite lookup_insert_ne.
  - intros r H. apply elem_of_app. by left.
Qed.

Lemma beside_store pid h c d : beside pid h c → beside pid (with_store h d) (with_store c d).
Proof. by intros [Hs Hr Hp]. Qed.

Lemma beside_authored pid h c q p seal bytes :
  beside pid h c → q ≠ pid →
  beside pid (with_authored h q p seal bytes) (with_authored c q p seal bytes) ∧
  cl_procs (with_authored c q p seal bytes) !! pid = cl_procs c !! pid.
Proof.
  intros H Hq. pose proof (be_store _ _ _ H) as Hs.
  destruct (beside_proc pid h c q p [] H Hq) as ([_ _ Hp] & Hpid & _).
  split; [split|]; simpl in *; [by rewrite Hs|apply H|exact Hp|exact Hpid].
Qed.

(** What the others do beside the process they do in the cluster that holds it. *)
Lemma other_step_beside pid h h' c :
  other_step pid h h' → beside pid h c → ∃ c', aside pid c c' ∧ beside pid h' c'.
Proof.
  intros (Hstep & Hn & Hn') Hb. pose proof Hb as [Hs Hr Hp].
  assert (∀ q p, cl_procs h !! q = Some p → q ≠ pid ∧ cl_procs c !! q = Some p) as Hlook.
  { intros q p Hq. assert (q ≠ pid) as Hne by (intros ->; by rewrite Hn in Hq).
    split; [done|]. by rewrite Hp. }
  assert (∀ q p more, q ≠ pid → cluster_step c (with_proc c q p more) →
    ∃ c', aside pid c c' ∧ beside pid (with_proc h q p more) c') as Hproc.
  { intros q p more Hq Hc. destruct (beside_proc pid h c q p more Hb Hq) as (H1 & H2 & H3).
    eexists. split; [|exact H1]. split; [by apply rtc_once|done|done]. }
  assert (∀ q p seal bytes, q ≠ pid → cluster_step c (with_authored c q p seal bytes) →
    ∃ c', aside pid c c' ∧ beside pid (with_authored h q p seal bytes) c') as Hauth.
  { intros q p seal bytes Hq Hc. destruct (beside_authored pid h c q p seal bytes Hb Hq) as (H1 & H2).
    eexists. split; [|exact H1]. split; [by apply rtc_once|done|done]. }
  assert (∀ d, cluster_step c (with_store c d) →
    ∃ c', aside pid c c' ∧ beside pid (with_store h d) c') as Hland.
  { intros d Hc. eexists. split; [|by apply beside_store]. split; [by apply rtc_once|done|done]. }
  destruct Hstep as [q partition state effect Hq Hh|q b event Hq|q b candidate Hq|q b event state effect Hq
    |q b event m r interval buffer s Hq|q v effect event Hq|q v input t Hq|q v ticket candidate Hq
    |q v now event s1 s exit Hq|q v now effect event before after s exit Hq
    |q v input batch bytes w facts Hq|q v input object Hq|q key body Hin|key Hin].
  1: { assert (q ≠ pid) as Hne by (intros ->; simpl in Hn'; by rewrite lookup_insert_eq in Hn').
       apply Hproc; [done|]. eapply step_start; [by rewrite Hp|done]. }
  12: { apply Hland. rewrite <- Hs. eapply step_land; [by apply Hr|by rewrite Hs]. }
  12: { apply Hland. rewrite <- Hs. eapply step_remove. by apply Hr. }
  all: destruct (Hlook _ _ Hq) as [Hne Hq'].
  - apply Hproc; [done|]. apply step_learn; try done. by rewrite Hs.
  - apply Hauth; [done|]. apply step_claimed; try done. by rewrite Hs.
  - apply Hproc; [done|]. by eapply step_boot.
  - apply Hproc; [done|]. by eapply step_open.
  - apply Hproc; [done|]. apply step_observe; try done. by rewrite Hs.
  - apply Hproc; [done|]. eapply step_table; try done. by rewrite Hs.
  - apply Hauth; [done|]. apply step_published; try done. by rewrite Hs.
  - apply Hproc; [done|]. by eapply step_local.
  - apply Hproc; [done|]. by eapply step_complete.
  - apply Hproc; [done|]. eapply step_collect; try done. by rewrite Hs.
  - apply Hproc; [done|]. by eapply step_drop.
Qed.

Lemma others_beside pid h h' c :
  rtc (other_step pid) h h' → beside pid h c → ∃ c', aside pid c c' ∧ beside pid h' c'.
Proof.
  intros Hsteps. revert c. induction Hsteps as [h|h h1 h2 H1 _ IH]; intros c Hb.
  - exists c. split; [apply aside_refl|done].
  - destruct (other_step_beside _ _ _ _ H1 Hb) as (c1 & A1 & B1).
    destruct (IH c1 B1) as (c2 & A2 & B2). exists c2. split; [by eapply aside_trans|done].
Qed.

End host.

(** * A shared store that runs *)

(** Before each request the store takes a turn: nothing, or an outstanding request lands,
    or the request it serves is lost on its way. *)
Inductive Turn : Type :=
| Idle
| Lands (n : nat)
| Loses.

Record Shared : Type := mk_shared {
  sh_store : gmap str (list Z);
  sh_requests : list Request;
  sh_script : list Turn
}.

Definition land (d : gmap str (list Z)) (r : Request) : gmap str (list Z) :=
  match r with
  | Put _ key body => match d !! key with Some _ => d | None => <[key := body]> d end
  | Remove key => delete key d
  end.

Definition send (w : Shared) (r : Request) : Shared :=
  mk_shared (sh_store w) (sh_requests w ++ [r]) (sh_script w).
Definition leave (w : Shared) (d : gmap str (list Z)) : Shared :=
  mk_shared d (sh_requests w) (sh_script w).

(** The turn, and whether the request is lost. *)
Definition turn (w : Shared) : Shared * bool :=
  match sh_script w with
  | [] => (w, false)
  | Idle :: script => (mk_shared (sh_store w) (sh_requests w) script, false)
  | Lands n :: script =>
      (mk_shared (from_option (land (sh_store w)) (sh_store w) (sh_requests w !! n)) (sh_requests w) script,
       false)
  | Loses :: script => (mk_shared (sh_store w) (sh_requests w) script, true)
  end.

Definition lost {A : Type} : Result BackendError A := Err (mk_backend_error BackendOther []).

Definition shared_backend (pid : nat) : Backend := {|
  World := Shared;
  path_parse p := Some p;
  put_create w p body :=
    let (w, loses) := turn (send w (Put pid p body)) in
    if loses : bool then (w, lost)
    else
      match sh_store w !! p with
      | Some _ => (w, Err (mk_backend_error BackendAlreadyExists []))
      | None => (leave w (<[p := body]> (sh_store w)), Ok tt)
      end;
  get_object w p :=
    let (w, loses) := turn w in
    if loses : bool then (w, lost)
    else
      match sh_store w !! p with
      | Some body => (w, Ok (mk_get (zlen body) (Some (lit "1")) [Ok body]))
      | None => (w, Err (mk_backend_error BackendNotFound []))
      end;
  list_objects w prefix start :=
    let (w, loses) := turn w in
    if loses : bool then (w, [lost]) else (w, Ok <$> keys_under (sh_store w) prefix start);
  delete_object w p :=
    let (w, loses) := turn (send w (Remove p)) in
    if loses : bool then (w, lost) else (leave w (delete p (sh_store w)), Ok tt)
|}.

Section shared.
  Context {J : Jiff} {HP : Heap} {RL : RowLayout} {RW : Rkyv ArchivedWalObject} {RS : Rkyv ArchivedSeal}.
  Context {RD : Rkyv (SstArchive ArchivedDirectoryRow)} {RG : Rkyv (SstArchive ArchivedLedgerRow)}.
  Context {DD : MapDiff StreamPath DirectoryEntry} {DL : MapDiff StreamUid StreamRecord}.
  Context (pid : nat) (procs : gmap nat Process).

(** The cluster around the process: the store, what is outstanding, the others. *)
Definition shared_state (w : Shared) : Cluster :=
  mk_cluster (sh_store w) (sh_requests w) ∅ (delete pid procs).

Lemma land_other h r :
  r ∈ cl_requests h → cl_procs h !! pid = None →
  rtc (other_step pid) h (with_store h (land (cl_store h) r)).
Proof.
  intros Hr Hp. destruct r as [q key body|key]; cbn [land].
  - destruct (cl_store h !! key) eqn:Hk; [by destruct h|]. apply rtc_once.
    split; [|done]. by eapply step_land.
  - apply rtc_once. split; [|done]. by apply step_remove.
Qed.

Lemma turn_quiet w w' loses :
  turn w = (w', loses) → rtc (other_step pid) (shared_state w) (shared_state w').
Proof.
  unfold turn. destruct (sh_script w) as [|[|n|] script]; intros [= <- <-]; [done|done| |done].
  destruct (sh_requests w !! n) as [r|] eqn:Hn; cbn [from_option]; [|done].
  apply (land_other (shared_state w)); [by eapply list_elem_of_lookup_2|]. apply lookup_delete_eq.
Qed.

Definition shared_laws : @StateLaws (shared_backend pid) (cluster_state pid).
Proof.
  refine (@Build_StateLaws (shared_backend pid) (cluster_state pid) shared_state _ _ _ _ _).
  - done.
  - intros w p body w' r. simpl. destruct (turn _) as [w1 loses] eqn:Ht. apply turn_quiet in Ht.
    intros Hr. exists (shared_state w1). split; [exact Ht|].
    destruct loses; [injection Hr as <- <-; by left|].
    destruct (sh_store w1 !! p) eqn:Hp; injection Hr as <- <-; simpl; [by split; [eexists|]|by split].
  - intros w p w' r. simpl. destruct (turn w) as [w1 loses] eqn:Ht. apply turn_quiet in Ht.
    intros Hr. exists (shared_state w1). split; [exact Ht|].
    destruct loses; [by injection Hr as <- <-|].
    destruct (sh_store w1 !! p) as [body|] eqn:Hp; injection Hr as <- <-; (split; [done|]); [|done].
    exists body. split_and!; [done|done| |].
    + intros bytes [= <-]. by rewrite (right_id_L [] (++)).
    + intros [|chunk [|chunk' chunks]] rest; [intros _; apply prefix_nil| |done].
      intros [= -> _]. cbn [concat]. by rewrite (right_id_L [] (++)).
  - intros w prefix start w' entries. simpl. destruct (turn w) as [w1 loses] eqn:Ht. apply turn_quiet in Ht.
    intros Hr. left. exists (shared_state w1). split; [exact Ht|].
    destruct loses; injection Hr as <- <-; (split; [done|]); [right|by left].
    exists 0%nat, (mk_backend_error BackendOther []), []. done.
  - intros w p w' r. simpl. destruct (turn _) as [w1 loses] eqn:Ht. apply turn_quiet in Ht.
    intros Hr. exists (shared_state w1). split; [exact Ht|].
    destruct loses; injection Hr as <- <-; [by left|done].
Defined.

End shared.
