(* ===== verification/ClusterMoments.v ===== *)
(** Store operations answered from one moment.

    The operations of Stores.v run while other actors change the store, so each leads from
    one store to another.  Here each is split at the moment its answer speaks of: before it
    and after it the others act and the operation's own create may take effect, and at the
    moment the store says what the answer says.  Authority is the exception: it is learned
    from the create that made the Seal.  The store may be in any state the laws of
    [StateLaws] allow, not only in its contents.  This is the granularity at which Cluster.v lets
    processes learn. *)

From S2P Require Import Prelude OrdMap Text Domain Coordinates Partition Seal Wal Forest.
From S2P Require Import ForestTheory Archive Spelling Sst Writer WriterSafety WriterSystem.
From S2P Require Import Bootstrap BootstrapSafety Recovery ObjectStore Stores StoreTheory Common.
From S2P Require Import BootstrapRun Checkpoint CheckpointTheory CheckpointSafety.
From S2P Require Import CheckpointLink CheckpointRun Cluster.

Section moments.
  Context {DF : DebugFormat} {B : Backend} {SS : StoreState} {ST : StateLaws} {J : Jiff} {HP : Heap} {RL : RowLayout}.
  Context {RW : Rkyv ArchivedWalObject} {RS : Rkyv ArchivedSeal}.
  Context {RD : Rkyv (SstArchive ArchivedDirectoryRow)} {RG : Rkyv (SstArchive ArchivedLedgerRow)}.

(** * Moments of an operation *)

(** The request for the create of an object, if there is one, is sent. *)
Definition asking (object : option (str * list Z)) (s : State) : State :=
  match object with Some (key, bytes) => ask_put key bytes s | None => s end.

(** The other actors move, and the create of the object may take effect. *)
Definition moves (object : option (str * list Z)) (s s' : State) : Prop :=
  quiet s s' ∨ ∃ key bytes, object = Some (key, bytes) ∧ entered key bytes s s'.

(** At some moment of the operation the contents were so. *)
Definition seen (object : option (str * list Z)) (s s' : State) (P : gmap str (list Z) → Prop) : Prop :=
  ∃ m, moves object s m ∧ P (view m) ∧ moves object m s'.

Lemma moves_quiet object s s' : quiet s s' → moves object s s'.
Proof. by left. Qed.

Lemma moves_tried key bytes s s' : tried key bytes s s' → moves (Some (key, bytes)) s s'.
Proof. intros [H|H]; [by left|right; eauto]. Qed.

Lemma moves_post object s m s' : moves object s m → quiet m s' → moves object s s'.
Proof.
  intros [H|(key & bytes & -> & x & H1 & Hx & H2)] He; [left; by etransitivity|right].
  eexists _, _. split; [done|]. exists x. split_and!; [done|done|by etransitivity].
Qed.

Lemma seen_end (object : option (str * list Z)) (s s' : State) (P : gmap str (list Z) → Prop) :
  moves object s s' → P (view s') → seen object s s' P.
Proof. intros H HP'. exists s'. split_and!; [done|done|by apply moves_quiet]. Qed.

Lemma seen_meanwhile (object : option (str * list Z)) (s s' : State) (P : gmap str (list Z) → Prop) :
  meanwhile s s' P → seen object s s' P.
Proof. intros (m & H1 & Hm & H2). exists m. split_and!; [by apply moves_quiet|done|by apply moves_quiet]. Qed.

Lemma seen_later (object : option (str * list Z)) (s m s' : State) (P : gmap str (list Z) → Prop) :
  moves object s m → meanwhile m s' P → seen object s s' P.
Proof.
  intros H (x & H1 & Hx & H2). exists x.
  split_and!; [by eapply moves_post|done|by apply moves_quiet].
Qed.

Lemma seen_mono (object : option (str * list Z)) (s s' : State) (P Q : gmap str (list Z) → Prop) :
  (∀ m, P m → Q m) → seen object s s' P → seen object s s' Q.
Proof. intros HPQ (m & H1 & Hm & H2). exists m. auto. Qed.

(** * Creates *)

(** What the evidence of a create says of its moment. *)
Definition evident (key : str) (bytes : list Z) (evidence : CreateEvidence) (m : gmap str (list Z)) :
    Prop :=
  match evidence with
  | Direct | DurableMatch => m !! key = Some bytes
  | NotOurs => ∃ other, m !! key = Some other ∧ other ≠ bytes
  | Unresolved => True
  end.

Lemma evidence_seen key bytes d d' evidence :
  evidence_says key bytes d d' (Ok evidence) →
  seen (Some (key, bytes)) d d' (evident key bytes evidence).
Proof.
  destruct evidence; [intros (m & H1 & Hm & H2)|by apply seen_meanwhile..|].
  - exists (enter key bytes m).
    split_and!; [|simpl; rewrite view_enter; apply lookup_insert_eq|by apply moves_quiet].
    right. exists key, bytes. split; [done|]. by exists m.
  - intros H. apply seen_end; [by apply moves_tried|done].
Qed.

Lemma create_bytes_says w key bytes w' r :
  create_bytes w key bytes = Ret (w', r) →
  ∃ r', r = map_err typed_store_error r' ∧
    evidence_says (key_str key) bytes (ask_put (key_str key) bytes (state w)) (state w') r'.
Proof using ST.
  unfold create_bytes. destruct (PutBody_try_from bytes) as [body|] eqn:Hb; cbn [expect_ok exec_bind];
    [|done].
  apply checked_Ok in Hb. destruct (create_says w key body) as (w1 & r' & -> & Hr).
  cbn [world_map_err exec_bind]. intros [= <- <-]. exists r'. split; [done|]. by rewrite <- Hb.
Qed.

Lemma create_seal_says w generation bytes w' r :
  create_seal w generation bytes = Ret (w', r) →
  ∃ r', r = map_err typed_store_error r' ∧
    evidence_says (seal_spelling generation) bytes
      (ask_put (seal_spelling generation) bytes (state w)) (state w') r'.
Proof using ST.
  unfold create_seal. destruct (seal_object_key_spelling generation) as (key & -> & <-).
  apply create_bytes_says.
Qed.

Lemma create_wal_says w candidate w' r :
  create_wal w candidate = Ret (w', r) →
  ∃ r', r = map_err typed_store_error r' ∧
    let key := wal_spelling (encoded_wal_batch candidate) in
    let bytes := encoded_wal_bytes candidate in
    evidence_says key bytes (ask_put key bytes (state w)) (state w') r'.
Proof using ST.
  unfold create_wal. destruct (wal_object_key_spelling (encoded_wal_batch candidate)) as (key & -> & <-).
  apply create_bytes_says.
Qed.

Lemma create_table_says w candidate w' r :
  create_table w candidate = Ret (w', r) →
  ∃ r', r = map_err typed_store_error r' ∧
    let key := TableKey_display (table_key candidate) in
    evidence_says key (table_bytes candidate) (ask_put key (table_bytes candidate) (state w)) (state w') r'.
Proof using ST.
  unfold create_table. destruct (table_object_key_Ret (table_key candidate)) as (key & -> & <-).
  apply create_bytes_says.
Qed.

(** ** Seals *)

(** What a publication that is not told it authored says of its moment. *)
Definition unauthored (key : str) (r : Result TypedStoreError SealPublication) (m : gmap str (list Z)) :
    Prop :=
  match r with
  | Ok Authored => False
  | Ok NoAuthority => is_Some (m !! key)
  | Ok PublicationUnresolved | Err _ => True
  end.

Lemma publish_authority_seen w candidate w' r :
  publish_authority w candidate = Ret (w', r) →
  let key := seal_spelling (seal_generation (authority_seal candidate)) in
  let bytes := authority_bytes candidate in
  seen (Some (key, bytes)) (ask_put key bytes (state w)) (state w') (unauthored key r) ∨
  r = Ok Authored ∧ entered key bytes (ask_put key bytes (state w)) (state w').
Proof using ST.
  unfold publish_authority. destruct (create_seal w _ _) as [[w1 r1]|] eqn:Hc; [|done].
  apply create_seal_says in Hc as (e & -> & He). pose proof (evidence_tried _ _ _ _ _ He) as Hc.
  destruct e as [evidence|]; cbn [map_err world_bind]; intros [= <- <-];
    [|left; by apply seen_end, I; apply moves_tried].
  apply evidence_seen in He as Hs.
  destruct evidence; [by right|left; eapply seen_mono; [|exact Hs]; intros m Hm..]; simpl in *.
  - by rewrite Hm.
  - destruct Hm as (other & -> & _). done.
  - done.
Qed.

Lemma establish_genesis_seen w candidate w' r :
  store_establish_genesis w candidate = Ret (w', r) →
  let key := seal_spelling (seal_generation (genesis_seal candidate)) in
  let bytes := genesis_bytes candidate in
  seen (Some (key, bytes)) (ask_put key bytes (state w)) (state w') (λ m,
    match r with
    | Ok GenesisEstablished => m !! key = Some (genesis_bytes candidate)
    | Ok GenesisLostRace => ∃ other, m !! key = Some other ∧ other ≠ genesis_bytes candidate
    | Ok GenesisUnresolved | Err _ => True
    end).
Proof using ST.
  unfold store_establish_genesis. destruct (create_seal w _ _) as [[w1 r1]|] eqn:Hc; [|done].
  apply create_seal_says in Hc as (e & -> & He). pose proof (evidence_tried _ _ _ _ _ He) as Hc.
  destruct e as [evidence|]; cbn [map_err world_bind]; intros [= <- <-];
    [|by apply seen_end, I; apply moves_tried].
  apply evidence_seen in He. eapply seen_mono; [|exact He]. by destruct evidence.
Qed.

(** ** WAL objects *)

Lemma establish_wal_seen w candidate w' r :
  establish_wal w candidate = Ret (w', r) →
  let key := wal_spelling (encoded_wal_batch candidate) in
  let bytes := encoded_wal_bytes candidate in
  seen (Some (key, bytes)) (ask_put key bytes (state w)) (state w') (λ m,
    match r with Ok e => establishes m key bytes e | Err _ => True end).
Proof using ST.
  unfold establish_wal. destruct (create_wal w candidate) as [[w1 r1]|] eqn:Hc; [|done].
  apply create_wal_says in Hc as (e & -> & He). pose proof (evidence_tried _ _ _ _ _ He) as Hc.
  apply moves_tried in Hc. destruct e as [evidence|]; cbn [map_err world_bind];
    [|intros [= <- <-]; by apply seen_end].
  destruct evidence; [intros [= <- <-]; eapply seen_mono; [|by apply evidence_seen, He]; done..|].
  destruct (read_wal_says w1 (encoded_wal_partition candidate) (encoded_wal_batch candidate))
    as (w2 & r2 & -> & H1 & Hf).
  destruct r2 as [[observed|]|]; cbn [world_bind]; intros [= <- <-].
  - eapply seen_later; [exact Hc|]. destruct Hf as (m & H2 & (bytes & Hm & _ & <-) & H3). exists m.
    split_and!; [done| |done]. case_bool_decide as Heq; simpl; [by rewrite <- Heq|]. eauto.
  - apply seen_end; [by eapply moves_post|done].
  - apply seen_end; [by eapply moves_post|done].
Qed.

(** ** Tables *)

Lemma establish_table_seen w t w' r :
  establish_table w t = Ret (w', r) →
  let key := TableKey_display (table_key t) in
  seen (Some (key, table_bytes t)) (ask_put key (table_bytes t) (state w)) (state w') (λ m,
    r = TableEstablished → m !! key = Some (table_bytes t)).
Proof using ST.
  unfold establish_table. destruct (create_table w t) as [[w1 r1]|] eqn:Hc; cbn [exec_bind]; [|done].
  apply create_table_says in Hc as (e & -> & He). pose proof (evidence_tried _ _ _ _ _ He) as Hc.
  apply moves_tried in Hc. destruct e as [evidence|e]; cbn [map_err].
  2: { destruct (typed_store_error e); intros [= <- <-]; by apply seen_end. }
  destruct evidence; [intros [= <- <-]; eapply seen_mono; [|by apply evidence_seen, He]; done..|].
  unfold reconcile_table. destruct (table_object_key_Ret (table_key t)) as (key & -> & Hk).
  cbn [exec_bind]. destruct (read_bound_Ret _ (table_ref_bytes (table_ref t))) as (bound & -> & _).
  cbn [exec_bind]. destruct (read_object_says w1 key bound) as (w2 & r2 & -> & Hf).
  pose proof (read_says_quiet _ _ _ _ _ Hf) as H1. rewrite Hk in Hf.
  destruct r2 as [[raw|]|e]; cbn [world_map_err map_err world_bind exec_bind].
  - destruct Hf as [(m & H2 & Hm & H3) _]. intros [= <- <-]. eapply seen_later; [exact Hc|]. exists m.
    split_and!; [done| |done]. case_bool_decide as Heq; [|done]. by rewrite <- Heq.
  - intros [= <- <-]. apply seen_end; [by eapply moves_post|done].
  - destruct (typed_store_error e); intros [= <- <-]; (apply seen_end; [by eapply moves_post|done]).
Qed.

(** * Bootstrap effects *)

(** The object an effect creates, if it does. *)
Definition effect_object (effect : BootstrapEffect) : option (str * list Z) :=
  match effect with
  | EstablishGenesis c => Some (seal_spelling (seal_generation (genesis_seal c)), genesis_bytes c)
  | PublishClaim c => Some (seal_spelling (seal_generation (authority_seal c)), authority_bytes c)
  | EstablishFence c => Some (wal_spelling (encoded_wal_batch c), encoded_wal_bytes c)
  | _ => None
  end.

(** Every effect the interpreter executes is answered from a moment, or by the create that
    made the claim. *)
Lemma execute_effect_answered w effect w' event :
  execute_effect w effect = Ret (w', event) →
  let s := asking (effect_object effect) (state w) in
  seen (effect_object effect) s (state w') (λ m, learns m effect event) ∨
  ∃ c, effect = PublishClaim c ∧ event = ClaimPublished Authored ∧
    entered (seal_spelling (seal_generation (authority_seal c))) (authority_bytes c) s (state w').
Proof using ST.
  destruct effect as [|c|g|c|partition table| |partition batch|c]; cbn [execute_effect]; unfold complete.
  - destruct (newest_generation_says w) as (w1 & r & -> & He & Hr). cbn [exec_bind]. intros [= <- <-].
    left. destruct r as [o|]; [by apply seen_meanwhile, Hr|by apply seen_end; [apply moves_quiet|]].
  - destruct (store_establish_genesis w c) as [[w1 r]|] eqn:Hx; cbn [exec_bind]; [|done].
    intros [= <- <-]. apply establish_genesis_seen in Hx. left. eapply seen_mono; [|exact Hx].
    intros m Hm. by destruct r as [[]|].
  - destruct (read_seal_says w g) as (w1 & r & -> & He & Hr). cbn [exec_bind]. intros [= <- <-].
    left. destruct r as [[seal|]|]; [by apply seen_meanwhile..|by apply seen_end; [apply moves_quiet|]].
  - destruct (publish_authority w c) as [[w1 r]|] eqn:Hx; cbn [exec_bind]; [|done].
    intros [= <- <-]. apply publish_authority_seen in Hx as [Hx|[-> Hi]]; [left|right; by exists c].
    eapply seen_mono; [|exact Hx]. intros m Hm. by destruct r as [[]|].
  - destruct (read_table_says w partition table) as (w1 & r & -> & He & Hr). cbn [exec_bind].
    intros [= <- <-]. left. destruct r as [decoded|]; [|by apply seen_end; [apply moves_quiet|]].
    destruct Hr as [Hm Hr]. eapply seen_mono; [|exact (seen_meanwhile _ _ _ _ Hr)].
    intros m (bytes & Hb & _ & Hd). split; [done|]. split; [done|]. by exists bytes.
  - destruct (newest_surviving_batch_says w) as (w1 & r & -> & He & Hr). cbn [exec_bind].
    intros [= <- <-]. left.
    destruct r as [o|]; [by apply seen_meanwhile, Hr|by apply seen_end; [apply moves_quiet|]].
  - destruct (read_wal_says w partition batch) as (w1 & r & -> & He & Hr). cbn [exec_bind].
    intros [= <- <-]. left. destruct r as [[o|]|];
      [|by apply seen_meanwhile|by apply seen_end; [apply moves_quiet|]].
    eapply seen_mono; [|exact (seen_meanwhile _ _ _ _ Hr)]. intros m (bytes & Hm & Hd & _).
    by exists bytes.
  - destruct (establish_wal w c) as [[w1 r]|] eqn:Hx; cbn [exec_bind]; [|done].
    intros [= <- <-]. apply establish_wal_seen in Hx. left. eapply seen_mono; [|exact Hx].
    intros m Hm. by destruct r.
Qed.

End moments.
