(* ===== verification/ClusterRun.v ===== *)
(** The effects the engine executes, as steps of the cluster.

    The interpreter of the bootstrap and the tasks the Writer spawns run on a backend whose
    other actors are the other processes of a cluster (ClusterHost.v).  Every run is a path
    of cluster steps: each operation is answered from a moment of the store, creates and
    deletes land as requests, authority is learned from the create that made the Seal, and
    around them the other processes take their own steps.  So what holds in every reachable
    cluster holds of the processes the code runs. *)

From S2P Require Import Prelude OrdMap Text Domain Coordinates Partition Seal Wal Forest.
From S2P Require Import ForestTheory Archive Spelling Sst Writer WriterSafety WriterSystem.
From S2P Require Import Bootstrap BootstrapSafety Recovery ObjectStore Stores StoreTheory Common.
From S2P Require Import BootstrapRun Checkpoint CheckpointTheory CheckpointSafety.
From S2P Require Import CheckpointLink CheckpointRun Cluster ClusterInv ClusterStore ClusterBoot.
From S2P Require Import ClusterWriter ClusterServe ClusterStep ClusterSafety ClusterHost ClusterMoments.

(** * The Writer's tasks *)

Section task.
  Context {DF : DebugFormat} {B : Backend} {J : Jiff} {HP : Heap} {RL : RowLayout}.
  Context {RW : Rkyv ArchivedWalObject} {RS : Rkyv ArchivedSeal}.
  Context {RD : Rkyv (SstArchive ArchivedDirectoryRow)} {RG : Rkyv (SstArchive ArchivedLedgerRow)}.
  Context {DD : MapDiff StreamPath DirectoryEntry} {DL : MapDiff StreamUid StreamRecord}.

(** The body of the task an effect is spawned as, with the event it completes with; [None]
    when a collection's fuel is spent.
    strom-storage-engine/src/writer.rs:130-169, [Writer::spawn_effect (tasks)]. *)
Definition run_effect (order : list EncodedTable → list EncodedTable) (join_error : str) (fuel : nat)
    (w : World) (effect : WriterEffect) : Exec (option (World * WriterEvent)) :=
  match effect with
  | EstablishWal candidate =>
      let! (w, result) := establish_wal w candidate in
      Ret (Some (w, WalEstablished (encoded_wal_batch candidate) result))
  | PrepareCheckpoint input =>
      let! (w, outcome) := prepare order join_error w input in
      Ret (Some (w, CheckpointPrepared (input_ticket input) outcome))
  | PublishAuthority ticket candidate =>
      let! (w, result) := publish_authority w candidate in
      Ret (Some (w, SealPublished ticket result))
  | Collect input =>
      let! collected := collect fuel w input in
      Ret (match collected with
           | Some w => Some (w, CollectFinished (collection_cut input))
           | None => None
           end)
  end.

End task.

(** * Runs as cluster steps *)

Section joining.
  Context {DF : DebugFormat} {B : Backend}.
  Context {J : Jiff} {HP : Heap} {HL : HeapLaws} {RL : RowLayout} {RLL : RowLayoutLaws}.
  Context {RW : Rkyv ArchivedWalObject} {LW : RkyvLaws ArchivedWalObject} {SL : WalSizeLaw}.
  Context {RS : Rkyv ArchivedSeal} {LS : RkyvLaws ArchivedSeal}.
  Context {RD : Rkyv (SstArchive ArchivedDirectoryRow)} {LD : RkyvLaws (SstArchive ArchivedDirectoryRow)}.
  Context {RG : Rkyv (SstArchive ArchivedLedgerRow)} {LG : RkyvLaws (SstArchive ArchivedLedgerRow)}.
  Context {SZ : SstSizeLaw} {SS : SealSizeLaw}.
  Context {DD : MapDiff StreamPath DirectoryEntry} {DL : MapDiff StreamUid StreamRecord}.
  Context {DDL : MapDiffLaws StreamPath DirectoryEntry} {DLL : MapDiffLaws StreamUid StreamRecord}.
  Context {GO : GeneratorOps}.

Lemma reachable_after c c' : cluster_reachable c → rtc cluster_step c c' → cluster_reachable c'.
Proof. apply rtc_trans. Qed.

(** The process, and the store it shares with the others. *)
  Context (pid : nat) {ST : @StateLaws B (cluster_state pid)}.

#[local] Abbreviation seen := (seen (SS := cluster_state pid)).
#[local] Abbreviation moves := (moves (SS := cluster_state pid)).
#[local] Abbreviation entered := (entered (SS := cluster_state pid)).
#[local] Abbreviation erased := (erased (SS := cluster_state pid)).

(** The cluster around the process, in a world of the backend. *)
Definition host (w : World) : Cluster := state (StateLaws := ST) w.

(** The cluster holds the process, and around it is the state of its store. *)
Record hosted (c h : Cluster) : Prop := {
  ho_reachable : cluster_reachable c;
  ho_beside : beside pid h c
}.

Lemma hosted_aside c c' h : hosted c h → aside pid c c' → beside pid h c' → hosted c' h.
Proof. intros [Hc _] [S _ _] Hb. split; [by eapply reachable_after|done]. Qed.

(** The others take their steps. *)
Lemma quiet_aside c h h' :
  hosted c h → rtc (other_step pid) h h' → ∃ c', aside pid c c' ∧ hosted c' h'.
Proof.
  intros [Hc Hb] Hq. destruct (others_beside pid h h' c Hq Hb) as (c' & A & Hb').
  exists c'. split; [done|]. split; [by eapply reachable_after; [|apply A]|done].
Qed.

(** What the process asked of the store is outstanding. *)
Lemma hosted_asked c h more : hosted c h → more ⊆ cl_requests c → hosted c (with_requests h more).
Proof.
  intros [Hc [Hs Hr Hp]] Hm. split; [done|]. split; [done| |done].
  intros r [H|H]%elem_of_app; [by apply Hr|by apply Hm].
Qed.

Lemma hosted_put c h key bytes :
  hosted c h → Put pid key bytes ∈ cl_requests c → hosted c (with_requests h [Put pid key bytes]).
Proof. intros H Hin. apply hosted_asked; [done|]. by intros r ->%list_elem_of_singleton. Qed.

(** A request that is outstanding takes effect. *)
Lemma hosted_store c h d :
  hosted c h → cluster_step c (with_store c d) →
  aside pid c (with_store c d) ∧ hosted (with_store c d) (with_store h d).
Proof.
  intros [Hc Hb] Hs. split; [by split; [apply rtc_once|..]|].
  split; [by eapply reachable_after; [|apply rtc_once]|by apply beside_store].
Qed.

(** A create that was asked for lands among the steps of the others. *)
Lemma entered_aside c h key bytes h' :
  hosted c h → Put pid key bytes ∈ cl_requests c → entered key bytes h h' →
  ∃ c', aside pid c c' ∧ hosted c' h'.
Proof.
  intros H Hp (m & H1 & Hm & H2). destruct (quiet_aside c h m H H1) as (c1 & A1 & O1).
  pose proof (be_store _ _ _ (ho_beside _ _ O1)) as E1. simpl in Hm.
  destruct (hosted_store c1 m (<[key := bytes]> (cl_store m)) O1) as [A2 O2].
  { rewrite <- E1. apply (step_land c1 pid); [by apply (as_requests _ _ _ A1)|by rewrite E1]. }
  destruct (quiet_aside _ _ h' O2 H2) as (c3 & A3 & O3). exists c3. split; [|done].
  eapply aside_trans; [exact A1|]. by eapply aside_trans.
Qed.

(** The create of an operation has been asked for. *)
Definition asked (c : Cluster) (object : option (str * list Z)) : Prop :=
  ∀ key bytes, object = Some (key, bytes) → Put pid key bytes ∈ cl_requests c.

Lemma asked_some c key bytes : Put pid key bytes ∈ cl_requests c → asked c (Some (key, bytes)).
Proof. by intros Hp k b [= <- <-]. Qed.

Lemma asked_aside c c' object : aside pid c c' → asked c object → asked c' object.
Proof. intros A H key bytes Ho. by apply (as_requests _ _ _ A), H. Qed.

Lemma hosted_asking c h object :
  hosted c h → asked c object → hosted c (asking (SS := cluster_state pid) object h).
Proof. intros H Ha. destruct object as [[key bytes]|]; [|done]. apply hosted_put; [done|by apply Ha]. Qed.

Lemma moves_aside c h object h' :
  hosted c h → asked c object → moves object h h' → ∃ c', aside pid c c' ∧ hosted c' h'.
Proof.
  intros H Ha [He|(key & bytes & Ho & Hi)]; [by eapply quiet_aside|].
  by apply (entered_aside c h key bytes); [|apply Ha|].
Qed.

(** Only the others and the create move the store. *)
Lemma seen_aside (c h : Cluster) (object : option (str * list Z)) (h' : Cluster)
    (P : gmap str (list Z) → Prop) :
  hosted c h → asked c object → seen object h h' P → ∃ c', aside pid c c' ∧ hosted c' h'.
Proof.
  intros H Ha (m & H1 & _ & H2). destruct (moves_aside c h object m H Ha H1) as (c1 & A1 & O1).
  destruct (moves_aside c1 m object h' O1 (asked_aside _ _ _ A1 Ha) H2) as (c2 & A2 & O2).
  exists c2. split; [by eapply aside_trans|done].
Qed.

(** The process has changed, and its requests are as they were. *)
Record turned (c c' : Cluster) (p : Process) : Prop := {
  tu_steps : rtc cluster_step c c';
  tu_proc : cl_procs c' !! pid = Some p;
  tu_requests : cl_requests c ⊆ cl_requests c'
}.

Lemma turned_aside c c1 c2 p c3 :
  aside pid c c1 → turned c1 c2 p → aside pid c2 c3 → turned c c3 p.
Proof.
  intros [S1 P1 R1] [S2 P2 R2] [S3 P3 R3]. split; [|by rewrite P3|].
  - etrans; [exact S1|]. by etrans.
  - etrans; [exact R1|]. by etrans.
Qed.

Lemma turned_trans c c1 c2 p p' : turned c c1 p → turned c1 c2 p' → turned c c2 p'.
Proof. intros [S1 P1 R1] [S2 P2 R2]. split; [by etrans|done|by etrans]. Qed.

(** The process takes a step of its own. *)
Lemma hosted_step c h p more :
  hosted c h → cluster_step c (with_proc c pid p more) →
  turned c (with_proc c pid p more) p ∧ hosted (with_proc c pid p more) h.
Proof.
  intros [Hc [Hs Hr Hp]] Hstep. split; split.
  - by apply rtc_once.
  - apply lookup_insert_eq.
  - intros r H. apply elem_of_app. by left.
  - eapply reachable_after; [done|]. by apply rtc_once.
  - split; [done| |].
    + intros r H. apply elem_of_app. left. by apply Hr.
    + intros q Hq. simpl. rewrite lookup_insert_ne by done. by apply Hp.
Qed.

(** At the moment an operation speaks of, the process takes a step of its own. *)
Lemma seen_joins (c h : Cluster) (object : option (str * list Z)) (h' : Cluster)
    (P : gmap str (list Z) → Prop) (p : Process) :
  hosted c h → asked c object → seen object h h' P →
  (∀ c1, aside pid c c1 → P (cl_store c1) → cluster_step c1 (with_proc c1 pid p [])) →
  ∃ c', turned c c' p ∧ hosted c' h'.
Proof.
  intros H Ha (m & H1 & Hm & H2) Hstep. destruct (moves_aside c h _ m H Ha H1) as (c1 & A1 & O1).
  destruct (hosted_step c1 m p [] O1) as [T2 O2].
  { apply Hstep; [done|]. by rewrite (be_store _ _ _ (ho_beside _ _ O1)). }
  destruct (moves_aside _ m object h' O2) as (c3 & A3 & O3); [|done|].
  - intros key bytes Ho. apply (tu_requests _ _ _ T2), (as_requests _ _ _ A1). by apply Ha.
  - exists c3. split; [by eapply turned_aside|done].
Qed.

(** The process makes the Seal and is told so. *)
Lemma authored_joins c h seal bytes h' (p : Process) :
  hosted c h → entered (seal_spelling (seal_generation seal)) bytes h h' →
  (∀ c1, aside pid c c1 → cl_store c1 !! seal_spelling (seal_generation seal) = None →
     cluster_step c1 (with_authored c1 pid p seal bytes)) →
  ∃ c', turned c c' p ∧ hosted c' h'.
Proof.
  intros H (m & H1 & Hm & H2) Hstep. destruct (quiet_aside c h m H H1) as (c1 & A1 & O1).
  pose proof (ho_beside _ _ O1) as [E1 R1 P1]. simpl in Hm. rewrite <- E1 in Hm.
  pose proof (Hstep c1 A1 Hm) as Hs. set (c2 := with_authored c1 pid p seal bytes) in *.
  assert (hosted c2 (enter (StoreState := cluster_state pid) (seal_spelling (seal_generation seal)) bytes m)) as O2.
  { split; [eapply reachable_after; [apply O1|by apply rtc_once]|]. split; simpl; [by rewrite E1|done|].
    intros q Hq. rewrite lookup_insert_ne by done. by apply P1. }
  destruct (quiet_aside c2 _ h' O2 H2) as (c3 & A3 & O3). exists c3. split; [|done].
  eapply turned_aside; [exact A1| |exact A3]. split; [by apply rtc_once|apply lookup_insert_eq|done].
Qed.

(** * Bootstrap *)

(** An executed effect is an answer the cluster may give. *)
Lemma effect_joins c b w w' event :
  hosted c (host w) → cl_procs c !! pid = Some (Booting b) →
  bt_answer b = None → execute_effect w (bt_effect b) = Ret (w', event) →
  ∃ c', turned c c' (Booting (answered_with b event)) ∧ hosted c' (host w').
Proof using HL RLL LW LS LD LG SL SZ SS DDL DLL.
  intros H Hl Ha Hx. destruct (cluster_reachable_inv c (ho_reachable _ _ H)) as (i & C).
  pose proof (bo_asked _ _ _ _ (ci_procs _ _ C _ _ Hl)) as Hask. clear i C.
  assert (asked c (effect_object (bt_effect b))) as Hob.
  { intros key bytes Ho. apply Hask.
    destruct (bt_effect b); try done; injection Ho as <- <-; by apply list_elem_of_singleton. }
  apply (execute_effect_answered (ST := ST)) in Hx. pose proof (hosted_asking _ _ _ H Hob) as H'.
  destruct Hx as [Hs|(e & He & -> & Hi)].
  - apply (seen_joins c _ (effect_object (bt_effect b)) (host w') _ _ H' Hob Hs).
    intros c1 [_ P1 _] HL'. by apply step_learn; [rewrite P1|..].
  - apply (authored_joins c _ _ _ (host w') (Booting (answered_with b (ClaimPublished Authored))) H' Hi).
    intros c1 [_ P1 _] Hn. by apply step_claimed; [rewrite P1|..].
Qed.

Section opening.
  Context (interval buffer : Z) (Hbuffer : 1 ≤ buffer ≤ WAL_ENCODED_BYTES_MAX).

(** What a run leaves: the others as its store is left, and of the process a Writer opened
    on the recovery it returned. *)
Definition joined (c : Cluster) (w : World) (result : Result BootstrapExit WriterRecovery) : Prop :=
  beside pid (host w) c ∧
  ∀ recovery, result = Ok recovery →
    ∃ s, sys_init recovery interval buffer = Ret s ∧
      cl_procs c !! pid = Some (Serving (mk_service recovery interval buffer s [] [] None)).

(** The last answer opens the Writer. *)
Lemma open_joins c b event m recovery :
  cluster_reachable c → cl_procs c !! pid = Some (Booting b) → bt_answer b = Some event →
  bootstrap_handle (mk_bootstrap (Some (bt_state b))) event = Ret (m, StepComplete recovery) →
  ∃ s, sys_init recovery interval buffer = Ret s ∧
    cluster_step c (with_proc c pid (Serving (mk_service recovery interval buffer s [] [] None)) []).
Proof using HL RLL LW LS LD LG SL SZ SS DDL DLL Hbuffer.
  intros Hc Hl Ha Hh. destruct (cluster_reachable_inv c Hc) as (h & C).
  destruct (boot_opens c h pid b event m recovery (ci_store _ _ C) (ci_procs _ _ C _ _ Hl) Ha Hh)
    as (t & O).
  destruct (sys_init_ok recovery interval buffer) as (s & Hs & _);
    [by eapply recovered_handoff; [apply O|]|].
  exists s. split; [done|]. by eapply step_open.
Qed.

Lemma loop_joins fuel c b w w' result :
  hosted c (host w) → cl_procs c !! pid = Some (Booting b) → bt_answer b = None →
  bootstrap_loop fuel w (mk_bootstrap (Some (bt_state b))) (StepEffect (bt_effect b)) =
    Ret (Some (w', result)) →
  ∃ c', rtc cluster_step c c' ∧ joined c' w' result.
Proof using HL RLL LW LS LD LG SL SZ SS DDL DLL Hbuffer.
  revert c b w. induction fuel as [|fuel IH]; intros c b w H Hl Ha; cbn [bootstrap_loop]; [done|].
  destruct (execute_effect w (bt_effect b)) as [[w1 event]|] eqn:Hx; cbn [exec_bind]; [|done].
  destruct (effect_joins c b w w1 event H Hl Ha Hx) as (c1 & [S1 P1 R1] & H1).
  destruct (bootstrap_handle _ event) as [[m step]|] eqn:Hh; cbn [exec_bind]; [|done].
  destruct (handle_requested (bt_state b) event m step Hh) as (state & Hm & _).
  destruct m as [st]. cbn [bootstrap_state] in Hm. subst st.
  destruct step as [effect|recovery|exit].
  - set (b' := mk_boot (extend_trace (bt_state b) event (bt_trace b)) state effect None).
    destruct (hosted_step c1 (host w1) (Booting b') (boot_requests pid effect) H1) as [[S2 P2 R2] H2];
      [by eapply (step_boot c1 pid (answered_with b event) event)|].
    intros Hloop. destruct (IH _ b' w1 H2 P2 eq_refl Hloop) as (c' & S' & Hj).
    exists c'. split; [|done]. etrans; [exact S1|]. by etrans.
  - destruct (open_joins c1 (answered_with b event) event _ recovery (ho_reachable _ _ H1) P1 eq_refl Hh)
      as (s & Hi & Hs).
    destruct (hosted_step c1 _ _ _ H1 Hs) as [[S2 P2 R2] H2].
    destruct fuel; intros [= <- <-]; (eexists; split; [etrans; [exact S1|exact S2]|]);
      (split; [apply H2|]); intros r [= <-]; exists s; done.
  - destruct fuel; intros [= <- <-]; exists c1; (split; [done|]); (split; [apply H1|done]).
Qed.

(** The whole run. *)
Lemma bootstrap_joined (fuel : nat) c w w' entropy result :
  cluster_reachable c → beside pid (host w) c → cl_procs c !! pid = None →
  bootstrap fuel w entropy = Ret (Some (w', result)) →
  ∃ c', rtc cluster_step c c' ∧ joined c' w' result.
Proof using HL RLL LW LS LD LG SL SZ SS DDL DLL Hbuffer.
  intros Hc Hw Hn. unfold bootstrap.
  destruct (fork entropy (lit "partition-id")) as [[e g]|]; cbn [exec_bind]; [|done].
  destruct (mint_partition_id g) as [partition|]; cbn [exec_bind]; [|done].
  destruct (bootstrap_handle BootstrapMachine_new (BootstrapStarted partition)) as [[m step]|] eqn:Hh;
    cbn [exec_bind]; [|done].
  pose proof Hh as Hs. cbn in Hs. injection Hs as <- <-. intros Hloop.
  set (b := mk_boot trace_empty (DiscoveringHead partition) ObserveHead None).
  destruct (hosted_step c (host w) (Booting b) []) as [[S1 P1 R1] H1]; [by split|by eapply step_start|].
  destruct (loop_joins fuel _ b w w' result H1 P1 eq_refl Hloop) as (c' & S & Hj).
  exists c'. split; [by etrans|done].
Qed.

(** C7: what the code runs is a process of the cluster, beside live ones.  Start the
    interpreter of the bootstrap as a process that is not yet in a reachable cluster, on a
    backend around whose requests the other processes of that cluster take whatever steps
    they can: Writers write RUNs, publish, checkpoint and collect, other bootstraps claim
    and fence, and requests outstanding, of this process too, land late.  However the run
    ends, the cluster that holds the process has steps to a cluster with the store and the
    other processes as the run leaves them; and when the run returned a recovery, the
    process is then a Writer opened on exactly that recovery, so all that is proved of
    reachable clusters applies to it. *)
Theorem bootstrap_joins (fuel : nat) (c : Cluster) (w w' : World) (entropy : Entropy)
    (result : Result BootstrapExit WriterRecovery) :
  cluster_reachable c → beside pid (host w) c → cl_procs c !! pid = None →
  bootstrap fuel w entropy = Ret (Some (w', result)) →
  ∃ c', rtc cluster_step c c' ∧ joined c' w' result.
Proof using HL RLL LW LS LD LG SL SZ SS DDL DLL Hbuffer. apply bootstrap_joined. Qed.

End opening.

(** * The Writer *)

(** A Writer that has learned more and is otherwise as it was. *)
Record learned_more (v v' : Service) : Prop := {
  lm_recovery : sv_recovery v' = sv_recovery v;
  lm_interval : sv_interval v' = sv_interval v;
  lm_buffer : sv_buffer v' = sv_buffer v;
  lm_system : sv_system v' = sv_system v;
  lm_exit : sv_exit v' = sv_exit v;
  lm_learned : sv_learned v ⊆ sv_learned v'
}.

Lemma learned_more_trans v1 v2 v3 : learned_more v1 v2 → learned_more v2 v3 → learned_more v1 v3.
Proof. intros [] []. split; [congruence..|]. by etrans. Qed.

(** The Writer has the answer to an effect. *)
Definition has_learned (c : Cluster) (v : Service) (w' : World) (effect : WriterEffect)
    (event : WriterEvent) : Prop :=
  ∃ c' v', rtc cluster_step c c' ∧ beside pid (host w') c' ∧
    cl_procs c' !! pid = Some (Serving v') ∧ learned_more v v' ∧ (effect, event) ∈ sv_learned v'.

Lemma learning_more v effect event : learned_more v (learning v effect event).
Proof. split; try done. intros x Hx. apply elem_of_app. by left. Qed.

Lemma learning_has v effect event : (effect, event) ∈ sv_learned (learning v effect event).
Proof. simpl. apply elem_of_app. right. by apply list_elem_of_singleton. Qed.

Lemma turned_learned c c' v w' effect event :
  turned c c' (Serving (learning v effect event)) → hosted c' (host w') →
  has_learned c v w' effect event.
Proof.
  intros [S P _] H. exists c', (learning v effect event).
  split_and!; [done|apply H|done|apply learning_more|apply learning_has].
Qed.

(** An answer of the store that needs no more than its moment. *)
Lemma observed_joins c h v object w' effect event :
  hosted c h → cl_procs c !! pid = Some (Serving v) → effect ∈ sv_effects v → asked c object →
  seen object h (host w') (λ m, service_learns m (sv_tables v) effect event) →
  has_learned c v w' effect event.
Proof.
  intros H Hl He Ha Hs.
  destruct (seen_joins c h object (host w') _ (Serving (learning v effect event)) H Ha Hs) as (c' & T & H').
  - intros c1 [_ P1 _] L. by apply step_observe; [rewrite P1|..].
  - by eapply turned_learned.
Qed.

Lemma wal_joins c v candidate w w' result :
  hosted c (host w) → cl_procs c !! pid = Some (Serving v) →
  EstablishWal candidate ∈ sv_effects v → put_wal pid candidate ∈ cl_requests c →
  establish_wal w candidate = Ret (w', result) →
  has_learned c v w' (EstablishWal candidate) (WalEstablished (encoded_wal_batch candidate) result).
Proof.
  intros H Hl He Ha Hx. apply (establish_wal_seen (ST := ST)) in Hx.
  eapply observed_joins; [by apply (hosted_put _ _ _ _ H Ha)|done|done|by apply asked_some|].
  eapply seen_mono; [|exact Hx]. intros m Hm. by destruct result.
Qed.

Lemma publication_joins c v ticket candidate w w' result :
  hosted c (host w) → cl_procs c !! pid = Some (Serving v) →
  PublishAuthority ticket candidate ∈ sv_effects v →
  put_seal pid (authority_seal candidate) (authority_bytes candidate) ∈ cl_requests c →
  publish_authority w candidate = Ret (w', result) →
  has_learned c v w' (PublishAuthority ticket candidate) (SealPublished ticket result).
Proof.
  intros H Hl He Ha Hx. apply (publish_authority_seen (ST := ST)) in Hx. pose proof (hosted_put _ _ _ _ H Ha) as H'.
  destruct Hx as [Hs|[-> Hi]].
  - eapply observed_joins; [exact H'|done|done|by apply asked_some|].
    eapply seen_mono; [|exact Hs]. intros m Hm. by destruct result as [[]|].
  - set (v' := learning v (PublishAuthority ticket candidate) (SealPublished ticket (Ok Authored))).
    destruct (authored_joins c _ _ _ (host w') (Serving v') H' Hi) as (c' & T & O); [|by eapply turned_learned].
    intros c1 [_ P1 _] Hn. by apply step_published; [rewrite P1|..].
Qed.

(** ** Preparation *)

Lemma tables_join c v input w tables w' r :
  hosted c (host w) → cl_procs c !! pid = Some (Serving v) →
  PrepareCheckpoint input ∈ sv_effects v → tables ⊆ written_tables input →
  (∀ t, t ∈ written_tables input → put_table pid t ∈ cl_requests c) →
  establish_tables w tables = Ret (w', r) →
  ∃ c' v', turned c c' (Serving v') ∧ hosted c' (host w') ∧
    learned_more v v' ∧ sv_tables v ⊆ sv_tables v' ∧ (r = TableEstablished → tables ⊆ sv_tables v').
Proof.
  revert c v w. induction tables as [|t tables IH]; intros c v w H Hl He Hsub Hask; cbn [establish_tables].
  { intros [= <- <-]. exists c, v. split_and!; try done. intros _ t ?%not_elem_of_nil. done. }
  destruct (establish_table w t) as [[w1 est]|] eqn:Hx; cbn [exec_bind]; [|done].
  apply (establish_table_seen (ST := ST)) in Hx. assert (t ∈ written_tables input) as Ht by (apply Hsub; by left).
  pose proof (hosted_put _ _ _ _ H (Hask t Ht)) as H0. pose proof (asked_some _ _ _ (Hask t Ht)) as Ha.
  assert (est = TableEstablished ∨ est ≠ TableEstablished) as [->|Hne] by (destruct est; auto).
  - destruct (seen_joins c _ _ (host w1) _ (Serving (tabling v t)) H0 Ha Hx) as (c1 & T1 & H1).
    { intros c2 [_ P2 _] Hm. by eapply (step_table _ pid v input); [rewrite P2|..|apply Hm]. }
    intros Hloop. destruct (IH c1 (tabling v t) w1 H1 (tu_proc _ _ _ T1) He)
      as (c' & v' & T & H' & M & Tb & D); [|..|done|].
    + intros x Hx'. apply Hsub. by right.
    + intros x Hx'. by apply (tu_requests _ _ _ T1), Hask.
    + exists c', v'. split_and!; [by eapply turned_trans|done|..].
      * eapply learned_more_trans; [|exact M]. done.
      * etrans; [|exact Tb]. intros x Hx'. apply elem_of_app. by left.
      * intros Hr x [->|Hx']%elem_of_cons; [|by apply D]. apply Tb, elem_of_app. right.
        by apply list_elem_of_singleton.
  - destruct (seen_aside c _ _ (host w1) _ H0 Ha Hx) as (c1 & [S1 P1 R1] & H1).
    assert (turned c c1 (Serving v) ∧ hosted c1 (host w1) ∧ learned_more v v ∧ sv_tables v ⊆ sv_tables v)
      as HX by (split_and!; try done; split; [done|by rewrite P1|done]).
    destruct est; [done|intros [= <- <-]; exists c1, v; naive_solver..].
Qed.

(** ** Collection *)

(** A delete that was asked for lands among the steps of the others, or never. *)
Lemma erased_aside c h key h' :
  hosted c h → Remove key ∈ cl_requests c → erased key h h' → ∃ c', aside pid c c' ∧ hosted c' h'.
Proof.
  intros H Hp (m & H1 & H2). destruct (quiet_aside c h m H H1) as (c1 & A1 & O1).
  destruct H2 as [H2|[_ H2]].
  - pose proof (be_store _ _ _ (ho_beside _ _ O1)) as E1.
    destruct (hosted_store c1 m (delete key (cl_store m)) O1) as [A2 O2].
    { rewrite <- E1. apply (step_remove c1 key). by apply (as_requests _ _ _ A1). }
    destruct (quiet_aside _ _ h' O2 H2) as (c3 & A3 & O3). exists c3. split; [|done].
    eapply aside_trans; [exact A1|]. by eapply aside_trans.
  - destruct (quiet_aside _ _ h' O1 H2) as (c3 & A3 & O3). exists c3. split; [by eapply aside_trans|done].
Qed.

(** A delete request, whatever is learned of it. *)
Lemma removal_aside c h key h' :
  hosted c h → Remove key ∈ cl_requests c →
  let sent := with_requests h [Remove key] in
  rtc (other_step pid) sent h' ∨ erased key sent h' → ∃ c', aside pid c c' ∧ hosted c' h'.
Proof.
  intros H Hin sent Hd.
  assert (hosted c sent) as H' by (apply hosted_asked; [done|]; by intros r ->%list_elem_of_singleton).
  destruct Hd as [Hd|Hd]; [by eapply quiet_aside|by eapply erased_aside].
Qed.

(** The Writer asks for a delete. *)
Lemma asks_aside c h v key :
  hosted c h → cl_procs c !! pid = Some (Serving v) →
  cluster_step c (with_proc c pid (Serving v) [Remove key]) →
  ∃ c', aside pid c c' ∧ hosted c' h ∧ Remove key ∈ cl_requests c'.
Proof.
  intros H Hl Hs. destruct (hosted_step c h _ _ H Hs) as [[S P R] H1].
  eexists. split; [|split; [exact H1|]].
  - split; [done|by rewrite P|done].
  - apply elem_of_app. right. by apply list_elem_of_singleton.
Qed.

(** The Writer that collects. *)
Record collects (c : Cluster) (w : World) (v : Service) (input : CollectionInput) : Prop := {
  cs_hosted : hosted c (host w);
  cs_proc : cl_procs c !! pid = Some (Serving v);
  cs_effect : Collect input ∈ sv_effects v
}.

Lemma collects_later c w v input w' c' :
  collects c w v input → aside pid c c' → hosted c' (host w') → collects c' w' v input.
Proof. intros [_ H2 H3] [_ P _] H. split; [done|by rewrite P|done]. Qed.

Lemma collect_batch_aside c w v input batch w' continue :
  collects c w v input →
  seal_cut (collection_source input) < coord_get batch ≤ coord_get (collection_cut input) →
  collect_batch w (seal_partition (collection_source input)) batch = Ret (w', continue) →
  ∃ c', aside pid c c' ∧ hosted c' (host w').
Proof.
  intros [H Hl He] Hb. unfold collect_batch. set (partition := seal_partition _).
  destruct (read_wal_says (ST := ST) w partition batch) as (w1 & r & -> & H1 & Hr). cbn [exec_bind].
  pose proof (quiet_aside c _ _ H H1) as Hidle.
  destruct r as [[observed|]|]; [|by intros [= <- <-]..].
  unfold into_run_delete. destruct (wal_body (observed_object observed)) as [facts|] eqn:Hbody;
    [|by intros [= <- <-]].
  destruct Hr as (m & H2 & (bytes & Hm & Hd & _) & H3).
  pose proof (decode_wal_checked partition batch bytes) as Hi. rewrite Hd in Hi. destruct Hi as (_ & Hbw & _).
  destruct (delete_run_says (ST := ST) w1 (mk_run_delete (wal_batch (observed_object observed))
    (observed_validator observed))) as (w2 & r & -> & Hr). cbn [exec_bind run_delete_batch] in *.
  rewrite Hbw in Hr. intros [= <- <-].
  destruct (quiet_aside c _ m H H2) as (c1 & A1 & O1).
  pose proof (be_store _ _ _ (ho_beside _ _ O1)) as E1. simpl in Hm.
  destruct (asks_aside c1 m v (wal_spelling batch) O1) as (c2 & A2 & O2 & Hin).
  { by rewrite (as_proc _ _ _ A1). }
  { eapply (step_collect c1 pid v input batch bytes); try done; [by rewrite (as_proc _ _ _ A1)|by rewrite E1]. }
  destruct (quiet_aside _ m _ O2 H3) as (c3 & A3 & O3).
  destruct (removal_aside c3 (host w1) (wal_spelling batch) (host w2) O3) as (c4 & A4 & O4).
  { by apply (as_requests _ _ _ A3). }
  { destruct r; auto. }
  exists c4. split; [|done]. eapply aside_trans; [exact A1|]. eapply aside_trans; [exact A2|].
  by eapply aside_trans.
Qed.

Lemma collect_loop_aside fuel c w v input batch w' continue :
  collects c w v input →
  seal_cut (collection_source input) < coord_get batch ≤ coord_get (collection_cut input) →
  collect_loop fuel w (seal_partition (collection_source input)) (collection_cut input) batch =
    Ret (Some (w', continue)) →
  ∃ c', aside pid c c' ∧ hosted c' (host w').
Proof.
  revert c w batch. induction fuel as [|fuel IH]; intros c w batch Hc Hb; cbn [collect_loop]; [done|].
  destruct (collect_batch _ _ _) as [[w1 next]|] eqn:Hx; cbn [exec_bind]; [|done].
  destruct (collect_batch_aside _ _ _ _ _ _ _ Hc Hb Hx) as (c1 & A1 & O1).
  destruct next; [|intros [= <- <-]; eauto].
  case_bool_decide as Heq; [intros [= <- <-]; eauto|]. rewrite coord_eq_iff in Heq.
  destruct (successor batch) as [next|] eqn:Hn; cbn [expect_ok exec_bind]; [|done].
  apply successor_Ok in Hn. intros Hloop.
  destruct (IH c1 w1 next) as (c2 & A2 & O2); [by eapply collects_later|lia|done|].
  exists c2. split; [by eapply aside_trans|done].
Qed.

Lemma collect_tables_aside c w v input objects w' :
  collects c w v input → objects ⊆ dropped_by input →
  collect_tables w objects = Ret w' → ∃ c', aside pid c c' ∧ hosted c' (host w').
Proof.
  revert c w. induction objects as [|object objects IH]; intros c w C Hsub; cbn [collect_tables].
  { intros [= <-]. exists c. split; [apply aside_refl|apply C]. }
  destruct (delete_table_says (ST := ST) w object) as (w1 & r & -> & Hr). cbn [exec_bind].
  destruct (asks_aside c (host w) v (TableKey_display (mk_table_key object))) as (c1 & A1 & O1 & Hin);
    [apply C..| |].
  { apply (step_drop c pid v input); [apply C..|]. apply Hsub. by left. }
  destruct (removal_aside c1 (host w) _ (host w1) O1 Hin) as (c2 & A2 & O2); [destruct r; auto|].
  pose proof (aside_trans _ _ _ _ A1 A2) as A. destruct r as [u|e]; [|intros [= <-]; eauto]. intros Hrest.
  destruct (IH c2 w1) as (c3 & A3 & O3); [by eapply collects_later| |done|].
  - intros x Hx. apply Hsub. by right.
  - exists c3. split; [by eapply aside_trans|done].
Qed.

Lemma collect_aside fuel c w v input w' :
  collects c w v input → seal_cut (collection_source input) < coord_get (collection_cut input) →
  collect fuel w input = Ret (Some w') → ∃ c', aside pid c c' ∧ hosted c' (host w').
Proof.
  intros C Hcut. unfold collect. destruct (collect_first _ _ Hcut) as (first & -> & Hfirst & _).
  cbn [exec_bind].
  destruct (collect_loop _ _ _ _ _) as [[[w1 runs]|]|] eqn:Hl; cbn [exec_bind]; [|done..].
  destruct (collect_loop_aside _ c w v input first _ _ C ltac:(lia) Hl) as (c1 & A1 & O1).
  destruct runs; [|intros [= <-]; eauto].
  destruct (collect_tables w1 _) as [w2|] eqn:Ht; cbn [exec_bind]; [|done]. intros [= <-].
  destruct (collect_tables_aside c1 w1 v input (dropped_by input) w2) as (c2 & A2 & O2); [|done|done|].
  - by eapply collects_later.
  - exists c2. split; [by eapply aside_trans|done].
Qed.

(** ** Tasks *)

(** The input of a preparation a live Writer has outstanding, and what it sends. *)
Lemma outstanding_input c h v input :
  service_ok c h pid v → sv_exit v = None → PrepareCheckpoint input ∈ sv_effects v → input_ok input.
Proof using HL LW SL.
  intros O Hx He. destruct (so_opened _ _ _ _ O) as (t & [R _ _]).
  destruct (reachable_lineage _ _ _ _ (recovered_handoff _ _ _ R (so_buffer _ _ _ _ O))
    (recovered_base_ok _ _ R) (lo_reach _ _ _ _ (so_live _ _ _ _ O Hx))) as (log & _ & Ln).
  by apply (ln_prepare _ _ _ _ Ln).
Qed.

Lemma sent_written input sent result :
  input_ok input → prepare_checkpoint (λ _ _, true) input = Ret (sent, result) →
  sent ⊆ written_tables input.
Proof using HL LS LD LG SZ SS DDL DLL.
  intros Hin Hp. unfold written_tables. rewrite Hp.
  destruct (prepare_checkpoint_Ret (λ _ _, true) input Hin) as (sent' & r & Hp' & Hm).
  rewrite Hp in Hp'. injection Hp' as <- <-. apply prepare_checkpoint_built in Hp.
  destruct result as [[prepared|]|]; [done|by destruct Hm|by rewrite Hp].
Qed.

Lemma preparation_joins c v order join_error input w w' outcome :
  hosted c (host w) → cl_procs c !! pid = Some (Serving v) →
  sv_exit v = None → PrepareCheckpoint input ∈ sv_effects v → (∀ l, order l ≡ₚ l) →
  prepare order join_error w input = Ret (w', outcome) →
  let event := CheckpointPrepared (input_ticket input) outcome in
  has_learned c v w' (PrepareCheckpoint input) event ∧
  answers (i_aborted (s_interp (sv_system v))) (PrepareCheckpoint input) event.
Proof using HL RLL LW LS LD LG SL SZ SS DDL DLL.
  intros H Hl Hx He Hord Hp event. destruct (cluster_reachable_inv c (ho_reachable _ _ H)) as (i & C).
  pose proof (ci_procs _ _ C _ _ Hl) as O. pose proof (outstanding_input _ _ _ _ O Hx He) as Hin.
  destruct (prepare_checkpoint_Ret (λ _ _, true) input Hin) as (sent & result & Hr & _).
  unfold prepare in Hp. rewrite Hr in Hp. pose proof (prepare_checkpoint_built _ _ _ _ Hr) as Hb.
  destruct (establish_tables w (order sent)) as [[w1 est]|] eqn:Hest; cbn [exec_bind] in Hp; [|done].
  injection Hp as <- Hout.
  destruct (tables_join c v input w (order sent) w1 est) as (c1 & v1 & T1 & H1 & M1 & _ & D1); try done.
  { rewrite Hord. by eapply sent_written. }
  { intros t Ht. apply (so_asked _ _ _ _ O _ _ He). by apply list_elem_of_fmap_2. }
  assert (has_learned c1 v1 w1 (PrepareCheckpoint input) event ∧
    answers (i_aborted (s_interp (sv_system v))) (PrepareCheckpoint input) event)
    as [(c' & v' & S & E & P & M & Hev) Hans].
  { split.
    - apply (observed_joins c1 (host w1) v1 None); [done|apply T1| |done|].
      + unfold sv_effects. by rewrite (lm_system _ _ M1).
      + apply seen_end; [by apply moves_quiet|]. unfold event. rewrite <- Hout.
        destruct est as [| |detail]; [|done|done]. destruct result as [[prepared|]|]; [|done|done].
        exists sent. split; [done|]. intros t Ht. apply (D1 eq_refl). by rewrite Hord.
    - unfold event. rewrite <- Hout. destruct est as [| |detail]; [|constructor|constructor].
      destruct result as [[prepared|]|]; [|constructor..]. destruct Hb as (next & candidate & Hb).
      by econstructor. }
  split; [|done]. exists c', v'. split_and!; try done; [etrans; [apply T1|done]|by eapply learned_more_trans].
Qed.

(** Any task. *)
Lemma task_joined (order : list EncodedTable → list EncodedTable) (join_error : str) (fuel : nat)
    (c : Cluster) (v : Service) (w w' : World) (effect : WriterEffect) (event : WriterEvent) :
  cluster_reachable c → beside pid (host w) c → cl_procs c !! pid = Some (Serving v) →
  sv_exit v = None → effect ∈ sv_effects v → (∀ l, order l ≡ₚ l) →
  run_effect order join_error fuel w effect = Ret (Some (w', event)) →
  answers (i_aborted (s_interp (sv_system v))) effect event ∧
  has_learned c v w' effect event.
Proof using HL RLL LW LS LD LG SL SZ SS DDL DLL.
  intros Hc Hw Hl Hx He Hord. destruct (cluster_reachable_inv c Hc) as (i & C).
  assert (hosted c (host w)) as H by (by split).
  pose proof (ci_procs _ _ C _ _ Hl) as O. pose proof (so_asked _ _ _ _ O effect) as Hask.
  destruct effect as [e|input|t e|input]; cbn [run_effect].
  - destruct (establish_wal w e) as [[w1 r]|] eqn:Hr; cbn [exec_bind]; [|done]. intros [= <- <-].
    split; [constructor|]. eapply wal_joins; try done. apply Hask; [done|]. by apply list_elem_of_singleton.
  - destruct (prepare order join_error w input) as [[w1 r]|] eqn:Hr; cbn [exec_bind]; [|done].
    intros [= <- <-]. apply and_comm. by eapply preparation_joins.
  - destruct (publish_authority w e) as [[w1 r]|] eqn:Hr; cbn [exec_bind]; [|done]. intros [= <- <-].
    split; [constructor|]. eapply publication_joins; try done. apply Hask; [done|].
    by apply list_elem_of_singleton.
  - destruct (collect fuel w input) as [[w1|]|] eqn:Hr; cbn [exec_bind]; [|done..]. intros [= <- <-].
    split; [constructor|]. destruct (so_effects _ _ _ _ O _ He) as (s & _ & Hcut).
    destruct (collect_aside fuel c w v input w1) as (c1 & [S1 P1 _] & H1); [by split|lia|done|].
    destruct (observed_joins c1 (host w1) v None w1 (Collect input) (CollectFinished (collection_cut input)))
      as (c' & v' & S & H'); [done|by rewrite P1|done|done| |].
    + by apply seen_end; [apply moves_quiet|].
    + exists c', v'. split; [by etrans|done].
Qed.

(** C8: what the Writer's tasks do are steps of the cluster, beside live processes.  Take
    a live Writer of a reachable cluster and any effect it has outstanding; run the task
    the effect was spawned as, on a backend around whose requests the other processes of
    the cluster take whatever steps they can, so that another process may claim, fence or
    collect meanwhile.  However the task's requests fare, the cluster has steps to one
    with the store and the other processes as the task leaves them, after which the Writer
    has learned exactly the event the task completes with, an event the Writer's loop
    accepts for that effect. *)
Theorem task_joins (order : list EncodedTable → list EncodedTable) (join_error : str) (fuel : nat)
    (c : Cluster) (v : Service) (w w' : World) (effect : WriterEffect) (event : WriterEvent) :
  cluster_reachable c → beside pid (host w) c → cl_procs c !! pid = Some (Serving v) →
  sv_exit v = None → effect ∈ sv_effects v → (∀ l, order l ≡ₚ l) →
  run_effect order join_error fuel w effect = Ret (Some (w', event)) →
  answers (i_aborted (s_interp (sv_system v))) effect event ∧
  has_learned c v w' effect event.
Proof using HL RLL LW LS LD LG SL SZ SS DDL DLL. apply task_joined. Qed.

End joining.
