(* ===== verification/ClusterSample.v ===== *)
(** Concrete clusters: the theorems on many processes apply to runs of the code.

    On a shared store that runs (ClusterHost.v) a process bootstraps, serves a create and
    acknowledges it; then another process bootstraps on the store the first one left.  Two
    more runs interleave: a process bootstraps while the RUN of a live Writer lands just
    before its FENCE, and a Writer sends its RUN while the FENCE of another process, which
    was thought lost, lands first.  The paths of the cluster are the ones the linking
    theorems of ClusterRun.v give for these runs. *)

From S2P Require Import Prelude OrdMap Text Domain Coordinates Partition Seal Wal Forest.
From S2P Require Import ForestTheory Archive Spelling Sst Writer WriterSafety WriterSystem.
From S2P Require Import Bootstrap BootstrapSafety Recovery ObjectStore Stores StoreTheory Common.
From S2P Require Import BootstrapRun Checkpoint CheckpointTheory CheckpointSafety.
From S2P Require Import CheckpointLink CheckpointRun Cluster ClusterInv ClusterStore ClusterBoot.
From S2P Require Import ClusterWriter ClusterServe ClusterStep ClusterSafety ClusterHost ClusterMoments.
From S2P Require Import ClusterRun.

#[local] Existing Instances reference_heap reference_heap_laws reference_jiff reference_layout
  reference_layout_laws reference_rkyv_laws reference_diff reference_diff_laws reference_format
  reference_generator.
#[local] Existing Instances sample_size_law sample_sst_size sample_seal_size.
#[local] Existing Instance reference_rkyv.

(** * The runs *)

Definition start_world : Shared := mk_shared ∅ [] [].

(** A bootstrap of a process, and a task of one. *)
Definition Booted : Type := Exec (option (Shared * Result BootstrapExit WriterRecovery)).
Definition Tasked : Type := Exec (option (Shared * WriterEvent)).
Definition boot (pid : nat) (w : Shared) : Booted :=
  bootstrap (B := shared_backend pid) 20 w sample_entropy.
Definition task (pid : nat) (w : Shared) (effect : WriterEffect) : Tasked :=
  run_effect (B := shared_backend pid) id [] 0 w effect.

Definition booted (x : Booted) : bool :=
  match x with Ret (Some (_, Ok _)) => true | _ => false end.
Definition boot_of (x : Booted) : Shared * WriterRecovery :=
  match x with Ret (Some (w, Ok r)) => (w, r) | _ => (start_world, sample_recovery) end.

Lemma booted_of x : booted x = true → x = Ret (Some ((boot_of x).1, Ok (boot_of x).2)).
Proof. by destruct x as [[[w [r|]]|]|]. Qed.

(** The first process opens the empty store, and is started. *)
Definition first_boot : Booted := boot 0 start_world.
Definition first_world : Shared := (boot_of first_boot).1.
Definition first_recovery : WriterRecovery := (boot_of first_boot).2.
Definition first_s0 : System :=
  match sys_init first_recovery 0 4096 with Ret s => s | Panic => sample_s0 end.
Definition first_s1 : System := or_else (react first_s0 0 Started) first_s0.

(** It takes a create, which goes to the WAL. *)
Definition first_s2 : System :=
  or_else (react (receive sample_create first_s1) 1 (Command sample_create)) first_s1.
Definition first_effect : WriterEffect := EstablishWal (sole_candidate first_s2).
Definition sent_world : Shared := mk_shared (sh_store first_world) [] [].
Definition first_task : Tasked := task 0 sent_world first_effect.
Definition task_of (x : Tasked) : Shared * WriterEvent :=
  match x with Ret (Some out) => out | _ => (start_world, Started) end.
Definition second_world : Shared := (task_of first_task).1.

(** The WAL object is durable and the create is acknowledged. *)
Definition first_event : WriterEvent := (task_of first_task).2.
Definition first_s3 : System :=
  or_else (react (taken first_s2 [] [] first_effect first_event) 2 first_event) first_s2.

(** Another process opens the store the first one left. *)
Definition second_boot : Booted := boot 1 (mk_shared (sh_store second_world) [] []).
Definition second_recovery : WriterRecovery := (boot_of second_boot).2.

(** Another process opens the store while the first one has its RUN outstanding: the RUN
    lands just before the FENCE is created. *)
Definition first_request : Request := put_wal 0 (sole_candidate first_s2).
Definition race_world : Shared :=
  mk_shared (sh_store first_world) [first_request] [Idle; Idle; Idle; Idle; Idle; Lands 0].
Definition race_boot : Booted := boot 1 race_world.

(** Or its FENCE is lost on the way, and the process ends. *)
Definition lost_world : Shared :=
  mk_shared (sh_store first_world) [first_request] [Idle; Idle; Idle; Idle; Idle; Loses].
Definition lost_boot : Booted := boot 1 lost_world.
Definition left_of (x : Booted) : Shared :=
  match x with Ret (Some (w, _)) => w | _ => start_world end.

(** Then the first process sends its RUN, and the lost FENCE lands before it. *)
Definition late_world : Shared :=
  mk_shared (sh_store (left_of lost_boot)) (sh_requests (left_of lost_boot)) [Lands 2].
Definition late_task : Tasked := task 0 late_world first_effect.

Definition claimed (r : WriterRecovery) : Z := coord_get (claim_generation (recovery_claim r)).

Lemma first_booted : first_boot = Ret (Some (first_world, Ok first_recovery)).
Proof. apply booted_of. vm_compute. reflexivity. Qed.
Lemma second_booted : second_boot = Ret (Some ((boot_of second_boot).1, Ok second_recovery)).
Proof. apply booted_of. vm_compute. reflexivity. Qed.
Lemma race_booted : race_boot = Ret (Some ((boot_of race_boot).1, Ok (boot_of race_boot).2)).
Proof. apply booted_of. vm_compute. reflexivity. Qed.

(** The race is lost to the RUN, which is recovered: the FENCE is at the next coordinate. *)
Lemma race_recovers :
  length (sh_requests (boot_of race_boot).1) = 4%nat ∧
  coord_get (recovery_durable_batch (boot_of race_boot).2) = 3 ∧
  size (directory (recovery_durable (boot_of race_boot).2)) = 1%nat.
Proof. split_and!; vm_compute; reflexivity. Qed.

Lemma first_lives :
  lives (react first_s0 0 Started) = true ∧
  lives (react (receive sample_create first_s1) 1 (Command sample_create)) = true ∧
  lives (react (taken first_s2 [] [] first_effect first_event) 2 first_event) = true.
Proof. split_and!; vm_compute; reflexivity. Qed.

Lemma first_started :
  w_started (s_machine first_s0) = false ∧ w_started (s_machine first_s1) = true ∧
  w_started (s_machine first_s2) = true.
Proof. split_and!; vm_compute; reflexivity. Qed.

Lemma first_attempts :
  w_checkpoint_attempt (s_machine first_s0) < u64_max ∧
  w_checkpoint_attempt (s_machine first_s1) < u64_max ∧
  w_checkpoint_attempt (s_machine first_s2) < u64_max.
Proof. split_and!; vm_compute; reflexivity. Qed.

Lemma first_admits : admission_open (s_machine first_s1) = Ret true.
Proof. vm_compute. reflexivity. Qed.

Lemma first_ran :
  match first_task with Ret (Some (_, WalEstablished _ (Ok WalDurable))) => true | _ => false end = true.
Proof. vm_compute. reflexivity. Qed.

Lemma first_effects : i_effects (s_interp first_s2) = [first_effect].
Proof.
  assert (match i_effects (s_interp first_s2) with [EstablishWal _] => true | _ => false end = true) as F
    by (vm_compute; reflexivity).
  unfold first_effect, sole_candidate. by destruct (i_effects (s_interp first_s2)) as [|[] []].
Qed.

Lemma first_sent : length (i_sent (s_interp first_s3)) = 1%nat.
Proof. vm_compute. reflexivity. Qed.

Lemma claims_rise : claimed first_recovery < claimed second_recovery.
Proof. vm_compute. reflexivity. Qed.

(** * The path *)

(** A shared store with the contents of a cluster, some of its requests, and its other
    processes. *)
Lemma shared_beside (c : Cluster) (pid : nat) (w : Shared) :
  cl_store c = sh_store w → sh_requests w ⊆ cl_requests c →
  beside pid (shared_state pid (cl_procs c) w) c.
Proof. intros Hs Hr. split; [done|done|]. intros q Hq. simpl. by rewrite lookup_delete_ne. Qed.

Lemma none_requested (c : Cluster) (d : gmap str (list Z)) (script : list Turn) :
  sh_requests (mk_shared d [] script) ⊆ cl_requests c.
Proof. intros r Hin. by apply not_elem_of_nil in Hin. Qed.

Lemma one_request (c : Cluster) (d : gmap str (list Z)) (r : Request) (script : list Turn) :
  r ∈ cl_requests c → sh_requests (mk_shared d [r] script) ⊆ cl_requests c.
Proof. intros Hr x ->%list_elem_of_singleton. done. Qed.

(** A Writer of the cluster, in a given state, over a given store, beside given others. *)
Record stage (c : Cluster) (d : gmap str (list Z)) (others : gmap nat Process) (pid : nat) (v : Service)
    (r : WriterRecovery) (s : System) : Prop := {
  st_reachable : cluster_reachable c;
  st_store : cl_store c = d;
  st_others : ∀ q, q ≠ pid → cl_procs c !! q = others !! q;
  st_proc : cl_procs c !! pid = Some (Serving v);
  st_recovery : sv_recovery v = r;
  st_system : sv_system v = s;
  st_exit : sv_exit v = None
}.

Lemma sample_buffer : 1 ≤ 4096 ≤ WAL_ENCODED_BYTES_MAX.
Proof. unfold_bounds. lia. Qed.

Lemma stage_joined (c : Cluster) (w w' : Shared) (pid : nat) (r : WriterRecovery) :
  cluster_reachable c → cl_store c = sh_store w → sh_requests w ⊆ cl_requests c → cl_procs c !! pid = None →
  boot pid w = Ret (Some (w', Ok r)) →
  ∃ c' v s, rtc cluster_step c c' ∧ sys_init r 0 4096 = Ret s ∧
    stage c' (sh_store w') (cl_procs c) pid v r s.
Proof.
  intros Hc Hw Hq Hn Hb.
  destruct (bootstrap_joined pid (ST := shared_laws pid (cl_procs c)) 0 4096 sample_buffer 20 c w w'
    sample_entropy (Ok r) Hc (shared_beside c pid w Hw Hq) Hn Hb) as (c' & S & [Es _ Ep] & Hj).
  destruct (Hj r eq_refl) as (s & Hs & Hl). exists c', (mk_service r 0 4096 s [] [] None), s.
  split; [done|]. split; [done|]. split; try done; [by eapply reachable_after|].
  intros q Hne. rewrite (Ep q Hne). simpl. by rewrite lookup_delete_ne.
Qed.

Lemma stage_local (c : Cluster) (d : gmap str (list Z)) (others : gmap nat Process) (pid : nat) (v : Service)
    (r : WriterRecovery) (s s1 : System) (now : Z) (event : WriterEvent) :
  stage c d others pid v r s → w_checkpoint_attempt (s_machine s) < u64_max → observes s event s1 →
  local_event event → lives (react s1 now event) = true →
  ∃ c' v', stage c' d others pid v' r (or_else (react s1 now event) s).
Proof.
  intros [Hc Hw Hq Hl Hr <- Hx] Ha Ho He Hlive. apply (lives_or_else _ (sv_system v)) in Hlive.
  exists (serve c pid v (or_else (react s1 now event) (sv_system v)) None),
    (running v (or_else (react s1 now event) (sv_system v)) None).
  split; try done; [| |apply lookup_insert_eq].
  - eapply rtc_r; [exact Hc|]. by eapply step_local.
  - intros q Hne. simpl. rewrite lookup_insert_ne by done. by apply Hq.
Qed.

Lemma stage_started :
  ∃ c v, stage c (sh_store first_world) ∅ 0 v first_recovery first_s1.
Proof.
  destruct (stage_joined cluster_init start_world first_world 0 first_recovery) as (c & v & s & _ & Hs & X);
    [apply rtc_refl|reflexivity|reflexivity|reflexivity|apply first_booted|].
  assert (s = first_s0) as -> by (unfold first_s0; by rewrite Hs).
  apply (stage_local c (sh_store first_world) ∅ 0 v first_recovery first_s0 first_s0 0 Started);
    [exact X|apply first_attempts| |exact I|apply first_lives].
  apply observes_start, first_started.
Qed.

(** The first Writer has its RUN outstanding. *)
Lemma stage_sent :
  ∃ c v, stage c (sh_store first_world) ∅ 0 v first_recovery first_s2 ∧ first_effect ∈ sv_effects v ∧
    first_request ∈ cl_requests c.
Proof.
  destruct stage_started as (c & v & X).
  destruct (stage_local c (sh_store first_world) ∅ 0 v first_recovery first_s1 (receive sample_create first_s1) 1
    (Command sample_create)) as (c' & v' & X');
    [exact X|apply first_attempts| |exact I|apply first_lives|].
  { apply observes_command; [apply first_started|apply first_admits]. }
  exists c', v'. split; [exact X'|]. destruct X' as [Hc Hw Hq Hl Hr Hs Hx].
  assert (first_effect ∈ sv_effects v') as He.
  { unfold sv_effects. rewrite Hs. fold first_s2. rewrite first_effects. by apply list_elem_of_singleton. }
  split; [exact He|]. destruct (cluster_reachable_inv c' Hc) as (h & C).
  apply (so_asked _ _ _ _ (ci_procs _ _ C _ _ Hl) _ _ He). by apply list_elem_of_singleton.
Qed.

Lemma first_established :
  ∃ result, establish_wal (B := shared_backend 0) sent_world (sole_candidate first_s2) =
      Ret (second_world, result) ∧
    first_event = WalEstablished (encoded_wal_batch (sole_candidate first_s2)) result.
Proof.
  pose proof first_ran as F.
  unfold second_world, first_event. revert F. unfold first_task, task, first_effect. cbn [run_effect].
  destruct (establish_wal (B := shared_backend 0) sent_world (sole_candidate first_s2)) as [[w r]|];
    cbn [exec_bind task_of fst snd]; [|discriminate]. intros _. exists r. split; reflexivity.
Qed.

(** The create reaches the store and is acknowledged. *)
Lemma stage_acknowledged : ∃ c v, stage c (sh_store second_world) ∅ 0 v first_recovery first_s3.
Proof.
  destruct stage_sent as (c & v & [Hc Hw Hq Hl Hr Hs Hx] & He & Hask).
  destruct first_established as (result & Hest & Hev).
  destruct (wal_joins 0 (ST := shared_laws 0 (cl_procs c)) c v (sole_candidate first_s2) sent_world second_world
    result) as (c' & v' & S & [Ec _ Ep] & P & [Er Ei Eb Es Ex _] & Hlearn).
  { split; [exact Hc|]. apply shared_beside; [exact Hw|apply none_requested]. }
  { exact Hl. } { exact He. } { exact Hask. } { exact Hest. }
  pose proof (lives_or_else _ first_s2 (proj2 (proj2 first_lives))) as L.
  exists (serve c' 0 v' first_s3 None), (running v' first_s3 None).
  split; [|exact Ec| |apply lookup_insert_eq|rewrite <- Hr; exact Er|reflexivity|reflexivity].
  2: { intros q Hne. simpl. rewrite lookup_insert_ne by done. rewrite (Ep q Hne). simpl.
       rewrite lookup_delete_ne by done. by apply Hq. }
  eapply rtc_r; [exact (reachable_after _ _ Hc S)|].
  apply (step_complete c' 0 v' 2 first_effect first_event [] []).
  - exact P.
  - rewrite Ex. exact Hx.
  - rewrite Es, Hs. apply first_attempts.
  - rewrite Es, Hs. apply first_started.
  - unfold sv_effects. rewrite Es, Hs, first_effects. reflexivity.
  - rewrite Hev. exact Hlearn.
  - rewrite Hev. apply answers_wal.
  - rewrite Es, Hs. exact L.
Qed.

(** Then another process takes over. *)
Lemma stage_taken_over :
  ∃ c c' q v w, cluster_reachable c ∧ rtc cluster_step c c' ∧
    cl_procs c' !! 0%nat = Some (Serving v) ∧ cl_procs c' !! q = Some (Serving w) ∧
    sv_recovery v = first_recovery ∧ sv_recovery w = second_recovery ∧
    i_sent (s_interp (sv_system v)) ≠ [] ∧ 0%nat ≠ q.
Proof.
  destruct stage_acknowledged as (c & v & [Hc Hw Hq Hl Hr Hs Hx]).
  destruct (stage_joined c (mk_shared (sh_store second_world) [] []) (boot_of second_boot).1 1 second_recovery)
    as (c' & w & s & S & _ & [Hc' Hw' _ Hl' Hr' _ _]);
    [exact Hc|exact Hw|apply none_requested|rewrite Hq by done; reflexivity|apply second_booted|].
  destruct (cluster_run_stays c c' 0 v S Hl) as (v' & Hv' & Er & Hp).
  exists c, c', 1%nat, v', w.
  split; [exact Hc|]. split; [exact S|]. split; [exact Hv'|]. split; [exact Hl'|].
  split; [rewrite Er; exact Hr|]. split; [exact Hr'|]. split; [|discriminate].
  rewrite Hs in Hp. pose proof first_sent as F. intros E. rewrite E in Hp. apply prefix_nil_inv in Hp.
  by rewrite Hp in F.
Qed.

(** The other process ends without its FENCE: the first Writer is as it was, and the FENCE
    is outstanding. *)
Lemma lost_ended :
  match lost_boot with Ret (Some (_, Err _)) => true | _ => false end &&
  bool_decide (length (sh_requests (left_of lost_boot)) = 3%nat) = true.
Proof. vm_compute. reflexivity. Qed.

Lemma stage_lost :
  ∃ c v, stage c (sh_store late_world) (cl_procs c) 0 v first_recovery first_s2 ∧
    first_effect ∈ sv_effects v ∧ sh_requests late_world ⊆ cl_requests c.
Proof.
  destruct stage_sent as (c & v & [Hc Hw Hq Hl Hr Hs Hx] & He & Hask).
  pose proof lost_ended as F. apply andb_true_iff in F as [F _].
  assert (∃ e, lost_boot = Ret (Some (left_of lost_boot, Err e))) as (e & Hb).
  { unfold left_of. destruct lost_boot as [[[w [r|e]]|]|]; try discriminate F. by exists e. }
  destruct (bootstrap_joined 1 (ST := shared_laws 1 (cl_procs c)) 0 4096 sample_buffer 20 c lost_world
    (left_of lost_boot) sample_entropy (Err e) Hc) as (c' & S & [Es Er Ep] & _).
  { apply shared_beside; [exact Hw|]. apply one_request, Hask. }
  { rewrite Hq by done. reflexivity. }
  { exact Hb. }
  exists c', v. split; [|split; [exact He|exact Er]].
  split; [by eapply reachable_after|exact Es|done| |exact Hr|exact Hs|exact Hx].
  rewrite Ep by done. simpl. rewrite lookup_delete_ne by done. exact Hl.
Qed.

(** The RUN finds its coordinate occupied. *)
Lemma late_ran :
  match late_task with Ret (Some (_, WalEstablished _ (Ok WalOccupied))) => true | _ => false end = true.
Proof. vm_compute. reflexivity. Qed.

Lemma late_occupied : ∃ batch, (task_of late_task).2 = WalEstablished batch (Ok WalOccupied).
Proof.
  pose proof late_ran as F. unfold task_of. destruct late_task as [[[w e]|]|]; [|discriminate F..].
  destruct e as [| | | |batch [[]|]| | | |]; try discriminate F. by exists batch.
Qed.

Lemma late_task_runs : late_task = Ret (Some (task_of late_task)).
Proof. pose proof late_ran as F. by destruct late_task as [[[w e]|]|]. Qed.

(** * Witnesses *)

Lemma one_history_witness :
  ∃ c c', cluster_reachable c ∧ rtc cluster_step c c' ∧
    ∃ h h', h `prefix_of` h' ∧ one_history_of c h ∧ one_history_of c' h'.
Proof.
  destruct stage_taken_over as (c & c' & q & v & w & Hc & S & _). exists c, c'.
  split; [done|]. split; [done|]. by apply one_history.
Defined.

Lemma single_authority_witness :
  ∃ (c : Cluster) (p q : nat) (v w : Service), cluster_reachable c ∧ cl_procs c !! p = Some (Serving v) ∧
    cl_procs c !! q = Some (Serving w) ∧ p ≠ q ∧
    claim_generation (recovery_claim (sv_recovery v)) ≠ claim_generation (recovery_claim (sv_recovery w)).
Proof.
  destruct stage_taken_over as (c & c' & q & v & w & Hc & S & Hv & Hw & _ & _ & _ & Hne).
  pose proof (reachable_after _ _ Hc S) as Hc'. exists c', 0%nat, q, v, w.
  split_and!; [exact Hc'|exact Hv|exact Hw|exact Hne|]. intros He. apply Hne.
  exact (proj1 (proj2 (single_authority c' c' Hc' (rtc_refl _ _))) 0%nat q v w Hv Hw He).
Defined.

Lemma replies_survive_witness :
  ∃ (c : Cluster) (q : nat) (v w : Service) (completion : Completion) (envelope : CommandEnvelope),
    cluster_reachable c ∧ cl_procs c !! 0%nat = Some (Serving v) ∧
    cl_procs c !! q = Some (Serving w) ∧ completion ∈ i_sent (s_interp (sv_system v)) ∧
    promise envelope completion (recovery_durable (sv_recovery w)).
Proof.
  destruct stage_taken_over as (c & c' & q & v & w & Hc & S & Hv & Hw & Er & Er' & Hs & _).
  pose proof (reachable_after _ _ Hc S) as Hc'.
  destruct (replies_survive c' 0 q v w) as [_ Hall]; [exact Hc'|exact Hv|exact Hw| |].
  { rewrite Er, Er'. apply claims_rise. }
  clear Er Er'. destruct (i_sent (s_interp (sv_system v))) as [|completion sent] eqn:E; [done|].
  destruct (Hall completion) as (envelope & _ & Hp & _); [by left|].
  exists c', q, v, w, completion, envelope.
  split_and!; [exact Hc'|exact Hv|exact Hw|rewrite E; by left|exact Hp].
Defined.

(** A process opens the store beside a live Writer, whose RUN lands meanwhile. *)
Lemma bootstrap_joins_witness :
  ∃ c v c', cluster_reachable c ∧ cl_procs c !! 0%nat = Some (Serving v) ∧ first_effect ∈ sv_effects v ∧
    rtc cluster_step c c' ∧
    joined 1 (ST := shared_laws 1 (cl_procs c)) 0 4096 c' (boot_of race_boot).1 (Ok (boot_of race_boot).2) ∧
    coord_get (recovery_durable_batch (boot_of race_boot).2) = 3.
Proof.
  destruct stage_sent as (c & v & [Hc Hw Hq Hl Hr Hs Hx] & He & Hask).
  destruct (bootstrap_joins 1 (ST := shared_laws 1 (cl_procs c)) 0 4096 sample_buffer 20 c race_world
    (boot_of race_boot).1 sample_entropy (Ok (boot_of race_boot).2) Hc) as (c' & S & Hj).
  { apply shared_beside; [exact Hw|]. apply one_request, Hask. }
  { rewrite Hq by done. reflexivity. }
  { exact race_booted. }
  exists c, v, c'. split; [exact Hc|]. split; [exact Hl|]. split; [exact He|]. split; [exact S|].
  split; [exact Hj|]. apply race_recovers.
Defined.

(** A Writer sends its RUN, and the FENCE of another process lands before it. *)
Lemma task_joins_witness :
  ∃ c v, cluster_reachable c ∧ cl_procs c !! 0%nat = Some (Serving v) ∧ first_effect ∈ sv_effects v ∧
    (∃ batch, (task_of late_task).2 = WalEstablished batch (Ok WalOccupied)) ∧
    answers (i_aborted (s_interp (sv_system v))) first_effect (task_of late_task).2 ∧
    has_learned 0 (ST := shared_laws 0 (cl_procs c)) c v (task_of late_task).1 first_effect
      (task_of late_task).2.
Proof.
  destruct stage_lost as (c & v & [Hc Hw _ Hl Hr Hs Hx] & He & Hask). exists c, v.
  split; [exact Hc|]. split; [exact Hl|]. split; [exact He|]. split; [exact late_occupied|].
  apply (task_joins 0 (ST := shared_laws 0 (cl_procs c)) id [] 0 c v late_world);
    [exact Hc|by apply shared_beside|exact Hl|exact Hx|exact He|done|].
  pose proof late_task_runs as L. destruct (task_of late_task) as [w e]. exact L.
Defined.
