(* ===== verification/ClusterTakeover.v ===== *)
(** A checkpoint from an empty store, and a takeover from it.

    The first Writer of ClusterSample.v serves 511 more commands: it creates streams,
    closes them and deletes them.  Then its WAL is long enough to checkpoint: it prepares
    the tables, publishes the Seal and collects the RUNs the Seal covers.  Another process
    bootstraps from the Seal and its tables.  Each step is one the code takes on the shared
    store, and the whole is a path of the cluster, so the theorem on Seals and histories
    applies to a Seal with tables and to a Writer that loaded them. *)

From S2P Require Import Prelude OrdMap Text Domain Coordinates Partition Seal Wal Forest.
From S2P Require Import ForestTheory Archive Spelling Sst Writer WriterSafety WriterSystem.
From S2P Require Import Bootstrap BootstrapSafety Recovery ObjectStore Stores StoreTheory Common.
From S2P Require Import BootstrapRun Checkpoint CheckpointTheory CheckpointSafety.
From S2P Require Import CheckpointLink CheckpointRun Cluster ClusterInv ClusterStore ClusterBoot.
From S2P Require Import ClusterWriter ClusterServe ClusterStep ClusterSafety ClusterHost ClusterMoments.
From S2P Require Import ClusterRun ClusterSample.

#[local] Existing Instances reference_heap reference_heap_laws reference_jiff reference_layout
  reference_layout_laws reference_rkyv_laws reference_diff reference_diff_laws reference_format
  reference_generator.
#[local] Existing Instances sample_size_law sample_sst_size sample_seal_size.
#[local] Existing Instance reference_rkyv.

(** * The run *)

(** The store, and the Writer's system. *)
Definition Point : Type := gmap str (list Z) * System.

(** The Writer may step. *)
Definition may_step (s : System) : bool :=
  (w_checkpoint_attempt (s_machine s) <? u64_max) && w_started (s_machine s).

(** The Writer's one outstanding effect is run, and its completion handled. *)
Definition finish (fuel : nat) (x : Point) : option Point :=
  match i_effects (s_interp x.2) with
  | [effect] =>
      match run_effect (B := shared_backend 0) id [] fuel (mk_shared x.1 [] []) effect with
      | Ret (Some (w, event)) =>
          match react (taken x.2 [] [] effect event) 2 event with
          | Ret (s, None) => if may_step x.2 then Some (sh_store w, s) else None
          | _ => None
          end
      | _ => None
      end
  | _ => None
  end.

(** A stream is created, closed and deleted by three commands. *)
Definition path_no (k : Z) : StreamPath :=
  match checked StreamPath_validate (lit "a" ++ dec k) with Ok path => path | Err _ => path_a end.
Definition envelope_no (k : nat) : CommandEnvelope :=
  let path := path_no (Z.of_nat k / 3) in
  match (k mod 3)%nat with
  | O => CommandCreate (mk_create path Json NoExpiry Open) k
  | 1%nat => CommandClose path k
  | _ => CommandDelete path k
  end.

Definition command (k : nat) (x : Point) : option Point :=
  match admission_open (s_machine x.2), react (receive (envelope_no k) x.2) 1 (Command (envelope_no k)) with
  | Ret true, Ret (s, None) => if may_step x.2 then Some (x.1, s) else None
  | _, _ => None
  end.

Fixpoint rounds (n : nat) (x : Point) : option Point :=
  match n with
  | O => Some x
  | S n => x ← rounds n x; x ← command n x; finish 0 x
  end.

(** 511 RUNs, the tables, the Seal, the collection. *)
Definition checkpointed : option Point :=
  x ← rounds 511 (sh_store first_world, first_s1); x ← finish 0 x; x ← finish 0 x; finish 600 x.

(** Another process takes over. *)
Definition takeover (x : Point) : Booted := boot 1 (mk_shared x.1 [] []).

(** The object of a table, as it decodes. *)
Definition read_from (d : gmap str (list Z)) (partition : PartitionId) (table : TableRef) :
    option DecodedTable :=
  bytes ← d !! table_spelling (table_object table);
  match decode_table partition (mk_table_key (table_object table)) bytes with
  | Ret (Ok decoded) => Some decoded
  | _ => None
  end.

(** The process that takes over has claimed over a Seal at cut 512 with tables, which are in
    the store, and 171 paths in them; the RUNs are gone. *)
Definition taken_from_tables (x : Point) : bool :=
  match takeover x with
  | Ret (Some (w, Ok r)) =>
      let seal := recovery_seal r in
      bool_decide (length (planned_tables seal) = 2%nat) && bool_decide (seal_cut seal = 512) &&
      bool_decide (size (directory (recovery_base r)) = 171%nat) &&
      bool_decide (size (sh_store w) = 8%nat) &&
      forallb (λ table, match read_from (sh_store w) (seal_partition seal) table with
                        | Some _ => true | None => false end) (planned_tables seal)
  | _ => false
  end.

Lemma checkpointed_taken : from_option taken_from_tables false checkpointed = true.
Proof. vm_compute. reflexivity. Qed.

(** * The path *)

Lemma may_step_true (s : System) :
  may_step s = true → w_checkpoint_attempt (s_machine s) < u64_max ∧ w_started (s_machine s) = true.
Proof. unfold may_step. by intros [H%Z.ltb_lt ->]%andb_true_iff. Qed.

Section path.
  Context (r : WriterRecovery).

(** The Writer alone in the cluster. *)
Definition alone (x : Point) : Prop := ∃ c v, stage c x.1 ∅ 0 v r x.2.

Lemma finish_alone fuel x x' : alone x → finish fuel x = Some x' → alone x'.
Proof.
  intros (c & v & [Hc Hw Hq Hl Hr Hs Hx]). unfold finish.
  destruct (i_effects (s_interp x.2)) as [|effect [|]] eqn:He; [done| |done].
  destruct (run_effect _ _ _ _ effect) as [[[w event]|]|] eqn:Hrun; [|done..].
  destruct (react _ _ _) as [[s [|]]|] eqn:Hre; [done| |done].
  destruct (may_step x.2) eqn:Hm; [|done]. apply may_step_true in Hm as [Hatt Hst]. intros [= <-].
  assert (effect ∈ sv_effects v) as Hin.
  { unfold sv_effects. rewrite Hs, He. by apply list_elem_of_singleton. }
  destruct (task_joined 0 (ST := shared_laws 0 (cl_procs c)) id [] fuel c v (mk_shared x.1 [] []) w effect event)
    as [Hans (c' & v' & S & [Ec _ Ep] & P & [Er _ _ Es Ex _] & Hlearn)]; try done.
  { apply shared_beside; [done|apply none_requested]. }
  exists (serve c' 0 v' s None), (running v' s None).
  split; [|exact Ec| |apply lookup_insert_eq|simpl; congruence|done|done].
  - eapply rtc_r; [by eapply reachable_after|].
    apply (step_complete c' 0 v' 2 effect event [] []).
    + done.
    + by rewrite Ex.
    + by rewrite Es, Hs.
    + by rewrite Es, Hs.
    + unfold sv_effects. by rewrite Es, Hs, He.
    + done.
    + by rewrite Es.
    + by rewrite Es, Hs.
  - intros q Hne. simpl. rewrite lookup_insert_ne by done. rewrite (Ep q Hne). simpl.
    rewrite lookup_delete_ne by done. by apply Hq.
Qed.

Lemma command_alone k x x' : alone x → command k x = Some x' → alone x'.
Proof.
  intros (c & v & H). unfold command.
  destruct (admission_open _) as [[]|] eqn:Ha; [|done..].
  destruct (react _ _ _) as [[s [|]]|] eqn:Hre; [done| |done].
  destruct (may_step x.2) eqn:Hm; [|done]. apply may_step_true in Hm as [Hatt Hst]. intros [= <-].
  destruct (stage_local c x.1 ∅ 0 v r x.2 (receive (envelope_no k) x.2) 1 (Command (envelope_no k)))
    as (c' & v' & H'); [done|done|by apply observes_command|done|by rewrite Hre|].
  exists c', v'. by rewrite Hre in H'.
Qed.

Lemma rounds_alone n x x' : alone x → rounds n x = Some x' → alone x'.
Proof.
  intros Hx. revert x'. induction n as [|n IH]; intros x' Hn; cbn [rounds] in Hn; [by injection Hn as <-|].
  apply bind_Some in Hn as (x1 & H1 & Hn). apply bind_Some in Hn as (x2 & H2 & Hn).
  eapply finish_alone; [|exact Hn]. eapply command_alone; [by apply IH|exact H2].
Qed.

End path.

Lemma checkpointed_alone x : checkpointed = Some x → alone first_recovery x.
Proof.
  intros Hx. apply bind_Some in Hx as (x1 & H1 & Hx). apply bind_Some in Hx as (x2 & H2 & Hx).
  apply bind_Some in Hx as (x3 & H3 & Hx). pose proof stage_started as Hs.
  eapply finish_alone; [|exact Hx]. eapply finish_alone; [|exact H3]. eapply finish_alone; [|exact H2].
  eapply rounds_alone; [|exact H1]. exact Hs.
Qed.

(** The process that took over, and the Seal it claimed. *)
Record took_over (c : Cluster) (v : Service) : Prop := {
  to_reachable : cluster_reachable c;
  to_proc : cl_procs c !! 1%nat = Some (Serving v);
  to_sealed : sealed c (recovery_seal (sv_recovery v));
  to_cut : seal_cut (recovery_seal (sv_recovery v)) = 512;
  to_tables : length (planned_tables (recovery_seal (sv_recovery v))) = 2%nat;
  to_paths : size (directory (recovery_base (sv_recovery v))) = 171%nat;
  to_stored : ∀ table, table ∈ planned_tables (recovery_seal (sv_recovery v)) →
    is_Some (read_from (cl_store c) (seal_partition (recovery_seal (sv_recovery v))) table)
}.

Lemma takeover_happens : ∃ c v, took_over c v.
Proof.
  pose proof checkpointed_taken as F. destruct checkpointed as [x|] eqn:Hx; [|discriminate F].
  destruct (checkpointed_alone x Hx) as (c & v & [Hc Hw Hq Hl _ _ _]). clear Hx.
  cbn [from_option] in F. unfold taken_from_tables in F.
  destruct (takeover x) as [[[w [r|]]|]|] eqn:Hb; try discriminate F.
  rewrite !andb_true_iff, !bool_decide_eq_true in F. destruct F as [[[[Ht Hcut] Hn] _] Hall].
  destruct (stage_joined c (mk_shared x.1 [] []) w 1 r) as (c' & v' & s & S & _ & [Hc' Hw' _ Hl' Hr' _ _]);
    [exact Hc|exact Hw|apply none_requested|rewrite Hq by done; apply lookup_empty|exact Hb|].
  exists c', v'. split; rewrite ?Hr'; try done.
  { destruct (cluster_reachable_inv c' Hc') as (h & C).
    destruct (so_opened _ _ _ _ (ci_procs _ _ C _ _ Hl')) as (t & [_ [[Hsealed _] _] _]).
    by rewrite Hr' in Hsealed. }
  intros table Hin. rewrite Hw'.
  rewrite forallb_forall in Hall. specialize (Hall table). rewrite <- list_elem_of_In in Hall.
  specialize (Hall Hin). by destruct (read_from _ _ table).
Qed.

(** * Witness *)

Definition reads_of (d : gmap str (list Z)) (partition : PartitionId) (table : TableRef) : DecodedTable :=
  from_option id (DecodedDirectory []) (read_from d partition table).

Lemma read_from_stored (c : Cluster) (partition : PartitionId) (table : TableRef) :
  is_Some (read_from (cl_store c) partition table) →
  stored_table c partition table (reads_of (cl_store c) partition table).
Proof.
  intros [decoded Hd]. unfold reads_of. rewrite Hd. cbn [from_option id].
  unfold read_from in Hd. apply bind_Some in Hd as (bytes & Hk & Hd).
  destruct (decode_table_Ret partition (mk_table_key (table_object table)) bytes) as (r & Hr & Hm).
  rewrite Hr in Hd. destruct r as [d|]; [|done]. injection Hd as ->.
  exists bytes. split; [done|]. split; [done|]. by apply Hm.
Qed.

Lemma seals_hold_history_witness :
  ∃ c v h base, took_over c v ∧ one_history_of c h ∧
    let seal := recovery_seal (sv_recovery v) in
    folds (upto 512 h) (replay_owner (seal_replay seal)) base ∧ recovery_base (sv_recovery v) = base ∧
    tables_forest (reads_of (cl_store c) (seal_partition seal) <$> planned_tables seal) = base.
Proof.
  destruct takeover_happens as (c & v & T).
  destruct (seals_hold_history c (to_reachable _ _ T)) as (h & Hh & Hseals & Hv).
  destruct (Hseals _ (to_sealed _ _ T)) as (_ & base & Hf & Hr).
  exists c, v, h, base. split; [exact T|]. split; [exact Hh|]. rewrite <- (to_cut _ _ T).
  split; [exact Hf|]. split.
  - exact (proj2 (folds_det _ _ _ _ _ (Hv 1%nat v (to_proc _ _ T)) Hf)).
  - apply Hr. intros table Ht. apply read_from_stored. exact (to_stored _ _ T table Ht).
Defined.
