(* ===== verification/Engine.v ===== *)
(** The engine: opening, the command surface, reads and graceful drain (crate
    [strom-storage-engine], file [engine.rs]).

    An [Engine] is the Writer's system together with the command channel in front of it.
    Clients send envelopes and wait on reply channels; the channel is bounded and keeps
    its order; the Writer takes commands while its admission is open, and observes the
    end of ingress only when every sender is gone and the channel is empty.  The theorems
    follow a client from the store it opened: a reply it got is true of every later read,
    and a clean shutdown has answered every command the channel accepted. *)

From S2P Require Import Prelude OrdMap Text Domain Coordinates Partition Seal Wal Forest.
From S2P Require Import ForestTheory Archive Spelling Sst Writer WriterSafety WriterSystem.
From S2P Require Import Bootstrap BootstrapSafety ObjectStore Stores StoreTheory Common BootstrapRun.

(** * Options *)

(** In nanoseconds.
    strom-storage-engine/src/engine.rs:25-25, [FLUSH_INTERVAL_DEFAULT]. *)
Definition FLUSH_INTERVAL_DEFAULT : Z := 250000000.

(** strom-storage-engine/src/engine.rs:27-35, [Options]. *)
Record Options : Type := mk_options { flush_interval_min : Z; flush_buffer_bytes : Z }.

(** strom-storage-engine/src/engine.rs:37-44, [Options::default]. *)
Definition Options_default : Options := mk_options FLUSH_INTERVAL_DEFAULT WAL_ENCODED_BYTES_MAX.

(** strom-storage-engine/src/engine.rs:83-90, [OptionsError]. *)
Inductive OptionsError : Type :=
| FlushBufferBytesZero
| FlushBufferBytesOverMax (bytes : Z).

(** strom-storage-engine/src/engine.rs:47-55, [Options::with_min_flush_interval]. *)
Definition with_min_flush_interval (options : Options) (duration : Z) : Options :=
  mk_options duration (flush_buffer_bytes options).

(** strom-storage-engine/src/engine.rs:57-72, [Options::with_flush_buffer_bytes]. *)
Definition with_flush_buffer_bytes (options : Options) (bytes : Z) : Result OptionsError Options :=
  if bytes =? 0 then Err FlushBufferBytesZero
  else if WAL_ENCODED_BYTES_MAX <? bytes then Err (FlushBufferBytesOverMax bytes)
  else Ok (mk_options (flush_interval_min options) bytes).

(** The options a caller can build, of a [usize] byte budget. *)
Inductive built : Options → Prop :=
| built_default : built Options_default
| built_interval options duration : built options → built (with_min_flush_interval options duration)
| built_bytes options bytes options' :
    built options → 0 ≤ bytes → with_flush_buffer_bytes options bytes = Ok options' → built options'.

Lemma built_buffer options : built options → 1 ≤ flush_buffer_bytes options ≤ WAL_ENCODED_BYTES_MAX.
Proof.
  induction 1 as [|options d _ IH|options bytes options' _ _ Hb Hw]; [simpl; unfold_bounds; lia|done|].
  unfold with_flush_buffer_bytes in Hw. destruct (Z.eqb_spec bytes 0); [done|].
  destruct (Z.ltb_spec WAL_ENCODED_BYTES_MAX bytes); [done|]. injection Hw as <-. simpl. lia.
Qed.

(** * Outcomes *)

(** strom-storage-engine/src/engine.rs:282-291, [OpenError]. *)
Inductive OpenError : Type :=
| OpenRetryable (detail : str)
| OpenFenced (observed : SealGeneration)
| OpenContradiction (detail : str).

(** strom-storage-engine/src/engine.rs:293-308, [StreamError]. *)
Inductive StreamError : Type :=
| StreamOccupied
| StreamCapacityExhausted
| StreamNotLive
| StreamOverloaded
| StreamUnavailable
| StreamIndeterminate.

(** strom-storage-engine/src/engine.rs:310-321, [CloseOutcome]. *)
Inductive CloseOutcome : Type :=
| CloseShutdown
| CloseFenced
| ClosePoisoned (detail : str)
| CloseContradiction (detail : str).

(** strom-storage-engine/src/engine.rs:323-329, [open_error]. *)
Definition open_error (exit : BootstrapExit) : OpenError :=
  match exit with
  | ExitRetryable detail => OpenRetryable detail
  | ExitFenced observed => OpenFenced observed
  | ExitContradiction detail => OpenContradiction detail
  end.

(** strom-storage-engine/src/engine.rs:331-338, [stream_error]. *)
Definition stream_error (refusal : AdmissionRefusal) : StreamError :=
  match refusal with
  | RefusedPathOccupied => StreamOccupied
  | RefusedPathCapacityExhausted => StreamCapacityExhausted
  | RefusedPathNotLive => StreamNotLive
  | Overloaded => StreamOverloaded
  end.

(** strom-storage-engine/src/engine.rs:340-347, [close_outcome]. *)
Definition close_outcome (exit : WriterExit) : CloseOutcome :=
  match exit with
  | Shutdown => CloseShutdown
  | Fenced _ => CloseFenced
  | Poisoned _ detail => ClosePoisoned detail
  | WriterContradiction _ detail => CloseContradiction detail
  end.

(** * The published view *)

(** strom-storage-engine/src/engine.rs:102-118, [PublishedView::stream]. *)
Definition view_stream (forest : Forest) (path : StreamPath) : Exec StreamStatus :=
  match resolve forest path with
  | None => Ret StatusMissing
  | Some (Tombstone _) => Ret StatusDeleted
  | Some (Live uid) =>
      let! rec := expect (record forest uid) in
      Ret (StatusLive (content_type rec) (expiry rec) (lifecycle rec))
  end.

(** * The engine *)

(** The Writer's system, the channel in front of it, whether a sender is alive, and how
    the Writer task ended; [engine_accepted] records what the channel ever accepted.
    strom-storage-engine/src/engine.rs:121-127, [Engine]. *)
Record Engine : Type := mk_engine {
  engine_partition : PartitionId;
  engine_commands : list CommandEnvelope;
  engine_senders : bool;
  engine_system : System;
  engine_exit : option WriterExit;
  engine_accepted : list CommandEnvelope
}.

(** strom-storage-engine/src/engine.rs:272-280, [enqueue]; [None] while the channel is
    full. *)
Definition enqueue (e : Engine) (command : CommandEnvelope) : option (Result StreamError Engine) :=
  match engine_exit e with
  | Some _ => Some (Err StreamUnavailable)
  | None =>
      if zlen (engine_commands e) <? WRITER_INGRESS_COMMANDS_MAX then
        Some (Ok (mk_engine (engine_partition e) (engine_commands e ++ [command]) (engine_senders e)
                    (engine_system e) None (engine_accepted e ++ [command])))
      else None
  end.

(** The reply channel of a command: [None] while it is empty, [Some None] when its sender
    was dropped. *)
Definition received_reply (e : Engine) (reply : Reply) : option (option Completion) :=
  match filter (λ c, completion_reply c = reply) (i_sent (s_interp (engine_system e))) with
  | completion :: _ => Some (Some completion)
  | [] => match engine_exit e with Some _ => Some None | None => None end
  end.

Definition answer {A} (outcome : option (Result AdmissionRefusal A)) : Result StreamError A :=
  match outcome with
  | Some (Ok reply) => Ok reply
  | Some (Err refusal) => Err (stream_error refusal)
  | None => Err StreamIndeterminate
  end.

(** strom-storage-engine/src/engine.rs:177-184, [Engine::create_stream (send)]. *)
Definition create_stream (e : Engine) (path : StreamPath) (content_type : StreamContentType)
    (expiry : ExpiryPolicy) (lifecycle : StreamLifecycle) (reply : Reply) :
    option (Result StreamError Engine) :=
  enqueue e (CommandCreate (mk_create path content_type expiry lifecycle) reply).
(** strom-storage-engine/src/engine.rs:185-189, [Engine::create_stream (outcome)]. *)
Definition create_stream_outcome (e : Engine) (reply : Reply) :
    option (Result StreamError CreateOutcome) :=
  (λ completion, answer (match completion with
    | Some (CompletionCreate outcome _) => Some outcome
    | _ => None
    end)) <$> received_reply e reply.

(** strom-storage-engine/src/engine.rs:199-207, [Engine::close_stream (send)]. *)
Definition close_stream (e : Engine) (path : StreamPath) (reply : Reply) :
    option (Result StreamError Engine) :=
  enqueue e (CommandClose path reply).
(** strom-storage-engine/src/engine.rs:208-212, [Engine::close_stream (outcome)]. *)
Definition close_stream_outcome (e : Engine) (reply : Reply) :
    option (Result StreamError CloseStreamOutcome) :=
  (λ completion, answer (match completion with
    | Some (CompletionClose outcome _) => Some outcome
    | _ => None
    end)) <$> received_reply e reply.

(** strom-storage-engine/src/engine.rs:222-230, [Engine::delete_stream (send)]. *)
Definition delete_stream (e : Engine) (path : StreamPath) (reply : Reply) :
    option (Result StreamError Engine) :=
  enqueue e (CommandDelete path reply).
(** strom-storage-engine/src/engine.rs:231-235, [Engine::delete_stream (outcome)]. *)
Definition delete_stream_outcome (e : Engine) (reply : Reply) : option (Result StreamError unit) :=
  (λ completion, answer (match completion with
    | Some (CompletionDelete outcome _) => Some outcome
    | _ => None
    end)) <$> received_reply e reply.

(** strom-storage-engine/src/engine.rs:238-248, [Engine::stream]. *)
Definition engine_stream (e : Engine) (path : StreamPath) : Exec (Result StreamError StreamStatus) :=
  match engine_exit e with
  | Some _ => Ret (Err StreamUnavailable)
  | None => let! status := view_stream (i_view (s_interp (engine_system e))) path in Ret (Ok status)
  end.

(** [None] while the Writer drains.
    strom-storage-engine/src/engine.rs:256-269, [Engine::shutdown]. *)
Definition shutdown (e : Engine) : Engine * option CloseOutcome :=
  (mk_engine (engine_partition e) (engine_commands e) false (engine_system e) (engine_exit e)
     (engine_accepted e),
   close_outcome <$> engine_exit e).

Section open.
  Context {DF : DebugFormat} {B : Backend} {J : Jiff} {HP : Heap} {RL : RowLayout}.
  Context {RW : Rkyv ArchivedWalObject} {RS : Rkyv ArchivedSeal}.
  Context {RD : Rkyv (SstArchive ArchivedDirectoryRow)} {RG : Rkyv (SstArchive ArchivedLedgerRow)}.
  Context {GO : GeneratorOps}.

(** [None] when the fuel of bootstrap is spent.
    strom-storage-engine/src/engine.rs:136-157, [Engine::open]. *)
Definition open (fuel : nat) (w : World) (entropy : Entropy) (options : Options) :
    Exec (option (World * Result OpenError Engine)) :=
  let! result := bootstrap fuel w entropy in
  match result with
  | None => Ret None
  | Some (w, Err exit) => Ret (Some (w, Err (open_error exit)))
  | Some (w, Ok recovery) =>
      let! system := sys_init recovery (flush_interval_min options) (flush_buffer_bytes options) in
      Ret (Some (w, Ok (mk_engine (seal_partition (recovery_seal recovery)) [] true system None [])))
  end.

End open.

(** * Running *)

(** The events the Writer's loop takes from elsewhere than the command channel. *)
Definition internal_event (event : WriterEvent) : Prop :=
  match event with Command _ | IngressClosed => False | _ => True end.

Section running.
  Context {HP : Heap} {HL : HeapLaws} {RW : Rkyv ArchivedWalObject} {LW : RkyvLaws ArchivedWalObject}.
  Context {SL : WalSizeLaw}.

(** One step of a client, of the caller of [shutdown], or of the Writer task.  A command
    carries a fresh reply channel.  The Writer task handles one event without an await, so
    its outputs (the view, the replies, the work it starts) are one step; a read in between
    sees the view before or after it, while the code stores the view before it sends the
    replies of the same event.  The steps stop where the 64-bit counter of checkpoint
    attempts would be used up. *)
Inductive engine_step (e : Engine) : Engine → Prop :=
| step_send command e' :
    engine_senders e = true → envelope_reply command ∉ envelope_reply <$> engine_accepted e →
    enqueue e command = Some (Ok e') → engine_step e e'
| step_shutdown : engine_step e (shutdown e).1
| step_writer now event s' exit :
    engine_exit e = None → w_checkpoint_attempt (s_machine (engine_system e)) < u64_max →
    internal_event event → sys_step (engine_system e) now event s' exit →
    engine_step e (mk_engine (engine_partition e) (engine_commands e) (engine_senders e) s' exit
      (engine_accepted e))
| step_command now command commands s' exit :
    engine_exit e = None → w_checkpoint_attempt (s_machine (engine_system e)) < u64_max →
    engine_commands e = command :: commands →
    sys_step (engine_system e) now (Command command) s' exit →
    engine_step e (mk_engine (engine_partition e) commands (engine_senders e) s' exit
      (engine_accepted e))
| step_closed now s' exit :
    engine_exit e = None → w_checkpoint_attempt (s_machine (engine_system e)) < u64_max →
    engine_commands e = [] → engine_senders e = false →
    sys_step (engine_system e) now IngressClosed s' exit →
    engine_step e (mk_engine (engine_partition e) [] false s' exit (engine_accepted e)).

(** ** The invariant *)

(** Ingress closes by one event only. *)
Lemma ingress_kept r s now event s' exit :
  sys_inv r s → w_checkpoint_attempt (s_machine s) < u64_max → sys_step s now event s' exit →
  exit = None ∨ exit = Some Shutdown →
  (event ≠ IngressClosed → w_ingress_open (s_machine s') = w_ingress_open (s_machine s)) ∧
  (exit = Some Shutdown → w_ingress_open (s_machine s') = false).
Proof using HL LW SL.
  intros I Hatt Hstep Hexit. inversion Hstep as [s1 s2 ex Ho Hrs]; subst.
  assert (s_machine s1 = s_machine s) as Hm by (by destruct Ho).
  pose proof (observes_enabled _ _ _ _ (sys_machine _ _ I) (sys_linked _ _ I) Ho) as Hen.
  destruct (handle_ok (s_machine s) now event (sys_machine _ _ I) Hen Hatt)
    as (m' & outs & ex & Hh & Hd & _).
  unfold react, execute_step in Hrs. rewrite Hm, Hh in Hrs. cbn [exec_bind step_outputs step_exit] in Hrs.
  destruct (_ <=? _); [|done]. destruct (match ex with Some _ => _ | None => _ end); [|done].
  destruct (execute_outputs _ _) as [i|]; [|done]. injection Hrs as <- <-. cbn [s_machine].
  inversion Hd as [m1 ex1 Hx|m1 outs1 m2 outs2 ex1 Ha C1 Hs]; subst; [by destruct Hexit as [|[= ->]]|].
  assert (event ≠ IngressClosed → w_ingress_open m1 = w_ingress_open (s_machine s)) as Hopen.
  { intros Hne. destruct (set_started_inv _ (sys_machine _ _ I)) as [C0 _].
    inversion Ha as [|env mm o Hadm| | | | | | | | | |]; subst; try done.
    assert (admit_frame (set_started true (s_machine s)) m1) as (_ & _ & _ & _ & _ & _ & _ & Hi & _);
      [|done]. by destruct (admit_admitted _ _ _ _ C0 Hadm). }
  destruct Hs as [m3 fl mm input Hf Hop Ht|mm fl Hf Hop|mm fl Hf Hop _ _ _|mm fl Hf Hop _];
    destruct (flushed_frame _ _ _ _ Hf) as (Hi & _ & Ea & _).
  2: split; [intros Hne; rewrite Hi; by apply Hopen|done].
  2: split; [intros Hne; rewrite Hi; by apply Hopen|congruence].
  2: split; [intros Hne; rewrite Hi; by apply Hopen|done].
  split; [intros Hne|done]. rewrite <- (Hopen Hne). destruct (flushed_inv _ _ _ _ C1 Hf) as [C3 _].
  assert (w_checkpoint_attempt m1 = w_checkpoint_attempt (s_machine s)) as Hat1.
  { inversion Ha as [|env mm2 o Hadm| | | | | | | | | |]; subst; try done.
    by apply admit_attempt in Hadm as [? _]. }
  destruct (take_checkpoint_ok m3 C3) as (m4 & o & Ht' & _ & _ & _ & _ & Hop3 & _); [congruence|lia|].
  rewrite Ht in Ht'. injection Ht' as <- <-. congruence.
Qed.

Record engine_inv (r : WriterRecovery) (interval buffer : Z) (e : Engine) : Prop := {
  ei_live : engine_exit e = None → reachable r interval buffer (engine_system e) ∧
    (w_ingress_open (s_machine (engine_system e)) = false →
       engine_commands e = [] ∧ engine_senders e = false);
  ei_accepted : engine_accepted e = s_received (engine_system e) ++ engine_commands e;
  ei_fresh : NoDup (envelope_reply <$> engine_accepted e);
  ei_sent : answered (s_received (engine_system e)) (i_sent (s_interp (engine_system e)))
    (i_view (s_interp (engine_system e)));
  ei_shutdown : engine_exit e = Some Shutdown → engine_commands e = [] ∧
    (envelope_reply <$> s_received (engine_system e)) ≡ₚ
    (completion_reply <$> i_sent (s_interp (engine_system e)))
}.

(** What a step of the Writer leaves. *)
Lemma writer_step_keeps r interval buffer s now event s' exit :
  recovery_ok r buffer → reachable r interval buffer s →
  w_checkpoint_attempt (s_machine s) < u64_max → sys_step s now event s' exit →
  (exit = None → reachable r interval buffer s') ∧
  answered (s_received s') (i_sent (s_interp s')) (i_view (s_interp s')) ∧
  (exit = Some Shutdown →
     (envelope_reply <$> s_received s') ≡ₚ (completion_reply <$> i_sent (s_interp s'))) ∧
  s_received s' = s_received s ++ match event with Command envelope => [envelope] | _ => [] end.
Proof using HL LW SL.
  intros Hok Hr Hatt Hstep. pose proof (reachable_inv _ _ _ _ Hok Hr) as I.
  inversion Hstep as [s1 s2 ex Ho Hrs]; subst.
  destruct (react_ok r s now event s1 I Hatt Ho) as (s3 & ex & Hrs' & Hrec & _ & Hx).
  rewrite Hrs in Hrs'. injection Hrs' as <- <-.
  assert (s_received s1 = s_received s ++ match event with Command envelope => [envelope] | _ => [] end)
    as Hs1.
  { destruct Ho as [|e ev before after _ _ Ha| | |]; simpl; rewrite ?(right_id_L [] (++)); try done.
    by destruct Ha; rewrite ?(right_id_L [] (++)). }
  assert (∀ m i wal, linked r m i (s_received s') wal →
    answered (s_received s') (i_sent i) (i_view i)) as Hlinked.
  { intros m i wal L. rewrite (li_view _ _ _ _ _ L). apply (li_sent _ _ _ _ _ L). }
  assert (s_interp s' = s_interp s1 →
    answered (s_received s') (i_sent (s_interp s')) (i_view (s_interp s'))) as Hsame.
  { intros ->. assert (i_sent (s_interp s1) = i_sent (s_interp s) ∧ i_view (s_interp s1) = i_view (s_interp s))
      as [-> ->] by (by destruct Ho). rewrite Hrec, Hs1.
    pose proof (sys_linked _ _ I) as L. rewrite (li_view _ _ _ _ _ L).
    eapply answered_more; [|apply (li_sent _ _ _ _ _ L)]. set_solver. }
  split_and!.
  - intros ->. by eapply reachable_step.
  - destruct exit as [[]|]; [|by apply Hsame..|].
    + destruct Hx as (L & _). by eapply Hlinked.
    + by eapply Hlinked, (sys_linked _ _ Hx).
  - intros ->. destruct Hx as (L & Hf & Hp & _). rewrite (li_replies _ _ _ _ _ L), Hf, Hp.
    by rewrite !(right_id_L [] (++)).
  - by rewrite Hrec.
Qed.

Lemma engine_step_inv r interval buffer e e' :
  recovery_ok r buffer → engine_inv r interval buffer e → engine_step e e' →
  engine_inv r interval buffer e'.
Proof using HL LW SL.
  intros Hok I Hstep. destruct I as [Hl Ha Hf Hs Hd].
  destruct Hstep as [command e' Hsend Hnew Henq| |now event s' exit Hx Hatt Hint Hw
    |now command commands s' exit Hx Hatt Hc Hw|now s' exit Hx Hatt Hc Hsend Hw].
  - unfold enqueue in Henq. destruct (engine_exit e) eqn:Hx; [done|].
    destruct (_ <? _); [|done]. injection Henq as <-. destruct (Hl eq_refl) as [Hr Hcl].
    split; simpl; try done.
    + intros _. split; [done|]. intros Hop. destruct (Hcl Hop) as [_ Hno]. congruence.
    + by rewrite Ha, <- (assoc_L (++)).
    + rewrite fmap_app. apply NoDup_app. split_and!; [done| |apply NoDup_singleton].
      intros x Hx1 ->%list_elem_of_singleton. done.
  - split; simpl; try done. intros Hx. destruct (Hl Hx) as [Hr Hcl]. split; [done|].
    intros Hop. split; [|done]. by apply Hcl.
  - destruct (Hl Hx) as [Hr Hcl]. pose proof (reachable_inv _ _ _ _ Hok Hr) as I.
    destruct (writer_step_keeps _ _ _ _ _ _ _ _ Hok Hr Hatt Hw) as (Hlive & Hans & Hshut & Hrec).
    assert (s_received s' = s_received (engine_system e)) as Hrec'.
    { rewrite Hrec. destruct event; rewrite ?(right_id_L [] (++)); done. }
    assert (exit = None ∨ exit = Some Shutdown →
      w_ingress_open (s_machine s') = w_ingress_open (s_machine (engine_system e)) ∧
      (exit = Some Shutdown → w_ingress_open (s_machine s') = false)) as Hop.
    { intros Hex. destruct (ingress_kept _ _ _ _ _ _ I Hatt Hw Hex) as [Hk ?]. split; [|done].
      apply Hk. by intros ->. }
    split; simpl; rewrite ?Hrec' in *; try done.
    + intros ->. split; [by apply Hlive|]. destruct Hop as [-> _]; [by left|done].
    + intros ->. split; [|by apply Hshut]. destruct Hop as [Hop Hno]; [by right|].
      apply Hcl. rewrite <- Hop. by apply Hno.
  - destruct (Hl Hx) as [Hr Hcl]. pose proof (reachable_inv _ _ _ _ Hok Hr) as I.
    destruct (writer_step_keeps _ _ _ _ _ _ _ _ Hok Hr Hatt Hw) as (Hlive & Hans & Hshut & Hrec).
    assert (exit = None ∨ exit = Some Shutdown → w_ingress_open (s_machine s') = true) as Hop.
    { intros Hex. destruct (ingress_kept _ _ _ _ _ _ I Hatt Hw Hex) as [Hk _]. rewrite Hk by done.
      destruct (w_ingress_open _) eqn:Ho; [done|]. destruct (Hcl eq_refl) as [Hn _]. congruence. }
    split; simpl; try done.
    + intros ->. split; [by apply Hlive|]. rewrite Hop by (by left). done.
    + by rewrite Ha, Hrec, Hc, <- (assoc_L (++)).
    + intros ->. destruct (ingress_kept _ _ _ _ _ _ I Hatt Hw (or_intror eq_refl)) as [_ Hno].
      rewrite Hop in Hno by (by right). by specialize (Hno eq_refl).
  - destruct (Hl Hx) as [Hr Hcl].
    destruct (writer_step_keeps _ _ _ _ _ _ _ _ Hok Hr Hatt Hw) as (Hlive & Hans & Hshut & Hrec).
    split; simpl; try done.
    + intros ->. split; [by apply Hlive|done].
    + by rewrite Ha, Hrec, Hc, !(right_id_L [] (++)).
    + intros Hex. split; [done|by apply Hshut].
Qed.

(** ** Replies and commands stay *)

Lemma engine_steps_keep e e' :
  rtc engine_step e e' →
  i_sent (s_interp (engine_system e)) `prefix_of` i_sent (s_interp (engine_system e')) ∧
  engine_accepted e `prefix_of` engine_accepted e'.
Proof.
  induction 1 as [|e e1 e2 Hs _ [IH1 IH2]]; [done|].
  assert (i_sent (s_interp (engine_system e)) `prefix_of` i_sent (s_interp (engine_system e1)) ∧
    engine_accepted e `prefix_of` engine_accepted e1) as [H1 H2]; [|split; by etrans].
  destruct Hs as [command e1 _ _ Henq| |now event s' exit _ _ _ Hw|now command commands s' exit _ _ _ Hw
    |now s' exit _ _ _ _ Hw]; simpl; try by apply sys_step_sent in Hw.
  - unfold enqueue in Henq. destruct (engine_exit e); [done|]. destruct (_ <? _); [|done].
    injection Henq as <-. simpl. split; [done|by apply prefix_app_r].
  - done.
Qed.

Lemma received_reply_stays e e' reply completion :
  rtc engine_step e e' → received_reply e reply = Some (Some completion) →
  received_reply e' reply = Some (Some completion).
Proof.
  intros [[more Hmore] _]%engine_steps_keep. unfold received_reply. rewrite Hmore, filter_app.
  destruct (filter _ (i_sent (s_interp (engine_system e)))) as [|c l]; [by destruct (engine_exit e)|done].
Qed.

End running.

(** * What a client may rely on *)

Definition command_path (command : CommandEnvelope) : StreamPath :=
  match command with
  | CommandCreate create _ => create_path create
  | CommandClose path _ | CommandDelete path _ => path
  end.

(** What a positive answer to a command says of the path's status. *)
Definition acknowledged (e : Engine) (command : CommandEnvelope) (status : StreamStatus) : Prop :=
  match command with
  | CommandCreate _ reply =>
      ∀ outcome, create_stream_outcome e reply = Some (Ok outcome) → status ≠ StatusMissing
  | CommandClose _ reply =>
      ∀ outcome, close_stream_outcome e reply = Some (Ok outcome) →
        status = StatusDeleted ∨ ∃ content_type expiry, status = StatusLive content_type expiry Closed
  | CommandDelete _ reply =>
      ∀ outcome, delete_stream_outcome e reply = Some (Ok outcome) → status = StatusDeleted
  end.

Lemma view_stream_Ret f path :
  forest_wf f → ∃ status, view_stream f path = Ret status ∧
    match directory f !! path with
    | None => status = StatusMissing
    | Some (Tombstone _) => status = StatusDeleted
    | Some (Live uid) => ∃ rec, ledger f !! uid = Some rec ∧
        status = StatusLive (content_type rec) (expiry rec) (lifecycle rec)
    end.
Proof.
  intros Hwf. unfold view_stream, resolve, record.
  destruct (directory f !! path) as [[uid|uid]|] eqn:Hp; [|by eexists..].
  destruct (proj2 (wf_ledger f Hwf uid) (ex_intro _ path Hp)) as [rec Hrec]. rewrite Hrec. cbn [expect exec_bind].
  eexists. split; [reflexivity|]. by exists rec.
Qed.

Section promises.
  Context {HP : Heap} {RW : Rkyv ArchivedWalObject}.

(** A reply channel holds the completion of its own command. *)
Lemma received_promise r interval buffer e command completion :
  engine_inv r interval buffer e → command ∈ engine_accepted e →
  received_reply e (envelope_reply command) = Some (Some completion) →
  promise command completion (i_view (s_interp (engine_system e))).
Proof.
  intros I Hin Hrec. unfold received_reply in Hrec.
  destruct (filter _ _) as [|c l] eqn:Hfil; [by destruct (engine_exit e)|]. injection Hrec as ->.
  assert (completion ∈ i_sent (s_interp (engine_system e)) ∧
    completion_reply completion = envelope_reply command) as [Hsent Hreply].
  { assert (completion ∈ completion :: l) as Hc by (by left). rewrite <- Hfil in Hc.
    apply list_elem_of_filter in Hc. naive_solver. }
  destruct (ei_sent _ _ _ _ I completion Hsent) as (command' & Hin' & Hp).
  assert (command' = command) as <-; [|done].
  assert (command' ∈ engine_accepted e) as Hacc
    by (rewrite (ei_accepted _ _ _ _ I); apply elem_of_app; by left).
  apply list_elem_of_lookup in Hin as [i Hi], Hacc as [j Hj].
  assert (i = j) as ->; [|congruence].
  eapply (NoDup_lookup _ i j (envelope_reply command) (ei_fresh _ _ _ _ I));
    rewrite list_lookup_fmap, ?Hi, ?Hj; [done|]. simpl. destruct Hp as [Hp _]. congruence.
Qed.

Lemma promised_status r interval buffer e1 e command status :
  engine_inv r interval buffer e → rtc engine_step e1 e → command ∈ engine_accepted e1 →
  forest_wf (i_view (s_interp (engine_system e))) →
  view_stream (i_view (s_interp (engine_system e))) (command_path command) = Ret status →
  acknowledged e1 command status.
Proof.
  intros I Hsteps Hin1 Hwf Hstatus.
  assert (command ∈ engine_accepted e) as Hin
    by (destruct (engine_steps_keep _ _ Hsteps) as [_ [more ->]]; apply elem_of_app; by left).
  assert (∀ completion, received_reply e1 (envelope_reply command) = Some (Some completion) →
    promise command completion (i_view (s_interp (engine_system e)))) as Hrec.
  { intros c Hc. eapply received_promise; [done..|]. by eapply received_reply_stays. }
  destruct (view_stream_Ret _ (command_path command) Hwf) as (status' & Hs & Hmeans).
  rewrite Hstatus in Hs. injection Hs as <-.
  unfold acknowledged, create_stream_outcome, close_stream_outcome, delete_stream_outcome.
  destruct command as [create reply|path reply|path reply]; intros outcome;
    destruct (received_reply e1 reply) as [[c|]|] eqn:Hr; try done; cbn [fmap option_fmap option_map];
    destruct (Hrec _ Hr) as [_ Hp]; simpl in Hp, Hmeans;
    destruct c as [[?|?] ?|[?|?] ?|[?|?] ?]; try done; intros _.
  - destruct Hp as [entry He]. rewrite He in Hmeans. by destruct entry; [destruct Hmeans as (? & _ & ->)|subst].
  - unfold closed_or_gone in Hp. destruct (directory _ !! path) as [[uid|uid]|]; [|by left|done].
    destruct Hp as (rec & Hrec' & Hcl), Hmeans as (rec' & Hrec'' & ->).
    assert (rec' = rec) as -> by congruence. rewrite Hcl. eauto.
  - destruct Hp as [uid Hp]. by rewrite Hp in Hmeans.
Qed.

End promises.

Section serving.
  Context {DF : DebugFormat} {B : Backend} {BL : BackendLaws} {J : Jiff} {RL : RowLayout}.
  Context {HP : Heap} {HL : HeapLaws} {RW : Rkyv ArchivedWalObject} {LW : RkyvLaws ArchivedWalObject}.
  Context {RS : Rkyv ArchivedSeal} {LS : RkyvLaws ArchivedSeal} {SL : WalSizeLaw}.
  Context {RD : Rkyv (SstArchive ArchivedDirectoryRow)} {RG : Rkyv (SstArchive ArchivedLedgerRow)}.
  Context {GO : GeneratorOps} {GL : GeneratorLaws}.

(** What a caller of [open] gives it: a store whose Seals and FENCEs are kept, an entropy
    source whose partition label is unused, and options it could build. *)
Record open_ok (entropy : Entropy) (options : Options) : Prop := {
  open_seals : seals_kept;
  open_fences : fences_kept;
  open_label : fnv1a_64 (str_bytes (lit "partition-id")) ∉ forked_labels entropy;
  open_options : built options
}.

(** Opening never panics, and an engine it returns stands on an exact recovery. *)
Lemma open_Ret fuel w entropy options :
  open_ok entropy options →
  ∃ result, open fuel w entropy options = Ret result ∧
    ∀ w' e, result = Some (w', Ok e) →
      ∃ t r, recovered t r ∧ trace_stored (contents w) (contents w') t ∧
        recovery_ok r (flush_buffer_bytes options) ∧
        engine_inv r (flush_interval_min options) (flush_buffer_bytes options) e ∧
        engine_partition e = seal_partition (recovery_seal r).
Proof using BL HL LS LW GL.
  intros [Hs Hf Hl Ho]. unfold open.
  destruct (bootstrap_start w entropy Hl) as (state & step & Hb & R).
  destruct (loop_sound fuel _ _ w state step Hs Hf R) as (result & Hloop & Hres).
  rewrite Hb, Hloop. cbn [exec_bind].
  destruct result as [[w' [r|exit]]|]; [|by eexists..].
  destruct (Hres (w', Ok r) eq_refl r eq_refl) as (t & Rt & Hst).
  pose proof (recovered_handoff _ _ _ Rt (built_buffer _ Ho)) as Hok.
  destruct (sys_init_ok r (flush_interval_min options) (flush_buffer_bytes options) Hok)
    as (s & Hinit & I). rewrite Hinit. cbn [exec_bind].
  eexists. split; [reflexivity|]. intros w1 e [= <- <-]. exists t, r. split_and!; try done.
  pose proof (reachable_init r _ _ _ Hinit) as Hr.
  apply sys_init_Ret in Hinit as (_ & _ & _ & _ & _ & _ & _ & Hop & Hint & Hrec & _).
  split; simpl; rewrite ?Hrec, ?Hint, ?Hop; try done; [constructor|by intros c ?%not_elem_of_nil].
Qed.

Lemma open_steps_inv fuel w entropy options w' e0 e :
  open_ok entropy options → open fuel w entropy options = Ret (Some (w', Ok e0)) →
  rtc engine_step e0 e →
  ∃ r, recovery_ok r (flush_buffer_bytes options) ∧
    engine_inv r (flush_interval_min options) (flush_buffer_bytes options) e.
Proof using BL HL LS LW GL SL.
  intros Hok Hopen Hsteps. destruct (open_Ret fuel w entropy options Hok) as (result & Hr & Hres).
  rewrite Hopen in Hr. injection Hr as <-.
  destruct (Hres w' e0 eq_refl) as (t & r & _ & _ & Hrec & I & _). exists r. split; [done|].
  clear Hopen Hres. induction Hsteps as [e|e e1 e2 Hs _ IH]; [done|].
  apply IH. by eapply engine_step_inv.
Qed.

Lemma engine_read_agrees fuel w entropy options w' e0 e1 e path :
  open_ok entropy options → open fuel w entropy options = Ret (Some (w', Ok e0)) →
  rtc engine_step e0 e1 → rtc engine_step e1 e →
  match engine_stream e path with
  | Panic => False
  | Ret (Err error) => error = StreamUnavailable ∧ engine_exit e ≠ None
  | Ret (Ok status) => ∀ command, command ∈ engine_accepted e1 → command_path command = path →
      acknowledged e1 command status
  end.
Proof using BL HL LS LW GL SL.
  intros Hok Hopen Hs1 Hs2.
  destruct (open_steps_inv fuel w entropy options w' e0 e Hok Hopen) as (r & Hrec & I); [by etrans|].
  unfold engine_stream. destruct (engine_exit e) eqn:Hx; [done|].
  destruct (ei_live _ _ _ _ I Hx) as [Hr _]. destruct (reachable_inv _ _ _ _ Hrec Hr) as [Inv Li _].
  assert (forest_wf (i_view (s_interp (engine_system e)))) as Hwf.
  { rewrite (li_view _ _ _ _ _ Li). apply (inv_core _ Inv). }
  destruct (view_stream_Ret _ path Hwf) as (status & Hs & _). rewrite Hs. cbn [exec_bind].
  intros command Hin <-. by eapply promised_status.
Qed.

(** C5: a client reads what it wrote.  From any store an engine was opened on, through
    any interleaving of clients, the Writer's work (one event at a time), its failures and
    a shutdown, reading
    a stream never panics and is refused only after the Writer stopped; and whenever a
    read answers, it agrees with every positive reply any client had received by any
    earlier moment: a created path is not missing, a closed stream is closed or deleted,
    a deleted path is deleted. *)
Theorem engine_reads_own_writes (fuel : nat) (w w' : World) (entropy : Entropy) (options : Options)
    (e0 e1 e : Engine) (path : StreamPath) :
  open_ok entropy options → open fuel w entropy options = Ret (Some (w', Ok e0)) →
  rtc engine_step e0 e1 → rtc engine_step e1 e →
  match engine_stream e path with
  | Panic => False
  | Ret (Err error) => error = StreamUnavailable ∧ engine_exit e ≠ None
  | Ret (Ok status) => ∀ command, command ∈ engine_accepted e1 → command_path command = path →
      acknowledged e1 command status
  end.
Proof using BL HL LS LW GL SL. apply engine_read_agrees. Qed.

Lemma shutdown_drains fuel w entropy options w' e0 e :
  open_ok entropy options → open fuel w entropy options = Ret (Some (w', Ok e0)) →
  rtc engine_step e0 e → (shutdown e).2 = Some CloseShutdown →
  engine_commands e = [] ∧
  ∀ command, command ∈ engine_accepted e →
    ∃ completion, received_reply e (envelope_reply command) = Some (Some completion) ∧
      promise command completion (i_view (s_interp (engine_system e))).
Proof using BL HL LS LW GL SL.
  intros Hok Hopen Hsteps Hsh. destruct (open_steps_inv _ _ _ _ _ _ _ Hok Hopen Hsteps) as (r & Hrec & I).
  assert (engine_exit e = Some Shutdown) as Hx by (simpl in Hsh; by destruct (engine_exit e) as [[]|]).
  destruct (ei_shutdown _ _ _ _ I Hx) as [Hc Hperm]. split; [done|]. intros command Hin.
  assert (∃ completion, received_reply e (envelope_reply command) = Some (Some completion)) as [c Hr].
  { rewrite (ei_accepted _ _ _ _ I), Hc, (right_id_L [] (++)) in Hin.
    assert (envelope_reply command ∈ envelope_reply <$> s_received (engine_system e)) as Hin'
      by (by apply list_elem_of_fmap_2).
    rewrite Hperm in Hin'. apply list_elem_of_fmap in Hin' as (c & Hreply & Hc').
    unfold received_reply. destruct (filter _ _) as [|c' l] eqn:Hfil; [|by eexists].
    exfalso. apply (not_elem_of_nil c). rewrite <- Hfil. by apply list_elem_of_filter. }
  exists c. split; [done|]. by eapply received_promise.
Qed.

(** C6: a clean shutdown answers everything.  When the Writer of an opened engine stops
    with [Shutdown], the channel is empty and every command it ever accepted has its own
    completion in its reply channel, true of the final durable view: no accepted command
    is left indeterminate. *)
Theorem engine_drains (fuel : nat) (w w' : World) (entropy : Entropy) (options : Options)
    (e0 e : Engine) :
  open_ok entropy options → open fuel w entropy options = Ret (Some (w', Ok e0)) →
  rtc engine_step e0 e → (shutdown e).2 = Some CloseShutdown →
  engine_commands e = [] ∧
  ∀ command, command ∈ engine_accepted e →
    ∃ completion, received_reply e (envelope_reply command) = Some (Some completion) ∧
      promise command completion (i_view (s_interp (engine_system e))).
Proof using BL HL LS LW GL SL. apply shutdown_drains. Qed.

End serving.

(** * A concrete engine *)

#[local] Existing Instances reference_heap reference_heap_laws reference_jiff reference_layout
  reference_rkyv_laws reference_backend reference_backend_laws reference_format reference_generator
  reference_generator_laws sample_size_law.
#[local] Existing Instance reference_rkyv.

Lemma sample_open_ok : open_ok sample_entropy Options_default.
Proof.
  split.
  - by intros g bytes d d' Hd <-.
  - by intros partition batch bytes object _ _ d d' Hd <-.
  - set_solver.
  - constructor.
Qed.

Definition opened : option (World * Engine) :=
  match open 9 sample_world sample_entropy Options_default with
  | Ret (Some (w, Ok e)) => Some (w, e)
  | _ => None
  end.
Definition engine_0 : Engine :=
  match opened with
  | Some (_, e) => e
  | None => mk_engine sample_partition [] true sample_s0 None []
  end.

Lemma opened_engine :
  ∃ w', open 9 sample_world sample_entropy Options_default = Ret (Some (w', Ok engine_0)).
Proof.
  assert (match open 9 sample_world sample_entropy Options_default with
    | Ret (Some (_, Ok _)) => true | _ => false end = true) as H by (vm_compute; reflexivity).
  unfold engine_0, opened.
  destruct (open 9 sample_world sample_entropy Options_default) as [[[w' [e|]]|]|]; try done. eauto.
Qed.

(** Started; a create sent, taken, and made durable; then a shutdown. *)
Definition with_system (e : Engine) (commands : list CommandEnvelope) (s : System)
    (exit : option WriterExit) : Engine :=
  mk_engine (engine_partition e) commands (engine_senders e) s exit (engine_accepted e).
Definition engine_1 : Engine :=
  with_system engine_0 [] (or_else (react (engine_system engine_0) 0 Started) sample_s0) None.
Definition engine_2 : Engine :=
  mk_engine (engine_partition engine_1) [sample_create] (engine_senders engine_1)
    (engine_system engine_1) None (engine_accepted engine_1 ++ [sample_create]).
Definition engine_3 : Engine :=
  with_system engine_2 [] (or_else (react (receive sample_create (engine_system engine_2)) 1
    (Command sample_create)) sample_s0) None.
Definition engine_4 : Engine :=
  let s := engine_system engine_3 in
  with_system engine_3 [] (or_else (react (finish_sole (sample_durable s) s) 2 (sample_durable s))
    sample_s0) None.
Definition engine_5 : Engine := (shutdown engine_4).1.
Definition engine_6 : Engine :=
  with_system engine_5 [] (or_else (react (engine_system engine_5) 3 IngressClosed) sample_s0)
    (Some Shutdown).

Definition quits {A} (x : Exec (A * option WriterExit)) : bool :=
  match x with Ret (_, Some Shutdown) => true | _ => false end.

Lemma quits_or_else {A} (x : Exec (A * option WriterExit)) a :
  quits x = true → x = Ret (or_else x a, Some Shutdown).
Proof. by destruct x as [[b [[]|]]|]. Qed.

Lemma engine_3_effects :
  i_effects (s_interp (engine_system engine_3)) = [EstablishWal (sole_candidate (engine_system engine_3))].
Proof.
  unfold sole_candidate. assert ((match i_effects (s_interp (engine_system engine_3)) with
    | [EstablishWal _] => true | _ => false end) = true) as H by (vm_compute; reflexivity).
  by destruct (i_effects (s_interp (engine_system engine_3))) as [|[] []].
Qed.

Lemma engine_4_reached : rtc engine_step engine_0 engine_4.
Proof.
  apply (rtc_l _ _ engine_1).
  { apply (step_writer engine_0 0 Started); [vm_compute; reflexivity..|exact I|].
    apply (sys_step_intro _ _ _ (engine_system engine_0));
      [constructor; vm_compute; reflexivity|apply lives_or_else; vm_compute; reflexivity]. }
  apply (rtc_l _ _ engine_2).
  { apply (step_send engine_1 sample_create); [vm_compute; reflexivity| |].
    - apply (bool_decide_unpack (7%nat ∉ envelope_reply <$> engine_accepted engine_1)).
      vm_compute. exact I.
    - reflexivity. }
  apply (rtc_l _ _ engine_3).
  { apply (step_command engine_2 1 sample_create []); [reflexivity|vm_compute; reflexivity|reflexivity|].
    apply (sys_step_intro _ _ _ (receive sample_create (engine_system engine_2)));
      [apply observes_command; vm_compute; reflexivity|apply lives_or_else; vm_compute; reflexivity]. }
  apply rtc_once. apply (step_writer engine_3 2 (sample_durable (engine_system engine_3)));
    [reflexivity|vm_compute; reflexivity|exact I|].
  apply (sys_step_intro _ _ _ (finish_sole (sample_durable (engine_system engine_3)) (engine_system engine_3))).
  - apply (observes_effect _ _ _ [] []); [vm_compute; reflexivity|apply engine_3_effects|constructor].
  - apply lives_or_else. vm_compute. reflexivity.
Qed.

Lemma engine_6_reached : rtc engine_step engine_0 engine_6.
Proof.
  eapply rtc_r; [eapply rtc_r; [apply engine_4_reached|apply (step_shutdown engine_4)]|].
  apply (step_closed engine_5 3); [reflexivity|vm_compute; reflexivity|reflexivity|reflexivity|].
  apply (sys_step_intro _ _ _ (engine_system engine_5));
    [apply observes_closed; vm_compute; reflexivity|apply quits_or_else; vm_compute; reflexivity].
Qed.

Lemma engine_reads_own_writes_witness :
  create_stream_outcome engine_4 7 = Some (Ok Created) ∧
  match engine_stream engine_4 path_a with
  | Panic => False
  | Ret (Err error) => error = StreamUnavailable ∧ engine_exit engine_4 ≠ None
  | Ret (Ok status) => ∀ command, command ∈ engine_accepted engine_4 → command_path command = path_a →
      acknowledged engine_4 command status
  end.
Proof.
  split; [vm_compute; reflexivity|]. destruct opened_engine as [w' Hw].
  apply (engine_reads_own_writes 9 sample_world w' sample_entropy Options_default engine_0 engine_4
    engine_4); [apply sample_open_ok|exact Hw|apply engine_4_reached|apply rtc_refl].
Defined.

Lemma engine_drains_witness :
  engine_commands engine_6 = [] ∧
  ∀ command, command ∈ engine_accepted engine_6 →
    ∃ completion, received_reply engine_6 (envelope_reply command) = Some (Some completion) ∧
      promise command completion (i_view (s_interp (engine_system engine_6))).
Proof.
  destruct opened_engine as [w' Hw].
  apply (engine_drains 9 sample_world w' sample_entropy Options_default engine_0 engine_6);
    [apply sample_open_ok|exact Hw|apply engine_6_reached|vm_compute; reflexivity].
Defined.
