(* ===== verification/Database.v ===== *)
(** The embeddable database and the server's choice of store (crate [strom-db], file
    [lib.rs]; crate [strom-server], file [config.rs]).

    [Db] wraps one engine.  Opening draws a seed from the operating system, which is an
    argument here, and every verb is the engine's; a verb that waits is the engine's send
    together with its outcome.  The store builders of the [object_store] crate and the
    secret loader are the class [StoreBuilders]. *)

From S2P Require Import Prelude OrdMap Text Domain Coordinates Partition Seal Wal Forest.
From S2P Require Import ForestTheory Archive Spelling Sst Writer WriterSafety WriterSystem.
From S2P Require Import Bootstrap BootstrapSafety ObjectStore Stores StoreTheory Common BootstrapRun.
From S2P Require Import Engine.

(** * The database *)

(** strom-db/src/lib.rs:57-61, [Db]. *)
Record Db : Type := mk_db { db_engine : Engine }.

Section db.
  Context {DF : DebugFormat} {B : Backend} {J : Jiff} {HP : Heap} {RL : RowLayout}.
  Context {RW : Rkyv ArchivedWalObject} {RS : Rkyv ArchivedSeal}.
  Context {RD : Rkyv (SstArchive ArchivedDirectoryRow)} {RG : Rkyv (SstArchive ArchivedLedgerRow)}.
  Context {GO : GeneratorOps}.

(** [None] when the fuel of bootstrap is spent.
    strom-db/src/lib.rs:84-97, [Db::open_with]. *)
Definition Db_open_with (fuel : nat) (w : World) (seed : Seed) (options : Options) :
    Exec (option (World * Result OpenError Db)) :=
  let entropy := Entropy_from_seed seed in
  let! opened := open fuel w entropy options in
  Ret (prod_map id (result_map mk_db) <$> opened).

(** strom-db/src/lib.rs:74-76, [Db::open]. *)
Definition Db_open (fuel : nat) (w : World) (seed : Seed) :
    Exec (option (World * Result OpenError Db)) :=
  Db_open_with fuel w seed Options_default.

End db.

(** strom-db/src/lib.rs:100-103, [Db::partition_id]. *)
Definition Db_partition_id (db : Db) : PartitionId := engine_partition (db_engine db).

(** strom-db/src/lib.rs:115-125, [Db::create_stream]. *)
Definition Db_create_stream (db : Db) (path : StreamPath) (content_type : StreamContentType)
    (expiry : ExpiryPolicy) (lifecycle : StreamLifecycle) (reply : Reply) :
    option (Result StreamError Db) * option (Result StreamError CreateOutcome) :=
  (result_map mk_db <$> create_stream (db_engine db) path content_type expiry lifecycle reply,
   create_stream_outcome (db_engine db) reply).

(** strom-db/src/lib.rs:136-138, [Db::close_stream]. *)
Definition Db_close_stream (db : Db) (path : StreamPath) (reply : Reply) :
    option (Result StreamError Db) * option (Result StreamError CloseStreamOutcome) :=
  (result_map mk_db <$> close_stream (db_engine db) path reply,
   close_stream_outcome (db_engine db) reply).

(** strom-db/src/lib.rs:146-148, [Db::delete_stream]. *)
Definition Db_delete_stream (db : Db) (path : StreamPath) (reply : Reply) :
    option (Result StreamError Db) * option (Result StreamError unit) :=
  (result_map mk_db <$> delete_stream (db_engine db) path reply,
   delete_stream_outcome (db_engine db) reply).

(** strom-db/src/lib.rs:156-158, [Db::stream]. *)
Definition Db_stream (db : Db) (path : StreamPath) : Exec (Result StreamError StreamStatus) :=
  engine_stream (db_engine db) path.

(** strom-db/src/lib.rs:166-168, [Db::close]. *)
Definition Db_close (db : Db) : Db * option CloseOutcome :=
  let '(engine, outcome) := shutdown (db_engine db) in (mk_db engine, outcome).

Section opened.
  Context {DF : DebugFormat} {B : Backend} {BL : BackendLaws} {J : Jiff} {HP : Heap} {RL : RowLayout}.
  Context {RW : Rkyv ArchivedWalObject} {RS : Rkyv ArchivedSeal}.
  Context {RD : Rkyv (SstArchive ArchivedDirectoryRow)} {RG : Rkyv (SstArchive ArchivedLedgerRow)}.
  Context {GO : GeneratorOps}.

Lemma Db_open_engine fuel w seed w' db :
  Db_open fuel w seed = Ret (Some (w', Ok db)) →
  open fuel w (Entropy_from_seed seed) Options_default = Ret (Some (w', Ok (db_engine db))).
Proof.
  unfold Db_open, Db_open_with.
  destruct (open fuel w _ _) as [[[w1 [e|error]]|]|]; simpl; intros [=]; by subst.
Qed.

(** A fresh seed has drawn no label, so only the store's promises remain of [open_ok]. *)
Lemma Db_open_ok seed :
  seals_kept → fences_kept → open_ok (Entropy_from_seed seed) Options_default.
Proof. intros Hs Hf. split; [done..|apply not_elem_of_empty|apply built_default]. Qed.

End opened.

(** * The store of a server process *)

(** strom-server/src/config.rs:56-61, [StoreBackend]. *)
Inductive StoreBackend : Type := Memory | S3.

(** The socket address is text the command-line parser checked.
    strom-server/src/config.rs:24-54, [ServerConfig]. *)
Record ServerConfig : Type := mk_config {
  bind : str;
  store : StoreBackend;
  s3_bucket : option str;
  s3_prefix : option str;
  s3_endpoint : option str;
  s3_region : option str
}.

(** strom-server/src/config.rs:63-70, [ConfigError]. *)
Inductive ConfigError : Type :=
| MissingS3Options
| S3Build (detail : str).

(** strom-server/src/config.rs:64-70, [Display for ConfigError]. *)
Definition config_error_display (error : ConfigError) : str :=
  match error with
  | MissingS3Options =>
      lit "`--store s3` requires --s3-bucket, --s3-prefix, --s3-endpoint, and --s3-region"
  | S3Build detail => lit "failed to build the S3 object store: " ++ detail
  end.

(** The settings an [AmazonS3Builder] was given. *)
Record S3Settings : Type := mk_s3 {
  s3_bucket_name : str;
  s3_region_name : str;
  s3_endpoint_url : str;
  s3_access_key_id : str;
  s3_secret_access_key : str;
  s3_allow_http : bool
}.

(** The stores of the [object_store] crate and the secret loader: a fresh in-memory
    store, an S3 client of its settings, a view of a store below a prefix, and the two
    credentials, each failure with its printed error. *)
Class StoreBuilders : Type := {
  Store : Type;
  in_memory : Store;
  s3_build : S3Settings → Result str Store;
  prefix_store : Store → str → Store;
  load_secrets : Result str (str * str)
}.

Section config.
  Context {SB : StoreBuilders}.

(** strom-server/src/config.rs:86-117, [ServerConfig::build_s3_store]. *)
Definition build_s3_store (self : ServerConfig) : Result ConfigError Store :=
  match s3_bucket self, s3_prefix self, s3_endpoint self, s3_region self with
  | Some bucket, Some prefix, Some endpoint, Some region =>
      let? secrets := map_err S3Build load_secrets in
      let allow_http := starts_with (lit "http://") endpoint in
      let? s3 := map_err S3Build
        (s3_build (mk_s3 bucket region endpoint secrets.1 secrets.2 allow_http)) in
      Ok (prefix_store s3 prefix)
  | _, _, _, _ => Err MissingS3Options
  end.

(** strom-server/src/config.rs:79-84, [ServerConfig::build_store]. *)
Definition build_store (self : ServerConfig) : Result ConfigError Store :=
  match store self with
  | Memory => Ok in_memory
  | S3 => build_s3_store self
  end.

(** A process never serves a bucket root by default: a store other than the in-memory
    one is below the configured prefix, and plain HTTP is spoken only to an endpoint
    spelled so. *)
Lemma build_store_below_prefix config built :
  build_store config = Ok built → store config = S3 →
  ∃ prefix settings s3, s3_prefix config = Some prefix ∧ built = prefix_store s3 prefix ∧
    s3_build settings = Ok s3 ∧ s3_bucket config = Some (s3_bucket_name settings) ∧
    (s3_allow_http settings = true → ∃ rest, s3_endpoint_url settings = lit "http://" ++ rest).
Proof.
  unfold build_store, build_s3_store. intros Hb Hs. rewrite Hs in Hb.
  destruct (s3_bucket config) as [bucket|], (s3_prefix config) as [prefix|],
    (s3_endpoint config) as [endpoint|], (s3_region config) as [region|]; try done.
  destruct load_secrets as [secrets|]; [|done]. cbn [map_err result_bind] in Hb.
  destruct (s3_build _) as [s3|] eqn:Hs3; [|done]. injection Hb as <-.
  eexists prefix, _, s3. split_and!; [done..|]. intros Hh. by apply starts_with_true.
Qed.

End config.
