(* ===== verification/Server.v ===== *)
(** The HTTP surface (crate [strom-server]): typed extraction of the request, the verb
    handlers, the response headers, and the mapping of errors to statuses.

    What the framework decides is given: the route it matched, the captured path, the
    text of each header, the collected body.  A handler's calls of the database are given
    by their awaited results ([DbCalls]); [replied] ties them to a running engine.
    The theorems show on which request alone the surface panics, that a response always
    carries its security headers, and that what one request was told, a later [HEAD] confirms. *)

From S2P Require Import Prelude OrdMap Text Domain Coordinates Partition Seal Wal Forest.
From S2P Require Import ForestTheory Archive Spelling Sst Writer WriterSafety WriterSystem.
From S2P Require Import Bootstrap BootstrapSafety ObjectStore Stores StoreTheory Common BootstrapRun.
From S2P Require Import Engine Database.

(** * Error texts *)

(** strom-domain/src/stream_path.rs:78-90, [Display for StreamPathError]. *)
Definition stream_path_error_display (error : StreamPathError) : str :=
  match error with
  | PathOverMaxBytes => lit "stream path exceeds 512 bytes"
  | ControlCharacter => lit "stream path contains a control character"
  | EmptySegment => lit "stream path is empty or has an empty segment"
  | RelativeSegment => lit "stream path contains a `.` or `..` segment"
  | ReservedRootSegment => lit "stream path starts with the reserved `__ds` segment"
  end.

(** strom-domain/src/content_type.rs:209-219, [Display for ContentTypeError]. *)
Definition content_type_error_display (error : ContentTypeError) : str :=
  match error with
  | ContentTypeOverMaxBytes => lit "content type exceeds 256 bytes"
  | ContentTypeMalformed =>
      lit "content type is not `type/subtype` with an optional `charset=token` parameter"
  | UnsupportedParameter => lit "content type has a parameter other than `charset`"
  | NonCanonical => lit "content type is not in canonical lowercase form"
  end.

(** strom-domain/src/expiry.rs:114-122, [Display for StreamTtlError]. *)
Definition stream_ttl_error_display (error : StreamTtlError) : str :=
  match error with
  | TtlMalformed => lit "stream TTL is not a plain decimal integer without leading zeros"
  | TtlZero => lit "stream TTL of zero seconds is not accepted"
  | TtlOverMax => lit "stream TTL exceeds the representable maximum"
  end.

(** strom-domain/src/expiry.rs:171-173, [Display for ExpiresAtError]. *)
Definition expires_at_error_display (error : ExpiresAtError) : str :=
  lit "expires-at is not a valid RFC 3339 timestamp".

(** strom-domain/src/expiry.rs:45-48, [Display for ExpiryPolicyConflict]. *)
Definition expiry_policy_conflict_display (error : ExpiryPolicyConflictError) : str :=
  lit "Stream-TTL and Stream-Expires-At are mutually exclusive".

(** * Requests and responses *)

(** strom-server/src/headers.rs:5-6, [STREAM_TTL]. *)
Definition STREAM_TTL : str := lit "stream-ttl".
(** strom-server/src/headers.rs:8-9, [STREAM_EXPIRES_AT]. *)
Definition STREAM_EXPIRES_AT : str := lit "stream-expires-at".
(** strom-server/src/headers.rs:11-12, [STREAM_CLOSED]. *)
Definition STREAM_CLOSED : str := lit "stream-closed".
Definition CONTENT_TYPE : str := lit "content-type".
Definition LOCATION : str := lit "location".
Definition CACHE_CONTROL : str := lit "cache-control".

Record Response : Type := mk_response {
  response_status : Z;
  response_headers : gmap str str;
  response_body : str
}.

(** A response of a status alone. *)
Definition status_response (status : Z) : Response := mk_response status ∅ [].
Definition with_header (name value : str) (response : Response) : Response :=
  mk_response (response_status response) (<[name := value]> (response_headers response))
    (response_body response).
Definition with_status (status : Z) (response : Response) : Response :=
  mk_response status (response_headers response) (response_body response).

(** What the framework made of a request: the matched route, the captured path or its
    rejection, each header's first value and its text when it has one, the path of the
    URI, and the collected body or the rejection of the body limit. *)
Inductive Route : Type :=
| RouteReserved
| RoutePut
| RoutePost
| RouteGet
| RouteHead
| RouteDelete
| RouteOther (response : Response).

Record Request : Type := mk_request {
  request_route : Route;
  request_path : Result str str;
  request_header : str → option (option str);
  request_uri_path : str;
  request_body : Result Response (list Z)
}.

(** The operations of the [http] and [jiff] crates the responses use: whether a text is a
    header value, and the text of a timestamp. *)
Class HttpOps := {
  header_value_ok : str → bool;
  timestamp_display : Z → str
}.

Definition visible (s : str) : Prop := Forall (λ c, 32 ≤ c ≤ 126) s.

(** Visible ASCII makes a header value, and timestamps print as visible ASCII. *)
Class HttpLaws `{HttpOps} : Prop := {
  header_value_visible : ∀ s, visible s → header_value_ok s = true;
  timestamp_display_visible : ∀ t, visible (timestamp_display t)
}.

(** * Errors *)

(** strom-server/src/error.rs:19-38, [ApiError]. *)
Inductive ApiError : Type :=
| BadRequest (detail : str)
| NotFound
| Conflict (detail : str)
| Gone
| TooManyRequests
| Indeterminate
| NotImplemented (detail : str)
| Unavailable.

(** strom-server/src/error.rs:20-38, [Display for ApiError]. *)
Definition api_error_display (error : ApiError) : str :=
  match error with
  | BadRequest detail | Conflict detail | NotImplemented detail => detail
  | NotFound => lit "Not found"
  | Gone => lit "Gone"
  | TooManyRequests => lit "Too many requests"
  | Indeterminate => lit "operation outcome is indeterminate"
  | Unavailable => lit "Unavailable"
  end.

(** strom-server/src/error.rs:41-62, [IntoResponse for ApiError]. *)
Definition api_error_response (error : ApiError) : Response :=
  let status :=
    match error with
    | BadRequest _ => 400
    | NotFound => 404
    | Conflict _ => 409
    | Gone => 410
    | TooManyRequests => 429
    | Indeterminate => 500
    | NotImplemented _ => 501
    | Unavailable => 503
    end in
  mk_response status {[CONTENT_TYPE := lit "text/plain; charset=utf-8"]} (api_error_display error).

(** strom-server/src/error.rs:65-78, [From StreamError for ApiError]. *)
Definition api_error_from (error : StreamError) : ApiError :=
  match error with
  | StreamOccupied => Conflict (lit "stream exists with a different configuration")
  | StreamCapacityExhausted | StreamOverloaded => TooManyRequests
  | StreamUnavailable => Unavailable
  | StreamIndeterminate => Indeterminate
  | StreamNotLive => NotFound
  end.

(** * Extraction *)

(** strom-server/src/extract.rs:70-73, [stream_path]. *)
Definition stream_path (path : str) : Result ApiError StreamPath :=
  map_err (λ error, BadRequest (stream_path_error_display error)) (StreamPath_from_str path).

(** strom-server/src/extract.rs:21-30, [RequestStreamPath]. *)
Definition request_stream_path (request : Request) : Result ApiError StreamPath :=
  let? path := map_err BadRequest (request_path request) in
  stream_path path.

(** A header as text: absent, or present and text, or rejected with a detail. *)
Definition header_text (request : Request) (name detail : str) : Result ApiError (option str) :=
  match request_header request name with
  | None => Ok None
  | Some None => Err (BadRequest detail)
  | Some (Some text) => Ok (Some text)
  end.

(** strom-server/src/extract.rs:75-88, [content_type]. *)
Definition request_content_type (request : Request) : Exec (Result ApiError StreamContentType) :=
  match header_text request CONTENT_TYPE (lit "invalid Content-Type encoding") with
  | Err error => Ret (Err error)
  | Ok None => Ret (Ok octet_stream)
  | Ok (Some text) =>
      let! parsed := StreamContentType_from_str text in
      Ret (map_err (λ error, BadRequest (content_type_error_display error)) parsed)
  end.

(** strom-server/src/extract.rs:90-117, [expiry]. *)
Definition request_expiry `{Jiff} (request : Request) : Result ApiError ExpiryPolicy :=
  let? ttl := header_text request STREAM_TTL (lit "invalid Stream-TTL encoding") in
  let? ttl :=
    match ttl with
    | None => Ok None
    | Some text =>
        map_err (λ error, BadRequest (stream_ttl_error_display error))
          (result_map Some (StreamTtl_from_str text))
    end in
  let? expires_at := header_text request STREAM_EXPIRES_AT (lit "invalid Stream-Expires-At encoding") in
  let? expires_at :=
    match expires_at with
    | None => Ok None
    | Some text =>
        map_err (λ error, BadRequest (expires_at_error_display error))
          (result_map Some (ExpiresAt_from_str text))
    end in
  map_err (λ error, BadRequest (expiry_policy_conflict_display error))
    (ExpiryPolicy_try_from (ttl, expires_at)).

(** strom-server/src/extract.rs:119-129, [lifecycle]. *)
Definition request_lifecycle (request : Request) : StreamLifecycle :=
  if match request_header request STREAM_CLOSED with
     | Some (Some value) => eq_ignore_ascii_case value (lit "true")
     | _ => false
     end
  then Closed else Open.

(** * Response headers *)

Section respond.
  Context {HO : HttpOps}.

(** strom-server/src/respond.rs:24-32, [Location]. *)
Definition location_header (path : str) (response : Response) : Exec Response :=
  assert! header_value_ok path in Ret (with_header LOCATION path response).

(** strom-server/src/respond.rs:45-53, [ContentTypeHeader]. *)
Definition content_type_header (content_type : StreamContentType) (response : Response) :
    Exec Response :=
  assert! header_value_ok (StreamContentType_as_str content_type) in
  Ret (with_header CONTENT_TYPE (StreamContentType_as_str content_type) response).

(** strom-server/src/respond.rs:66-84, [ExpiryHeaders]. *)
Definition expiry_headers (expiry : ExpiryPolicy) (response : Response) : Exec Response :=
  match expiry with
  | NoExpiry => Ret response
  | SlidingTtl ttl => Ret (with_header STREAM_TTL (dec (content ttl)) response)
  | AbsoluteExpiry expires_at =>
      let value := timestamp_display (unix_nanoseconds expires_at) in
      assert! header_value_ok value in Ret (with_header STREAM_EXPIRES_AT value response)
  end.

(** strom-server/src/respond.rs:94-104, [ClosedHeader]. *)
Definition closed_header (lifecycle : StreamLifecycle) (response : Response) : Response :=
  match lifecycle with
  | Open => response
  | Closed => with_header STREAM_CLOSED (lit "true") response
  end.

End respond.

(** * Handlers *)

(** The database as one request sees it: what each call it may make was answered. *)
Record DbCalls : Type := mk_calls {
  call_create : StreamPath → StreamContentType → ExpiryPolicy → StreamLifecycle →
    Result StreamError CreateOutcome;
  call_close : StreamPath → Result StreamError CloseStreamOutcome;
  call_delete : StreamPath → Result StreamError unit;
  call_stream : StreamPath → Exec (Result StreamError StreamStatus)
}.

Definition refuse (r : Exec (Result ApiError Response)) : Exec Response :=
  let! r := r in
  Ret (match r with Ok response => response | Err error => api_error_response error end).

Section handlers.
  Context {J : Jiff} {HO : HttpOps}.

(** strom-server/src/handlers.rs:131-139, [refuse_not_live]. *)
Definition refuse_not_live (db : DbCalls) (path : StreamPath) : Exec ApiError :=
  let! status := call_stream db path in
  Ret (match status with
       | Ok StatusMissing => NotFound
       | Ok StatusDeleted => Gone
       | Ok (StatusLive _ _ _) => Indeterminate
       | Err error => api_error_from error
       end).

(** strom-server/src/handlers.rs:17-48, [put]. *)
Definition put (db : DbCalls) (request : Request) : Exec Response :=
  refuse
    (match request_stream_path request with
     | Err error => Ret (Err error)
     | Ok path =>
         let!? content_type := request_content_type request in
         match request_expiry request with
         | Err error => Ret (Err error)
         | Ok expiry =>
             let lifecycle := request_lifecycle request in
             match request_body request with
             | Err rejection => Ret (Ok rejection)
             | Ok body =>
                 if negb (bool_decide (body = [])) then
                   Ret (Err (BadRequest (lit "initial content is not supported yet")))
                 else
                   match call_create db path content_type expiry lifecycle with
                   | Err error => Ret (Err (api_error_from error))
                   | Ok outcome =>
                       let status := match outcome with Created => 201 | AlreadyExists => 200 end in
                       let response := closed_header lifecycle (status_response 200) in
                       let! response := location_header (request_uri_path request) response in
                       let! response := content_type_header content_type response in
                       Ret (Ok (with_status status response))
                   end
             end
         end
     end).

(** strom-server/src/handlers.rs:120-129, [close_stream]. *)
Definition handler_close_stream (db : DbCalls) (path : StreamPath) : Exec (Result ApiError Response) :=
  match call_close db path with
  | Ok (StreamClosedNow | AlreadyClosed) =>
      Ret (Ok (with_status 204 (closed_header Closed (status_response 200))))
  | Err StreamNotLive => let! error := refuse_not_live db path in Ret (Err error)
  | Err error => Ret (Err (api_error_from error))
  end.

(** strom-server/src/handlers.rs:50-66, [post]. *)
Definition post (db : DbCalls) (request : Request) : Exec Response :=
  refuse
    (match request_stream_path request with
     | Err error => Ret (Err error)
     | Ok path =>
         match request_body request with
         | Err rejection => Ret (Ok rejection)
         | Ok body =>
             match request_lifecycle request, bool_decide (body = []) with
             | Closed, true => handler_close_stream db path
             | _, false => Ret (Err (NotImplemented (lit "append is not implemented")))
             | Open, true =>
                 Ret (Err (BadRequest (lit "empty body requires Stream-Closed: true")))
             end
         end
     end).

(** strom-server/src/handlers.rs:68-91, [head]. *)
Definition head (db : DbCalls) (request : Request) : Exec Response :=
  refuse
    (match request_stream_path request with
     | Err error => Ret (Err error)
     | Ok path =>
         let! status := call_stream db path in
         match status with
         | Err error => Ret (Err (api_error_from error))
         | Ok StatusMissing => Ret (Err NotFound)
         | Ok StatusDeleted => Ret (Err Gone)
         | Ok (StatusLive content_type expiry lifecycle) =>
             let response := closed_header lifecycle (status_response 200) in
             let response := with_header CACHE_CONTROL (lit "no-store") response in
             let! response := content_type_header content_type response in
             let! response := expiry_headers expiry response in
             Ret (Ok (with_status 200 response))
         end
     end).

(** strom-server/src/handlers.rs:93-103, [delete]. *)
Definition delete (db : DbCalls) (request : Request) : Exec Response :=
  refuse
    (match request_stream_path request with
     | Err error => Ret (Err error)
     | Ok path =>
         match call_delete db path with
         | Ok _ => Ret (Ok (status_response 204))
         | Err StreamNotLive => let! error := refuse_not_live db path in Ret (Err error)
         | Err error => Ret (Err (api_error_from error))
         end
     end).

(** strom-server/src/handlers.rs:105-113, [get]. *)
Definition get (request : Request) : Exec Response :=
  refuse
    (Ret (match request_stream_path request with
          | Err error => Err error
          | Ok _ => Err (NotImplemented (lit "read is not implemented"))
          end)).

(** strom-server/src/handlers.rs:115-118, [reserved_not_found]. *)
Definition reserved_not_found : Response := api_error_response NotFound.

(** strom-server/src/lib.rs:27-57, [router]. *)
Definition router (db : DbCalls) (request : Request) : Exec Response :=
  let! response :=
    match request_route request with
    | RouteReserved => Ret reserved_not_found
    | RoutePut => put db request
    | RoutePost => post db request
    | RouteGet => get request
    | RouteHead => head db request
    | RouteDelete => delete db request
    | RouteOther response => Ret response
    end in
  Ret (with_header (lit "x-content-type-options") (lit "nosniff")
         (with_header (lit "cross-origin-resource-policy") (lit "cross-origin") response)).

End handlers.

(** * Visible spellings *)

Lemma token_visible s : is_token s = true → visible s.
Proof.
  intros Ht. apply is_token_spec in Ht as [_ Hs]. unfold visible. eapply Forall_impl; [exact Hs|].
  intros c. simpl. unfold is_token_char, is_ascii_lowercase, is_ascii_uppercase, is_ascii_digit.
  rewrite !orb_true_iff, !andb_true_iff, !Z.leb_le, existsb_exists.
  intros [[[?|?]|?]|(x & Hx & ->%Z.eqb_eq)]; try lia.
  vm_compute in Hx. lia.
Qed.

Lemma content_type_visible ct : visible (StreamContentType_as_str ct).
Proof.
  pose proof (validate_canonical_as_str ct) as Hv.
  apply validate_canonical_spelling in Hv as (ty & sub & charset & (Ht & Hs & Hc & _) & ->).
  unfold spelling, visible. repeat apply Forall_app_2; try (apply token_visible; by apply Ht || by apply Hs).
  - repeat constructor; lia.
  - destruct charset as [v|]; [|constructor]. apply Forall_app_2; [|by apply token_visible, (Hc v)].
    apply (Forall_impl (λ c, (32 <=? c) && (c <=? 126) = true)); [|intros; lia].
    apply (forallb_true (λ c, (32 <=? c) && (c <=? 126))). vm_compute. reflexivity.
Qed.

(** * Totality *)

Section total.
  Context {J : Jiff} {HO : HttpOps} {HWL : HttpLaws}.

Lemma content_type_header_Ret ct response :
  content_type_header ct response = Ret (with_header CONTENT_TYPE (StreamContentType_as_str ct) response).
Proof using HWL.
  unfold content_type_header. by rewrite (header_value_visible _ (content_type_visible ct)).
Qed.

Lemma location_header_Ret path response :
  visible path → location_header path response = Ret (with_header LOCATION path response).
Proof using HWL. intros Hp. unfold location_header. by rewrite (header_value_visible _ Hp). Qed.

Lemma expiry_headers_Ret expiry response :
  ∃ response', expiry_headers expiry response = Ret response' ∧
    response_status response' = response_status response ∧
    response_headers response' !! STREAM_CLOSED = response_headers response !! STREAM_CLOSED.
Proof using HWL.
  destruct expiry as [|ttl|at_]; cbn [expiry_headers].
  - by eexists.
  - eexists. split; [reflexivity|]. split; [done|]. simpl. by rewrite lookup_insert_ne.
  - rewrite (header_value_visible _ (timestamp_display_visible _)).
    eexists. split; [reflexivity|]. split; [done|]. simpl. by rewrite lookup_insert_ne.
Qed.

Lemma request_content_type_Ret request : ∃ r, request_content_type request = Ret r.
Proof.
  unfold request_content_type. destruct (header_text _ _ _) as [[text|]|]; [|by eexists..].
  pose proof (from_str_no_panic text).
  destruct (StreamContentType_from_str text); cbn [exec_bind]; [by eexists|done].
Qed.

Lemma refuse_Ret (r : Exec (Result ApiError Response)) :
  r ≠ Panic → ∃ response, refuse r = Ret response.
Proof. intros Hr. destruct r as [[|]|]; [by eexists..|done]. Qed.

(** A [PUT] was created whose own path is not a header value. *)
Definition location_refused (db : DbCalls) (request : Request) : Prop :=
  request_route request = RoutePut ∧ header_value_ok (request_uri_path request) = false ∧
  ∃ path content_type expiry outcome,
    request_stream_path request = Ok path ∧ request_content_type request = Ret (Ok content_type) ∧
    request_expiry request = Ok expiry ∧ request_body request = Ok [] ∧
    call_create db path content_type expiry (request_lifecycle request) = Ok outcome.

Lemma location_refused_put db request : location_refused db request → put db request = Panic.
Proof.
  intros (_ & Hu & path & ct & ex & outcome & Hp & Hc & He & Hb & Hk).
  unfold put. rewrite Hp, Hc. cbn [try_bind]. rewrite He, Hb. simpl. rewrite Hk.
  unfold location_header. by rewrite Hu.
Qed.

(** The database's read of the path of a request does not panic. *)
Definition reads_return (db : DbCalls) (request : Request) : Prop :=
  ∀ path, request_stream_path request = Ok path → call_stream db path ≠ Panic.

(** The handlers return. *)
Lemma put_Ret db request :
  request_route request = RoutePut →
  location_refused db request ∨ ∃ response, put db request = Ret response.
Proof using HWL.
  intros Hroute. unfold put. destruct (request_stream_path request) as [path|] eqn:Hp; [|by right; eexists].
  destruct (request_content_type_Ret request) as [[ct|] Hc]; rewrite Hc; cbn [try_bind];
    [|by right; eexists].
  destruct (request_expiry request) as [expiry|] eqn:He; [|by right; eexists].
  destruct (request_body request) as [body|] eqn:Hb; [|by right; eexists].
  case_bool_decide as Hn; [subst body|by right; eexists]. simpl.
  destruct (call_create _ _ _ _ _) as [outcome|] eqn:Hk; [|by right; eexists]. unfold location_header.
  destruct (header_value_ok (request_uri_path request)) eqn:Hu; cbn [exec_bind].
  - right. rewrite content_type_header_Ret. by eexists.
  - left. split_and!; [done..|]. by exists path, ct, expiry, outcome.
Qed.

Lemma refuse_not_live_Ret db path :
  call_stream db path ≠ Panic → ∃ error, refuse_not_live db path = Ret error.
Proof. intros Hs. unfold refuse_not_live. destruct (call_stream db path); [by eexists|done]. Qed.

Lemma handler_close_Ret db path :
  call_stream db path ≠ Panic → handler_close_stream db path ≠ Panic.
Proof.
  intros Hs. unfold handler_close_stream. destruct (refuse_not_live_Ret db path Hs) as [error ->].
  by destruct (call_close db path) as [[]|[]].
Qed.

Lemma head_Ret db request :
  reads_return db request → ∃ response, head db request = Ret response.
Proof using HWL.
  intros Hs. apply refuse_Ret. destruct (request_stream_path request) as [path|] eqn:Hp; [|done].
  specialize (Hs path Hp).
  destruct (call_stream db path) as [[[| |ct ex lc]|]|]; try done; cbn [exec_bind].
  rewrite content_type_header_Ret. cbn [exec_bind].
  destruct (expiry_headers_Ret ex (with_header CONTENT_TYPE (StreamContentType_as_str ct)
    (with_header CACHE_CONTROL (lit "no-store") (closed_header lc (status_response 200)))))
    as (response & -> & _). done.
Qed.

Lemma post_Ret db request :
  reads_return db request → ∃ response, post db request = Ret response.
Proof.
  intros Hs. apply refuse_Ret. destruct (request_stream_path request) as [path|] eqn:Hp; [|done].
  specialize (Hs path Hp).
  destruct (request_body request) as [body|]; [|done].
  destruct (request_lifecycle request), (bool_decide (body = [])); try done.
  by apply handler_close_Ret.
Qed.

Lemma delete_Ret db request :
  reads_return db request → ∃ response, delete db request = Ret response.
Proof.
  intros Hs. apply refuse_Ret. destruct (request_stream_path request) as [path|] eqn:Hp; [|done].
  specialize (Hs path Hp).
  destruct (refuse_not_live_Ret db path Hs) as [error ->].
  by destruct (call_delete db path) as [|[]].
Qed.

Lemma stream_path_rejected request error :
  request_stream_path request = Err error → response_status (api_error_response error) = 400.
Proof.
  unfold request_stream_path, stream_path. destruct (request_path request) as [path|]; simpl.
  - destruct (StreamPath_from_str path); [done|]. by intros [= <-].
  - by intros [= <-].
Qed.

(** The response before the layers. *)
Lemma route_Ret db request :
  reads_return db request →
  location_refused db request ∨ ∃ response, match request_route request with
    | RouteReserved => Ret reserved_not_found | RoutePut => put db request
    | RoutePost => post db request | RouteGet => get request | RouteHead => head db request
    | RouteDelete => delete db request | RouteOther response => Ret response end = Ret response.
Proof using HWL.
  intros Hs. destruct (request_route request) eqn:Hr;
    [|by apply put_Ret|right..]; [right; by eexists|by apply post_Ret| |by apply head_Ret|by apply delete_Ret
    |by eexists].
  unfold get. by destruct (request_stream_path request); eexists.
Qed.

Definition stream_route (route : Route) : bool :=
  match route with RouteReserved | RouteOther _ => false | _ => true end.

(** C31: on which requests the HTTP surface panics, and what it answers to all others.
    When the database's read of the path does not panic (that of a running engine never
    does), the router panics exactly on a [PUT] that created its stream, or found it there,
    and whose own URI path is not a header value: the [expect] of the [Location] header.
    The reason the code gives for it is that the framework admits visible ASCII only; on
    such a path the router returns a response, whatever the headers, the body and the
    database's answers are.  Every response carries the two browser security headers, and
    a malformed stream path is a 400 on every verb, before anything else is looked at. *)
Theorem router_panics_exactly (db : DbCalls) (request : Request) :
  reads_return db request →
  (router db request = Panic ↔ location_refused db request) ∧
  (visible (request_uri_path request) → ∃ response, router db request = Ret response) ∧
  (∀ error, stream_route (request_route request) = true → request_stream_path request = Err error →
    ∃ response, router db request = Ret response ∧ response_status response = 400) ∧
  (∀ response, router db request = Ret response →
    response_headers response !! lit "x-content-type-options" = Some (lit "nosniff") ∧
    response_headers response !! lit "cross-origin-resource-policy" = Some (lit "cross-origin")).
Proof using HWL.
  intros Hs.
  assert (location_refused db request ∨ ∃ response, router db request = Ret response) as Hret.
  { destruct (route_Ret db request Hs) as [?|[response Hr]]; [by left|right].
    unfold router. rewrite Hr. by eexists. }
  split_and!.
  - split.
    + intros Hr. destruct Hret as [?|[response H]]; [done|]. by rewrite H in Hr.
    + intros Hl. pose proof Hl as [Hroute _]. unfold router. rewrite Hroute.
      by rewrite (location_refused_put db request Hl).
  - intros Hv. destruct Hret as [(_ & Hu & _)|?]; [|done]. by rewrite (header_value_visible _ Hv) in Hu.
  - intros error Hroute Hbad. unfold router, put, post, get, head, delete. rewrite Hbad.
    destruct (request_route request); try done;
      (eexists; split; [reflexivity|]; simpl; by apply (stream_path_rejected request)).
  - intros response Hr. unfold router in Hr. destruct (match request_route request with
      RouteReserved => _ | _ => _ end) as [r|]; [|done]. injection Hr as <-. simpl.
    split; [by rewrite lookup_insert_eq|]. rewrite lookup_insert_ne by done. by rewrite lookup_insert_eq.
Qed.

End total.

(** * Requests over an engine *)

(** The command a request sends to the database. *)
Inductive issues `{Jiff} (request : Request) : CommandEnvelope → Prop :=
| issues_create path content_type expiry reply :
    request_route request = RoutePut → request_stream_path request = Ok path →
    request_content_type request = Ret (Ok content_type) → request_expiry request = Ok expiry →
    issues request
      (CommandCreate (mk_create path content_type expiry (request_lifecycle request)) reply)
| issues_close path reply :
    request_route request = RoutePost → request_stream_path request = Ok path →
    request_body request = Ok [] → request_lifecycle request = Closed →
    issues request (CommandClose path reply)
| issues_delete path reply :
    request_route request = RouteDelete → request_stream_path request = Ok path →
    issues request (CommandDelete path reply).

(** The database's answer to that command is what its reply channel held. *)
Definition replied (e : Engine) (command : CommandEnvelope) (db : DbCalls) : Prop :=
  match command with
  | CommandCreate create reply => create_stream_outcome e reply =
      Some (call_create db (create_path create) (create_content_type create) (create_expiry create)
              (create_lifecycle create))
  | CommandClose path reply => close_stream_outcome e reply = Some (call_close db path)
  | CommandDelete path reply => delete_stream_outcome e reply = Some (call_delete db path)
  end.

Definition success (response : Response) : Prop := 200 ≤ response_status response < 300.

(** What a [HEAD] says after a successful request: a created path is not unknown, a
    closed stream is marked closed or gone, a deleted one is gone; unless the partition
    stopped serving. *)
Definition confirms (command : CommandEnvelope) (response : Response) : Prop :=
  response_status response = 503 ∨ response_status response = 410 ∨
  match command with
  | CommandCreate _ _ => response_status response = 200
  | CommandClose _ _ => response_status response = 200 ∧
      response_headers response !! STREAM_CLOSED = Some (lit "true")
  | CommandDelete _ _ => False
  end.

Section confirmed.
  Context {J : Jiff} {HO : HttpOps} {HWL : HttpLaws}.

(** A success of the request was a positive answer of the database. *)
Lemma success_answered db request command response :
  issues request command → (∀ rejection, request_body request = Err rejection → ¬ success rejection) →
  router db request = Ret response → success response →
  match command with
  | CommandCreate create _ => ∃ outcome, call_create db (create_path create)
      (create_content_type create) (create_expiry create) (create_lifecycle create) = Ok outcome
  | CommandClose path _ => ∃ outcome, call_close db path = Ok outcome
  | CommandDelete path _ => ∃ outcome, call_delete db path = Ok outcome
  end.
Proof.
  intros Hi Hrej Hr Hs. unfold router in Hr.
  assert (∀ error, ¬ success (with_header (lit "x-content-type-options") (lit "nosniff")
    (with_header (lit "cross-origin-resource-policy") (lit "cross-origin") (api_error_response error))))
    as Herr by (intros error; unfold success; destruct error; simpl; lia).
  destruct Hi as [path ct ex reply Hroute Hp Hct Hex|path reply Hroute Hp Hb Hl|path reply Hroute Hp];
    rewrite Hroute in Hr; simpl.
  - unfold put in Hr. rewrite Hp, Hct in Hr. cbn [try_bind] in Hr. rewrite Hex in Hr.
    destruct (request_body request) as [body|rejection] eqn:Hb.
    + destruct (negb _); [injection Hr as <-; by apply Herr in Hs|].
      destruct (call_create _ _ _ _ _) as [outcome|error]; [eauto|].
      injection Hr as <-. by apply Herr in Hs.
    + injection Hr as <-. exfalso. by apply (Hrej rejection).
  - unfold post in Hr. rewrite Hp, Hb, Hl in Hr. unfold handler_close_stream in Hr.
    destruct (call_close db path) as [outcome|error]; [eauto|].
    destruct error; try (injection Hr as <-; by apply Herr in Hs).
    destruct (refuse_not_live db path) as [error|]; [|done]. injection Hr as <-. by apply Herr in Hs.
  - unfold delete in Hr. rewrite Hp in Hr. destruct (call_delete db path) as [outcome|error]; [eauto|].
    destruct error; try (injection Hr as <-; by apply Herr in Hs).
    destruct (refuse_not_live db path) as [error|]; [|done]. injection Hr as <-. by apply Herr in Hs.
Qed.

(** What [HEAD] answers of a status. *)
Lemma head_answers db request path :
  request_route request = RouteHead → request_stream_path request = Ok path →
  ∀ r, call_stream db path = Ret r →
  ∃ response, router db request = Ret response ∧
    match r with
    | Err error => response_status response = response_status (api_error_response (api_error_from error))
    | Ok StatusMissing => response_status response = 404
    | Ok StatusDeleted => response_status response = 410
    | Ok (StatusLive _ _ lifecycle) => response_status response = 200 ∧
        (lifecycle = Closed → response_headers response !! STREAM_CLOSED = Some (lit "true"))
    end.
Proof using HWL.
  intros Hroute Hp r Hs. unfold router, head. rewrite Hroute, Hp, Hs.
  destruct r as [[| |ct ex lc]|error]; try (by eexists); cbn [exec_bind].
  rewrite content_type_header_Ret. cbn [exec_bind].
  destruct (expiry_headers_Ret ex (with_header CONTENT_TYPE (StreamContentType_as_str ct)
    (with_header CACHE_CONTROL (lit "no-store") (closed_header lc (status_response 200)))))
    as (response & -> & Hst & Hcl).
  eexists. split; [reflexivity|]. split; [done|]. intros ->. simpl.
  rewrite !lookup_insert_ne by done. rewrite Hcl. simpl. by rewrite !lookup_insert_ne, lookup_insert_eq by done.
Qed.

Lemma acknowledged_confirms e command db status response :
  acknowledged e command status → replied e command db →
  match command with
  | CommandCreate create _ => ∃ outcome, call_create db (create_path create)
      (create_content_type create) (create_expiry create) (create_lifecycle create) = Ok outcome
  | CommandClose path _ => ∃ outcome, call_close db path = Ok outcome
  | CommandDelete path _ => ∃ outcome, call_delete db path = Ok outcome
  end →
  match status with
  | StatusMissing => response_status response = 404
  | StatusDeleted => response_status response = 410
  | StatusLive _ _ lifecycle => response_status response = 200 ∧
      (lifecycle = Closed → response_headers response !! STREAM_CLOSED = Some (lit "true"))
  end → confirms command response.
Proof.
  intros Ha Hr Hok Hs. unfold confirms.
  destruct command as [create reply|path reply|path reply]; simpl in *;
    destruct Hok as [outcome Hok]; rewrite Hok in Hr; specialize (Ha _ Hr).
  - destruct status; [done|auto|]. do 2 right. apply Hs.
  - destruct Ha as [->|(ct & ex & ->)]; [auto|]. destruct Hs as [? Hc]. auto.
  - subst. auto.
Qed.

End confirmed.

Section served.
  Context {DF : DebugFormat} {B : Backend} {BL : BackendLaws} {J : Jiff} {RL : RowLayout}.
  Context {HP : Heap} {HL : HeapLaws} {RW : Rkyv ArchivedWalObject} {LW : RkyvLaws ArchivedWalObject}.
  Context {RS : Rkyv ArchivedSeal} {LS : RkyvLaws ArchivedSeal} {SL : WalSizeLaw}.
  Context {RD : Rkyv (SstArchive ArchivedDirectoryRow)} {RG : Rkyv (SstArchive ArchivedLedgerRow)}.
  Context {GO : GeneratorOps} {GL : GeneratorLaws} {HO : HttpOps} {HWL : HttpLaws}.

(** C4: what a request was told, a later [HEAD] confirms.  Over a database opened on any
    store, when a [PUT], closing [POST] or [DELETE] was answered with a success, every
    later [HEAD] of the path returns, and does not say 404: it reports a created stream
    as present or gone, a closed one as closed or gone, a deleted one as gone, unless the
    partition has stopped serving (503). *)
Theorem requests_confirmed (fuel : nat) (w w' : World) (seed : Seed) (opened : Db)
    (e1 e : Engine) (db db' : DbCalls) (request request' : Request) (command : CommandEnvelope)
    (response : Response) :
  seals_kept → fences_kept → Db_open fuel w seed = Ret (Some (w', Ok opened)) →
  rtc engine_step (db_engine opened) e1 → rtc engine_step e1 e →
  issues request command → command ∈ engine_accepted e1 → replied e1 command db →
  (∀ rejection, request_body request = Err rejection → ¬ success rejection) →
  router db request = Ret response → success response →
  request_route request' = RouteHead → request_stream_path request' = Ok (command_path command) →
  call_stream db' = Db_stream (mk_db e) →
  ∃ response', router db' request' = Ret response' ∧ confirms command response'.
Proof using BL HL LS LW GL SL HWL.
  intros Hseals Hfences Hopen%Db_open_engine Hs1 Hs2 Hi Hin Hrep Hrej Hr Hsucc Hroute Hpath Hcall.
  pose proof (engine_read_agrees _ _ _ _ _ _ _ _ (command_path command)
    (Db_open_ok seed Hseals Hfences) Hopen Hs1 Hs2) as Hread.
  destruct (engine_stream e (command_path command)) as [r|] eqn:Hstream; [|done].
  destruct (head_answers db' request' (command_path command) Hroute Hpath r) as (response' & Hr' & Hans);
    [by rewrite Hcall; unfold Db_stream|].
  exists response'. split; [done|]. destruct r as [status|error].
  - eapply acknowledged_confirms; [by apply Hread|done| |done].
    by eapply success_answered.
  - destruct Hread as [-> _]. by left.
Qed.

End served.

(** * A concrete exchange *)

#[local] Existing Instances reference_heap reference_heap_laws reference_jiff reference_layout
  reference_rkyv_laws reference_backend reference_backend_laws reference_format reference_generator
  reference_generator_laws sample_size_law.
#[local] Existing Instance reference_rkyv.

(** Header values of visible ASCII, and timestamps by their nanoseconds. *)
#[local] Instance reference_http : HttpOps := {|
  header_value_ok s := forallb (λ c, (32 <=? c) && (c <=? 126)) s;
  timestamp_display t := if 0 <=? t then dec t else lit "-" ++ dec (- t)
|}.

Lemma digits_visible v : 0 ≤ v → visible (dec v).
Proof.
  intros Hv. eapply Forall_impl; [apply (dec_digits v Hv)|]. intros c Hc.
  cbn beta in *. lia.
Qed.

#[local] Instance reference_http_laws : HttpLaws.
Proof.
  split.
  - intros s Hs. apply forallb_true. eapply Forall_impl; [exact Hs|]. intros c Hc. simpl in *. lia.
  - intros t. simpl. destruct (Z.leb_spec 0 t); [by apply digits_visible|].
    constructor; [lia|apply digits_visible; lia].
Qed.

(** The [PUT] behind the sample create, and a [HEAD] of its path. *)
Definition sample_put : Request :=
  mk_request RoutePut (Ok (lit "a"))
    (λ name, if bool_decide (name = CONTENT_TYPE) then Some (Some (lit "application/json")) else None)
    (lit "/a") (Ok []).
Definition sample_head : Request := mk_request RouteHead (Ok (lit "a")) (λ _, None) (lit "/a") (Ok []).
Definition sample_calls : DbCalls :=
  mk_calls (λ _ _ _ _, Ok Created) (λ _, Err StreamNotLive) (λ _, Err StreamNotLive)
    (engine_stream engine_4).

(** A database that creates what it is asked to. *)
Definition sample_created : DbCalls :=
  mk_calls (λ _ _ _ _, Ok Created) (λ _, Err StreamNotLive) (λ _, Err StreamNotLive)
    (λ _, Ret (Ok StatusMissing)).

Lemma sample_uri_visible : visible (lit "/a").
Proof. apply (bool_decide_unpack _). vm_compute. exact I. Qed.

(** A [PUT] with a visible path, and the same with a path that is no header value. *)
Definition unprintable_put : Request :=
  mk_request RoutePut (Ok (lit "a")) (request_header sample_put) [47; 233] (Ok []).

Lemma router_panics_exactly_witness :
  (∃ response, router sample_created sample_put = Ret response) ∧
  router sample_created unprintable_put = Panic.
Proof.
  split.
  - apply (router_panics_exactly sample_created sample_put); [done|apply sample_uri_visible].
  - apply (router_panics_exactly sample_created unprintable_put); [done|].
    split; [reflexivity|]. split; [reflexivity|].
    destruct (request_stream_path unprintable_put) as [path|] eqn:Hp; [|discriminate Hp].
    destruct (request_content_type unprintable_put) as [[ct|]|] eqn:Hc; [|discriminate Hc..].
    destruct (request_expiry unprintable_put) as [expiry|] eqn:He; [|discriminate He].
    exists path, ct, expiry, Created. repeat split.
Defined.

Lemma sample_db w' :
  open 9 sample_world sample_entropy Options_default = Ret (Some (w', Ok engine_0)) →
  Db_open 9 sample_world [] = Ret (Some (w', Ok (mk_db engine_0))).
Proof.
  unfold Db_open, Db_open_with, sample_entropy. intros Hw. cbv zeta.
  destruct (open 9 _ _ _) as [o|]; [|discriminate Hw]. injection Hw as ->. reflexivity.
Qed.

Lemma requests_confirmed_witness :
  ∃ response, router sample_calls sample_head = Ret response ∧ confirms sample_create response.
Proof.
  destruct opened_engine as [w' Hw].
  assert (∃ response, router sample_calls sample_put = Ret response ∧ success response)
    as (response & Hr & Hs).
  { assert (match router sample_calls sample_put with
      | Ret response => (200 <=? response_status response) && (response_status response <? 300)
      | Panic => false end = true) as H by (vm_compute; reflexivity).
    destruct (router sample_calls sample_put) as [response|]; [|done]. exists response.
    split; [done|]. unfold success. lia. }
  apply (requests_confirmed 9 sample_world w' [] (mk_db engine_0) engine_4 engine_4
    sample_calls sample_calls sample_put sample_head sample_create response).
  - apply (open_seals _ _ sample_open_ok).
  - apply (open_fences _ _ sample_open_ok).
  - exact (sample_db w' Hw).
  - apply engine_4_reached.
  - apply rtc_refl.
  - apply issues_create; reflexivity.
  - apply (elem_of_app (engine_accepted engine_1) [sample_create]). right. by left.
  - vm_compute. reflexivity.
  - intros rejection Hb. discriminate Hb.
  - exact Hr.
  - exact Hs.
  - reflexivity.
  - reflexivity.
  - reflexivity.
Defined.
