(* ===== verification/Process.v ===== *)
(** The server process (crate [strom-server], file [main.rs]).

    [main] builds the store of its configuration, opens the database on it, binds its
    address, serves until a shutdown signal, and closes the database.  Serving, and the
    Writer behind it, is the engine of Engine.v taking steps; the framework decides when
    serving ends, how many owners of the database it leaves, and what binding answers
    ([ProcessOps]).

    A process that ends without an error closed its database and logged how: as closed only
    after a clean shutdown, when every command it accepted was answered, and as an error for
    every other outcome, with a successful exit all the same. *)

From S2P Require Import Prelude OrdMap Text Domain Coordinates Partition Seal Wal Forest.
From S2P Require Import ForestTheory Archive Spelling Sst Writer WriterSafety WriterSystem.
From S2P Require Import Bootstrap BootstrapSafety ObjectStore Stores StoreTheory Common BootstrapRun.
From S2P Require Import Engine Database.

(** What the framework and the operating system decide: the contents behind a store, and the
    answer to binding an address. *)
Class ProcessOps `{StoreBuilders, Backend} : Type := {
  store_world : Store → World;
  listen : str → Result str unit
}.

(** The errors [main] returns. *)
Inductive MainError : Type :=
| MainConfig (error : ConfigError)
| MainOpen (error : OpenError)
| MainText (text : str).

(** What the process logs. *)
Inductive LogLine : Type :=
| LogOpened (partition : PartitionId)
| LogListening (address : str)
| LogSignal
| LogClosed (outcome : CloseOutcome)
| LogUnclean (outcome : CloseOutcome).

(** Where [main] stands. *)
Inductive Process : Type :=
| ProcessServes (db : Db)
| ProcessCloses (db : Db)
| ProcessExits (result : Result MainError unit) (db : option Db)
| ProcessPanics.

(** A signal the process waits for. *)
Inductive Signal : Type := SignalPending | SignalArrived | SignalNoHandler.

(** One poll of the two signals, in the order [select] chose; [true] once one arrived.
    strom-server/src/main.rs:49-72, [shutdown_signal]. *)
Definition shutdown_signal (first second : Signal) : Exec bool :=
  match first with
  | SignalNoHandler => Panic
  | SignalArrived => Ret true
  | SignalPending =>
      match second with
      | SignalNoHandler => Panic
      | SignalArrived => Ret true
      | SignalPending => Ret false
      end
  end.

(** strom-server/src/main.rs:38-45, [main (outcome)]. *)
Definition close_line (outcome : CloseOutcome) : LogLine :=
  match outcome with
  | CloseShutdown => LogClosed outcome
  | CloseFenced | ClosePoisoned _ | CloseContradiction _ => LogUnclean outcome
  end.

Section process.
  Context {DF : DebugFormat} {B : Backend} {J : Jiff} {HP : Heap} {RL : RowLayout}.
  Context {RW : Rkyv ArchivedWalObject} {RS : Rkyv ArchivedSeal}.
  Context {RD : Rkyv (SstArchive ArchivedDirectoryRow)} {RG : Rkyv (SstArchive ArchivedLedgerRow)}.
  Context {GO : GeneratorOps} {SB : StoreBuilders} {PO : ProcessOps}.

(** Up to serving; [None] when the fuel of bootstrap is spent.
    strom-server/src/main.rs:21-29, [main (start)]. *)
Definition main_start (fuel : nat) (config : ServerConfig) (seed : Seed) :
    Exec (option (Process * list LogLine)) :=
  match build_store config with
  | Err error => Ret (Some (ProcessExits (Err (MainConfig error)) None, []))
  | Ok store =>
      let! opened := Db_open fuel (store_world store) seed in
      Ret (match opened with
           | None => None
           | Some (_, Err error) => Some (ProcessExits (Err (MainOpen error)) None, [])
           | Some (_, Ok db) =>
               let opened := LogOpened (Db_partition_id db) in
               Some match listen (bind config) with
                    | Err error =>
                        (ProcessExits (Err (MainText (lit "bind " ++ bind config ++ lit ": " ++ error)))
                           (Some db), [opened])
                    | Ok _ => (ProcessServes db, [opened; LogListening (bind config)])
                    end
           end)
  end.

(** After serving: the last owner closes the database.
    strom-server/src/main.rs:31-37, [main (stop)]. *)
Definition main_stop (db : Db) (served : Result str unit) (owners : nat) : Process :=
  match served with
  | Err error => ProcessExits (Err (MainText (lit "serve: " ++ error))) (Some db)
  | Ok _ => if bool_decide (owners = 1%nat) then ProcessCloses (Db_close db).1 else ProcessPanics
  end.

(** strom-server/src/main.rs:13-47, [main]. *)
Inductive main_step : Process * list LogLine → Process * list LogLine → Prop :=
| main_serves db e log :
    engine_step (db_engine db) e →
    main_step (ProcessServes db, log) (ProcessServes (mk_db e), log)
| main_stops db served owners first second signalled log :
    shutdown_signal first second = Ret signalled → (served = Ok tt → signalled = true) →
    main_step (ProcessServes db, log)
      (main_stop db served owners, log ++ if signalled then [LogSignal] else [])
| main_signal_panics db first second log :
    shutdown_signal first second = Panic → main_step (ProcessServes db, log) (ProcessPanics, log)
| main_closes db e log :
    engine_step (db_engine db) e →
    main_step (ProcessCloses db, log) (ProcessCloses (mk_db e), log)
| main_ends db outcome log :
    (Db_close db).2 = Some outcome →
    main_step (ProcessCloses db, log) (ProcessExits (Ok tt) (Some db), log ++ [close_line outcome]).

(** The database of a process, while it has one. *)
Definition process_db (process : Process) : option Db :=
  match process with
  | ProcessServes db | ProcessCloses db => Some db
  | ProcessExits _ db => db
  | ProcessPanics => None
  end.

(** A process runs one database from its start to its end. *)
Definition process_ok (opened : Db) (s : Process * list LogLine) : Prop :=
  (∀ db, process_db s.1 = Some db → rtc engine_step (db_engine opened) (db_engine db)) ∧
  ∀ db, s.1 = ProcessExits (Ok tt) db →
    ∃ db' outcome log, db = Some db' ∧ (Db_close db').2 = Some outcome ∧ s.2 = log ++ [close_line outcome].

Lemma main_step_ok opened s s' : process_ok opened s → main_step s s' → process_ok opened s'.
Proof.
  intros [Hdb _] Hs. destruct Hs as [db e log He|db served owners first second signalled log _ _
    |db first second log _|db e log He|db outcome log Ho]; cbn [fst snd process_db] in *; specialize (Hdb _ eq_refl).
  - split; [|done]. intros db' [= <-]. eapply rtc_r; [exact Hdb|done].
  - unfold main_stop. destruct served as [[]|error]; [case_bool_decide|]; split; try done.
    + intros db' [= <-]. eapply rtc_r; [exact Hdb|]. exact (step_shutdown (db_engine db)).
    + by intros db' [= <-].
  - done.
  - split; [|done]. intros db' [= <-]. eapply rtc_r; [exact Hdb|done].
  - split; [by intros db' [= <-]|]. intros db' [= <-]. by exists db, outcome, log.
Qed.

Lemma process_run_ok opened s s' : process_ok opened s → rtc main_step s s' → process_ok opened s'.
Proof. intros H Hr. induction Hr as [s|s t s' Hs _ IH]; [done|]. apply IH. by eapply main_step_ok. Qed.

Lemma main_start_ok fuel config seed process log :
  main_start fuel config seed = Ret (Some (process, log)) →
  (∃ error db, process = ProcessExits (Err error) db) ∨
  ∃ w store db, Db_open fuel (store_world store) seed = Ret (Some (w, Ok db)) ∧
    process = ProcessServes db ∧ process_ok db (process, log).
Proof.
  unfold main_start. destruct (build_store config) as [store|error]; [|intros [= <- <-]; eauto].
  destruct (Db_open _ _ _) as [[[w [db|error]]|]|] eqn:Ho; cbn [exec_bind]; [|intros [= <- <-]; eauto|done|done].
  destruct (listen (bind config)) as [[]|error]; intros [= <- <-]; [|eauto].
  right. exists w, store, db. split; [done|]. split; [done|]. split; [|done]. by intros db' [= <-].
Qed.

  Context {BL : BackendLaws} {HL : HeapLaws} {LW : RkyvLaws ArchivedWalObject}.
  Context {LS : RkyvLaws ArchivedSeal} {SL : WalSizeLaw} {GL : GeneratorLaws}.

(** A process that ends without an error has closed its database and says so last.  It says
    that the database closed only when its Writer shut down cleanly, with every accepted
    command answered truly of the final view; for any other outcome it logs an error, and
    exits with success all the same. *)
Lemma process_exit_means fuel config seed process log db log' :
  seals_kept → fences_kept → main_start fuel config seed = Ret (Some (process, log)) →
  rtc main_step (process, log) (ProcessExits (Ok tt) db, log') →
  ∃ opened outcome earlier, db = Some opened ∧ log' = earlier ++ [close_line outcome] ∧
    let e := db_engine opened in
    match close_line outcome with
    | LogClosed _ => engine_commands e = [] ∧
        ∀ command, command ∈ engine_accepted e →
          ∃ completion, received_reply e (envelope_reply command) = Some (Some completion) ∧
            promise command completion (i_view (s_interp (engine_system e)))
    | _ => outcome ≠ CloseShutdown
    end.
Proof using BL HL LS LW GL SL.
  intros Hseals Hfences Hstart Hrun.
  destruct (main_start_ok _ _ _ _ _ Hstart) as [(error & db' & ->)|(w & store & db0 & Hopen & -> & Hok)].
  { inversion Hrun as [|? ? ? Hs]; inversion Hs. }
  destruct (process_run_ok _ _ _ Hok Hrun) as [Hdb Hexit]. cbn [fst snd process_db] in *.
  destruct (Hexit db eq_refl) as (opened & outcome & earlier & -> & Ho & ->).
  exists opened, outcome, earlier. split; [done|]. split; [done|].
  destruct outcome; cbn [close_line]; try discriminate.
  eapply shutdown_drains; [by apply Db_open_ok|by eapply Db_open_engine|by apply Hdb|].
  exact Ho.
Qed.

End process.
